(* ===== verification/_CoqProject ===== *)
-Q . S2P
Prelude.v
Base64.v
Utf8.v
NameCodec.v
DnsName.v
DnsMessage.v
RingBuffer.v
CmdBuffer.v
Bits.v
BinText.v
Vote.v
IdDecoder.v
ByteReader.v
Message.v
Arp.v
Words.v
Ptrace.v
IdManager.v
TimeWheel.v
TaskRunner.v
TimerRunner.v
TimerSteps.v
Collector.v
DdlConv.v
WeightCodec.v
Topics.v
EchoServer.v
Listener.v
Hub.v
Strlcpy.v
Poll.v
Forwarder.v
Coroutine.v
Coordinator.v
Worker.v
BlockQueue.v
Secure.v
ParseTopic.v
WsNotifier.v
Bins.v
StringBuilder.v
Reconnect.v
Telemetry.v
Endpoint.v
FdPass.v
ProcUtil.v
FileLock.v
Connection.v
Relay.v
Server.v
Logger.v
Watcher.v
Tool.v
Supervisor.v
Export.v
RunnerLife.v
Pty.v
Raii.v
Text.v
Functional.v
ThreadLocal.v
Loops.v
Macros.v
Stdio.v
ListenerClient.v
Preproc.v
Forks.v
Signals.v
Layout.v
Dispatch.v
Ucontext.v
Datagrams.v
Database.v
RelaySystem.v
EchoLoop.v
Programs.v
