(* ===== verification/Prelude.v ===== *)
(** * A verification library for the C programs of c-playground

    The repository (src/) is a collection of C and C++ programs: codecs, data
    structures, network clients and servers, and the library socket/monitor, a
    small framework of messages, task and timer threads and event loops with
    programs on top of it.  This library models the parts that have a logic of
    their own and proves what makes them correct.

    ** Conventions

    - A w-bit integer is a [Z]; conversions and unsigned arithmetic write the
      wrap-around out ([u8], [u32], [wrap], [swrap]), signed overflow is
      undefined ([int_result]).
    - A C object is the list of its cells and a pointer into it an index.  Code
      runs in the monad [outcome]: it returns ([Ret]), does something the
      standard leaves undefined ([Undef]: an access outside an object, a null
      dereference, the use of a freed one), or runs out of the fuel of a loop
      ([NoFuel]).  A theorem [f x = Ret r] is therefore termination, memory
      safety and the value in one.
    - Loops are [Fixpoint]s on a list or on fuel.  Fuel is the length of what is
      walked plus one (Base64, Utf8, DnsName, DdlConv, Strlcpy) or a number the
      theorem quantifies over from a bound on ("every fuel of at least ...");
      where the code may not end, as with the compression pointers of a DNS
      name, that it does not is the theorem ([pointer_loop_diverges]).
    - System calls are arguments: scripts of the results to come, or a [world]
      with a log.  A call waiting for a result that never comes does not return.
    - Threads are lists of atomic actions, one list per interleaving; the steps
      are cut where the mutexes and blocking calls of the code are, and where a
      file takes coarser ones its opening comment says so ([Listener] takes a
      round of the loop and a heartbeat whole, [TimerRunner] a [post] and half a
      round; [Hub] and [TimerSteps] cut these).  An access without a lock to data
      that another thread changes under it is [Undef] where a theorem depends on
      it ([RelaySystem]).
    - Times are nanoseconds of a clock that does not go back.

    ** Files and what they show

    Codecs and text:
    - [Base64] (codec/base64.c): tables, accessors, encoder, decoder.  The
      encoder is RFC 4648; decoding undoes it; every input is decoded without an
      access outside its object or rejected.
    - [Utf8], [NameCodec] (trivial/name_codec.c): round trip of the UTF-8 codec,
      safety of the decoder on every input, the family-name code.
    - [BinText], [Bits] (num/ieee754-float.c, builtin/ctz.c, builtin/popcount.c,
      trivial/itos.c, trivial/zero-byte.c): words in binary, bit counting.
    - [IdDecoder] (string/id_decoder.c), [DdlConv] (string/ddl_conv.c),
      [ByteReader] (codec/clip_varchar.c), [WeightCodec] (socket/codec.h and
      codec.cpp, io/notifier.h): readers and printers of names, table columns,
      rows and weights.
    - [ParseTopic] (io/notifier.cpp): the values of a query, read with [sscanf];
      [Secure] (socket/secure.h, secure.cpp): masked records and their round trip;
      [StringBuilder] (trivial/StringBuilder.cpp, trivial/counter.cpp).
    - [Text] (trivial/StringToVector.cpp, string/dump_strings.c,
      class/override-operator.cpp): a string cut into its words in place, strings
      printed into a buffer exactly while they fit, and the header of a log
      message; [Macros] (macro.h, export.h): macros over their arguments;
      [Preproc] (macro.h): the preprocessor's rescanning as an executable
      expansion, under which [EVAL] and [MAP] expand to every argument.
    - [Words], [Strlcpy] (socket/monitor/util.cpp), [Ptrace]
      (ptrace/ptrace-syscall.c): copies by words are copies by characters.

    Data structures:
    - [RingBuffer] (trivial/ring_buffer.c), [CmdBuffer] (trivial/cmd-buffer.c),
      [IdManager], [TimeWheel] (socket/monitor/runner.h, time_wheel.h), [Topics]
      (io/notifier.h, io/reader.h), [Vote] (trivial/quorum_vote.c): each refines
      an abstract queue, set or map, whatever the calls.
    - [BlockQueue] (design_pattern/producer_and_consumer/1vs1/main.cpp,
      container/blocking-queue.cpp): blocking queues under every interleaving;
      what is put is consumed, in order, and nobody sleeps while there is work.
    - [Bins] (trivial/bitmap.cpp): the instruction and the portable form of the
      bin computation agree, and bins grow with the size.

    - [Layout] (class/align.c, gcc/packed.c, class/union-dump.cpp and others of
      class/): sizes and offsets; [Dispatch] (class/virtual-table.cpp and others
      of class/): a call through a table reaches the function the language says.
    - [Raii] (raii.h, class/naive_function.cpp): deferred calls are run once,
      whatever is moved and swapped; [Functional] (functional/,
      feature/cpp17-fold-expression.cpp): composition, currying, fold
      expressions and the reversal of bytes; [ThreadLocal] (the object per
      thread of 1vs1/main.cpp); [Tool] (socket/tool.h, tool.cpp, time/now.c): the
      spin lock, the counter and the texts of times.

    Processes, terminals and files:
    - [ProcUtil] (socket/monitor/util.cpp): the fields of /proc/self/stat, and
      the two forks that make a daemon; [FileLock] (socket/monitor/fs.cpp,
      io/filelock.cpp): record locks and locks of open file descriptions over the
      ranges [l_whence] gives, with other processes that take locks and change the
      file in between; what is locked, and that nothing of the object's is after
      either class's destructor, the descriptor being shared or not.
    - [FdPass] (socket/monitor/sock.cpp, io/scm-send.c, io/scm-recv.c): the
      control message that carries a descriptor, byte by byte, for every kernel
      that delivers rights as documented.
    - [Pty] (pty/, tty/utility.c): a child in a pseudo terminal, with the error
      of exactly the call that failed when there is none, and a session that is
      recorded without a gap.
    - [Stdio] (io/): programs that read and write a terminal through buffers;
      [Forks] (process/): trees of processes, how often each program's lines are
      printed, with and without buffers that are copied by fork, and who is waited
      for; [Signals] (io/sigio.c, io/sigio-refine.c, trivial/read_val.c): handlers that
      may run between any two statements.
    - [Programs] (trivial/precedence.c, trivial/strtok.c,
      trivial/kernel-o1-schedule.c, tty/tcflush.c, system/getpwuid_r.c,
      trivial/putenv.cpp, process/thread_specific.cpp): one module per program.

    Clients and servers:
    - [DnsName], [DnsMessage] (socket/dns-demo.c): names on the wire, their
      readers against the reading of RFC 1035, and the whole look-up: a response
      with the addresses makes the program report them.
    - [Arp] (socket/arp-demo.c), [EchoServer] (socket/select_test.c,
      socket/keepalive/server.c): every path through the system calls.
    - [Connection], [Server] (socket/network.h, connection.cpp, server.cpp): the
      server's loop implements a set of clients and a log of what they say;
      [Logger] (socket/logger.h, logger.cpp): the bytes that are read are kept in
      the files in turn, as far as files can be opened.
    - [Datagrams] (multicast/, io/msghdr-server.c): over a network that may lose,
      repeat and delay datagrams and has a scope, a receiver in a group prints only
      what senders sent and, when none is lost, all of it, whatever fails on the
      senders' side; scattered messages.
    - [Coroutine] (coroutine/schedule.cpp): the schedule is round robin and ends;
      [Ucontext] (coroutine/ucontext.c, coroutine/task-switch.c): swapped
      contexts, where two tasks that a timer interrupts take turns.

    The monitor and its relatives, the parts that run together:
    - [Message] (message.h, message.cpp): packed messages as instances of a
      class [Packable], whose law is proved for each kind of field, and frames of
      messages of every kind on one byte stream.
    - [TaskRunner], [TimerRunner] (runner.h, runner.cpp): threads that run what
      others post; invariants, no lost wake-up, and that what is posted is run, in
      order, and what is cancelled is not.
    - [TimerSteps] (runner.cpp), on [TimerRunner]: the timer's thread and any
      number of posting threads, cut at every lock, test and system call: what is
      marked is pushed or being pushed, a task cancelled stays out, and nothing is
      undefined but [top()] of a heap emptied meanwhile and a wait of 2^32
      milliseconds.
    - [Listener] (listener.h, listener.cpp), on the three above: requests are
      served in order through loop, worker and writer; a peer that is silent is
      left and one that answers is kept.
    - [Hub] (listener.cpp), on [Listener]: what other threads publish and hand to
      the loop, cut at every lock and write, each message to its own fate.
    - [ListenerClient] (tests/test_listener_client.cpp), on [Listener]: a session
      of the client of the listener.
    - [RunnerLife] (runner.h, state.h), on [TaskRunner]: how a runner is started,
      stopped and joined.
    - [Endpoint] (base.h, endpoint.h, sock.cpp, timer.cpp, signal_fd.cpp,
      pipe.cpp): who owns a descriptor, on every path through the calls.
    - [Poll] (sock.h, sock.cpp): the event loop over epoll refines a set of
      owned descriptors; [Loops] (sock.cpp, collector.h): how loops over events
      end, for the forwarder and the collector; [EchoLoop] (callback.cpp,
      tests/test_poll.cpp), on [Poll]: the smallest server on the loop.
    - [Watcher] (file_watcher.cpp, proc_monitor.cpp): every event the kernel
      writes becomes one call.
    - [Forwarder] (examples/forwarder.h, forwarder.cpp), on [Poll]: clients are
      handed to followers whichever comes first; a run is defined exactly until a
      listed follower leaves, and no descriptor is used after it was closed.
    - [Supervisor] (the main program of forwarder.cpp), on [FileLock], [ProcUtil]
      and [Forwarder]: one process at a time has the lock, and its daemon can
      start it again; [Export] (export/export.cpp): the forwarder as a service
      of a Java program.
    - [Coordinator] (examples/coordinator.h, coordinator.cpp), on [Poll] and
      [TimeWheel]: the wheel with its reference counts refines a count of ticks
      per worker, so that a worker is kept exactly as long as it beats.
    - [Worker] (examples/worker.h, worker.cpp), on [Poll]: its file tells whether
      it is free, and it beats to the coordinator's connection only, when due.
    - [Collector] (socket/collector.h): queue, pool and the hand-over of
      payloads between threads by two swapped vectors.
    - [Reconnect] (socket/collector.cpp): the connection to the server is lost and
      made again without losing a descriptor.
    - [Database] (db/, and its use in socket/collector.cpp): the connector
      against a class [Driver] of the MySQL client's calls with the laws
      [DriverLaws] they are documented with; a driver that keeps rows in memory
      is an instance.
    - [WsNotifier] (io/notifier.cpp), on [Secure], [WeightCodec] and [Topics]:
      from a masked record through the relay's pipe to the subscribers; the
      publication without a lock refines one that is atomic.
    - [Relay] (io/notifier.cpp), on [WsNotifier], [Secure] and [Connection]: the
      relay's loop watches and owns exactly its sensors.
    - [RelaySystem] (io/notifier.cpp), on [Relay] and [WsNotifier]: the two
      threads over the pipe between them; what the relay lets pass is published
      once and in order, unless the filter's look-up meets a registration, which
      is a race.
    - [Telemetry] (socket/collector.cpp), on [WsNotifier]: a sensor's datagram to
      the text its subscribers get.

    ** How the parts are tied together

    [Listener] is proved against [Message], [TaskRunner] and [TimerRunner],
    [Forwarder], [Coordinator] and [Worker] against the ownership lemmas of
    [Poll], [WsNotifier] against those of [Secure], [WeightCodec] and [Topics],
    [Relay] and [Server] against those of [Connection], [RunnerLife] against the
    invariant of [TaskRunner], [Loops] against that of [Forwarder],
    [RelaySystem] against the invariant of [Relay] and the refinement of
    [WsNotifier], [EchoLoop] against that of [Poll]; a client's proofs use the
    lemmas of the part below and not its definitions.
    Where the code has a fault, the theorem states the assumption under which it
    is right and a lemma gives the run that breaks it (for instance
    [stale_record_drops_new] beside [heartbeat_refines]).

    ** Not modelled

    Experiments that print what a compiler makes of a language feature (meta/,
    most of feature/, the uses of boost and log4cxx), which have no behaviour
    beyond the types they name; test programs that only start a component;
    walks over a file tree and temporary files, which are one call of the
    library each; assembly.  Of the modelled parts: doubles (times are exact,
    weights are kept as text or as bytes), what callbacks of users do, and weak
    memory: a step that the code protects by a mutex or makes by one atomic
    operation is one step here.  The MySQL client, the kernel and the C library
    are arguments with their documented behaviour. *)
From Stdlib Require Import ZArith Lia.
From stdpp Require Import base tactics numbers list.

Open Scope Z_scope.

(** ** Outcomes: C executions as values

    A C fragment either returns, performs an action the C standard leaves
    undefined (an access outside an object, a null dereference, a signed
    overflow, a read of an indeterminate value), or exhausts the fuel of the
    loop that models it. *)
Inductive outcome (A : Type) : Type :=
| Ret (a : A)
| Undef
| NoFuel.
Arguments Ret {A} a.
Arguments Undef {A}.
Arguments NoFuel {A}.

#[export] Instance outcome_ret : MRet outcome := @Ret.
#[export] Instance outcome_bind : MBind outcome := λ A B f m,
  match m with
  | Ret a => f a
  | Undef => Undef
  | NoFuel => NoFuel
  end.
#[export] Instance outcome_fmap : FMap outcome := λ A B f m,
  match m with
  | Ret a => Ret (f a)
  | Undef => Undef
  | NoFuel => NoFuel
  end.

#[export] Instance outcome_eq_dec {A} `{EqDecision A} : EqDecision (outcome A).
Proof. solve_decision. Defined.

(** ** Machine integers

    A w-bit integer is a [Z]; conversions write the wrap-around out. *)
Definition wrap (w z : Z) : Z := z mod 2 ^ w.
Definition swrap (w z : Z) : Z := (z + 2 ^ (w - 1)) mod 2 ^ w - 2 ^ (w - 1).

Definition u8 (z : Z) : Z := z mod 256.
Definition u16 (z : Z) : Z := z mod 65536.
Definition u32 (z : Z) : Z := z mod 4294967296.
Definition s8 (z : Z) : Z := swrap 8 z.
Definition s16 (z : Z) : Z := swrap 16 z.
Definition s32 (z : Z) : Z := swrap 32 z.

(** The result of a signed [int] operation: overflow is undefined. *)
Definition int_result (z : Z) : outcome Z :=
  if decide (-2147483648 ≤ z ≤ 2147483647) then Ret z else Undef.

(** A value of type [unsigned char]. *)
Definition is_byte (z : Z) : Prop := 0 ≤ z < 256.
#[export] Instance is_byte_dec z : Decision (is_byte z).
Proof. unfold is_byte. apply _. Defined.

(** A byte of a C string's contents: not the terminator. *)
Definition is_char (z : Z) : Prop := 0 < z < 256.
#[export] Instance is_char_dec z : Decision (is_char z).
Proof. unfold is_char. apply _. Defined.

Abbreviation zlen l := (Z.of_nat (length l)).

(** ** Byte memory

    An object is the list of its bytes; a pointer into it is an index.  Every
    access outside the object is [Undef]. *)
Definition load {A} (m : list A) (i : Z) : outcome A :=
  if decide (0 ≤ i) then
    match m !! Z.to_nat i with Some v => Ret v | None => Undef end
  else Undef.

Definition store {A} (m : list A) (i : Z) (v : A) : outcome (list A) :=
  if decide (0 ≤ i < zlen m) then Ret (<[Z.to_nat i := v]> m) else Undef.

(** [n] consecutive cells from index [i]. *)
Definition load_n {A} (m : list A) (i n : Z) : outcome (list A) :=
  if decide (0 ≤ i ∧ 0 ≤ n ∧ i + n ≤ zlen m)
  then Ret (take (Z.to_nat n) (drop (Z.to_nat i) m)) else Undef.

Definition store_n {A} (m : list A) (i : Z) (vs : list A) : outcome (list A) :=
  if decide (0 ≤ i ∧ i + zlen vs ≤ zlen m)
  then Ret (take (Z.to_nat i) m ++ vs ++ drop (Z.to_nat i + length vs) m)
  else Undef.

(** <string.h> on such objects. *)
Definition memcpy {A} (dst : list A) (di : Z) (src : list A) (si n : Z) : outcome (list A) :=
  vs ← load_n src si n; store_n dst di vs.

Definition memmove {A} (m : list A) (di si n : Z) : outcome (list A) :=
  vs ← load_n m si n; store_n m di vs.

Definition memset {A} (m : list A) (i : Z) (c : A) (n : Z) : outcome (list A) :=
  if decide (0 ≤ n) then store_n m i (replicate (Z.to_nat n) c) else Undef.

Fixpoint scan_nul (m : list Z) : outcome Z :=
  match m with
  | [] => Undef
  | b :: m' => if decide (b = 0) then Ret 0 else k ← scan_nul m'; Ret (1 + k)
  end.

Definition strlen (m : list Z) (i : Z) : outcome Z :=
  if decide (0 ≤ i) then scan_nul (drop (Z.to_nat i) m) else Undef.

Fixpoint scan_chr (c : Z) (m : list Z) (k : Z) : outcome (option Z) :=
  match m with
  | [] => Undef
  | b :: m' =>
      if decide (b = c) then Ret (Some k)
      else if decide (b = 0) then Ret None
      else scan_chr c m' (k + 1)
  end.

(** [strchr(&m[i], c)] as an index into [m]; [None] is the null pointer. *)
Definition strchr (m : list Z) (i c : Z) : outcome (option Z) :=
  if decide (0 ≤ i) then scan_chr c (drop (Z.to_nat i) m) i else Undef.

(** <ctype.h> in the C locale. *)
Definition isspace (c : Z) : bool := bool_decide (9 ≤ c ≤ 13 ∨ c = 32).
Definition toupper (c : Z) : Z := if decide (97 ≤ c ≤ 122) then c - 32 else c.
Definition tolower (c : Z) : Z := if decide (65 ≤ c ≤ 90) then c + 32 else c.

(** An upper case hexadecimal digit. *)
Definition hex_upper (d : Z) : Z := if decide (d < 10) then 48 + d else 55 + d.

(** The string an object holds. *)
Definition c_string (m : list Z) : outcome (list Z) :=
  n ← strlen m 0; load_n m 0 n.

(** [q += sprintf(q, ...)] of the text [str] into the object [m]. *)
Definition sprintf (m : list Z) (q : Z) (str : list Z) : outcome (Z * list Z) :=
  m ← store_n m q (str ++ [0]); Ret (q + zlen str, m).

(** [snprintf(q, n, "%s", str)]: the length it would like to write. *)
Definition snprintf (m : list Z) (q n : Z) (str : list Z) : outcome (Z * list Z) :=
  if decide (n > 0) then
    m ← store_n m q (take (Z.to_nat (n - 1)) str ++ [0]); Ret (zlen str, m)
  else Ret (zlen str, m).

(** 16-bit fields of a little-endian host, and [htons]. *)
Definition load16 (m : list Z) (i : Z) : outcome Z :=
  lo ← load m i; hi ← load m (i + 1); Ret (lo + 256 * hi).
Definition store16 (m : list Z) (i v : Z) : outcome (list Z) :=
  m ← store m i (v mod 256); store m (i + 1) (v / 256 mod 256).
Definition htons (v : Z) : Z := (v mod 256) * 256 + v / 256 mod 256.

(** 32-bit [int] objects of a little-endian host. *)
Definition load32 (m : list Z) (i : Z) : outcome Z :=
  bs ← load_n m i 4;
  Ret (s32 (bs !!! 0%nat + 256 * bs !!! 1%nat + 65536 * bs !!! 2%nat + 16777216 * bs !!! 3%nat)).
Definition store32 (m : list Z) (i v : Z) : outcome (list Z) :=
  store_n m i [v mod 256; v / 256 mod 256; v / 65536 mod 256; v / 16777216 mod 256].

(** ** The allocator

    [malloc(n)] of the C library: a null pointer ([None]) or a new object of
    [n] bytes whose contents are not specified. *)
Class Allocator := {
  malloc : Z → option (list Z);
  malloc_size : ∀ n b, malloc n = Some b → zlen b = n;
}.

(** ** Loops

    [while_fuel fuel body s] runs [body] until it answers [inr]. *)
Fixpoint while_fuel {S R} (fuel : nat) (body : S → outcome (S + R)) (s : S) : outcome R :=
  match fuel with
  | O => NoFuel
  | Datatypes.S fuel' =>
      r ← body s;
      match r with
      | inl s' => while_fuel fuel' body s'
      | inr v => Ret v
      end
  end.

(** A C [for (i = 0; i < n; i++)] whose body cannot leave the loop. *)
Fixpoint for_up {S} (n : nat) (i : Z) (body : Z → S → outcome S) (s : S) : outcome S :=
  match n with
  | O => Ret s
  | Datatypes.S n' => s' ← body i s; for_up n' (i + 1) body s'
  end.

(** An allocator that always finds memory, to evaluate the models with. *)
Definition zeroed (n : Z) : option (list Z) :=
  if decide (0 ≤ n) then Some (replicate (Z.to_nat n) 0) else None.

#[export] Program Instance zero_allocator : Allocator | 100 := {| malloc := zeroed |}.
Next Obligation.
  unfold zeroed. intros n b. case_decide; intros; simplify_eq. rewrite length_replicate. lia.
Qed.

(** ** Lemmas: the monad and the loops *)
Lemma bind_assoc {A B C} (m : outcome A) (f : A → outcome B) (g : B → outcome C) :
  ((m ≫= f) ≫= g) = (m ≫= λ a, f a ≫= g).
Proof. by destruct m. Qed.

Lemma bind_Ret {A B} (m : outcome A) (f : A → outcome B) b :
  (m ≫= f) = Ret b ↔ ∃ a, m = Ret a ∧ f a = Ret b.
Proof. destruct m; simpl; naive_solver. Qed.


Lemma Ret_inj {A} (a b : A) : Ret a = Ret b → a = b.
Proof. by intros [=]. Qed.

Lemma bind_Ret_id {A} (m : outcome A) : (m ≫= Ret) = m.
Proof. by destruct m. Qed.

Lemma while_fuel_S {S R} fuel (body : S → outcome (S + R)) s :
  while_fuel (Datatypes.S fuel) body s =
  (r ← body s; match r with inl s' => while_fuel fuel body s' | inr v => Ret v end).
Proof. done. Qed.

(** More fuel never changes a verdict that was reached. *)
Lemma while_fuel_mono {S R} (body : S → outcome (S + R)) f f' s o :
  while_fuel f body s = o → o ≠ NoFuel → (f ≤ f')%nat → while_fuel f' body s = o.
Proof.
  revert f' s. induction f as [|f IH]; intros f' s H Ho Hle; simpl in H; [congruence|].
  destruct f' as [|f']; [lia|]. simpl.
  destruct (body s) as [[s'|v]| |]; simpl in *; try done. apply IH; [done|done|lia].
Qed.

(** One loop iteration that goes on. *)
Lemma while_fuel_inl {S R} fuel (body : S → outcome (S + R)) s s' :
  body s = Ret (inl s') →
  while_fuel (Datatypes.S fuel) body s = while_fuel fuel body s'.
Proof. intros H. simpl. by rewrite H. Qed.

Lemma while_fuel_inr {S R} fuel (body : S → outcome (S + R)) s v :
  body s = Ret (inr v) → while_fuel (Datatypes.S fuel) body s = Ret v.
Proof. intros H. simpl. by rewrite H. Qed.

Lemma while_fuel_ext {S R} (f g : S → outcome (S + R)) fuel s :
  (∀ s, f s = g s) → while_fuel fuel f s = while_fuel fuel g s.
Proof.
  intros H. revert s. induction fuel as [|fuel IH]; intros s; simpl; [done|].
  rewrite H. destruct (g s) as [[s'|v]| |]; simpl; auto.
Qed.

(** A loop that comes back to its own state never ends. *)
Lemma while_fuel_stuck {S R} (body : S → outcome (S + R)) s fuel :
  body s = Ret (inl s) → while_fuel fuel body s = NoFuel.
Proof. intros H. induction fuel as [|fuel IH]; simpl; [done|]. by rewrite H. Qed.

(** An invariant of the loop body holds when the loop is left. *)
Lemma while_fuel_inv {S R} (body : S → outcome (S + R)) (I : S → Prop) (Q : R → Prop) fuel s v :
  (∀ s s', I s → body s = Ret (inl s') → I s') →
  (∀ s v, I s → body s = Ret (inr v) → Q v) →
  I s → while_fuel fuel body s = Ret v → Q v.
Proof.
  intros Hstep Hend. revert s. induction fuel as [|fuel IH]; intros s HI H; simpl in H; [done|].
  destruct (body s) as [[s'|v']| |] eqn:E; simpl in H; simplify_eq; eauto.
Qed.

Lemma for_up_inv {S} (body : Z → S → outcome S) (I : Z → S → Prop) n i s :
  (∀ j s, i ≤ j < i + Z.of_nat n → I j s → ∃ s', body j s = Ret s' ∧ I (j + 1) s') →
  I i s → ∃ s', for_up n i body s = Ret s' ∧ I (i + Z.of_nat n) s'.
Proof.
  revert i s. induction n as [|n IH]; intros i s Hb HI; cbn [for_up].
  - exists s. split; [done|]. by rewrite Z.add_0_r.
  - destruct (Hb i s) as (s1 & -> & HI1); [lia|done|]. simpl.
    destruct (IH (i + 1) s1) as (s2 & -> & HI2); [intros; apply Hb; [lia|done]|done|].
    exists s2. split; [done|]. by replace (i + _) with (i + 1 + Z.of_nat n) by lia.
Qed.

Lemma for_up_add {S} (body : Z → S → outcome S) m n i s :
  for_up (m + n) i body s = (s' ← for_up m i body s; for_up n (i + Z.of_nat m) body s').
Proof.
  revert i s. induction m as [|m IH]; intros i s; cbn [for_up Nat.add].
  - by rewrite Z.add_0_r.
  - destruct (body i s) as [s'| |]; cbn [mbind outcome_bind]; [|done..].
    rewrite IH. by replace (i + 1 + Z.of_nat m) with (i + Z.of_nat (Datatypes.S m)) by lia.
Qed.

(** A partial-correctness invariant: a loop whose body may be undefined. *)
Lemma for_up_partial {S} (body : Z → S → outcome S) (I : S → Prop) n i s :
  (∀ j s, I s → body j s = Undef ∨ ∃ s', body j s = Ret s' ∧ I s') →
  I s → for_up n i body s = Undef ∨ ∃ s', for_up n i body s = Ret s' ∧ I s'.
Proof.
  intros Hb. revert i s. induction n as [|n IH]; intros i s HI; cbn [for_up]; [eauto|].
  destruct (Hb i s HI) as [-> |(s' & -> & HI')]; cbn [mbind outcome_bind]; eauto.
Qed.

(** ** Lemmas: machine integers *)

(** Evaluate the powers of two whose exponent is closed. *)
Ltac closed_nat_Z k := lazymatch type of k with _ => let z := eval vm_compute in k in lazymatch z with Z0 => idtac | Z.pos _ => idtac end end.
Ltac eval_pow :=
  repeat match goal with
  | |- context [2 ^ ?k] => closed_nat_Z k; let z := eval vm_compute in (2 ^ k) in change (2 ^ k) with z
  | H : context [2 ^ ?k] |- _ => closed_nat_Z k; let z := eval vm_compute in (2 ^ k) in change (2 ^ k) with z in H
  end.

(** Settle the guards that arithmetic decides. *)
Ltac decide_lia := repeat first [rewrite decide_True by lia | rewrite decide_False by lia].

(** Arithmetic about the lengths of lists. *)
Ltac norm_length :=
  repeat progress (rewrite ?length_app, ?length_take, ?length_drop, ?length_replicate, ?length_map,
    ?length_insert; cbn [length]).
Ltac len := norm_length; lia.

(** Name the [n] cells of an object of that size. *)
Tactic Notation "open_buffer" integer(n) hyp(m) :=
  do n (destruct m as [|? m]; [discriminate|]); (destruct m; [|discriminate]).

(** Settle a closed decidable fact by evaluation. *)
Ltac by_eval := apply (bool_decide_unpack _); vm_compute; exact I.

(** Linear arithmetic with division and remainder by constants. *)
Ltac peel := repeat first [reflexivity | lia | (cbn [length]; lia) | progress f_equal].
Ltac mlia := zify; Z.to_euclidean_division_equations; lia.

Lemma u8_range z : is_byte (u8 z).
Proof. unfold is_byte, u8. mlia. Qed.

Lemma u8_small z : is_byte z → u8 z = z.
Proof. unfold is_byte, u8. intros. apply Z.mod_small. lia. Qed.

Lemma u16_small z : 0 ≤ z < 65536 → u16 z = z.
Proof. intros. by apply Z.mod_small. Qed.

Lemma u32_small z : 0 ≤ z < 4294967296 → u32 z = z.
Proof. intros. by apply Z.mod_small. Qed.

Lemma s32_small z : -2147483648 ≤ z ≤ 2147483647 → s32 z = z.
Proof. intros. unfold s32, swrap. change (2 ^ (32 - 1)) with 2147483648. change (2 ^ 32) with 4294967296. mlia. Qed.

Lemma s16_small z : -32768 ≤ z ≤ 32767 → s16 z = z.
Proof. intros. unfold s16, swrap. change (2 ^ (16 - 1)) with 32768. change (2 ^ 16) with 65536. mlia. Qed.

Lemma int_result_small z : -2147483648 ≤ z ≤ 2147483647 → int_result z = Ret z.
Proof. intros. unfold int_result. by rewrite decide_True by lia. Qed.

Lemma is_char_byte z : is_char z → is_byte z.
Proof. unfold is_char, is_byte. lia. Qed.

(** Facts about the values of a small range, by evaluation. *)
Lemma range_all (P : Z → Prop) `{∀ c, Decision (P c)} (n : Z) :
  forallb (λ c, bool_decide (P c)) (seqZ 0 n) = true → ∀ c, 0 ≤ c < n → P c.
Proof.
  intros Hall c Hc. rewrite forallb_forall in Hall.
  apply (bool_decide_eq_true_1 (P c)), Hall, list_elem_of_In, elem_of_seqZ. lia.
Qed.

(** Bit operations as division and remainder. *)
Lemma land_mask n x : 0 ≤ n → Z.land x (2 ^ n - 1) = x mod 2 ^ n.
Proof. intros. rewrite <- Z.land_ones by lia. f_equal. rewrite Z.ones_equiv. lia. Qed.

Lemma lor_disjoint n hi lo : 0 ≤ n → 0 ≤ lo < 2 ^ n → Z.lor (hi * 2 ^ n) lo = hi * 2 ^ n + lo.
Proof.
  intros Hn Hlo. rewrite <- Z.lxor_lor; [symmetry; apply Z.add_nocarry_lxor|];
    apply Z.bits_inj'; intros i Hi; rewrite Z.land_spec, Z.bits_0, <- Z.shiftl_mul_pow2 by lia;
    destruct (decide (i < n));
    [by rewrite Z.shiftl_spec_low by lia| |by rewrite Z.shiftl_spec_low by lia|];
    rewrite <- (Z.mod_small lo (2 ^ n)), Z.mod_pow2_bits_high by lia; apply andb_false_r.
Qed.

Lemma land_bound n a c : 0 ≤ n → 0 ≤ c < 2 ^ n → 0 ≤ Z.land a c < 2 ^ n.
Proof.
  intros Hn Hc. replace (Z.land a c) with (Z.land a c mod 2 ^ n).
  - apply Z.mod_pos_bound. lia.
  - rewrite <- Z.land_ones, <- Z.land_assoc, Z.land_ones by lia. by rewrite (Z.mod_small c).
Qed.

Lemma land_split n a b c d : 0 ≤ n → 0 ≤ a < 2 ^ n → 0 ≤ c < 2 ^ n →
  Z.land (b * 2 ^ n + a) (d * 2 ^ n + c) = Z.land b d * 2 ^ n + Z.land a c.
Proof.
  intros Hn Ha Hc.
  assert (0 ≤ Z.land a c < 2 ^ n) as Hac by (apply land_bound; lia).
  rewrite <- !lor_disjoint by lia. apply Z.bits_inj'. intros i Hi.
  rewrite Z.land_spec, !Z.lor_spec, <- !Z.shiftl_mul_pow2, Z.land_spec by lia.
  destruct (decide (i < n)).
  - rewrite !Z.shiftl_spec_low by lia. done.
  - rewrite !Z.shiftl_spec, !Z.land_spec by lia.
    rewrite <- (Z.mod_small a (2 ^ n)), <- (Z.mod_small c (2 ^ n)), !Z.mod_pow2_bits_high by lia.
    by rewrite !orb_false_r.
Qed.

(** ** Lemmas: lists *)
Lemma chunk4_ind {A} (P : list A → Prop) :
  P [] → (∀ a b c d s, P s → P (a :: b :: c :: d :: s)) →
  ∀ s, (length s mod 4 = 0)%nat → P s.
Proof.
  intros H0 H4. fix IH 1. intros [|a [|b [|c [|d s]]]] Hl; try done.
  apply H4, IH. revert Hl. simpl length.
  replace (S (S (S (S (length s))))) with (length s + 1 * 4)%nat by lia.
  by rewrite Nat.Div0.mod_add.
Qed.

Lemma chunk3_ind {A} (P : list A → Prop) :
  P [] → (∀ a, P [a]) → (∀ a b, P [a; b]) → (∀ a b c s, P s → P (a :: b :: c :: s)) →
  ∀ s, P s.
Proof. intros H0 H1 H2 H3. fix IH 1. intros [|a [|b [|c s]]]; [done..|]. apply H3, IH. Qed.

(** ** Lemmas: byte memory

    The [_app] forms address a cell or a block by the text before it. *)
Lemma load_Ret {A} (m : list A) i v :
  load m i = Ret v ↔ 0 ≤ i ∧ m !! Z.to_nat i = Some v.
Proof.
  unfold load. case_decide; [|naive_solver].
  destruct (m !! Z.to_nat i); naive_solver.
Qed.

Lemma load_in {A} (m : list A) i : 0 ≤ i < zlen m → ∃ v, load m i = Ret v ∧ m !! Z.to_nat i = Some v.
Proof.
  intros Hi. destruct (lookup_lt_is_Some_2 m (Z.to_nat i)) as [v Hv]; [lia|].
  exists v. split; [|done]. apply load_Ret. split; [lia|done].
Qed.

(** The cell at [i] of a list, with what is before and after it. *)
Lemma split_at {A} (l : list A) i : 0 ≤ i < zlen l → ∃ a x c, l = a ++ x :: c ∧ i = zlen a.
Proof.
  intros Hi. destruct (load_in l i) as (x & _ & Hx); [done|].
  exists (take (Z.to_nat i) l), x, (drop (S (Z.to_nat i)) l).
  split; [by rewrite take_drop_middle|]. len.
Qed.

Lemma load_out {A} (m : list A) i : ¬ 0 ≤ i < zlen m → load m i = Undef.
Proof.
  intros Hi. unfold load. case_decide; [|done].
  by rewrite (lookup_ge_None_2 m) by lia.
Qed.

Lemma load_app {A} (a : list A) b c i : i = zlen a → load (a ++ b :: c) i = Ret b.
Proof. intros ->. apply load_Ret. split; [lia|]. rewrite Nat2Z.id. by apply list_lookup_middle. Qed.

Lemma load_app_l {A} (a b : list A) i : i < zlen a → load (a ++ b) i = load a i.
Proof.
  intros Hi. unfold load. case_decide; [|done]. by rewrite lookup_app_l by lia.
Qed.

Lemma load_app_r {A} (a b : list A) i : zlen a ≤ i → load (a ++ b) i = load b (i - zlen a).
Proof.
  intros Hi. unfold load. rewrite !decide_True by lia. rewrite lookup_app_r by lia.
  by replace (Z.to_nat (i - zlen a)) with (Z.to_nat i - length a)%nat by lia.
Qed.

Lemma load_at {A} (a b : list A) i k : i = zlen a → 0 ≤ k → load (a ++ b) (i + k) = load b k.
Proof. intros -> Hk. rewrite load_app_r by lia. f_equal. lia. Qed.

Lemma load_0 {A} (a b : list A) i : i = zlen a → load (a ++ b) i = load b 0.
Proof. intros ->. rewrite load_app_r by lia. f_equal. lia. Qed.

Lemma store_at {A} (a b : list A) i k v :
  i = zlen a → 0 ≤ k → store (a ++ b) (i + k) v = (b' ← store b k v; Ret (a ++ b')).
Proof.
  intros -> Hk. unfold store. rewrite length_app.
  case_decide; case_decide; try lia; [|done]. simpl. f_equal.
  rewrite insert_app_r_alt by lia. do 2 f_equal. lia.
Qed.

Lemma store_0 {A} (a b : list A) i v :
  i = zlen a → store (a ++ b) i v = (b' ← store b 0 v; Ret (a ++ b')).
Proof. intros ->. rewrite <- (Z.add_0_r (zlen a)). by apply store_at. Qed.

Lemma store_app_l {A} (a b : list A) i v :
  i < zlen a → store (a ++ b) i v = (a' ← store a i v; Ret (a' ++ b)).
Proof.
  intros Hi. unfold store. rewrite length_app.
  case_decide; case_decide; try lia; [|done]. simpl. by rewrite insert_app_l by lia.
Qed.

(** The cell [k] of a block [b] in the middle of an object. *)
Lemma store_mid {A} (a b c : list A) i k v :
  i = zlen a → 0 ≤ k < zlen b → store (a ++ b ++ c) (i + k) v = (b' ← store b k v; Ret (a ++ b' ++ c)).
Proof.
  intros Hi Hk. rewrite store_at by lia. unfold store. rewrite length_app, !decide_True by lia.
  cbn. by rewrite insert_app_l by lia.
Qed.

Lemma store_mid_0 {A} (a b c : list A) i v :
  i = zlen a → 0 < zlen b → store (a ++ b ++ c) i v = (b' ← store b 0 v; Ret (a ++ b' ++ c)).
Proof. intros -> Hb. rewrite <- (Z.add_0_r (zlen a)). apply store_mid; lia. Qed.

Lemma store_out {A} (m : list A) i v : ¬ 0 ≤ i < zlen m → store m i v = Undef.
Proof. intros Hi. unfold store. by rewrite decide_False. Qed.

Lemma store_in {A} (m : list A) i v : 0 ≤ i < zlen m → store m i v = Ret (<[Z.to_nat i := v]> m).
Proof. intros Hi. unfold store. by rewrite decide_True. Qed.

Lemma store_length {A} (m m' : list A) i v : store m i v = Ret m' → length m' = length m.
Proof. unfold store. case_decide; intros; simplify_eq. by rewrite length_insert. Qed.

Lemma store_app {A} (a : list A) b c i v : i = zlen a → store (a ++ b :: c) i v = Ret (a ++ v :: c).
Proof.
  intros ->. rewrite store_in by (rewrite length_app; simpl; lia).
  rewrite Nat2Z.id, insert_app_r_alt by lia. by rewrite Nat.sub_diag.
Qed.

Lemma load_n_app {A} (a b c : list A) i n : i = zlen a → n = zlen b → load_n (a ++ b ++ c) i n = Ret b.
Proof.
  intros -> ->. unfold load_n. rewrite decide_True by (rewrite !length_app; lia).
  by rewrite !Nat2Z.id, drop_app_length, take_app_length.
Qed.

Lemma load_n_prefix {A} (b c : list A) n : n = zlen b → load_n (b ++ c) 0 n = Ret b.
Proof. intros ->. by apply (load_n_app []). Qed.

Lemma load_n_Ret {A} (m : list A) i n vs :
  load_n m i n = Ret vs → ∃ a c, m = a ++ vs ++ c ∧ i = zlen a ∧ n = zlen vs.
Proof.
  unfold load_n. case_decide as H; intros; simplify_eq.
  exists (take (Z.to_nat i) m), (drop (Z.to_nat n) (drop (Z.to_nat i) m)).
  rewrite !take_drop, !length_take, length_drop. split_and!; [done|lia..].
Qed.

Lemma load_n_length {A} (m : list A) i n vs : load_n m i n = Ret vs → zlen vs = n.
Proof. intros (a & c & -> & _ & ->)%load_n_Ret. done. Qed.

(** What was read from an object is there in any object it begins. *)
Lemma load_grow {A} (m x : list A) i v : load m i = Ret v → load (m ++ x) i = Ret v.
Proof.
  intros H. rewrite load_app_l; [done|]. apply load_Ret in H as [? H%lookup_lt_Some]. lia.
Qed.

Lemma load_n_grow {A} (m x : list A) i n vs : load_n m i n = Ret vs → load_n (m ++ x) i n = Ret vs.
Proof. intros (a & c & -> & -> & ->)%load_n_Ret. rewrite <- !app_assoc. by apply load_n_app. Qed.

Lemma load_n_sub {A} (m pre mid post : list A) i n :
  load_n m i n = Ret (pre ++ mid ++ post) → load_n m (i + zlen pre) (zlen mid) = Ret mid.
Proof.
  intros (a & c & -> & -> & _)%load_n_Ret.
  replace (a ++ (pre ++ mid ++ post) ++ c) with ((a ++ pre) ++ mid ++ post ++ c) by (by rewrite <- !app_assoc).
  apply load_n_app; len.
Qed.

Lemma load16_n m i a b : load_n m i 2 = Ret [a; b] → load16 m i = Ret (a + 256 * b).
Proof.
  intros (x & y & -> & -> & _)%load_n_Ret. unfold load16. cbn [app]. rewrite (load_app x a _ _ eq_refl). cbn [mbind outcome_bind].
  rewrite cons_middle, app_assoc, load_app by len. done.
Qed.

Lemma scan_nul_grow m x n : scan_nul m = Ret n → scan_nul (m ++ x) = Ret n.
Proof.
  revert n. induction m as [|b m IH]; intros n H; simpl in *; [done|]. case_decide; [done|].
  apply bind_Ret in H as (k & Hk & H). by rewrite (IH _ Hk).
Qed.

Lemma strlen_grow m x i n : strlen m i = Ret n → strlen (m ++ x) i = Ret n.
Proof.
  unfold strlen. case_decide; [|done]. intros Hs. rewrite drop_app. by apply scan_nul_grow.
Qed.

Lemma store_n_app {A} (a b c vs : list A) i :
  i = zlen a → length vs = length b → store_n (a ++ b ++ c) i vs = Ret (a ++ vs ++ c).
Proof.
  intros -> Hl. unfold store_n. rewrite decide_True by (rewrite !length_app; lia).
  rewrite Nat2Z.id, take_app_length, drop_app, drop_app. f_equal. f_equal. f_equal.
  rewrite (drop_ge a), (drop_ge b) by lia. simpl. by rewrite Hl, Nat.add_sub_swap, Nat.sub_diag, Nat.sub_diag by lia.
Qed.

Lemma store_n_length {A} (m m' vs : list A) i : store_n m i vs = Ret m' → length m' = length m.
Proof.
  unfold store_n. case_decide; intros; simplify_eq.
  rewrite !length_app, length_take, length_drop. lia.
Qed.

Lemma store_n_in {A} (m vs : list A) i :
  0 ≤ i → i + zlen vs ≤ zlen m → ∃ m', store_n m i vs = Ret m' ∧ length m' = length m.
Proof.
  intros. destruct (store_n m i vs) as [m'| |] eqn:E; [by eauto using store_n_length|..];
    unfold store_n in E; by rewrite decide_True in E by lia.
Qed.

Lemma store_n_lookup {A} (m m' vs : list A) i k :
  store_n m i vs = Ret m' → ¬ i ≤ Z.of_nat k < i + zlen vs → m' !! k = m !! k.
Proof.
  unfold store_n. case_decide as Hd; [|done]. intros <-%Ret_inj Hk.
  destruct (decide (Z.of_nat k < i)).
  - rewrite lookup_app_l by (rewrite length_take; lia). by apply lookup_take_lt; lia.
  - rewrite lookup_app_r by (rewrite length_take; lia). rewrite lookup_app_r by (rewrite length_take; lia).
    rewrite length_take, lookup_drop. f_equal. lia.
Qed.

Lemma load_n_store_n {A} (m m' vs : list A) i : store_n m i vs = Ret m' → load_n m' i (zlen vs) = Ret vs.
Proof.
  unfold store_n. case_decide as Hd; [|done]. intros <-%Ret_inj. apply load_n_app; [|done].
  rewrite length_take. lia.
Qed.

(** A block that does not overlap the one written. *)
Lemma load_n_store_n_other {A} (m m' vs : list A) i j n :
  store_n m i vs = Ret m' → j + n ≤ i ∨ i + zlen vs ≤ j → load_n m' j n = load_n m j n.
Proof.
  intros Hs Hd. pose proof (store_n_length _ _ _ _ Hs) as Hl. unfold load_n. rewrite Hl.
  case_decide as Hin; [|done]. f_equal. apply list_eq. intros k.
  destruct (decide (k < Z.to_nat n)%nat).
  - rewrite !lookup_take_lt, !lookup_drop by lia. apply (store_n_lookup _ _ _ _ _ Hs). lia.
  - by rewrite !lookup_take_ge by lia.
Qed.

Lemma memcpy_in {A} (dst src : list A) di si n :
  0 ≤ di → 0 ≤ si → 0 ≤ n → di + n ≤ zlen dst → si + n ≤ zlen src →
  memcpy dst di src si n =
    Ret (take (Z.to_nat di) dst ++ take (Z.to_nat n) (drop (Z.to_nat si) src) ++ drop (Z.to_nat (di + n)) dst).
Proof.
  intros. unfold memcpy, load_n. rewrite decide_True by lia. cbn [mbind outcome_bind]. unfold store_n.
  rewrite decide_True by (rewrite length_take, length_drop; lia). do 3 f_equal. rewrite length_take, length_drop. f_equal. lia.
Qed.

Lemma load32_store32 m m' i v : store32 m i v = Ret m' → load32 m' i = Ret (s32 v).
Proof.
  intros H%load_n_store_n. unfold load32. change (Z.of_nat (length _)) with 4 in H. rewrite H.
  cbn [mbind outcome_bind]. f_equal. unfold s32, swrap. cbn [lookup_total list_lookup_total]. eval_pow. mlia.
Qed.

Lemma load32_store32_other m m' i j v :
  store32 m i v = Ret m' → j + 4 ≤ i ∨ i + 4 ≤ j → load32 m' j = load32 m j.
Proof. intros H Hd. unfold load32. by rewrite (load_n_store_n_other _ _ _ _ _ _ H). Qed.

Lemma store32_in m i v : 0 ≤ i → i + 4 ≤ zlen m → ∃ m', store32 m i v = Ret m' ∧ length m' = length m.
Proof. intros. by apply store_n_in. Qed.

(** C strings: contents without a terminator, then the terminator. *)
Lemma scan_nul_app s r : Forall (λ b, b ≠ 0) s → scan_nul (s ++ 0 :: r) = Ret (zlen s).
Proof.
  induction 1 as [|b s Hb Hs IH]; simpl; [done|].
  rewrite decide_False by done. rewrite IH. simpl. f_equal. lia.
Qed.

Lemma strlen_app a s r i :
  i = zlen a → Forall (λ b, b ≠ 0) s → strlen (a ++ s ++ 0 :: r) i = Ret (zlen s).
Proof.
  intros -> Hs. unfold strlen. rewrite decide_True by lia.
  rewrite Nat2Z.id, drop_app_length. by apply scan_nul_app.
Qed.

Lemma strlen_cstr s r : Forall (λ b, b ≠ 0) s → strlen (s ++ 0 :: r) 0 = Ret (zlen s).
Proof. apply (strlen_app []). done. Qed.

Lemma scan_chr_found c s r k :
  c ∉ s → Forall (λ b, b ≠ 0) s → scan_chr c (s ++ c :: r) k = Ret (Some (k + zlen s)).
Proof.
  revert k. induction s as [|b s IH]; intros k Hc Hs; simpl.
  - rewrite decide_True by done. do 2 f_equal. lia.
  - apply not_elem_of_cons in Hc as [Hc Hc']. inversion Hs; subst.
    rewrite !decide_False by done. rewrite IH by done. do 2 f_equal. lia.
Qed.

Lemma scan_chr_none c s r k :
  c ≠ 0 → c ∉ s → Forall (λ b, b ≠ 0) s → scan_chr c (s ++ 0 :: r) k = Ret None.
Proof.
  revert k. induction s as [|b s IH]; intros k Hc0 Hc Hs; simpl.
  - by rewrite decide_False by done.
  - apply not_elem_of_cons in Hc as [Hc Hc']. inversion Hs; subst.
    rewrite !decide_False by done. by apply IH.
Qed.

Lemma strchr_found a c s r i :
  i = zlen a → c ∉ s → Forall (λ b, b ≠ 0) s → strchr (a ++ s ++ c :: r) i c = Ret (Some (i + zlen s)).
Proof.
  intros -> Hc Hs. unfold strchr. rewrite decide_True by lia.
  rewrite Nat2Z.id, drop_app_length. by apply scan_chr_found.
Qed.

Lemma strchr_none a c s r i :
  i = zlen a → c ≠ 0 → c ∉ s → Forall (λ b, b ≠ 0) s → strchr (a ++ s ++ 0 :: r) i c = Ret None.
Proof.
  intros -> Hc0 Hc Hs. unfold strchr. rewrite decide_True by lia.
  rewrite Nat2Z.id, drop_app_length. by apply scan_chr_none.
Qed.

Lemma is_char_nonzero s : Forall is_char s → Forall (λ b, b ≠ 0) s.
Proof. intros H. eapply Forall_impl; [exact H|]. unfold is_char. lia. Qed.

Lemma chars_bytes s : Forall is_char s → Forall is_byte s.
Proof. intros H. eapply Forall_impl; [exact H|]. apply is_char_byte. Qed.

(** Reduce the binds whose first computation has returned. *)
Ltac cbind := cbn [mbind outcome_bind].

Lemma string_prefix s r : Forall is_char s → c_string (s ++ 0 :: r) = Ret s.
Proof.
  intros Hs. unfold c_string. rewrite strlen_cstr by (by apply is_char_nonzero). cbind. by apply load_n_prefix.
Qed.

Lemma snprintf_fits dn r s :
  zlen s < zlen r →
  snprintf (dn ++ r) (zlen dn) (zlen (dn ++ r) - zlen dn) s =
    Ret (zlen s, dn ++ s ++ 0 :: drop (S (length s)) r).
Proof.
  intros Hs. unfold snprintf. rewrite length_app, decide_True by lia.
  rewrite take_ge by lia. rewrite <- (take_drop (S (length s)) r) at 1.
  rewrite store_n_app by (len). cbn [mbind outcome_bind].
  by rewrite <- app_assoc.
Qed.

(** Evaluate accesses to objects whose cells are written out. *)
Ltac literal i := lazymatch i with Z0 => idtac | Z.pos _ => idtac end.
Ltac written l := lazymatch l with app _ _ => fail | _ => idtac end.
Ltac eval_mem :=
  repeat match goal with
  | |- context [load ?l ?i] =>
      literal i; written l;
      let E := fresh in eassert (load l i = Ret _) as E by reflexivity; rewrite E; clear E; cbind
  | |- context [store ?l ?i ?v] =>
      literal i; written l;
      let E := fresh in eassert (store l i v = Ret _) as E by reflexivity; rewrite E; clear E; cbind
  end.

#[global] Arguments while_fuel : simpl never.
#[global] Arguments load : simpl never.
#[global] Arguments store : simpl never.
#[global] Arguments load_n : simpl never.
#[global] Arguments store_n : simpl never.
#[global] Arguments load32 : simpl never.
#[global] Arguments store32 : simpl never.
#[global] Arguments strlen : simpl never.
#[global] Arguments strchr : simpl never.
#[global] Arguments u8 : simpl never.
#[global] Arguments u16 : simpl never.
#[global] Arguments u32 : simpl never.
#[global] Arguments s8 : simpl never.
#[global] Arguments s16 : simpl never.
#[global] Arguments s32 : simpl never.

Create HintDb cmem discriminated.
#[export] Hint Resolve chars_bytes is_char_nonzero is_char_byte u8_range : cmem.
#[export] Hint Extern 2 (_ ≤ _) => lia : cmem.
#[export] Hint Extern 2 (_ < _) => lia : cmem.

(** ** Lemmas: filters *)
Lemma filter_same {A} (P Q : A → Prop) `{∀ x, Decision (P x)} `{∀ x, Decision (Q x)} (l : list A) :
  (∀ x, x ∈ l → P x ↔ Q x) → filter P l = filter Q l.
Proof.
  induction l as [|x l IH]; intros H'; [done|]. rewrite !filter_cons, IH by (intros; apply H'; by right).
  pose proof (H' x ltac:(by left)) as Hx. repeat case_decide; tauto.
Qed.

Lemma filter_keep {A} (P : A → Prop) `{∀ x, Decision (P x)} (l : list A) : (∀ x, x ∈ l → P x) → filter P l = l.
Proof.
  induction l as [|x l IH]; intros H'; [done|]. rewrite filter_cons_True by (apply H'; by left). f_equal. apply IH. intros. apply H'. by right.
Qed.
