(* ===== verification/Base64.v ===== *)
(** * codec/base64.c

    The translation tables filled by the constructor, the group accessors in
    their plain and bit-field forms, the encoder and the decoder, against the
    Base64 encoding of RFC 4648.  A [char] or [unsigned char] cell of memory is
    kept as its byte value. *)
From Stdlib Require Import ZArith Lia.
From stdpp Require Import base tactics numbers list.
From S2P Require Import Prelude.

Open Scope Z_scope.

(** ** The tables *)
Record tables := Tables { base64_table : list Z; base64_rtable : list Z }.

(** Static storage starts out zero. *)
Definition zero_tables : tables := Tables (replicate 256 0) (replicate 256 0).

Definition ASSIGN (x y : Z) (t : tables) : outcome tables :=
  tb ← store (base64_table t) x (u8 y);
  rt ← store (base64_rtable t) y (u8 x);
  Ret (Tables tb rt).

Definition base64_table_init (t : tables) : outcome tables :=
  t ← for_up 26 0 (λ i t,
        t ← ASSIGN i (65 + i) t;
        ASSIGN (i + 26) (97 + i) t) t;
  t ← for_up 10 0 (λ i t, ASSIGN (i + 52) (48 + i) t) t;
  t ← ASSIGN 62 43 t;
  t ← ASSIGN 63 47 t;
  rt ← store (base64_rtable t) 61 0;
  Ret (Tables (base64_table t) rt).

(** ** The group union: four bytes, read as sextets *)
Definition base64_group_b0 (b : list Z) : outcome Z :=
  x ← load b 0; Ret (u8 (Z.shiftr x 2)).

Definition base64_group_b1 (b : list Z) : outcome Z :=
  x ← load b 0; y ← load b 1;
  Ret (u8 (Z.shiftl (Z.land x 0x3) 4 + Z.shiftr y 4)).

Definition base64_group_b2 (b : list Z) : outcome Z :=
  x ← load b 1; y ← load b 2;
  Ret (u8 (Z.shiftl (Z.land x 0xf) 2 + Z.shiftr y 6)).

Definition base64_group_b3 (b : list Z) : outcome Z :=
  x ← load b 2; Ret (u8 (Z.land x 0x3f)).

(** A bit-field of [width] bits at bit [off] of byte [i]: the ABI of the
    supported targets allocates fields from the low end of each byte. *)
Definition bitfield (b : list Z) (i off width : Z) : outcome Z :=
  x ← load b i; Ret (Z.shiftr x off mod 2 ^ width).

(** union base64_group_u_RIGHT: _0l:2 _0h:6 | _1l:4 _1h:4 | _2l:6 _2h:2. *)
Definition base64_group_RIGHT_b0 (b : list Z) : outcome Z :=
  bitfield b 0 2 6.

Definition base64_group_RIGHT_b1 (b : list Z) : outcome Z :=
  l ← bitfield b 0 0 2; h ← bitfield b 1 4 4; Ret (u8 (Z.shiftl l 4 + h)).

Definition base64_group_RIGHT_b2 (b : list Z) : outcome Z :=
  l ← bitfield b 1 0 4; h ← bitfield b 2 6 2; Ret (u8 (Z.shiftl l 2 + h)).

Definition base64_group_RIGHT_b3 (b : list Z) : outcome Z :=
  bitfield b 2 0 6.

(** union base64_group_u_BAD: _0h:6 _0l:2 | _1h:4 _1l:4 | _2h:2 _2l:6 | _3. *)
Definition base64_group_u_BAD_fields (b : list Z) : outcome (list Z) :=
  h0 ← bitfield b 0 0 6; l0 ← bitfield b 0 6 2;
  h1 ← bitfield b 1 0 4; l1 ← bitfield b 1 4 4;
  h2 ← bitfield b 2 0 2; l2 ← bitfield b 2 2 6;
  x3 ← load b 3;
  Ret [h0; l0; h1; l1; h2; l2; x3].

(** ** Decoding *)
Section codec.
Context `{Allocator} (t : tables).

Definition decode_group (src : list Z) (q : Z) : outcome (list Z) :=
  let group := replicate 4 0 in
  c ← load src q; x ← load (base64_rtable t) c;
  g0 ← load group 0; group ← store group 0 (u8 (Z.lor g0 (Z.shiftl x 2)));
  c ← load src (q + 1); x ← load (base64_rtable t) c;
  g0 ← load group 0; group ← store group 0 (u8 (Z.lor g0 (Z.shiftr x 4)));
  g1 ← load group 1; group ← store group 1 (u8 (Z.lor g1 (Z.shiftl (Z.land x 0xf) 4)));
  c ← load src (q + 2); x ← load (base64_rtable t) c;
  g1 ← load group 1; group ← store group 1 (u8 (Z.lor g1 (Z.shiftr x 2)));
  g2 ← load group 2; group ← store group 2 (u8 (Z.lor g2 (Z.shiftl (Z.land x 0x3) 6)));
  c ← load src (q + 3); x ← load (base64_rtable t) c;
  g2 ← load group 2; store group 2 (u8 (Z.lor g2 x)).

(** One turn of the loop over (p, q, dst). *)
Definition decode_step (src : list Z) (s : Z * Z * list Z) : outcome (Z * Z * list Z + Z * list Z) :=
  let '(p, q, dst) := s in
  c ← load src q;
  if decide (c = 0) then Ret (inr (p, dst))
  else
    group ← decode_group src q;
    dst ← memcpy dst p group 0 3;
    Ret (inl (p + 3, q + 4, dst)).

(** [src] is the object the argument points to, or the null pointer; the
    result is the object returned, or the null pointer. *)
Definition base64_decode (src : option (list Z)) : outcome (option (list Z)) :=
  match src with
  | None => Ret None
  | Some src =>
      c ← load src 0;
      if decide (c = 0) then Ret None
      else
        n ← strlen src 0;
        let sz := s32 n in
        if decide (Z.land sz 0x3 ≠ 0) then Ret None
        else
          match malloc (Z.quot sz 4 * 3 + 1) with
          | None => Ret None
          | Some dst =>
              '(p, dst) ← while_fuel (length src) (decode_step src) (0, 0, dst);
              dst ← store dst p 0;
              Ret (Some dst)
          end
  end.

(** ** Encoding *)

(** The inner loop: fill the group from index [n] on, at most [k] more bytes. *)
Fixpoint fill_group (src : list Z) (k : nat) (n sp : Z) (group : list Z) : outcome (bool * Z * Z * list Z) :=
  match k with
  | O => Ret (false, n, sp, group)
  | S k =>
      c ← load src sp;
      if decide (c = 0) then Ret (true, n, sp, group)
      else
        group ← store group n c;
        fill_group src k (n + 1) (sp + 1) group
  end.

Definition group_char (sextet : outcome Z) : outcome Z :=
  v ← sextet; load (base64_table t) v.

(** One turn of the outer loop over (done, src, p, dst). *)
Definition encode_step (src : list Z) (s : bool * Z * Z * list Z) : outcome (bool * Z * Z * list Z + Z * list Z) :=
  let '(fin, sp, p, dst) := s in
  if fin then Ret (inr (p, dst))
  else
    '(fin, n, sp, group) ← fill_group src 3 0 sp (replicate 4 0);
    if decide (n > 0) then
      c ← group_char (base64_group_b0 group); dst ← store dst p c;
      c ← group_char (base64_group_b1 group); dst ← store dst (p + 1) c;
      c ← (if decide (n < 2) then Ret 61 else group_char (base64_group_b2 group));
      dst ← store dst (p + 2) c;
      c ← (if decide (n < 3) then Ret 61 else group_char (base64_group_b3 group));
      dst ← store dst (p + 3) c;
      Ret (inl (fin, sp, p + 4, dst))
    else Ret (inl (fin, sp, p, dst)).

Definition base64_encode (src : list Z) : outcome (list Z) :=
  n ← strlen src 0;
  match malloc ((n + 2) / 3 * 4 + 1) with
  | None => Undef
  | Some dst =>
      '(p, dst) ← while_fuel (S (length src)) (encode_step src) (false, 0, 0, dst);
      store dst p 0
  end.

End codec.

(** The tables the constructor leaves behind. *)
Definition base64_tables : tables :=
  match base64_table_init zero_tables with Ret t => t | _ => zero_tables end.

(** ** The encoding of RFC 4648 *)
Definition b64_char (v : Z) : Z :=
  if decide (v < 26) then 65 + v
  else if decide (v < 52) then 97 + (v - 26)
  else if decide (v < 62) then 48 + (v - 52)
  else if decide (v = 62) then 43 else 47.

Fixpoint b64_spec (s : list Z) : list Z :=
  match s with
  | a :: b :: c :: s' =>
      let w := a * 65536 + b * 256 + c in
      b64_char (w / 262144) :: b64_char (w / 4096 mod 64) ::
      b64_char (w / 64 mod 64) :: b64_char (w mod 64) :: b64_spec s'
  | [a; b] =>
      let w := a * 65536 + b * 256 in
      [b64_char (w / 262144); b64_char (w / 4096 mod 64); b64_char (w / 64 mod 64); 61]
  | [a] =>
      let w := a * 65536 in
      [b64_char (w / 262144); b64_char (w / 4096 mod 64); 61; 61]
  | [] => []
  end.

(** The value of an alphabet character; the code reads every other byte, the
    padding character included, as 0. *)
Definition b64_val (c : Z) : Z :=
  if decide (65 ≤ c ≤ 90) then c - 65
  else if decide (97 ≤ c ≤ 122) then c - 97 + 26
  else if decide (48 ≤ c ≤ 57) then c - 48 + 52
  else if decide (c = 43) then 62
  else if decide (c = 47) then 63 else 0.

Fixpoint unb64_spec (s : list Z) : list Z :=
  match s with
  | a :: b :: c :: d :: s' =>
      let w := ((b64_val a * 64 + b64_val b) * 64 + b64_val c) * 64 + b64_val d in
      w / 65536 :: w / 256 mod 256 :: w mod 256 :: unb64_spec s'
  | _ => []
  end.

(** ** The tables are the alphabet and its inverse *)
Lemma base64_tables_init : base64_table_init zero_tables = Ret base64_tables.
Proof. vm_compute. reflexivity. Qed.

Lemma rtable_load c : is_byte c → load (base64_rtable base64_tables) c = Ret (b64_val c).
Proof. revert c. apply (range_all (λ c, load (base64_rtable base64_tables) c = Ret (b64_val c)) 256). by vm_compute. Qed.

Lemma table_load v : 0 ≤ v < 64 → load (base64_table base64_tables) v = Ret (b64_char v).
Proof. revert v. apply (range_all (λ v, load (base64_table base64_tables) v = Ret (b64_char v)) 64). by vm_compute. Qed.

#[local] Opaque base64_tables.

Lemma tables_are t : base64_table_init zero_tables = Ret t → base64_tables = t.
Proof. rewrite base64_tables_init. apply Ret_inj. Qed.

Lemma b64_val_range c : 0 ≤ b64_val c < 64.
Proof. unfold b64_val. repeat case_decide; lia. Qed.

Lemma b64_char_range v : 0 ≤ v < 64 → is_char (b64_char v).
Proof. intros. unfold b64_char, is_char. repeat case_decide; lia. Qed.

Lemma b64_val_char v : 0 ≤ v < 64 → b64_val (b64_char v) = v.
Proof. intros. unfold b64_char, b64_val. repeat case_decide; lia. Qed.

(** ** The decoder *)

(** The shape of every byte the decoder builds: high bits, then low bits. *)
Lemma pack_bits k x y : 0 ≤ k → 0 ≤ x → x * 2 ^ k < 256 → 0 ≤ y < 2 ^ k → x * 2 ^ k + y < 256 →
  u8 (Z.lor (u8 (Z.lor 0 (Z.shiftl x k))) y) = x * 2 ^ k + y.
Proof.
  intros Hk Hx Hxk Hy Hs. rewrite Z.lor_0_l, Z.shiftl_mul_pow2 by lia.
  rewrite (u8_small (x * 2 ^ k)) by (unfold is_byte; nia).
  rewrite lor_disjoint by lia. apply u8_small. unfold is_byte. nia.
Qed.

Lemma decode_group_spec pre a b c d post q :
  q = zlen pre → is_byte a → is_byte b → is_byte c → is_byte d →
  decode_group base64_tables (pre ++ a :: b :: c :: d :: post) q =
    Ret (unb64_spec [a; b; c; d] ++ [0]).
Proof.
  intros -> Ha Hb Hc Hd. unfold decode_group.
  rewrite !load_at, load_0 by lia. eval_mem. rewrite !rtable_load by done. cbind.
  eval_mem.
  pose proof (b64_val_range a). pose proof (b64_val_range b).
  pose proof (b64_val_range c). pose proof (b64_val_range d).
  simpl. rewrite (land_mask 4), (land_mask 2), !Z.shiftr_div_pow2 by lia.
  rewrite !pack_bits by mlia. repeat f_equal; mlia.
Qed.

Lemma decode_loop t src s pre done rest fuel :
  t = base64_tables → src = pre ++ s ++ [0] → Forall is_char s → (length s mod 4 = 0)%nat →
  (length s < fuel)%nat → zlen rest = zlen s / 4 * 3 + 1 →
  ∃ x, while_fuel fuel (decode_step t src) (zlen done, zlen pre, done ++ rest) =
    Ret (zlen (done ++ unb64_spec s), done ++ unb64_spec s ++ [x]).
Proof.
  intros -> Hsrc Hs Hl. revert pre done rest fuel Hsrc Hs.
  pattern s. apply chunk4_ind; [| |done].
  - intros pre dn rest fuel -> _ Hf Hr. destruct fuel as [|fuel]; [simpl in *; lia|].
    destruct rest as [|x [|]]; simpl length in Hr; [mlia| |mlia].
    exists x. apply while_fuel_inr. simpl. rewrite load_app by done. simpl. by rewrite app_nil_r.
  - intros a b c d s' IH pre dn rest fuel Hsrc Hs Hf Hr.
    destruct fuel as [|fuel]; [simpl in *; lia|].
    rewrite !Forall_cons in Hs. destruct Hs as (Ha & Hb & Hc & Hd & Hs').
    destruct rest as [|r1 [|r2 [|r3 rest]]]; simpl length in Hr; [mlia..|].
    set (u := unb64_spec [a; b; c; d]).
    destruct (IH (pre ++ [a; b; c; d]) (dn ++ u) rest fuel) as [x Hx].
    { by rewrite <- app_assoc. }
    { done. } { simpl in Hf. lia. } { mlia. }
    exists x. rewrite (while_fuel_inl _ _ _ (zlen (dn ++ u), zlen (pre ++ [a; b; c; d]), (dn ++ u) ++ rest)).
    { rewrite Hx. by rewrite <- !app_assoc. }
    unfold decode_step. rewrite Hsrc at 1.
    change ((a :: b :: c :: d :: s') ++ [0]) with (a :: b :: c :: d :: s' ++ [0]) in *.
    rewrite load_app by done. cbind. rewrite decide_False by (unfold is_char in Ha; lia).
    rewrite Hsrc, decode_group_spec by auto with cmem. cbind. unfold memcpy.
    change (unb64_spec [a; b; c; d] ++ [0]) with ([] ++ u ++ [0]).
    rewrite load_n_app by done. cbind.
    change (r1 :: r2 :: r3 :: rest) with ([r1; r2; r3] ++ rest).
    rewrite store_n_app by done. cbind. rewrite <- (app_assoc dn), !length_app.
    repeat f_equal; simpl; lia.
Qed.

Lemma unb64_spec_length s : (length s mod 4 = 0)%nat → zlen (unb64_spec s) = zlen s / 4 * 3.
Proof.
  intros Hl. pattern s. apply chunk4_ind; [done| |done]. intros a b c d s' IH.
  simpl length in *. mlia.
Qed.

Lemma decode_string `{Allocator} s :
  Forall is_char s → s ≠ [] → (length s mod 4 = 0)%nat → zlen s ≤ 2147483647 →
  base64_decode base64_tables (Some (s ++ [0])) =
    Ret (match malloc (zlen s / 4 * 3 + 1) with
         | None => None
         | Some _ => Some (unb64_spec s ++ [0])
         end).
Proof.
  intros Hs Hne Hl Hmax. unfold base64_decode.
  destruct s as [|c0 s0] eqn:Es; [done|]. rewrite <- Es in *.
  assert (load (s ++ [0]) 0 = Ret c0) as -> by (subst; reflexivity). cbind.
  rewrite decide_False by (subst; inversion Hs; unfold is_char in *; lia).
  rewrite strlen_cstr by auto with cmem. cbind.
  rewrite s32_small, (land_mask 2) by lia. change (2 ^ 2) with 4.
  assert (zlen s mod 4 = 0) as Hz by (rewrite <- (Nat2Z.inj_mod _ 4); lia).
  rewrite decide_False by (rewrite Hz; lia).
  rewrite Z.quot_div_nonneg by lia.
  destruct (malloc _) as [dst|] eqn:Em; [|done]. apply malloc_size in Em.
  destruct (decode_loop base64_tables (s ++ [0]) s [] [] dst (length (s ++ [0]))) as [x Hx];
    [done..|rewrite length_app; simpl; lia|done|].
  simpl in Hx. change (Z.of_nat 0) with 0 in Hx. rewrite Hx. cbind. simpl app. rewrite store_app by done. done.
Qed.

(** ** The encoder *)
Lemma fill_group_app src pre s k gpre grest :
  src = pre ++ s ++ [0] → Forall is_char s → (k ≤ length grest)%nat →
  fill_group src k (zlen gpre) (zlen pre) (gpre ++ grest) =
    Ret (bool_decide (length s < k)%nat, zlen gpre + zlen (take k s), zlen pre + zlen (take k s),
         gpre ++ take k s ++ drop (length (take k s)) grest).
Proof.
  revert pre s gpre grest. induction k as [|k IH]; intros pre s gpre grest Hsrc Hs Hk.
  - simpl. by rewrite !Z.add_0_r, drop_0.
  - cbn [fill_group]. rewrite Hsrc. destruct s as [|c s]; cbn [app] in *.
    + rewrite load_app by done. simpl. by rewrite !Z.add_0_r, drop_0.
    + apply Forall_cons in Hs as [Hc Hs].
      destruct grest as [|g grest]; [simpl in Hk; lia|].
      rewrite load_app by done. cbind. rewrite decide_False by (unfold is_char in Hc; lia).
      rewrite store_app by done. cbind.
      specialize (IH (pre ++ [c]) s (gpre ++ [c]) grest).
      rewrite <- !app_assoc in IH. simpl in IH. rewrite !length_app in IH. simpl length in IH.
      replace (zlen gpre + 1) with (Z.of_nat (length gpre + 1)) by lia.
      replace (zlen pre + 1) with (Z.of_nat (length pre + 1)) by lia.
      rewrite <- Hsrc, IH by (done || simpl in Hk; lia). cbn [take length drop].
      assert (bool_decide (S (length s) < S k)%nat = bool_decide (length s < k)%nat) as ->
        by (apply bool_decide_ext; lia).
      peel.
Qed.

Section sextets.
Context (a b c : Z) (Ha : is_byte a) (Hb : is_byte b) (Hc : is_byte c).
Local Abbreviation w := (a * 65536 + b * 256 + c).

(** The four sextets of a group are the base-64 digits of its 24 bits. *)
Lemma group_sextets :
  base64_group_b0 [a; b; c; 0] = Ret (w / 262144) ∧
  base64_group_b1 [a; b; c; 0] = Ret (w / 4096 mod 64) ∧
  base64_group_b2 [a; b; c; 0] = Ret (w / 64 mod 64) ∧
  base64_group_b3 [a; b; c; 0] = Ret (w mod 64).
Proof using Ha Hb Hc.
  unfold is_byte in *.
  unfold base64_group_b0, base64_group_b1, base64_group_b2, base64_group_b3.
  eval_mem. rewrite (land_mask 2), (land_mask 4), (land_mask 6) by lia.
  rewrite !Z.shiftl_mul_pow2, !Z.shiftr_div_pow2 by lia.
  unfold u8. split_and!; f_equal; mlia.
Qed.

Lemma group_chars :
  group_char base64_tables (base64_group_b0 [a; b; c; 0]) = Ret (b64_char (w / 262144)) ∧
  group_char base64_tables (base64_group_b1 [a; b; c; 0]) = Ret (b64_char (w / 4096 mod 64)) ∧
  group_char base64_tables (base64_group_b2 [a; b; c; 0]) = Ret (b64_char (w / 64 mod 64)) ∧
  group_char base64_tables (base64_group_b3 [a; b; c; 0]) = Ret (b64_char (w mod 64)).
Proof using Ha Hb Hc.
  destruct group_sextets as (-> & -> & -> & ->). unfold group_char, is_byte in *. cbind.
  split_and!; apply table_load; mlia.
Qed.
End sextets.

Lemma b64_spec_length s : zlen (b64_spec s) = (zlen s + 2) / 3 * 4.
Proof.
  pattern s. apply chunk3_ind; [done..|]. intros a b c s' IH. simpl length in *. mlia.
Qed.

(** Write one group's characters into the block [blk], from [E : group_chars]. *)
Local Ltac write_group E blk Hblk :=
    destruct E as (E0 & E1 & E2 & E3); [by auto with cmem..|];
    cbn [firstn length replicate skipn]; rewrite ?firstn_O; cbn [length skipn];
    decide_lia;
    cbn [app]; rewrite E0, E1, ?E2, ?E3; cbind; destruct blk as [|? [|? [|? [|? [|]]]]]; try discriminate Hblk;
    rewrite store_mid_0 by (simpl; lia); eval_mem; cbind;
    repeat (rewrite store_mid by (simpl; lia); eval_mem; cbind);
    cbn [b64_spec]; rewrite ?Z.mul_0_l, ?Z.add_0_r; reflexivity.

(** One full turn: the group holds [g], the first bytes of what is left. *)
Lemma encode_turn src pre s dn blk rest :
  length blk = 4%nat → src = pre ++ s ++ [0] → Forall is_char s → s ≠ [] →
  encode_step base64_tables src (false, zlen pre, zlen dn, dn ++ blk ++ rest) =
    Ret (inl (bool_decide (length s < 3)%nat, zlen pre + zlen (take 3 s), zlen dn + 4,
              dn ++ b64_spec (take 3 s) ++ rest)).
Proof.
  intros Hblk Hsrc Hs Hne. unfold encode_step.
  pose proof (fill_group_app src pre s 3 [] (replicate 4 0) Hsrc Hs) as E.
  change (zlen ([] : list Z)) with 0 in E. cbn [app] in E.
  rewrite E by (simpl; lia). clear E. cbind.
  assert (is_byte 0) by (unfold is_byte; lia).
  destruct s as [|a [|b [|c s']]]; [done|..]; rewrite ?Forall_cons in Hs; destruct_and!.
  - write_group (group_chars a 0 0) blk Hblk.
  - write_group (group_chars a b 0) blk Hblk.
  - write_group (group_chars a b c) blk Hblk.
Qed.

Lemma encode_loop src s pre dn rest fuel :
  src = pre ++ s ++ [0] → Forall is_char s →
  (S (length s) < fuel)%nat → zlen rest = (zlen s + 2) / 3 * 4 + 1 →
  ∃ x, while_fuel fuel (encode_step base64_tables src) (false, zlen pre, zlen dn, dn ++ rest) =
    Ret (zlen (dn ++ b64_spec s), dn ++ b64_spec s ++ [x]).
Proof.
  revert pre dn rest fuel. induction s as [s IH] using (induction_ltof1 _ length).
  intros pre dn rest fuel Hsrc Hs Hf Hr. destruct fuel as [|[|fuel]]; [lia..|].
  destruct (decide (s = [])) as [->|Hne].
  - destruct rest as [|x [|]]; simpl length in Hr; [mlia| |mlia]. exists x.
    assert (fill_group src 3 0 (zlen pre) (replicate 4 0) = Ret (true, 0, zlen pre, replicate 4 0)) as E.
    { subst src. cbn [fill_group app]. by rewrite (load_app pre 0 [] _ eq_refl). }
    rewrite (while_fuel_inl _ _ _ (true, zlen pre, zlen dn, dn ++ [x])).
    + rewrite (while_fuel_inr _ _ _ (zlen dn, dn ++ [x])) by done. simpl. by rewrite app_nil_r.
    + unfold encode_step. rewrite E. cbind. by rewrite decide_False by lia.
  - assert (0 < zlen s) by (destruct s; [done|simpl; lia]).
    destruct rest as [|r0 [|r1 [|r2 [|r3 rest]]]]; simpl length in Hr; [mlia..|].
    pose proof (encode_turn src pre s dn [r0; r1; r2; r3] rest eq_refl Hsrc Hs Hne) as E.
    cbn [app] in E. rewrite (while_fuel_inl _ _ _ _ E). clear E.
    assert (Hb : zlen (b64_spec (take 3 s)) = 4).
    { rewrite b64_spec_length, length_take. mlia. }
    replace (zlen dn + 4) with (zlen (dn ++ b64_spec (take 3 s))) by (rewrite length_app; lia).
    rewrite app_assoc. case_bool_decide as H3.
    + rewrite (take_ge s) in * by lia. exists (hd 0 rest).
      destruct rest as [|x [|]]; simpl length in Hr; [mlia| |mlia].
      erewrite while_fuel_inr by reflexivity. by rewrite <- app_assoc.
    + destruct (IH (drop 3 s)) with (pre := pre ++ take 3 s) (dn := dn ++ b64_spec (take 3 s))
        (rest := rest) (fuel := S fuel) as [x Hx].
      * unfold ltof. rewrite length_drop. lia.
      * by rewrite <- app_assoc, (app_assoc (take 3 s)), take_drop.
      * by apply Forall_drop.
      * rewrite length_drop. lia.
      * rewrite length_drop. mlia.
      * exists x. rewrite length_app, Nat2Z.inj_add in Hx. rewrite Hx.
        assert (b64_spec s = b64_spec (take 3 s) ++ b64_spec (drop 3 s)) as ->.
        { by destruct s as [|a [|b [|c s]]]; simpl in H3; try lia. }
        by rewrite <- !app_assoc.
Qed.

Lemma encode_string `{Allocator} s b :
  Forall is_char s → malloc ((zlen s + 2) / 3 * 4 + 1) = Some b →
  base64_encode base64_tables (s ++ [0]) = Ret (b64_spec s ++ [0]).
Proof.
  intros Hs Hm. unfold base64_encode. rewrite strlen_cstr by auto with cmem. cbind. rewrite Hm.
  apply malloc_size in Hm.
  destruct (encode_loop (s ++ [0]) s [] [] b (S (length (s ++ [0])))) as [x Hx]; [done..| |done|].
  { rewrite length_app. simpl. lia. }
  simpl in Hx. change (Z.of_nat 0) with 0 in Hx. rewrite Hx. cbind.
  by rewrite store_app by done.
Qed.

Lemma b64_spec_chars s : Forall is_byte s → Forall is_char (b64_spec s).
Proof.
  intros Hs. revert Hs. pattern s. apply chunk3_ind; [done|intros a|intros a b|intros a b c s' IH];
    rewrite !Forall_cons; unfold is_byte; intros; destruct_and!; cbn [b64_spec]; repeat constructor;
    auto; try (apply b64_char_range; mlia); unfold is_char; lia.
Qed.

Lemma unb64_b64_group a b c : is_byte a → is_byte b → is_byte c →
  unb64_spec (b64_spec [a; b; c]) = [a; b; c].
Proof.
  unfold is_byte. intros. cbn [b64_spec unb64_spec]. rewrite !b64_val_char by mlia.
  do 3 (apply f_equal2; [mlia|]). done.
Qed.

(** Decoding the specification's text gives the bytes back, then one zero per
    padding character. *)
Lemma unb64_b64 s : Forall is_byte s → ∃ k, unb64_spec (b64_spec s) = s ++ replicate k 0.
Proof.
  assert (is_byte 0) as H0 by (unfold is_byte; lia). pattern s. apply chunk3_ind.
  - exists 0%nat. done.
  - intros a Hab. rewrite !Forall_cons in Hab. destruct Hab as (Ha & _). exists 2%nat.
    cbn [app replicate]. rewrite <- (unb64_b64_group a 0 0) by done.
    cbn [b64_spec unb64_spec]. unfold is_byte in *. rewrite !b64_val_char by mlia.
    change (b64_val 61) with 0. do 3 (apply f_equal2; [mlia|]). done.
  - intros a b Hab. rewrite !Forall_cons in Hab. destruct Hab as (Ha & Hb & _). exists 1%nat.
    cbn [app replicate]. rewrite <- (unb64_b64_group a b 0) by done.
    cbn [b64_spec unb64_spec]. unfold is_byte in *. rewrite !b64_val_char by mlia.
    change (b64_val 61) with 0. do 3 (apply f_equal2; [mlia|]). done.
  - intros a b c s' IH Hs. rewrite !Forall_cons in Hs. destruct Hs as (Ha & Hb & Hc & Hs').
    destruct (IH Hs') as [k Hk]. exists k. simpl app. rewrite <- Hk.
    change (a :: b :: c :: unb64_spec (b64_spec s')) with ([a; b; c] ++ unb64_spec (b64_spec s')).
    by rewrite <- (unb64_b64_group a b c).
Qed.

(** ** Properties *)

(** C1: encoding any non-empty C string with the constructor's tables and
    decoding the result gives an object that holds exactly that string, as
    long as both allocations succeed and the lengths fit the [int] the decoder
    keeps them in. *)
Theorem base64_roundtrip `{Allocator} t s b1 b2 :
  base64_table_init zero_tables = Ret t →
  Forall is_char s → s ≠ [] → (zlen s + 2) / 3 * 4 ≤ 2147483647 →
  malloc ((zlen s + 2) / 3 * 4 + 1) = Some b1 →
  malloc ((zlen s + 2) / 3 * 3 + 1) = Some b2 →
  ∃ e d, base64_encode t (s ++ [0]) = Ret e ∧ base64_decode t (Some e) = Ret (Some d) ∧
    strlen d 0 = Ret (zlen s) ∧ load_n d 0 (zlen s) = Ret s.
Proof.
  intros Ht Hs Hne Hmax H1 H2. apply tables_are in Ht as <-.
  assert (Forall is_byte s) as Hb by auto with cmem.
  destruct (unb64_b64 s Hb) as [k Hk]. pose proof (b64_spec_length s) as Hl.
  exists (b64_spec s ++ [0]), (s ++ replicate k 0 ++ [0]).
  split; [by eapply encode_string|]. split.
  - rewrite decode_string.
    + rewrite Hl, Z.div_mul by lia. rewrite H2, Hk. by rewrite <- app_assoc.
    + by apply b64_spec_chars.
    + intros E. rewrite E in Hl. destruct s; simpl length in Hl; [done|mlia].
    + apply Nat2Z.inj. rewrite Nat2Z.inj_mod. rewrite Hl. mlia.
    + lia.
  - split; [|apply (load_n_app [] s); done].
    destruct k as [|k]; apply strlen_cstr; auto with cmem.
Qed.

Lemma base64_roundtrip_witness :
  ∃ e d, base64_encode base64_tables ([77; 97; 110; 33] ++ [0]) = Ret e ∧
    base64_decode base64_tables (Some e) = Ret (Some d) ∧
    strlen d 0 = Ret 4 ∧ load_n d 0 4 = Ret [77; 97; 110; 33].
Proof.
  apply (base64_roundtrip base64_tables [77; 97; 110; 33] (replicate 9 0) (replicate 7 0)).
  - vm_compute. reflexivity.
  - repeat constructor; unfold is_char; lia.
  - discriminate.
  - vm_compute. discriminate.
  - reflexivity.
  - reflexivity.
Defined.

(** On every C string the encoder writes the RFC 4648 encoding and its
    terminator, and fills the object it allocated exactly. *)
Theorem base64_encode_rfc4648 `{Allocator} t s b :
  base64_table_init zero_tables = Ret t →
  Forall is_char s → malloc ((zlen s + 2) / 3 * 4 + 1) = Some b →
  base64_encode t (s ++ [0]) = Ret (b64_spec s ++ [0]) ∧ zlen b = zlen (b64_spec s ++ [0]).
Proof.
  intros Ht Hs Hm. apply tables_are in Ht as <-.
  split; [by eapply encode_string|]. apply malloc_size in Hm.
  rewrite length_app, Nat2Z.inj_add, b64_spec_length. simpl. lia.
Qed.

Lemma base64_encode_rfc4648_witness :
  base64_encode base64_tables ([102; 111; 111; 98] ++ [0]) = Ret [90; 109; 57; 118; 89; 103; 61; 61; 0] ∧ 9 = 9.
Proof.
  apply (base64_encode_rfc4648 base64_tables [102; 111; 111; 98] (replicate 9 0)).
  - vm_compute. reflexivity.
  - repeat constructor; unfold is_char; lia.
  - reflexivity.
Defined.

(** The decoder is defined on every pointer: it answers null for the null
    pointer, the empty string and a length that is not a multiple of four, and
    otherwise stays inside the object it allocates and returns the sextets of
    the text, whatever its characters are. *)
Theorem base64_decode_total `{Allocator} t s :
  base64_table_init zero_tables = Ret t → Forall is_char s → zlen s ≤ 2147483647 →
  base64_decode t None = Ret None ∧
  base64_decode t (Some (s ++ [0])) =
    Ret (if decide (s ≠ [] ∧ (length s mod 4 = 0)%nat)
         then match malloc (zlen s / 4 * 3 + 1) with
              | None => None
              | Some _ => Some (unb64_spec s ++ [0])
              end
         else None).
Proof.
  intros Ht Hs Hmax. apply tables_are in Ht as <-. split; [done|].
  case_decide as Hd; [apply decode_string; tauto|].
  destruct s as [|c s]; [done|].
  unfold base64_decode. change (load ((c :: s) ++ [0]) 0) with (Ret c). cbind.
  apply Forall_cons in Hs as Hc. rewrite decide_False by (unfold is_char in Hc; lia).
  rewrite strlen_cstr by auto with cmem. cbind.
  rewrite s32_small, (land_mask 2) by lia. change (2 ^ 2) with (Z.of_nat 4).
  rewrite <- Nat2Z.inj_mod. rewrite decide_True; [done|]. intros E. apply Hd. split; [done|lia].
Qed.

Lemma base64_decode_total_witness :
  base64_decode base64_tables None = Ret None ∧
  base64_decode base64_tables (Some ([90; 103; 61; 61] ++ [0])) = Ret (Some [102; 0; 0; 0]).
Proof.
  destruct (base64_decode_total base64_tables [90; 103; 61; 61]) as [Hnull Hstr].
  - vm_compute. reflexivity.
  - repeat constructor; unfold is_char; lia.
  - vm_compute. discriminate.
  - split; [exact Hnull|]. rewrite Hstr. vm_compute. reflexivity.
Defined.

(** The bit-field accessors of the test build and the shift-and-mask
    accessors of the normal build read the same sextets from every group. *)
Theorem base64_group_accessors_agree a b c d :
  is_byte a → is_byte b → is_byte c →
  base64_group_RIGHT_b0 [a; b; c; d] = base64_group_b0 [a; b; c; d] ∧
  base64_group_RIGHT_b1 [a; b; c; d] = base64_group_b1 [a; b; c; d] ∧
  base64_group_RIGHT_b2 [a; b; c; d] = base64_group_b2 [a; b; c; d] ∧
  base64_group_RIGHT_b3 [a; b; c; d] = base64_group_b3 [a; b; c; d].
Proof.
  unfold is_byte. intros Ha Hb Hc.
  unfold base64_group_RIGHT_b0, base64_group_RIGHT_b1, base64_group_RIGHT_b2, base64_group_RIGHT_b3,
    base64_group_b0, base64_group_b1, base64_group_b2, base64_group_b3, bitfield.
  eval_mem. rewrite (land_mask 2), (land_mask 4), (land_mask 6), !Z.shiftr_0_r by lia.
  rewrite !Z.shiftl_mul_pow2, !Z.shiftr_div_pow2 by lia.
  unfold u8. split_and!; f_equal; mlia.
Qed.

Lemma base64_group_accessors_agree_witness :
  base64_group_RIGHT_b0 [77; 97; 110; 0] = base64_group_b0 [77; 97; 110; 0] ∧
  base64_group_RIGHT_b1 [77; 97; 110; 0] = base64_group_b1 [77; 97; 110; 0] ∧
  base64_group_RIGHT_b2 [77; 97; 110; 0] = base64_group_b2 [77; 97; 110; 0] ∧
  base64_group_RIGHT_b3 [77; 97; 110; 0] = base64_group_b3 [77; 97; 110; 0].
Proof. apply (base64_group_accessors_agree 77 97 110 0); unfold is_byte; lia. Defined.
