(* ===== verification/Utf8.v ===== *)
(** * trivial/name_codec.c: the UTF-8 encoder, decoder and stream

    [utf8_encode] and [utf8_decode] work on the object [m] the pointers [p] and
    [e] point into; both pointers are indices.  The stream pairs the same two
    indices. *)
From Stdlib Require Import ZArith Lia.
From stdpp Require Import base tactics numbers list.
From S2P Require Import Prelude.

Open Scope Z_scope.

(** [__builtin_clz] of a 32-bit value; undefined at 0. *)
Definition builtin_clz (x : Z) : outcome Z :=
  if decide (x = 0) then Undef else Ret (31 - Z.log2 x).

(** The lead byte: stored before anything is checked; answers the number [c]
    of bytes to follow. *)
Definition encode_lead (m : list Z) (p x : Z) : outcome (Z * list Z) :=
  z ← builtin_clz x;
  let n := 32 - z in
  if decide (n < 8) then
    m ← store m p (Z.land x 0xff); Ret (0, m)
  else if decide (n < 12) then
    m ← store m p (Z.lor (Z.land (Z.shiftr x 6) 0xff) 0xc0); Ret (1, m)
  else if decide (n < 17) then
    m ← store m p (Z.lor (Z.land (Z.shiftr x 12) 0xff) 0xe0); Ret (2, m)
  else if decide (n < 22) then
    m ← store m p (Z.lor (Z.land (Z.shiftr x 18) 0xff) 0xf0); Ret (3, m)
  else Ret (0, m).

(** for (i = c - 1; i >= 0; i--) the byte [++p]. *)
Fixpoint encode_suffix (c : nat) (m : list Z) (p x : Z) : outcome (list Z) :=
  match c with
  | O => Ret m
  | S i =>
      m ← store m (p + 1) (Z.lor (Z.land (Z.shiftr x (Z.of_nat i * 6)) 0x3f) 0x80);
      encode_suffix i m (p + 1) x
  end.

Definition utf8_encode (m : list Z) (p e x : Z) : outcome (Z * list Z) :=
  '(c, m) ← encode_lead m p x;
  if decide (p + c >= e) then Ret (0, m)
  else
    m ← encode_suffix (Z.to_nat c) m p x;
    Ret (c + 1, m).

(** The lead byte read: the number of bytes to follow and the bits it holds. *)
Definition decode_lead (b : Z) : option (Z * Z) :=
  if decide (Z.shiftr b 7 = 0) then Some (0, b)
  else if decide (Z.shiftr b 5 = 0x6) then Some (1, Z.land b 0x1f)
  else if decide (Z.shiftr b 4 = 0xe) then Some (2, Z.land b 0xf)
  else if decide (Z.shiftr b 3 = 0x1e) then Some (3, Z.land b 0x7)
  else None.

(** [c] continuation bytes from [p + 1] on; [None] is the jump to [err]. *)
Fixpoint decode_suffix (c : nat) (m : list Z) (p u : Z) : outcome (option Z) :=
  match c with
  | O => Ret (Some u)
  | S i =>
      b ← load m (p + 1);
      if decide (Z.shiftr b 6 ≠ 0x2) then Ret None
      else decode_suffix i m (p + 1) (Z.lor (u32 (Z.shiftl u 6)) (Z.land b 0x3f))
  end.

(** The returned length and, when it is not 0, the value stored to [*x]. *)
Definition utf8_decode (m : list Z) (p e : Z) : outcome (Z * option Z) :=
  b ← load m p;
  match decode_lead b with
  | None => Ret (0, None)
  | Some (c, u) =>
      if decide (p + c >= e) then Ret (0, None)
      else
        r ← decode_suffix (Z.to_nat c) m p u;
        match r with
        | None => Ret (0, None)
        | Some u => Ret (c + 1, Some u)
        end
  end.

(** ** The stream *)
Record st_utf8_stream_t := Stream { st_p : Z; st_e : Z }.

Definition utf8_stream_init (p len : Z) : st_utf8_stream_t := Stream p (p + len).

(** The value (all ones at the end and at an error), the stream, and the length
    stored to [*utf8size] when there is one. *)
Definition utf8_stream_next (m : list Z) (self : st_utf8_stream_t) :
    outcome (Z * st_utf8_stream_t * option Z) :=
  if decide (st_p self < st_e self) then
    '(c, u) ← utf8_decode m (st_p self) (st_e self);
    match u with
    | Some u => Ret (u, Stream (st_p self + c) (st_e self), Some c)
    | None => Ret (0xffffffff, self, None)
    end
  else Ret (0xffffffff, self, None).

(** The self test: every character of [a] is decoded, encoded again into the
    four bytes of [t] and printed; [None] when [c1 == c2] fails. *)
Definition encode_test_step (a : list Z) (s : st_utf8_stream_t * list Z * list (list Z)) :
    outcome (st_utf8_stream_t * list Z * list (list Z) + option (list (list Z))) :=
  let '(stream, t, out) := s in
  '(u, stream, c1) ← utf8_stream_next a stream;
  if decide (u = 0xffffffff) then Ret (inr (Some out))
  else
    '(c2, t) ← utf8_encode t 0 4 u;
    if decide (c1 = Some c2) then
      shown ← load_n t 0 c2;
      Ret (inl (stream, t, out ++ [shown]))
    else Ret (inr None).

Definition utf8_encode_test (a t : list Z) : outcome (option (list (list Z))) :=
  n ← strlen a 0;
  while_fuel (S (length a)) (encode_test_step a) (utf8_stream_init 0 n, t, []).

(** ** UTF-8 as RFC 3629 lays it out, without its excluded ranges *)
Definition utf8_spec (x : Z) : list Z :=
  if decide (x < 128) then [x]
  else if decide (x < 2048) then [192 + x / 64; 128 + x mod 64]
  else if decide (x < 65536) then [224 + x / 4096; 128 + x / 64 mod 64; 128 + x mod 64]
  else [240 + x / 262144; 128 + x / 4096 mod 64; 128 + x / 64 mod 64; 128 + x mod 64].

(** The continuation bytes of the low [6 c] bits of [x]. *)
Fixpoint tail_spec (c : nat) (x : Z) : list Z :=
  match c with
  | O => []
  | S i => 128 + x / 2 ^ (Z.of_nat i * 6) mod 64 :: tail_spec i x
  end.

(** How many bytes follow a lead byte, and the bits it contributes. *)
Definition lead_spec (b : Z) : option (Z * Z) :=
  if decide (b < 128) then Some (0, b)
  else if decide (192 ≤ b < 224) then Some (1, b - 192)
  else if decide (224 ≤ b < 240) then Some (2, b - 224)
  else if decide (240 ≤ b < 248) then Some (3, b - 240)
  else None.

(** A text: the encodings of its scalars, one after the other. *)
Definition utf8_text (xs : list Z) : list Z := concat (map utf8_spec xs).

(** What the encoder can represent: 21 bits, zero excepted. *)
Definition is_scalar (x : Z) : Prop := 0 < x < 2097152.
#[export] Instance is_scalar_dec x : Decision (is_scalar x).
Proof. unfold is_scalar. apply _. Defined.

(** ** The encoder *)
Lemma lor_tag n hi c a : 0 ≤ n → c = hi * 2 ^ n → 0 ≤ a < 2 ^ n → Z.lor a c = c + a.
Proof. intros Hn -> Ha. rewrite Z.lor_comm. by apply lor_disjoint. Qed.

Lemma clz_bits x k : 0 < x → 32 - (31 - Z.log2 x) < k + 1 ↔ x < 2 ^ k.
Proof. intros Hx. rewrite Z.log2_lt_pow2 by done. lia. Qed.

(** The four ranges of a scalar and the branch the code takes in each. *)
Lemma encode_lead_spec m p x :
  is_scalar x →
  encode_lead m p x =
    (m ← store m p (hd 0 (utf8_spec x)); Ret (zlen (utf8_spec x) - 1, m)).
Proof.
  unfold is_scalar. intros Hx. unfold encode_lead, builtin_clz, utf8_spec.
  rewrite decide_False by lia. cbind.
  pose proof (clz_bits x 7 ltac:(lia)) as H7. pose proof (clz_bits x 11 ltac:(lia)) as H11.
  pose proof (clz_bits x 16 ltac:(lia)) as H16. pose proof (clz_bits x 21 ltac:(lia)) as H21.
  change (2 ^ 7) with 128 in *. change (2 ^ 11) with 2048 in *.
  change (2 ^ 16) with 65536 in *. change (2 ^ 21) with 2097152 in *.
  rewrite !(land_mask 8), !Z.shiftr_div_pow2 by lia.
  repeat case_decide; try lia; simpl hd; simpl length; do 2 f_equal;
    rewrite ?(lor_tag 6 3 192), ?(lor_tag 5 7 224), ?(lor_tag 4 15 240) by mlia; mlia.
Qed.

Lemma suffix_byte x k : 0 ≤ k → Z.lor (Z.land (Z.shiftr x k) 0x3f) 0x80 = 128 + x / 2 ^ k mod 64.
Proof.
  intros Hk. rewrite (land_mask 6), Z.shiftr_div_pow2 by lia. change (2 ^ 6) with 64.
  apply (lor_tag 6 2 128); mlia.
Qed.

Lemma tail_spec_length c x : length (tail_spec c x) = c.
Proof. induction c; simpl; congruence. Qed.

Lemma utf8_spec_tail x : 0 ≤ x < 2097152 →
  ∃ b c, utf8_spec x = b :: tail_spec c x ∧ (c < 4)%nat ∧ is_byte b ∧
    lead_spec b = Some (Z.of_nat c, x / 2 ^ (Z.of_nat c * 6)).
Proof.
  unfold is_byte, utf8_spec, lead_spec. intros Hx. repeat case_decide;
    [exists x, 0%nat|exists (192 + x / 64), 1%nat|exists (224 + x / 4096), 2%nat|exists (240 + x / 262144), 3%nat].
  all: cbn [tail_spec]; change (2 ^ (Z.of_nat 0 * 6)) with 1; change (2 ^ (Z.of_nat 1 * 6)) with 64;
    change (2 ^ (Z.of_nat 2 * 6)) with 4096; change (2 ^ (Z.of_nat 3 * 6)) with 262144; rewrite ?Z.div_1_r.
  all: split_and!; [done|lia|mlia|mlia|]; repeat (rewrite decide_False by mlia); rewrite decide_True by mlia;
    do 2 f_equal; mlia.
Qed.

Lemma encode_suffix_spec c x pre blk post p :
  length blk = c → p = zlen pre - 1 →
  encode_suffix c (pre ++ blk ++ post) p x = Ret (pre ++ tail_spec c x ++ post).
Proof.
  revert pre blk p. induction c as [|c IH]; intros pre blk p Hl Hp.
  - destruct blk; [done|discriminate Hl].
  - destruct blk as [|b blk]; [discriminate Hl|]. injection Hl as Hl. cbn [encode_suffix app].
    rewrite store_app by lia. cbind. rewrite suffix_byte by lia.
    rewrite (app_assoc pre [_] (blk ++ post) : pre ++ _ :: _ = _).
    rewrite IH; [by rewrite <- app_assoc|done|]. rewrite length_app. simpl. lia.
Qed.

Lemma utf8_encode_fits x pre blk post p e :
  is_scalar x → p = zlen pre → length blk = length (utf8_spec x) → p + zlen blk ≤ e →
  utf8_encode (pre ++ blk ++ post) p e x = Ret (zlen (utf8_spec x), pre ++ utf8_spec x ++ post).
Proof.
  intros Hx -> Hl He. unfold utf8_encode. rewrite encode_lead_spec by done.
  destruct (utf8_spec_tail x) as (b & c & E & Hc & _); [unfold is_scalar in Hx; lia|]. rewrite E in *.
  destruct blk as [|b0 blk]; [discriminate Hl|]. injection Hl as Hl. cbn [hd app length] in *.
  rewrite store_app by done. cbind. rewrite decide_False by lia.
  replace (Z.to_nat _) with c by (rewrite tail_spec_length in *; lia).
  rewrite (app_assoc pre [b] (blk ++ post) : pre ++ b :: _ = _).
  rewrite encode_suffix_spec by (rewrite ?length_app, ?tail_spec_length in *; simpl; lia).
  cbind. rewrite <- app_assoc. peel.
Qed.

(** ** The decoder *)
Lemma decode_lead_spec b : is_byte b → decode_lead b = lead_spec b.
Proof. revert b. apply (range_all (λ b, decode_lead b = lead_spec b) 256). by vm_compute. Qed.

Lemma decode_byte b u : is_byte b → 0 ≤ u < 67108864 → Z.shiftr b 6 = 2 →
  Z.lor (u32 (Z.shiftl u 6)) (Z.land b 0x3f) = u * 64 + (b - 128).
Proof.
  unfold is_byte. intros Hb Hu Hs. rewrite Z.shiftr_div_pow2 in Hs by lia.
  rewrite (land_mask 6), Z.shiftl_mul_pow2 by lia. change (2 ^ 6) with 64 in *.
  rewrite u32_small by lia. rewrite (lor_disjoint 6) by mlia. mlia.
Qed.

Lemma continuation_test b : is_byte b → Z.shiftr b 6 = 2 ↔ 128 ≤ b < 192.
Proof. unfold is_byte. intros. rewrite Z.shiftr_div_pow2 by lia. change (2 ^ 6) with 64. mlia. Qed.

(** The number of values [i] continuation bytes can hold. *)
Lemma pow_step i : 2 ^ (Z.of_nat (S i) * 6) = 64 * 2 ^ (Z.of_nat i * 6).
Proof. rewrite Nat2Z.inj_succ. replace (Z.succ _ * 6) with (6 + Z.of_nat i * 6) by lia. by rewrite Z.pow_add_r by lia. Qed.

Lemma pow_pos6 i : 0 < 2 ^ (Z.of_nat i * 6).
Proof. apply Z.pow_pos_nonneg; lia. Qed.

(** Reading [c] bytes: a value is read exactly from its own continuation. *)
Lemma decode_suffix_spec c blk pre post p u :
  length blk = c → p = zlen pre - 1 → Forall is_byte blk → (c < 4)%nat → 0 ≤ u < 2 ^ (21 - Z.of_nat c * 6) →
  decode_suffix c (pre ++ blk ++ post) p u =
    Ret (if forallb (λ b, bool_decide (128 ≤ b < 192)) blk
         then Some (foldl (λ v b, v * 64 + (b - 128)) u blk) else None).
Proof.
  revert pre p u blk. induction c as [|c IH]; intros pre p u blk Hl Hp Hb Hc Hu.
  - by destruct blk.
  - destruct blk as [|b blk]; [discriminate Hl|]. injection Hl as Hl.
    apply Forall_cons in Hb as [Hb Hbs]. cbn [decode_suffix app forallb foldl].
    rewrite load_app by lia. cbind. case_decide as Hd.
    { rewrite continuation_test in Hd by done. by rewrite bool_decide_eq_false_2. }
    rewrite continuation_test in Hd by done.
    rewrite bool_decide_eq_true_2 by done. cbn [andb].
    assert (u < 67108864 ∧ (u + 1) * 64 ≤ 2 ^ (21 - Z.of_nat c * 6)) as [Hu1 Hu2].
    { destruct c as [|[|[|]]]; [..|lia]; simpl in *; lia. }
    rewrite decode_byte by (try done; try lia; by apply continuation_test).
    rewrite (app_assoc pre [b] (blk ++ post) : pre ++ b :: _ = _).
    rewrite IH; [done|done|rewrite length_app; simpl; lia|done|lia|lia].
Qed.

Lemma fold_tail c x u : (0 ≤ u)%Z →
  foldl (λ v b, v * 64 + (b - 128)) u (tail_spec c x) = u * 2 ^ (Z.of_nat c * 6) + x mod 2 ^ (Z.of_nat c * 6).
Proof.
  revert u. induction c as [|c IH]; intros u Hu; cbn [tail_spec foldl].
  - change (2 ^ (Z.of_nat 0 * 6)) with 1. rewrite Z.mod_1_r. lia.
  - rewrite IH, pow_step by mlia. pose proof (pow_pos6 c).
    rewrite (Z.mul_comm 64), Z.rem_mul_r by lia. nia.
Qed.

Lemma tail_of_fold c blk u : length blk = c → Forall (λ b, 128 ≤ b < 192) blk → 0 ≤ u →
  let v := foldl (λ v b, v * 64 + (b - 128)) u blk in
  v / 2 ^ (Z.of_nat c * 6) = u ∧ blk = tail_spec c v.
Proof.
  revert u blk. induction c as [|c IH]; intros u blk Hl Hb Hu.
  - destruct blk; [|discriminate Hl]. split; [apply Z.div_1_r|done].
  - destruct blk as [|b blk]; [discriminate Hl|]. injection Hl as Hl.
    apply Forall_cons in Hb as [Hb Hbs]. cbn [foldl tail_spec].
    destruct (IH (u * 64 + (b - 128)) blk Hl Hbs ltac:(lia)) as [E1 E2].
    cbn zeta in *. set (v := foldl _ _ blk) in *. pose proof (pow_pos6 c).
    rewrite pow_step, (Z.mul_comm 64), <- Z.div_div by lia. rewrite E1.
    split; [mlia|]. apply f_equal2; [mlia|done].
Qed.

Lemma tail_continuation c x : Forall (λ b, 128 ≤ b < 192) (tail_spec c x).
Proof. induction c as [|c IH]; cbn [tail_spec]; constructor; [mlia|done]. Qed.

Lemma lead_spec_inj b b' r : lead_spec b = Some r → lead_spec b' = Some r → b = b'.
Proof. unfold lead_spec. intros H H'. repeat case_decide; simplify_eq; lia. Qed.

Lemma lead_spec_range b c u : is_byte b → lead_spec b = Some (c, u) →
  0 ≤ c < 4 ∧ 0 ≤ u < 2 ^ (21 - c * 6) ∧ (c + 1) * u < 128 ∧ (c = 1 → u < 32) ∧ (c = 2 → u < 16) ∧ (c = 3 → u < 8).
Proof.
  unfold is_byte, lead_spec. intros Hb H. repeat case_decide; simplify_eq;
    eval_pow; lia.
Qed.

Lemma continuations_all blk :
  forallb (λ b, bool_decide (128 ≤ b < 192)) blk = true ↔ Forall (λ b, 128 ≤ b < 192) blk.
Proof.
  rewrite forallb_forall, List.Forall_forall. split; intros H b Hb;
    [by apply (bool_decide_eq_true_1 _), H|by apply bool_decide_eq_true_2, H].
Qed.

(** Decoding the encoding of [x], whatever stands around it. *)
Lemma utf8_decode_fits x pre post p e :
  0 ≤ x < 2097152 → p = zlen pre → p + zlen (utf8_spec x) ≤ e →
  utf8_decode (pre ++ utf8_spec x ++ post) p e = Ret (zlen (utf8_spec x), Some x).
Proof.
  intros Hx -> He. destruct (utf8_spec_tail x Hx) as (b & c & E & Hc & Hb & Hlead). rewrite E in *.
  unfold utf8_decode. cbn [app length] in *. rewrite tail_spec_length in *.
  rewrite load_app by done. cbind. rewrite decode_lead_spec, Hlead by done.
  rewrite decide_False by lia. rewrite Nat2Z.id.
  rewrite (app_assoc pre [b] (tail_spec c x ++ post) : pre ++ b :: _ = _).
  destruct (lead_spec_range _ _ _ Hb Hlead) as (? & Hu & _).
  rewrite decode_suffix_spec;
    [|by rewrite tail_spec_length|rewrite length_app; simpl; lia| |lia|lia].
  2: { apply (Forall_impl (λ b, 128 ≤ b < 192)); [apply tail_continuation|]. unfold is_byte. lia. }
  rewrite (proj2 (continuations_all _)) by apply tail_continuation. cbind.
  rewrite fold_tail by lia. pose proof (pow_pos6 c).
  rewrite <- (Z.mul_comm (2 ^ _)), <- Z.div_mod by lia. peel.
Qed.

(** What a successful decoding read: never past [e], at most four bytes, and
    exactly the encoding of the value unless a shorter one exists. *)
Definition decoded (m : list Z) (p e r : Z) (o : option Z) : Prop :=
  match o with
  | None => r = 0
  | Some v => 1 ≤ r ≤ 4 ∧ p + r ≤ e ∧ 0 ≤ v < 2097152 ∧ zlen (utf8_spec v) ≤ r ∧
      ∃ bs, load_n m p r = Ret bs ∧ (zlen (utf8_spec v) = r → bs = utf8_spec v)
  end.

Lemma utf8_spec_size v : 0 ≤ v < 2097152 →
  zlen (utf8_spec v) = if decide (v < 128) then 1 else if decide (v < 2048) then 2
                       else if decide (v < 65536) then 3 else 4.
Proof. intros. unfold utf8_spec. by repeat case_decide. Qed.

(** The value a lead byte and its continuation give, and its own encoding. *)
Lemma decoded_value b c u v :
  is_byte b → lead_spec b = Some (c, u) → 0 ≤ c < 4 →
  v `div` 2 ^ (Z.of_nat (Z.to_nat c) * 6) = u → 0 ≤ u →
  0 ≤ v < 2097152 ∧ zlen (utf8_spec v) ≤ c + 1 ∧
  (zlen (utf8_spec v) = c + 1 → utf8_spec v = b :: tail_spec (Z.to_nat c) v).
Proof.
  intros Hb El Hc Ev Hu. destruct (lead_spec_range _ _ _ Hb El) as (_ & _ & Hcu).
  assert (0 ≤ v < 2097152 ∧ zlen (utf8_spec v) ≤ c + 1) as [Hv Hle].
  { assert (c = 0 ∨ c = 1 ∨ c = 2 ∨ c = 3) as Hc4 by lia.
    destruct Hc4 as [-> | [-> | [-> | ->]]]; eval_pow;
      (split; [mlia|]); rewrite utf8_spec_size by mlia; repeat case_decide; mlia. }
  split_and!; [lia..|]. intros E.
  destruct (utf8_spec_tail v Hv) as (b' & c' & Es & Hc' & Hb' & El'). rewrite Es in E |- *.
  simpl in E. rewrite tail_spec_length in E. replace c' with (Z.to_nat c) in * by lia.
  f_equal. rewrite Z2Nat.id in * by lia. eapply lead_spec_inj; [done|]. by rewrite El, Ev in *.
Qed.

Lemma utf8_decode_inv m p e :
  Forall is_byte m → 0 ≤ p < e → e ≤ zlen m →
  ∃ r o, utf8_decode m p e = Ret (r, o) ∧ decoded m p e r o.
Proof.
  intros Hm Hp He. destruct (load_in m p) as (b & Hload & Hlk); [lia|].
  assert (is_byte b) as Hb by (by eapply Forall_lookup_1).
  unfold utf8_decode. rewrite Hload. cbind. rewrite decode_lead_spec by done.
  destruct (lead_spec b) as [[c u]|] eqn:El; [|by exists 0, None].
  case_decide as Hpe; [by exists 0, None|].
  destruct (lead_spec_range _ _ _ Hb El) as (Hc & Hu & Hcu).
  destruct (load_n m (p + 1) c) as [blk| |] eqn:Ef.
  2-3: unfold load_n in Ef; by rewrite decide_True in Ef by lia.
  apply load_n_Ret in Ef as (a & post & -> & Ha & Hcl).
  rewrite decode_suffix_spec;
    [|lia|lia| |lia|by rewrite Z2Nat.id by lia].
  2: { rewrite !Forall_app in Hm. tauto. }
  cbind. destruct (forallb _ blk) eqn:Eb; [|by exists 0, None].
  apply continuations_all in Eb.
  destruct (tail_of_fold (Z.to_nat c) blk u ltac:(lia) Eb ltac:(lia)) as [E1 E2].
  cbn zeta in *. set (v := foldl _ u blk) in *. exists (c + 1), (Some v). split; [done|].
  destruct (decoded_value b c u v) as (Hv & Hle & Heq); [done..|lia|].
  unfold decoded. split_and!; [lia..|].
  destruct a as [|b' a _] using rev_ind; [simpl in Ha; lia|].
  rewrite length_app in Ha. simpl in Ha.
  rewrite <- app_assoc in Hload. cbn [app] in Hload. rewrite load_app in Hload by lia.
  apply Ret_inj in Hload as ->. exists (b :: blk). split.
  - rewrite <- app_assoc. apply (load_n_app a (b :: blk)); [lia|]. simpl. lia.
  - intros E. rewrite E2. symmetry. apply Heq. lia.
Qed.

(** ** The stream *)
Lemma utf8_spec_chars x : is_scalar x → Forall is_char (utf8_spec x).
Proof. unfold is_scalar, utf8_spec, is_char. intros. repeat case_decide; repeat constructor; mlia. Qed.

Lemma utf8_text_chars xs : Forall is_scalar xs → Forall is_char (utf8_text xs).
Proof. induction 1 as [|x xs Hx _ IH]; simpl; [done|]. apply Forall_app. auto using utf8_spec_chars. Qed.

Lemma utf8_spec_pos x : 0 ≤ x < 2097152 → 1 ≤ zlen (utf8_spec x) ≤ 4.
Proof. intros. rewrite utf8_spec_size by done. repeat case_decide; lia. Qed.

Lemma stream_next_fits x pre post p e :
  0 ≤ x < 2097152 → p = zlen pre → p + zlen (utf8_spec x) ≤ e →
  utf8_stream_next (pre ++ utf8_spec x ++ post) (Stream p e) =
    Ret (x, Stream (p + zlen (utf8_spec x)) e, Some (zlen (utf8_spec x))).
Proof.
  intros Hx Hp He. pose proof (utf8_spec_pos x Hx). unfold utf8_stream_next. cbn [st_p st_e].
  rewrite decide_True by lia. rewrite utf8_decode_fits by done. done.
Qed.

Lemma stream_next_end m p : utf8_stream_next m (Stream p p) = Ret (0xffffffff, Stream p p, None).
Proof. unfold utf8_stream_next. cbn [st_p st_e]. by rewrite decide_False by lia. Qed.

Lemma encode_test_loop a xs pre post e t out fuel :
  a = pre ++ utf8_text xs ++ post → e = zlen (pre ++ utf8_text xs) → Forall is_scalar xs →
  length t = 4%nat → (length xs < fuel)%nat →
  while_fuel fuel (encode_test_step a) (Stream (zlen pre) e, t, out) = Ret (Some (out ++ map utf8_spec xs)).
Proof.
  revert pre t out fuel. induction xs as [|x xs IH]; intros pre t out fuel Ha He Hxs Ht Hf;
    (destruct fuel as [|fuel]; [simpl in Hf; lia|]).
  - apply while_fuel_inr. unfold encode_test_step. rewrite He. simpl. rewrite app_nil_r.
    rewrite stream_next_end. cbind. by rewrite app_nil_r.
  - change (utf8_text (x :: xs)) with (utf8_spec x ++ utf8_text xs) in *.
    apply Forall_cons in Hxs as [Hx Hxs]. pose proof Hx as Hx'. unfold is_scalar in Hx'.
    pose proof (utf8_spec_pos x ltac:(lia)) as Hlen.
    set (t' := utf8_spec x ++ drop (length (utf8_spec x)) t).
    assert (utf8_encode t 0 4 x = Ret (zlen (utf8_spec x), t')) as Eenc.
    { rewrite <- (take_drop (length (utf8_spec x)) t) at 1.
      apply (utf8_encode_fits x [] _ _ 0 4 Hx); [done| |]; rewrite length_take; lia. }
    rewrite (while_fuel_inl _ _ _ (Stream (zlen (pre ++ utf8_spec x)) e, t', out ++ [utf8_spec x])).
    + rewrite IH; [by rewrite <- app_assoc| | |done| |simpl in Hf; lia].
      * rewrite Ha. by rewrite <- !app_assoc.
      * rewrite He. by rewrite <- app_assoc.
      * unfold t'. rewrite length_app, length_drop. lia.
    + unfold encode_test_step. rewrite Ha, <- app_assoc.
      rewrite stream_next_fits; [|lia|done|rewrite He, !length_app; lia].
      cbind. rewrite decide_False by lia. rewrite Eenc. cbind. rewrite decide_True by done.
      unfold t'. rewrite load_n_prefix by done. cbind. rewrite length_app. peel.
Qed.

(** ** Properties *)

(** C29: every 21-bit value except 0 survives encoding and decoding: with room
    up to [e] the encoder writes the UTF-8 form of [x] over the bytes at [p] and
    nothing else, and the decoder reads [x] and the same length back. *)
Theorem utf8_roundtrip x pre blk post e :
  is_scalar x → length blk = length (utf8_spec x) → zlen pre + zlen blk ≤ e →
  ∃ m', utf8_encode (pre ++ blk ++ post) (zlen pre) e x = Ret (zlen (utf8_spec x), m') ∧
    m' = pre ++ utf8_spec x ++ post ∧
    utf8_decode m' (zlen pre) e = Ret (zlen (utf8_spec x), Some x).
Proof.
  intros Hx Hl He. exists (pre ++ utf8_spec x ++ post). split_and!; [by apply utf8_encode_fits|done|].
  apply utf8_decode_fits; [unfold is_scalar in Hx; lia|done|lia].
Qed.

Lemma utf8_roundtrip_witness :
  ∃ m', utf8_encode ([1; 2] ++ [0; 0; 0] ++ [9]) 2 6 0x5b59 = Ret (3, m') ∧
    m' = [1; 2; 0xe5; 0xad; 0x99; 9] ∧ utf8_decode m' 2 6 = Ret (3, Some 0x5b59).
Proof.
  apply (utf8_roundtrip 0x5b59 [1; 2] [0; 0; 0] [9] 6).
  - unfold is_scalar. lia.
  - reflexivity.
  - simpl. lia.
Defined.

(** On every byte object and every [p < e] inside it the decoder is defined
    and never reads at or past [e]; it answers 0, or the length of what it read
    and a value below 2^21 whose own UTF-8 form is not longer, and is exactly
    the bytes read unless they are an overlong form. *)
Theorem utf8_decode_safe m p e :
  Forall is_byte m → 0 ≤ p < e → e ≤ zlen m →
  ∃ r o, utf8_decode m p e = Ret (r, o) ∧ decoded m p e r o.
Proof. apply utf8_decode_inv. Qed.

Lemma utf8_decode_safe_witness :
  ∃ r o, utf8_decode [0xe5; 0xad; 0x99] 0 2 = Ret (r, o) ∧ decoded [0xe5; 0xad; 0x99] 0 2 r o.
Proof.
  apply (utf8_decode_safe [0xe5; 0xad; 0x99] 0 2).
  - repeat constructor; unfold is_byte; lia.
  - lia.
  - simpl. lia.
Defined.

(** The self test passes on every text: for a string of UTF-8 forms the
    stream yields each scalar in turn and then ends, re-encoding gives the
    length that was read, and what is printed is the input, character by
    character. *)
Theorem utf8_encode_test_passes xs post t :
  Forall is_scalar xs → length t = 4%nat →
  utf8_encode_test (utf8_text xs ++ 0 :: post) t = Ret (Some (map utf8_spec xs)).
Proof.
  intros Hxs Ht. unfold utf8_encode_test.
  rewrite strlen_cstr by auto using utf8_text_chars with cmem. cbind.
  apply (encode_test_loop _ xs [] (0 :: post)); [done..|].
  assert (length xs ≤ length (utf8_text xs))%nat; [|rewrite length_app; lia].
  clear -Hxs. induction Hxs as [|x xs Hx _ IH]; simpl; [lia|]. unfold is_scalar in Hx.
  pose proof (utf8_spec_pos x). unfold utf8_text in *. simpl. rewrite length_app. lia.
Qed.

Lemma utf8_encode_test_passes_witness :
  utf8_encode_test (utf8_text [0x5b59; 0x660e; 0x5f3a] ++ [0]) [7; 7; 7; 7] =
    Ret (Some [[0xe5; 0xad; 0x99]; [0xe6; 0x98; 0x8e]; [0xe5; 0xbc; 0xba]]).
Proof.
  apply (utf8_encode_test_passes [0x5b59; 0x660e; 0x5f3a] [] [7; 7; 7; 7]).
  - repeat constructor; unfold is_scalar; lia.
  - reflexivity.
Defined.

(** The edges of the encoder.  The lead byte is stored before the room is
    checked, so encoding at the end of an object is undefined even when [e] says
    there is no room, and a refused encoding (answer 0) has changed the byte at
    [p]; values of 22 bits and more answer 1 with nothing written; 0 is
    undefined. *)
Theorem utf8_encode_edges x m p e :
  is_scalar x →
  utf8_encode m (zlen m) e x = Undef ∧
  (0 ≤ p < zlen m → e < p + zlen (utf8_spec x) →
     utf8_encode m p e x = Ret (0, <[Z.to_nat p := hd 0 (utf8_spec x)]> m)) ∧
  (∀ y, 2097152 ≤ y < 4294967296 → p < e → utf8_encode m p e y = Ret (1, m)) ∧
  utf8_encode m p e 0 = Undef.
Proof.
  intros Hx. split_and!.
  - unfold utf8_encode. rewrite encode_lead_spec by done. by rewrite store_out by lia.
  - intros Hp He. unfold utf8_encode. rewrite encode_lead_spec by done. rewrite store_in by done.
    cbind. by rewrite decide_True by lia.
  - intros y Hy Hpe. unfold utf8_encode, encode_lead, builtin_clz. rewrite decide_False by lia. cbind.
    pose proof (clz_bits y 21 ltac:(lia)) as H21. change (2 ^ 21) with 2097152 in H21.
    decide_lia. cbind. decide_lia. done.
  - done.
Qed.

Lemma utf8_encode_edges_witness :
  utf8_encode [1; 2] 2 2 0x5b59 = Undef ∧
  (0 ≤ 0 < 2 → 2 < 0 + 3 → utf8_encode [1; 2] 0 2 0x5b59 = Ret (0, [0xe5; 2])) ∧
  (∀ y, 2097152 ≤ y < 4294967296 → 0 < 2 → utf8_encode [1; 2] 0 2 y = Ret (1, [1; 2])) ∧
  utf8_encode [1; 2] 0 2 0 = Undef.
Proof. apply (utf8_encode_edges 0x5b59 [1; 2] 0 2). unfold is_scalar. lia. Defined.
