(* ===== verification/NameCodec.v ===== *)
(** * trivial/name_codec.c: the family-name code

    The two static tables, the constructor that computes them when
    USE_STATICMAPPING is off, and the program that spells a list of family names
    as letters.  The C library's [bsearch] is the binary search of its manual;
    [qsort] is any function that sorts. *)
From Stdlib Require Import ZArith Lia.
From stdpp Require Import base tactics numbers sorting list.
From S2P Require Import Prelude Utf8.

Open Scope Z_scope.

(** ** Data *)
Record st_family_name_t := FamilyName { fn_x : Z; fn_a : list Z }.
Record st_pair_t := Pair { pr_x : Z; pr_c : Z }.

#[export] Instance st_family_name_t_eq_dec : EqDecision st_family_name_t.
Proof. solve_decision. Defined.
#[export] Instance st_pair_t_eq_dec : EqDecision st_pair_t.
Proof. solve_decision. Defined.

(** An initialiser of [unsigned char a[sizeof(long)]]: the rest is zero. *)
Definition name (x : Z) (a : list Z) : st_family_name_t :=
  FamilyName x (a ++ replicate (8 - length a) 0).
Definition no_name : st_family_name_t := name 0xffffffff [].
Definition pair (x c : Z) : st_pair_t := Pair x c.

Definition table : list st_family_name_t :=
  [
   no_name; no_name; no_name;
   no_name; no_name; no_name;
   no_name; no_name; no_name;
   no_name; no_name; no_name;
   no_name; no_name; no_name;
   no_name; no_name; no_name;
   no_name; no_name; no_name;
   no_name; no_name; no_name;
   no_name; no_name; no_name;
   no_name; no_name; no_name;
   no_name; no_name; no_name;
   no_name; no_name; name 0x987e [0xe9; 0xa1; 0xbe];
   no_name; name 0x5c39 [0xe5; 0xb0; 0xb9]; name 0x6c5f [0xe6; 0xb1; 0x9f];
   no_name; no_name; no_name;
   name 0x949f [0xe9; 0x92; 0x9f]; name 0x7c73 [0xe7; 0xb1; 0xb3]; no_name;
   name 0x4f0d [0xe4; 0xbc; 0x8d]; name 0x859b [0xe8; 0x96; 0x9b]; name 0x59da [0xe5; 0xa7; 0x9a];
   name 0x8d75 [0xe8; 0xb5; 0xb5]; name 0x94b1 [0xe9; 0x92; 0xb1]; name 0x5b59 [0xe5; 0xad; 0x99];
   name 0x674e [0xe6; 0x9d; 0x8e]; name 0x5468 [0xe5; 0x91; 0xa8]; name 0x5434 [0xe5; 0x90; 0xb4];
   name 0x90d1 [0xe9; 0x83; 0x91]; name 0x738b [0xe7; 0x8e; 0x8b]; name 0x51af [0xe5; 0x86; 0xaf];
   name 0x9648 [0xe9; 0x99; 0x88]; no_name; no_name;
   no_name; name 0x8d1d [0xe8; 0xb4; 0x9d]; no_name;
   name 0x5b5f [0xe5; 0xad; 0x9f]; no_name; name 0x798f [0xe7; 0xa6; 0x8f];
   name 0x6c34 [0xe6; 0xb0; 0xb4]; name 0x7aa6 [0xe7; 0xaa; 0xa6]; name 0x7ae0 [0xe7; 0xab; 0xa0];
   name 0x4e91 [0xe4; 0xba; 0x91]; name 0x82cf [0xe8; 0x8b; 0x8f]; name 0x6f58 [0xe6; 0xbd; 0x98];
   name 0x845b [0xe8; 0x91; 0x9b]; name 0x595a [0xe5; 0xa5; 0x9a]; name 0x8303 [0xe8; 0x8c; 0x83];
   name 0x5f6d [0xe5; 0xbd; 0xad]; name 0x90ce [0xe9; 0x83; 0x8e]; name 0x9c81 [0xe9; 0xb2; 0x81];
   name 0x97e6 [0xe9; 0x9f; 0xa6]; name 0x660c [0xe6; 0x98; 0x8c]; name 0x9a6c [0xe9; 0xa9; 0xac];
   name 0x82d7 [0xe8; 0x8b; 0x97]; name 0x51e4 [0xe5; 0x87; 0xa4]; name 0x82b1 [0xe8; 0x8a; 0xb1];
   name 0x65b9 [0xe6; 0x96; 0xb9]; name 0x4fde [0xe4; 0xbf; 0x9e]; name 0x4efb [0xe4; 0xbb; 0xbb];
   name 0x8881 [0xe8; 0xa2; 0x81]; name 0x67f3 [0xe6; 0x9f; 0xb3]; name 0x5510 [0xe5; 0x94; 0x90];
   name 0x7f57 [0xe7; 0xbd; 0x97]; no_name; no_name;
   no_name; no_name; name 0x4f59 [0xe4; 0xbd; 0x99];
   no_name; name 0x891a [0xe8; 0xa4; 0x9a]; name 0x536b [0xe5; 0x8d; 0xab];
   name 0x848b [0xe8; 0x92; 0x8b]; name 0x6c88 [0xe6; 0xb2; 0x88]; name 0x97e9 [0xe9; 0x9f; 0xa9];
   name 0x6768 [0xe6; 0x9d; 0xa8]; name 0x6731 [0xe6; 0x9c; 0xb1]; name 0x79e6 [0xe7; 0xa7; 0xa6];
   name 0x5c24 [0xe5; 0xb0; 0xa4]; name 0x8bb8 [0xe8; 0xae; 0xb8]; name 0x4f55 [0xe4; 0xbd; 0x95];
   name 0x5415 [0xe5; 0x90; 0x95]; name 0x65bd [0xe6; 0x96; 0xbd]; name 0x5f20 [0xe5; 0xbc; 0xa0];
   name 0x5b54 [0xe5; 0xad; 0x94]; name 0x66f9 [0xe6; 0x9b; 0xb9]; name 0x4e25 [0xe4; 0xb8; 0xa5];
   name 0x534e [0xe5; 0x8d; 0x8e]; name 0x91d1 [0xe9; 0x87; 0x91]; name 0x9b4f [0xe9; 0xad; 0x8f];
   name 0x9676 [0xe9; 0x99; 0xb6]; name 0x59dc [0xe5; 0xa7; 0x9c]; name 0x621a [0xe6; 0x88; 0x9a];
   name 0x8c22 [0xe8; 0xb0; 0xa2]; name 0x90b9 [0xe9; 0x82; 0xb9]; name 0x55bb [0xe5; 0x96; 0xbb];
   no_name; no_name; no_name;
   no_name; no_name].

Definition pairs : list st_pair_t :=
  [
   pair 0x4e25 113; pair 0x4e91 69; pair 0x4efb 86; pair 0x4f0d 45; pair 0x4f55 107; pair 0x4f59 95;
   pair 0x4fde 85; pair 0x51af 56; pair 0x51e4 82; pair 0x534e 114; pair 0x536b 98; pair 0x5415 108;
   pair 0x5434 53; pair 0x5468 52; pair 0x5510 89; pair 0x55bb 122; pair 0x595a 73; pair 0x59da 47;
   pair 0x59dc 118; pair 0x5b54 111; pair 0x5b59 50; pair 0x5b5f 63; pair 0x5c24 105; pair 0x5c39 37;
   pair 0x5f20 110; pair 0x5f6d 75; pair 0x621a 119; pair 0x65b9 84; pair 0x65bd 109; pair 0x660c 79;
   pair 0x66f9 112; pair 0x6731 103; pair 0x674e 51; pair 0x6768 102; pair 0x67f3 88; pair 0x6c34 66;
   pair 0x6c5f 38; pair 0x6c88 100; pair 0x6f58 71; pair 0x738b 55; pair 0x798f 65; pair 0x79e6 104;
   pair 0x7aa6 67; pair 0x7ae0 68; pair 0x7c73 43; pair 0x7f57 90; pair 0x82b1 83; pair 0x82cf 70;
   pair 0x82d7 81; pair 0x8303 74; pair 0x845b 72; pair 0x848b 99; pair 0x859b 46; pair 0x8881 87;
   pair 0x891a 97; pair 0x8bb8 106; pair 0x8c22 120; pair 0x8d1d 61; pair 0x8d75 48; pair 0x90b9 121;
   pair 0x90ce 76; pair 0x90d1 54; pair 0x91d1 115; pair 0x949f 42; pair 0x94b1 49; pair 0x9648 57;
   pair 0x9676 117; pair 0x97e6 78; pair 0x97e9 101; pair 0x987e 35; pair 0x9a6c 80; pair 0x9b4f 116;
   pair 0x9c81 77].

(** The literals [a] and [b] of the constructor, without their terminators. *)
Definition initialize_a : list Z :=
  [
   0xe8; 0xb5; 0xb5; 0xe9; 0x92; 0xb1; 0xe5; 0xad; 0x99; 0xe6; 0x9d; 0x8e;
   0xe5; 0x91; 0xa8; 0xe5; 0x90; 0xb4; 0xe9; 0x83; 0x91; 0xe7; 0x8e; 0x8b;
   0xe5; 0x86; 0xaf; 0xe9; 0x99; 0x88; 0xe8; 0xa4; 0x9a; 0xe5; 0x8d; 0xab;
   0xe8; 0x92; 0x8b; 0xe6; 0xb2; 0x88; 0xe9; 0x9f; 0xa9; 0xe6; 0x9d; 0xa8;
   0xe6; 0x9c; 0xb1; 0xe7; 0xa7; 0xa6; 0xe5; 0xb0; 0xa4; 0xe8; 0xae; 0xb8;
   0xe4; 0xbd; 0x95; 0xe5; 0x90; 0x95; 0xe6; 0x96; 0xbd; 0xe5; 0xbc; 0xa0;
   0xe5; 0xad; 0x94; 0xe6; 0x9b; 0xb9; 0xe4; 0xb8; 0xa5; 0xe5; 0x8d; 0x8e;
   0xe9; 0x87; 0x91; 0xe9; 0xad; 0x8f; 0xe9; 0x99; 0xb6; 0xe5; 0xa7; 0x9c;
   0xe6; 0x88; 0x9a; 0xe8; 0xb0; 0xa2; 0xe9; 0x82; 0xb9; 0xe5; 0x96; 0xbb;
   0xe7; 0xa6; 0x8f; 0xe6; 0xb0; 0xb4; 0xe7; 0xaa; 0xa6; 0xe7; 0xab; 0xa0;
   0xe4; 0xba; 0x91; 0xe8; 0x8b; 0x8f; 0xe6; 0xbd; 0x98; 0xe8; 0x91; 0x9b;
   0xe5; 0xa5; 0x9a; 0xe8; 0x8c; 0x83; 0xe5; 0xbd; 0xad; 0xe9; 0x83; 0x8e;
   0xe9; 0xb2; 0x81; 0xe9; 0x9f; 0xa6; 0xe6; 0x98; 0x8c; 0xe9; 0xa9; 0xac;
   0xe8; 0x8b; 0x97; 0xe5; 0x87; 0xa4; 0xe8; 0x8a; 0xb1; 0xe6; 0x96; 0xb9;
   0xe4; 0xbf; 0x9e; 0xe4; 0xbb; 0xbb; 0xe8; 0xa2; 0x81; 0xe6; 0x9f; 0xb3;
   0xe5; 0x94; 0x90; 0xe7; 0xbd; 0x97; 0xe8; 0x96; 0x9b; 0xe4; 0xbc; 0x8d;
   0xe4; 0xbd; 0x99; 0xe7; 0xb1; 0xb3; 0xe8; 0xb4; 0x9d; 0xe5; 0xa7; 0x9a;
   0xe5; 0xad; 0x9f; 0xe9; 0xa1; 0xbe; 0xe5; 0xb0; 0xb9; 0xe6; 0xb1; 0x9f;
   0xe9; 0x92; 0x9f].

Definition initialize_b : list Z :=
  [
   48; 49; 50; 51; 52; 53; 54; 55; 56; 57; 97; 98; 99; 100; 101;
   102; 103; 104; 105; 106; 107; 108; 109; 110; 111; 112; 113; 114; 115; 116;
   117; 118; 119; 120; 121; 122; 65; 66; 67; 68; 69; 70; 71; 72; 73;
   74; 75; 76; 77; 78; 79; 80; 81; 82; 83; 84; 85; 86; 87; 88;
   89; 90; 46; 45; 95; 43; 61; 47; 63; 35; 37; 38; 42].

(** ** Comparison and search *)
Definition pair_cmp (a b : st_pair_t) : outcome Z :=
  int_result (s32 (pr_x a) - s32 (pr_x b)).

(** [bsearch] of the C library over [l, u). *)
Definition bsearch_step {A} (cmp : A → outcome Z) (base : list A) (s : Z * Z) : outcome (Z * Z + option A) :=
  let '(l, u) := s in
  if decide (l < u) then
    let idx := (l + u) `div` 2 in
    p ← load base idx;
    c ← cmp p;
    if decide (c < 0) then Ret (inl (l, idx))
    else if decide (c > 0) then Ret (inl (idx + 1, u))
    else Ret (inr (Some p))
  else Ret (inr None).

Definition bsearch {A} (cmp : A → outcome Z) (base : list A) : outcome (option A) :=
  while_fuel (S (length base)) (bsearch_step cmp base) (0, zlen base).

(** ** The constructor *)

(** [table[b[i]]] gets the next name and its bytes, [pairs[i]] the code. *)
Definition initialize_step (i : Z) (s : list st_family_name_t * list st_pair_t * st_utf8_stream_t) :
    outcome (list st_family_name_t * list st_pair_t * st_utf8_stream_t + unit) :=
  let a := initialize_a ++ [0] in
  let '(tab, prs, stream) := s in
  bi ← load initialize_b i;
  '(t, stream, c) ← utf8_stream_next a stream;
  if decide (s32 t = -1) then Ret (inr tt)
  else
    match c with
    | None => Undef
    | Some c =>
        old ← load tab bi;
        str ← load_n a (st_p stream - c) c;
        fa ← store_n (fn_a old) 0 (str ++ [0]);
        tab ← store tab bi (FamilyName t fa);
        prs ← store prs i (Pair t bi);
        Ret (inl (tab, prs, stream))
    end.

(** The loop over [b]: it ends after [n] letters, or when the stream does. *)
Fixpoint initialize_loop (n : nat) (i : Z) (s : list st_family_name_t * list st_pair_t * st_utf8_stream_t) :
    outcome (list st_family_name_t * list st_pair_t) :=
  match n with
  | O => Ret (s.1.1, s.1.2)
  | S n =>
      r ← initialize_step i s;
      match r with
      | inr _ => Ret (s.1.1, s.1.2)
      | inl s' => initialize_loop n (i + 1) s'
      end
  end.

(** The constructor up to and including [qsort]. *)
Definition initialize_tables (qsort : list st_pair_t → list st_pair_t)
    (tab : list st_family_name_t) (prs : list st_pair_t) :
    outcome (list st_family_name_t * list st_pair_t) :=
  let stream := utf8_stream_init 0 (zlen initialize_a) in
  tab ← for_up (length tab) 0 (λ i tab, store tab i no_name) tab;
  '(tab, prs) ← initialize_loop (length initialize_b) 0 (tab, prs, stream);
  Ret (tab, qsort prs).

(** ** Printing the tables *)

(** Decimal-free formatting: the digits of [%x], most significant first. *)
Definition hex_digit (d : Z) : Z := if decide (d < 10) then 48 + d else 87 + d.

Fixpoint hex_digits (n : nat) (z : Z) (acc : list Z) : list Z :=
  match n with
  | O => acc
  | S n =>
      let acc := hex_digit (z mod 16) :: acc in
      if decide (z `div` 16 = 0) then acc else hex_digits n (z `div` 16) acc
  end.

(** [%#x] of an [unsigned]. *)
Definition fmt_x (z : Z) : list Z :=
  if decide (z = 0) then [48] else 48 :: 120 :: hex_digits 8 z [].

(** The bytes of [self->a] up to its first zero, each as "%#x,". *)
Fixpoint dump_bytes (k : nat) (fa : list Z) (t : Z) (buf : list Z) (q : Z) : outcome (Z * list Z) :=
  match k with
  | O => Undef
  | S k =>
      b ← load fa t;
      if decide (b = 0) then Ret (q, buf)
      else
        '(q, buf) ← sprintf buf q (fmt_x b ++ [44]);
        dump_bytes k fa (t + 1) buf q
  end.

(** The static buffer of 32 bytes after the call; the result is its string. *)
Definition family_name_dump (buf : list Z) (self : st_family_name_t) : outcome (list Z) :=
  '(q, buf) ← sprintf buf 0 ([123; 46; 120; 61] ++ fmt_x (fn_x self) ++ [44; 46; 97; 61; 123]);
  '(q, buf) ← dump_bytes (S (length (fn_a self))) (fn_a self) 0 buf q;
  '(q, buf) ← sprintf buf q [125; 125];
  Ret buf.

Definition pair_dump (buf : list Z) (self : st_pair_t) : outcome (list Z) :=
  '(q, buf) ← sprintf buf 0 ([123; 46; 120; 61] ++ fmt_x (pr_x self) ++
                              [44; 46; 99; 61; 39] ++ [u8 (pr_c self)] ++ [39; 125]);
  Ret buf.

Section dump_list.
Context {A : Type} (itemsperline : Z) (dump_fn : A → outcome (list Z)).

(** The loop over the items from number [i] on; [p] runs over [buf[4096]].
    Answers the final [p] and [buf]. *)
Fixpoint dump_items (items : list A) (i p : Z) (buf : list Z) : outcome (Z * list Z) :=
  match items with
  | [] => Ret (p, buf)
  | a :: items =>
      obj ← dump_fn a;
      str ← c_string obj;
      '(n, buf) ← snprintf buf p (zlen buf - p) (str ++ [44]);
      if decide (p + n >= zlen buf) then Ret (p, buf)
      else
        let p := p + n in
        '(p, buf) ← (if decide ((i + 1) `mod` itemsperline = 0)
                     then buf ← store buf p 10; Ret (p + 1, buf)
                     else Ret (p, buf));
        if decide (p = zlen buf) then
          buf ← store buf (p - 1) 0; Ret (p, buf)
        else dump_items items (i + 1) p buf
  end.

(** The text given to LOG_INFO. *)
Definition dump_list (buf : list Z) (items : list A) : outcome (list Z) :=
  '(p, buf) ← dump_items items 0 0 buf;
  buf ← (if decide (p ≠ zlen buf) then store buf p 0 else Ret buf);
  c_string buf.

End dump_list.

(** The whole constructor: [buf] is the automatic buffer of [dump_list], [st1]
    and [st2] the static ones of the two dump functions. *)
Definition initialize (qsort : list st_pair_t → list st_pair_t) (buf st1 st2 : list Z)
    (tab : list st_family_name_t) (prs : list st_pair_t) :
    outcome (list st_family_name_t * list st_pair_t * list Z * list Z) :=
  '(tab, prs) ← initialize_tables qsort tab prs;
  out1 ← dump_list 4 (family_name_dump st1) buf tab;
  out2 ← dump_list 4 (pair_dump st2) buf prs;
  Ret (tab, prs, out1, out2).

(** ** The program *)
Inductive printed := Stdout (text : list Z) | Stderr (text : list Z).

(** "magnet:?xt=urn:btih:" *)
Definition MAGNETPREFIX : list Z :=
  [109; 97; 103; 110; 101; 116; 58; 63; 120; 116; 61; 117; 114; 110; 58; 98; 116; 105; 104; 58].

(** "invalid input" *)
Definition invalid_input : list Z := [105; 110; 118; 97; 108; 105; 100; 32; 105; 110; 112; 117; 116].

(** "usage:%s name-list" *)
Definition usage (argv0 : list Z) : list Z :=
  [117; 115; 97; 103; 101; 58] ++ argv0 ++ [32; 110; 97; 109; 101; 45; 108; 105; 115; 116].

(** One name: over the stream, the output pointer [p] and the buffer [a]. *)
Definition main_step (prs : list st_pair_t) (arg : list Z) (s : st_utf8_stream_t * Z * list Z) :
    outcome (st_utf8_stream_t * Z * list Z + option (Z * list Z)) :=
  let '(stream, p, a) := s in
  '(t, stream, _) ← utf8_stream_next arg stream;
  if decide (t = 0xffffffff) then Ret (inr (Some (p, a)))
  else
    x ← bsearch (pair_cmp (Pair t 0)) prs;
    match x with
    | None => Ret (inr None)
    | Some x =>
        a ← store a p (pr_c x);
        Ret (inl (stream, p + 1, a))
    end.

(** [arg] is the object of argv[1], [a] the 512 bytes of the local buffer. *)
Definition main (argc : Z) (argv0 arg a : list Z) : outcome (Z * printed) :=
  if decide (argc < 2) then Ret (1, Stderr (usage argv0))
  else
    n ← strlen arg 0;
    r ← while_fuel (S (length arg)) (main_step pairs arg) (utf8_stream_init 0 n, 0, a);
    match r with
    | None => Ret (2, Stderr invalid_input)
    | Some (p, a) =>
        a ← store a p 0;
        str ← c_string a;
        Ret (0, Stdout (MAGNETPREFIX ++ str))
    end.

(** ** Search *)
Definition in_int (x : Z) : Prop := 0 ≤ x < 2147483648.

Lemma pair_cmp_sub a b : in_int (pr_x a) → in_int (pr_x b) → pair_cmp a b = Ret (pr_x a - pr_x b).
Proof. unfold in_int. intros. unfold pair_cmp. rewrite !s32_small by lia. apply int_result_small. lia. Qed.

Lemma sorted_lookup_lt (l : list st_pair_t) i j p q :
  StronglySorted (λ a b, pr_x a < pr_x b) l → l !! i = Some p → l !! j = Some q → (i < j)%nat → pr_x p < pr_x q.
Proof.
  intros Hs. revert i j. induction Hs as [|a l Hs IH Ha]; intros i j Hi Hj Hij; [done|].
  destruct j as [|j]; [lia|]. destruct i as [|i]; simpl in *; simplify_eq.
  - rewrite Forall_forall in Ha. apply Ha, list_elem_of_lookup. eauto.
  - eapply IH; [done..|lia].
Qed.

Section search.
Context (base : list st_pair_t) (k : Z).
Context (Hsorted : StronglySorted (λ a b, pr_x a < pr_x b) base).
Context (Hrange : Forall (λ a, in_int (pr_x a)) base) (Hk : in_int k).

Definition found (r : option st_pair_t) : Prop :=
  match r with
  | Some p => p ∈ base ∧ pr_x p = k
  | None => ∀ p, p ∈ base → pr_x p ≠ k
  end.

Lemma bsearch_loop fuel l u :
  0 ≤ l ≤ u → u ≤ zlen base → u - l < Z.of_nat fuel →
  (∀ i p, base !! i = Some p → Z.of_nat i < l → pr_x p < k) →
  (∀ i p, base !! i = Some p → u ≤ Z.of_nat i → k < pr_x p) →
  ∃ r, while_fuel fuel (bsearch_step (pair_cmp (Pair k 0)) base) (l, u) = Ret r ∧ found r.
Proof using Hsorted Hrange Hk.
  revert l u. induction fuel as [|fuel IH]; intros l u Hlu Hu Hf Hl Hr; [lia|].
  rewrite while_fuel_S. unfold bsearch_step at 2. cbn beta iota. case_decide as Hd; cbind.
  - destruct (load_in base ((l + u) `div` 2)) as (p & -> & Hp); [mlia|]. cbind.
    rewrite pair_cmp_sub by (try done; by eapply (Forall_lookup_1 _ _ _ _ Hrange)). cbn [pr_x]. cbind.
    set (mid := (l + u) `div` 2) in *. assert (l ≤ mid < u) by (unfold mid; mlia).
    case_decide; [|case_decide]; cbind.
    + apply IH; [lia..|done|]. intros i q Hq Hi.
      destruct (decide (i = Z.to_nat mid)); [simplify_eq; lia|].
      pose proof (sorted_lookup_lt base (Z.to_nat mid) i p q Hsorted Hp Hq). lia.
    + apply IH; [lia..| |done]. intros i q Hq Hi.
      destruct (decide (i = Z.to_nat mid)); [simplify_eq; lia|].
      pose proof (sorted_lookup_lt base i (Z.to_nat mid) q p Hsorted Hq Hp). lia.
    + exists (Some p). split; [done|]. split; [apply list_elem_of_lookup; eauto|lia].
  - exists None. split; [done|]. intros p [i Hi]%list_elem_of_lookup.
    destruct (decide (Z.of_nat i < l)); [specialize (Hl i p Hi)|specialize (Hr i p Hi)]; lia.
Qed.

Lemma bsearch_found : ∃ r, bsearch (pair_cmp (Pair k 0)) base = Ret r ∧ found r.
Proof using Hsorted Hrange Hk.
  apply bsearch_loop; [lia..|intros i p Hp Hi; lia|].
  intros i p Hp%lookup_lt_Some Hi. lia.
Qed.
End search.

(** ** The static tables *)
Lemma pairs_sorted : StronglySorted (λ a b, pr_x a < pr_x b) pairs.
Proof. apply (bool_decide_unpack _). by vm_compute. Qed.

Lemma pairs_scalar : Forall (λ a, is_scalar (pr_x a)) pairs.
Proof. apply (bool_decide_unpack _). by vm_compute. Qed.

Lemma pairs_letters : Forall (λ a, is_char (pr_c a)) pairs.
Proof. apply (bool_decide_unpack _). by vm_compute. Qed.

Lemma pairs_in_int : Forall (λ a, in_int (pr_x a)) pairs.
Proof. eapply Forall_impl; [apply pairs_scalar|]. unfold is_scalar, in_int. simpl. lia. Qed.

Lemma sorted_key (l : list st_pair_t) p q :
  StronglySorted (λ a b, pr_x a < pr_x b) l → p ∈ l → q ∈ l → pr_x p = pr_x q → p = q.
Proof.
  intros Hs [i Hi]%list_elem_of_lookup [j Hj]%list_elem_of_lookup Heq.
  destruct (decide (i < j)%nat); [pose proof (sorted_lookup_lt l i j p q Hs Hi Hj); lia|].
  destruct (decide (j < i)%nat); [pose proof (sorted_lookup_lt l j i q p Hs Hj Hi); lia|].
  replace j with i in Hj by lia. congruence.
Qed.

Lemma search_pair p : p ∈ pairs → bsearch (pair_cmp (Pair (pr_x p) 0)) pairs = Ret (Some p).
Proof.
  intros Hp. destruct (bsearch_found pairs (pr_x p)) as ([q|] & -> & Hf);
    [apply pairs_sorted|apply pairs_in_int|by apply (proj1 (Forall_forall _ _) pairs_in_int)| |].
  - destruct Hf as [Hq Hx]. by rewrite (sorted_key pairs q p pairs_sorted Hq Hp Hx).
  - by destruct (Hf p Hp).
Qed.

Lemma search_unknown x : in_int x → x ∉ map pr_x pairs → bsearch (pair_cmp (Pair x 0)) pairs = Ret None.
Proof.
  intros Hx Hn. destruct (bsearch_found pairs x) as ([q|] & -> & Hf);
    [apply pairs_sorted|apply pairs_in_int|done| |done].
  destruct Hf as [Hq <-]. by destruct Hn; apply list_elem_of_fmap_2.
Qed.

(** ** The program's loop *)

(** Known names at the head of what is left to read are spelled into [a]. *)
Lemma main_prefix arg ks pre rest e dn r fuel :
  arg = pre ++ utf8_text (map pr_x ks) ++ rest → Forall (λ k, k ∈ pairs) ks →
  zlen pre + zlen (utf8_text (map pr_x ks)) ≤ e → (length ks ≤ length r)%nat →
  while_fuel (length ks + fuel) (main_step pairs arg) (Stream (zlen pre) e, zlen dn, dn ++ r) =
  while_fuel fuel (main_step pairs arg)
    (Stream (zlen (pre ++ utf8_text (map pr_x ks))) e, zlen (dn ++ map pr_c ks),
     dn ++ map pr_c ks ++ drop (length ks) r).
Proof.
  revert pre dn r. induction ks as [|k ks IH]; intros pre dn r Harg Hks He Hr.
  { simpl. by rewrite !app_nil_r, drop_0. }
  change (utf8_text (map pr_x (k :: ks))) with (utf8_spec (pr_x k) ++ utf8_text (map pr_x ks)) in *.
  apply Forall_cons in Hks as [Hk Hks]. destruct r as [|r0 r]; [simpl in Hr; lia|].
  pose proof (proj1 (Forall_forall _ _) pairs_scalar k Hk) as Hsc. unfold is_scalar in Hsc.
  rewrite length_app, Nat2Z.inj_add in He. cbn [length Nat.add]. rewrite while_fuel_inl with
    (s' := (Stream (zlen (pre ++ utf8_spec (pr_x k))) e, zlen (dn ++ [pr_c k]), (dn ++ [pr_c k]) ++ r)).
  - rewrite IH; [|by rewrite Harg, <- !app_assoc|done|rewrite length_app; lia|simpl in Hr; lia].
    by rewrite <- !app_assoc.
  - unfold main_step. rewrite Harg, <- app_assoc.
    rewrite stream_next_fits by (done || lia). cbind. rewrite decide_False by lia.
    rewrite search_pair by done. cbind. rewrite store_app by done. cbind.
    rewrite <- app_assoc, !length_app. peel.
Qed.

Lemma text_length ks : Forall (λ k, k ∈ pairs) ks → (length ks ≤ length (utf8_text (map pr_x ks)))%nat.
Proof.
  induction 1 as [|k ks Hk _ IH]; [simpl; lia|].
  change (utf8_text (map pr_x (k :: ks))) with (utf8_spec (pr_x k) ++ utf8_text (map pr_x ks)).
  pose proof (proj1 (Forall_forall _ _) pairs_scalar k Hk) as Hsc. unfold is_scalar in Hsc.
  pose proof (utf8_spec_pos (pr_x k) ltac:(lia)). rewrite length_app. simpl. lia.
Qed.

Lemma known_text ks : Forall (λ k, k ∈ pairs) ks → Forall is_scalar (map pr_x ks).
Proof.
  intros H. apply Forall_fmap. eapply Forall_impl; [exact H|]. intros k Hk.
  by apply (proj1 (Forall_forall _ _) pairs_scalar).
Qed.

Lemma known_letters ks : Forall (λ k, k ∈ pairs) ks → Forall is_char (map pr_c ks).
Proof.
  intros H. apply Forall_fmap. eapply Forall_impl; [exact H|]. intros k Hk.
  by apply (proj1 (Forall_forall _ _) pairs_letters).
Qed.

(** How [main] ends once its loop has answered [r]. *)
Definition main_end (r : option (Z * list Z)) : outcome (Z * printed) :=
  match r with
  | None => Ret (2, Stderr invalid_input)
  | Some (p, a) => a ← store a p 0; str ← c_string a; Ret (0, Stdout (MAGNETPREFIX ++ str))
  end.

(** The run of [main] past the known names its argument starts with. *)
Lemma main_run ks rest post argv0 a :
  Forall (λ k, k ∈ pairs) ks → Forall is_char rest → (length ks ≤ length a)%nat →
  ∃ fuel, main 2 argv0 (utf8_text (map pr_x ks) ++ rest ++ 0 :: post) a =
  (while_fuel (S fuel) (main_step pairs (utf8_text (map pr_x ks) ++ rest ++ 0 :: post))
    (Stream (zlen (utf8_text (map pr_x ks))) (zlen (utf8_text (map pr_x ks) ++ rest)),
     zlen ks, map pr_c ks ++ drop (length ks) a) ≫= main_end).
Proof.
  intros Hks Hrest Ha. pose proof (text_length ks Hks) as Hlen.
  unfold main. rewrite decide_False by lia.
  rewrite app_assoc, strlen_cstr, <- app_assoc
    by (apply is_char_nonzero, Forall_app; auto using utf8_text_chars, known_text). cbind.
  set (arg := utf8_text (map pr_x ks) ++ rest ++ 0 :: post) in *. exists (length arg - length ks)%nat.
  pose proof (main_prefix arg ks [] (rest ++ 0 :: post) (zlen (utf8_text (map pr_x ks) ++ rest)) [] a
    (S (length arg - length ks)) eq_refl Hks) as E.
  replace (S (length arg)) with (length ks + S (length arg - length ks))%nat
    by (unfold arg; rewrite length_app; lia).
  cbn [app length] in E. change (Z.of_nat 0) with 0 in E.
  unfold utf8_stream_init. rewrite Z.add_0_l, E by (rewrite ?length_app; lia).
  by rewrite length_map.
Qed.

(** The program has read known names only, and has room for the terminator. *)
Lemma main_end_letters ks a :
  Forall (λ k, k ∈ pairs) ks → (length ks < length a)%nat →
  main_end (Some (zlen ks, map pr_c ks ++ drop (length ks) a)) =
    Ret (0, Stdout (MAGNETPREFIX ++ map pr_c ks)).
Proof.
  intros Hks Ha. unfold main_end.
  destruct (drop (length ks) a) as [|x r] eqn:Ed;
    [apply (f_equal length) in Ed; rewrite length_drop in Ed; simpl in Ed; lia|].
  rewrite store_app by (by rewrite length_map). cbind.
  rewrite string_prefix by (by apply known_letters). done.
Qed.

(** ** Dumping *)
Section dump_text.
Context {A : Type} (itemsperline : Z) (dump_fn : A → outcome (list Z)) (str : A → list Z).

(** [dump_fn] answers an object that holds the string [str a]. *)
Definition dumps (a : A) : Prop :=
  ∃ r, dump_fn a = Ret (str a ++ 0 :: r) ∧ Forall is_char (str a).

(** The text of the items from number [i] on, were there room for it. *)
Fixpoint dump_text (items : list A) (i : Z) : list Z :=
  match items with
  | [] => []
  | a :: items =>
      str a ++ [44] ++ (if decide ((i + 1) `mod` itemsperline = 0) then [10] else []) ++
      dump_text items (i + 1)
  end.

(** What [dump_list] does after its loop. *)
Definition dump_end (s : Z * list Z) : outcome (list Z) :=
  let '(p, buf) := s in
  buf ← (if decide (p ≠ zlen buf) then store buf p 0 else Ret buf);
  c_string buf.

Lemma dump_list_end buf items :
  dump_list itemsperline dump_fn buf items = (dump_items itemsperline dump_fn items 0 0 buf ≫= dump_end).
Proof. unfold dump_list. by destruct (dump_items _ _ _ _ _ _) as [[]| |]. Qed.

Lemma dump_end_string dn x r : Forall is_char dn → dump_end (zlen dn, dn ++ x :: r) = Ret dn.
Proof.
  intros Hd. unfold dump_end. rewrite decide_True by (len).
  rewrite store_app by done. cbind. by apply string_prefix.
Qed.

(** The three ways an item is printed: it does not fit, its line end fills
    the buffer, or the loop goes on with both written. *)
Lemma dump_step a items i dn r :
  dumps a → r ≠ [] →
  (zlen r ≤ zlen (str a) + 1 ∧ ∃ x r', dump_items itemsperline dump_fn (a :: items) i (zlen dn) (dn ++ r) = Ret (zlen dn, dn ++ x :: r')) ∨
  (dump_text [a] i = str a ++ [44; 10] ∧ zlen r = zlen (str a) + 2 ∧
   dump_items itemsperline dump_fn (a :: items) i (zlen dn) (dn ++ r) =
     Ret (zlen (dn ++ r), dn ++ str a ++ [44; 0])) ∨
  (zlen (dump_text [a] i) < zlen r ∧ ∃ r', zlen r' = zlen r - zlen (dump_text [a] i) ∧
   dump_items itemsperline dump_fn (a :: items) i (zlen dn) (dn ++ r) =
     dump_items itemsperline dump_fn items (i + 1) (zlen (dn ++ dump_text [a] i)) ((dn ++ dump_text [a] i) ++ r')).
Proof.
  intros (o & Hd & Hc) Hr. cbn [dump_items dump_text]. rewrite Hd. cbind.
  rewrite string_prefix by done. cbind. set (s := str a) in *.
  destruct (decide (zlen r ≤ zlen s + 1)) as [Hl|Hl].
  - left. split; [done|]. unfold snprintf. destruct r as [|x r]; [done|].
    rewrite decide_True by (len).
    replace (Z.to_nat (zlen (dn ++ x :: r) - zlen dn - 1)) with (length r) by (len).
    pose proof (store_n_app dn (x :: r) [] (take (length r) (s ++ [44]) ++ [0]) (zlen dn) eq_refl) as E.
    rewrite !app_nil_r in E. rewrite E.
    2: { cbn [length] in *. len. }
    cbind. rewrite decide_True.
    2: { cbn [length] in *. len. }
    destruct (take (length r) (s ++ [44]) ++ [0]) as [|y r'] eqn:Ey; [by apply app_nil in Ey as [_ ?]|]. eauto.
  - right. rewrite snprintf_fits by (len). cbind.
    set (r1 := drop _ r). assert (zlen r1 = zlen r - zlen s - 2) as Hr1.
    { unfold r1. len. }
    clearbody r1.
    rewrite (decide_False (P := (_ >= _))) by len.
    replace (zlen dn + zlen (s ++ [44])) with (zlen (dn ++ s ++ [44])) by len.
    replace (dn ++ (s ++ [44]) ++ 0 :: r1) with ((dn ++ s ++ [44]) ++ 0 :: r1) by (by rewrite <- app_assoc).
    case_decide as Hnl; cbind.
    + rewrite store_app by done. cbind.
      replace ((dn ++ s ++ [44]) ++ 10 :: r1) with ((dn ++ s ++ [44; 10]) ++ r1) by (by rewrite <- !app_assoc).
      replace (zlen (dn ++ s ++ [44]) + 1) with (zlen (dn ++ s ++ [44; 10])) by (len).
      case_decide as He.
      * left. destruct r1; [|revert He; len]. cbn [length] in Hr1.
        split; [done|]. split; [lia|].
        replace ((dn ++ s ++ [44; 10]) ++ []) with ((dn ++ s ++ [44]) ++ [10]) by (rewrite app_nil_r, <- !app_assoc; done).
        rewrite store_app by (len). cbind.
        rewrite <- !app_assoc. cbn [app]. do 2 f_equal. len.
      * right. split; [revert He; len|].
        exists r1. split; [len|]. by rewrite app_nil_r.
    + case_decide as He; [revert He; len|].
      right. split; [len|]. exists (0 :: r1).
      split; [len|]. done.
Qed.

Lemma dump_text_chars items i : Forall dumps items → Forall is_char (dump_text items i).
Proof.
  intros H. revert i. induction H as [|a items (o & _ & Ha) _ IH]; intros i; cbn [dump_text]; [done|].
  repeat (apply Forall_app; split); auto; [by repeat constructor|]. case_decide; by repeat constructor.
Qed.

Lemma dump_text_cons a items i : dump_text (a :: items) i = dump_text [a] i ++ dump_text items (i + 1).
Proof. cbn [dump_text]. by rewrite app_nil_r, <- !app_assoc. Qed.

Lemma dump_items_prefix items i dn r :
  Forall dumps items → Forall is_char dn → r ≠ [] →
  ∃ t, (dump_items itemsperline dump_fn items i (zlen dn) (dn ++ r) ≫= dump_end) = Ret t ∧
    t `prefix_of` dn ++ dump_text items i ∧
    (zlen (dump_text items i) < zlen r → t = dn ++ dump_text items i).
Proof.
  intros Hi. revert i dn r. induction Hi as [|a items Ha Hi IH]; intros i dn r Hdn Hr.
  { destruct r as [|x r]; [done|]. exists dn. cbn [dump_items dump_text]. cbind.
    rewrite dump_end_string, app_nil_r by done. done. }
  pose proof Ha as (_ & _ & Hc). rewrite dump_text_cons.
  destruct (dump_step a items i dn r Ha Hr) as [(Hl & x & r' & ->)|[(Ht & Hl & ->)|(Hl & r' & Hr' & ->)]].
  - exists dn. cbind. rewrite dump_end_string by done. split; [done|]. split; [by apply prefix_app_r|].
    intros H. exfalso. cbn [dump_text] in H. rewrite !length_app in H. cbn [length] in H. lia.
  - exists (dn ++ str a ++ [44]). cbind. unfold dump_end. rewrite decide_False.
    2: { len. }
    cbind. replace (dn ++ str a ++ [44; 0]) with ((dn ++ str a ++ [44]) ++ 0 :: []) by (by rewrite <- !app_assoc).
    rewrite string_prefix by (repeat (apply Forall_app; split); by repeat constructor).
    split; [done|]. rewrite Ht. split.
    + exists (10 :: dump_text items (i + 1)). by rewrite <- !app_assoc.
    + len.
  - destruct (IH (i + 1) (dn ++ dump_text [a] i) r') as (t & -> & Hp & Hf).
    + apply Forall_app. split; [done|]. apply dump_text_chars. by repeat constructor.
    + intros ->. cbn [length] in Hr'. lia.
    + exists t. rewrite <- app_assoc in *. split; [done|]. split; [done|].
      rewrite length_app. intros. apply Hf. lia.
Qed.

(** Items that fit, then one whose dump is undefined. *)
Lemma dump_items_undef items a rest i dn r :
  Forall dumps items → dump_fn a = Undef → zlen (dump_text items i) < zlen r →
  dump_items itemsperline dump_fn (items ++ a :: rest) i (zlen dn) (dn ++ r) = Undef.
Proof.
  intros Hi Ha. revert i dn r. induction Hi as [|b items Hb Hi IH]; intros i dn r Hl.
  { cbn. by rewrite Ha. }
  rewrite dump_text_cons, length_app in Hl. cbn [app].
  destruct (dump_step b (items ++ a :: rest) i dn r Hb) as [(Hl' & _)|[(Ht & Hl' & _)|(Hl' & r' & Hr' & ->)]].
  - intros ->. cbn [length] in Hl. lia.
  - cbn [dump_text] in Hl. rewrite !length_app in Hl. cbn [length] in Hl. lia.
  - rewrite Ht, length_app in Hl. cbn [length] in Hl. lia.
  - apply IH. lia.
Qed.
End dump_text.

(** ** Sorting *)
Definition cmp_le (a b : st_pair_t) : Prop := ∃ c, pair_cmp a b = Ret c ∧ c ≤ 0.

Lemma cmp_le_iff a b : in_int (pr_x a) → in_int (pr_x b) → cmp_le a b ↔ pr_x a ≤ pr_x b.
Proof.
  intros Ha Hb. unfold cmp_le. rewrite pair_cmp_sub by done. split.
  - intros (c & Hc%Ret_inj & ?). lia.
  - intros. eexists. split; [done|lia].
Qed.

Lemma pairs_sorted_cmp : StronglySorted cmp_le pairs.
Proof.
  assert (∀ l, Forall (λ a, in_int (pr_x a)) l → StronglySorted (λ a b, pr_x a < pr_x b) l → StronglySorted cmp_le l) as H.
  { intros l Hl. induction 1 as [|a l Hs IH Ha]; [constructor|]. apply Forall_cons in Hl as [? Hl].
    constructor; [auto|]. rewrite Forall_forall in *. intros b Hb. apply cmp_le_iff; [done|auto|].
    specialize (Ha b Hb). simpl in Ha. lia. }
  apply H; [apply pairs_in_int|apply pairs_sorted].
Qed.

(** [pairs] is the only list in [pair_cmp] order with its elements. *)
Lemma pairs_unique l : l ≡ₚ pairs → StronglySorted cmp_le l → l = pairs.
Proof.
  intros Hp Hs. apply (StronglySorted_unique_strong cmp_le); [|done|apply pairs_sorted_cmp|done].
  intros x y Hx Hy. rewrite Hp in Hx. pose proof pairs_in_int as HI. rewrite Forall_forall in HI.
  rewrite !cmp_le_iff by auto. intros. apply (sorted_key pairs); [apply pairs_sorted|done|done|lia].
Qed.

(** What the C library promises of [qsort] with [pair_cmp]. *)
Definition sorts (qsort : list st_pair_t → list st_pair_t) : Prop :=
  ∀ l, Forall (λ a, in_int (pr_x a)) l → qsort l ≡ₚ l ∧ StronglySorted cmp_le (qsort l).

(** The pairs as the constructor's loop leaves them, in the order of [b]. *)
Definition unsorted : list st_pair_t :=
  match initialize_tables id (replicate 128 (name 0 [])) (replicate 73 (pair 0 0)) with
  | Ret (_, u) => u
  | _ => []
  end.

Lemma unsorted_perm : unsorted ≡ₚ pairs.
Proof. apply (bool_decide_unpack _). by vm_compute. Qed.

Definition key_le (a b : st_pair_t) : Prop := pr_x a ≤ pr_x b.
#[local] Instance key_le_dec : RelDecision key_le := λ a b, decide (pr_x a ≤ pr_x b).
#[local] Instance key_le_total : Total key_le := λ a b, Z.le_ge_cases (pr_x a) (pr_x b).
#[local] Instance key_le_trans : Transitive key_le := λ a b c, Z.le_trans (pr_x a) (pr_x b) (pr_x c).

(** A [qsort] to evaluate the constructor with. *)
Lemma merge_sort_sorts : sorts (merge_sort key_le).
Proof.
  intros l Hl. pose proof (merge_sort_Permutation key_le l) as Hp. split; [done|].
  assert (Forall (λ a, in_int (pr_x a)) (merge_sort key_le l)) as Hf by (by rewrite Hp).
  pose proof (StronglySorted_merge_sort key_le l) as Hs.
  induction Hs as [|a s Hs IH Ha] in Hf |- *; [constructor|].
  apply Forall_cons in Hf as [? Hf]. constructor; [auto|]. rewrite Forall_forall in *.
  intros b Hb. apply cmp_le_iff; [done|auto|]. by apply Ha.
Qed.

(** The constructor up to its sort, on storage that starts zeroed. *)
Lemma tables_computed qsort :
  sorts qsort →
  initialize_tables qsort (replicate 128 (name 0 [])) (replicate 73 (pair 0 0)) = Ret (table, pairs).
Proof.
  intros Hq. assert (Forall (λ a, in_int (pr_x a)) unsorted) as Hu by (rewrite unsorted_perm; apply pairs_in_int).
  destruct (Hq unsorted Hu) as [Hp Hs]. pose proof (Permutation_trans Hp unsorted_perm) as Hp'.
  rewrite <- (pairs_unique _ Hp' Hs). by vm_compute.
Qed.

(** The text of an unused entry: "{.x=0xffffffff,.a={}}". *)
Definition unused_text : list Z :=
  [123; 46; 120; 61; 48; 120; 102; 102; 102; 102; 102; 102; 102; 102; 44; 46; 97; 61; 123; 125; 125].

Lemma unused_dumps st : length st = 32%nat → dumps (family_name_dump st) (λ _, unused_text) no_name.
Proof.
  intros H. open_buffer 32 st. eexists. split; [|by repeat constructor]. vm_compute. reflexivity.
Qed.

Lemma entry_overruns st : length st = 32%nat → family_name_dump st (name 0x987e [0xe9; 0xa1; 0xbe]) = Undef.
Proof. intros H. open_buffer 32 st. vm_compute. reflexivity. Qed.

(** ** Properties *)

(** The static tables are what the constructor computes: run on zeroed
    storage with any [qsort] that sorts by [pair_cmp], it leaves exactly the
    initialisers of [table] and [pairs]. *)
Theorem static_tables_computed qsort :
  sorts qsort →
  initialize_tables qsort (replicate 128 (name 0 [])) (replicate 73 (pair 0 0)) = Ret (table, pairs).
Proof. apply tables_computed. Qed.

Lemma static_tables_computed_witness :
  initialize_tables (merge_sort key_le) (replicate 128 (name 0 [])) (replicate 73 (pair 0 0)) = Ret (table, pairs).
Proof. exact (static_tables_computed (merge_sort key_le) merge_sort_sorts). Defined.

(** The two tables agree: every pair's letter indexes the entry of [table]
    that holds the pair's name and its UTF-8 bytes, and distinct pairs have
    distinct names and distinct letters, so a spelled text can be read back. *)
Theorem tables_consistent :
  Forall (λ k, load table (pr_c k) = Ret (name (pr_x k) (utf8_spec (pr_x k)))) pairs ∧
  NoDup (map pr_x pairs) ∧ NoDup (map pr_c pairs).
Proof. apply (bool_decide_unpack _). by vm_compute. Qed.

(** Given at most 511 known names, the program prints the magnet prefix
    followed by their letters, in order, and exits with 0. *)
Theorem main_spells ks post argv0 a :
  Forall (λ k, k ∈ pairs) ks → length a = 512%nat → (length ks ≤ 511)%nat →
  main 2 argv0 (utf8_text (map pr_x ks) ++ 0 :: post) a =
    Ret (0, Stdout (MAGNETPREFIX ++ map pr_c ks)).
Proof.
  intros Hks Ha Hn.
  destruct (main_run ks [] post argv0 a Hks ltac:(constructor) ltac:(lia)) as [fuel E].
  cbn [app] in E. rewrite E, app_nil_r.
  erewrite while_fuel_inr by (unfold main_step; rewrite stream_next_end; reflexivity).
  cbind. apply main_end_letters; [done|lia].
Qed.

Lemma main_spells_witness :
  main 2 [] ([0xe8; 0xb5; 0xb5; 0xe9; 0x92; 0xb1; 0xe8; 0xb5; 0xb5] ++ [0]) (replicate 512 0) =
    Ret (0, Stdout (MAGNETPREFIX ++ [48; 49; 48])).
Proof.
  apply (main_spells [pair 0x8d75 48; pair 0x94b1 49; pair 0x8d75 48] [] [] (replicate 512 0));
    [|done|simpl; lia].
  apply (bool_decide_unpack _). by vm_compute.
Defined.

(** 512 known names or more overrun the buffer of 512 bytes. *)
Theorem main_overflow ks post argv0 a :
  Forall (λ k, k ∈ pairs) ks → length a = 512%nat → (512 ≤ length ks)%nat →
  main 2 argv0 (utf8_text (map pr_x ks) ++ 0 :: post) a = Undef.
Proof.
  intros Hks Ha Hn. rewrite <- (take_drop 512 ks) in Hks |- *. apply Forall_app in Hks as [H1 H2].
  assert (length (take 512 ks) = 512%nat) as Hk1 by (rewrite length_take; lia).
  set (k1 := take 512 ks) in *. rewrite map_app. unfold utf8_text. rewrite map_app, concat_app, <- app_assoc.
  change (concat (map utf8_spec ?l)) with (utf8_text l).
  destruct (main_run k1 (utf8_text (map pr_x (drop 512 ks))) post argv0 a H1) as [fuel ->];
    [by apply utf8_text_chars, known_text|lia|].
  rewrite (drop_ge a), app_nil_r by lia.
  destruct (drop 512 ks) as [|k k2].
  - cbn [map]. change (utf8_text []) with (@nil Z). rewrite app_nil_r.
    erewrite while_fuel_inr by (unfold main_step; rewrite stream_next_end; reflexivity).
    cbind. unfold main_end. rewrite store_out by (rewrite length_map; lia). done.
  - apply Forall_cons in H2 as [Hk _]. pose proof (proj1 (Forall_forall _ _) pairs_scalar k Hk) as Hsc.
    unfold is_scalar in Hsc. rewrite while_fuel_S. unfold main_step at 2. cbn [map].
    change (utf8_text (pr_x k :: ?l)) with (utf8_spec (pr_x k) ++ utf8_text l). rewrite <- (app_assoc (utf8_spec _)).
    rewrite stream_next_fits by (rewrite ?length_app; done || lia). cbind. rewrite decide_False by lia.
    rewrite search_pair by done. cbind. rewrite store_out by (rewrite length_map; lia). done.
Qed.

Lemma main_overflow_witness :
  main 2 [] (utf8_text (map pr_x (replicate 512 (pair 0x8d75 48))) ++ [0]) (replicate 512 0) = Undef.
Proof.
  apply (main_overflow (replicate 512 (pair 0x8d75 48)) [] [] (replicate 512 0)); [|done|done].
  apply Forall_replicate. apply (bool_decide_unpack _). by vm_compute.
Defined.

(** After known names, a name that is not in the table ends the program
    with the error and exit code 2, whatever follows; a byte no UTF-8 sequence
    starts with is taken for the end of the input: the names before it are
    printed and the program exits with 0. *)
Theorem main_stops ks rest post argv0 a :
  Forall (λ k, k ∈ pairs) ks → Forall is_char rest → length a = 512%nat → (length ks ≤ 511)%nat →
  (∀ x, is_scalar x → x ∉ map pr_x pairs →
     main 2 argv0 (utf8_text (map pr_x ks) ++ (utf8_spec x ++ rest) ++ 0 :: post) a =
       Ret (2, Stderr invalid_input)) ∧
  (∀ b, is_char b → lead_spec b = None →
     main 2 argv0 (utf8_text (map pr_x ks) ++ (b :: rest) ++ 0 :: post) a =
       Ret (0, Stdout (MAGNETPREFIX ++ map pr_c ks))).
Proof.
  intros Hks Hrest Ha Hn. split.
  - intros x Hx Hnot. pose proof Hx as Hx'. unfold is_scalar in Hx'.
    destruct (main_run ks (utf8_spec x ++ rest) post argv0 a Hks) as [fuel ->];
      [apply Forall_app; auto using utf8_spec_chars|lia|].
    rewrite while_fuel_S. unfold main_step at 2. rewrite <- (app_assoc (utf8_spec x)).
    rewrite stream_next_fits by (rewrite ?length_app; done || lia). cbind. rewrite decide_False by lia.
    assert (in_int x) by (unfold in_int; lia). by rewrite search_unknown.
  - intros b Hb Hlead. destruct (main_run ks (b :: rest) post argv0 a Hks) as [fuel ->];
      [by constructor|lia|].
    rewrite (while_fuel_inr _ _ _ (Some (zlen ks, map pr_c ks ++ drop (length ks) a)));
      [cbind; apply main_end_letters; [done|lia]|].
    unfold main_step, utf8_stream_next. cbn [st_p st_e]. rewrite decide_True by (rewrite length_app; cbn; lia).
    unfold utf8_decode. cbn [app]. rewrite load_app by done. cbind.
    rewrite decode_lead_spec, Hlead by auto with cmem. done.
Qed.

Lemma main_stops_witness :
  main 2 [] (utf8_text (map pr_x [pair 0x8d75 48]) ++ ([65] ++ [66]) ++ [0]) (replicate 512 0) =
    Ret (2, Stderr invalid_input) ∧
  main 2 [] (utf8_text (map pr_x [pair 0x8d75 48]) ++ (0x80 :: [66]) ++ [0]) (replicate 512 0) =
    Ret (0, Stdout (MAGNETPREFIX ++ [48])).
Proof.
  destruct (main_stops [pair 0x8d75 48] [66] [] [] (replicate 512 0)) as [H1 H2];
    [apply (bool_decide_unpack _); by vm_compute|by repeat constructor|done|simpl; lia|].
  split; [apply (H1 65)|apply (H2 0x80)].
  - done.
  - apply (bool_decide_unpack _). by vm_compute.
  - done.
  - reflexivity.
Defined.

(** The table printer never leaves its buffer: for any items whose dumps
    are C strings, any number of them per line and any buffer that is not
    empty, it logs a prefix of the full text, and all of it when it fits. *)
Theorem dump_list_bounded {A} itemsperline (dump_fn : A → outcome (list Z)) (str : A → list Z) buf items :
  buf ≠ [] → Forall (dumps dump_fn str) items →
  ∃ t, dump_list itemsperline dump_fn buf items = Ret t ∧
    t `prefix_of` dump_text itemsperline str items 0 ∧
    (zlen (dump_text itemsperline str items 0) < zlen buf → t = dump_text itemsperline str items 0).
Proof.
  intros Hb Hi. rewrite dump_list_end.
  apply (dump_items_prefix itemsperline dump_fn str items 0 [] buf Hi); [constructor|done].
Qed.

Lemma dump_list_bounded_witness :
  ∃ t, dump_list 1 (λ c, Ret [c; 0]) (replicate 6 0) [65; 66; 67] = Ret t ∧
    t `prefix_of` [65; 44; 10; 66; 44; 10; 67; 44; 10] ∧ (9 < 6 → t = [65; 44; 10; 66; 44; 10; 67; 44; 10]).
Proof.
  apply (dump_list_bounded 1 (λ c, Ret [c; 0]) (λ c, [c]) (replicate 6 0) [65; 66; 67]); [done|].
  repeat constructor; exists []; by repeat constructor.
Defined.

(** The constructor of the dynamic build runs into undefined behaviour:
    the dump of an entry with a three-byte name needs 33 bytes and its static
    buffer has 32, so whatever [qsort] and the buffers hold, the constructor
    does not return. *)
Theorem initialize_overruns qsort buf st1 st2 :
  sorts qsort → length buf = 4096%nat → length st1 = 32%nat →
  initialize qsort buf st1 st2 (replicate 128 (name 0 [])) (replicate 73 (pair 0 0)) = Undef.
Proof.
  intros Hq Hbuf Hst. unfold initialize. rewrite tables_computed by done. cbind.
  unfold dump_list. replace table with (replicate 35 no_name ++ name 0x987e [0xe9; 0xa1; 0xbe] :: drop 36 table)
    by (by vm_compute).
  pose proof (dump_items_undef 4 (family_name_dump st1) (λ _, unused_text) (replicate 35 no_name)
    (name 0x987e [0xe9; 0xa1; 0xbe]) (drop 36 table) 0 [] buf) as E.
  cbn [app] in E. change (zlen (@nil Z)) with 0 in E. rewrite E; [done| | |].
  - by apply Forall_replicate, unused_dumps.
  - by apply entry_overruns.
  - rewrite Hbuf. by vm_compute.
Qed.

Lemma initialize_overruns_witness :
  initialize (merge_sort key_le) (replicate 4096 0) (replicate 32 0) (replicate 32 0)
    (replicate 128 (name 0 [])) (replicate 73 (pair 0 0)) = Undef.
Proof.
  apply (initialize_overruns (merge_sort key_le) (replicate 4096 0) (replicate 32 0) (replicate 32 0));
    [exact merge_sort_sorts|done|done].
Defined.
