(* ===== verification/DnsName.v ===== *)
(** * socket/dns-demo.c: domain names

    The two encoders from dotted text to the wire format of RFC 1035, the two
    decoders, and the two readers that follow compression pointers in a message.
    Objects are lists of bytes and pointers into them indices, so an access
    outside an object is [Undef]. *)
From Stdlib Require Import ZArith Lia.
From stdpp Require Import base tactics numbers list.
From S2P Require Import Prelude.

Open Scope Z_scope.

(** ** The code *)

Definition DOT : Z := 46.

(** The loop of [name_encode] over the object [m]: [q] is the index of a byte
    that precedes a label; [e] is [dst + N]. *)
Definition name_encode_step (e : Z) (s : Z * list Z) : outcome (Z * list Z + list Z) :=
  let '(q, m) := s in
  let p := q in
  r ← strchr m (q + 1) DOT;
  match r with
  | Some q => m ← store m p (u8 (q - p - 1)); Ret (inl (q, m))
  | None => m ← store m p (u8 (e - p)); Ret (inr m)
  end.

(** [name_encode(&m[dst], src)] where [src] is another object. *)
Definition name_encode (m : list Z) (dst : Z) (src : list Z) : outcome (list Z) :=
  n ← strlen src 0;
  let N := s32 n in
  m ← memcpy m (dst + 1) src 0 (N + 1);
  while_fuel (S (length src)) (name_encode_step (dst + N)) (dst, m).

(** The loop of [name_decode]. *)
Definition name_decode_step (s : Z * Z * list Z) : outcome (Z * Z * list Z + list Z) :=
  let '(p, n, d) := s in
  m ← load d (p + n);
  d ← store d (p + n) DOT;
  let p := p + n in
  let n := u8 (m + 1) in
  c ← load d (p + n);
  if decide (c = 0) then Ret (inr d) else Ret (inl (p, n, d)).

(** [name_decode(dst, src)]; [None] is a call with [src == dst]. *)
Definition name_decode (fuel : nat) (dst : list Z) (src : option (list Z)) : outcome (list Z) :=
  let obj := match src with Some o => o | None => dst end in
  k ← strlen obj 0;
  let N := s32 k in
  c ← load obj 0;
  let n := u8 (c + 1) in
  d ← match src with
      | Some o => memcpy dst 0 o 0 (N + 1)
      | None => Ret dst
      end;
  d ← while_fuel fuel name_decode_step (0, n, d);
  memmove d 0 1 N.

(** The outer loop of [ChangetoDnsNameFormat]: over [i], [lock], the output
    index [o] and the output object. *)
Fixpoint copy_label (k : nat) (host : list Z) (lock o : Z) (dns : list Z) : outcome (Z * Z * list Z) :=
  match k with
  | O => Ret (lock, o, dns)
  | S k =>
      c ← load host lock;
      dns ← store dns o c;
      copy_label k host (lock + 1) (o + 1) dns
  end.

Definition change_step (host : list Z) (s : Z * Z * Z * list Z) :
    outcome (Z * Z * Z * list Z + Z * list Z) :=
  let '(i, lock, o, dns) := s in
  n ← strlen host 0;
  if decide (i < n) then
    c ← load host i;
    if decide (c = DOT) then
      dns ← store dns o (u8 (i - lock));
      '(lock, o, dns) ← copy_label (Z.to_nat (i - lock)) host lock (o + 1) dns;
      Ret (inl (i + 1, lock + 1, o, dns))
    else Ret (inl (i + 1, lock, o, dns))
  else Ret (inr (o, dns)).

(** [strcat(host, ".")]. *)
Definition strcat_dot (host : list Z) : outcome (list Z) :=
  n ← strlen host 0; store_n host n [DOT; 0].

Definition ChangetoDnsNameFormat (dns host : list Z) : outcome (list Z * list Z) :=
  host ← strcat_dot host;
  '(o, dns) ← while_fuel (S (length host)) (change_step host) (0, 0, 0, dns);
  dns ← store dns o 0;
  Ret (dns, host).

(** The loop of [read_name]: reader, [p], [n], [jump] and the name. *)
Definition read_name_step (buf : list Z) (s : Z * Z * Z * Z * list Z) :
    outcome (Z * Z * Z * Z * list Z + Z * Z * Z * list Z) :=
  let '(reader, p, n, jump, name) := s in
  c ← load buf reader;
  if decide (c = 0) then Ret (inr (p, n, jump, name))
  else
    '(reader, p, jump, name) ←
      (if decide (c >= 0xc0) then
         lo ← load buf (reader + 1);
         let offset := u32 (c * 256 + lo - 0xc000) in
         Ret (offset, p, 1, name)
       else
         name ← store name p c;
         Ret (reader + 1, u32 (p + 1), jump, name));
    n ← (if decide (jump = 0) then int_result (n + 1) else Ret n);
    Ret (inl (reader, p, n, jump, name)).

(** [read_name(&buf[reader], buf, &count, name)]: the new [*count] and [name]. *)
Definition read_name (fuel : nat) (buf : list Z) (reader : Z) (name : list Z) : outcome (Z * list Z) :=
  '(p, n, jump, name) ← while_fuel fuel (read_name_step buf) (reader, 0, 1, 0, name);
  name ← store name p 0;
  let n := s32 (n + jump) in
  name ← name_decode fuel name None;
  Ret (n, name).

(** The loop of [ReadName]: the pointer moves to [buffer + offset - 1] and on. *)
Definition ReadName_step (buffer : list Z) (s : Z * Z * Z * Z * list Z) :
    outcome (Z * Z * Z * Z * list Z + Z * Z * Z * list Z) :=
  let '(reader, p, count, jumped, name) := s in
  c ← load buffer reader;
  if decide (c = 0) then Ret (inr (p, count, jumped, name))
  else
    '(reader, p, jumped, name) ←
      (if decide (c >= 192) then
         lo ← load buffer (reader + 1);
         let offset := u32 (c * 256 + lo - 49152) in
         Ret (offset - 1, p, 1, name)
       else
         name ← store name p c;
         Ret (reader, u32 (p + 1), jumped, name));
    let reader := reader + 1 in
    count ← (if decide (jumped = 0) then int_result (count + 1) else Ret count);
    Ret (inl (reader, p, count, jumped, name)).

(** "3www6google3com" to "www.google.com.": one label per round. *)
Fixpoint shift_label (k : nat) (name : list Z) (i : Z) : outcome (Z * list Z) :=
  match k with
  | O => Ret (i, name)
  | S k =>
      c ← load name (i + 1);
      name ← store name i c;
      shift_label k name (i + 1)
  end.

Definition dots_step (s : Z * list Z) : outcome (Z * list Z + Z * list Z) :=
  let '(i, name) := s in
  n ← strlen name 0;
  if decide (i < s32 n) then
    p ← load name i;
    '(i, name) ← shift_label (Z.to_nat p) name i;
    name ← store name i DOT;
    Ret (inl (i + 1, name))
  else Ret (inr (i, name)).

(** [ReadName(&buffer[reader], buffer, &count)]: [*count] and the new object. *)
Definition ReadName `{Allocator} (fuel : nat) (buffer : list Z) (reader : Z) : outcome (Z * list Z) :=
  match malloc 256 with
  | None => Undef
  | Some name =>
      name ← store name 0 0;
      '(p, count, jumped, name) ← while_fuel fuel (ReadName_step buffer) (reader, 0, 1, 0, name);
      name ← store name p 0;
      count ← (if decide (jumped = 1) then int_result (count + 1) else Ret count);
      '(i, name) ← while_fuel fuel dots_step (0, name);
      name ← store name (i - 1) 0;
      Ret (count, name)
  end.

(** ** The specification: names as lists of labels *)

(** Dotted text. *)
Fixpoint join (ls : list (list Z)) : list Z :=
  match ls with
  | [] => []
  | [l] => l
  | l :: ls => l ++ DOT :: join ls
  end.

(** The labels on the wire, without the final zero. *)
Definition labels (ls : list (list Z)) : list Z := concat (map (λ l, u8 (zlen l) :: l) ls).
Definition wire (ls : list (list Z)) : list Z := labels ls ++ [0].

(** The text of a label: no terminator, no dot. *)
Definition is_label (l : list Z) : Prop := Forall (λ c, is_char c ∧ c ≠ DOT) l.
#[export] Instance is_label_dec l : Decision (is_label l).
Proof. unfold is_label. apply _. Defined.

(** The labels of a text. *)
Fixpoint split (s : list Z) : list (list Z) :=
  match s with
  | [] => [[]]
  | c :: s =>
      if decide (c = DOT) then [] :: split s
      else match split s with l :: ls => (c :: l) :: ls | [] => [[c]] end
  end.

Lemma join_split s : join (split s) = s.
Proof.
  induction s as [|c s IH]; simpl; [done|]. case_decide as Hc.
  - subst c. simpl. rewrite IH. by destruct (split s) eqn:E; [destruct s; simpl in E; repeat case_decide|].
  - destruct (split s) as [|l [|l' ls]]; simpl in *; by f_equal.
Qed.

Lemma labels_cons l ls : labels (l :: ls) = (u8 (zlen l) :: l) ++ labels ls.
Proof. done. Qed.

Lemma wire_cons l ls : wire (l :: ls) = (u8 (zlen l) :: l) ++ wire ls.
Proof. unfold wire. by rewrite labels_cons, <- app_assoc. Qed.

Lemma label_no_dot l : is_label l → DOT ∉ l.
Proof. intros H Hin. by apply (proj1 (Forall_forall _ _) H) in Hin as [_ ?]. Qed.

Lemma label_chars l : is_label l → Forall is_char l.
Proof. intros H. eapply Forall_impl; [exact H|]. by intros c [? _]. Qed.

Lemma join_chars ls : Forall is_label ls → Forall is_char (join ls).
Proof.
  induction 1 as [|l ls Hl Hls IH]; [constructor|]. destruct ls as [|l' ls]; [by apply label_chars|].
  change (join (l :: l' :: ls)) with (l ++ DOT :: join (l' :: ls)).
  apply Forall_app. split; [by apply label_chars|]. by constructor.
Qed.

Lemma split_labels s : Forall is_char s → Forall is_label (split s).
Proof.
  induction 1 as [|c s Hc Hs IH]; simpl; [by repeat constructor|]. case_decide.
  - constructor; [constructor|done].
  - destruct (split s) as [|l ls]; [constructor; [by constructor|done]|].
    apply Forall_cons in IH as [Hl Hls]. constructor; [|done]. by constructor.
Qed.

Lemma split_nonempty s : split s ≠ [].
Proof. destruct s as [|c s]; simpl; [done|]. case_decide; [done|]. by destruct (split s). Qed.

Lemma join_length ls : ls ≠ [] → length (labels ls) = S (length (join ls)).
Proof.
  induction ls as [|l ls IH]; [done|]. intros _. rewrite labels_cons. destruct ls as [|l' ls].
  - cbn [join labels map concat]. len.
  - change (join (l :: l' :: ls)) with (l ++ DOT :: join (l' :: ls)). rewrite length_app, IH by done. len.
Qed.

#[export] Hint Resolve label_chars join_chars label_no_dot : cmem.

(** ** Encoding *)

(** From a byte [x] before the labels [ls] to the end of the text. *)
Lemma name_encode_loop ls fuel pre x post e :
  ls ≠ [] → Forall is_label ls → (length ls ≤ fuel)%nat → e = zlen pre + zlen (join ls) →
  while_fuel fuel (name_encode_step e) (zlen pre, pre ++ x :: join ls ++ 0 :: post) =
    Ret (pre ++ wire ls ++ post).
Proof.
  revert fuel pre x. induction ls as [|l ls IH]; intros fuel pre x Hne Hls Hf He; [done|].
  apply Forall_cons in Hls as [Hl Hls]. destruct fuel as [|fuel]; [simpl in Hf; lia|].
  destruct ls as [|l' ls].
  - apply while_fuel_inr. unfold name_encode_step. cbn [join] in *.
    replace (pre ++ x :: l ++ 0 :: post) with ((pre ++ [x]) ++ l ++ 0 :: post) by (by rewrite <- app_assoc).
    rewrite strchr_none by (auto with cmem; len). cbind.
    rewrite <- app_assoc. cbn [app]. rewrite store_app by done. cbind.
    unfold wire. rewrite labels_cons. cbn [labels map concat]. rewrite app_nil_r, <- app_assoc.
    cbn [app]. rewrite He. peel.
  - change (join (l :: l' :: ls)) with (l ++ DOT :: join (l' :: ls)) in *.
    set (rest := join (l' :: ls)) in *.
    rewrite (while_fuel_inl _ _ _ (zlen (pre ++ u8 (zlen l) :: l), (pre ++ u8 (zlen l) :: l) ++ DOT :: rest ++ 0 :: post)).
    + rewrite (IH fuel); [|done|done|simpl in *; lia|revert He; len].
      rewrite (wire_cons l), <- !app_assoc. done.
    + unfold name_encode_step.
      replace (pre ++ x :: (l ++ DOT :: rest) ++ 0 :: post) with ((pre ++ [x]) ++ l ++ DOT :: rest ++ 0 :: post)
        by (by rewrite <- !app_assoc).
      rewrite strchr_found by (auto with cmem; len). cbind.
      rewrite <- app_assoc. cbn [app]. rewrite store_app by done. cbind.
      rewrite <- app_assoc. cbn [app]. norm_length. peel.
Qed.

Lemma join_labels_bound ls : (length ls ≤ S (length (join ls)))%nat.
Proof.
  induction ls as [|l ls IH]; [simpl; lia|]. destruct ls as [|l' ls]; [simpl; lia|].
  change (join (l :: l' :: ls)) with (l ++ DOT :: join (l' :: ls)). revert IH. len.
Qed.

Definition text_size (s : list Z) : Prop := zlen s < 2147483647.

Lemma name_encode_fits ls pre blk post r :
  ls ≠ [] → Forall is_label ls → text_size (join ls) → length blk = length (wire ls) →
  name_encode (pre ++ blk ++ post) (zlen pre) (join ls ++ 0 :: r) = Ret (pre ++ wire ls ++ post).
Proof.
  intros Hne Hls Hsz Hb. unfold text_size in Hsz. pose proof (join_length ls Hne) as Hjl.
  revert Hb. unfold wire. norm_length. intros Hb. fold (wire ls). unfold name_encode.
  rewrite strlen_cstr by auto with cmem. cbind. rewrite s32_small by lia. unfold memcpy.
  replace (join ls ++ 0 :: r) with ((join ls ++ [0]) ++ r) at 1 by (by rewrite <- app_assoc).
  rewrite load_n_prefix by len. cbind. destruct blk as [|x blk]; [simpl in Hb; lia|].
  replace (pre ++ (x :: blk) ++ post) with ((pre ++ [x]) ++ blk ++ post) by (by rewrite <- app_assoc).
  rewrite store_n_app by (cbn [length] in *; len). cbind.
  rewrite <- !app_assoc. cbn [app]. rewrite name_encode_loop; [done|done|done| |lia].
  pose proof (join_labels_bound ls). len.
Qed.

(** ** The other encoder *)
Definition dotted (ls : list (list Z)) : list Z := concat (map (λ l, l ++ [DOT]) ls).

Lemma join_dotted ls : ls ≠ [] → join ls ++ [DOT] = dotted ls.
Proof.
  induction ls as [|l ls IH]; [done|]. intros _. destruct ls as [|l' ls]; [unfold dotted; simpl; by rewrite app_nil_r|].
  change (join (l :: l' :: ls)) with (l ++ DOT :: join (l' :: ls)).
  change (dotted (l :: l' :: ls)) with ((l ++ [DOT]) ++ dotted (l' :: ls)).
  by rewrite <- IH, <- !app_assoc by done.
Qed.

Lemma copy_label_run l a b x blk y lock o :
  lock = zlen a → o = zlen x → length blk = length l →
  copy_label (length l) (a ++ l ++ b) lock o (x ++ blk ++ y) = Ret (lock + zlen l, o + zlen l, x ++ l ++ y).
Proof.
  revert a x blk lock o. induction l as [|c l IH]; intros a x blk lock o -> -> Hb.
  { destruct blk; [|done]. cbn [length copy_label app]. by rewrite !Z.add_0_r. }
  destruct blk as [|d blk]; [done|]. cbn [length copy_label app].
  rewrite load_app by done. cbind. rewrite store_app by done. cbind.
  specialize (IH (a ++ [c]) (x ++ [c]) blk (zlen a + 1) (zlen x + 1)). rewrite <- !app_assoc in IH.
  cbn [app] in IH. rewrite IH by (cbn [length] in Hb; len). do 2 f_equal. f_equal; len.
Qed.

(** Bytes of a label are passed over. *)
Lemma change_scan l host n a b lock o dns fuel :
  host = a ++ l ++ b → strlen host 0 = Ret n → zlen a + zlen l ≤ n → DOT ∉ l →
  while_fuel (length l + fuel) (change_step host) (zlen a, lock, o, dns) =
  while_fuel fuel (change_step host) (zlen a + zlen l, lock, o, dns).
Proof.
  intros Hh Hn. revert a Hh. induction l as [|c l IH]; intros a Hh Hle Hl; [cbn; by rewrite Z.add_0_r|].
  apply not_elem_of_cons in Hl as [Hc Hl]. cbn [length Nat.add] in *.
  rewrite (while_fuel_inl _ _ _ (zlen (a ++ [c]), lock, o, dns)).
  - rewrite IH; [|by rewrite <- app_assoc|revert Hle; len|done]. f_equal. do 3 f_equal. len.
  - unfold change_step. rewrite Hn. cbind. rewrite decide_True by lia. rewrite Hh. cbn [app].
    rewrite load_app by done. cbind. rewrite decide_False by done. do 5 f_equal. len.
Qed.

Lemma change_loop ls host n a x blk y fuel :
  host = a ++ dotted ls ++ 0 :: y → strlen host 0 = Ret n → n = zlen (a ++ dotted ls) →
  Forall is_label ls → (length (dotted ls) < fuel)%nat → length blk = length (labels ls) →
  ∀ z, while_fuel fuel (change_step host) (zlen a, zlen a, zlen x, x ++ blk ++ z) =
    Ret (zlen (x ++ labels ls), x ++ labels ls ++ z).
Proof.
  revert a x blk fuel. induction ls as [|l ls IH]; intros a x blk fuel Hh Hn Hnl Hls Hf Hb z;
    (destruct fuel as [|fuel]; [lia|]).
  { change (dotted []) with (@nil Z) in *. destruct blk; [|done]. apply while_fuel_inr. unfold change_step. rewrite Hn. cbind.
    rewrite decide_False by (subst n; len). cbn [labels map concat app]. by rewrite app_nil_r. }
  apply Forall_cons in Hls as [Hl Hls]. rewrite labels_cons in *.
  change (dotted (l :: ls)) with ((l ++ [DOT]) ++ dotted ls) in *.
  assert (zlen a + zlen l < n) as Hlt by (subst n; len).
  replace (S fuel) with (length l + S (fuel - length l))%nat by (revert Hf; len).
  rewrite (change_scan l host n a (DOT :: dotted ls ++ 0 :: y)) by (auto with cmem; rewrite Hh; by rewrite <- !app_assoc).
  destruct blk as [|d blk]; [done|]. assert (length l ≤ length blk)%nat by (revert Hb; len).
  rewrite <- (take_drop (length l) blk) in Hb |- *. set (b1 := take _ blk) in *. set (b2 := drop _ blk) in *.
  assert (length b1 = length l) as Hb1 by (unfold b1; len).
  rewrite (while_fuel_inl _ _ _ (zlen (a ++ l ++ [DOT]), zlen (a ++ l ++ [DOT]),
     zlen (x ++ u8 (zlen l) :: l), (x ++ u8 (zlen l) :: l) ++ b2 ++ z)).
  - rewrite IH; [by rewrite <- !app_assoc|rewrite Hh; by rewrite <- !app_assoc|done|subst n; by rewrite <- !app_assoc|done| |].
    + revert Hf. len.
    + revert Hb. len.
  - unfold change_step. rewrite Hn. cbind. rewrite decide_True by lia.
    replace host with ((a ++ l) ++ DOT :: dotted ls ++ 0 :: y) by (rewrite Hh; by rewrite <- !app_assoc).
    rewrite load_app by len. cbind. rewrite decide_True by done. cbn [app]. rewrite store_app by done. cbind.
    replace (zlen a + zlen l - zlen a) with (zlen l) by lia. rewrite Nat2Z.id, <- (app_assoc a).
    pose proof (copy_label_run l a (DOT :: dotted ls ++ 0 :: y) (x ++ [u8 (zlen l)]) b1 (b2 ++ z)
      (zlen a) (zlen x + 1) eq_refl) as E.
    rewrite <- !app_assoc in E. cbn [app] in E. rewrite <- (app_assoc b1), E by len. cbind.
    rewrite <- app_assoc. cbn [app]. norm_length. peel.
Qed.

Lemma change_fits ls dns blk post hp r :
  ls ≠ [] → Forall is_label ls → dns = blk ++ post → length blk = length (wire ls) →
  ChangetoDnsNameFormat dns (join ls ++ 0 :: hp :: r) = Ret (wire ls ++ post, join ls ++ DOT :: 0 :: r).
Proof.
  intros Hne Hls -> Hb. pose proof (join_dotted ls Hne) as Hd.
  revert Hb. unfold wire. norm_length. intros Hb. fold (wire ls). unfold ChangetoDnsNameFormat, strcat_dot.
  rewrite strlen_cstr by auto with cmem. cbind.
  pose proof (store_n_app (join ls) [0; hp] r [DOT; 0] (zlen (join ls)) eq_refl eq_refl) as E.
  cbn [app] in E. rewrite E. cbind. clear E.
  assert (Forall is_char (dotted ls)) as Hdc.
  { rewrite <- Hd. apply Forall_app. split; [by apply join_chars|]. by repeat constructor. }
  destruct blk as [|b blk] using rev_ind; [simpl in Hb; lia|clear IHblk].
  pose proof (change_loop ls (join ls ++ DOT :: 0 :: r) (zlen (dotted ls)) [] [] blk r
    (S (length (join ls ++ DOT :: 0 :: r)))) as E.
  cbn [app] in E. change (zlen (@nil Z)) with 0 in E. rewrite <- (app_assoc blk), E; clear E.
  - cbind. cbn [app]. rewrite store_app by done. cbind. unfold wire. by rewrite <- !app_assoc.
  - rewrite <- Hd, <- app_assoc. done.
  - rewrite cons_middle, app_assoc, Hd. by apply strlen_cstr, is_char_nonzero.
  - done.
  - done.
  - rewrite <- Hd. len.
  - revert Hb. len.
Qed.

(** ** Decoding *)

(** A label of a host name, with a length a byte can count past. *)
Definition wire_label (l : list Z) : Prop := Forall is_char l ∧ 0 < zlen l < 255.

(** The first [p + n] bytes are done; then come the labels [ls]. *)
Lemma name_decode_loop ls l fuel pre c post :
  ls ≠ [] → Forall wire_label ls → zlen l < 255 → (length ls ≤ fuel)%nat →
  while_fuel fuel name_decode_step (zlen pre, zlen l + 1, pre ++ c :: l ++ labels ls ++ 0 :: post) =
    Ret (pre ++ c :: l ++ DOT :: join ls ++ 0 :: post).
Proof.
  revert l fuel pre c. induction ls as [|l' ls IH]; intros l fuel pre c Hne Hls Hl Hf; [done|].
  apply Forall_cons in Hls as [[Hc' Hl'] Hls]. destruct fuel as [|fuel]; [simpl in Hf; lia|].
  rewrite while_fuel_S. unfold name_decode_step at 2. rewrite labels_cons.
  rewrite u8_small by (unfold is_byte; lia).
  replace (pre ++ c :: l ++ ((zlen l' :: l') ++ labels ls) ++ 0 :: post) with
    ((pre ++ c :: l) ++ zlen l' :: l' ++ labels ls ++ 0 :: post) by (by rewrite <- !app_assoc).
  rewrite load_app by len. cbind. rewrite store_app by len. cbind.
  rewrite u8_small by (unfold is_byte; lia).
  rewrite (load_app_r (pre ++ c :: l)) by len.
  replace (zlen pre + (zlen l + 1) + (zlen l' + 1) - zlen (pre ++ c :: l)) with (zlen (DOT :: l')) by len.
  replace (DOT :: l' ++ labels ls ++ 0 :: post) with ((DOT :: l') ++ labels ls ++ 0 :: post) at 1 by done.
  rewrite load_0 by done. destruct ls as [|l'' ls].
  - rewrite <- app_assoc. done.
  - assert (wire_label l'') as [_ Hl''] by (by apply Forall_cons in Hls as [? _]).
    rewrite labels_cons at 1. rewrite (u8_small (zlen l'')) at 1 by (unfold is_byte; lia). cbn [app].
    change (load (zlen l'' :: ?r) 0) with (Ret (A := Z) (zlen l'')). cbind. rewrite decide_False by lia.
    pose proof (IH l' fuel (pre ++ c :: l) DOT) as E.
    replace (zlen (pre ++ c :: l)) with (zlen pre + (zlen l + 1)) in E by len.
    cbind. rewrite E by (done || lia || (cbn [length] in *; lia)).
    change (join (l' :: l'' :: ls)) with (l' ++ DOT :: join (l'' :: ls)). by rewrite <- !app_assoc.
Qed.

Definition wire_labels (ls : list (list Z)) : Prop := Forall wire_label ls.

Lemma labels_chars ls : wire_labels ls → Forall is_char (labels ls).
Proof.
  induction 1 as [|l ls [Hc Hl] Hls IH]; [constructor|]. rewrite labels_cons.
  apply Forall_app. split; [|done]. constructor; [|done].
  rewrite u8_small; unfold is_char, is_byte; lia.
Qed.

(** Decoding in place: two labels or more become their dotted text. *)
Lemma name_decode_fits ls fuel post :
  (2 ≤ length ls ≤ fuel)%nat → wire_labels ls → text_size (labels ls) →
  name_decode fuel (wire ls ++ post) None = Ret (join ls ++ [0; 0] ++ post).
Proof.
  intros Hn Hls Hsz. unfold name_decode, wire. rewrite <- app_assoc. cbn [app].
  rewrite strlen_cstr by (auto using labels_chars with cmem). cbind.
  unfold text_size in Hsz. rewrite s32_small by lia.
  destruct ls as [|l [|l' ls]]; [cbn in Hn; lia..|]. unfold wire_labels in Hls.
  pose proof Hls as [[Hc Hl] Hls']%Forall_cons. rewrite labels_cons. rewrite (u8_small (zlen l)) by (unfold is_byte; lia).
  cbn [app]. change (load (zlen l :: ?r) 0) with (Ret (A := Z) (zlen l)). cbind.
  rewrite u8_small by (unfold is_byte; lia).
  pose proof (name_decode_loop (l' :: ls) l fuel [] (zlen l) post ltac:(done) Hls' ltac:(lia)) as E.
  cbn [app] in E. change (zlen (@nil Z)) with 0 in E. rewrite <- app_assoc, E by (cbn [length] in *; lia). cbind.
  change (l ++ DOT :: join (l' :: ls) ++ 0 :: post) with (l ++ (DOT :: join (l' :: ls)) ++ 0 :: post).
  rewrite app_assoc. change (l ++ DOT :: join (l' :: ls)) with (join (l :: l' :: ls)).
  pose proof (join_length (l :: l' :: ls) ltac:(done)) as Hj. rewrite labels_cons in Hj. revert Hj. norm_length. intros Hj.
  set (j := join (l :: l' :: ls)) in *. unfold memmove.
  pose proof (load_n_app [zlen l] (j ++ [0]) post 1 (Z.of_nat (S (length l + length (labels (l' :: ls))))) eq_refl) as E1.
  rewrite <- app_assoc in E1. cbn [app] in E1. rewrite E1 by len. cbind.
  pose proof (store_n_app [] (zlen l :: j) (0 :: post) (j ++ [0]) 0 eq_refl) as E2.
  cbn [app] in E2. rewrite E2 by len. by rewrite <- app_assoc.
Qed.

(** ** Reading names from a message *)

(** Labels a reader can tell from a compression pointer. *)
Definition plain (l : list Z) : Prop := Forall (λ c, 0 < c < 192) l ∧ 0 < zlen l < 192.

(** At index [r] of [buf] starts a name with the labels [ls]; it occupies [k]
    bytes there, the rest being behind a compression pointer. *)
Inductive name_at (buf : list Z) : Z → list (list Z) → Z → Prop :=
| name_end r : load buf r = Ret 0 → name_at buf r [] 1
| name_label r l ls k :
    plain l → load_n buf r (1 + zlen l) = Ret (zlen l :: l) →
    name_at buf (r + (1 + zlen l)) ls k → name_at buf r (l :: ls) (1 + zlen l + k)
| name_pointer r hi lo ls k :
    192 ≤ hi < 256 → 0 ≤ lo < 256 → load buf r = Ret hi → load buf (r + 1) = Ret lo →
    name_at buf (hi * 256 + lo - 49152) ls k → name_at buf r ls 2.

Lemma plain_wire l : plain l → wire_label l.
Proof.
  intros [Hc Hl]. split; [|lia]. eapply Forall_impl; [exact Hc|]. unfold is_char. simpl. lia.
Qed.

Lemma name_at_plain buf r ls k : name_at buf r ls k → Forall plain ls.
Proof. induction 1; auto. Qed.

Lemma name_at_wire buf r ls k : name_at buf r ls k → wire_labels ls.
Proof. intros H%name_at_plain. eapply Forall_impl; [exact H|]. apply plain_wire. Qed.

Lemma ReadName_step_eq buf s : ReadName_step buf s = read_name_step buf s.
Proof.
  destruct s as [[[[r p] n] j] name]. unfold ReadName_step, read_name_step.
  destruct (load buf r) as [c| |]; cbind; [|done..]. case_decide; [done|].
  change 192 with 0xc0. case_decide.
  - destruct (load buf (r + 1)) as [lo| |]; cbind; [|done..].
    change 49152 with 0xc000. by replace (u32 (c * 256 + lo - 0xc000) - 1 + 1) with (u32 (c * 256 + lo - 0xc000)) by lia.
  - destruct (store name p c) as [name'| |]; by cbind.
Qed.

Lemma load_n_cons {A} (m : list A) i n v vs :
  load_n m i n = Ret (v :: vs) → load m i = Ret v ∧ load_n m (i + 1) (n - 1) = Ret vs.
Proof.
  intros (a & c & -> & -> & ->)%load_n_Ret. cbn [app]. split; [by apply load_app|].
  rewrite cons_middle, app_assoc. apply load_n_app; len.
Qed.

(** The bytes of labels are copied to the name. *)
Lemma read_bytes buf bs r n jump dn rest fuel :
  load_n buf r (zlen bs) = Ret bs → Forall (λ c, 0 < c < 192) bs → (length bs ≤ length rest)%nat →
  zlen (dn ++ rest) < 4294967296 → 0 ≤ n → n + zlen bs ≤ 2147483647 →
  while_fuel (length bs + fuel) (read_name_step buf) (r, zlen dn, n, jump, dn ++ rest) =
  while_fuel fuel (read_name_step buf)
    (r + zlen bs, zlen (dn ++ bs), if decide (jump = 0) then n + zlen bs else n, jump,
     (dn ++ bs) ++ drop (length bs) rest).
Proof.
  revert r n dn rest. induction bs as [|c bs IH]; intros r n dn rest Hl Hc Hr Hsz Hn Hn'.
  { cbn [length Nat.add]. rewrite !app_nil_r, drop_0. change (Z.of_nat 0) with 0. rewrite !Z.add_0_r. by case_decide. }
  apply Forall_cons in Hc as [Hc0 Hc]. destruct rest as [|x rest]; [cbn in Hr; lia|].
  destruct (load_n_cons _ _ _ _ _ Hl) as [Hl0 Hl1]. cbn [length Nat.add] in *.
  replace (Z.of_nat (S (length bs)) - 1) with (zlen bs) in Hl1 by lia.
  revert Hsz. norm_length. intros Hsz.
  rewrite (while_fuel_inl _ _ _ (r + 1, zlen (dn ++ [c]), if decide (jump = 0) then n + 1 else n, jump, (dn ++ [c]) ++ rest)).
  - rewrite IH; [|done|done|lia|len|case_decide; lia|case_decide; lia]. rewrite <- !app_assoc. cbn [app drop].
    norm_length. case_decide; peel.
  - unfold read_name_step. rewrite Hl0. cbind. rewrite !(decide_False (P := (c = 0))), (decide_False (P := (c >= _))) by lia.
    rewrite store_app by done. cbind. rewrite u32_small by lia. rewrite <- app_assoc. cbn [app].
    case_decide; [rewrite int_result_small by lia|]; cbind; norm_length; peel.
Qed.

(** Both readers' loop copies the labels of the name and counts its bytes. *)
Lemma read_labels buf r ls k : name_at buf r ls k →
  ∃ steps, ∀ n jump dn rest, zlen (labels ls) ≤ zlen rest → zlen (dn ++ rest) < 4294967296 →
    0 ≤ n → n + zlen (labels ls) < 2147483647 → jump = 0 ∨ jump = 1 →
  ∃ n' jump' rest', zlen rest' = zlen rest - zlen (labels ls) ∧
    (jump = 0 → n' + jump' = n + k - 1) ∧ (jump = 1 → n' = n ∧ jump' = 1) ∧ (jump' = 0 ∨ jump' = 1) ∧ 0 ≤ n' < 2147483647 ∧
    ∀ fuel, (steps ≤ fuel)%nat →
      while_fuel fuel (read_name_step buf) (r, zlen dn, n, jump, dn ++ rest) =
      Ret (zlen (dn ++ labels ls), n', jump', (dn ++ labels ls) ++ rest').
Proof.
  induction 1 as [r Hr|r l ls k [Hc Hl] Hld Hat [steps IH]|r hi lo ls k Hhi Hlo Hld0 Hld1 Hat [steps IH]].
  - exists 1%nat. intros n jump dn rest Hrest Hsz Hn Hn' Hj. exists n, jump, rest.
    cbn [labels map concat]. rewrite !app_nil_r. cbn [length].
    split_and!; [lia|intros; lia|intros; lia|done|lia|cbn in Hn'; lia|]. intros fuel Hf. destruct fuel as [|fuel]; [lia|].
    apply while_fuel_inr. unfold read_name_step. rewrite Hr. done.
  - exists (S (length l) + steps)%nat. intros n jump dn rest Hrest Hsz Hn Hn' Hj.
    rewrite labels_cons in *. rewrite u8_small in * by (unfold is_byte; lia).
    change (S (length l)) with (length (zlen l :: l)).
    set (bs := zlen l :: l) in *. assert (zlen bs = 1 + zlen l) as Hbs by (unfold bs; len).
    rewrite length_app, Nat2Z.inj_add in *.
    assert (zlen rest = zlen (take (length bs) rest) + zlen (drop (length bs) rest)) as Hrl by len.
    edestruct (IH (if decide (jump = 0) then n + zlen bs else n) jump (dn ++ bs) (drop (length bs) rest))
      as (n' & jump' & rest' & Hr' & Hk & Hk1 & Hj' & Hb' & Hrun); [len|revert Hsz; len|case_decide; lia..|done|].
    exists n', jump', rest'. split_and!; [revert Hr'; len|..|done|lia|lia|].
    2: { intros ->. rewrite decide_False in Hk1 by lia. by apply Hk1. }
    + intros E. rewrite decide_True in Hk by done. specialize (Hk E). lia.
    + intros fuel Hf. replace fuel with (length bs + (fuel - length bs))%nat by lia.
      rewrite read_bytes; [|by rewrite Hbs|by constructor|lia|revert Hsz; len|done|lia].
      rewrite app_assoc. replace (r + zlen bs) with (r + (1 + zlen l)) by lia. apply Hrun. lia.
  - exists (S steps). intros n jump dn rest Hrest Hsz Hn Hn' Hj.
    edestruct (IH n 1 dn rest) as (n' & jump' & rest' & Hr' & Hk & Hk1 & Hj' & Hb' & Hrun);
      [done..|by right|]. destruct Hk1 as [-> ->]; [done|].
    exists n, 1, rest'. split_and!; [done|lia|done|by right|lia|lia|].
    intros fuel Hf. destruct fuel as [|fuel]; [lia|]. rewrite <- (Hrun fuel) by lia.
    apply while_fuel_inl. unfold read_name_step. rewrite Hld0. cbind.
    rewrite !(decide_False (P := (hi = 0))), (decide_True (P := (hi >= _))), Hld1 by lia. cbind.
    rewrite u32_small by lia. done.
Qed.

(** ** From labels to dots *)
Lemma shift_label_run l a c b i :
  i = zlen a →
  ∃ d, shift_label (length l) (a ++ c :: l ++ b) i = Ret (zlen (a ++ l), (a ++ l) ++ d :: b).
Proof.
  revert a c i. induction l as [|x l IH]; intros a c i ->; cbn [length shift_label app].
  { exists c. by rewrite app_nil_r. }
  replace (load (a ++ c :: x :: l ++ b) (zlen a + 1)) with (Ret (A := Z) x).
  2: { rewrite cons_middle, app_assoc. by rewrite load_app by len. }
  cbind. rewrite store_app by done. cbind.
  destruct (IH (a ++ [x]) x (zlen a + 1)) as [d Hd]; [len|]. exists d.
  rewrite <- !app_assoc in Hd. cbn [app] in Hd. rewrite Hd. by rewrite <- !app_assoc.
Qed.

Lemma dots_loop ls dn r fuel :
  wire_labels ls → Forall is_char dn → (length ls < fuel)%nat → zlen (dn ++ labels ls) < 2147483648 →
  while_fuel fuel dots_step (zlen dn, dn ++ labels ls ++ 0 :: r) =
    Ret (zlen (dn ++ dotted ls), (dn ++ dotted ls) ++ 0 :: r).
Proof.
  revert dn fuel. induction ls as [|l ls IH]; intros dn fuel Hls Hdn Hf Hsz;
    (destruct fuel as [|fuel]; [lia|]).
  { apply while_fuel_inr. unfold dots_step. change (labels []) with (@nil Z) in *. change (dotted []) with (@nil Z).
    cbn [app]. rewrite strlen_cstr, app_nil_r by auto with cmem. cbind. rewrite app_nil_r in Hsz.
    rewrite s32_small by lia. by rewrite decide_False by lia. }
  assert (Forall is_char (labels (l :: ls))) as Hlc by (by apply labels_chars).
  pose proof Hls as [[Hc Hl] Hls']%Forall_cons. rewrite labels_cons in *.
  rewrite u8_small in * by (unfold is_byte; lia).
  rewrite (while_fuel_inl _ _ _ (zlen (dn ++ l ++ [DOT]), (dn ++ l ++ [DOT]) ++ labels ls ++ 0 :: r)).
  - rewrite IH; [|done| |cbn [length] in Hf; lia|revert Hsz; len].
    + change (dotted (l :: ls)) with ((l ++ [DOT]) ++ dotted ls). by rewrite <- !app_assoc.
    + repeat (apply Forall_app; split); [done..|]. by repeat constructor.
  - unfold dots_step. rewrite app_assoc, strlen_cstr by (apply is_char_nonzero, Forall_app; auto). cbind.
    rewrite <- app_assoc. rewrite s32_small by lia. rewrite decide_True by len. cbn [app].
    rewrite load_app by done. cbind. rewrite Nat2Z.id, <- (app_assoc l).
    destruct (shift_label_run l dn (zlen l) (labels ls ++ 0 :: r) (zlen dn) eq_refl) as [d ->]. cbind.
    rewrite store_app by done. cbind. rewrite <- !app_assoc. norm_length. peel.
Qed.

Lemma wire_labels_length ls : wire_labels ls → (length ls ≤ length (labels ls))%nat.
Proof. induction 1 as [|l ls _ _ IH]; [simpl; lia|]. rewrite labels_cons. revert IH. len. Qed.

(** What [read_name] leaves in a name of 256 bytes. *)
Lemma read_name_fits buf r ls k :
  name_at buf r ls k → (2 ≤ length ls)%nat → zlen (labels ls) ≤ 255 →
  ∃ fuel, ∀ fuel' name, (fuel ≤ fuel')%nat → zlen name = 256 →
    ∃ rest, read_name fuel' buf r name = Ret (k, join ls ++ 0 :: rest).
Proof.
  intros Hat Hn Hsz. pose proof (name_at_wire _ _ _ _ Hat) as Hw. pose proof (wire_labels_length ls Hw).
  destruct (read_labels buf r ls k Hat) as [steps Hread].
  exists (steps + length ls)%nat. intros fuel name Hf Hname.
  destruct (Hread 1 0 [] name) as (n' & jump' & rest & Hr & Hk & _ & Hj & Hb & Hrun);
    [lia|cbn; lia..|by left|]. exists (0 :: drop 1 rest). unfold read_name.
  cbn [app] in Hrun. change (zlen (@nil Z)) with 0 in Hrun. rewrite Hrun by lia. cbind.
  destruct rest as [|x rest]; [cbn in Hr; lia|]. rewrite store_app by done. cbind.
  replace (labels ls ++ 0 :: rest) with (wire ls ++ rest) by (unfold wire; by rewrite <- app_assoc).
  rewrite name_decode_fits; [|lia|done|unfold text_size; lia]. cbind.
  rewrite Hk by done. rewrite s32_small by lia. cbn [app drop]. peel.
Qed.

(** The object [ReadName] returns. *)
Lemma ReadName_fits `{Allocator} buf r ls k obj :
  malloc 256 = Some obj → name_at buf r ls k → (1 ≤ length ls)%nat → zlen (labels ls) ≤ 255 →
  ∃ fuel, ∀ fuel', (fuel ≤ fuel')%nat →
    ∃ rest, ReadName fuel' buf r = Ret (k, join ls ++ 0 :: rest) ∧ zlen (join ls ++ 0 :: rest) = 256.
Proof.
  intros Hm Hat Hn Hsz. pose proof (name_at_wire _ _ _ _ Hat) as Hw. pose proof (wire_labels_length ls Hw).
  pose proof (malloc_size _ _ Hm) as Hobj. destruct obj as [|x0 obj]; [cbn in Hobj; lia|].
  destruct (read_labels buf r ls k Hat) as [steps Hread].
  destruct (Hread 1 0 [] (0 :: obj)) as (n' & jump' & rest & Hr & Hk & _ & Hj & Hb & Hrun);
    [cbn [length] in *; lia|cbn [app length] in *; lia|lia|lia|by left|].
  exists (steps + S (length ls))%nat. intros fuel Hf. exists (0 :: drop 1 rest). unfold ReadName. rewrite Hm.
  change (store (x0 :: obj) 0 0) with (Ret (0 :: obj)). cbind.
  rewrite (while_fuel_ext _ (read_name_step buf)) by apply ReadName_step_eq.
  cbn [app] in Hrun. change (zlen (@nil Z)) with 0 in Hrun. rewrite Hrun by lia. cbind.
  destruct rest as [|x rest]; [cbn [length] in *; lia|]. rewrite store_app by done. cbind.
  assert ((if decide (jump' = 1) then int_result (n' + 1) else Ret n') = Ret k) as ->.
  { specialize (Hk eq_refl). case_decide; [rewrite int_result_small by lia|]; f_equal; lia. }
  cbind. pose proof (dots_loop ls [] rest fuel Hw) as E. cbn [app] in E. change (zlen (@nil Z)) with 0 in E.
  rewrite E by (done || lia). cbind. rewrite <- join_dotted by (by destruct ls; [cbn in Hn; lia|]).
  rewrite <- app_assoc. cbn [app]. rewrite store_app by len. cbind. cbn [app drop].
  split; [done|]. pose proof (join_length ls ltac:(by destruct ls; [cbn in Hn; lia|])). cbn [length] in *. len.
Qed.

(** ** Properties *)

(** [name_encode] writes the wire format of RFC 1035: for every C string
    that fits, the labels between its dots, each behind its length, and a zero;
    nothing else of the destination changes. *)
Theorem name_encode_wire s pre blk post r :
  Forall is_char s → text_size s → length blk = (length s + 2)%nat →
  name_encode (pre ++ blk ++ post) (zlen pre) (s ++ 0 :: r) = Ret (pre ++ wire (split s) ++ post) ∧
  length (wire (split s)) = length blk ∧ join (split s) = s.
Proof.
  intros Hs Hsz Hb. pose proof (split_labels s Hs) as Hls. pose proof (split_nonempty s) as Hne.
  pose proof (join_split s) as Hj.
  assert (length (wire (split s)) = length blk) as Hw.
  { unfold wire. rewrite length_app, join_length, Hj, Hb by done. cbn. lia. }
  pose proof (name_encode_fits (split s) pre blk post r Hne Hls) as E. rewrite Hj in E.
  split_and!; [by apply E|done|done].
Qed.

(** "www.google.com" *)
Definition www_google_com : list Z := [119; 119; 119; 46; 103; 111; 111; 103; 108; 101; 46; 99; 111; 109].

Lemma name_encode_wire_witness :
  name_encode ([7] ++ replicate 16 0 ++ [9]) 1 (www_google_com ++ [0]) =
    Ret ([7] ++ [3; 119; 119; 119; 6; 103; 111; 111; 103; 108; 101; 3; 99; 111; 109; 0] ++ [9]) ∧
  16%nat = 16%nat ∧ join (split www_google_com) = www_google_com.
Proof.
  apply (name_encode_wire www_google_com [7] (replicate 16 0) [9] []);
    [by repeat constructor|done|done].
Defined.

(** The two encoders agree on every C string: given the same destination,
    [ChangetoDnsNameFormat] writes what [name_encode] writes (and leaves a dot
    appended to its argument). *)
Theorem encoders_agree s blk post hp r :
  Forall is_char s → text_size s → length blk = (length s + 2)%nat →
  ∃ d, name_encode (blk ++ post) 0 (s ++ 0 :: hp :: r) = Ret d ∧
    ChangetoDnsNameFormat (blk ++ post) (s ++ 0 :: hp :: r) = Ret (d, s ++ DOT :: 0 :: r).
Proof.
  intros Hs Hsz Hb. pose proof (split_labels s Hs) as Hls. pose proof (split_nonempty s) as Hne.
  pose proof (join_split s) as Hj.
  assert (length blk = length (wire (split s))) as Hw.
  { unfold wire. rewrite length_app, join_length, Hj, Hb by done. cbn. lia. }
  exists (wire (split s) ++ post).
  pose proof (name_encode_fits (split s) [] blk post (hp :: r) Hne Hls) as E1.
  pose proof (change_fits (split s) (blk ++ post) blk post hp r Hne Hls eq_refl Hw) as E2.
  rewrite Hj in E1, E2. split; [by apply E1|done].
Qed.

Lemma encoders_agree_witness :
  ∃ d, name_encode (replicate 18 1 ++ [5]) 0 (www_google_com ++ [46; 46] ++ [0; 0]) = Ret d ∧
    ChangetoDnsNameFormat (replicate 18 1 ++ [5]) (www_google_com ++ [46; 46] ++ [0; 0]) =
      Ret (d, www_google_com ++ [46; 46] ++ [46; 0]).
Proof.
  apply (encoders_agree (www_google_com ++ [46; 46]) (replicate 18 1) [5] 0 []);
    [by repeat constructor|done|done].
Defined.

(** Decoding undoes encoding for every name of two labels or more, each
    of 1 to 254 bytes, whether the decoder works in place or into a copy. *)
Theorem name_roundtrip s blk post r :
  Forall is_char s → text_size s → zlen s < 2147483646 → (2 ≤ length (split s))%nat →
  Forall (λ l, 0 < zlen l < 255) (split s) → length blk = (length s + 2)%nat →
  ∃ w, name_encode (blk ++ post) 0 (s ++ 0 :: r) = Ret w ∧
    name_decode (length w) w None = Ret (s ++ [0; 0] ++ post) ∧
    name_decode (length w) (blk ++ post) (Some w) = Ret (s ++ [0; 0] ++ post).
Proof.
  intros Hs Hsz Hsz' Hn Hl Hb. pose proof (split_labels s Hs) as Hls. pose proof (split_nonempty s) as Hne.
  pose proof (join_split s) as Hj. pose proof (join_length (split s) Hne) as Hjl. rewrite Hj in Hjl.
  assert (length (wire (split s)) = length blk) as Hw by (unfold wire; len).
  assert (wire_labels (split s)) as Hwl.
  { apply Forall_and. split; [|done]. eapply Forall_impl; [exact Hls|]. apply label_chars. }
  pose proof (wire_labels_length _ Hwl).
  pose proof (name_encode_fits (split s) [] blk post r Hne Hls) as E. rewrite Hj in E.
  cbn [app] in E. exists (wire (split s) ++ post).
  assert (name_decode (length (wire (split s) ++ post)) (wire (split s) ++ post) None = Ret (s ++ [0; 0] ++ post)) as Hd.
  { rewrite name_decode_fits, Hj; [done| |done|unfold text_size; lia]. unfold wire. len. }
  split_and!; [apply E; [exact Hsz|by symmetry]|exact Hd|]. rewrite <- Hd. unfold name_decode, wire. rewrite <- app_assoc. cbn [app].
  rewrite strlen_cstr by (auto using labels_chars with cmem). cbind. rewrite s32_small by lia.
  unfold memcpy. replace (labels (split s) ++ 0 :: post) with ((labels (split s) ++ [0]) ++ post) by (by rewrite <- app_assoc).
  rewrite load_n_prefix by len. cbind.
  pose proof (store_n_app [] blk post (labels (split s) ++ [0]) 0 eq_refl) as Est. cbn [app] in Est.
  rewrite Est by len. cbind. by destruct (load _ 0).
Qed.

Lemma name_roundtrip_witness :
  ∃ w, name_encode (replicate 16 0 ++ [8]) 0 (www_google_com ++ [0]) = Ret w ∧
    name_decode (length w) w None = Ret (www_google_com ++ [0; 0] ++ [8]) ∧
    name_decode (length w) (replicate 16 0 ++ [8]) (Some w) = Ret (www_google_com ++ [0; 0] ++ [8]).
Proof.
  apply (name_roundtrip www_google_com (replicate 16 0) [8] []);
    [by_eval|done|done|by_eval|by_eval|done].
Defined.

(** A name of one label is not decoded: its terminator is overwritten and
    the byte after it is read, which is undefined when the object ends there;
    when that byte is zero the text gains two dots. *)
Theorem name_decode_single l post fuel :
  wire_label l → (1 ≤ fuel)%nat →
  name_decode fuel (wire [l]) None = Undef ∧
  name_decode fuel (wire [l] ++ 0 :: post) None = Ret (l ++ [DOT; DOT; 0] ++ post).
Proof.
  intros [Hc Hl] Hf. destruct fuel as [|fuel]; [lia|].
  assert (Forall (λ b, b ≠ 0) (zlen l :: l)) as Hnz by (constructor; [lia|by apply is_char_nonzero]).
  assert (wire [l] = (zlen l :: l) ++ [0]) as Hw.
  { unfold wire. rewrite labels_cons, u8_small by (unfold is_byte; lia). by rewrite app_nil_r. }
  assert (∀ r, strlen ((zlen l :: l) ++ 0 :: r) 0 = Ret (zlen (zlen l :: l))) as Hlen by (intros; by apply strlen_cstr).
  assert (∀ r, name_decode (S fuel) ((zlen l :: l) ++ 0 :: r) None =
    (c ← load ((zlen l :: l) ++ DOT :: r) (0 + (zlen l + 1) + 1);
     d ← (if decide (c = 0) then Ret ((zlen l :: l) ++ DOT :: r)
          else while_fuel fuel name_decode_step (0 + (zlen l + 1), 1, (zlen l :: l) ++ DOT :: r));
     memmove d 0 1 (zlen (zlen l :: l)))) as E.
  { intros r. unfold name_decode. rewrite Hlen. cbind. rewrite s32_small by len.
    change (load ((zlen l :: l) ++ 0 :: r) 0) with (Ret (A := Z) (zlen l)). cbind.
    rewrite u8_small by (unfold is_byte; lia). rewrite while_fuel_S. unfold name_decode_step at 2.
    rewrite load_app by len. cbind. rewrite store_app by len. cbind. change (u8 (0 + 1)) with 1.
    destruct (load _ _) as [c| |]; cbind; [|done..]. by case_decide. }
  rewrite Hw. split.
  - rewrite E. rewrite load_out by len. done.
  - rewrite <- app_assoc. cbn [app] in E |- *. rewrite E.
    replace (zlen l :: l ++ DOT :: 0 :: post) with ((zlen l :: l ++ [DOT]) ++ 0 :: post) at 1
      by (cbn [app]; by rewrite <- app_assoc).
    rewrite load_app by len. cbind. rewrite decide_True by done. cbind. unfold memmove.
    pose proof (load_n_app [zlen l] (l ++ [DOT]) (0 :: post) 1 (zlen (zlen l :: l)) eq_refl) as E1.
    rewrite <- app_assoc in E1. cbn [app] in E1. rewrite E1 by len. cbind.
    pose proof (store_n_app [] (zlen l :: l) (DOT :: 0 :: post) (l ++ [DOT]) 0 eq_refl) as E2.
    cbn [app] in E2. rewrite E2 by len. by rewrite <- app_assoc.
Qed.

Lemma name_decode_single_witness :
  name_decode 9 (wire [[99; 111; 109]]) None = Undef ∧
  name_decode 9 (wire [[99; 111; 109]] ++ 0 :: [1]) None = Ret ([99; 111; 109] ++ [DOT; DOT; 0] ++ [1]).
Proof. apply (name_decode_single [99; 111; 109] [1] 9); [split; [by repeat constructor|done]|lia]. Defined.

(** C35: [read_name] reads any name of a message, compressed or not: if at
    [r] start the labels [ls] (two or more, 255 bytes at most on the wire) over
    [k] bytes, the name becomes their dotted text and the count is [k]. *)
Theorem read_name_correct buf r ls k name :
  name_at buf r ls k → (2 ≤ length ls)%nat → zlen (labels ls) ≤ 255 → zlen name = 256 →
  ∃ fuel, ∀ fuel', (fuel ≤ fuel')%nat →
    ∃ rest, read_name fuel' buf r name = Ret (k, join ls ++ 0 :: rest).
Proof.
  intros Hat Hn Hsz Hname. destruct (read_name_fits buf r ls k Hat Hn Hsz) as [fuel Hrun]. exists fuel. auto.
Qed.

(** A message that holds "a.b" at 0 and "c.a.b", compressed, at 5. *)
Definition compressed : list Z := [1; 97; 1; 98; 0; 1; 99; 0xc0; 0].

Lemma compressed_at : name_at compressed 5 [[99]; [97]; [98]] 4.
Proof.
  apply (name_label _ 5 [99] _ 2); [by_eval|done|].
  apply (name_pointer _ 7 0xc0 0 _ 5); [lia..|done|done|].
  apply (name_label _ 0 [97] _ 3); [by_eval|done|].
  apply (name_label _ 2 [98] _ 1); [by_eval|done|]. by apply name_end.
Qed.

Lemma read_name_correct_witness :
  ∃ fuel, ∀ fuel', (fuel ≤ fuel')%nat →
    ∃ rest, read_name fuel' compressed 5 (replicate 256 0) = Ret (4, [99; 46; 97; 46; 98] ++ 0 :: rest).
Proof.
  apply (read_name_correct compressed 5 [[99]; [97]; [98]] 4 (replicate 256 0));
    [exact compressed_at|by_eval|done|done].
Defined.

(** [ReadName] reads the same names, and single labels too, into a new
    object of 256 bytes; the root name makes it write before that object. *)
Theorem ReadName_correct `{Allocator} buf r ls k obj :
  malloc 256 = Some obj → name_at buf r ls k → zlen (labels ls) ≤ 255 →
  ∃ fuel, ∀ fuel', (fuel ≤ fuel')%nat →
    match ls with
    | [] => ReadName fuel' buf r = Undef
    | _ => ∃ rest, ReadName fuel' buf r = Ret (k, join ls ++ 0 :: rest)
    end.
Proof.
  intros Hm Hat Hsz. pose proof (malloc_size _ _ Hm) as Hobj. destruct ls as [|l ls].
  - destruct (read_labels buf r [] k Hat) as [steps Hread].
    destruct (Hread 1 0 [] (<[0%nat := 0]> obj)) as (n' & jump' & rest & Hr & Hk & _ & Hj & Hb & Hrun);
      [cbn; lia|len|lia|cbn; lia|by left|]. exists (S steps). intros fuel Hf. unfold ReadName. rewrite Hm.
    rewrite store_in by lia. cbind. rewrite (while_fuel_ext _ (read_name_step buf)) by apply ReadName_step_eq.
    cbn [app] in Hrun. change (zlen (@nil Z)) with 0 in Hrun. change (Z.to_nat 0) with 0%nat. rewrite Hrun by lia. cbind.
    change (zlen (labels [])) with 0. cbn [labels map concat app] in *. rewrite length_insert in Hr.
    destruct rest as [|x rest]; [cbn in Hr; lia|]. change (store (x :: rest) 0 0) with (Ret (0 :: rest)). cbind.
    assert (∃ c, (if decide (jump' = 1) then int_result (n' + 1) else Ret n') = Ret c) as [c ->].
    { case_decide; [rewrite int_result_small by lia|]; eauto. }
    cbind. destruct fuel as [|fuel]; [lia|]. rewrite (while_fuel_inr _ _ _ (0, 0 :: rest)) by done.
    cbind. by rewrite store_out by lia.
  - destruct (ReadName_fits buf r (l :: ls) k obj Hm Hat) as [fuel Hrun]; [cbn; lia|done|].
    exists fuel. intros fuel' Hf. destruct (Hrun fuel' Hf) as (rest & -> & _). eauto.
Qed.

Lemma ReadName_correct_witness :
  (∃ fuel, ∀ fuel', (fuel ≤ fuel')%nat →
    ∃ rest, ReadName fuel' compressed 5 = Ret (4, [99; 46; 97; 46; 98] ++ 0 :: rest)) ∧
  (∃ fuel, ∀ fuel', (fuel ≤ fuel')%nat → ReadName fuel' [0] 0 = Undef).
Proof.
  split.
  - apply (ReadName_correct compressed 5 [[99]; [97]; [98]] 4 (replicate 256 0));
      [reflexivity|exact compressed_at|by_eval].
  - apply (ReadName_correct [0] 0 [] 1 (replicate 256 0)); [reflexivity|by apply name_end|by_eval].
Defined.

(** A compression pointer that points to itself makes both readers loop
    for ever: no number of iterations is enough. *)
Theorem pointer_loop_diverges `{Allocator} buf r hi lo name obj :
  192 ≤ hi < 256 → 0 ≤ lo < 256 → r = hi * 256 + lo - 49152 →
  load buf r = Ret hi → load buf (r + 1) = Ret lo → malloc 256 = Some obj →
  ∀ fuel, read_name fuel buf r name = NoFuel ∧ ReadName fuel buf r = NoFuel.
Proof.
  intros Hhi Hlo Hr H0 H1 Hm fuel.
  assert (∀ n j nm, read_name_step buf (r, 0, n, j, nm) = Ret (inl (r, 0, (if decide (1 = 0) then n + 1 else n), 1, nm))) as Hstep.
  { intros n j nm. unfold read_name_step. rewrite H0. cbind.
    rewrite !(decide_False (P := (hi = 0))), (decide_True (P := (hi >= _))), H1 by lia. cbind.
    rewrite u32_small by lia. change 0xc000 with 49152. rewrite <- Hr. done. }
  assert (∀ nm, while_fuel fuel (read_name_step buf) (r, 0, 1, 0, nm) = NoFuel) as Hloop.
  { intros nm. destruct fuel as [|fuel]; [done|]. erewrite while_fuel_inl by apply Hstep.
    apply while_fuel_stuck. by rewrite Hstep. }
  split.
  - unfold read_name. by rewrite Hloop.
  - unfold ReadName. rewrite Hm. rewrite store_in by (rewrite (malloc_size _ _ Hm); lia). cbind.
    rewrite (while_fuel_ext _ (read_name_step buf)) by apply ReadName_step_eq. by rewrite Hloop.
Qed.

Lemma pointer_loop_diverges_witness :
  read_name 1000 [0xc0; 0] 0 [] = NoFuel ∧ ReadName 1000 [0xc0; 0] 0 = NoFuel.
Proof.
  apply (pointer_loop_diverges [0xc0; 0] 0 0xc0 0 [] (replicate 256 0)); [lia..|done|done|reflexivity].
Defined.
