(* ===== verification/DnsMessage.v ===== *)
(** * socket/dns-demo.c: the resolver

    The query [ngethostbyname] sends, the response it parses into its arrays
    of twenty records, and the report it prints.  Memory is that of the
    program: [buf] is its buffer of 65536 bytes, the arrays are lists of
    records, [resource] pointers are indices into [buf].  What the network
    delivers, the process id and the first contents of the uninitialised
    objects are arguments. *)
From Stdlib Require Import ZArith Lia.
From stdpp Require Import base tactics numbers list.
From S2P Require Import Prelude DnsName.

Open Scope Z_scope.

(** ** Data *)

(** [struct dns_record_t] with its own 256-byte name and 4-byte rdata. *)
Record dns_record_t := DnsRecord { an_name : list Z; an_resource : Z; an_rdata : list Z }.

(** [struct RES_RECORD]: its name and rdata point to objects. *)
Record RES_RECORD := ResRecord { rr_name : list Z; rr_resource : Z; rr_rdata : list Z }.

(** [struct R_DATA] is packed: type, class, ttl and data_len in ten bytes. *)
Definition sizeof_R_DATA : Z := 10.
Definition R_DATA_type (buf : list Z) (r : Z) : outcome Z := load16 buf r.
Definition R_DATA_data_len (buf : list Z) (r : Z) : outcome Z := load16 buf (r + 8).

(** [struct DNS_HEADER]: twelve bytes, flags in the third and fourth. *)
Definition sizeof_DNS_HEADER : Z := 12.
Definition sizeof_QUESTION : Z := 4.

Definition set_bits (b pos w v : Z) : Z :=
  Z.lor (Z.land b (255 - (2 ^ w - 1) * 2 ^ pos)) (Z.shiftl (v mod 2 ^ w) pos).

(** The assignment of [v] to a bit-field of byte [i]. *)
Definition set_field (i pos w v : Z) (m : list Z) : outcome (list Z) :=
  b ← load m i; store m i (set_bits b pos w v).

(** ** The query *)
Definition set_header (buf : list Z) (pid : Z) : outcome (list Z) :=
  m ← store16 buf 0 (htons (u16 pid));
  m ← set_field 2 7 1 0 m;
  m ← set_field 2 3 4 0 m;
  m ← set_field 2 2 1 0 m;
  m ← set_field 2 1 1 0 m;
  m ← set_field 2 0 1 1 m;
  m ← set_field 3 7 1 0 m;
  m ← set_field 3 6 1 0 m;
  m ← set_field 3 5 1 0 m;
  m ← set_field 3 4 1 0 m;
  m ← set_field 3 0 4 0 m;
  m ← store16 m 4 (htons 1);
  m ← store16 m 6 0;
  m ← store16 m 8 0;
  store16 m 10 0.

(** The buffer and the number of bytes given to [sendto]. *)
Definition build_query (buf : list Z) (pid : Z) (host : list Z) (query_type : Z) : outcome (list Z * Z) :=
  m ← set_header buf pid;
  m ← name_encode m sizeof_DNS_HEADER host;
  n ← strlen m sizeof_DNS_HEADER;
  let qinfo := sizeof_DNS_HEADER + (n + 1) in
  m ← store16 m qinfo (htons (u16 query_type));
  m ← store16 m (qinfo + 2) (htons 1);
  n ← strlen m sizeof_DNS_HEADER;
  Ret (m, sizeof_DNS_HEADER + (n + 1) + sizeof_QUESTION).

(** ** The response *)
Section parse.
Context `{Allocator} (fuel : nat) (buf : list Z).

Definition answer_step (i : Z) (s : Z * list dns_record_t) : outcome (Z * list dns_record_t) :=
  let '(reader, answers) := s in
  a ← load answers i;
  '(stop, nm) ← read_name fuel buf reader (an_name a);
  let reader := reader + stop in
  let resource := reader in
  let reader := reader + sizeof_R_DATA in
  t ← R_DATA_type buf resource;
  '(reader, rdata) ←
    (if decide (htons t = 1) then
       l ← R_DATA_data_len buf resource;
       let len := s16 (htons l) in
       rdata ← memcpy (an_rdata a) 0 buf reader len;
       Ret (reader + len, rdata)
     else
       '(stop, obj) ← ReadName fuel buf reader;
       l ← R_DATA_data_len buf resource;
       rdata ← memcpy (an_rdata a) 0 obj 0 l;
       Ret (reader + stop, rdata));
  answers ← store answers i (DnsRecord nm resource rdata);
  Ret (reader, answers).

Definition auth_step (i : Z) (s : Z * list RES_RECORD) : outcome (Z * list RES_RECORD) :=
  let '(reader, auth) := s in
  '(stop, nm) ← ReadName fuel buf reader;
  let reader := reader + stop in
  let resource := reader in
  let reader := reader + sizeof_R_DATA in
  '(stop, rdata) ← ReadName fuel buf reader;
  auth ← store auth i (ResRecord nm resource rdata);
  Ret (reader + stop, auth).

Definition addit_step (i : Z) (s : Z * list RES_RECORD) : outcome (Z * list RES_RECORD) :=
  let '(reader, addit) := s in
  '(stop, nm) ← ReadName fuel buf reader;
  let reader := reader + stop in
  let resource := reader in
  let reader := reader + sizeof_R_DATA in
  t ← R_DATA_type buf resource;
  '(reader, rdata) ←
    (if decide (htons t = 1) then
       l ← R_DATA_data_len buf resource;
       let len := htons l in
       match malloc len with
       | None => Undef
       | Some rdata =>
           rdata ← for_up (Z.to_nat len) 0 (λ j rdata, b ← load buf (reader + j); store rdata j b) rdata;
           rdata ← store rdata len 0;
           Ret (reader + len, rdata)
       end
     else
       '(stop, rdata) ← ReadName fuel buf reader;
       Ret (reader + stop, rdata));
  addit ← store addit i (ResRecord nm resource rdata);
  Ret (reader, addit).

(** The counts of the header, in host order. *)
Definition count_at (i : Z) : outcome nat := c ← load16 buf i; Ret (Z.to_nat (htons c)).

Definition parse_response (answers : list dns_record_t) (auth addit : list RES_RECORD) :
    outcome (list dns_record_t * list RES_RECORD * list RES_RECORD) :=
  n ← strlen buf sizeof_DNS_HEADER;
  let reader := sizeof_DNS_HEADER + (n + 1) + sizeof_QUESTION in
  ans_count ← count_at 6;
  auth_count ← count_at 8;
  add_count ← count_at 10;
  '(reader, answers) ← for_up ans_count 0 answer_step (reader, answers);
  '(reader, auth) ← for_up auth_count 0 auth_step (reader, auth);
  '(reader, addit) ← for_up add_count 0 addit_step (reader, addit);
  Ret (answers, auth, addit).

(** ** The report *)
Inductive detail := IPv4 (addr : list Z) | Alias (s : list Z) | Nameserver (s : list Z).
Record entry := Entry { en_name : list Z; en_details : list detail }.

Definition print_answer (a : dns_record_t) : outcome entry :=
  nm ← c_string (an_name a);
  t ← R_DATA_type buf (an_resource a);
  d1 ← (if decide (htons t = 1) then p ← load_n (an_rdata a) 0 4; Ret [IPv4 p] else Ret []);
  d2 ← (if decide (htons t = 5) then s ← c_string (an_rdata a); Ret [Alias s] else Ret []);
  Ret (Entry nm (d1 ++ d2)).

Definition print_auth (a : RES_RECORD) : outcome entry :=
  nm ← c_string (rr_name a);
  t ← R_DATA_type buf (rr_resource a);
  d ← (if decide (htons t = 2) then s ← c_string (rr_rdata a); Ret [Nameserver s] else Ret []);
  Ret (Entry nm d).

(** [*(long * )rdata] reads eight bytes; the address is their low half. *)
Definition print_addit (a : RES_RECORD) : outcome entry :=
  nm ← c_string (rr_name a);
  t ← R_DATA_type buf (rr_resource a);
  d ← (if decide (htons t = 1) then p ← load_n (rr_rdata a) 0 8; Ret [IPv4 (take 4 p)] else Ret []);
  Ret (Entry nm d).

(** One of the three printing loops over the first [n] records. *)
Definition print_records {A} (f : A → outcome entry) (n : nat) (l : list A) : outcome (list entry) :=
  for_up n 0 (λ i out, a ← load l i; e ← f a; Ret (out ++ [e])) [].

Definition print_response (answers : list dns_record_t) (auth addit : list RES_RECORD) :
    outcome (list entry * list entry * list entry) :=
  ans_count ← count_at 6;
  auth_count ← count_at 8;
  add_count ← count_at 10;
  out1 ← print_records print_answer ans_count answers;
  out2 ← print_records print_auth auth_count auth;
  out3 ← print_records print_addit add_count addit;
  Ret (out1, out2, out3).
End parse.

(** The uninitialised objects of the stack frame. *)
Record frame := Frame {
  f_buf : list Z;
  f_answers : list dns_record_t;
  f_auth : list RES_RECORD;
  f_addit : list RES_RECORD;
}.

(** The packet sent, and the three sections of the report. *)
Definition ngethostbyname `{Allocator} (fuel : nat) (fr : frame) (pid : Z) (response : option (list Z))
    (host : list Z) (query_type : Z) : outcome (list Z * (list entry * list entry * list entry)) :=
  '(buf, n) ← build_query (f_buf fr) pid host query_type;
  sent ← load_n buf 0 n;
  buf ← match response with
        | Some data => memcpy buf 0 data 0 (Z.min (zlen data) 65536)
        | None => Ret buf
        end;
  '(answers, auth, addit) ← parse_response fuel buf (f_answers fr) (f_auth fr) (f_addit fr);
  out ← print_response buf answers auth addit;
  Ret (sent, out).

(** ** The program *)

(** "208.67.222.222" and "208.67.220.220" *)
Definition server0 : list Z := [50; 48; 56; 46; 54; 55; 46; 50; 50; 50; 46; 50; 50; 50].
Definition server1 : list Z := [50; 48; 56; 46; 54; 55; 46; 50; 50; 48; 46; 50; 50; 48].

(** [resolv] is the lines of /etc/resolv.conf, or [None] when it cannot be
    opened (the null stream is then read).  What the loop finds is not kept. *)
Definition get_dns_servers (resolv : option (list (list Z))) (servers : list (list Z)) :
    outcome (list (list Z)) :=
  match resolv with
  | None => Undef
  | Some lines =>
      _ ← for_up (length lines) 0 (λ i _, l ← load lines i; _ ← load l 0; Ret tt) tt;
      r0 ← load servers 0;
      r0 ← store_n r0 0 (server0 ++ [0]);
      servers ← store servers 0 r0;
      r1 ← load servers 1;
      r1 ← store_n r1 0 (server1 ++ [0]);
      store servers 1 r1
  end.

(** [scanf] reads the word [word] into [hostname[100]]. *)
Definition main `{Allocator} (fuel : nat) (fr : frame) (resolv : option (list (list Z)))
    (servers : list (list Z)) (hostname : list Z) (word : list Z) (pid : Z) (response : option (list Z)) :
    outcome (Z * list Z * (list entry * list entry * list entry)) :=
  _ ← get_dns_servers resolv servers;
  hostname ← store_n hostname 0 (word ++ [0]);
  '(sent, out) ← ngethostbyname fuel fr pid response hostname 1;
  Ret (0, sent, out).

(** ** Network byte order *)
Definition be16 (v : Z) : list Z := [v / 256 mod 256; v mod 256].

Lemma store16_htons pre a b post v :
  store16 (pre ++ a :: b :: post) (zlen pre) (htons v) = Ret (pre ++ be16 v ++ post).
Proof.
  unfold store16. rewrite store_app by done. cbind.
  rewrite cons_middle, app_assoc, store_app by len. rewrite <- app_assoc. unfold htons, be16. cbn [app].
  f_equal. f_equal. apply f_equal2; [mlia|]. apply f_equal2; [mlia|done].
Qed.

Lemma htons_be a b : is_byte a → is_byte b → htons (a + 256 * b) = 256 * a + b.
Proof. unfold is_byte, htons. intros. mlia. Qed.

(** ** The query *)
Lemma flags_set b2 b3 : is_byte b2 → is_byte b3 →
  set_bits (set_bits (set_bits (set_bits (set_bits b2 7 1 0) 3 4 0) 2 1 0) 1 1 0) 0 1 1 = 1 ∧
  set_bits (set_bits (set_bits (set_bits (set_bits b3 7 1 0) 6 1 0) 5 1 0) 4 1 0) 0 4 0 = 0.
Proof.
  intros H2 H3. split; [revert b2 H2|revert b3 H3].
  - apply (range_all (λ b2, set_bits (set_bits (set_bits (set_bits (set_bits b2 7 1 0) 3 4 0) 2 1 0) 1 1 0) 0 1 1 = 1)).
    by vm_compute.
  - apply (range_all (λ b3, set_bits (set_bits (set_bits (set_bits (set_bits b3 7 1 0) 6 1 0) 5 1 0) 4 1 0) 0 4 0 = 0)).
    by vm_compute.
Qed.

(** The header of a standard query: RFC 1035, 4.1.1. *)
Definition query_header (pid : Z) : list Z := be16 pid ++ [1; 0; 0; 1; 0; 0; 0; 0; 0; 0].

#[local] Arguments set_bits : simpl never.
#[local] Arguments htons : simpl never.

Lemma set_header_spec h post pid :
  Forall is_byte h → length h = 12%nat →
  set_header (h ++ post) pid = Ret (query_header pid ++ post).
Proof.
  intros Hh Hl. do 12 (destruct h as [|? h]; [done|]). destruct h; [|done].
  rewrite !Forall_cons in Hh. destruct Hh as (_ & _ & H2 & H3 & _).
  unfold set_header, set_field, store16.
  change (0 + 1) with 1. change (4 + 1) with 5. change (6 + 1) with 7. change (8 + 1) with 9.
  change (10 + 1) with 11.
  repeat (first [rewrite load_app_l by done|rewrite store_app_l by done]; eval_mem; cbind).
  destruct (flags_set _ _ H2 H3) as [-> ->]. unfold query_header, be16, htons, u16. cbn [app].
  f_equal. cbv [insert list_insert Z.to_nat Pos.to_nat Pos.iter_op Init.Nat.add app]. apply f_equal2; [mlia|]. apply f_equal2; [mlia|done].
Qed.

(** The question: name, type and the Internet class. *)
Definition query_packet (pid : Z) (host : list Z) (query_type : Z) : list Z :=
  query_header pid ++ wire (split host) ++ be16 query_type ++ [0; 1].

Lemma wire_labels_small ls : Forall is_label ls → Forall (λ l, l ≠ []) ls → zlen (labels ls) < 255 → wire_labels ls.
Proof.
  intros H1 H2. induction ls as [|l ls IH]; [constructor|]. apply Forall_cons in H1 as [Hl H1]. apply Forall_cons in H2 as [Hn H2].
  rewrite labels_cons. norm_length. intros Hsz. constructor.
  - split; [by apply label_chars|]. destruct l; [done|]. cbn [length] in *. lia.
  - apply IH; [done|done|lia].
Qed.

Lemma build_query_spec buf pid host qt r :
  Forall is_byte buf → Forall is_char host → Forall (λ l, l ≠ []) (split host) →
  zlen host < 254 → 300 ≤ zlen buf →
  ∃ rest, build_query buf pid (host ++ 0 :: r) qt = Ret (query_packet pid host qt ++ rest, zlen (query_packet pid host qt)) ∧
    length (query_packet pid host qt ++ rest) = length buf.
Proof.
  intros Hbuf Hh Hne Hsz Hlen. pose proof (split_labels host Hh) as Hls.
  pose proof (join_length (split host) (split_nonempty host)) as Hjl. rewrite join_split in Hjl.
  pose proof (wire_labels_small (split host) Hls Hne ltac:(lia)) as Hw.
  set (w := wire (split host)). assert (length w = (length host + 2)%nat) as Hwl by (unfold w, wire; len).
  rewrite <- (take_drop 12 buf) in Hbuf |- *. apply Forall_app in Hbuf as [Hb12 _].
  set (h := take 12 buf) in *. assert (length h = 12%nat) as Hhl by (unfold h; len).
  assert (length (drop 12 buf) ≥ 288)%nat as Htl by len. set (t := drop 12 buf) in *. clearbody h t. clear Hlen.
  rewrite <- (take_drop (length w) t). set (blk := take (length w) t). set (t' := drop (length w) t).
  assert (length blk = length w) as Hbl by (unfold blk; len).
  assert (4 ≤ length t')%nat as Ht' by (unfold t'; len). clearbody blk t'.
  destruct t' as [|q0 [|q1 [|q2 [|q3 t']]]]; try (cbn in Ht'; lia). exists t'. split.
  2: { unfold query_packet, query_header, be16. fold w. len. }
  unfold build_query.
  rewrite set_header_spec by done. cbind.
  pose proof (name_encode_fits (split host) (query_header pid) blk (q0 :: q1 :: q2 :: q3 :: t') r
    (split_nonempty host) Hls) as E. rewrite join_split in E. fold w in E.
  change (zlen (query_header pid)) with sizeof_DNS_HEADER in E.
  rewrite E; [|unfold text_size; lia|done]. cbind. clear E.
  assert (∀ x, strlen (query_header pid ++ w ++ x) sizeof_DNS_HEADER = Ret (zlen (labels (split host)))) as Hstr.
  { intros x. unfold w, wire. rewrite <- app_assoc. apply strlen_app; [done|]. by apply is_char_nonzero, labels_chars. }
  rewrite Hstr. cbind.
  replace (sizeof_DNS_HEADER + (zlen (labels (split host)) + 1)) with (zlen (query_header pid ++ w)).
  2: { change sizeof_DNS_HEADER with (zlen (query_header pid)). len. }
  rewrite app_assoc, store16_htons. cbind.
  replace (be16 (u16 qt)) with (be16 qt) by (unfold be16, u16; apply f_equal2; [mlia|apply f_equal2; [mlia|done]]).
  cbn [app]. rewrite app_assoc.
  replace (zlen (query_header pid ++ w) + 2) with (zlen ((query_header pid ++ w) ++ be16 qt)) by (unfold be16; len).
  rewrite store16_htons. cbind. change (be16 1) with [0; 1]. rewrite <- !app_assoc. rewrite Hstr. cbind.
  unfold query_packet. fold w. rewrite <- !app_assoc. do 2 f_equal.
  change sizeof_DNS_HEADER with (zlen (query_header pid)). change sizeof_QUESTION with 4. unfold be16. len.
Qed.

(** ** Responses made of addresses *)

(** At [r] start the address records [recs], each a name and four bytes. *)
Inductive answers_at (buf : list Z) : Z → list (list (list Z) * list Z) → Prop :=
| answers_nil r : answers_at buf r []
| answers_cons r ls k cls ttl addr recs :
    name_at buf r ls k → (2 ≤ length ls)%nat → zlen (labels ls) ≤ 255 →
    load_n buf (r + k) 14 = Ret ([0; 1] ++ cls ++ ttl ++ [0; 4] ++ addr) →
    length cls = 2%nat → length ttl = 4%nat → length addr = 4%nat →
    answers_at buf (r + k + 14) recs → answers_at buf r ((ls, addr) :: recs).

Lemma name_at_grow buf x r ls k : name_at buf r ls k → name_at (buf ++ x) r ls k.
Proof.
  induction 1; [apply name_end|eapply name_label|eapply name_pointer]; eauto using load_grow, load_n_grow.
Qed.

Lemma answers_at_grow buf x r recs : answers_at buf r recs → answers_at (buf ++ x) r recs.
Proof. induction 1; econstructor; eauto using name_at_grow, load_n_grow. Qed.

(** Fields of a record, from its bytes. *)
Lemma record_fields buf r cls ttl addr :
  load_n buf r 14 = Ret ([0; 1] ++ cls ++ ttl ++ [0; 4] ++ addr) →
  length cls = 2%nat → length ttl = 4%nat → length addr = 4%nat →
  R_DATA_type buf r = Ret 256 ∧ R_DATA_data_len buf r = Ret 1024 ∧ load_n buf (r + sizeof_R_DATA) 4 = Ret addr.
Proof.
  intros Hr Hc Ht Ha. unfold R_DATA_type, R_DATA_data_len, sizeof_R_DATA. split_and!.
  - pose proof (load_n_sub _ [] _ _ _ _ Hr) as E. rewrite Z.add_0_r in E. by apply load16_n in E.
  - rewrite !app_assoc in Hr. rewrite <- (app_assoc _ [0; 4]) in Hr. apply load_n_sub in Hr.
    apply load16_n in Hr. replace (zlen _) with 8 in Hr; [done|]. rewrite !length_app, Hc, Ht. done.
  - rewrite !app_assoc in Hr. rewrite <- (app_nil_r addr), app_assoc, <- (app_assoc _ addr) in Hr. apply load_n_sub in Hr.
    rewrite Ha in Hr. replace (zlen _) with 10 in Hr; [done|]. rewrite !length_app, Hc, Ht. done.
Qed.

Section answers.
Context `{Allocator} (buf : list Z).

(** What a parsed record holds. *)
Definition answer_of (r : list (list Z) * list Z) (a : dns_record_t) : Prop :=
  (∃ nr, an_name a = join r.1 ++ 0 :: nr) ∧ an_rdata a = r.2 ∧ length r.2 = 4%nat ∧
  Forall is_char (join r.1) ∧ R_DATA_type buf (an_resource a) = Ret 256.

(** A record of the array before it is filled. *)
Definition blank (a : dns_record_t) : Prop := zlen (an_name a) = 256 ∧ zlen (an_rdata a) = 4.

Lemma plain_join_chars ls : Forall plain ls → Forall is_char (join ls).
Proof.
  induction 1 as [|l ls [Hl _] Hls IH]; [constructor|].
  assert (Forall is_char l) by (eapply Forall_impl; [exact Hl|]; unfold is_char; simpl; lia).
  destruct ls as [|l' ls]; [done|]. change (join (l :: l' :: ls)) with (l ++ DOT :: join (l' :: ls)).
  apply Forall_app. split; [done|]. by constructor.
Qed.

Lemma answer_step_address r ls k cls ttl addr :
  name_at buf r ls k → (2 ≤ length ls)%nat → zlen (labels ls) ≤ 255 →
  load_n buf (r + k) 14 = Ret ([0; 1] ++ cls ++ ttl ++ [0; 4] ++ addr) →
  length cls = 2%nat → length ttl = 4%nat → length addr = 4%nat →
  ∃ fuel, ∀ fuel' dn a rest, (fuel ≤ fuel')%nat → blank a → ∃ new, answer_of (ls, addr) new ∧
    answer_step fuel' buf (zlen dn) (r, dn ++ a :: rest) = Ret (r + k + 14, dn ++ new :: rest).
Proof.
  intros Hat Hn Hsz Hr Hc Ht Ha. destruct (read_name_fits buf r ls k Hat Hn Hsz) as [fuel Hrun].
  destruct (record_fields _ _ _ _ _ Hr Hc Ht Ha) as (Hty & Hln & Had).
  exists fuel. intros fuel' dn a rest Hf [Hb1 Hb2]. destruct (Hrun fuel' (an_name a) Hf Hb1) as [nr Hrd].
  exists (DnsRecord (join ls ++ 0 :: nr) (r + k) addr). split.
  { unfold answer_of. cbn. split_and!; [eauto|done|done| |done]. eapply plain_join_chars, name_at_plain, Hat. }
  unfold answer_step. rewrite load_app by done. cbind. rewrite Hrd. cbind. rewrite Hty. cbind.
  rewrite decide_True by done. rewrite Hln. cbind. change (s16 (htons 1024)) with 4.
  unfold memcpy. rewrite Had. cbind.
  pose proof (store_n_app [] (an_rdata a) [] addr 0 eq_refl ltac:(lia)) as E. cbn [app] in E.
  rewrite !app_nil_r in E. rewrite E. cbind. rewrite store_app by done. cbind.
  unfold sizeof_R_DATA. peel.
Qed.

Lemma answers_loop recs r : answers_at buf r recs →
  ∃ fuel r', ∀ fuel' dn old, (fuel ≤ fuel')%nat → Forall blank old → (length recs ≤ length old)%nat →
  ∃ new, Forall2 answer_of recs new ∧
    for_up (length recs) (zlen dn) (answer_step fuel' buf) (r, dn ++ old) =
      Ret (r', dn ++ new ++ drop (length recs) old).
Proof.
  induction 1 as [r|r ls k cls ttl addr recs Hat Hn Hsz Hr Hc Ht Ha Hrest (f2 & r' & IH)].
  { exists 0%nat, r. intros fuel' dn old _ _ _. exists []. by rewrite drop_0. }
  destruct (answer_step_address r ls k cls ttl addr) as [f1 H1]; [done..|].
  exists (f1 + f2)%nat, r'. intros fuel dn old Hf Hb Hl.
  destruct old as [|a old]; [cbn in Hl; lia|]. apply Forall_cons in Hb as [Hba Hb]. cbn [length] in Hl.
  destruct (H1 fuel dn a old ltac:(lia) Hba) as (new & Hnew & E1).
  destruct (IH fuel (dn ++ [new]) old ltac:(lia) Hb ltac:(lia)) as (news & Hnews & E2).
  exists (new :: news). split; [by constructor|]. cbn [length for_up drop]. rewrite E1. cbind.
  replace (zlen dn + 1) with (zlen (dn ++ [new])) by len.
  rewrite <- !app_assoc in E2. cbn [app] in E2 |- *. by rewrite E2.
Qed.

(** The entry printed for a record. *)
Definition reported (r : list (list Z) * list Z) : entry := Entry (join r.1) [IPv4 r.2].

Lemma print_answer_of r a : answer_of r a → print_answer buf a = Ret (reported r).
Proof.
  intros ((nr & Hnm) & Hrd & Hl & Hc & Hty). unfold print_answer. rewrite Hnm, string_prefix by done. cbind.
  rewrite Hty, Hrd. cbind. rewrite (decide_True (P := (htons 256 = 1))) by done.
  pose proof (load_n_prefix r.2 [] 4 ltac:(lia)) as E. rewrite app_nil_r in E. rewrite E. cbind.
  rewrite decide_False by done. done.
Qed.

Lemma print_loop recs new : Forall2 answer_of recs new → ∀ dn rest out,
  for_up (length recs) (zlen dn) (λ i out, a ← load (dn ++ new ++ rest) i; e ← print_answer buf a; Ret (out ++ [e])) out =
  Ret (out ++ map reported recs).
Proof.
  induction 1 as [|r a recs new Ha Hnew IH]; intros dn rest out; cbn [length for_up map]; [by rewrite app_nil_r|].
  cbn [app]. rewrite load_app by done. cbind. rewrite (print_answer_of r) by done. cbind.
  specialize (IH (dn ++ [a]) rest (out ++ [reported r])). rewrite <- !app_assoc in IH. cbn [app] in IH.
  replace (zlen dn + 1) with (zlen (dn ++ [a])) by len. done.
Qed.
End answers.

(** ** The whole run *)

(** A datagram that answers with [recs] and nothing else. *)
Definition address_response (data : list Z) (recs : list (list (list Z) * list Z)) : Prop :=
  zlen data ≤ 65536 ∧ load_n data 6 6 = Ret (be16 (zlen recs) ++ [0; 0; 0; 0]) ∧
  ∃ q, strlen data 12 = Ret q ∧ answers_at data (12 + (q + 1) + 4) recs.

(** The objects have the sizes of their declarations. *)
Definition frame_ok (fr : frame) : Prop :=
  zlen (f_buf fr) = 65536 ∧ Forall is_byte (f_buf fr) ∧ length (f_answers fr) = 20%nat ∧ Forall blank (f_answers fr).

Lemma htons_be16 v : 0 ≤ v < 65536 → htons (v / 256 mod 256 + 256 * (v mod 256)) = v.
Proof. intros. unfold htons. mlia. Qed.

Lemma counts_read buf n :
  0 ≤ n < 65536 → load_n buf 6 6 = Ret (be16 n ++ [0; 0; 0; 0]) →
  count_at buf 6 = Ret (Z.to_nat n) ∧ count_at buf 8 = Ret 0%nat ∧ count_at buf 10 = Ret 0%nat.
Proof.
  intros Hn Hc. unfold count_at.
  pose proof (load_n_sub buf [] (be16 n) [0; 0; 0; 0] 6 6 Hc) as H1.
  pose proof (load_n_sub buf (be16 n) [0; 0] [0; 0] 6 6 Hc) as H2.
  pose proof (load_n_sub buf (be16 n ++ [0; 0]) [0; 0] [] 6 6) as H3. rewrite <- app_assoc in H3. specialize (H3 Hc).
  apply load16_n in H1, H2, H3. change (load16 buf 6 = Ret (n / 256 mod 256 + 256 * (n mod 256))) in H1.
  change (load16 buf 8 = Ret 0) in H2. change (load16 buf 10 = Ret 0) in H3.
  rewrite H1, H2, H3. cbind. by rewrite htons_be16.
Qed.

Section run.
Context `{Allocator}.

Lemma parse_addresses buf recs q :
  (length recs ≤ 20)%nat → load_n buf 6 6 = Ret (be16 (zlen recs) ++ [0; 0; 0; 0]) →
  strlen buf 12 = Ret q → answers_at buf (12 + (q + 1) + 4) recs →
  ∃ fuel, ∀ fuel' answers auth addit, (fuel ≤ fuel')%nat → length answers = 20%nat → Forall blank answers →
  ∃ answers', parse_response fuel' buf answers auth addit = Ret (answers', auth, addit) ∧
    print_response buf answers' auth addit = Ret (map reported recs, [], []).
Proof.
  intros Hn Hc Hq Hat. destruct (counts_read buf (zlen recs) ltac:(lia) Hc) as (H1 & H2 & H3).
  rewrite Nat2Z.id in H1. destruct (answers_loop buf recs _ Hat) as (fuel & r' & Hloop).
  exists fuel. intros fuel' answers auth addit Hf Hla Hba.
  destruct (Hloop fuel' [] answers Hf Hba ltac:(lia)) as (new & Hnew & E). exists (new ++ drop (length recs) answers).
  cbn [app] in E. change (zlen (@nil dns_record_t)) with 0 in E. split.
  - unfold parse_response, sizeof_DNS_HEADER, sizeof_QUESTION. rewrite Hq. cbind. rewrite H1, H2, H3. cbind.
    rewrite E. done.
  - unfold print_response, print_records. rewrite H1, H2, H3. cbind.
    pose proof (print_loop buf recs new Hnew [] (drop (length recs) answers) []) as E2.
    cbn [app] in E2. change (zlen (@nil dns_record_t)) with 0 in E2. by rewrite E2.
Qed.

End run.

(** ** Properties *)

(** C5: a lookup, end to end: for a host name of non-empty labels the packet
    sent is the standard query of RFC 1035 for it, and when the datagram that
    arrives answers with at most twenty address records (their names compressed
    or not), the report is exactly their names and addresses, in order. *)
Theorem lookup_reports_addresses `{Allocator} fr host r pid qt data recs :
  frame_ok fr → Forall is_char host → Forall (λ l, l ≠ []) (split host) → zlen host < 254 →
  (length recs ≤ 20)%nat → address_response data recs →
  ∃ fuel, ∀ fuel', (fuel ≤ fuel')%nat →
    ngethostbyname fuel' fr pid (Some data) (host ++ 0 :: r) qt =
      Ret (query_packet pid host qt, (map reported recs, [], [])).
Proof.
  intros (Hb & Hbb & Hla & Hba) Hh Hne Hsz Hn (Hd & Hc & q & Hq & Hat).
  destruct (build_query_spec (f_buf fr) pid host qt r Hbb Hh Hne Hsz ltac:(lia)) as (rest & Hbuild & Hlen).
  set (full := query_packet pid host qt ++ rest) in *.
  destruct (parse_addresses (data ++ drop (length data) full) recs q) as [fuel Hrun];
    [done|by apply load_n_grow|by apply strlen_grow|by apply answers_at_grow|].
  exists fuel. intros fuel' Hf. destruct (Hrun fuel' (f_answers fr) (f_auth fr) (f_addit fr) Hf Hla Hba) as (ans & E1 & E2).
  unfold ngethostbyname. rewrite Hbuild. cbind.
  assert (load_n full 0 (zlen (query_packet pid host qt)) = Ret (query_packet pid host qt)) as -> by (by apply load_n_prefix).
  cbind.
  assert (memcpy full 0 data 0 (Z.min (zlen data) 65536) = Ret (data ++ drop (length data) full)) as ->.
  { rewrite Z.min_l by lia. unfold memcpy. pose proof (load_n_prefix data [] (zlen data) eq_refl) as El.
    rewrite app_nil_r in El. rewrite El. cbind.
    rewrite <- (take_drop (length data) full) at 1. apply (store_n_app []); [done|len]. }
  cbind. rewrite E1. cbind. rewrite E2. done.
Qed.

(** The datagram: "a.b" queried, answered by one compressed address record. *)
Definition reply : list Z :=
  [0; 7; 0x81; 0x80; 0; 1; 0; 1; 0; 0; 0; 0] ++ [1; 97; 1; 98; 0; 0; 1; 0; 1] ++
  [0xc0; 12; 0; 1; 0; 1; 0; 0; 0; 60; 0; 4; 127; 0; 0; 1].

Lemma reply_response : address_response reply [([[97]; [98]], [127; 0; 0; 1])].
Proof.
  split; [by_eval|]. split; [done|]. exists 4. split; [done|].
  apply (answers_cons _ _ _ 2 [0; 1] [0; 0; 0; 60] [127; 0; 0; 1]); [|by_eval|by_eval|done..|constructor].
  apply (name_pointer _ _ 0xc0 12 _ 5); [lia..|done|done|].
  apply (name_label _ _ [97] _ 3); [by_eval|done|]. apply (name_label _ _ [98] _ 1); [by_eval|done|]. by apply name_end.
Qed.

(** A frame of zeros. *)
Definition zero_frame : frame :=
  Frame (replicate (Z.to_nat 65536) 0) (replicate 20 (DnsRecord (replicate 256 0) 0 (replicate 4 0)))
    (replicate 20 (ResRecord [] 0 [])) (replicate 20 (ResRecord [] 0 [])).

Lemma zero_frame_ok : frame_ok zero_frame.
Proof.
  split; [|split; [|split; [done|]]].
  - unfold zero_frame. cbn [f_buf]. rewrite length_replicate. apply Z2Nat.id. lia.
  - apply Forall_replicate. unfold is_byte. lia.
  - apply Forall_replicate. done.
Qed.

Lemma lookup_reports_addresses_witness :
  ∃ fuel, ∀ fuel', (fuel ≤ fuel')%nat →
    ngethostbyname fuel' zero_frame 7 (Some reply) ([97; 46; 98] ++ [0]) 1 =
      Ret ([0; 7; 1; 0; 0; 1; 0; 0; 0; 0; 0; 0] ++ [1; 97; 1; 98; 0] ++ [0; 1; 0; 1],
           ([Entry [97; 46; 98] [IPv4 [127; 0; 0; 1]]], [], [])).
Proof.
  apply (lookup_reports_addresses zero_frame [97; 46; 98] [] 7 1 reply [([[97]; [98]], [127; 0; 0; 1])]);
    [exact zero_frame_ok|by_eval|by_eval|by_eval|by_eval|exact reply_response].
Defined.

(** What the parser cannot take.  A response that announces more than
    twenty answers overruns the array as soon as the first twenty are addresses;
    an answer that is not an address copies [data_len] bytes without swapping
    them, so any length with a low byte overruns the four bytes of rdata; an
    additional address record always writes one byte past its allocation. *)
Theorem response_overruns `{Allocator} buf :
  (∀ q n recs, strlen buf 12 = Ret q → count_at buf 6 = Ret n → (20 < n)%nat →
     (∃ a, count_at buf 8 = Ret a) → (∃ a, count_at buf 10 = Ret a) →
     answers_at buf (12 + (q + 1) + 4) recs → length recs = 20%nat →
     ∃ fuel, ∀ fuel' answers auth addit, (fuel ≤ fuel')%nat → length answers = 20%nat → Forall blank answers →
       parse_response fuel' buf answers auth addit = Undef) ∧
  (∀ r ls k ls' k' t hi lo obj, malloc 256 = Some obj →
     name_at buf r ls k → (2 ≤ length ls)%nat → zlen (labels ls) ≤ 255 →
     R_DATA_type buf (r + k) = Ret t → htons t ≠ 1 →
     R_DATA_data_len buf (r + k) = Ret (hi + 256 * lo) → is_byte hi → 0 < lo < 256 →
     name_at buf (r + k + 10) ls' k' → (1 ≤ length ls')%nat → zlen (labels ls') ≤ 255 →
     ∃ fuel, ∀ fuel' i a answers, (fuel ≤ fuel')%nat → load answers i = Ret a → blank a →
       answer_step fuel' buf i (r, answers) = Undef) ∧
  (∀ r ls k t len obj, malloc 256 = Some obj →
     name_at buf r ls k → (1 ≤ length ls)%nat → zlen (labels ls) ≤ 255 →
     R_DATA_type buf (r + k) = Ret t → htons t = 1 → R_DATA_data_len buf (r + k) = Ret len →
     ∃ fuel, ∀ fuel' i addit, (fuel ≤ fuel')%nat → addit_step fuel' buf i (r, addit) = Undef).
Proof.
  split_and!.
  - intros q n recs Hq H1 Hn [a2 H2] [a3 H3] Hat Hr. destruct (answers_loop buf recs _ Hat) as (fuel & r' & Hloop).
    exists fuel. intros fuel' answers auth addit Hf Hla Hba.
    destruct (Hloop fuel' [] answers Hf Hba ltac:(lia)) as (new & Hnew%Forall2_length & E).
    cbn [app] in E. change (zlen (@nil dns_record_t)) with 0 in E.
    unfold parse_response, sizeof_DNS_HEADER, sizeof_QUESTION. rewrite Hq. cbind. rewrite H1, H2, H3. cbind.
    replace n with (length recs + S (n - 21))%nat by lia. rewrite for_up_add, E. cbind. cbn [for_up].
    assert (answer_step fuel' buf (0 + Z.of_nat (length recs)) (r', new ++ drop (length recs) answers) = Undef) as ->; [|done].
    unfold answer_step. rewrite load_out by (rewrite drop_ge, app_nil_r by lia; lia). done.
  - intros r ls k ls' k' t hi lo obj Hm Hat Hn Hsz Ht Hne Hl Hhi Hlo Hat' Hn' Hsz'.
    destruct (read_name_fits buf r ls k Hat Hn Hsz) as [f1 Hr1].
    destruct (ReadName_fits buf (r + k + 10) ls' k' obj Hm Hat' Hn' Hsz') as [f2 Hr2].
    exists (f1 + f2)%nat. intros fuel i a answers Hf Ha [Hb1 Hb2].
    destruct (Hr1 fuel (an_name a) ltac:(lia) Hb1) as [rest1 E1]. destruct (Hr2 fuel ltac:(lia)) as (rest2 & E2 & Hs2).
    unfold answer_step. rewrite Ha. cbind. rewrite E1. cbind. rewrite Ht. cbind. rewrite decide_False by done.
    unfold sizeof_R_DATA. rewrite E2. cbind. rewrite Hl. cbind. unfold memcpy.
    destruct (load_n _ 0 _) as [vs| |] eqn:El; cbind; [|done|unfold load_n in El; by case_decide].
    apply load_n_length in El. unfold is_byte in Hhi. unfold store_n. by rewrite decide_False by lia.
  - intros r ls k t len obj Hm Hat Hn Hsz Ht Hty Hl.
    destruct (ReadName_fits buf r ls k obj Hm Hat Hn Hsz) as [f Hr]. exists f. intros fuel i addit Hf.
    destruct (Hr fuel Hf) as (rest & E & _). unfold addit_step. rewrite E. cbind. rewrite Ht. cbind.
    rewrite decide_True by done. rewrite Hl. cbind. destruct (malloc (htons len)) as [rd|] eqn:Em; [|done].
    pose proof (malloc_size _ _ Em) as Hrd.
    destruct (for_up_partial (λ j rdata, b ← load buf (r + k + sizeof_R_DATA + j); store rdata j b)
      (λ rdata, zlen rdata = htons len) (Z.to_nat (htons len)) 0 rd) as [-> |(rd' & -> & Hrd')].
    + intros j m Hj. destruct (load buf _) as [b| |] eqn:El; cbind; [|by left|].
      * unfold store. case_decide; [right|by left]. eexists. split; [done|]. by rewrite length_insert.
      * exfalso. unfold load in El. case_decide; [|done]. by destruct (buf !! _).
    + done.
    + done.
    + cbind. by rewrite store_out by lia.
Qed.
(** Responses to "a.b": 21 addresses, an alias, an additional address. *)
Definition address_record : list Z := [0xc0; 12; 0; 1; 0; 1; 0; 0; 0; 60; 0; 4; 127; 0; 0; 1].
Definition question : list Z := [1; 97; 1; 98; 0; 0; 1; 0; 1].
Definition flood : list Z :=
  [0; 7; 0x81; 0x80; 0; 1; 0; 21; 0; 0; 0; 0] ++ question ++ concat (replicate 21 address_record).
Definition cname_reply : list Z :=
  [0; 7; 0x81; 0x80; 0; 1; 0; 1; 0; 0; 0; 0] ++ question ++ [0xc0; 12; 0; 5; 0; 1; 0; 0; 0; 60; 0; 2; 0xc0; 12].
Definition addit_reply : list Z :=
  [0; 7; 0x81; 0x80; 0; 1; 0; 0; 0; 0; 0; 1] ++ question ++ address_record.

Lemma pointer_to_question buf r :
  load_n buf 12 5 = Ret [1; 97; 1; 98; 0] → load_n buf r 2 = Ret [0xc0; 12] → name_at buf r [[97]; [98]] 2.
Proof.
  intros Hq [H0 H1%load_n_cons]%load_n_cons. destruct H1 as [H1 _].
  apply (name_pointer _ _ 0xc0 12 _ 5); [lia..|done|done|].
  apply (name_label _ _ [97] _ 3); [by_eval|by apply (load_n_sub _ [] [1; 97] [1; 98; 0] 12 5)|].
  apply (name_label _ _ [98] _ 1); [by_eval|by apply (load_n_sub _ [1; 97] [1; 98] [0] 12 5)|].
  apply name_end. apply (load_n_sub _ [1; 97; 1; 98] [0] [] 12 5) in Hq. by apply load_n_cons in Hq as [? _].
Qed.

Lemma flood_answers : answers_at flood 21 (replicate 20 ([[97]; [98]], [127; 0; 0; 1])).
Proof.
  do 20 (apply (answers_cons _ _ _ 2 [0; 1] [0; 0; 0; 60] [127; 0; 0; 1]);
    [by apply pointer_to_question|by_eval|by_eval|done..|]). constructor.
Qed.

Lemma response_overruns_witness :
  (∃ fuel, ∀ fuel' answers auth addit, (fuel ≤ fuel')%nat → length answers = 20%nat → Forall blank answers →
     parse_response fuel' flood answers auth addit = Undef) ∧
  (∃ fuel, ∀ fuel' i a answers, (fuel ≤ fuel')%nat → load answers i = Ret a → blank a →
     answer_step fuel' cname_reply i (21, answers) = Undef) ∧
  (∃ fuel, ∀ fuel' i addit, (fuel ≤ fuel')%nat → addit_step fuel' addit_reply i (21, addit) = Undef).
Proof.
  split_and!.
  - apply (proj1 (response_overruns flood) 4 21%nat (replicate 20 ([[97]; [98]], [127; 0; 0; 1])));
      [done|done|lia|by exists 0%nat|by exists 0%nat|exact flood_answers|done].
  - eapply (proj1 (proj2 (response_overruns cname_reply)) 21 [[97]; [98]] 2 [[97]; [98]] 2 _ 0 2 (replicate 256 0));
      [reflexivity|by apply pointer_to_question|by_eval|by_eval|reflexivity|by_eval|reflexivity|by_eval|lia|
       by apply pointer_to_question|by_eval|by_eval].
  - eapply (proj2 (proj2 (response_overruns addit_reply)) 21 [[97]; [98]] 2 _ _ (replicate 256 0));
      [reflexivity|by apply pointer_to_question|by_eval|by_eval|reflexivity|by_eval|reflexivity].
Defined.
