(* ===== verification/RingBuffer.v ===== *)
(** * trivial/ring_buffer.c: a ring of blocks and a moving average

    The ring buffer owns one allocation, the blob: an array of pointers and
    then the blocks they point to.  The pointer array is kept as a list of
    offsets into the blob; the blocks are its bytes, and an [int] in a block is
    read and written as four of them.  The weight window keeps the last
    [length] weights and their sum. *)
From Stdlib Require Import ZArith Lia.
From stdpp Require Import base tactics numbers list.
From S2P Require Import Prelude.

Open Scope Z_scope.

(** ** The code *)
Record ring_buffer_t := Ring { data : list Z; size : Z; capacity : Z; blob : list Z }.

Definition u64 (z : Z) : Z := z mod 18446744073709551616.

(** ((x & ~7U) + (x & 7U)) ? 8U : 0, as the macro groups; [~7U] has 32 bits. *)
Definition ALIGN (x : Z) : Z :=
  if decide (u64 (Z.land x 4294967288 + Z.land x 7) ≠ 0) then 8 else 0.

(** The loop that fills the pointer array; an entry must lie in the blob. *)
Definition init_step (block sz : Z) (i : Z) (s : Z * list Z) : outcome (Z * list Z) :=
  let '(p, d) := s in
  if decide ((i + 1) * 8 ≤ sz) then Ret (p + ALIGN block, d ++ [p]) else Undef.

Definition ring_buffer_init `{Allocator} (capacity block : Z) : outcome ring_buffer_t :=
  match malloc (u64 (capacity * (8 + ALIGN block))) with
  | None => if decide (capacity = 0) then Ret (Ring [] 0 0 []) else Undef
  | Some blob =>
      '(p, d) ← for_up (Z.to_nat capacity) 0 (init_step block (zlen blob)) (capacity * 8, []);
      Ret (Ring d 0 capacity blob)
  end.

Definition ring_buffer_rls (self : ring_buffer_t) : ring_buffer_t := Ring [] 0 0 [].

(** The next block, and the ring moved past it. *)
Definition ring_buffer_get (self : ring_buffer_t) : outcome (Z * ring_buffer_t) :=
  p ← load (data self) (size self);
  let n := u64 (size self + 1) in
  let n := if decide (n = capacity self) then 0 else n in
  Ret (p, Ring (data self) n (capacity self) (blob self)).

Record weight_window_t := Window { sum : Z; is_full : Z; length_ : Z; buffer : ring_buffer_t }.

Definition weight_window_init `{Allocator} (length : Z) : outcome weight_window_t :=
  b ← ring_buffer_init length 4;
  Ret (Window 0 0 length b).

Definition weight_window_rls (self : weight_window_t) : weight_window_t :=
  Window 0 0 0 (ring_buffer_rls (buffer self)).

Definition weight_window_is_full (self : weight_window_t) : bool := bool_decide (is_full self ≠ 0).

Definition weight_window_add_weight (self : weight_window_t) (weight : Z) : outcome weight_window_t :=
  '(p, b) ← ring_buffer_get (buffer self);
  s ← int_result (sum self + weight);
  '(s, f) ←
    (if decide (is_full self ≠ 0) then
       old ← load32 (blob b) p;
       s ← int_result (s - old);
       Ret (s, is_full self)
     else Ret (s, if decide (size b = 0) then 1 else 0));
  m ← store32 (blob b) p weight;
  Ret (Window s f (length_ self) (Ring (data b) (size b) (capacity b) m)).

(** Division by zero is undefined. *)
Definition weight_window_average (self : weight_window_t) : outcome Z :=
  let n := s32 (length_ self) in
  if decide (n = 0) then Undef else int_result (Z.quot (sum self) n).

(** The program: the pair logged after each weight. *)
Definition main_data : list Z :=
  [-2055; -2065; -2070; -2070; -2070; -2070; -2070; -2070; -2070; -2070; -2070].

Fixpoint main_loop (ws : list Z) (win : weight_window_t) : outcome (weight_window_t * list (bool * Z)) :=
  match ws with
  | [] => Ret (win, [])
  | w :: ws =>
      win ← weight_window_add_weight win w;
      a ← (if decide (is_full win ≠ 0) then weight_window_average win else Ret 0);
      '(win', out) ← main_loop ws win;
      Ret (win', (weight_window_is_full win, a) :: out)
  end.

Definition main `{Allocator} : outcome (list (bool * Z)) :=
  win ← weight_window_init 3;
  '(win, out) ← main_loop main_data win;
  Ret out.

Example ring_main_output : main =
  Ret [(false, 0); (false, 0); (true, -2063); (true, -2068); (true, -2070); (true, -2070);
       (true, -2070); (true, -2070); (true, -2070); (true, -2070); (true, -2070)].
Proof. vm_compute. reflexivity. Qed.

(** ** The ring *)
Lemma ALIGN_spec x : 0 ≤ x < 4294967296 → ALIGN x = if decide (x = 0) then 0 else 8.
Proof.
  intros Hx. unfold ALIGN.
  replace (Z.land x 4294967288 + Z.land x 7) with x.
  - unfold u64. rewrite Z.mod_small by lia. repeat case_decide; lia.
  - change 7 with (2 ^ 3 - 1) at 1. rewrite land_mask by lia.
    replace x with ((x / 8) * 2 ^ 3 + x mod 8) at 2 by (eval_pow; mlia).
    change 4294967288 with (536870911 * 2 ^ 3 + 0). rewrite land_split by (eval_pow; mlia).
    change 536870911 with (2 ^ 29 - 1). rewrite land_mask, Z.land_0_r by lia. eval_pow. mlia.
Qed.

(** The offsets of the blocks of 8 bytes behind [n] pointers. *)
Definition offsets (n : nat) : list Z := map (λ i, Z.of_nat n * 8 + Z.of_nat i * 8) (seq 0 n).

Lemma init_step_in block sz i p d :
  ALIGN block = 8 → (i + 1) * 8 ≤ sz → init_step block sz i (p, d) = Ret (p + 8, d ++ [p]).
Proof. intros Ha Hi. unfold init_step. by rewrite Ha, decide_True by lia. Qed.

Lemma init_loop block sz n k d :
  ALIGN block = 8 → Z.of_nat (n + k) * 8 ≤ sz →
  for_up n (Z.of_nat k) (init_step block sz) (Z.of_nat (n + k) * 8 + Z.of_nat k * 8, d) =
    Ret (Z.of_nat (n + k) * 16, d ++ map (λ i, Z.of_nat (n + k) * 8 + Z.of_nat i * 8) (seq k n)).
Proof.
  intros Ha. revert k d. induction n as [|n IH]; intros k d Hsz; cbn [for_up seq map].
  - rewrite app_nil_r. do 2 f_equal. lia.
  - rewrite init_step_in by (done || lia). cbind.
    specialize (IH (S k) (d ++ [Z.of_nat (S n + k) * 8 + Z.of_nat k * 8]) ltac:(lia)).
    replace (n + S k)%nat with (S n + k)%nat in IH by lia. rewrite <- app_assoc in IH.
    replace (Z.of_nat k + 1) with (Z.of_nat (S k)) by lia.
    replace (Z.of_nat (S n + k) * 8 + Z.of_nat k * 8 + 8) with (Z.of_nat (S n + k) * 8 + Z.of_nat (S k) * 8) by lia.
    apply IH.
Qed.

Lemma ring_init `{Allocator} n block obj :
  0 < Z.of_nat n < 1152921504606846976 → ALIGN block = 8 → malloc (Z.of_nat n * 16) = Some obj →
  ring_buffer_init (Z.of_nat n) block = Ret (Ring (offsets n) 0 (Z.of_nat n) obj).
Proof.
  intros Hn Ha Hm. unfold ring_buffer_init. rewrite Ha. change (8 + 8) with 16.
  unfold u64. rewrite Z.mod_small by lia. rewrite Hm, Nat2Z.id.
  pose proof (init_loop block (zlen obj) n 0 [] Ha) as E. change (Z.of_nat 0) with 0 in E.
  rewrite Nat.add_0_r, !Z.add_0_r in E. rewrite E by (rewrite (malloc_size _ _ Hm); lia). done.
Qed.

Lemma offsets_load n i : 0 ≤ i < Z.of_nat n → load (offsets n) i = Ret (Z.of_nat n * 8 + i * 8).
Proof.
  intros Hi. apply load_Ret. split; [lia|]. unfold offsets.
  rewrite list_lookup_fmap, lookup_seq_lt by lia. simpl. do 2 f_equal. lia.
Qed.

(** ** The window as a queue *)

(** The specification: the last [n] weights, oldest first. *)
Definition add (n : nat) (q : list Z) (w : Z) : list Z :=
  if decide (length q = n) then tail q ++ [w] else q ++ [w].

Lemma add_filling n q w : (length q < n)%nat → add n q w = q ++ [w].
Proof. intros. unfold add. by rewrite decide_False by lia. Qed.

Lemma add_full n x q w : length (x :: q) = n → add n (x :: q) w = q ++ [w].
Proof. intros. unfold add. by rewrite decide_True. Qed.

Definition total (q : list Z) : Z := foldr Z.add 0 q.

Lemma total_app a b : total (a ++ b) = total a + total b.
Proof. unfold total. induction a as [|x a IH]; simpl in *; lia. Qed.

(** The blocks hold the [int]s [bs]. *)
Definition blocks (n : nat) (m : list Z) (bs : list Z) : Prop :=
  zlen m = Z.of_nat n * 16 ∧
  ∀ i v, bs !! i = Some v → load32 m (Z.of_nat n * 8 + Z.of_nat i * 8) = Ret v.

(** The window [win] holds the queue [q]: not yet full, the blocks from the
    first on; once full, the queue starts at the block [size] and wraps. *)
Inductive holds (n : nat) : list Z → weight_window_t → Prop :=
| holds_filling q m :
    (length q < n)%nat → blocks n m q →
    holds n q (Window (total q) 0 (Z.of_nat n) (Ring (offsets n) (zlen q) (Z.of_nat n) m))
| holds_full a b m :
    (length (a ++ b) = n)%nat → b ≠ [] → blocks n m (a ++ b) →
    holds n (b ++ a) (Window (total (b ++ a)) 1 (Z.of_nat n) (Ring (offsets n) (zlen a) (Z.of_nat n) m)).

Lemma blocks_store n m bs i w :
  blocks n m bs → (i < n)%nat → -2147483648 ≤ w ≤ 2147483647 → (i ≤ length bs)%nat →
  ∃ m', store32 m (Z.of_nat n * 8 + Z.of_nat i * 8) w = Ret m' ∧ blocks n m' (take i bs ++ w :: drop (S i) bs).
Proof.
  intros [Hm Hb] Hi Hw Hl. destruct (store32_in m (Z.of_nat n * 8 + Z.of_nat i * 8) w) as (m' & Hs & Hl'); [lia..|].
  exists m'. split; [done|]. split; [lia|]. intros j v Hj.
  destruct (decide (j = i)) as [-> |Hne].
  - rewrite list_lookup_middle in Hj by len. apply (inj Some) in Hj as ->.
    rewrite (load32_store32 _ _ _ _ Hs). by rewrite s32_small.
  - rewrite (load32_store32_other _ _ _ _ _ Hs) by lia. apply Hb.
    destruct (decide (j < i)%nat).
    + rewrite lookup_app_l, lookup_take_lt in Hj by len. done.
    + rewrite lookup_app_r, length_take, Nat.min_l in Hj by len.
      destruct (j - i)%nat as [|k] eqn:Ek; [lia|]. simpl in Hj. rewrite lookup_drop in Hj.
      by replace (S i + k)%nat with j in Hj by lia.
Qed.

(** One weight: the code does what the queue does, within the range of [int]. *)
Lemma add_weight_holds n q win w :
  holds n q win → -2147483648 ≤ w ≤ 2147483647 → Z.of_nat n < 18446744073709551616 →
  -2147483648 ≤ total q + w ≤ 2147483647 → -2147483648 ≤ total (add n q w) ≤ 2147483647 →
  ∃ win', weight_window_add_weight win w = Ret win' ∧ holds n (add n q w) win'.
Proof.
  intros Hh Hw Hn Hs1 Hs2. destruct Hh as [q m Hq Hb|a b m Hab Hne Hb];
    unfold weight_window_add_weight, ring_buffer_get; cbn [buffer data size capacity blob sum is_full length_].
  - rewrite offsets_load by lia. cbind. cbn [size blob capacity data]. rewrite int_result_small by lia. cbind.
    rewrite (decide_False (P := (0 ≠ 0))) by lia. cbind.
    destruct (blocks_store n m q (length q) w Hb) as (m' & -> & Hb'); [lia..|]. cbind.
    rewrite firstn_all, drop_ge in Hb' by lia. rewrite add_filling by lia.
    unfold u64. rewrite Z.mod_small by lia. eexists. split; [done|].
    replace (total q + w) with (total (q ++ [w])) by (rewrite total_app; simpl; lia).
    destruct (decide (zlen q + 1 = Z.of_nat n)) as [He|He].
    + rewrite decide_True by done. rewrite <- (app_nil_r (q ++ [w])) at 1 2.
      apply (holds_full n [] (q ++ [w]) m'); [len|by destruct q|done].
    + rewrite decide_False by lia. replace (zlen q + 1) with (zlen (q ++ [w])) by len. constructor; [len|done].
  - destruct b as [|old b]; [done|]. rewrite offsets_load by (revert Hab; len). cbind.
    cbn [size blob capacity data]. rewrite int_result_small by lia. cbind. rewrite (decide_True (P := (1 ≠ 0))) by lia.
    destruct Hb as [Hm Hb]. rewrite (Hb (length a) old) by (by apply list_lookup_middle). cbind.
    assert (total (add n ((old :: b) ++ a) w) = total ((old :: b) ++ a) + w - old) as Ht.
    { cbn [app]. rewrite add_full by (revert Hab; len). rewrite !total_app. simpl. rewrite total_app. lia. }
    rewrite int_result_small by lia. cbind.
    destruct (blocks_store n m (a ++ old :: b) (length a) w) as (m' & -> & Hb'); [done|revert Hab; len|lia|len|]. cbind.
    rewrite take_app_length, drop_app, drop_ge in Hb' by lia.
    replace (S (length a) - length a)%nat with 1%nat in Hb' by lia. cbn [app drop] in Hb'. rewrite drop_0 in Hb'.
    rewrite <- Ht. cbn [app]. rewrite add_full by (revert Hab; len).
    unfold u64. rewrite Z.mod_small by (revert Hab; len). eexists. split; [done|].
    replace ((b ++ a) ++ [w]) with (b ++ a ++ [w]) by (by rewrite <- app_assoc).
    destruct (decide (zlen a + 1 = Z.of_nat n)) as [He|He].
    + assert (b = []) as -> by (destruct b; [done|exfalso; revert Hab He; len]).
      cbn [app]. rewrite <- (app_nil_r (a ++ [w])) at 1 2.
      apply (holds_full n [] (a ++ [w]) m'); [revert Hab; len|by destruct a|done].
    + replace (zlen a + 1) with (zlen (a ++ [w])) by len.
      apply (holds_full n (a ++ [w]) b m'); [revert Hab; len| |by rewrite <- app_assoc].
      intros ->. apply He. revert Hab. len.
Qed.

(** What the program should log for the weights [ws] after the queue [q]. *)
Fixpoint logged (n : nat) (q ws : list Z) : list (bool * Z) :=
  match ws with
  | [] => []
  | w :: ws =>
      let q := add n q w in
      (bool_decide (length q = n), if decide (length q = n) then Z.quot (total q) (Z.of_nat n) else 0) ::
      logged n q ws
  end.

(** The weights are small enough for [n + 1] of them to be summed in an [int]. *)
Definition room (n : nat) (B : Z) : Prop := B * (Z.of_nat n + 1) ≤ 2147483647 ∧ 0 ≤ B ∧ 0 < Z.of_nat n ≤ 2147483647.

Lemma total_bound B q : Forall (λ w, Z.abs w ≤ B) q → Z.abs (total q) ≤ B * zlen q.
Proof. unfold total. induction 1 as [|w q Hw Hq IH]; simpl in *; lia. Qed.

Lemma add_length n q w : (0 < n)%nat → (length q ≤ n)%nat → (length (add n q w) ≤ n)%nat.
Proof.
  intros Hn Hq. unfold add. case_decide; [|len]. destruct q; simpl in *; len.
Qed.

Lemma add_forall (P : Z → Prop) n q w : Forall P q → P w → Forall P (add n q w).
Proof.
  intros Hq Hw. unfold add. case_decide; apply Forall_app; (split; [|by constructor]); [|done].
  destruct Hq; simpl; [constructor|done].
Qed.

Lemma holds_length n q win : holds n q win → (length q ≤ n)%nat.
Proof. destruct 1 as [q m Hq Hb|a b m Hab Hne Hb]; [lia|]. revert Hab. len. Qed.

Lemma quot_bound s n B : 0 < n → 0 ≤ B → Z.abs s ≤ B → Z.abs (Z.quot s n) ≤ B.
Proof.
  intros Hn HB Hs. rewrite <- Z.quot_abs by lia. rewrite (Z.abs_eq n) by lia.
  rewrite Z.quot_div_nonneg by lia. transitivity (Z.abs s); [|done]. apply Z.div_le_upper_bound; nia.
Qed.

Lemma holds_average n q win B :
  holds n q win → room n B → Forall (λ w, Z.abs w ≤ B) q →
  weight_window_is_full win = bool_decide (length q = n) ∧
  is_full win = (if decide (length q = n) then 1 else 0) ∧
  sum win = total q ∧ weight_window_average win = Ret (Z.quot (total q) (Z.of_nat n)).
Proof.
  intros Hh (HB & HB0 & Hn) Hq. pose proof (holds_length _ _ _ Hh) as Hl. pose proof (total_bound B q Hq) as Ht.
  assert (sum win = total q ∧ length_ win = Z.of_nat n ∧ is_full win = (if decide (length q = n) then 1 else 0)) as (Hs & Hln & Hf).
  { destruct Hh as [q m Hql Hb|a b m Hab Hne Hb]; cbn [sum length_ is_full]; split_and!; try done;
      case_decide as He; try done; [lia|]. exfalso. apply He. revert Hab. len. }
  split_and!; [|done|done|].
  - unfold weight_window_is_full. rewrite Hf. case_decide; repeat case_bool_decide; done || lia.
  - unfold weight_window_average. rewrite Hln, Hs, s32_small, decide_False by lia. apply int_result_small.
    assert (B * zlen q ≤ B * (Z.of_nat n + 1)) by (apply Z.mul_le_mono_nonneg_l; lia).
    pose proof (quot_bound (total q) (Z.of_nat n) (B * zlen q) ltac:(lia) ltac:(nia) Ht). lia.
Qed.

Lemma main_loop_logged n B ws q win :
  holds n q win → room n B → Forall (λ w, Z.abs w ≤ B) q → Forall (λ w, Z.abs w ≤ B) ws →
  ∃ win', main_loop ws win = Ret (win', logged n q ws) ∧ holds n (foldl (add n) q ws) win'.
Proof.
  revert q win. induction ws as [|w ws IH]; intros q win Hh Hr Hq Hws; cbn [main_loop logged foldl]; [eauto|].
  apply Forall_cons in Hws as [Hw Hws]. pose proof Hr as (HB & HB0 & Hn).
  pose proof (holds_length _ _ _ Hh) as Hl. pose proof (total_bound B q Hq) as Ht.
  pose proof (add_forall _ n q w Hq Hw) as Hq'. pose proof (add_length n q w ltac:(lia) Hl) as Hl'.
  pose proof (total_bound B _ Hq') as Ht'.
  assert (B * zlen q ≤ B * Z.of_nat n) by (apply Z.mul_le_mono_nonneg_l; lia).
  assert (B * zlen (add n q w) ≤ B * Z.of_nat n) by (apply Z.mul_le_mono_nonneg_l; lia).
  assert (B ≤ B * (Z.of_nat n + 1)) by nia.
  destruct (add_weight_holds n q win w Hh) as (win' & -> & Hh'); [lia..|]. cbind.
  destruct (holds_average n _ win' B Hh' Hr Hq') as (Hf & Hf' & _ & Hav). rewrite Hf, Hf', Hav.
  destruct (IH _ _ Hh' Hr Hq' Hws) as (win'' & E & Hh''). exists win''. split; [|done].
  destruct (decide (length (add n q w) = n)); cbind; rewrite E; cbind; done.
Qed.

(** The queue is the last [n] weights. *)
Lemma add_last n ws : (0 < n)%nat → foldl (add n) [] ws = drop (length ws - n) ws.
Proof.
  intros Hn. induction ws as [|w ws IH] using rev_ind; [done|]. rewrite foldl_snoc, IH. unfold add.
  rewrite length_drop, length_app. cbn [length]. case_decide as He.
  - replace (length ws + 1 - n)%nat with (S (length ws - n)) by lia.
    rewrite drop_app_le by lia. f_equal.
    replace (S (length ws - n)) with ((length ws - n) + 1)%nat by lia. rewrite <- drop_drop. by destruct (drop _ ws).
  - replace (length ws + 1 - n)%nat with 0%nat by lia. replace (length ws - n)%nat with 0%nat by lia. done.
Qed.

(** ** Properties *)

(** C28: the window is the queue of the last [n] weights: whatever weights the
    program feeds it, as long as [n + 1] of them can be summed in an [int], it
    logs at each step whether [n] have arrived and, if so, the quotient of the
    sum of the last [n] by [n]; its sum is theirs at the end. *)
Theorem window_refines_queue `{Allocator} n B ws obj :
  room n B → malloc (Z.of_nat n * 16) = Some obj → Forall (λ w, Z.abs w ≤ B) ws →
  ∃ win win', weight_window_init (Z.of_nat n) = Ret win ∧
    main_loop ws win = Ret (win', logged n [] ws) ∧
    sum win' = total (drop (length ws - n) ws) ∧
    weight_window_is_full win' = bool_decide (n ≤ length ws)%nat.
Proof.
  intros Hr Hm Hws. pose proof Hr as (HB & HB0 & Hn). unfold weight_window_init.
  rewrite (ring_init n 4 obj) by (done || lia). cbind. eexists.
  assert (holds n [] (Window 0 0 (Z.of_nat n) (Ring (offsets n) 0 (Z.of_nat n) obj))) as Hh.
  { apply (holds_filling n [] obj); [simpl; lia|]. split; [rewrite (malloc_size _ _ Hm); lia|]. done. }
  destruct (main_loop_logged n B ws [] _ Hh Hr ltac:(constructor) Hws) as (win' & E & Hh').
  exists win'. split; [done|]. split; [exact E|]. rewrite add_last in Hh' by lia.
  destruct (holds_average n _ win' B Hh' Hr) as (Hf & _ & Hs & _); [by apply Forall_drop|].
  rewrite Hf, Hs. split; [done|]. rewrite length_drop. apply bool_decide_ext. lia.
Qed.

Lemma window_refines_queue_witness :
  ∃ win win', weight_window_init 3 = Ret win ∧ main_loop main_data win = Ret (win', logged 3 [] main_data) ∧
    sum win' = -6210 ∧ weight_window_is_full win' = true.
Proof.
  apply (window_refines_queue 3 3000 main_data (replicate 48 0)); [by_eval|reflexivity|by_eval].
Defined.

(** The macro that should round a block up to a multiple of 8 yields 8 for
    every block that is not empty; so the blocks of a ring are 8 bytes apart,
    and the last block of more than 8 bytes ends outside the allocation. *)
Theorem ring_block_overrun `{Allocator} n block obj :
  0 < Z.of_nat n < 1152921504606846976 → 0 < block < 4294967296 → malloc (Z.of_nat n * 16) = Some obj →
  ∃ r, ring_buffer_init (Z.of_nat n) block = Ret r ∧
    (∀ i p q, data r !! i = Some p → data r !! S i = Some q → q - p = 8) ∧
    ∃ p, last (data r) = Some p ∧
      (∀ k, 0 ≤ k < 8 → ∃ b, load (blob r) (p + k) = Ret b) ∧
      (8 < block → load (blob r) (p + block - 1) = Undef).
Proof.
  intros Hn Hb Hm. assert (ALIGN block = 8) as Ha by (rewrite ALIGN_spec by lia; by rewrite decide_False by lia).
  pose proof (malloc_size _ _ Hm) as Hsz. eexists. split; [by apply ring_init|]. cbn [data blob].
  assert (∀ i p, offsets n !! i = Some p → p = Z.of_nat n * 8 + Z.of_nat i * 8 ∧ (i < n)%nat) as Hoff.
  { intros i p. unfold offsets. rewrite list_lookup_fmap. intros (k & Hk & ->)%fmap_Some. apply lookup_seq in Hk as [-> ?]. lia. }
  split.
  - intros i p q [-> _]%Hoff [-> _]%Hoff. lia.
  - exists (Z.of_nat n * 16 - 8). split_and!.
    + rewrite last_lookup. unfold offsets. rewrite length_map, length_seq, list_lookup_fmap, lookup_seq_lt by lia.
      simpl. f_equal. lia.
    + intros k Hk. destruct (load_in obj (Z.of_nat n * 16 - 8 + k)) as (b & Hb' & _); [lia|eauto].
    + intros. apply load_out. lia.
Qed.

Lemma ring_block_overrun_witness :
  ∃ r, ring_buffer_init 2 12 = Ret r ∧
    (∀ i p q, data r !! i = Some p → data r !! S i = Some q → q - p = 8) ∧
    ∃ p, last (data r) = Some p ∧
      (∀ k, 0 ≤ k < 8 → ∃ b, load (blob r) (p + k) = Ret b) ∧
      (8 < 12 → load (blob r) (p + 12 - 1) = Undef).
Proof. apply (ring_block_overrun 2 12 (replicate 32 0)); [lia|lia|reflexivity]. Defined.
