(* ===== verification/CmdBuffer.v ===== *)
(** * trivial/cmd-buffer.c: a ring of commands

    A ring of CMD_BUFFER_MAX_LEN slots with a read and a write index.  A slot is
    a pointer, 0 when null.  The ring's length is a parameter [N] of the model;
    the program is built with 2.  [destroy] says whether a destructor was given;
    the pointers handed to it are part of the result of [cmd_buffer_offer]. *)
From Stdlib Require Import ZArith Lia.
From stdpp Require Import base tactics numbers list.
From S2P Require Import Prelude.

Open Scope Z_scope.

(** ** The code *)
Definition CMD_BUFFER_MAX_LEN : Z := 2.

Record cmd_buffer_t := CmdBuffer { cmds : list Z; nr : Z; nw : Z }.

Section ring.
Context (N : Z).

Definition cmd_buffer_new : cmd_buffer_t := CmdBuffer (replicate (Z.to_nat N) 0) 0 0.

(** if(++x == N) x = 0 *)
Definition MOVE_FORWARD (x : Z) : Z := if decide (x + 1 = N) then 0 else x + 1.

Definition cmd_buffer_offer (destroy : bool) (self : cmd_buffer_t) (cmd : Z) : outcome (cmd_buffer_t * list Z) :=
  old ← load (cmds self) (nw self);
  let destroyed := if destroy && bool_decide (old ≠ 0) then [old] else [] in
  cs ← store (cmds self) (nw self) cmd;
  let nw' := MOVE_FORWARD (nw self) in
  let nr' := if decide (nr self = nw') then MOVE_FORWARD (nr self) else nr self in
  Ret (CmdBuffer cs nr' nw', destroyed).

Definition cmd_buffer_poll (self : cmd_buffer_t) : outcome (cmd_buffer_t * Z) :=
  cmd ← load (cmds self) (nr self);
  if decide (cmd = 0) then Ret (self, 0)
  else
    cs ← store (cmds self) (nr self) 0;
    Ret (CmdBuffer cs (MOVE_FORWARD (nr self)) (nw self), cmd).

(** The client's calls, with what they hand out: polled and destroyed. *)
Inductive op := Offer (cmd : Z) | Poll.

Definition step (destroy : bool) (self : cmd_buffer_t) (o : op) : outcome (cmd_buffer_t * list Z * list Z) :=
  match o with
  | Offer cmd => '(self, d) ← cmd_buffer_offer destroy self cmd; Ret (self, [], d)
  | Poll => '(self, c) ← cmd_buffer_poll self; Ret (self, [c], [])
  end.

Fixpoint run (destroy : bool) (self : cmd_buffer_t) (ops : list op) : outcome (cmd_buffer_t * list Z * list Z) :=
  match ops with
  | [] => Ret (self, [], [])
  | o :: ops =>
      '(self, p1, d1) ← step destroy self o;
      '(self, p2, d2) ← run destroy self ops;
      Ret (self, p1 ++ p2, d1 ++ d2)
  end.

(** main's second loop: polls until a null pointer, at most [fuel] times. *)
Definition drain_step (s : cmd_buffer_t * list Z) : outcome (cmd_buffer_t * list Z + list Z) :=
  let '(self, out) := s in
  '(self, p) ← cmd_buffer_poll self;
  if decide (p = 0) then Ret (inr out) else Ret (inl (self, out ++ [p])).
End ring.

(** The program: the commands are the addresses of 1, 2, 3, 4, 5. *)
Definition main : outcome (list Z) :=
  '(b, _, _) ← run CMD_BUFFER_MAX_LEN false (cmd_buffer_new CMD_BUFFER_MAX_LEN)
    [Offer 1; Offer 2; Offer 3; Offer 4; Offer 5];
  while_fuel 3 (drain_step CMD_BUFFER_MAX_LEN) (b, []).

(** It prints the two commands it kept, the newer first. *)
Example cmd_main_output : main = Ret [5; 4].
Proof. reflexivity. Qed.

(** ** A valid ring *)
Definition valid (N : Z) (b : cmd_buffer_t) : Prop :=
  zlen (cmds b) = N ∧ 0 ≤ nr b < N ∧ 0 ≤ nw b < N.

Lemma MOVE_FORWARD_range N x : 0 ≤ x < N → 0 ≤ MOVE_FORWARD N x < N.
Proof. intros. unfold MOVE_FORWARD. case_decide; lia. Qed.

Lemma new_valid N : 0 < N → valid N (cmd_buffer_new N).
Proof. intros. unfold valid, cmd_buffer_new. cbn [cmds nr nw]. rewrite length_replicate. lia. Qed.

(** Commands the ring still owns. *)
Definition owned (b : cmd_buffer_t) : list Z := filter (λ c, c ≠ 0) (cmds b).

(** Both calls are defined on a valid ring and leave it valid; nothing is lost
    or handed out twice when a destructor is given. *)
Lemma offer_valid N b c :
  valid N b → c ≠ 0 →
  ∃ b' d, cmd_buffer_offer N true b c = Ret (b', d) ∧ valid N b' ∧ c :: owned b ≡ₚ d ++ owned b'.
Proof.
  intros (Hl & Hr & Hw) Hc. destruct b as [cs r w]. cbn [cmds nr nw] in *.
  destruct (split_at cs w) as (a & old & z & -> & ->); [lia|]. unfold cmd_buffer_offer. cbn [cmds nr nw].
  rewrite load_app by done. cbind. rewrite store_app by done. cbind. eexists _, _. split; [done|]. split.
  { unfold valid. cbn [cmds nr nw]. split; [revert Hl; len|]. split; [case_decide|]; auto using MOVE_FORWARD_range. }
  unfold owned. cbn [cmds]. rewrite !filter_app, !filter_cons, (decide_True (P := (c ≠ 0))) by done.
  cbn [andb]. case_bool_decide; case_decide; try done; cbn [app]; solve_Permutation.
Qed.

Lemma poll_valid N b :
  valid N b →
  ∃ b' c, cmd_buffer_poll N b = Ret (b', c) ∧ valid N b' ∧ owned b ≡ₚ filter (λ c, c ≠ 0) [c] ++ owned b'.
Proof.
  intros (Hl & Hr & Hw). destruct b as [cs r w]. cbn [cmds nr nw] in *.
  destruct (split_at cs r) as (a & x & z & -> & ->); [lia|]. unfold cmd_buffer_poll. cbn [cmds nr nw].
  rewrite load_app by done. cbind. case_decide as Hx; [eexists _, _; split; [done|]; split; done|].
  rewrite store_app by done. cbind. eexists _, _. split; [done|]. split.
  { unfold valid. cbn [cmds nr nw]. split; [revert Hl; len|]. auto using MOVE_FORWARD_range. }
  unfold owned. cbn [cmds]. rewrite !filter_app, !filter_cons, filter_nil, (decide_True (P := (x ≠ 0))) by done.
  rewrite (decide_False (P := (0 ≠ 0))) by lia. case_decide; [|done]. cbn [app]. solve_Permutation.
Qed.

Lemma run_owned N ops b :
  valid N b → Forall (λ o, o ≠ Offer 0) ops →
  ∃ b' ps ds, run N true b ops = Ret (b', ps, ds) ∧ valid N b' ∧
    owned b ++ omap (λ o, match o with Offer c => Some c | Poll => None end) ops ≡ₚ
      filter (λ c, c ≠ 0) ps ++ ds ++ owned b'.
Proof.
  revert b. induction ops as [|o ops IH]; intros b Hv Ho; cbn [run omap list_omap].
  { exists b, [], []. by rewrite app_nil_r. }
  apply Forall_cons in Ho as [Hc Ho]. destruct o as [c|]; cbn [step].
  - destruct (offer_valid N b c Hv) as (b1 & d & -> & Hv1 & Hp); [congruence|]. cbind.
    destruct (IH b1 Hv1 Ho) as (b2 & ps & ds & -> & Hv2 & Hp2). cbind.
    exists b2, ps, (d ++ ds). split; [done|]. split; [done|]. cbn [app].
    rewrite <- Permutation_middle, app_comm_cons, Hp, <- !app_assoc, Hp2. solve_Permutation.
  - destruct (poll_valid N b Hv) as (b1 & c & -> & Hv1 & Hp). cbind.
    destruct (IH b1 Hv1 Ho) as (b2 & ps & ds & -> & Hv2 & Hp2). cbind.
    exists b2, (c :: ps), ds. split; [done|]. split; [done|].
    change (c :: ps) with ([c] ++ ps). rewrite filter_app, Hp, <- !app_assoc, Hp2. done.
Qed.

(** ** The ring from its read index on *)
Section slots.
Context (N : Z) (HN : 0 < N).

(** The index [i] places after [r]. *)
Definition at_ (r i : Z) : Z := if decide (r + i < N) then r + i else r + i - N.

(** Read from [nr], the slots hold [r]; [nw] is [d] places further. *)
Definition slots (b : cmd_buffer_t) (r : list Z) (d : Z) : Prop :=
  valid N b ∧ zlen r = N ∧ 0 ≤ d < N ∧ nw b = at_ (nr b) d ∧
  ∀ i, 0 ≤ i < N → cmds b !! Z.to_nat (at_ (nr b) i) = r !! Z.to_nat i.

Lemma at_range r i : 0 ≤ r < N → 0 ≤ i < N → 0 ≤ at_ r i < N.
Proof. intros. unfold at_. case_decide; lia. Qed.

Lemma at_inj r i j : 0 ≤ r < N → 0 ≤ i < N → 0 ≤ j < N → at_ r i = at_ r j → i = j.
Proof. intros ? ? ?. unfold at_. repeat case_decide; lia. Qed.

Lemma at_forward r i : 0 ≤ r < N → 0 ≤ i < N - 1 → at_ (MOVE_FORWARD N r) i = at_ r (i + 1).
Proof. intros. unfold at_, MOVE_FORWARD. repeat case_decide; lia. Qed.

Lemma at_last r : 0 ≤ r < N → at_ (MOVE_FORWARD N r) (N - 1) = r.
Proof. intros. unfold at_, MOVE_FORWARD. repeat case_decide; lia. Qed.

Lemma forward_at r i : 0 ≤ r < N → 0 ≤ i < N - 1 → MOVE_FORWARD N (at_ r i) = at_ r (i + 1).
Proof. intros. unfold at_, MOVE_FORWARD. repeat case_decide; lia. Qed.

Lemma at_0 r : 0 ≤ r < N → at_ r 0 = r.
Proof. intros. unfold at_. case_decide; lia. Qed.

(** Reading from the next index: the first slot becomes the last. *)
Lemma slots_rotate b x r d nr' nw' cs :
  valid N b → zlen (x :: r) = N → zlen cs = N → nr' = MOVE_FORWARD N (nr b) → 0 ≤ d < N → nw' = at_ nr' d →
  (∀ i, 0 ≤ i < N → cs !! Z.to_nat (at_ (nr b) i) = (x :: r) !! Z.to_nat i) →
  slots (CmdBuffer cs nr' nw') (r ++ [x]) d.
Proof using HN.
  intros (Hl & Hr & Hw) Hlr Hlc -> Hd -> Hs. pose proof (MOVE_FORWARD_range N (nr b) Hr).
  split; [split_and!; cbn [cmds nr nw]; try lia; by apply at_range|].
  split; [revert Hlr; len|]. split; [done|]. split; [done|]. cbn [cmds nr]. intros i Hi.
  destruct (decide (i < N - 1)).
  - rewrite at_forward, Hs by lia. rewrite lookup_app_l by (revert Hlr; len).
    replace (Z.to_nat (i + 1)) with (S (Z.to_nat i)) by lia. done.
  - replace i with (N - 1) by lia. rewrite at_last by done. specialize (Hs 0 ltac:(lia)). rewrite at_0 in Hs by done.
    rewrite Hs. symmetry. apply list_lookup_middle. revert Hlr. len.
Qed.

Lemma store_slots b r d i v :
  slots b r d → 0 ≤ i < N →
  ∃ cs, store (cmds b) (at_ (nr b) i) v = Ret cs ∧ zlen cs = N ∧
    ∀ j, 0 ≤ j < N → cs !! Z.to_nat (at_ (nr b) j) = <[Z.to_nat i := v]> r !! Z.to_nat j.
Proof using HN.
  intros ((Hl & Hr & Hw) & Hlr & Hd & Hnw & Hs) Hi. pose proof (at_range (nr b) i Hr Hi).
  eexists. split; [apply store_in; lia|]. split; [rewrite length_insert; lia|]. intros j Hj.
  pose proof (at_range (nr b) j Hr Hj).
  destruct (decide (i = j)) as [-> |Hne].
  - rewrite !list_lookup_insert_eq by lia. done.
  - rewrite !list_lookup_insert_ne; [by apply Hs|lia|]. intros E. apply Hne, (at_inj (nr b)); [done..|lia].
Qed.

Lemma poll_slots b x r d :
  slots b (x :: r) d → x ≠ 0 → 0 < d → 
  ∃ b', cmd_buffer_poll N b = Ret (b', x) ∧ slots b' (r ++ [0]) (d - 1).
Proof using HN.
  intros Hb Hx Hd. pose proof Hb as (Hv & Hlr & Hd' & Hnw & Hs). pose proof Hv as (Hl & Hr & Hw).
  destruct (store_slots b (x :: r) d 0 0 Hb ltac:(lia)) as (cs & Hst & Hlc & Hcs). rewrite at_0 in Hst by done.
  unfold cmd_buffer_poll. pose proof (Hs 0 ltac:(lia)) as H0. rewrite at_0 in H0 by done.
  replace (load (cmds b) (nr b)) with (Ret (A := Z) x) by (symmetry; apply load_Ret; split; [lia|done]). cbind.
  rewrite decide_False by done. rewrite Hst. cbind. eexists. split; [done|].
  apply (slots_rotate b 0 r); [done|revert Hlr; len|done|done|lia| |done].
  rewrite Hnw, at_forward by lia. f_equal. lia.
Qed.

Lemma poll_slots_null b r d :
  slots b (0 :: r) d → cmd_buffer_poll N b = Ret (b, 0).
Proof using HN.
  intros ((Hl & Hr & Hw) & Hlr & Hd & Hnw & Hs). unfold cmd_buffer_poll.
  specialize (Hs 0 ltac:(lia)). rewrite at_0 in Hs by done.
  replace (load (cmds b) (nr b)) with (Ret (A := Z) 0) by (symmetry; apply load_Ret; split; [lia|done]). done.
Qed.

(** An offer with room, and the one that makes the indices meet. *)
Lemma offer_slots b r d c :
  slots b r d → d < N - 1 →
  ∃ b' ds, cmd_buffer_offer N false b c = Ret (b', ds) ∧ ds = [] ∧ slots b' (<[Z.to_nat d := c]> r) (d + 1).
Proof using HN.
  intros Hb Hd. pose proof Hb as (Hv & Hlr & Hd' & Hnw & Hs). pose proof Hv as (Hl & Hr & Hw).
  destruct (store_slots b r d d c Hb Hd') as (cs & Hst & Hlc & Hcs). rewrite <- Hnw in Hst.
  unfold cmd_buffer_offer. destruct (load_in (cmds b) (nw b)) as (old & -> & _); [lia|]. cbind.
  rewrite Hst. cbind. rewrite Hnw, forward_at by lia.
  rewrite decide_False by (unfold at_; case_decide; lia). eexists _, _. split; [done|]. split; [done|].
  split; [split_and!; cbn [cmds nr nw]; try lia; apply at_range; lia|].
  split; [rewrite length_insert; lia|]. split; [lia|]. done.
Qed.

Lemma offer_slots_full b x r c :
  slots b (x :: r) (N - 1) → 1 < N →
  ∃ b' ds, cmd_buffer_offer N false b c = Ret (b', ds) ∧ ds = [] ∧
    slots b' (<[Z.to_nat (N - 2) := c]> r ++ [x]) (N - 1).
Proof using HN.
  intros Hb HN1. pose proof Hb as (Hv & Hlr & Hd' & Hnw & Hs). pose proof Hv as (Hl & Hr & Hw).
  destruct (store_slots b (x :: r) (N - 1) (N - 1) c Hb Hd') as (cs & Hst & Hlc & Hcs). rewrite <- Hnw in Hst.
  unfold cmd_buffer_offer. destruct (load_in (cmds b) (nw b)) as (old & -> & _); [lia|]. cbind.
  rewrite Hst. cbind. assert (nr b = MOVE_FORWARD N (nw b)) as Hfw.
  { rewrite Hnw. unfold at_, MOVE_FORWARD. repeat case_decide; lia. }
  rewrite (decide_True (P := (nr b = _))) by done. eexists _, _. split; [done|]. split; [done|].
  apply (slots_rotate b x (<[Z.to_nat (N - 2) := c]> r)); [done|revert Hlr; len|done|done|lia| |].
  - rewrite at_last by done. done.
  - intros i Hi. rewrite Hcs by done. replace (Z.to_nat (N - 1)) with (S (Z.to_nat (N - 2))) by lia. done.
Qed.
End slots.

(** ** The queue a client expects *)

(** A bounded queue: [None] once more than [n] commands are pending. *)
Fixpoint queue_run (n : nat) (q : list Z) (ops : list op) : option (list Z * list Z) :=
  match ops with
  | [] => Some (q, [])
  | Offer c :: ops => if decide (length q < n)%nat then queue_run n (q ++ [c]) ops else None
  | Poll :: ops =>
      match q with
      | [] => '(q', out) ← queue_run n [] ops; Some (q', 0 :: out)
      | x :: q => '(q', out) ← queue_run n q ops; Some (q', x :: out)
      end
  end.

Section fifo.
Context (N : Z) (HN : 0 < N).

Definition fifo (q : list Z) (b : cmd_buffer_t) : Prop :=
  Forall (λ c, c ≠ 0) q ∧ slots N b (q ++ replicate (Z.to_nat N - length q) 0) (zlen q).

Lemma fifo_new : fifo [] (cmd_buffer_new N).
Proof using HN.
  split; [constructor|]. cbn [app length]. rewrite Nat.sub_0_r. change (Z.of_nat 0) with 0.
  split; [by apply new_valid|]. split; [rewrite length_replicate; lia|]. split; [lia|].
  split; [symmetry; by apply at_0|]. intros i Hi. cbn [cmd_buffer_new cmds nr].
  pose proof (at_range N 0 i ltac:(lia) Hi). rewrite !lookup_replicate_2 by lia. done.
Qed.

Lemma fifo_offer q b c :
  fifo q b → c ≠ 0 → zlen q < N - 1 →
  ∃ b', cmd_buffer_offer N false b c = Ret (b', []) ∧ fifo (q ++ [c]) b'.
Proof using HN.
  intros [Hq Hb] Hc Hl. destruct (offer_slots N HN b _ _ c Hb Hl) as (b' & ds & -> & -> & Hb').
  exists b'. split; [done|]. split; [apply Forall_app; split; [done|by constructor]|].
  rewrite Nat2Z.id in Hb'. destruct (Z.to_nat N - length q)%nat as [|k] eqn:Ek; [lia|].
  rewrite insert_app_r_alt, Nat.sub_diag in Hb' by lia. cbn [replicate insert list_insert] in Hb'.
  rewrite <- app_assoc, length_app. cbn [app length]. replace (Z.to_nat N - (length q + 1))%nat with k by lia.
  replace (Z.of_nat (length q + 1)) with (zlen q + 1) by lia. done.
Qed.

Lemma fifo_poll q b :
  fifo q b →
  match q with
  | [] => cmd_buffer_poll N b = Ret (b, 0)
  | x :: q => ∃ b', cmd_buffer_poll N b = Ret (b', x) ∧ fifo q b'
  end.
Proof using HN.
  intros [Hq Hb]. destruct q as [|x q].
  - cbn [app length] in Hb. rewrite Nat.sub_0_r in Hb. destruct (Z.to_nat N) as [|k] eqn:Ek; [lia|].
    by apply (poll_slots_null N HN b (replicate k 0) 0).
  - apply Forall_cons in Hq as [Hx Hq]. cbn [app] in Hb.
    pose proof Hb as (_ & Hlr & Hd & _).
    destruct (poll_slots N HN b x _ _ Hb Hx ltac:(cbn; lia)) as (b' & -> & Hb'). exists b'. split; [done|]. split; [done|].
    rewrite <- app_assoc, <- replicate_cons_app in Hb'. change (0 :: replicate ?k 0) with (replicate (S k) 0) in Hb'.
    cbn [length] in *.
    replace (Z.of_nat (S (length q)) - 1) with (zlen q) in Hb' by lia.
    replace (S (Z.to_nat N - S (length q))) with (Z.to_nat N - length q)%nat in Hb' by lia. done.
Qed.

Lemma fifo_run ops q b q' out :
  fifo q b → Forall (λ o, o ≠ Offer 0) ops → queue_run (Z.to_nat (N - 1)) q ops = Some (q', out) →
  ∃ b', run N false b ops = Ret (b', out, []) ∧ fifo q' b'.
Proof using HN.
  revert q b out. induction ops as [|o ops IH]; intros q b out Hb Ho Hrun; cbn [run queue_run] in *.
  { simplify_eq. eauto. }
  apply Forall_cons in Ho as [Hc Ho]. destruct o as [c|]; cbn [step].
  - case_decide; [|done]. destruct (fifo_offer q b c Hb) as (b1 & -> & Hb1); [congruence|lia|]. cbind.
    destruct (IH _ _ _ Hb1 Ho Hrun) as (b2 & -> & Hb2). cbind. eauto.
  - pose proof (fifo_poll q b Hb) as Hp. destruct q as [|x q].
    + rewrite Hp. cbind. destruct (queue_run _ [] ops) as [[q1 out1]|] eqn:E; simplify_eq/=.
      destruct (IH _ _ _ Hb Ho E) as (b2 & -> & Hb2). cbind. eauto.
    + destruct Hp as (b1 & -> & Hb1). cbind. destruct (queue_run _ q ops) as [[q1 out1]|] eqn:E; simplify_eq/=.
      destruct (IH _ _ _ Hb1 Ho E) as (b2 & -> & Hb2). cbind. eauto.
Qed.

Lemma poll_last b x r :
  slots N b (x :: r) 0 → x ≠ 0 → ∃ b', cmd_buffer_poll N b = Ret (b', x).
Proof using HN.
  intros ((Hl & Hr & Hw) & Hlr & Hd & Hnw & Hs) Hx. unfold cmd_buffer_poll.
  specialize (Hs 0 ltac:(lia)). rewrite at_0 in Hs by done.
  replace (load (cmds b) (nr b)) with (Ret (A := Z) x) by (symmetry; apply load_Ret; split; [lia|done]). cbind.
  rewrite decide_False by done. rewrite store_in by lia. cbind. eauto.
Qed.

(** Polls read the slots in order, one place further each. *)
Lemma poll_all q x r b :
  slots N b (q ++ x :: r) (zlen q) → Forall (λ c, c ≠ 0) q → x ≠ 0 →
  ∃ b', run N false b (replicate (S (length q)) Poll) = Ret (b', q ++ [x], []).
Proof using HN.
  revert r b. induction q as [|y q IH]; intros r b Hb Hq Hx.
  - destruct (poll_last b x r Hb Hx) as [b' E]. exists b'. cbn [length replicate run step]. by rewrite E.
  - apply Forall_cons in Hq as [Hy Hq].
    destruct (poll_slots N HN b y (q ++ x :: r) _ Hb Hy ltac:(cbn; lia)) as (b1 & E & Hb1).
    rewrite <- app_assoc in Hb1. cbn [app length] in Hb1. replace (Z.of_nat (S (length q)) - 1) with (zlen q) in Hb1 by lia.
    destruct (IH (r ++ [0]) b1 Hb1 Hq Hx) as [b' E']. exists b'. cbn [length].
    change (replicate (S (S (length q))) Poll) with (Poll :: replicate (S (length q)) Poll).
    cbn [run step]. rewrite E. cbind. rewrite E'. done.
Qed.
End fifo.

Lemma run_app N destroy b o1 o2 b1 p1 d1 :
  run N destroy b o1 = Ret (b1, p1, d1) →
  run N destroy b (o1 ++ o2) = ('(b2, p2, d2) ← run N destroy b1 o2; Ret (b2, p1 ++ p2, d1 ++ d2)).
Proof.
  revert b b1 p1 d1. induction o1 as [|o o1 IH]; intros b b1 p1 d1 H; cbn [app run] in *.
  { apply Ret_inj in H. simplify_eq. destruct (run N destroy b1 o2) as [[[b2 p2] d2]| |]; by cbind. }
  destruct (step N destroy b o) as [[[b' p'] d']| |]; cbn [mbind outcome_bind] in *; [|done..].
  destruct (run N destroy b' o1) as [[[b'' p''] d'']| |] eqn:E; cbn [mbind outcome_bind] in *; [|done..].
  apply Ret_inj in H. simplify_eq. rewrite (IH _ _ _ _ E).
  destruct (run N destroy b1 o2) as [[[b2 p2] d2]| |]; cbind; [|done..]. by rewrite <- !app_assoc.
Qed.

Lemma queue_offers n q cs :
  (length q + length cs ≤ n)%nat → queue_run n q (map Offer cs) = Some (q ++ cs, []).
Proof.
  revert q. induction cs as [|c cs IH]; intros q Hl; cbn [map queue_run]; [by rewrite app_nil_r|].
  cbn [length] in Hl. rewrite decide_True by lia. rewrite IH by len. by rewrite <- app_assoc.
Qed.

(** ** Properties *)

(** As long as no more than [N - 1] commands are pending, the ring is a
    first-in first-out queue: any sequence of offers and polls hands out what
    the queue hands out, null when it is empty, and destroys nothing. *)
Theorem cmd_buffer_fifo N ops q out :
  0 < N → Forall (λ o, o ≠ Offer 0) ops → queue_run (Z.to_nat (N - 1)) [] ops = Some (q, out) →
  ∃ b, run N false (cmd_buffer_new N) ops = Ret (b, out, []).
Proof.
  intros HN Ho Hrun. destruct (fifo_run N HN ops [] _ q out (fifo_new N HN) Ho Hrun) as (b & E & _). eauto.
Qed.

Lemma cmd_buffer_fifo_witness :
  ∃ b, run 3 false (cmd_buffer_new 3) [Offer 7; Offer 8; Poll; Offer 9; Poll; Poll; Poll] = Ret (b, [7; 8; 9; 0], []).
Proof.
  apply (cmd_buffer_fifo 3 [Offer 7; Offer 8; Poll; Offer 9; Poll; Poll; Poll] [] [7; 8; 9; 0]);
    [lia|by repeat constructor|reflexivity].
Defined.

(** One command more and the order is lost: after [N] offers into an empty
    ring, [N] polls hand out the second to the last and then the first. *)
Theorem cmd_buffer_overflow_reorders N x q c :
  Forall (λ c, c ≠ 0) (x :: q) → c ≠ 0 → N = zlen (x :: q ++ [c]) →
  ∃ b, run N false (cmd_buffer_new N) (map Offer (x :: q ++ [c]) ++ replicate (S (S (length q))) Poll) =
    Ret (b, q ++ [c; x], []).
Proof.
  intros Hq Hc HNl. assert (0 < N) as HN by (revert HNl; len).
  assert (Forall (λ o, o ≠ Offer 0) (map Offer (x :: q))) as Ho.
  { apply Forall_fmap. eapply Forall_impl; [exact Hq|]. intros y Hy. simpl. congruence. }
  destruct (fifo_run N HN (map Offer (x :: q)) [] _ (x :: q) [] (fifo_new N HN) Ho) as (b1 & E1 & [_ Hb1]).
  { apply (queue_offers _ [] (x :: q)). revert HNl. len. }
  change (x :: q ++ [c]) with ((x :: q) ++ [c]). rewrite map_app, <- app_assoc. rewrite (run_app _ _ _ _ _ _ _ _ E1).
  replace (Z.to_nat N - length (x :: q))%nat with 1%nat in Hb1 by (revert HNl; len).
  replace (zlen (x :: q)) with (N - 1) in Hb1 by (revert HNl; len). cbn [replicate app] in Hb1.
  destruct (offer_slots_full N HN b1 x (q ++ [0]) c Hb1 ltac:(revert HNl; len)) as (b2 & ds & E2 & -> & Hb2).
  replace (Z.to_nat (N - 2)) with (length q) in Hb2 by (revert HNl; len).
  rewrite insert_app_r_alt, Nat.sub_diag in Hb2 by lia. cbn [insert list_insert] in Hb2.
  apply Forall_cons in Hq as [Hx Hq].
  destruct (poll_all N HN (q ++ [c]) x [] b2) as [b3 E3].
  { replace (zlen (q ++ [c])) with (N - 1) by (revert HNl; len). done. }
  { apply Forall_app. split; [done|by constructor]. }
  { done. }
  exists b3. cbn [map app run step]. rewrite E2. cbind.
  replace (S (S (length q))) with (S (length (q ++ [c]))) by len. rewrite E3. cbind. by rewrite <- app_assoc.
Qed.

Lemma cmd_buffer_overflow_reorders_witness :
  ∃ b, run 2 false (cmd_buffer_new 2) [Offer 5; Offer 6; Poll; Poll] = Ret (b, [6; 5], []).
Proof. apply (cmd_buffer_overflow_reorders 2 5 [] 6); [by repeat constructor|done|done]. Defined.

(** With a destructor no command is lost and none is handed out twice:
    after any offers and polls, the commands offered are exactly those polled,
    those destroyed and those still in the ring. *)
Theorem cmd_buffer_ownership N ops :
  0 < N → Forall (λ o, o ≠ Offer 0) ops →
  ∃ b ps ds, run N true (cmd_buffer_new N) ops = Ret (b, ps, ds) ∧ valid N b ∧
    omap (λ o, match o with Offer c => Some c | Poll => None end) ops ≡ₚ
      filter (λ c, c ≠ 0) ps ++ ds ++ filter (λ c, c ≠ 0) (cmds b).
Proof.
  intros HN Ho. destruct (run_owned N ops _ (new_valid N HN) Ho) as (b & ps & ds & E & Hv & Hp).
  exists b, ps, ds. split; [done|]. split; [done|]. rewrite <- Hp. unfold owned, cmd_buffer_new. cbn [cmds].
  assert (∀ k, filter (λ c, c ≠ 0) (replicate k 0) = []) as ->; [|done].
  intros k. induction k as [|k IH]; cbn [replicate]; [done|]. rewrite filter_cons, decide_False by lia. done.
Qed.

Lemma cmd_buffer_ownership_witness :
  ∃ b ps ds, run 2 true (cmd_buffer_new 2) [Offer 5; Offer 6; Offer 7; Poll] = Ret (b, ps, ds) ∧ valid 2 b ∧
    [5; 6; 7] ≡ₚ filter (λ c, c ≠ 0) ps ++ ds ++ filter (λ c, c ≠ 0) (cmds b).
Proof. apply (cmd_buffer_ownership 2 [Offer 5; Offer 6; Offer 7; Poll]); [lia|by repeat constructor]. Defined.
