(* ===== verification/Bits.v ===== *)
(** * Bit tricks: builtin/ctz.c, builtin/popcount.c, trivial/zero-byte.c

    The counting of trailing zeros and of set bits, and the tests for a zero
    byte, on 32-bit words kept in [Z] with their wrap-around. *)
From Stdlib Require Import ZArith Lia.
From stdpp Require Import base tactics numbers list.
From S2P Require Import Prelude.

Open Scope Z_scope.

(** ** The code *)

(** builtin/ctz.c *)
Definition ctz (x : Z) : Z :=
  if decide (x ≠ 0) then
    let x := Z.land x (u32 (- x)) in
    let c := 31 in
    let c := if decide (Z.land x 0x0000ffff ≠ 0) then c - 16 else c in
    let c := if decide (Z.land x 0x00ff00ff ≠ 0) then c - 8 else c in
    let c := if decide (Z.land x 0x0f0f0f0f ≠ 0) then c - 4 else c in
    let c := if decide (Z.land x 0x33333333 ≠ 0) then c - 2 else c in
    let c := if decide (Z.land x 0x55555555 ≠ 0) then c - 1 else c in
    c
  else u32 (-1).

(** The values logged as stages 1 to 6, and the result. *)
Definition ctz2_stages (x : Z) : list Z :=
  let x := u32 (x - 1) in
  let x2 := u32 (x - Z.land (Z.shiftr x 1) 0x55555555) in
  let x3 := u32 (Z.land x2 0x33333333 + Z.land (Z.shiftr x2 2) 0x33333333) in
  let x4 := Z.land (u32 (x3 + Z.shiftr x3 4)) 0x0f0f0f0f in
  let x5 := u32 (x4 + Z.shiftr x4 8) in
  let x6 := u32 (x5 + Z.shiftr x5 16) in
  [x; x2; x3; x4; x5; x6].

Definition ctz2 (x : Z) : Z :=
  if decide (x ≠ 0) then Z.land (List.last (ctz2_stages x) 0) 0x1f else u32 (-1).

(** builtin/popcount.c *)
Definition count_step (s : Z * Z) : outcome (Z * Z + Z) :=
  let '(u, count) := s in
  if decide (u ≠ 0) then
    count ← int_result (count + Z.land u 1);
    Ret (inl (Z.shiftr u 1, count))
  else Ret (inr count).

Definition count_set_bits (n : Z) : outcome Z := while_fuel 33 count_step (u32 n, 0).

(** trivial/zero-byte.c; [_p[i]] are the bytes of the word in memory. *)
Definition byte_of (x i : Z) : Z := x / 256 ^ i mod 256.

Definition HAS_ZERO_BYTE1 (x : Z) : bool :=
  negb (bool_decide (byte_of x 0 ≠ 0) && bool_decide (byte_of x 1 ≠ 0) &&
        bool_decide (byte_of x 2 ≠ 0) && bool_decide (byte_of x 3 ≠ 0)).

Definition HAS_ZERO_BYTE2 (x : Z) : bool :=
  negb (bool_decide (Z.land x 0xff ≠ 0) && bool_decide (Z.land x 0xff00 ≠ 0) &&
        bool_decide (Z.land x 0xff0000 ≠ 0) && bool_decide (Z.land x 0xff000000 ≠ 0)).

Definition HAS_ZERO_BYTE3 (x : Z) : bool :=
  bool_decide (u32 (Z.lnot (Z.lor (u32 (Z.land x 0x7f7f7f7f + 0x7f7f7f7f)) 0x7f7f7f7f)) ≠ 0).

(** ** Specifications *)

(** The number of set bits of a non-negative number. *)
Fixpoint pos_ones (p : positive) : Z :=
  match p with
  | xH => 1
  | xO p => pos_ones p
  | xI p => 1 + pos_ones p
  end.
Definition ones (x : Z) : Z := match x with Z.pos p => pos_ones p | _ => 0 end.

(** [k] is the number of trailing zeros of [x]. *)
Definition trailing (x k : Z) : Prop := 0 ≤ k ∧ ∃ m, x = (2 * m + 1) * 2 ^ k.

(** ** Trailing zeros *)
Lemma trailing_exists x : 0 < x → ∃ k, trailing x k.
Proof.
  intros Hx. destruct x as [|p|p]; [lia| |lia]. clear Hx. induction p as [p IH|p IH|].
  - exists 0. split; [lia|]. exists (Z.pos p). lia.
  - destruct IH as (k & Hk & m & Hm). exists (k + 1). split; [lia|]. exists m.
    rewrite Z.pow_add_r by lia. lia.
  - exists 0. split; [lia|]. exists 0. lia.
Qed.

Lemma trailing_bound x k : 0 < x < 4294967296 → trailing x k → 0 ≤ k < 32.
Proof.
  intros Hx (Hk & m & ->). split; [done|]. destruct (decide (k < 32)); [done|exfalso].
  assert (2 ^ 32 ≤ 2 ^ k) by (apply Z.pow_le_mono_r; lia). change (2 ^ 32) with 4294967296 in *.
  assert (0 < 2 * m + 1) by (apply (Z.mul_pos_cancel_r _ (2 ^ k)); lia).
  assert (1 * 2 ^ k ≤ (2 * m + 1) * 2 ^ k) by (apply Z.mul_le_mono_nonneg_r; lia). lia.
Qed.

Lemma land_odd a b : Z.land (2 * a + 1) (2 * b + 1) = 2 * Z.land a b + 1.
Proof.
  pose proof (land_split 1 1 a 1 b) as E. change (2 ^ 1) with 2 in E. change (Z.land 1 1) with 1 in E.
  rewrite !(Z.mul_comm 2). apply E; lia.
Qed.

Lemma land_opp x k : trailing x k → Z.land x (- x) = 2 ^ k.
Proof.
  intros (Hk & m & ->). replace (- ((2 * m + 1) * 2 ^ k)) with ((2 * Z.lnot m + 1) * 2 ^ k) by (unfold Z.lnot; lia).
  rewrite <- !Z.shiftl_mul_pow2, <- Z.shiftl_land, land_odd, Z.land_lnot_diag, Z.shiftl_mul_pow2 by lia. lia.
Qed.

(** x & -x is the lowest set bit. *)
Lemma lowest_bit x k : 0 < x < 4294967296 → trailing x k → Z.land x (u32 (- x)) = 2 ^ k.
Proof.
  intros Hx Ht. pose proof (trailing_bound x k Hx Ht) as Hk.
  pose proof (land_opp x k Ht) as E.
  unfold u32. change 4294967296 with (2 ^ 32). rewrite <- Z.land_ones, Z.land_assoc, E, Z.land_ones by lia.
  apply Z.mod_small. split; [lia|]. apply Z.pow_lt_mono_r; lia.
Qed.

Lemma ctz_powers : ∀ k, 0 ≤ k < 32 →
  let x := 2 ^ k in
  let c := 31 in
  let c := if decide (Z.land x 0x0000ffff ≠ 0) then c - 16 else c in
  let c := if decide (Z.land x 0x00ff00ff ≠ 0) then c - 8 else c in
  let c := if decide (Z.land x 0x0f0f0f0f ≠ 0) then c - 4 else c in
  let c := if decide (Z.land x 0x33333333 ≠ 0) then c - 2 else c in
  let c := if decide (Z.land x 0x55555555 ≠ 0) then c - 1 else c in
  c = k.
Proof. cbn zeta. apply (range_all _). by vm_compute. Qed.

Lemma ctz_trailing x k : 0 < x < 4294967296 → trailing x k → ctz x = k.
Proof.
  intros Hx Ht. unfold ctz. rewrite decide_True by lia. rewrite (lowest_bit x k) by done.
  apply ctz_powers. by apply (trailing_bound x).
Qed.

(** ** Set bits *)
Lemma ones_double x b : 0 ≤ x → b = 0 ∨ b = 1 → ones (2 * x + b) = ones x + b.
Proof.
  intros Hx [-> | ->]; (destruct x as [|p|p]; [done| |lia]).
  - change (2 * Z.pos p + 0) with (Z.pos p~0). change (ones (Z.pos p~0)) with (ones (Z.pos p)). lia.
  - change (2 * Z.pos p + 1) with (Z.pos p~1). change (ones (Z.pos p~1)) with (1 + ones (Z.pos p)). lia.
Qed.

Lemma ones_half x : 0 ≤ x → ones x = ones (x / 2) + x mod 2.
Proof. intros Hx. rewrite (Z.div_mod x 2) at 1 by lia. apply ones_double; mlia. Qed.

Lemma ones_nonneg x : 0 ≤ ones x.
Proof. destruct x as [|p|p]; [done| |done]. unfold ones. induction p; cbn [pos_ones]; lia. Qed.

(** The ones of the two parts of a number. *)
Lemma ones_split n hi lo : 0 ≤ n → 0 ≤ hi → 0 ≤ lo < 2 ^ n → ones (hi * 2 ^ n + lo) = ones hi + ones lo.
Proof.
  intros Hn. revert lo. pattern n. apply natlike_ind; [| |done]; clear n Hn.
  - intros lo Hhi Hlo. change (2 ^ 0) with 1 in *. replace lo with 0 by lia. rewrite Z.mul_1_r, Z.add_0_r. simpl. lia.
  - intros n Hn IH lo Hhi Hlo. rewrite Z.pow_succ_r in * by done.
    rewrite (ones_half lo), (ones_half (hi * (2 * 2 ^ n) + lo)) by nia.
    replace ((hi * (2 * 2 ^ n) + lo) / 2) with (hi * 2 ^ n + lo / 2) by mlia.
    replace ((hi * (2 * 2 ^ n) + lo) mod 2) with (lo mod 2) by mlia. rewrite IH by mlia. lia.
Qed.

Lemma count_loop fuel u count :
  0 ≤ u < 2 ^ Z.of_nat fuel → 0 ≤ count → count + Z.of_nat fuel ≤ 2147483647 →
  while_fuel (S fuel) count_step (u, count) = Ret (count + ones u).
Proof.
  revert u count. induction fuel as [|fuel IH]; intros u count Hu Hc Hs.
  - change (2 ^ Z.of_nat 0) with 1 in Hu. replace u with 0 by lia. rewrite Z.add_0_r. done.
  - destruct (decide (u = 0)) as [-> |Hne]; [by rewrite Z.add_0_r|].
    rewrite Nat2Z.inj_succ, Z.pow_succ_r in Hu by lia.
    assert (Z.land u 1 = u mod 2) as El by (change 1 with (2 ^ 1 - 1); by rewrite land_mask by lia).
    rewrite (while_fuel_inl _ _ _ (u / 2, count + u mod 2)).
    + rewrite IH by mlia. rewrite (ones_half u) by lia. f_equal. lia.
    + unfold count_step. rewrite decide_True by done. rewrite El, int_result_small by mlia. cbind.
      by rewrite Z.shiftr_div_pow2 by lia.
Qed.

(** ** Counting in parallel *)
Definition word (b3 b2 b1 b0 : Z) : Z := ((b3 * 256 + b2) * 256 + b1) * 256 + b0.

Lemma word_bytes x : 0 ≤ x < 4294967296 →
  x = word (byte_of x 3) (byte_of x 2) (byte_of x 1) (byte_of x 0) ∧
  is_byte (byte_of x 3) ∧ is_byte (byte_of x 2) ∧ is_byte (byte_of x 1) ∧ is_byte (byte_of x 0).
Proof.
  intros Hx. unfold byte_of, word, is_byte. change (256 ^ 3) with 16777216. change (256 ^ 2) with 65536.
  change (256 ^ 1) with 256. change (256 ^ 0) with 1. mlia.
Qed.

(** A shift and a mask that keeps every byte to itself. *)
Lemma shr_mask s m M hi lo :
  0 ≤ s ≤ 8 → is_byte lo → 0 ≤ hi → 0 ≤ m < 2 ^ (8 - s) →
  Z.land ((hi * 256 + lo) / 2 ^ s) (M * 256 + m) = Z.land (hi / 2 ^ s) M * 256 + Z.land (lo / 2 ^ s) m.
Proof.
  unfold is_byte. intros Hs Hlo Hhi Hm. assert (2 ^ (8 - s) * 2 ^ s = 256) as Hp by (rewrite <- Z.pow_add_r by lia; by replace (8 - s + s) with 8 by lia).
  assert (0 < 2 ^ s) as Hps by lia. assert (0 < 2 ^ (8 - s)) as Hps' by lia.
  set (P := 2 ^ s) in *. set (Q := 2 ^ (8 - s)) in *.
  pose proof (Z.div_mod hi P ltac:(lia)) as Hhd. pose proof (Z.mod_pos_bound hi P ltac:(lia)) as Hhm.
  assert ((hi * 256 + lo) / P = (hi / P) * 256 + (hi mod P * Q + lo / P)) as ->.
  { rewrite <- Hp, Z.mul_assoc, Z.div_add_l by lia. nia. }
  assert (0 ≤ lo / P < Q) as Hlq.
  { split; [apply Z.div_pos; lia|]. apply Z.div_lt_upper_bound; lia. }
  assert (0 ≤ hi mod P * Q + lo / P < 256) as Hb by nia.
  assert (m < 256) by nia.
  pose proof (land_split 8 (hi mod P * Q + lo / P) (hi / P) m M) as E. change (2 ^ 8) with 256 in E. rewrite E by lia.
  pose proof (land_split (8 - s) (lo / P) (hi mod P) m 0) as E2. fold Q in E2.
  rewrite Z.mul_0_l, Z.add_0_l, Z.land_0_r, Z.mul_0_l, Z.add_0_l in E2. rewrite E2 by lia. done.
Qed.

Lemma word_shr_mask s m b3 b2 b1 b0 :
  0 ≤ s ≤ 8 → is_byte b3 → is_byte b2 → is_byte b1 → is_byte b0 → 0 ≤ m < 2 ^ (8 - s) →
  Z.land (word b3 b2 b1 b0 / 2 ^ s) (word m m m m) =
  word (Z.land (b3 / 2 ^ s) m) (Z.land (b2 / 2 ^ s) m) (Z.land (b1 / 2 ^ s) m) (Z.land (b0 / 2 ^ s) m).
Proof.
  intros Hs H3 H2 H1 H0 Hm. unfold word. unfold is_byte in *. by rewrite !shr_mask by (unfold is_byte; lia).
Qed.

(** What happens to one byte in each of the first three stages. *)
Definition pairs_of (b : Z) : Z := b - Z.land (b / 2) 0x55.
Definition nibbles_of (b : Z) : Z := Z.land b 0x33 + Z.land (b / 4) 0x33.

Lemma byte_stages b : 0 ≤ b < 256 →
  0 ≤ Z.land (b / 2) 0x55 ≤ b ∧ is_byte (pairs_of b) ∧
  (let n := nibbles_of (pairs_of b) in
   Z.land (pairs_of b) 0x33 < 128 ∧ Z.land (pairs_of b / 4) 0x33 < 128 ∧ 0 ≤ Z.land (pairs_of b) 0x33 ∧ 0 ≤ Z.land (pairs_of b / 4) 0x33 ∧
   0 ≤ n mod 16 ≤ 4 ∧ 0 ≤ n / 16 ≤ 4 ∧ Z.land (16 * 0 + (n mod 16 + n / 16)) 0x0f = n mod 16 + n / 16 ∧
   n mod 16 + n / 16 = ones b).
Proof. revert b. cbn zeta. apply (range_all _). by vm_compute. Qed.

Lemma ones_word b3 b2 b1 b0 :
  is_byte b3 → is_byte b2 → is_byte b1 → is_byte b0 →
  ones (word b3 b2 b1 b0) = ones b3 + ones b2 + ones b1 + ones b0.
Proof.
  unfold is_byte, word. intros. change 256 with (2 ^ 8) in *.
  rewrite !ones_split by (eval_pow; lia). done.
Qed.

(** The last three stages, on bytes whose nibbles count at most 4 each. *)
Lemma nibble_sums n3 n2 n1 n0 :
  0 ≤ n3 mod 16 ≤ 4 ∧ 0 ≤ n3 / 16 ≤ 4 → 0 ≤ n2 mod 16 ≤ 4 ∧ 0 ≤ n2 / 16 ≤ 4 →
  0 ≤ n1 mod 16 ≤ 4 ∧ 0 ≤ n1 / 16 ≤ 4 → 0 ≤ n0 mod 16 ≤ 4 ∧ 0 ≤ n0 / 16 ≤ 4 →
  let x3 := word n3 n2 n1 n0 in
  let x4 := Z.land (u32 (x3 + Z.shiftr x3 4)) 0x0f0f0f0f in
  let x5 := u32 (x4 + Z.shiftr x4 8) in
  let x6 := u32 (x5 + Z.shiftr x5 16) in
  Z.land x6 0x1f = (n3 mod 16 + n3 / 16 + (n2 mod 16 + n2 / 16) + (n1 mod 16 + n1 / 16) + (n0 mod 16 + n0 / 16)) mod 32.
Proof.
  intros H3 H2 H1 H0. cbn zeta.
  pose proof (Z.div_mod n3 16 ltac:(lia)) as E3. pose proof (Z.div_mod n2 16 ltac:(lia)) as E2.
  pose proof (Z.div_mod n1 16 ltac:(lia)) as E1. pose proof (Z.div_mod n0 16 ltac:(lia)) as E0.
  revert H3 H2 H1 H0 E3 E2 E1 E0.
  generalize (n3 / 16) (n3 mod 16) (n2 / 16) (n2 mod 16) (n1 / 16) (n1 mod 16) (n0 / 16) (n0 mod 16).
  intros h3 l3 h2 l2 h1 l1 h0 l0 H3 H2 H1 H0 -> -> -> ->.
  rewrite Z.shiftr_div_pow2 by lia. change (2 ^ 4) with 16.
  replace (u32 (word _ _ _ _ + word _ _ _ _ / 16)) with (word (16 * h3 + (l3 + h3)) (16 * (h2 + l3) + (l2 + h2)) (16 * (h1 + l2) + (l1 + h1)) (16 * (h0 + l1) + (l0 + h0))).
  2: { replace (word (16 * h3 + l3) (16 * h2 + l2) (16 * h1 + l1) (16 * h0 + l0) / 16) with
         (((h3 * 256 + (16 * l3 + h2)) * 256 + (16 * l2 + h1)) * 256 + (16 * l1 + h0)) by (unfold word; mlia).
       rewrite u32_small; unfold word; lia. }
  change 0x0f0f0f0f with (word 15 15 15 15).
  pose proof (word_shr_mask 0 15 (16 * h3 + (l3 + h3)) (16 * (h2 + l3) + (l2 + h2)) (16 * (h1 + l2) + (l1 + h1)) (16 * (h0 + l1) + (l0 + h0))) as E.
  change (2 ^ 0) with 1 in E. rewrite !Z.div_1_r in E. rewrite E by (unfold is_byte; eval_pow; lia). clear E.
  assert (∀ k c, 0 ≤ c < 16 → Z.land (16 * k + c) 15 = c) as Em.
  { intros k c Hc. change 15 with (2 ^ 4 - 1). rewrite land_mask by lia. eval_pow. mlia. }
  rewrite !Em by lia. clear Em.
  assert (0 ≤ l3 + h3 ≤ 8) as K3 by lia. assert (0 ≤ l2 + h2 ≤ 8) as K2 by lia.
  assert (0 ≤ l1 + h1 ≤ 8) as K1 by lia. assert (0 ≤ l0 + h0 ≤ 8) as K0 by lia. clear H3 H2 H1 H0.
  revert K3 K2 K1 K0. generalize (l3 + h3) (l2 + h2) (l1 + h1) (l0 + h0). intros c3 c2 c1 c0 K3 K2 K1 K0.
  rewrite Z.shiftr_div_pow2 by lia. change (2 ^ 8) with 256.
  replace (u32 (word c3 c2 c1 c0 + word c3 c2 c1 c0 / 256)) with (word c3 (c3 + c2) (c2 + c1) (c1 + c0)).
  2: { replace (word c3 c2 c1 c0 / 256) with ((c3 * 256 + c2) * 256 + c1) by (unfold word; mlia).
       rewrite u32_small; unfold word; lia. }
  rewrite Z.shiftr_div_pow2 by lia. change (2 ^ 16) with 65536.
  replace (word c3 (c3 + c2) (c2 + c1) (c1 + c0) / 65536) with (c3 * 256 + (c3 + c2)) by (unfold word; mlia).
  rewrite u32_small by (unfold word; lia). change 31 with (2 ^ 5 - 1). rewrite land_mask by lia.
  unfold word. eval_pow. mlia.
Qed.

Lemma ctz2_stage b3 b2 b1 b0 x :
  is_byte b3 → is_byte b2 → is_byte b1 → is_byte b0 → u32 (x - 1) = word b3 b2 b1 b0 →
  Z.land (List.last (ctz2_stages x) 0) 0x1f = ones (word b3 b2 b1 b0) mod 32.
Proof.
  intros H3 H2 H1 H0 Hx. rewrite ones_word by done.
  unfold is_byte in *.
  destruct (byte_stages b3 H3) as (A3 & B3 & C3). destruct (byte_stages b2 H2) as (A2 & B2 & C2).
  destruct (byte_stages b1 H1) as (A1 & B1 & C1). destruct (byte_stages b0 H0) as (A0 & B0 & C0).
  unfold ctz2_stages. cbn [List.last]. rewrite Hx.
  rewrite (Z.shiftr_div_pow2 (word b3 b2 b1 b0)) by lia.
  change 0x55555555 with (word 0x55 0x55 0x55 0x55). rewrite word_shr_mask by (unfold is_byte; eval_pow; lia).
  change (2 ^ 1) with 2.
  replace (u32 (word b3 b2 b1 b0 - _)) with (word (pairs_of b3) (pairs_of b2) (pairs_of b1) (pairs_of b0)).
  2: { rewrite u32_small; unfold word, pairs_of; lia. }
  unfold is_byte in B3, B2, B1, B0.
  set (p3 := pairs_of b3) in *. set (p2 := pairs_of b2) in *. set (p1 := pairs_of b1) in *. set (p0 := pairs_of b0) in *.
  rewrite (Z.shiftr_div_pow2 (word p3 p2 p1 p0)) by lia.
  change 0x33333333 with (word 0x33 0x33 0x33 0x33). rewrite word_shr_mask by (unfold is_byte; eval_pow; lia).
  pose proof (word_shr_mask 0 0x33 p3 p2 p1 p0 ltac:(lia) B3 B2 B1 B0 ltac:(eval_pow; lia)) as E0.
  change (2 ^ 0) with 1 in E0. rewrite !Z.div_1_r in E0. rewrite E0. clear E0. change (2 ^ 2) with 4.
  cbn zeta in C3, C2, C1, C0.
  replace (u32 (word _ _ _ _ + word _ _ _ _)) with (word (nibbles_of p3) (nibbles_of p2) (nibbles_of p1) (nibbles_of p0)).
  2: { rewrite u32_small; unfold word, nibbles_of; lia. }
  set (n3 := nibbles_of p3) in *. set (n2 := nibbles_of p2) in *. set (n1 := nibbles_of p1) in *. set (n0 := nibbles_of p0) in *.
  destruct C3 as (_ & _ & _ & _ & C3a & C3b & C3c & <-). destruct C2 as (_ & _ & _ & _ & C2a & C2b & C2c & <-).
  destruct C1 as (_ & _ & _ & _ & C1a & C1b & C1c & <-). destruct C0 as (_ & _ & _ & _ & C0a & C0b & C0c & <-).
  apply nibble_sums; split; done.
Qed.

Lemma byte_ones b : 0 ≤ b < 256 → 0 ≤ ones b ≤ 8 ∧ (ones b = 8 → b = 255).
Proof. revert b. apply (range_all _). by vm_compute. Qed.

Lemma ones_bound x : 0 ≤ x < 4294967295 → ones x < 32.
Proof.
  intros Hx. destruct (word_bytes x ltac:(lia)) as (E & H3 & H2 & H1 & H0). pose proof Hx as Hx'. rewrite E in Hx'.
  rewrite E, ones_word by done. unfold is_byte in *. revert Hx'. unfold word.
  pose proof (byte_ones _ H3). pose proof (byte_ones _ H2). pose proof (byte_ones _ H1). pose proof (byte_ones _ H0). lia.
Qed.

Lemma ones_0 x : 0 ≤ x → ones x = 0 → x = 0.
Proof.
  destruct x as [|p|p]; [done| |lia]. intros _. assert (0 < pos_ones p); [|unfold ones; lia].
  induction p; cbn [pos_ones]; lia.
Qed.

(** Below a number with [k] trailing zeros, those bits are set instead. *)
Lemma ones_pred x k : 0 < x → trailing x k → ones (x - 1) = ones x - 1 + k.
Proof.
  intros Hx (Hk & m & ->). assert (0 ≤ m) as Hm.
  { assert (0 < 2 * m + 1) by (apply (Z.mul_pos_cancel_r _ (2 ^ k)); lia). lia. }
  replace ((2 * m + 1) * 2 ^ k - 1) with ((2 * m) * 2 ^ k + (2 ^ k - 1)) by lia.
  pose proof (ones_split k (2 * m) (2 ^ k - 1) Hk ltac:(lia) ltac:(lia)) as ->.
  pose proof (ones_split k (2 * m + 1) 0 Hk ltac:(lia) ltac:(lia)) as E. rewrite Z.add_0_r in E. rewrite E.
  pose proof (ones_double m 0 Hm ltac:(by left)) as D0. rewrite Z.add_0_r in D0. rewrite D0.
  rewrite (ones_double m 1) by (done || by right).
  assert (ones (2 ^ k - 1) = k) as ->; [|change (ones 0) with 0; lia].
  clear -Hk. pattern k. apply natlike_ind; [done| |done]. clear k Hk. intros k Hk IH. rewrite Z.pow_succ_r by done.
  replace (2 * 2 ^ k - 1) with (2 * (2 ^ k - 1) + 1) by lia. rewrite ones_double by (lia || by right). lia.
Qed.

(** ** Zero bytes *)
Lemma land_byte x k : 0 ≤ k → Z.land x (255 * 256 ^ k) = byte_of x k * 256 ^ k.
Proof.
  intros Hk. change 256 with (2 ^ 8). rewrite <- Z.pow_mul_r by lia. unfold byte_of.
  change 256 with (2 ^ 8). rewrite <- Z.pow_mul_r by lia.
  rewrite <- !Z.shiftl_mul_pow2, <- Z.shiftr_div_pow2, <- Z.land_ones by lia. change 255 with (Z.ones 8).
  apply Z.bits_inj'. intros i Hi. rewrite Z.land_spec. destruct (decide (i < 8 * k)).
  - rewrite !Z.shiftl_spec_low by lia. apply andb_false_r.
  - rewrite !Z.shiftl_spec, Z.land_spec, Z.shiftr_spec by lia. f_equal. f_equal. lia.
Qed.

Lemma byte_mask x k : 0 ≤ k → Z.land x (255 * 256 ^ k) ≠ 0 ↔ byte_of x k ≠ 0.
Proof. intros Hk. rewrite land_byte by done. assert (0 < 256 ^ k) by lia. nia. Qed.

Lemma byte3_stage b : 0 ≤ b < 256 →
  0 ≤ Z.land b 0x7f + 0x7f < 256 ∧ Z.land b 0x7f < 128 ∧ 0 ≤ Z.land b 0x7f ∧
  0 ≤ 255 - Z.lor (Z.land b 0x7f + 0x7f) 0x7f < 256 ∧ 0 ≤ Z.lor (Z.land b 0x7f + 0x7f) 0x7f ∧
  (255 - Z.lor (Z.land b 0x7f + 0x7f) 0x7f ≠ 0 ↔ b = 0 ∨ b = 0x80).
Proof. revert b. apply (range_all _). by vm_compute. Qed.

Lemma lor_split n a b c d : 0 ≤ n → 0 ≤ a < 2 ^ n → 0 ≤ c < 2 ^ n →
  Z.lor (b * 2 ^ n + a) (d * 2 ^ n + c) = Z.lor b d * 2 ^ n + Z.lor a c.
Proof.
  intros Hn Ha Hc.
  assert (0 ≤ Z.lor a c < 2 ^ n) as Hac.
  { split; [apply Z.lor_nonneg; lia|]. destruct (decide (a = 0)) as [-> |]; [rewrite Z.lor_0_l; lia|].
    destruct (decide (c = 0)) as [-> |]; [rewrite Z.lor_0_r; lia|].
    assert (0 < Z.lor a c). { assert (0 ≤ Z.lor a c) by (apply Z.lor_nonneg; lia). assert (Z.lor a c ≠ 0); [|lia]. intros [? ?]%Z.lor_eq_0_iff. lia. }
    apply Z.log2_lt_pow2; [done|]. rewrite Z.log2_lor by lia.
    assert (Z.log2 a < n) by (apply Z.log2_lt_pow2; lia). assert (Z.log2 c < n) by (apply Z.log2_lt_pow2; lia). lia. }
  rewrite <- !lor_disjoint by lia. rewrite <- !Z.shiftl_mul_pow2, Z.shiftl_lor by lia.
  apply Z.bits_inj'. intros i Hi. rewrite !Z.lor_spec.
  destruct (Z.testbit (Z.shiftl b n) i), (Z.testbit a i), (Z.testbit (Z.shiftl d n) i), (Z.testbit c i); done.
Qed.

Lemma word_lor m b3 b2 b1 b0 :
  is_byte m → is_byte b3 → is_byte b2 → is_byte b1 → is_byte b0 →
  Z.lor (word b3 b2 b1 b0) (word m m m m) = word (Z.lor b3 m) (Z.lor b2 m) (Z.lor b1 m) (Z.lor b0 m).
Proof.
  unfold is_byte, word. intros. change 256 with (2 ^ 8) in *. by rewrite !lor_split by lia.
Qed.

(** The third test, byte by byte. *)
Lemma byte3_word b3 b2 b1 b0 :
  is_byte b3 → is_byte b2 → is_byte b1 → is_byte b0 →
  u32 (Z.lnot (Z.lor (u32 (Z.land (word b3 b2 b1 b0) 0x7f7f7f7f + 0x7f7f7f7f)) 0x7f7f7f7f)) ≠ 0 ↔
  (b3 = 0 ∨ b3 = 0x80) ∨ (b2 = 0 ∨ b2 = 0x80) ∨ (b1 = 0 ∨ b1 = 0x80) ∨ (b0 = 0 ∨ b0 = 0x80).
Proof.
  intros H3 H2 H1 H0.
  pose proof (byte3_stage _ H3) as (A3 & B3 & C3 & D3 & E3 & <-). pose proof (byte3_stage _ H2) as (A2 & B2 & C2 & D2 & E2 & <-).
  pose proof (byte3_stage _ H1) as (A1 & B1 & C1 & D1 & E1 & <-). pose proof (byte3_stage _ H0) as (A0 & B0 & C0 & D0 & E0 & <-).
  change 0x7f7f7f7f with (word 0x7f 0x7f 0x7f 0x7f).
  pose proof (word_shr_mask 0 0x7f b3 b2 b1 b0 ltac:(lia) H3 H2 H1 H0 ltac:(eval_pow; lia)) as E.
  change (2 ^ 0) with 1 in E. rewrite !Z.div_1_r in E. rewrite E. clear E.
  replace (u32 (word _ _ _ _ + _)) with
    (word (Z.land b3 0x7f + 0x7f) (Z.land b2 0x7f + 0x7f) (Z.land b1 0x7f + 0x7f) (Z.land b0 0x7f + 0x7f)).
  2: { rewrite u32_small; unfold word; lia. }
  rewrite word_lor by (unfold is_byte; lia).
  revert D3 D2 D1 D0 E3 E2 E1 E0. generalize (Z.lor (Z.land b3 0x7f + 0x7f) 0x7f) (Z.lor (Z.land b2 0x7f + 0x7f) 0x7f)
    (Z.lor (Z.land b1 0x7f + 0x7f) 0x7f) (Z.lor (Z.land b0 0x7f + 0x7f) 0x7f). intros w3 w2 w1 w0 D3 D2 D1 D0 E3 E2 E1 E0.
  replace (u32 (Z.lnot (word w3 w2 w1 w0))) with (word (255 - w3) (255 - w2) (255 - w1) (255 - w0)).
  - unfold word. lia.
  - unfold u32, Z.lnot, word. mlia.
Qed.

(** ** Properties *)

(** __ctz counts the trailing zeros of every 32-bit word that is not 0. *)
Theorem ctz_correct x :
  0 < x < 4294967296 → ∃ m, x = (2 * m + 1) * 2 ^ ctz x ∧ 0 ≤ ctz x < 32.
Proof.
  intros Hx. destruct (trailing_exists x) as [k Hk]; [lia|]. rewrite (ctz_trailing x k Hx Hk).
  pose proof (trailing_bound x k Hx Hk). destruct Hk as (_ & m & Hm). eauto.
Qed.

Lemma ctz_correct_witness : ∃ m, 0x1f00 = (2 * m + 1) * 2 ^ 8 ∧ 0 ≤ 8 < 32.
Proof. apply (ctz_correct 0x1f00). lia. Defined.

(** Count_set_bits counts the set bits of the word, whatever the sign of
    its argument; __ctz2 counts those of [x - 1] in parallel, that is the
    trailing zeros of [x] plus the other set bits of [x] less one: it agrees
    with __ctz exactly on the powers of two. *)
Theorem parallel_count n x :
  0 < x < 4294967296 →
  count_set_bits n = Ret (ones (u32 n)) ∧
  ctz2 x = ones (x - 1) ∧ ctz2 x = ctz x + ones x - 1 ∧ (ctz2 x = ctz x ↔ ∃ k, 0 ≤ k ∧ x = 2 ^ k).
Proof.
  intros Hx. destruct (trailing_exists x) as [k Hk]; [lia|].
  pose proof (ones_pred x k ltac:(lia) Hk) as Hp. pose proof (trailing_bound x k Hx Hk) as Hkb.
  assert (ctz2 x = ones (x - 1)) as E.
  { unfold ctz2. rewrite decide_True by lia. destruct (word_bytes (x - 1) ltac:(lia)) as (Ew & H3 & H2 & H1 & H0).
    rewrite (ctz2_stage _ _ _ _ x H3 H2 H1 H0) by (rewrite u32_small by lia; exact Ew). rewrite <- Ew.
    apply Z.mod_small. pose proof (ones_nonneg (x - 1)). pose proof (ones_bound (x - 1) ltac:(lia)). lia. }
  rewrite (ctz_trailing x k Hx Hk), E, Hp. split_and!; [|done|lia|].
  - unfold count_set_bits. rewrite (count_loop 32); [done| |lia|lia].
    unfold u32. change (2 ^ Z.of_nat 32) with 4294967296. apply Z.mod_pos_bound. lia.
  - destruct Hk as (Hk & m & ->). assert (0 ≤ m) as Hm.
    { assert (0 < 2 * m + 1) by (apply (Z.mul_pos_cancel_r _ (2 ^ k)); lia). lia. }
    pose proof (ones_split k (2 * m + 1) 0 Hk ltac:(lia) ltac:(lia)) as E1. rewrite Z.add_0_r in E1.
    rewrite E1, (ones_double m 1) by (done || by right). change (ones 0) with 0.
    split.
    + intros He. assert (m = 0) as -> by (apply ones_0; [done|lia]). exists k. split; [done|lia].
    + intros (j & Hj & Ej). assert (ones ((2 * m + 1) * 2 ^ k) = 1) as E2.
      { rewrite Ej. pose proof (ones_split j 1 0 Hj ltac:(lia) ltac:(lia)) as E3.
        rewrite Z.add_0_r, Z.mul_1_l in E3. rewrite E3. done. }
      rewrite E1, (ones_double m 1) in E2 by (done || by right). change (ones 0) with 0 in E2. lia.
Qed.

Lemma parallel_count_witness :
  count_set_bits (-1) = Ret 32 ∧
  ctz2 0x1f00 = 12 ∧ ctz2 0x1f00 = 8 + 5 - 1 ∧ (12 = 8 ↔ ∃ k, 0 ≤ k ∧ 0x1f00 = 2 ^ k).
Proof. apply (parallel_count (-1) 0x1f00). lia. Defined.

(** The three tests for a zero byte.  The first two agree with the
    definition on every word; the third, which drops the sign bit of every byte
    before it adds, also answers yes for a byte 0x80. *)
Theorem zero_byte_tests x :
  0 ≤ x < 4294967296 →
  (HAS_ZERO_BYTE1 x = true ↔ ∃ i, 0 ≤ i < 4 ∧ byte_of x i = 0) ∧
  HAS_ZERO_BYTE2 x = HAS_ZERO_BYTE1 x ∧
  (HAS_ZERO_BYTE3 x = true ↔ ∃ i, 0 ≤ i < 4 ∧ (byte_of x i = 0 ∨ byte_of x i = 0x80)).
Proof.
  intros Hx. split_and!.
  - unfold HAS_ZERO_BYTE1. rewrite negb_true_iff, !andb_false_iff, !bool_decide_eq_false. split.
    + intros [[[H|H]|H]|H]; [exists 0|exists 1|exists 2|exists 3]; (split; [lia|]); by apply dec_stable in H.
    + intros (i & Hi & Hb). assert (i = 0 ∨ i = 1 ∨ i = 2 ∨ i = 3) as [-> | [-> | [-> | ->]]] by lia; tauto.
  - unfold HAS_ZERO_BYTE2, HAS_ZERO_BYTE1. f_equal. f_equal; [f_equal; [f_equal|]|]; apply bool_decide_ext.
    + apply (byte_mask x 0). lia.
    + apply (byte_mask x 1). lia.
    + apply (byte_mask x 2). lia.
    + apply (byte_mask x 3). lia.
  - destruct (word_bytes x Hx) as (E & H3 & H2 & H1 & H0). unfold HAS_ZERO_BYTE3. rewrite bool_decide_eq_true, E.
    rewrite byte3_word by done. rewrite <- E. split.
    + intros [H|[H|[H|H]]]; [exists 3|exists 2|exists 1|exists 0]; (split; [lia|done]).
    + intros (i & Hi & Hb). assert (i = 0 ∨ i = 1 ∨ i = 2 ∨ i = 3) as [-> | [-> | [-> | ->]]] by lia; tauto.
Qed.

Lemma zero_byte_tests_witness :
  (HAS_ZERO_BYTE1 0x5FF2806E = true ↔ ∃ i, 0 ≤ i < 4 ∧ byte_of 0x5FF2806E i = 0) ∧
  HAS_ZERO_BYTE2 0x5FF2806E = HAS_ZERO_BYTE1 0x5FF2806E ∧
  (HAS_ZERO_BYTE3 0x5FF2806E = true ↔ ∃ i, 0 ≤ i < 4 ∧ (byte_of 0x5FF2806E i = 0 ∨ byte_of 0x5FF2806E i = 0x80)).
Proof. apply (zero_byte_tests 0x5FF2806E). lia. Defined.
