(* ===== verification/BinText.v ===== *)
(** * Binary and hexadecimal text: num/ieee754-float.c, builtin/ctz.c, trivial/itos.c

    The routines that print a word in binary, with the tables they look digits
    up in, and the hexadecimal printer.  A buffer is an object of the size its
    declaration gives it; the null buffer stands for the static one. *)
From Stdlib Require Import ZArith Lia String Ascii.
From stdpp Require Import base tactics numbers list.
From S2P Require Import Prelude.

Open Scope Z_scope.

(** The bytes of a string literal, without its terminator. *)
Definition bytes_of (s : string) : list Z :=
  map (λ a, Z.of_N (N_of_ascii a)) (list_ascii_of_string s).

(** ** num/ieee754-float.c *)

(** p[CHAR_BITS - 1 - i] = '0' + !!(c & (1 << i)) *)
Definition char2bin (c : Z) (p : list Z) : outcome (list Z) :=
  p ← for_up 8 0 (λ i p, store p (8 - 1 - i) (48 + (if decide (Z.land c (Z.shiftl 1 i) ≠ 0) then 1 else 0))) p;
  store p 8 0.

Definition binary_table : list (list Z) := map bytes_of
  [
   "00000000"; "00000001"; "00000010"; "00000011"; "00000100"; "00000101"; "00000110"; "00000111";
   "00001000"; "00001001"; "00001010"; "00001011"; "00001100"; "00001101"; "00001110"; "00001111";
   "00010000"; "00010001"; "00010010"; "00010011"; "00010100"; "00010101"; "00010110"; "00010111";
   "00011000"; "00011001"; "00011010"; "00011011"; "00011100"; "00011101"; "00011110"; "00011111";
   "00100000"; "00100001"; "00100010"; "00100011"; "00100100"; "00100101"; "00100110"; "00100111";
   "00101000"; "00101001"; "00101010"; "00101011"; "00101100"; "00101101"; "00101110"; "00101111";
   "00110000"; "00110001"; "00110010"; "00110011"; "00110100"; "00110101"; "00110110"; "00110111";
   "00111000"; "00111001"; "00111010"; "00111011"; "00111100"; "00111101"; "00111110"; "00111111";
   "01000000"; "01000001"; "01000010"; "01000011"; "01000100"; "01000101"; "01000110"; "01000111";
   "01001000"; "01001001"; "01001010"; "01001011"; "01001100"; "01001101"; "01001110"; "01001111";
   "01010000"; "01010001"; "01010010"; "01010011"; "01010100"; "01010101"; "01010110"; "01010111";
   "01011000"; "01011001"; "01011010"; "01011011"; "01011100"; "01011101"; "01011110"; "01011111";
   "01100000"; "01100001"; "01100010"; "01100011"; "01100100"; "01100101"; "01100110"; "01100111";
   "01101000"; "01101001"; "01101010"; "01101011"; "01101100"; "01101101"; "01101110"; "01101111";
   "01110000"; "01110001"; "01110010"; "01110011"; "01110100"; "01110101"; "01110110"; "01110111";
   "01111000"; "01111001"; "01111010"; "01111011"; "01111100"; "01111101"; "01111110"; "01111111";
   "10000000"; "10000001"; "10000010"; "10000011"; "10000100"; "10000101"; "10000110"; "10000111";
   "10001000"; "10001001"; "10001010"; "10001011"; "10001100"; "10001101"; "10001110"; "10001111";
   "10010000"; "10010001"; "10010010"; "10010011"; "10010100"; "10010101"; "10010110"; "10010111";
   "10011000"; "10011001"; "10011010"; "10011011"; "10011100"; "10011101"; "10011110"; "10011111";
   "10100000"; "10100001"; "10100010"; "10100011"; "10100100"; "10100101"; "10100110"; "10100111";
   "10101000"; "10101001"; "10101010"; "10101011"; "10101100"; "10101101"; "10101110"; "10101111";
   "10110000"; "10110001"; "10110010"; "10110011"; "10110100"; "10110101"; "10110110"; "10110111";
   "10111000"; "10111001"; "10111010"; "10111011"; "10111100"; "10111101"; "10111110"; "10111111";
   "11000000"; "11000001"; "11000010"; "11000011"; "11000100"; "11000101"; "11000110"; "11000111";
   "11001000"; "11001001"; "11001010"; "11001011"; "11001100"; "11001101"; "11001110"; "11001111";
   "11010000"; "11010001"; "11010010"; "11010011"; "11010100"; "11010101"; "11010110"; "11010111";
   "11011000"; "11011001"; "11011010"; "11011011"; "11011100"; "11011101"; "11011110"; "11011111";
   "11100000"; "11100001"; "11100010"; "11100011"; "11100100"; "11100101"; "11100110"; "11100111";
   "11101000"; "11101001"; "11101010"; "11101011"; "11101100"; "11101101"; "11101110"; "11101111";
   "11110000"; "11110001"; "11110010"; "11110011"; "11110100"; "11110101"; "11110110"; "11110111";
   "11111000"; "11111001"; "11111010"; "11111011"; "11111100"; "11111101"; "11111110"; "11111111"]%string.

Definition MAX_LEN : list Z := [9; 10; 10; 10].

(** One round of the loop over [i] from 3 down to 0. *)
Definition int2bin_step (u i : Z) (p : list Z) : outcome (list Z) :=
  n ← load MAX_LEN i;
  t ← load binary_table (Z.land (Z.shiftr u (i * 8)) 0xff);
  '(_, p) ← snprintf p (2 + (3 - i) * 9) n (t ++ [39]);
  Ret p.

Definition int2bin (u : Z) (p : list Z) : outcome (list Z) :=
  p ← store_n p 0 [48; 98; 0];
  if decide (u = 0) then store_n p 2 [48; 0]
  else
    p ← int2bin_step u 3 p;
    p ← int2bin_step u 2 p;
    p ← int2bin_step u 1 p;
    p ← int2bin_step u 0 p;
    let lz := 31 - Z.log2 u in
    memmove p 2 (2 + lz + lz / 8) (36 - lz - lz / 8).

(** The fields of a float: S, E and M of its 32 bits; [x >> 31] of an [int]. *)
Definition S_ (x : Z) : Z := Z.land (Z.shiftr x 31) 1.
Definition E_ (x : Z) : Z := Z.land (Z.shiftr x 23) 0xff.
Definition M_ (x : Z) : Z := Z.land x 0x7fffff.

(** _DUMP_FLOAT_1: the three texts that are logged. *)
Definition DUMP_FLOAT (x : Z) (a b c : list Z) : outcome (list Z * list Z * list Z) :=
  a ← int2bin (u32 (S_ x)) a;
  b ← int2bin (u32 (E_ x)) b;
  c ← int2bin (u32 (M_ x)) c;
  ta ← c_string a; tb ← c_string b; tc ← c_string c;
  Ret (ta, tb, tc).

(** 1000.5, -1000.5 and 0.5, by their bits. *)
Definition main_float (a b c : list Z) : outcome (list (list Z * list Z * list Z)) :=
  r1 ← DUMP_FLOAT 0x447a2000 a b c;
  r2 ← DUMP_FLOAT (s32 0xc47a2000) a b c;
  r3 ← DUMP_FLOAT 0x3f000000 a b c;
  Ret [r1; r2; r3].

(** ** builtin/ctz.c *)
Definition g_bin_table : list (list Z) := map bytes_of
  ["0000"; "0001"; "0010"; "0011"; "0100"; "0101"; "0110"; "0111";
   "1000"; "1001"; "1010"; "1011"; "1100"; "1101"; "1110"; "1111"]%string.

Definition int_to_bin_step (x : Z) (s : Z * Z * list Z) : outcome (Z * Z * list Z + list Z) :=
  let '(i, q, p) := s in
  t ← load g_bin_table (Z.land (Z.shiftr x i) 0xf);
  '(q, p) ← sprintf p q (if decide (i ≠ 0) then t ++ [39] else t);
  if decide (i = 0) then Ret (inr p) else Ret (inl (u32 (i - 4), q, p)).

Definition int_to_bin (x : Z) (p : list Z) : outcome (list Z) :=
  while_fuel 8 (int_to_bin_step x) (28, 0, p).

(** ** trivial/itos.c *)

(** "0123456789ABCDEF" with its terminator. *)
Definition cs : list Z := bytes_of "0123456789ABCDEF" ++ [0].

Fixpoint itos_loop (len : nat) (in_ : list Z) (p : Z) (buf : list Z) : outcome (list Z) :=
  match len with
  | O => Ret buf
  | S len =>
      b ← load in_ 0;
      lo ← load cs (Z.land b 0xff);
      buf ← store buf (p - 1) lo;
      hi ← load cs (Z.shiftr b 4);
      buf ← store buf (p - 2) hi;
      itos_loop len (drop 1 in_) (p - 2) buf
  end.

(** [in_] is the four bytes of the [int] in memory. *)
Definition itos (in_ buf : list Z) : outcome (list Z) := itos_loop 4 in_ 8 buf.

Example main_float_output :
  main_float (replicate 38 0) (replicate 38 0) (replicate 38 0) =
  Ret [(bytes_of "0b0", bytes_of "0b10001000", bytes_of "0b1111010'00100000'00000000");
       (bytes_of "0b1", bytes_of "0b10001000", bytes_of "0b1111010'00100000'00000000");
       (bytes_of "0b0", bytes_of "0b1111110", bytes_of "0b0")]%string.
Proof. vm_compute. reflexivity. Qed.

(** ** Reading binary text back *)

(** The value of binary digits, quotes skipped. *)
Definition digit_step (acc c : Z) : Z := if decide (c = 39) then acc else 2 * acc + (c - 48).
Definition bin_value (t : list Z) : Z := foldl digit_step 0 t.

(** How many digits there are. *)
Definition ndigits (t : list Z) : Z := zlen (filter (λ c, c ≠ 39) t).

Lemma fold_value t acc : foldl digit_step acc t = acc * 2 ^ ndigits t + bin_value t.
Proof.
  unfold bin_value, ndigits. induction t as [|c t IH] using rev_ind; [simpl; lia|].
  rewrite !foldl_snoc, IH, filter_app, length_app, filter_cons, filter_nil. unfold digit_step.
  repeat case_decide; try done; cbn [length].
  - by rewrite Nat.add_0_r.
  - rewrite Nat2Z.inj_add, Z.pow_add_r by lia. change (2 ^ Z.of_nat 1) with 2. lia.
Qed.

Lemma value_app a b : bin_value (a ++ b) = bin_value a * 2 ^ ndigits b + bin_value b.
Proof. unfold bin_value at 1. rewrite foldl_app. apply fold_value. Qed.

Lemma ndigits_app a b : ndigits (a ++ b) = ndigits a + ndigits b.
Proof. unfold ndigits. rewrite filter_app. len. Qed.

(** Leading zeros and quotes do not count. *)
Lemma value_drop k t : Forall (λ c, c = 48 ∨ c = 39) (take k t) → bin_value (drop k t) = bin_value t.
Proof.
  intros H. rewrite <- (take_drop k t) at 2. rewrite value_app.
  assert (bin_value (take k t) = 0) as ->; [|lia].
  unfold bin_value. induction H as [|c l Hc Hl IH]; [done|]. cbn [foldl].
  replace (digit_step 0 c) with 0; [done|]. unfold digit_step. case_decide; lia.
Qed.

(** The digits of a byte and of a nibble. *)
Definition byte_text (b : Z) : list Z := map (λ i, 48 + b / 2 ^ (7 - Z.of_nat i) mod 2) (seq 0 8).
Definition nibble_text (n : Z) : list Z := map (λ i, 48 + n / 2 ^ (3 - Z.of_nat i) mod 2) (seq 0 4).

Lemma byte_digits b : 0 ≤ b < 256 →
  load binary_table b = Ret (byte_text b) ∧ bin_value (byte_text b) = b ∧ ndigits (byte_text b) = 8 ∧
  Forall is_char (byte_text b) ∧
  (0 < b → Forall (λ c, c = 48 ∨ c = 39) (take (Z.to_nat (7 - Z.log2 b)) (byte_text b)) ∧
     byte_text b !! Z.to_nat (7 - Z.log2 b) = Some 49 ∧ Z.log2 b ≤ 7).
Proof. revert b. apply (range_all _). by vm_compute. Qed.

Lemma nibble_digits n : 0 ≤ n < 16 →
  load g_bin_table n = Ret (nibble_text n) ∧ bin_value (nibble_text n) = n ∧ ndigits (nibble_text n) = 4.
Proof. revert n. apply (range_all _). by vm_compute. Qed.

(** ** The text of int_to_bin: eight nibbles *)
Definition nibble (x i : Z) : Z := x / 2 ^ i mod 16.

Fixpoint nibbles (x : Z) (k : nat) : list Z :=
  match k with
  | O => nibble_text (nibble x 0)
  | S k' => nibble_text (nibble x (4 * Z.of_nat k)) ++ [39] ++ nibbles x k'
  end.

Lemma nibble_range x i : 0 ≤ nibble x i < 16.
Proof. unfold nibble. apply Z.mod_pos_bound. lia. Qed.

Lemma nibbles_length x k : length (nibbles x k) = (5 * k + 4)%nat.
Proof. induction k as [|k IH]; [done|]. cbn [nibbles]. rewrite !length_app, IH. cbn. lia. Qed.

Lemma sprintf_fits dn r s :
  zlen s < zlen r → sprintf (dn ++ r) (zlen dn) s = Ret (zlen (dn ++ s), (dn ++ s) ++ 0 :: drop (S (length s)) r).
Proof.
  intros Hs. unfold sprintf. rewrite <- (take_drop (S (length s)) r) at 1.
  rewrite store_n_app by len. cbind. rewrite <- !app_assoc. norm_length. peel.
Qed.

Lemma int_to_bin_loop x k dn r fuel :
  (k < fuel)%nat → (k ≤ 7)%nat → length r = (5 * k + 5)%nat →
  while_fuel fuel (int_to_bin_step x) (4 * Z.of_nat k, zlen dn, dn ++ r) = Ret (dn ++ nibbles x k ++ [0]).
Proof.
  assert (∀ i, 0 ≤ i → load g_bin_table (Z.land (Z.shiftr x i) 0xf) = Ret (nibble_text (nibble x i))) as Htab.
  { intros i Hi. change 0xf with (2 ^ 4 - 1). rewrite land_mask, Z.shiftr_div_pow2 by lia.
    apply nibble_digits. apply nibble_range. }
  revert dn r fuel. induction k as [|k IH]; intros dn r fuel Hf Hk Hr; (destruct fuel as [|fuel]; [lia|]).
  - apply while_fuel_inr. unfold int_to_bin_step. rewrite Htab by lia. cbind. change (4 * Z.of_nat 0) with 0.
    rewrite !(decide_False (P := (0 ≠ 0))) by lia. rewrite sprintf_fits by (rewrite Hr; done). cbind.
    rewrite decide_True by done. rewrite drop_ge by (rewrite Hr; done). by rewrite <- app_assoc.
  - set (nt := nibble_text (nibble x (4 * Z.of_nat (S k)))).
    assert (length (nt ++ [39]) = 5%nat) as Hnt by done.
    rewrite (while_fuel_inl _ _ _ (4 * Z.of_nat k, zlen (dn ++ nt ++ [39]), (dn ++ nt ++ [39]) ++ 0 :: drop 6 r)).
    + rewrite IH by (cbn [length]; rewrite ?length_drop; lia). cbn [nibbles]. fold nt. by rewrite <- !app_assoc.
    + unfold int_to_bin_step. rewrite Htab by lia. cbind. fold nt.
      rewrite (decide_True (P := (4 * Z.of_nat (S k) ≠ 0))) by lia. rewrite sprintf_fits by (rewrite Hnt; lia). cbind.
      rewrite decide_False by lia. rewrite Hnt. rewrite u32_small by lia. peel.
Qed.

Lemma nibbles_value x k : 0 ≤ x < 2 ^ (4 * Z.of_nat k + 4) →
  bin_value (nibbles x k) = x ∧ ndigits (nibbles x k) = 4 * Z.of_nat k + 4.
Proof.
  intros Hx. assert (∀ k, bin_value (nibbles x k) = x mod 2 ^ (4 * Z.of_nat k + 4) ∧ ndigits (nibbles x k) = 4 * Z.of_nat k + 4) as H.
  { clear k Hx. induction k as [|k [IHv IHn]].
    - destruct (nibble_digits (nibble x 0) (nibble_range x 0)) as (_ & Hv & Hn). cbn [nibbles]. rewrite Hv, Hn.
      unfold nibble. change (2 ^ 0) with 1. by rewrite Z.div_1_r.
    - cbn [nibbles]. set (i := 4 * Z.of_nat (S k)).
      destruct (nibble_digits (nibble x i) (nibble_range x i)) as (_ & Hv & Hn).
      rewrite !value_app, !ndigits_app, IHv, IHn, Hv, Hn. change (bin_value [39]) with 0. change (ndigits [39]) with 0.
      rewrite Z.mul_0_l, !Z.add_0_l. replace (4 * Z.of_nat k + 4) with i by lia. split; [|lia].
      unfold nibble. rewrite (Z.pow_add_r 2 i 4), Z.rem_mul_r by lia. change (2 ^ 4) with 16. lia. }
  destruct (H k) as [Hv Hn]. rewrite Hv, Hn. split; [by apply Z.mod_small|done].
Qed.

(** ** The text of int2bin: four bytes without their leading zeros *)
Definition full (u : Z) : list Z :=
  byte_text (u / 16777216) ++ [39] ++ byte_text (u / 65536 mod 256) ++ [39] ++
  byte_text (u / 256 mod 256) ++ [39] ++ byte_text (u mod 256).

Lemma full_value u : 0 ≤ u < 4294967296 → bin_value (full u) = u ∧ length (full u) = 35%nat ∧ Forall is_char (full u).
Proof.
  intros Hu. unfold full.
  destruct (byte_digits (u / 16777216)) as (_ & V3 & D3 & C3 & _); [mlia|].
  destruct (byte_digits (u / 65536 mod 256)) as (_ & V2 & D2 & C2 & _); [mlia|].
  destruct (byte_digits (u / 256 mod 256)) as (_ & V1 & D1 & C1 & _); [mlia|].
  destruct (byte_digits (u mod 256)) as (_ & V0 & D0 & C0 & _); [mlia|].
  split_and!.
  - rewrite !value_app, !ndigits_app, V3, V2, V1, V0, D2, D1, D0. change (bin_value [39]) with 0. change (ndigits [39]) with 0.
    eval_pow. change (2 ^ (0 + (8 + (0 + (8 + (0 + 8)))))) with 16777216. change (2 ^ (8 + (0 + (8 + (0 + 8))))) with 16777216.
    change (2 ^ (0 + (8 + (0 + 8)))) with 65536. change (2 ^ (8 + (0 + 8))) with 65536. change (2 ^ (0 + 8)) with 256. change (2 ^ 8) with 256. mlia.
  - done.
  - repeat (apply Forall_app; split); try done; by repeat constructor.
Qed.

Lemma log2_byte b n r : 0 < b → 0 ≤ n → 0 ≤ r < 2 ^ n → Z.log2 (b * 2 ^ n + r) = n + Z.log2 b.
Proof.
  intros Hb Hn Hr. apply Z.log2_unique; [pose proof (Z.log2_nonneg b); lia|].
  pose proof (Z.log2_spec b Hb) as [H1 H2]. pose proof (Z.log2_nonneg b).
  replace (Z.succ (n + Z.log2 b)) with (n + Z.succ (Z.log2 b)) by lia. rewrite !Z.pow_add_r by lia.
  assert (2 ^ n * 2 ^ Z.log2 b ≤ 2 ^ n * b) by (apply Z.mul_le_mono_nonneg_l; lia).
  assert (2 ^ n * (b + 1) ≤ 2 ^ n * 2 ^ Z.succ (Z.log2 b)) by (apply Z.mul_le_mono_nonneg_l; lia). lia.
Qed.

(** The leading zeros are in the text before the first byte that is not 0. *)
Lemma lead_in zs b rest j k :
  Forall (λ c, c = 48 ∨ c = 39) zs → length zs = (9 * j)%nat → 0 < b < 256 →
  k = Z.of_nat (9 * j) + (7 - Z.log2 b) →
  Forall (λ c, c = 48 ∨ c = 39) (take (Z.to_nat k) (zs ++ byte_text b ++ rest)) ∧
  (zs ++ byte_text b ++ rest) !! Z.to_nat k = Some 49.
Proof.
  intros Hz Hl Hb ->. destruct (byte_digits b ltac:(lia)) as (_ & _ & _ & _ & Hd). destruct Hd as (Ht & H1 & Hlog); [lia|].
  pose proof (Z.log2_nonneg b).
  replace (Z.to_nat (Z.of_nat (9 * j) + (7 - Z.log2 b))) with (length zs + Z.to_nat (7 - Z.log2 b))%nat by lia.
  split.
  - rewrite take_app_add, take_app_le by (change (length (byte_text b)) with 8%nat; lia). apply Forall_app. by split.
  - rewrite lookup_app_r, Nat.add_comm, Nat.add_sub by lia. by apply lookup_app_l_Some.
Qed.

Lemma full_lead u : 0 < u < 4294967296 →
  let lz := 31 - Z.log2 u in
  0 ≤ lz ≤ 31 ∧ Forall (λ c, c = 48 ∨ c = 39) (take (Z.to_nat (lz + lz / 8)) (full u)) ∧
  full u !! Z.to_nat (lz + lz / 8) = Some 49.
Proof.
  intros Hu lz. assert (Z.log2 u < 32) as Hlog by (apply Z.log2_lt_pow2; [lia|exact (proj2 Hu)]).
  pose proof (Z.log2_nonneg u) as Hlog0. split; [unfold lz; lia|].
  assert (Forall (λ c, c = 48 ∨ c = 39) (byte_text 0)) as Hz0 by by_eval.
  assert (∀ b n r, 0 < b < 256 → u = b * 2 ^ n + r → 0 ≤ n → 0 ≤ r < 2 ^ n → Z.log2 u = n + Z.log2 b ∧ 0 ≤ Z.log2 b ≤ 7) as Hlg.
  { intros b n r Hb -> Hn Hr. split; [apply log2_byte; lia|]. split; [apply Z.log2_nonneg|].
    assert (Z.log2 b < 8); [|lia]. apply Z.log2_lt_pow2; [lia|exact (proj2 Hb)]. }
  unfold full, lz.
  destruct (decide (u / 16777216 = 0)) as [E3|E3]; [rewrite E3; destruct (decide (u / 65536 mod 256 = 0)) as [E2|E2];
    [rewrite E2; destruct (decide (u / 256 mod 256 = 0)) as [E1|E1]; [rewrite E1|]|]|].
  - destruct (Hlg (u mod 256) 0 0) as [-> ?]; [mlia|change (2 ^ 0) with 1; mlia|lia|done|].
    rewrite !app_assoc. rewrite <- (app_nil_r (byte_text (u mod 256))).
    apply (lead_in _ _ _ 3); [repeat (apply Forall_app; split); try done; by repeat constructor|done|mlia|mlia].
  - destruct (Hlg (u / 256 mod 256) 8 (u mod 256)) as [-> ?]; [mlia|eval_pow; mlia|lia|eval_pow; mlia|].
    rewrite (app_assoc (byte_text 0)), (app_assoc (byte_text 0 ++ [39])), (app_assoc _ [39]).
    apply (lead_in _ _ _ 2); [repeat (apply Forall_app; split); try done; by repeat constructor|done|mlia|mlia].
  - destruct (Hlg (u / 65536 mod 256) 16 (u mod 65536)) as [-> ?]; [mlia|eval_pow; mlia|lia|eval_pow; mlia|].
    rewrite (app_assoc (byte_text 0)).
    apply (lead_in _ _ _ 1); [repeat (apply Forall_app; split); try done; by repeat constructor|done|mlia|mlia].
  - destruct (Hlg (u / 16777216) 24 (u mod 16777216)) as [-> ?]; [mlia|eval_pow; mlia|lia|eval_pow; mlia|].
    apply (lead_in [] _ _ 0); [constructor|done|mlia|mlia].
Qed.

(** The buffer of 38 bytes after the four rounds. *)
Lemma int2bin_rounds u p : 0 ≤ u < 4294967296 → length p = 38%nat →
  (p ← store_n p 0 [48; 98; 0]; p ← int2bin_step u 3 p; p ← int2bin_step u 2 p; p ← int2bin_step u 1 p; int2bin_step u 0 p) =
  Ret ([48; 98] ++ full u ++ [0]).
Proof.
  intros Hu Hp. do 38 (destruct p as [|? p]; [done|]). destruct p; [|done].
  unfold int2bin_step. rewrite !Z.shiftr_div_pow2 by lia. change 0xff with (2 ^ 8 - 1). rewrite !land_mask by lia.
  change (2 ^ 8) with 256. change (2 ^ (3 * 8)) with 16777216. change (2 ^ (2 * 8)) with 65536. change (2 ^ (1 * 8)) with 256.
  change (2 ^ (0 * 8)) with 1. rewrite Z.div_1_r, (Z.mod_small (u / 16777216)) by mlia.
  destruct (byte_digits (u / 16777216)) as (-> & _); [mlia|]. destruct (byte_digits (u / 65536 mod 256)) as (-> & _); [mlia|].
  destruct (byte_digits (u / 256 mod 256)) as (-> & _); [mlia|]. destruct (byte_digits (u mod 256)) as (-> & _); [mlia|].
  unfold full. generalize (u / 16777216) (u / 65536 mod 256) (u / 256 mod 256) (u mod 256). intros b3 b2 b1 b0.
  reflexivity.
Qed.

(** ** Hexadecimal digits *)
Lemma digit_lookup b : 0 ≤ b < 256 →
  (b ≤ 16 → ∃ c, load cs (Z.land b 0xff) = Ret c ∧ (b < 16 → c ≠ 0)) ∧
  (16 < b → load cs (Z.land b 0xff) = Undef) ∧ (∃ c, load cs (Z.shiftr b 4) = Ret c ∧ c ≠ 0).
Proof.
  intros Hb. change 0xff with (2 ^ 8 - 1). rewrite land_mask, Z.shiftr_div_pow2 by lia. change (2 ^ 8) with 256. change (2 ^ 4) with 16.
  rewrite Z.mod_small by lia. assert (∀ i v, 0 ≤ i < 16 → load cs i = Ret v → v ≠ 0) as Hnz.
  { intros i v Hi [_ Hv]%load_Ret. intros ->. revert Hv.
    assert (∀ i, 0 ≤ i < 16 → cs !! Z.to_nat i ≠ Some 0) as H by (apply (range_all _); by vm_compute). by apply H. }
  split_and!.
  - intros Hle. destruct (load_in cs b) as (c & Hc & _); [change (zlen cs) with 17; lia|]. exists c. split; [done|]. intros. apply (Hnz b c); [lia|done].
  - intros Hgt. apply load_out. change (zlen cs) with 17. lia.
  - destruct (load_in cs (b / 16)) as (c & Hc & _); [change (zlen cs) with 17; mlia|]. exists c. split; [done|]. apply (Hnz (b / 16)); [mlia|done].
Qed.

(** One byte of the number: its two digits, or nothing. *)
Lemma itos_round b in_ len p buf :
  0 ≤ b < 256 → 2 ≤ p ≤ zlen buf →
  (16 < b → itos_loop (S len) (b :: in_) p buf = Undef) ∧
  (b ≤ 16 → ∃ lo hi, hi ≠ 0 ∧ (b < 16 → lo ≠ 0) ∧
     itos_loop (S len) (b :: in_) p buf =
     itos_loop len in_ (p - 2) (<[Z.to_nat (p - 2) := hi]> (<[Z.to_nat (p - 1) := lo]> buf))).
Proof.
  intros Hb Hp. destruct (digit_lookup b Hb) as (Hlo & Hno & chi & Hhi & Hnz). cbn [itos_loop drop].
  change (load (b :: in_) 0) with (Ret (A := Z) b). cbind. split.
  - intros H. by rewrite Hno.
  - intros H. destruct (Hlo H) as (clo & -> & Hnz'). cbind. rewrite store_in by lia. cbind. rewrite Hhi. cbind.
    rewrite store_in by (rewrite length_insert; lia). cbind. exists clo, chi. by rewrite drop_0.
Qed.

Lemma scan_nul_none m : Forall (λ c, c ≠ 0) m → scan_nul m = Undef.
Proof. induction 1 as [|c m Hc Hm IH]; [done|]. simpl. rewrite decide_False by done. by rewrite IH. Qed.

(** ** Properties *)

(** Int2bin prints every word, within its 38 bytes, as "0b" and binary
    digits that read back as the word; a word other than 0 starts with a 1. *)
Theorem int2bin_correct u p :
  0 ≤ u < 4294967296 → length p = 38%nat →
  ∃ t rest, int2bin u p = Ret ([48; 98] ++ t ++ 0 :: rest) ∧ c_string ([48; 98] ++ t ++ 0 :: rest) = Ret ([48; 98] ++ t) ∧
    bin_value t = u ∧ (if decide (u = 0) then t = [48] else head t = Some 49).
Proof.
  intros Hu Hp. destruct (decide (u = 0)) as [-> |Hne].
  - do 38 (destruct p as [|? p]; [done|]). destruct p; [|done]. exists [48]. eexists. split; [reflexivity|].
    split; [|done]. cbn [app]. apply (string_prefix [48; 98; 48]). by repeat constructor.
  - pose proof (int2bin_rounds u p Hu Hp) as Hr. destruct (full_value u Hu) as (Hv & Hl & Hc).
    destruct (full_lead u ltac:(lia)) as (Hlz & Hz & H1). set (lz := 31 - Z.log2 u) in *.
    set (k := Z.to_nat (lz + lz / 8)) in *.
    assert (k < 35)%nat as Hk by (rewrite <- Hl; by apply lookup_lt_Some in H1).
    assert (int2bin u p = memmove ([48; 98] ++ full u ++ [0]) 2 (2 + lz + lz / 8) (36 - lz - lz / 8)) as ->.
    { unfold int2bin. destruct (store_n p 0 [48; 98; 0]) as [p1| |]; [|done..]. cbn [mbind outcome_bind] in Hr |- *.
      rewrite decide_False by done. fold lz.
      destruct (int2bin_step u 3 p1) as [p2| |]; [|done..]. cbn [mbind outcome_bind] in Hr |- *.
      destruct (int2bin_step u 2 p2) as [p3| |]; [|done..]. cbn [mbind outcome_bind] in Hr |- *.
      destruct (int2bin_step u 1 p3) as [p4| |]; [|done..]. cbn [mbind outcome_bind] in Hr |- *.
      rewrite Hr. done. }
    assert (0 ≤ lz / 8) as Hlz8 by (apply Z.div_pos; lia).
    assert (length (take k (full u)) = k) as Ht by (rewrite length_take; lia).
    assert (load_n ([48; 98] ++ full u ++ [0]) (2 + lz + lz / 8) (36 - lz - lz / 8) = Ret (drop k (full u) ++ [0])) as E.
    { pose proof (load_n_app ([48; 98] ++ take k (full u)) (drop k (full u) ++ [0]) [] (2 + lz + lz / 8) (36 - lz - lz / 8)) as E.
      rewrite app_nil_r, <- !app_assoc, (app_assoc (take k (full u))), take_drop in E. apply E.
      - rewrite length_app, Ht. cbn [length]. lia.
      - norm_length. rewrite Hl. lia. }
    unfold memmove. rewrite E.
    cbind. exists (drop k (full u)), (drop (36 - k) (full u ++ [0])).
    assert (Forall is_char (drop k (full u))) as Hcd by (by apply Forall_drop).
    split_and!.
    + pose proof (store_n_app [48; 98] (take (36 - k) (full u ++ [0])) (drop (36 - k) (full u ++ [0])) (drop k (full u) ++ [0]) 2 eq_refl) as Es.
      rewrite take_drop in Es. rewrite Es; [by rewrite <- !app_assoc|].
      rewrite length_take, !length_app, length_drop, Hl. cbn [length]. lia.
    + rewrite app_assoc. apply string_prefix. apply Forall_app. split; [by repeat constructor|done].
    + by rewrite value_drop.
    + by rewrite head_lookup, lookup_drop, Nat.add_0_r.
Qed.

Lemma int2bin_correct_witness :
  ∃ t rest, int2bin 0x7a2000 (replicate 38 0) = Ret ([48; 98] ++ t ++ 0 :: rest) ∧
    c_string ([48; 98] ++ t ++ 0 :: rest) = Ret ([48; 98] ++ t) ∧
    bin_value t = 0x7a2000 ∧ head t = Some 49.
Proof. apply (int2bin_correct 0x7a2000 (replicate 38 0)); [lia|done]. Defined.

(** The two other binary printers: int_to_bin fills its 40 bytes exactly
    with eight groups of four digits that read back as the word, and char2bin
    computes the entries of the table int2bin looks up. *)
Theorem binary_printers x c p q :
  0 ≤ x < 4294967296 → is_byte c → length p = 40%nat → length q = 9%nat →
  int_to_bin x p = Ret (nibbles x 7 ++ [0]) ∧ bin_value (nibbles x 7) = x ∧
  ∃ t, load binary_table c = Ret t ∧ char2bin c q = Ret (t ++ [0]).
Proof.
  intros Hx Hc Hp Hq. split_and!.
  - apply (int_to_bin_loop x 7 [] p 8); lia.
  - apply nibbles_value. done.
  - exists (byte_text c). split; [by apply byte_digits|].
    assert (char2bin c q = Ret (map (λ i, 48 + (if decide (Z.land c (Z.shiftl 1 (7 - Z.of_nat i)) ≠ 0) then 1 else 0)) (seq 0 8) ++ [0])) as ->.
    { open_buffer 9 q. reflexivity. }
    f_equal. f_equal. revert c Hc. unfold is_byte, byte_text. apply (range_all _). by vm_compute.
Qed.

Lemma binary_printers_witness :
  int_to_bin 0x1f00 (replicate 40 0) = Ret (nibbles 0x1f00 7 ++ [0]) ∧ bin_value (nibbles 0x1f00 7) = 0x1f00 ∧
  ∃ t, load binary_table 5 = Ret t ∧ char2bin 5 (replicate 9 0) = Ret (t ++ [0]).
Proof. apply (binary_printers 0x1f00 5 (replicate 40 0) (replicate 9 0)); [lia|by_eval|done|done]. Defined.

(** Itos is undefined as soon as a byte of the number exceeds 16, because
    the low digit is looked up without masking its high half, and when it is
    defined it leaves no terminator: the text it returns has no end. *)
Theorem itos_undefined b0 b1 b2 b3 buf :
  is_byte b0 → is_byte b1 → is_byte b2 → is_byte b3 → length buf = 8%nat →
  (16 < b0 ∨ 16 < b1 ∨ 16 < b2 ∨ 16 < b3 → itos [b0; b1; b2; b3] buf = Undef) ∧
  (b0 < 16 → b1 < 16 → b2 < 16 → b3 < 16 →
     ∃ t, itos [b0; b1; b2; b3] buf = Ret t ∧ c_string t = Undef).
Proof.
  intros H0 H1 H2 H3 Hb. unfold is_byte, itos in *.
  destruct (itos_round b0 [b1; b2; b3] 3 8 buf) as [U0 D0]; [lia..|].
  destruct (decide (16 < b0)); [split; [by intros; apply U0|lia]|].
  destruct D0 as (l0 & h0 & Hh0 & Hl0 & ->); [lia|].
  match goal with |- context [itos_loop 3 _ (8 - 2) ?b] => destruct (itos_round b1 [b2; b3] 2 (8 - 2) b) as [U1 D1]; [lia|len|] end.
  destruct (decide (16 < b1)); [split; [by intros; apply U1|lia]|].
  destruct D1 as (l1 & h1 & Hh1 & Hl1 & ->); [lia|].
  match goal with |- context [itos_loop 2 _ (8 - 2 - 2) ?b] => destruct (itos_round b2 [b3] 1 (8 - 2 - 2) b) as [U2 D2]; [lia|len|] end.
  destruct (decide (16 < b2)); [split; [by intros; apply U2|lia]|].
  destruct D2 as (l2 & h2 & Hh2 & Hl2 & ->); [lia|].
  match goal with |- context [itos_loop 1 _ (8 - 2 - 2 - 2) ?b] => destruct (itos_round b3 [] 0 (8 - 2 - 2 - 2) b) as [U3 D3]; [lia|len|] end.
  destruct (decide (16 < b3)); [split; [by intros; apply U3|lia]|].
  destruct D3 as (l3 & h3 & Hh3 & Hl3 & ->); [lia|]. split; [lia|]. intros. cbn [itos_loop]. eexists. split; [done|].
  open_buffer 8 buf. cbv [insert list_insert Z.to_nat Z.sub Z.add Z.opp Z.pos_sub Pos.pred_double Pos.to_nat Pos.iter_op Init.Nat.add].
  unfold c_string, strlen. rewrite decide_True by lia. rewrite scan_nul_none; [done|]. change (Z.to_nat 0) with 0%nat. rewrite drop_0.
  repeat constructor; auto.
Qed.

Lemma itos_undefined_witness :
  (16 < 0 ∨ 16 < 1 ∨ 16 < 0 ∨ 16 < 32 → itos [0; 1; 0; 32] (replicate 8 0) = Undef) ∧
  (0 < 16 → 1 < 16 → 0 < 16 → 32 < 16 → ∃ t, itos [0; 1; 0; 32] (replicate 8 0) = Ret t ∧ c_string t = Undef).
Proof. apply (itos_undefined 0 1 0 32 (replicate 8 0)); [by_eval..|done]. Defined.
