(* ===== verification/Vote.v ===== *)
(** * trivial/quorum_vote.c: majority vote

    One pass with a candidate and a counter.  The candidate has no value until
    the first element is seen. *)
From Stdlib Require Import ZArith Lia.
From stdpp Require Import base tactics numbers list.
From S2P Require Import Prelude.

Open Scope Z_scope.

(** ** The code *)
Definition vote_step (a : list Z) (i : Z) (s : Z * option Z) : outcome (Z * option Z) :=
  let '(c, v) := s in
  x ← load a i;
  let v := if decide (c = 0) then Some x else v in
  match v with
  | None => Undef
  | Some w => c ← int_result (c + (if decide (w = x) then 1 else -1)); Ret (c, v)
  end.

Definition quorum_vote (a : list Z) (len : Z) : outcome Z :=
  '(_, v) ← for_up (Z.to_nat len) 0 (vote_step a) (0, None);
  match v with
  | Some v => Ret v
  | None => Undef
  end.

(** ** The invariant *)
Definition count (x : Z) (l : list Z) : Z := zlen (filter (λ y, y = x) l).

Lemma count_app x a b : count x (a ++ b) = count x a + count x b.
Proof. unfold count. rewrite filter_app. len. Qed.

Lemma count_one x y : count x [y] = if decide (y = x) then 1 else 0.
Proof. unfold count. rewrite filter_cons, filter_nil. by case_decide. Qed.

(** After the prefix [pre]: a value other than the candidate occurs in at most
    half of what the counter has not used up. *)
Definition voted (pre : list Z) (s : Z * option Z) : Prop :=
  let '(c, v) := s in
  0 ≤ c ≤ zlen pre ∧ (c = 0 ∨ is_Some v) ∧ (pre ≠ [] → is_Some v) ∧
  ∀ x, 2 * count x pre ≤ zlen pre + (if decide (v = Some x) then c else - c).

Lemma vote_step_voted pre x post s :
  voted pre s → zlen pre < 2147483647 →
  ∃ s', vote_step (pre ++ x :: post) (zlen pre) s = Ret s' ∧ voted (pre ++ [x]) s'.
Proof.
  destruct s as [c v]. intros (Hc & Hv & Hne & Hcount) Hlen. unfold vote_step. rewrite load_app by done. cbind.
  destruct (decide (c = 0)) as [-> |Hc0].
  - rewrite decide_True by done. rewrite int_result_small by lia. cbind. eexists. split; [done|].
    split_and!; [lia|len|by right|done|]. intros y. rewrite count_app, count_one. specialize (Hcount y). norm_length.
    destruct (decide (v = Some y)), (decide (x = y)), (decide (Some x = Some y)); simplify_eq; lia.
  - destruct Hv as [?|[w ->]]; [lia|].
    assert (0 ≤ c + (if decide (w = x) then 1 else -1) ≤ zlen pre + 1) as Hr by (case_decide; lia).
    rewrite int_result_small by lia. cbind. eexists. split; [done|].
    split_and!; [lia|len|by right; eauto|by eauto|]. intros y. rewrite count_app, count_one. specialize (Hcount y). norm_length.
    destruct (decide (Some w = Some y)), (decide (x = y)), (decide (w = x)); simplify_eq; lia.
Qed.

Lemma vote_loop post pre s :
  voted pre s → zlen (pre ++ post) ≤ 2147483647 →
  ∃ s', for_up (length post) (zlen pre) (vote_step (pre ++ post)) s = Ret s' ∧ voted (pre ++ post) s'.
Proof.
  revert pre s. induction post as [|x post IH]; intros pre s Hs Hlen; cbn [length for_up].
  { exists s. by rewrite app_nil_r. }
  destruct (vote_step_voted pre x post s Hs) as (s1 & -> & Hs1); [revert Hlen; len|]. cbind.
  destruct (IH (pre ++ [x]) s1 Hs1) as (s2 & E & Hs2); [revert Hlen; len|].
  rewrite <- app_assoc in E, Hs2. replace (zlen pre + 1) with (zlen (pre ++ [x])) by len. eauto.
Qed.

(** ** Properties *)

(** On every array that is not empty the vote is defined, and if one value
    holds more than half of the entries it is the answer; on no entries the
    candidate is read without ever having been set. *)
Theorem quorum_vote_majority a :
  a ≠ [] → zlen a ≤ 2147483647 →
  (∃ v, quorum_vote a (zlen a) = Ret v ∧ ∀ x, zlen a < 2 * count x a → v = x) ∧
  (∀ len, len ≤ 0 → quorum_vote a len = Undef).
Proof.
  intros Hne Hlen. split.
  - destruct (vote_loop a [] (0, None)) as ([c v] & E & (Hc & _ & Hv & Hcount)); [|done|].
    { split_and!; [done|done|by left|done|]. intros x. change (count x []) with 0. change (zlen []) with 0. case_decide; lia. }
    cbn [app] in *. destruct (Hv Hne) as [w ->]. unfold quorum_vote. rewrite Nat2Z.id.
    change (zlen (@nil Z)) with 0 in E. rewrite E. cbind. exists w. split; [done|]. intros x Hx. specialize (Hcount x).
    destruct (decide (Some w = Some x)); [congruence|lia].
  - intros len Hl. unfold quorum_vote. by replace (Z.to_nat len) with 0%nat by lia.
Qed.

Lemma quorum_vote_majority_witness :
  (∃ v, quorum_vote [1; 2; 3; 2; 5; 2; 2] 7 = Ret v ∧ ∀ x, 7 < 2 * count x [1; 2; 3; 2; 5; 2; 2] → v = x) ∧
  (∀ len, len ≤ 0 → quorum_vote [1; 2; 3; 2; 5; 2; 2] len = Undef).
Proof. apply (quorum_vote_majority [1; 2; 3; 2; 5; 2; 2]); [done|by_eval]. Defined.
