(* ===== verification/IdDecoder.v ===== *)
(** * string/id_decoder.c: names of process and node

    A name is "$Z", four digits of the node and six of the process, in base 32
    over an alphabet without A, I, O and U.  The reverse table is the global
    array [a]; a character is a signed index into it. *)
From Stdlib Require Import ZArith Lia.
From stdpp Require Import base tactics numbers list.
From S2P Require Import Prelude.

Open Scope Z_scope.

(** ** The code *)
Definition LASTCHAR : Z := 90.

(** '0'..'9', then the letters, then 'Z'. *)
Definition table : list Z :=
  [48; 49; 50; 51; 52; 53; 54; 55; 56; 57; 66; 67; 68; 69; 70; 71; 72; 74; 75; 76; 77;
   78; 80; 81; 82; 83; 84; 86; 87; 88; 89; LASTCHAR].
Definition TABLESIZE : Z := 32.

(** The constructor, on the array [a]. *)
Definition reverse_table (a : list Z) : outcome (list Z) :=
  a ← for_up (Z.to_nat LASTCHAR) 0 (λ i a, store a i (-1)) a;
  for_up (Z.to_nat TABLESIZE) 0 (λ i a, c ← load table i; store a c i) a.

(** The recursion decrements an [unsigned]; [fuel] bounds its depth. *)
Fixpoint id_decode (fuel : nat) (a p : list Z) (off l : Z) : outcome Z :=
  match fuel with
  | O => NoFuel
  | S fuel =>
      let l := u32 (l - 1) in
      if decide (l ≠ 0) then
        hi ← id_decode fuel a p off l;
        hi ← int_result (hi * TABLESIZE);
        c ← load p (off + l);
        d ← load a (s8 c);
        int_result (hi + d)
      else
        c ← load p off;
        load a (s8 c)
  end.

Definition PREFIXLEN : Z := 2.
Definition NIDLEN : Z := 4.
Definition PIDLEN : Z := 6.
Definition NAMELEN : Z := PREFIXLEN + NIDLEN + PIDLEN.

(** The loop over the digits: whether one is not of the alphabet. *)
Fixpoint check_digits (k : nat) (a p : list Z) (i : Z) : outcome bool :=
  match k with
  | O => Ret true
  | S k =>
      c ← load p i;
      d ← load a (s8 c);
      if decide (d = -1) then Ret false else check_digits k a p (i + 1)
  end.

(** The verdict, and the object [*pp] points to afterwards; [buf] is static. *)
Definition check (a p buf : list Z) : outcome (Z * list Z) :=
  n ← strlen p 0;
  let l := s32 n in
  c0 ← load p 0;
  r ← (if decide (c0 ≠ 36) then
         if decide (l + 1 ≠ NAMELEN) then Ret None
         else q ← memcpy buf 1 p 0 (NAMELEN - 1); Ret (Some q)
       else if decide (l ≠ NAMELEN) then Ret None else Ret (Some p));
  match r with
  | None => Ret (1, p)
  | Some q =>
      c1 ← load q 1;
      if decide (c1 ≠ 90) then Ret (1, q)
      else
        ok ← check_digits (Z.to_nat (NAMELEN - PREFIXLEN)) a q PREFIXLEN;
        Ret (if ok : bool then 0 else 1, q)
  end.

(** "$" and eleven zeros. *)
Definition check_buf : list Z := 36 :: replicate 11 0.

Inductive answer := MissingName | InvalidName | Ids (nid pid : Z).

(** The exit code and what is logged; [argv1] is the object of argv[1]. *)
Definition main (a : list Z) (argc : Z) (argv1 : list Z) : outcome (Z * answer) :=
  if decide (argc = 1) then Ret (1, MissingName)
  else
    '(r, p) ← check a argv1 check_buf;
    if decide (r ≠ 0) then Ret (1, InvalidName)
    else
      nid ← id_decode 5 a p PREFIXLEN NIDLEN;
      pid ← id_decode 7 a p (PREFIXLEN + NIDLEN) PIDLEN;
      Ret (0, Ids nid pid).

(** ** Digits *)

(** The character of a digit. *)
Definition char_of (d : Z) : Z := table !!! Z.to_nat d.

Definition value (ds : list Z) : Z := foldl (λ acc d, acc * 32 + d) 0 ds.

(** The array with room for 'Z', after the constructor. *)
Definition reversed : list Z :=
  match reverse_table (replicate 91 0) with Ret a => a | _ => [] end.

Lemma reversed_digit d : 0 ≤ d < 32 →
  load reversed (s8 (char_of d)) = Ret d ∧ is_char (char_of d) ∧ d ≠ -1.
Proof. revert d. apply (range_all _). by vm_compute. Qed.

Lemma value_snoc ds d : value (ds ++ [d]) = value ds * 32 + d.
Proof. unfold value. by rewrite foldl_snoc. Qed.

Lemma value_bound ds : Forall (λ d, 0 ≤ d < 32) ds → 0 ≤ value ds < 32 ^ zlen ds.
Proof.
  induction ds as [|d ds IH] using rev_ind; [done|]. intros [Hds Hd]%Forall_app. apply Forall_cons in Hd as [Hd _].
  specialize (IH Hds). rewrite value_snoc, length_app, Nat2Z.inj_add, Z.pow_add_r by lia. cbn [length].
  change (32 ^ Z.of_nat 1) with 32. set (P := 32 ^ zlen ds) in *. lia.
Qed.

Lemma id_decode_digits ds pre post fuel :
  ds ≠ [] → Forall (λ d, 0 ≤ d < 32) ds → (length ds ≤ 6)%nat → (length ds ≤ fuel)%nat →
  id_decode fuel reversed (pre ++ map char_of ds ++ post) (zlen pre) (zlen ds) = Ret (value ds).
Proof.
  revert post fuel. induction ds as [|d ds IH] using rev_ind; [done|]. intros post fuel _ [Hds Hd]%Forall_app Hl Hf.
  apply Forall_cons in Hd as [Hd _]. destruct (reversed_digit d Hd) as (Hload & _). rewrite length_app in Hl, Hf. cbn [length] in Hl, Hf.
  destruct fuel as [|fuel]; [lia|]. cbn [id_decode]. rewrite u32_small by len. rewrite map_app, <- app_assoc. cbn [map app].
  destruct ds as [|d0 ds].
  - rewrite decide_False by (cbn; lia). cbn [map app]. rewrite load_app by done. cbind. rewrite Hload. done.
  - rewrite decide_True by len. replace (zlen ((d0 :: ds) ++ [d]) - 1) with (zlen (d0 :: ds)) by len.
    rewrite IH by (done || lia). cbind. pose proof (value_bound _ Hds) as Hv.
    assert (32 ^ zlen (d0 :: ds) ≤ 32 ^ 5) by (apply Z.pow_le_mono_r; lia). change (32 ^ 5) with 33554432 in *.
    unfold TABLESIZE. rewrite int_result_small by lia. cbind.
    rewrite app_assoc, load_app by len. cbind. rewrite Hload. cbind. rewrite int_result_small by lia. by rewrite value_snoc.
Qed.

Lemma check_digits_ok ds pre post :
  Forall (λ d, 0 ≤ d < 32) ds →
  check_digits (length ds) reversed (pre ++ map char_of ds ++ post) (zlen pre) = Ret true.
Proof.
  intros H. revert pre. induction H as [|d ds Hd Hds IH]; intros pre; cbn [length check_digits map app]; [done|].
  destruct (reversed_digit d Hd) as (Hload & _ & Hne). rewrite load_app by done. cbind. rewrite Hload. cbind.
  rewrite decide_False by done. specialize (IH (pre ++ [char_of d])). rewrite <- app_assoc in IH.
  replace (zlen pre + 1) with (zlen (pre ++ [char_of d])) by len. done.
Qed.

Lemma char_of_chars ds : Forall (λ d, 0 ≤ d < 32) ds → Forall is_char (map char_of ds).
Proof.
  intros H. apply Forall_fmap. eapply Forall_impl; [exact H|]. intros d Hd. by apply reversed_digit.
Qed.

(** The name of a node and a process. *)
Definition name (ns ps : list Z) : list Z := [36; 90] ++ map char_of ns ++ map char_of ps.

Lemma name_chars ns ps :
  Forall (λ d, 0 ≤ d < 32) ns → Forall (λ d, 0 ≤ d < 32) ps → Forall is_char (name ns ps).
Proof. intros Hn Hp. repeat (apply Forall_app; split); auto using char_of_chars. by repeat constructor. Qed.

(** The digits of a number, least significant last. *)
Fixpoint digits (k : nat) (n : Z) : list Z :=
  match k with
  | O => []
  | S k => digits k (n / 32) ++ [n mod 32]
  end.

Lemma digits_spec k n : 0 ≤ n < 32 ^ Z.of_nat k →
  value (digits k n) = n ∧ length (digits k n) = k ∧ Forall (λ d, 0 ≤ d < 32) (digits k n).
Proof.
  revert n. induction k as [|k IH]; intros n Hn; [change (32 ^ Z.of_nat 0) with 1 in Hn; cbn; split_and!; [lia|done|constructor]|].
  rewrite Nat2Z.inj_succ, Z.pow_succ_r in Hn by lia. destruct (IH (n / 32)) as (Hv & Hl & Hf).
  { set (P := 32 ^ Z.of_nat k) in *. split; [apply Z.div_pos; lia|apply Z.div_lt_upper_bound; lia]. }
  cbn [digits]. rewrite value_snoc, Hv. split_and!; [mlia|rewrite length_app, Hl; cbn; lia|].
  apply Forall_app. split; [done|]. constructor; [mlia|constructor].
Qed.

(** ** Properties *)

(** The constructor writes the entry of 'Z' one past the end of its array
    of 90; with room for it, names are read back: for every node below 32^4
    and process below 32^6, the program given their name, with or without the
    leading dollar sign, prints exactly them. *)
Theorem id_roundtrip nid pid a r :
  0 ≤ nid < 32 ^ 4 → 0 ≤ pid < 32 ^ 6 → length a = 90%nat →
  let s := name (digits 4 nid) (digits 6 pid) in
  reverse_table a = Undef ∧
  reverse_table (replicate 91 0) = Ret reversed ∧
  main reversed 2 (s ++ 0 :: r) = Ret (0, Ids nid pid) ∧
  main reversed 2 (drop 1 s ++ 0 :: r) = Ret (0, Ids nid pid).
Proof.
  intros Hn Hp Ha. cbn zeta.
  destruct (digits_spec 4 nid Hn) as (Vn & Ln & Fn). destruct (digits_spec 6 pid Hp) as (Vp & Lp & Fp).
  set (ns := digits 4 nid) in *. set (ps := digits 6 pid) in *. clearbody ns ps.
  pose proof (name_chars ns ps Fn Fp) as Hc.
  assert (∀ x, check_digits 10 reversed ([36; 90] ++ (map char_of ns ++ map char_of ps) ++ x) 2 = Ret true) as Hcheck.
  { intros x. rewrite <- map_app. replace 10%nat with (length (ns ++ ps)) by len.
    apply (check_digits_ok (ns ++ ps) [36; 90] x). by apply Forall_app. }
  assert (∀ x, id_decode 5 reversed ([36; 90] ++ (map char_of ns ++ map char_of ps) ++ x) 2 4 = Ret nid) as Hnid.
  { intros x. rewrite <- (app_assoc (map char_of ns)), <- Vn. replace 4 with (zlen ns) by lia.
    apply (id_decode_digits ns [36; 90]); [by destruct ns|done|lia|lia]. }
  assert (∀ x, id_decode 7 reversed ([36; 90] ++ (map char_of ns ++ map char_of ps) ++ x) 6 6 = Ret pid) as Hpid.
  { intros x. rewrite <- (app_assoc (map char_of ns)), app_assoc, <- Vp.
    replace 6 with (zlen ([36; 90] ++ map char_of ns)) at 1 by len. replace 6 with (zlen ps) by lia.
    apply (id_decode_digits ps ([36; 90] ++ map char_of ns)); [by destruct ps|done|lia|lia]. }
  split_and!.
  - open_buffer 90 a. vm_compute. reflexivity.
  - reflexivity.
  - unfold main, check. rewrite decide_False by lia. unfold name in *. rewrite strlen_cstr by (by apply is_char_nonzero). cbind.
    rewrite s32_small by len. rewrite <- app_assoc.
    change (load ([36; 90] ++ ?x) 0) with (Ret (A := Z) 36). cbind. rewrite (decide_False (P := (36 ≠ 36))) by lia.
    rewrite (decide_False (P := (_ ≠ NAMELEN))) by (unfold NAMELEN, PREFIXLEN, NIDLEN, PIDLEN; len). cbind.
    change (load ([36; 90] ++ ?x) 1) with (Ret (A := Z) 90). cbind. rewrite (decide_False (P := (90 ≠ 90))) by lia.
    change (Z.to_nat (NAMELEN - PREFIXLEN)) with 10%nat. change PREFIXLEN with 2. rewrite Hcheck. cbind.
    rewrite decide_False by lia. change NIDLEN with 4. rewrite Hnid. cbind. change (2 + 4) with 6. change PIDLEN with 6.
    by rewrite Hpid.
  - unfold name in *. cbn [app drop] in *. apply Forall_cons in Hc as [_ Hc].
    unfold main, check. rewrite decide_False by lia. rewrite app_comm_cons, strlen_cstr by (by apply is_char_nonzero). cbind.
    rewrite s32_small by len. cbn [app]. change (load (90 :: ?x) 0) with (Ret (A := Z) 90). cbind.
    rewrite (decide_True (P := (90 ≠ 36))) by lia.
    rewrite (decide_False (P := (_ ≠ NAMELEN))) by (unfold NAMELEN, PREFIXLEN, NIDLEN, PIDLEN; len).
    unfold memcpy. rewrite app_comm_cons. rewrite load_n_prefix by (change (NAMELEN - 1) with 11; len). cbind.
    pose proof (store_n_app [36] (replicate 11 0) [] (90 :: map char_of ns ++ map char_of ps) 1 eq_refl) as E.
    change (store_n check_buf 1 ?vs) with (store_n ([36] ++ replicate 11 0 ++ []) 1 vs). rewrite E by len. cbind.
    rewrite app_nil_r. cbn [app]. change (load (36 :: 90 :: ?x) 1) with (Ret (A := Z) 90). cbind.
    rewrite (decide_False (P := (90 ≠ 90))) by lia. change (Z.to_nat (NAMELEN - PREFIXLEN)) with 10%nat. change PREFIXLEN with 2.
    specialize (Hcheck []). specialize (Hnid []). specialize (Hpid []). rewrite app_nil_r in Hcheck, Hnid, Hpid. cbn [app] in *.
    rewrite Hcheck. cbind. rewrite decide_False by lia. change NIDLEN with 4. rewrite Hnid. cbind. change (2 + 4) with 6.
    change PIDLEN with 6. by rewrite Hpid.
Qed.

Lemma id_roundtrip_witness :
  let s := name (digits 4 33) (digits 6 1000000) in
  reverse_table (replicate 90 0) = Undef ∧
  reverse_table (replicate 91 0) = Ret reversed ∧
  main reversed 2 (s ++ [0]) = Ret (0, Ids 33 1000000) ∧
  main reversed 2 (drop 1 s ++ [0]) = Ret (0, Ids 33 1000000).
Proof. apply (id_roundtrip 33 1000000 (replicate 90 0) []); [by_eval|by_eval|done]. Defined.
