(* ===== verification/ByteReader.v ===== *)
(** * codec/clip_varchar.c: reading columns of a row

    A reader over a byte object, with the checked [peak] and [read], and the
    three ways a VARCHAR column is copied out of a row.  The reader is counted;
    a reader whose count reached zero is freed and must not be used. *)
From Stdlib Require Import ZArith Lia.
From stdpp Require Import base tactics numbers list.
From S2P Require Import Prelude.

Open Scope Z_scope.

(** ** The code *)
Record byte_reader := Reader { r_data : Z; r_end : Z; r_ref : Z }.

Record desc := Desc {
  d_data : list Z; d_null : option (list Z);
  d_type : Z; d_charset : Z; d_len : Z; d_mode : Z }.

Definition SQLTYPECODE_VARCHAR_WITH_LENGTH : Z := -601.

Section reader.
Context (m : list Z).

(** The result and the destination; a null destination is [None]. *)
Definition byte_reader_peak (r : byte_reader) (dest : option (list Z)) (n : Z) : outcome (Z * option (list Z)) :=
  if decide (r_data r + n > r_end r) then Ret (-1, dest)
  else
    match dest with
    | None => Undef
    | Some d => d ← memcpy d 0 m (r_data r) n; Ret (0, Some d)
    end.

Definition byte_reader_read (r : byte_reader) (dest : option (list Z)) (n : Z) :
    outcome (Z * byte_reader * option (list Z)) :=
  '(e, dest) ← byte_reader_peak r dest n;
  if decide (e = 0) then Ret (0, Reader (r_data r + n) (r_end r) (r_ref r), dest)
  else Ret (-1, r, dest).

Definition byte_reader_new (data len : Z) : byte_reader := Reader data (data + len) 1.

Definition byte_reader_ref (r : byte_reader) : byte_reader := Reader (r_data r) (r_end r) (s32 (r_ref r + 1)).

(** [None]: the reader was freed. *)
Definition byte_reader_unref (r : byte_reader) : option byte_reader :=
  let n := s32 (r_ref r - 1) in
  if decide (n = 0) then None else Some (Reader (r_data r) (r_end r) n).

(** A local integer of [k] bytes, zero, that [peak] may fill. *)
Definition peak_local (r : byte_reader) (k : nat) : outcome (list Z) :=
  '(_, d) ← byte_reader_peak r (Some (replicate k 0)) (Z.of_nat k);
  match d with Some d => Ret d | None => Undef end.

Definition peak_short (r : byte_reader) : outcome Z := d ← peak_local r 2; v ← load16 d 0; Ret (s16 v).
Definition peak_int (r : byte_reader) : outcome Z := d ← peak_local r 4; load32 d 0.

Definition set_data (d : desc) (x : option (list Z)) : desc :=
  match x with
  | Some x => Desc x (d_null d) (d_type d) (d_charset d) (d_len d) (d_mode d)
  | None => d
  end.
Definition set_null (d : desc) (x : option (list Z)) : desc :=
  Desc (d_data d) x (d_type d) (d_charset d) (d_len d) (d_mode d).

Definition copy_column_varchar_notnull (r : byte_reader) (d : desc) : outcome (byte_reader * desc) :=
  l ← (if decide (d_len d > 0x7fff) then peak_int r else peak_short r);
  n ← int_result (l + 2);
  '(_, r, x) ← byte_reader_read r (Some (d_data d)) n;
  Ret (r, set_data d x).

Definition copy_column_varchar_nullable (r : byte_reader) (d : desc) : outcome (byte_reader * desc) :=
  null ← peak_short r;
  '(_, r, x) ← byte_reader_read r (d_null d) 2;
  let d := set_null d x in
  if decide (null ≠ -1) then copy_column_varchar_notnull r d else Ret (r, d).

(** The bytes a VARCHAR of declared length [l] occupies. *)
Definition declared (type l : Z) : outcome Z :=
  if decide (type = SQLTYPECODE_VARCHAR_WITH_LENGTH) then
    if decide (l > 0x7fff) then
      a ← int_result (l + 3); int_result (Z.land a (Z.lnot 3) + 4)
    else
      a ← int_result (l + 1); int_result (Z.land a (Z.lnot 1) + 2)
  else Ret l.

Definition copy_column_varchar_general (r : byte_reader) (d : desc) : outcome (byte_reader * desc) :=
  '(r, d) ← match d_null d with
            | Some _ => '(_, r, x) ← byte_reader_read r (d_null d) 2; Ret (r, set_null d x)
            | None => Ret (r, d)
            end;
  n ← declared (d_type d) (d_len d);
  '(_, r, x) ← byte_reader_read r (Some (d_data d)) n;
  Ret (r, set_data d x).
End reader.

(** ** Reading a block *)

(** [bs] is in the row at the reader, and the row does not end before it. *)
Lemma read_block pre bs post blk rest e ref n :
  n = zlen bs → zlen pre + n ≤ e → length blk = length bs →
  byte_reader_read (pre ++ bs ++ post) (Reader (zlen pre) e ref) (Some (blk ++ rest)) n =
    Ret (0, Reader (zlen pre + n) e ref, Some (bs ++ rest)).
Proof.
  intros -> He Hb. unfold byte_reader_read, byte_reader_peak. cbn [r_data r_end r_ref].
  rewrite decide_False by lia. unfold memcpy. rewrite load_n_app by done. cbind.
  pose proof (store_n_app [] blk rest bs 0 eq_refl (eq_sym Hb)) as E. cbn [app] in E. rewrite E. done.
Qed.

Lemma read_refused m r dest n : r_data r + n > r_end r → byte_reader_read m r dest n = Ret (-1, r, dest).
Proof. intros H. unfold byte_reader_read, byte_reader_peak. rewrite decide_True by done. done. Qed.

Lemma read_negative m r dest n : r_data r + n ≤ r_end r → n < 0 → byte_reader_read m r dest n = Undef.
Proof.
  intros H Hn. unfold byte_reader_read, byte_reader_peak. rewrite decide_False by lia.
  destruct dest as [d|]; [|done]. unfold memcpy, load_n. rewrite decide_False by lia. done.
Qed.

Lemma peak_block pre bs post e ref :
  zlen pre + zlen bs ≤ e →
  peak_local (pre ++ bs ++ post) (Reader (zlen pre) e ref) (length bs) = Ret bs.
Proof.
  intros He. unfold peak_local, byte_reader_peak. cbn [r_data r_end]. rewrite decide_False by lia.
  unfold memcpy. rewrite load_n_app by done. cbind.
  pose proof (store_n_app [] (replicate (length bs) 0) [] bs 0 eq_refl) as E. cbn [app] in E. rewrite !app_nil_r in E.
  rewrite E by (by rewrite length_replicate). done.
Qed.

(** Little-endian lengths. *)
Definition le16 (l : Z) : list Z := [l mod 256; l / 256 mod 256].
Definition le32 (l : Z) : list Z := [l mod 256; l / 256 mod 256; l / 65536 mod 256; l / 16777216 mod 256].

Lemma peak_short_le pre l post e ref :
  -32768 ≤ l ≤ 32767 → zlen pre + 2 ≤ e → peak_short (pre ++ le16 l ++ post) (Reader (zlen pre) e ref) = Ret l.
Proof.
  intros Hl He. unfold peak_short. rewrite (peak_block pre (le16 l)) by done. cbind.
  change (load16 (le16 l) 0) with (Ret (A := Z) (l mod 256 + 256 * (l / 256 mod 256))). cbind. f_equal.
  unfold s16, swrap. eval_pow. mlia.
Qed.

Lemma peak_int_le pre l post e ref :
  -2147483648 ≤ l ≤ 2147483647 → zlen pre + 4 ≤ e → peak_int (pre ++ le32 l ++ post) (Reader (zlen pre) e ref) = Ret l.
Proof.
  intros Hl He. unfold peak_int. rewrite (peak_block pre (le32 l)) by done. cbind.
  change (load32 (le32 l) 0) with (Ret (s32 (l mod 256 + 256 * (l / 256 mod 256) + 65536 * (l / 65536 mod 256) + 16777216 * (l / 16777216 mod 256)))).
  f_equal. unfold s32, swrap. eval_pow. mlia.
Qed.

(** ** Properties *)

(** A VARCHAR column of declared length up to 32767, whose length field
    holds [l].  When the row contains the field and [l] bytes, exactly those
    are copied and the reader moves past them; when the row ends before them,
    nothing changes and the failure is dropped; a length below -2 makes the
    copy undefined. *)
Theorem varchar_short pre l payload post e ref blk rest d :
  -32768 ≤ l ≤ 32767 → zlen pre + 2 ≤ e → d_len d ≤ 0x7fff → d_data d = blk ++ rest →
  let row := pre ++ le16 l ++ payload ++ post in
  (0 ≤ l → zlen payload = l → length blk = length (le16 l ++ payload) → zlen pre + 2 + l ≤ e →
     copy_column_varchar_notnull row (Reader (zlen pre) e ref) d =
       Ret (Reader (zlen pre + 2 + l) e ref, set_data d (Some (le16 l ++ payload ++ rest)))) ∧
  (e < zlen pre + 2 + l →
     copy_column_varchar_notnull row (Reader (zlen pre) e ref) d = Ret (Reader (zlen pre) e ref, d)) ∧
  (l < -2 → copy_column_varchar_notnull row (Reader (zlen pre) e ref) d = Undef).
Proof.
  intros Hl He Hd Hdata row. assert (peak_short row (Reader (zlen pre) e ref) = Ret l) as Hp by (by apply peak_short_le).
  assert (∀ P, (P ↔ d_len d > 0x7fff) → ∀ H : Decision P, (if decide P then peak_int row (Reader (zlen pre) e ref) else peak_short row (Reader (zlen pre) e ref)) = Ret l) as Hlen.
  { intros P HP ?. rewrite decide_False by (rewrite HP; lia). done. }
  unfold copy_column_varchar_notnull. rewrite Hlen by done. cbind. rewrite int_result_small by lia. cbind.
  rewrite Hdata. split_and!.
  - intros Hl0 Hpl Hb Hfit. unfold row. rewrite (app_assoc (le16 l)).
    rewrite read_block; [|rewrite length_app, Nat2Z.inj_add; change (zlen (le16 l)) with 2; lia|lia|done].
    cbind. rewrite <- app_assoc. do 3 f_equal. lia.
  - intros Hcut. rewrite read_refused by (cbn [r_data r_end]; lia). cbind. unfold set_data. rewrite <- Hdata. by destruct d.
  - intros Hneg. rewrite read_negative; [done|cbn [r_data r_end]; lia|lia].
Qed.

Lemma varchar_short_witness :
  (0 ≤ 3 → zlen [97; 98; 99] = 3 → length (replicate 5 0) = length (le16 3 ++ [97; 98; 99]) → 1 + 2 + 3 ≤ 7 →
     copy_column_varchar_notnull ([9] ++ le16 3 ++ [97; 98; 99] ++ [7]) (Reader 1 7 1) (Desc (replicate 5 0 ++ [0; 0]) None (-601) 0 5 0) =
       Ret (Reader (1 + 2 + 3) 7 1, Desc ([3; 0; 97; 98; 99] ++ [0; 0]) None (-601) 0 5 0)) ∧
  (7 < 1 + 2 + 3 →
     copy_column_varchar_notnull ([9] ++ le16 3 ++ [97; 98; 99] ++ [7]) (Reader 1 7 1) (Desc (replicate 5 0 ++ [0; 0]) None (-601) 0 5 0) =
       Ret (Reader 1 7 1, Desc (replicate 5 0 ++ [0; 0]) None (-601) 0 5 0)) ∧
  (3 < -2 → copy_column_varchar_notnull ([9] ++ le16 3 ++ [97; 98; 99] ++ [7]) (Reader 1 7 1) (Desc (replicate 5 0 ++ [0; 0]) None (-601) 0 5 0) = Undef).
Proof.
  apply (varchar_short [9] 3 [97; 98; 99] [7] 7 1 (replicate 5 0) [0; 0] (Desc (replicate 5 0 ++ [0; 0]) None (-601) 0 5 0));
    [lia|cbn; lia|cbn; lia|done].
Defined.

(** A column of declared length above 32767 has a length field of four
    bytes, but the copy takes [l] + 2 bytes: the last two bytes of the payload
    are neither copied nor skipped. *)
Theorem varchar_long_clipped pre l payload post e ref blk rest d :
  2 ≤ l ≤ 2147483645 → zlen payload = l → zlen pre + 4 + l ≤ e → d_len d > 0x7fff →
  d_data d = blk ++ rest → zlen blk = l + 2 →
  copy_column_varchar_notnull (pre ++ le32 l ++ payload ++ post) (Reader (zlen pre) e ref) d =
    Ret (Reader (zlen pre + 4 + l - 2) e ref,
         set_data d (Some (le32 l ++ take (Z.to_nat (l - 2)) payload ++ rest))).
Proof.
  intros Hl Hpl He Hd Hdata Hb. unfold copy_column_varchar_notnull.
  rewrite decide_True by lia. rewrite peak_int_le by lia. cbind. rewrite int_result_small by lia. cbind. rewrite Hdata.
  rewrite <- (take_drop (Z.to_nat (l - 2)) payload) at 1.
  replace (le32 l ++ (take (Z.to_nat (l - 2)) payload ++ drop (Z.to_nat (l - 2)) payload) ++ post) with
    ((le32 l ++ take (Z.to_nat (l - 2)) payload) ++ drop (Z.to_nat (l - 2)) payload ++ post) by (by rewrite <- !app_assoc).
  assert (zlen (le32 l ++ take (Z.to_nat (l - 2)) payload) = l + 2) as Hlen.
  { rewrite length_app, length_take. change (length (le32 l)) with 4%nat. lia. }
  rewrite read_block by lia. cbind. rewrite <- app_assoc. do 3 f_equal. lia.
Qed.

Lemma varchar_long_clipped_witness :
  copy_column_varchar_notnull ([] ++ le32 3 ++ [97; 98; 99] ++ []) (Reader 0 7 1) (Desc (replicate 5 0 ++ [0; 0]) None (-601) 0 40000 0) =
    Ret (Reader (0 + 4 + 3 - 2) 7 1, Desc (le32 3 ++ [97] ++ [0; 0]) None (-601) 0 40000 0).
Proof.
  apply (varchar_long_clipped [] 3 [97; 98; 99] [] 7 1 (replicate 5 0) [0; 0] (Desc (replicate 5 0 ++ [0; 0]) None (-601) 0 40000 0));
    [lia|done|cbn; lia|cbn; lia|done|done].
Defined.
