(* ===== verification/Message.v ===== *)
(** * socket/monitor/message.h and message.cpp: packed messages

    A [Packer] collects bytes; an [Unpacker] is a cursor and an end over a byte
    object.  What can be packed and unpacked is a class of operations,
    [Packable]; that unpacking undoes packing is a class of its own,
    [PackableLaw], with an instance, that is a proof, for each kind of field.
    The messages and the frames on a stream are built on them.  The integers are
    those of a little-endian machine; a double is its eight bytes. *)
From Stdlib Require Import ZArith Lia.
From stdpp Require Import base tactics numbers list.
From S2P Require Import Prelude.

Open Scope Z_scope.

(** ** The unpacker *)
Record Unpacker := MkUnpacker { data_ : Z; end_ : Z }.

Section unpacker.
Context (m : list Z).

(** [template<class T> bool unpack(T &t)] for a [T] of [k] bytes: the old bytes
    stay when the data end too early. *)
Definition unpack_raw (k : Z) (r : Unpacker) (t : list Z) : outcome (bool * Unpacker * list Z) :=
  if decide (data_ r + k > end_ r) then Ret (false, r, t)
  else
    bs ← load_n m (data_ r) k;
    Ret (true, MkUnpacker (data_ r + k) (end_ r), bs).

Definition int_of (bs : list Z) : Z :=
  s32 (bs !!! 0%nat + 256 * bs !!! 1%nat + 65536 * bs !!! 2%nat + 16777216 * bs !!! 3%nat).
Definition int_bytes (v : Z) : list Z := [v mod 256; v / 256 mod 256; v / 65536 mod 256; v / 16777216 mod 256].

Definition unpack_int (r : Unpacker) (t : Z) : outcome (bool * Unpacker * Z) :=
  '(ok, r, bs) ← unpack_raw 4 r (int_bytes t);
  Ret (ok, r, if ok : bool then int_of bs else t).

(** [unpack(std::string &t)] skips a terminator after the text, [unpack(
    std::vector<char> &t)] does not: [extra] is 1 or 0.  An empty text leaves
    [t] as it is; a range that ends before it starts is undefined. *)
Definition unpack_bytes (extra : Z) (r : Unpacker) (t : list Z) : outcome (bool * Unpacker * list Z) :=
  '(ok, r, l) ← unpack_int r 0;
  if ok : bool then
    if decide (l = 0) then Ret (true, r, t)
    else if decide (data_ r + l + extra > end_ r) then Ret (false, r, t)
    else
      s ← load_n m (data_ r) l;
      Ret (true, MkUnpacker (data_ r + (l + extra)) (end_ r), s)
  else Ret (false, r, t).

Definition unpack_string := unpack_bytes 1.
Definition unpack_vector := unpack_bytes 0.
End unpacker.

(** ** The packer *)
Definition pack_int (v : Z) : list Z := int_bytes v.

Definition pack_string (t : list Z) : list Z :=
  match t with
  | [] => pack_int 0
  | _ => pack_int (s32 (zlen t)) ++ t ++ [0]
  end.

Definition pack_vector (t : list Z) : list Z :=
  match t with
  | [] => pack_int 0
  | _ => pack_int (s32 (zlen t)) ++ t
  end.

(** ** The interface *)
Class Packable (A : Type) := {
  pack : A → list Z;
  unpack : list Z → Unpacker → A → outcome (bool * Unpacker * A);
  fresh : A;
  packs : A → Prop;
}.

(** Unpacking into a fresh object undoes packing, whatever follows. *)
Class PackableLaw (A : Type) `{Packable A} := unpack_pack :
  ∀ pre a post e, packs a → zlen pre + zlen (pack a) ≤ e →
    unpack (pre ++ pack a ++ post) (MkUnpacker (zlen pre) e) fresh =
      Ret (true, MkUnpacker (zlen pre + zlen (pack a)) e, a).

(** [r.unpack(a) && r.unpack(b)] *)
Definition unpack_both {A B} `{Packable A, Packable B} (m : list Z) (r : Unpacker) (t : A * B) :
    outcome (bool * Unpacker * (A * B)) :=
  '(ok, r, a) ← unpack m r t.1;
  if ok : bool then '(ok, r, b) ← unpack m r t.2; Ret (ok, r, (a, b))
  else Ret (false, r, (a, t.2)).

(** [bool unpack(const char *data, const char *end, int &l)] of a message, by
    its fields: a new unpacker over the rest, and the bytes it took. *)
Definition unpack_at {A} `{Packable A} (m : list Z) (data e : Z) (t : A) : outcome (bool * Z * A) :=
  '(ok, r, t) ← unpack m (MkUnpacker data (data + s32 (e - data))) t;
  Ret (ok, if ok : bool then s32 (data_ r - data) else 0, t).

(** [bool Unpacker::unpack(unpackable *obj)] *)
Definition unpack_obj {A} `{Packable A} (m : list Z) (r : Unpacker) (t : A) : outcome (bool * Unpacker * A) :=
  '(ok, l, t) ← unpack_at m (data_ r) (end_ r) t;
  if ok : bool then Ret (true, MkUnpacker (data_ r + l) (end_ r), t) else Ret (false, r, t).

(** ** Frames *)
Definition MSGNOTHING : Z := 0.
Definition MSGREQUEST : Z := 1.
Definition MSGRESPONSE : Z := 2.
Definition MSGPING : Z := 3.
Definition MSGPONG : Z := 4.
Definition MSGCMD : Z := 5.

(** [MsgRaw]: a type and a payload; [write] on a stream that takes everything. *)
Record MsgRaw := Raw { type : Z; payload : list Z }.

Definition raw_write (msg : MsgRaw) : list Z :=
  int_bytes (type msg) ++ int_bytes (s32 (zlen (payload msg))) ++ payload msg.

(** [recv(fd, buf, n, MSG_WAITALL)] from the bytes the peer will send before it
    closes: what was received and what is left. *)
Definition recv (stream : list Z) (n : Z) : list Z * list Z :=
  (take (Z.to_nat n) stream, drop (Z.to_nat n) stream).

Definition raw_read (self : MsgRaw) (stream : list Z) : bool * MsgRaw * list Z :=
  let '(hdr, stream) := recv stream 8 in
  if decide (zlen hdr ≠ 8) then (false, self, stream)
  else
    let t := int_of (take 4 hdr) in
    let l := int_of (drop 4 hdr) in
    if decide (l ≤ 0) then (true, Raw t (payload self), stream)
    else
      let '(p, stream) := recv stream l in
      (* the payload is resized to l, and the bytes not received are zero *)
      (bool_decide (zlen p = l), Raw t (p ++ replicate (Z.to_nat l - length p) 0), stream).

(** ** Integers *)
Definition is_int (v : Z) : Prop := -2147483648 ≤ v ≤ 2147483647.

Lemma int_of_bytes v : is_int v → int_of (int_bytes v) = v.
Proof.
  unfold is_int. intros Hv. unfold int_of, int_bytes, s32, swrap. cbn [lookup_total list_lookup_total]. eval_pow. mlia.
Qed.

Lemma unpack_raw_fits bs pre post e t k :
  k = zlen bs → zlen pre + k ≤ e →
  unpack_raw (pre ++ bs ++ post) k (MkUnpacker (zlen pre) e) t = Ret (true, MkUnpacker (zlen pre + k) e, bs).
Proof.
  intros -> He. unfold unpack_raw. cbn [data_ end_]. rewrite decide_False by lia. by rewrite load_n_app by done.
Qed.

Lemma unpack_int_fits v pre post e t :
  is_int v → zlen pre + 4 ≤ e →
  unpack_int (pre ++ int_bytes v ++ post) (MkUnpacker (zlen pre) e) t = Ret (true, MkUnpacker (zlen pre + 4) e, v).
Proof.
  intros Hv He. unfold unpack_int. rewrite unpack_raw_fits by done. cbind. by rewrite int_of_bytes.
Qed.

(** A length field and that many bytes, then [extra] more. *)
Lemma unpack_bytes_fits extra x t pre post e old :
  t ≠ [] → zlen t ≤ 2147483647 → 0 ≤ extra → zlen x = extra → zlen pre + 4 + zlen t + extra ≤ e →
  unpack_bytes (pre ++ (int_bytes (s32 (zlen t)) ++ t ++ x) ++ post) extra (MkUnpacker (zlen pre) e) old =
    Ret (true, MkUnpacker (zlen pre + zlen (int_bytes (s32 (zlen t)) ++ t ++ x)) e, t).
Proof.
  intros Hne Ht Hx Hxl He. rewrite s32_small by lia. unfold unpack_bytes. rewrite <- app_assoc.
  rewrite unpack_int_fits by (unfold is_int; lia). cbind. cbn [data_ end_].
  rewrite decide_False by (destruct t; [done|cbn; lia]). rewrite decide_False by lia.
  replace (pre ++ int_bytes (zlen t) ++ (t ++ x) ++ post) with ((pre ++ int_bytes (zlen t)) ++ t ++ x ++ post) by (by rewrite <- !app_assoc).
  rewrite load_n_app by (norm_length; change (length (int_bytes (zlen t))) with 4%nat; lia). cbind.
  do 3 f_equal. norm_length. change (length (int_bytes (zlen t))) with 4%nat. f_equal. lia.
Qed.

(** ** Instances *)
#[export] Instance packable_int : Packable Z := {|
  pack := pack_int; unpack := unpack_int; fresh := 0; packs := is_int |}.
#[export] Instance packable_int_law : PackableLaw Z.
Proof. intros pre v post e Hv He. by apply unpack_int_fits. Qed.

(** A [std::string] and a [std::vector<char>], kept apart by their types. *)
Record string_ := Str { chars : list Z }.
Record vector_ := Vec { elems : list Z }.

Definition sized (t : list Z) : Prop := zlen t ≤ 2147483647.

Lemma unpack_empty extra pre post e :
  zlen pre + 4 ≤ e →
  unpack_bytes (pre ++ int_bytes 0 ++ post) extra (MkUnpacker (zlen pre) e) [] = Ret (true, MkUnpacker (zlen pre + 4) e, []).
Proof. intros He. unfold unpack_bytes. rewrite unpack_int_fits by (done || lia). done. Qed.

Definition wrap_unpack {A} (f : list Z → A) (x : outcome (bool * Unpacker * list Z)) : outcome (bool * Unpacker * A) :=
  '(ok, r, s) ← x; Ret (ok, r, f s).

#[export] Instance packable_string : Packable string_ := {|
  pack s := pack_string (chars s);
  unpack m r t := wrap_unpack Str (unpack_string m r (chars t));
  fresh := Str []; packs s := sized (chars s) |}.
#[export] Instance packable_string_law : PackableLaw string_.
Proof.
  intros pre [t] post e Ht He. cbn [pack unpack fresh packs packable_string chars] in *. unfold sized, pack_string, unpack_string in *. destruct t as [|c t].
  - rewrite unpack_empty by done. done.
  - rewrite unpack_bytes_fits; [done|done|done|lia|done|]. revert He. norm_length.
    change (length (pack_int _)) with 4%nat. lia.
Qed.

#[export] Instance packable_vector : Packable vector_ := {|
  pack v := pack_vector (elems v);
  unpack m r t := wrap_unpack Vec (unpack_vector m r (elems t));
  fresh := Vec []; packs v := sized (elems v) |}.
#[export] Instance packable_vector_law : PackableLaw vector_.
Proof.
  intros pre [t] post e Ht He. cbn [pack unpack fresh packs packable_vector elems] in *. unfold sized, pack_vector, unpack_vector in *. destruct t as [|c t].
  - rewrite unpack_empty by done. done.
  - pose proof (unpack_bytes_fits 0 [] (c :: t) pre post e [] ltac:(done) Ht ltac:(lia) eq_refl) as E.
    rewrite app_nil_r in E. unfold pack_int. rewrite E; [done|]. revert He. norm_length.
    change (length (pack_int _)) with 4%nat. lia.
Qed.

(** A double is eight bytes as they are. *)
Record double_ := Dbl { dbytes : list Z }.
#[export] Instance packable_double : Packable double_ := {|
  pack d := dbytes d;
  unpack m r t := wrap_unpack Dbl (unpack_raw m 8 r (dbytes t));
  fresh := Dbl (replicate 8 0); packs d := length (dbytes d) = 8%nat |}.
#[export] Instance packable_double_law : PackableLaw double_.
Proof.
  intros pre [t] post e Ht He. cbn [pack unpack fresh packs packable_double dbytes] in *.
  rewrite (unpack_raw_fits t) by lia. cbind. rewrite Ht. done.
Qed.

(** Two fields, one after the other. *)
#[export] Instance packable_both {A B} `{Packable A, Packable B} : Packable (A * B) := {|
  pack t := pack t.1 ++ pack t.2; unpack := unpack_both; fresh := (fresh, fresh);
  packs t := packs t.1 ∧ packs t.2 |}.
#[export] Instance packable_both_law {A B} `{PackableLaw A, PackableLaw B} : PackableLaw (A * B).
Proof.
  intros pre [a b] post e [Ha Hb] He. cbn [pack unpack fresh packs packable_both fst snd] in *. unfold unpack_both. cbn [fst snd].
  rewrite <- app_assoc, unpack_pack; [|done|revert He; len]. cbind.
  replace (pre ++ pack a ++ pack b ++ post) with ((pre ++ pack a) ++ pack b ++ post) by (by rewrite <- app_assoc).
  replace (zlen pre + zlen (pack a)) with (zlen (pre ++ pack a)) by len.
  rewrite unpack_pack; [|done|revert He; len]. cbind. norm_length. do 3 f_equal. f_equal. lia.
Qed.

(** The messages, as their fields. *)
Definition MsgRequest : Type := Z * Z.
Definition MsgResponse : Type := string_ * vector_.
Definition MsgHeartbeat : Type := double_.
Definition MsgCmd : Type := Z * string_.

(** Their own [pack] and [unpack]. *)
Definition MsgRequest_pack : MsgRequest → list Z := pack.
Definition MsgRequest_unpack : list Z → Z → Z → MsgRequest → outcome (bool * Z * MsgRequest) := unpack_at.
Definition MsgResponse_pack : MsgResponse → list Z := pack.
Definition MsgResponse_unpack : list Z → Z → Z → MsgResponse → outcome (bool * Z * MsgResponse) := unpack_at.
Definition MsgHeartbeat_pack : MsgHeartbeat → list Z := pack.
Definition MsgHeartbeat_unpack : list Z → Z → Z → MsgHeartbeat → outcome (bool * Z * MsgHeartbeat) := unpack_at.
Definition MsgCmd_pack (c : MsgCmd) : list Z := pack_int c.1 ++ pack_string (chars c.2).

(** ** Frames on a stream *)

(** Read [n] frames, each into a new [MsgRaw], until one fails. *)
Fixpoint read_frames (n : nat) (stream : list Z) : list MsgRaw * list Z :=
  match n with
  | O => ([], stream)
  | S n =>
      let '(ok, m, stream) := raw_read (Raw MSGNOTHING []) stream in
      if ok : bool then let '(ms, stream) := read_frames n stream in (m :: ms, stream) else ([], stream)
  end.

Lemma recv_app a b n : n = zlen a → recv (a ++ b) n = (a, b).
Proof. intros ->. unfold recv. rewrite Nat2Z.id. by rewrite take_app_length, drop_app_length. Qed.

Lemma raw_roundtrip msg rest :
  is_int (type msg) → sized (payload msg) →
  raw_read (Raw MSGNOTHING []) (raw_write msg ++ rest) = (true, msg, rest).
Proof.
  intros Ht Hp. destruct msg as [t p]. cbn [type payload] in *. unfold raw_read, raw_write, sized in *. cbn [type payload].
  rewrite s32_small by lia.
  replace ((int_bytes t ++ int_bytes (zlen p) ++ p) ++ rest) with ((int_bytes t ++ int_bytes (zlen p)) ++ p ++ rest) by (by rewrite <- !app_assoc).
  rewrite recv_app by done. rewrite decide_False by (cbn; lia).
  rewrite (take_app_length' (int_bytes t)), (drop_app_length' (int_bytes t)) by done.
  rewrite !int_of_bytes by (done || (unfold is_int; lia)).
  destruct p as [|c p]; [rewrite decide_True by (cbn; lia); done|].
  rewrite decide_False by (cbn; lia). rewrite recv_app by done. rewrite bool_decide_true by done.
  rewrite Nat2Z.id, Nat.sub_diag. cbn [replicate]. by rewrite app_nil_r.
Qed.

(** What the receiver gets out of a frame. *)
Definition delivered {A} `{Packable A} (m : Z * A) (raw : MsgRaw) : Prop :=
  type raw = m.1 ∧
  unpack_obj (payload raw) (MkUnpacker 0 (zlen (payload raw))) fresh =
    Ret (true, MkUnpacker (zlen (payload raw)) (zlen (payload raw)), m.2).

Definition sendable {A} `{Packable A} (m : Z * A) : Prop := is_int m.1 ∧ packs m.2 ∧ sized (pack m.2).

Lemma unpack_obj_pack {A} `{PackableLaw A} pre a post e :
  packs a → zlen pre + zlen (pack a) ≤ e → e - zlen pre ≤ 2147483647 →
  unpack_obj (pre ++ pack a ++ post) (MkUnpacker (zlen pre) e) fresh =
    Ret (true, MkUnpacker (zlen pre + zlen (pack a)) e, a).
Proof.
  intros Ha He Hsz. unfold unpack_obj, unpack_at. cbn [data_ end_]. rewrite s32_small by lia.
  rewrite unpack_pack by (done || lia). cbind. cbn [data_]. rewrite s32_small by lia. do 3 f_equal. f_equal. lia.
Qed.

Lemma delivered_pack {A} `{PackableLaw A} m : sendable m → delivered m (Raw m.1 (pack m.2)).
Proof.
  intros (Ht & Hp & Hs). split; [done|]. cbn [payload].
  pose proof (unpack_obj_pack [] m.2 [] (zlen (pack m.2)) Hp ltac:(cbn; lia) ltac:(unfold sized in Hs; cbn; lia)) as E.
  rewrite app_nil_r in E. exact E.
Qed.

(** ** Messages of every kind *)
Inductive message :=
| MRequest (m : MsgRequest) | MResponse (m : MsgResponse) | MPing (m : MsgHeartbeat) | MPong (m : MsgHeartbeat) | MCmd (m : MsgCmd).

Definition message_type (m : message) : Z :=
  match m with MRequest _ => MSGREQUEST | MResponse _ => MSGRESPONSE | MPing _ => MSGPING | MPong _ => MSGPONG | MCmd _ => MSGCMD end.

Definition message_pack (m : message) : list Z :=
  match m with
  | MRequest q => MsgRequest_pack q
  | MResponse a => MsgResponse_pack a
  | MPing h | MPong h => MsgHeartbeat_pack h
  | MCmd c => MsgCmd_pack c
  end.

(** The bytes of its frame. *)
Definition frame (m : message) : list Z := raw_write (Raw (message_type m) (message_pack m)).

(** What a field of a C++ object can hold, and a payload whose length is an
    [int]. *)
Definition proper (m : message) : Prop :=
  sized (message_pack m) ∧
  match m with
  | MRequest q => is_int q.1 ∧ is_int q.2
  | MResponse a => sized (chars a.1) ∧ sized (elems a.2)
  | MPing h | MPong h => length (dbytes h) = 8%nat
  | MCmd c => is_int c.1
  end.

(** What the receiver has of a message: the type, the payload, and what the
    message's own [unpack] makes of it, which overwrites the members of a
    request or a heartbeat and fills a new response.  A command has none. *)
Definition received (m : message) (raw : MsgRaw) : Prop :=
  type raw = message_type m ∧ payload raw = message_pack m ∧
  match m with
  | MRequest q => ∀ old, MsgRequest_unpack (payload raw) 0 (zlen (payload raw)) old = Ret (true, zlen (payload raw), q)
  | MResponse a => MsgResponse_unpack (payload raw) 0 (zlen (payload raw)) (Str [], Vec []) = Ret (true, zlen (payload raw), a)
  | MPing h | MPong h => ∀ old, MsgHeartbeat_unpack (payload raw) 0 (zlen (payload raw)) old = Ret (true, zlen (payload raw), h)
  | MCmd _ => True
  end.

Lemma unpack_at_pack {A} `{PackableLaw A} (a : A) :
  packs a → sized (pack a) → unpack_at (pack a) 0 (zlen (pack a)) fresh = Ret (true, zlen (pack a), a).
Proof.
  intros Ha Hs. unfold sized in Hs. unfold unpack_at. rewrite Z.sub_0_r, s32_small, Z.add_0_l by lia.
  pose proof (unpack_pack [] a [] (zlen (pack a)) Ha ltac:(cbn; lia)) as E. rewrite app_nil_r in E. change (zlen (@nil Z)) with 0 in E. cbn [app] in E.
  rewrite E. cbind. cbn [data_]. rewrite s32_small by lia. do 2 f_equal. f_equal. lia.
Qed.

Lemma request_received q old :
  is_int q.1 → is_int q.2 → MsgRequest_unpack (MsgRequest_pack q) 0 8 old = Ret (true, 8, q).
Proof.
  intros H1 H2. destruct q as [op arg]. cbn [fst snd] in *. unfold MsgRequest_unpack, MsgRequest_pack, unpack_at.
  cbn [pack unpack packable_both packable_int fst snd]. change (0 + s32 (8 - 0)) with 8. unfold unpack_both.
  pose proof (unpack_int_fits op [] (pack_int arg) 8 old.1 H1 ltac:(cbn; lia)) as E1. change (zlen (@nil Z)) with 0 in E1. cbn [app] in E1.
  cbn [unpack packable_int]. unfold pack_int in *. rewrite E1. cbind.
  pose proof (unpack_int_fits arg (int_bytes op) [] 8 old.2 H2 ltac:(cbn; lia)) as E2. rewrite app_nil_r in E2.
  change (0 + 4) with (zlen (int_bytes op)). rewrite E2. done.
Qed.

Lemma heartbeat_received h old :
  length (dbytes h) = 8%nat → MsgHeartbeat_unpack (MsgHeartbeat_pack h) 0 8 old = Ret (true, 8, h).
Proof.
  intros Hl. destruct h as [bs]. unfold MsgHeartbeat_unpack, MsgHeartbeat_pack, unpack_at. cbn [pack unpack packable_double dbytes] in *.
  change (0 + s32 (8 - 0)) with 8.
  pose proof (unpack_raw_fits bs [] [] 8 (dbytes old) 8 ltac:(lia) ltac:(cbn; lia)) as E. rewrite app_nil_r in E. change (zlen (@nil Z)) with 0 in E. cbn [app] in E.
  rewrite E. done.
Qed.

Lemma frame_received m : proper m → received m (Raw (message_type m) (message_pack m)).
Proof.
  intros [Hs Hm]. split; [done|]. split; [done|]. cbn [payload]. destruct m as [q|a|h|h|c]; cbn [message_pack] in *.
  - intros old. destruct Hm. by apply (request_received q old).
  - exact (unpack_at_pack (A := MsgResponse) a Hm Hs).
  - intros old. cbn [MsgHeartbeat_pack pack packable_double]. unfold MsgHeartbeat_pack in *. cbn [pack packable_double] in *. rewrite Hm. by apply heartbeat_received.
  - intros old. unfold MsgHeartbeat_pack in *. cbn [pack packable_double] in *. rewrite Hm. by apply heartbeat_received.
  - done.
Qed.

(** A frame that ends too early is refused. *)
Lemma frame_cut m n :
  is_int (type m) → sized (payload m) → (n < length (raw_write m))%nat →
  (raw_read (Raw MSGNOTHING []) (take n (raw_write m))).1.1 = false.
Proof.
  intros Ht Hp Hn. destruct m as [t p]. unfold raw_write, sized in *. cbn [type payload] in *. rewrite s32_small in * by lia.
  unfold raw_read. destruct (decide (n < 8)%nat) as [H8|H8].
  - unfold recv. rewrite decide_True; [done|]. rewrite !length_take. lia.
  - rewrite app_assoc in *. rewrite length_app in Hn. change (length (int_bytes t ++ int_bytes (zlen p))) with 8%nat in Hn.
    rewrite take_app, (take_ge (int_bytes t ++ int_bytes (zlen p))) by (cbn; lia). rewrite recv_app by done.
    rewrite decide_False by (cbn; lia). rewrite (take_app_length' (int_bytes t)), (drop_app_length' (int_bytes t)) by done.
    rewrite !int_of_bytes by (done || (unfold is_int; lia)). rewrite decide_False by lia. unfold recv. cbn [fst].
    rewrite bool_decide_false; [done|]. rewrite !length_take. change (length (int_bytes t ++ int_bytes (zlen p))) with 8%nat. lia.
Qed.

(** ** Properties *)

(** C8: messages survive the stream: requests, responses, pings, pongs and
    commands, in any order, written as frames, are read back frame by frame;
    each has its type and payload, and the [unpack] of its kind makes the message
    of it that was sent, also over the members of an older one; the bytes after
    the last frame are left on the stream; and a stream that ends inside a frame
    gives the frames before it and no other. *)
Theorem frames_roundtrip (msgs : list message) rest :
  Forall proper msgs →
  ∃ raws, read_frames (length msgs) (concat (map frame msgs) ++ rest) = (raws, rest) ∧ Forall2 received msgs raws ∧
    ∀ m n, proper m → (n < length (frame m))%nat →
      (read_frames (S (length msgs)) (concat (map frame msgs) ++ take n (frame m))).1 = raws.
Proof.
  intros Hms. exists (map (λ m, Raw (message_type m) (message_pack m)) msgs). split_and!.
  - induction Hms as [|m msgs Hm Hms IH]; cbn [length read_frames map concat]; [done|].
    rewrite <- app_assoc. unfold frame at 1. rewrite raw_roundtrip; [|by destruct m|apply Hm]. by rewrite IH.
  - induction Hms as [|m msgs Hm Hms IH]; constructor; [by apply frame_received|done].
  - intros m n Hm Hn. revert n Hn. induction Hms as [|m' msgs Hm' Hms IH]; intros n Hn; cbn [length map concat app].
    + cbn [read_frames]. pose proof (frame_cut (Raw (message_type m) (message_pack m)) n) as Hc.
      unfold frame. destruct (raw_read _ _) as [[ok raw] st]. cbn [fst] in Hc. rewrite Hc; [done|by destruct m|apply Hm|done].
    + cbn [read_frames]. rewrite <- app_assoc. unfold frame at 1. rewrite raw_roundtrip; [|by destruct m'|apply Hm'].
      specialize (IH n Hn). cbn [length read_frames] in IH. destruct (let '(ok, m0, stream) := _ in _) as [l st] eqn:E.
      cbn [fst] in *. by rewrite IH.
Qed.

Definition sample_messages : list message :=
  [MRequest (7, -1); MResponse (Str [104; 105], Vec []); MPing (Dbl [1; 2; 3; 4; 5; 6; 7; 8]); MCmd (3, Str [120]); MPong (Dbl (replicate 8 0))].

Lemma frames_roundtrip_witness :
  ∃ raws, read_frames 5 (concat (map frame sample_messages) ++ [9]) = (raws, [9]) ∧ Forall2 received sample_messages raws ∧
    ∀ m n, proper m → (n < length (frame m))%nat →
      (read_frames 6 (concat (map frame sample_messages) ++ take n (frame m))).1 = raws.
Proof.
  apply (frames_roundtrip sample_messages [9]).
  repeat (apply Forall_cons; split; [split; [vm_compute; discriminate|vm_compute; repeat split; discriminate]|]). apply Forall_nil. exact I.
Defined.

(** The unpacker on data it does not trust: unpacking a string or a
    vector from any bytes either returns with the cursor still inside the data,
    the target untouched if it failed, or it is undefined and the length field
    is negative; and an empty string leaves the old text of its target. *)
Theorem unpack_bytes_bounds m r t extra :
  (extra = 0 ∨ extra = 1) → 0 ≤ data_ r ≤ end_ r → end_ r ≤ zlen m →
  ((∃ ok r' t', unpack_bytes m extra r t = Ret (ok, r', t') ∧ data_ r ≤ data_ r' ≤ end_ r ∧ end_ r' = end_ r ∧
      (ok = false → t' = t)) ∨
   (unpack_bytes m extra r t = Undef ∧ ∃ l, unpack_int m r 0 = Ret (true, MkUnpacker (data_ r + 4) (end_ r), l) ∧ l < 0)) ∧
  (∀ post, unpack_string (pack_string [] ++ post) (MkUnpacker 0 4) t = Ret (true, MkUnpacker 4 4, t)).
Proof.
  intros Hx Hr He. split.
  - unfold unpack_bytes. assert ((data_ r + 4 > end_ r ∧ unpack_int m r 0 = Ret (false, r, 0)) ∨
      (data_ r + 4 ≤ end_ r ∧ ∃ l, unpack_int m r 0 = Ret (true, MkUnpacker (data_ r + 4) (end_ r), l))) as [[Hd E]|[Hd [l E]]].
    { unfold unpack_int, unpack_raw. destruct (decide (data_ r + 4 > end_ r)); [left; done|right].
      split; [lia|]. unfold load_n. rewrite decide_True by lia. cbind. eauto. }
    + left. rewrite E. cbind. exists false, r, t. split_and!; [done|lia|lia|done|done].
    + rewrite E. cbind. cbn [data_ end_]. case_decide as Hl0.
      { left. eexists true, _, t. split; [done|]. cbn [data_ end_]. split_and!; [lia|lia|done|done]. }
      case_decide as Hl1.
      { left. eexists false, _, t. split; [done|]. cbn [data_ end_]. split_and!; [lia|lia|done|done]. }
      unfold load_n. case_decide as Hl2.
      * left. cbind. eexists true, _, _. split; [done|]. cbn [data_ end_]. split_and!; [lia|lia|done|done].
      * right. split; [done|]. exists l. split; [done|]. lia.
  - intros post. unfold unpack_string, pack_string, unpack_bytes, pack_int.
    pose proof (unpack_int_fits 0 [] post 4 0) as E. cbn [app] in E. change (zlen (@nil Z)) with 0 in E.
    rewrite E by (done || lia). done.
Qed.

Lemma unpack_bytes_bounds_witness :
  ((∃ ok r' t', unpack_bytes [0xff; 0xff; 0xff; 0xff; 65; 0] 1 (MkUnpacker 0 6) [1] = Ret (ok, r', t') ∧
      0 ≤ data_ r' ≤ 6 ∧ end_ r' = 6 ∧ (ok = false → t' = [1])) ∨
   (unpack_bytes [0xff; 0xff; 0xff; 0xff; 65; 0] 1 (MkUnpacker 0 6) [1] = Undef ∧
    ∃ l, unpack_int [0xff; 0xff; 0xff; 0xff; 65; 0] (MkUnpacker 0 6) 0 = Ret (true, MkUnpacker (0 + 4) 6, l) ∧ l < 0)) ∧
  (∀ post, unpack_string (pack_string [] ++ post) (MkUnpacker 0 4) [1] = Ret (true, MkUnpacker 4 4, [1])).
Proof.
  apply (unpack_bytes_bounds [0xff; 0xff; 0xff; 0xff; 65; 0] (MkUnpacker 0 6) [1] 1); [by right|cbn; lia|cbn; lia].
Defined.
