(* ===== verification/Arp.v ===== *)
(** * socket/arp-demo.c: an ARP who-has request

    The frame that is built and sent, the frames that are read, and the paths
    of the program through the system calls.  The kernel is a [world] of
    answers to come with a log of the descriptors it opened and closed and of
    the frames it was given; a call that waits for a frame that never comes
    does not return. *)
From Stdlib Require Import ZArith Lia.
From stdpp Require Import base tactics numbers list.
From S2P Require Import Prelude.

Open Scope Z_scope.

(** ** The system *)
Inductive event :=
| Opened (fd : Z)
| Closed (fd : Z)
| Sent (fd ifindex : Z) (addr frame : list Z).

Record world := World {
  w_sockets : list Z;                  (** results of [socket] to come *)
  w_index : option Z;                  (** SIOCGIFINDEX, or failure *)
  w_hwaddr : option (list Z);          (** SIOCGIFHWADDR: sa_data *)
  w_ifaddr : option (Z * list Z);      (** SIOCGIFADDR: family and address *)
  w_bind : Z;                          (** result of [bind] *)
  w_sendto : Z;                        (** result of [sendto] *)
  w_frames : list (option (list Z));   (** results of [recvfrom] to come *)
  w_log : list event;
}.

Definition log_event (e : event) (w : world) : world :=
  World (w_sockets w) (w_index w) (w_hwaddr w) (w_ifaddr w) (w_bind w) (w_sendto w) (w_frames w) (w_log w ++ [e]).

Definition socket (w : world) : Z * world :=
  match w_sockets w with
  | [] => (-1, w)
  | fd :: fds =>
      let w := World fds (w_index w) (w_hwaddr w) (w_ifaddr w) (w_bind w) (w_sendto w) (w_frames w) (w_log w) in
      (fd, if decide (0 ≤ fd) then log_event (Opened fd) w else w)
  end.

Definition close (fd : Z) (w : world) : world := log_event (Closed fd) w.

Definition recvfrom (w : world) : outcome (option (list Z) * world) :=
  match w_frames w with
  | [] => NoFuel
  | f :: fs => Ret (f, World (w_sockets w) (w_index w) (w_hwaddr w) (w_ifaddr w) (w_bind w) (w_sendto w) fs (w_log w))
  end.

(** ** The code *)
Definition PROTO_ARP : Z := 0x0806.
Definition ETH2_HEADER_LEN : Z := 14.
Definition HW_TYPE : Z := 1.
Definition MAC_LENGTH : Z := 6.
Definition IPV4_LENGTH : Z := 4.
Definition ARP_REQUEST : Z := 1.
Definition ARP_REPLY : Z := 2.
Definition BUF_SIZE : Z := 60.
Definition AF_INET : Z := 2.
Definition IFNAMSIZ : Z := 16.

(** Offsets of the fields of [struct ethhdr] and [struct arp_header]. *)
Definition h_dest : Z := 0.
Definition h_source : Z := 6.
Definition h_proto : Z := 12.
Definition hardware_type : Z := ETH2_HEADER_LEN + 0.
Definition protocol_type : Z := ETH2_HEADER_LEN + 2.
Definition hardware_len : Z := ETH2_HEADER_LEN + 4.
Definition protocol_len : Z := ETH2_HEADER_LEN + 5.
Definition opcode : Z := ETH2_HEADER_LEN + 6.
Definition sender_mac : Z := ETH2_HEADER_LEN + 8.
Definition sender_ip : Z := ETH2_HEADER_LEN + 14.
Definition target_mac : Z := ETH2_HEADER_LEN + 18.
Definition target_ip : Z := ETH2_HEADER_LEN + 24.

(** The status, and [*ip] when it was written; addresses as bytes. *)
Definition int_ip4 (family : Z) (addr : list Z) : Z * option (list Z) :=
  if decide (family = AF_INET) then (0, Some addr) else (1, None).

Definition get_if_ip4 (w : world) (ifname : list Z) : outcome (Z * option (list Z)) :=
  n ← strlen ifname 0;
  if decide (n > IFNAMSIZ - 1) then Ret (-1, None)
  else
    match w_ifaddr w with
    | None => Ret (-1, None)
    | Some (family, addr) =>
        let '(e, ip) := int_ip4 family addr in
        Ret (if decide (e ≠ 0) then (-1, None) else (0, ip))
    end.

(** The frame in its buffer of 60 bytes, whatever the buffer held. *)
Definition arp_frame (buffer src_mac src_ip dst_ip : list Z) : outcome (list Z) :=
  m ← memset buffer 0 0 (zlen buffer);
  m ← memset m h_dest 0xff MAC_LENGTH;
  m ← memset m target_mac 0 MAC_LENGTH;
  m ← memcpy m h_source src_mac 0 MAC_LENGTH;
  m ← memcpy m sender_mac src_mac 0 MAC_LENGTH;
  m ← store16 m h_proto (htons 0x0806);
  m ← store16 m hardware_type (htons HW_TYPE);
  m ← store16 m protocol_type (htons 0x0800);
  m ← store m hardware_len MAC_LENGTH;
  m ← store m protocol_len IPV4_LENGTH;
  m ← store16 m opcode (htons ARP_REQUEST);
  m ← memcpy m sender_ip src_ip 0 4;
  memcpy m target_ip dst_ip 0 4.

Definition send_arp (w : world) (buffer : list Z) (fd ifindex : Z) (src_mac src_ip dst_ip : list Z) :
    outcome (Z * world) :=
  m ← arp_frame buffer src_mac src_ip dst_ip;
  sll_addr ← memcpy (replicate 8 0) 0 src_mac 0 MAC_LENGTH;
  frame ← load_n m 0 42;
  if decide (w_sendto w = -1) then Ret (-1, w)
  else Ret (0, log_event (Sent fd ifindex sll_addr frame) w).

(** The status, and the address, hardware address and index when found. *)
Definition get_if_info (w : world) (ifname : list Z) : outcome (Z * option (list Z * list Z * Z) * world) :=
  let '(sd, w) := socket w in
  let cleanup (w : world) := if decide (sd > 0) then close sd w else w in
  if decide (sd ≤ 0) then Ret (-1, None, cleanup w)
  else
    n ← strlen ifname 0;
    if decide (n > IFNAMSIZ - 1) then Ret (-1, None, cleanup w)
    else
      match w_index w with
      | None => Ret (-1, None, cleanup w)
      | Some ifindex =>
          match w_hwaddr w with
          | None => Ret (-1, None, cleanup w)
          | Some sa_data =>
              mac ← memcpy (replicate 6 0) 0 sa_data 0 MAC_LENGTH;
              '(e, ip) ← get_if_ip4 w ifname;
              match ip with
              | Some ip => if decide (e ≠ 0) then Ret (-1, None, cleanup w) else Ret (0, Some (ip, mac, ifindex), cleanup w)
              | None => Ret (-1, None, cleanup w)
              end
          end
      end.

(** The status and [*fd]. *)
Definition bind_arp (w : world) (ifindex : Z) : Z * Z * world :=
  let '(fd, w) := socket w in
  let ret := if decide (fd < 1) then -1 else if decide (w_bind w < 0) then -1 else 0 in
  (ret, fd, if decide (ret ≠ 0 ∧ fd > 0) then close fd w else w).

(** "%02X" of a byte. *)
Definition fmt_02X (b : Z) : list Z := [hex_upper (b / 16); hex_upper (b mod 16)].

Definition format_mac (data p : list Z) : outcome (list Z) :=
  q ← load_n data 0 6;
  '(_, p) ← sprintf p 0 (fmt_02X (q !!! 0%nat) ++ [58] ++ fmt_02X (q !!! 1%nat) ++ [58] ++ fmt_02X (q !!! 2%nat) ++ [58] ++
                         fmt_02X (q !!! 3%nat) ++ [58] ++ fmt_02X (q !!! 4%nat) ++ [58] ++ fmt_02X (q !!! 5%nat));
  Ret p.

(** What is printed of one side: address bytes and the text of the mac. *)
Definition side (m buf : list Z) (ip mac : Z) : outcome (list Z * list Z) :=
  a ← load_n m ip 4;
  h ← load_n m mac 6;
  t ← format_mac h buf;
  s ← c_string t;
  Ret (a, s).

(** The frame overwrites the head of the buffer; its length is not looked at. *)
Definition read_arp (w : world) (buffer macbuf : list Z) :
    outcome (Z * option ((list Z * list Z) * (list Z * list Z)) * world) :=
  '(f, w) ← recvfrom w;
  match f with
  | None => Ret (-1, None, w)
  | Some f =>
      m ← memcpy buffer 0 f 0 (Z.min (zlen f) BUF_SIZE);
      p ← load16 m h_proto;
      if decide (htons p ≠ PROTO_ARP) then Ret (-1, None, w)
      else
        o ← load16 m opcode;
        if decide (htons o ≠ ARP_REPLY) then Ret (-1, None, w)
        else
          s ← side m macbuf sender_ip sender_mac;
          t ← side m macbuf target_ip target_mac;
          Ret (0, Some (s, t), w)
  end.

Definition wait_step (buffer macbuf : list Z) (w : world) :
    outcome (world + ((list Z * list Z) * (list Z * list Z)) * world) :=
  '(r, a, w) ← read_arp w buffer macbuf;
  match a with
  | Some a => if decide (r = 0) then Ret (inr (a, w)) else Ret (inl w)
  | None => Ret (inl w)
  end.

(** [dst] is the bytes [inet_addr] gave.  [arp_fd] has no value on the path
    that jumps over its definition, and is read after the jump. *)
Definition test_arping (w : world) (ifname dst buffer macbuf : list Z) :
    outcome (Z * option ((list Z * list Z) * (list Z * list Z)) * world) :=
  if decide (dst = [0; 0; 0; 0] ∨ dst = [255; 255; 255; 255]) then Ret (1, None, w)
  else
    '(e, i, w) ← get_if_info w ifname;
    match i with
    | None => Undef
    | Some (src, mac, ifindex) =>
        if decide (e ≠ 0) then Undef
        else
          let '(e, arp_fd, w) := bind_arp w ifindex in
          let cleanup (w : world) := if decide (arp_fd ≠ 0) then close arp_fd w else w in
          if decide (e ≠ 0) then Ret (-1, None, cleanup w)
          else
            '(e, w) ← send_arp w buffer arp_fd ifindex mac src dst;
            if decide (e ≠ 0) then Ret (-1, None, cleanup w)
            else
              '(a, w) ← while_fuel (S (length (w_frames w))) (wait_step buffer macbuf) w;
              Ret (0, Some a, cleanup w)
    end.

(** ** Frames: RFC 826 *)

(** Destination, source, then the fields of an ARP packet for IPv4 over
    Ethernet with the operation [op]. *)
Definition arp_packet (dst src : list Z) (op : Z) (smac sip tmac tip : list Z) : list Z :=
  dst ++ src ++ [0x08; 0x06] ++ [0; 1; 8; 0; 6; 4; 0; op] ++ smac ++ sip ++ tmac ++ tip.

Lemma arp_frame_spec buffer mac sip tip :
  length buffer = 60%nat → length mac = 6%nat → length sip = 4%nat → length tip = 4%nat →
  arp_frame buffer mac sip tip =
    Ret (arp_packet (replicate 6 255) mac 1 mac sip (replicate 6 0) tip ++ replicate 18 0).
Proof.
  intros Hb Hm Hs Ht. unfold arp_frame.
  assert (memset buffer 0 0 (zlen buffer) = Ret (replicate 60 0)) as ->.
  { unfold memset. rewrite decide_True, Nat2Z.id, Hb by lia.
    pose proof (store_n_app [] buffer [] (replicate 60 0) 0 eq_refl ltac:(by rewrite Hb)) as E.
    cbn [app] in E. rewrite !app_nil_r in E. exact E. }
  cbind. open_buffer 6 mac. open_buffer 4 sip. open_buffer 4 tip. reflexivity.
Qed.

(** What [read_arp] prints for a mac. *)
Definition mac_text (mac : list Z) : list Z :=
  match mac with
  | [a; b; c; d; e; f] => fmt_02X a ++ [58] ++ fmt_02X b ++ [58] ++ fmt_02X c ++ [58] ++ fmt_02X d ++ [58] ++ fmt_02X e ++ [58] ++ fmt_02X f
  | _ => []
  end.

Lemma fmt_02X_chars b : is_byte b → Forall is_char (fmt_02X b).
Proof.
  unfold is_byte, fmt_02X, hex_upper, is_char. intros Hb. repeat constructor; case_decide; mlia.
Qed.

Lemma mac_text_chars mac : Forall is_byte mac → Forall is_char (mac_text mac).
Proof.
  intros H. unfold mac_text. do 7 (destruct mac as [|? mac]; try done). rewrite !Forall_cons in H.
  destruct H as (?&?&?&?&?&?&_).
  repeat (apply Forall_app; split); auto using fmt_02X_chars; by repeat constructor.
Qed.

(** A recognised reply. *)
Lemma side_spec pre ip mid mac post buf m ipo maco :
  m = pre ++ mac ++ mid ++ ip ++ post ∨ m = pre ++ mac ++ ip ++ post ∧ mid = [] →
  length mac = 6%nat → length ip = 4%nat → Forall is_byte mac → length buf = 18%nat →
  maco = zlen pre → ipo = zlen pre + 6 + zlen mid →
  side m buf ipo maco = Ret (ip, mac_text mac).
Proof.
  intros Hm Hml Hil Hmb Hb -> ->.
  assert (load_n m (zlen pre + 6 + zlen mid) 4 = Ret ip ∧ load_n m (zlen pre) 6 = Ret mac) as [E1 E2].
  { destruct Hm as [-> |[-> ->]].
    - split; [|apply load_n_app; lia]. rewrite !app_assoc, <- (app_assoc _ ip). apply load_n_app; len.
    - split; [|apply load_n_app; lia]. rewrite !app_assoc, <- (app_assoc _ ip). apply load_n_app; len. }
  unfold side. rewrite E1. cbind. rewrite E2. cbind. unfold format_mac.
  pose proof (load_n_prefix mac [] 6 ltac:(lia)) as E3. rewrite app_nil_r in E3. rewrite E3. cbind.
  pose proof (mac_text_chars mac Hmb) as Hc.
  assert (length (mac_text mac) = 17%nat) as Hl17.
  { open_buffer 6 mac. done. }
  replace (sprintf buf 0 _) with (sprintf buf 0 (mac_text mac)) by (open_buffer 6 mac; done).
  unfold sprintf. pose proof (store_n_app [] buf [] (mac_text mac ++ [0]) 0 eq_refl) as E4.
  cbn [app] in E4. rewrite !app_nil_r in E4. rewrite E4 by len. cbind. rewrite string_prefix by done. done.
Qed.

(** The buffer after [recvfrom]. *)
Lemma recv_frame (f buffer : list Z) :
  length buffer = 60%nat →
  memcpy buffer 0 f 0 (Z.min (zlen f) BUF_SIZE) = Ret (take 60 f ++ drop (length f) buffer).
Proof.
  intros Hb. unfold memcpy.
  assert (Z.min (zlen f) BUF_SIZE = zlen (take 60 f)) as -> by (unfold BUF_SIZE; len).
  pose proof (load_n_prefix (take 60 f) (drop 60 f) _ eq_refl) as El. rewrite take_drop in El. rewrite El. cbind.
  pose proof (store_n_app [] (take (length f) buffer) (drop (length f) buffer) (take 60 f) 0 eq_refl) as E.
  cbn [app] in E. rewrite take_drop in E. apply E. len.
Qed.

(** The world without the frame. *)
Definition received (w : world) (fs : list (option (list Z))) : world :=
  World (w_sockets w) (w_index w) (w_hwaddr w) (w_ifaddr w) (w_bind w) (w_sendto w) fs (w_log w).

Definition reply_frame (dst src smac sip tmac tip pad : list Z) : list Z :=
  arp_packet dst src ARP_REPLY smac sip tmac tip ++ pad.

Definition well_sized (dst src smac sip tmac tip : list Z) : Prop :=
  length dst = 6%nat ∧ length src = 6%nat ∧ length smac = 6%nat ∧ length sip = 4%nat ∧
  length tmac = 6%nat ∧ length tip = 4%nat.

Lemma read_arp_reply w f fs dst src smac sip tmac tip pad buffer macbuf :
  w_frames w = Some f :: fs → f = reply_frame dst src smac sip tmac tip pad →
  well_sized dst src smac sip tmac tip → Forall is_byte smac → Forall is_byte tmac →
  zlen f ≤ 60 → length buffer = 60%nat → length macbuf = 18%nat →
  read_arp w buffer macbuf = Ret (0, Some ((sip, mac_text smac), (tip, mac_text tmac)), received w fs).
Proof.
  intros Hfr Hf (Hd & Hs & Hsm & Hsi & Htm & Hti) Hbs Hbt Hlf Hbuf Hmac.
  unfold read_arp, recvfrom. rewrite Hfr. cbind. rewrite recv_frame, take_ge by lia. cbind.
  set (tl := drop (length f) buffer). set (m := f ++ tl).
  assert (m = (dst ++ src) ++ [0x08; 0x06] ++ [0; 1; 8; 0; 6; 4; 0; 2] ++ smac ++ sip ++ tmac ++ tip ++ pad ++ tl) as Hm.
  { unfold m. rewrite Hf. unfold reply_frame, arp_packet. by rewrite <- !app_assoc. }
  assert (load16 m h_proto = Ret (8 + 256 * 6)) as ->.
  { apply load16_n. rewrite Hm. apply load_n_app; [unfold h_proto; len|done]. }
  cbind. rewrite decide_False by (unfold PROTO_ARP; intros H; by apply H).
  assert (load16 m opcode = Ret (0 + 256 * 2)) as ->.
  { apply load16_n.
    replace m with (((dst ++ src) ++ [8; 6; 0; 1; 8; 0; 6; 4]) ++ [0; 2] ++ (smac ++ sip ++ tmac ++ tip ++ pad ++ tl))
      by (rewrite Hm, <- !app_assoc; done).
    apply load_n_app; [unfold opcode, ETH2_HEADER_LEN; len|done]. }
  cbind. rewrite decide_False by (unfold ARP_REPLY; intros H; by apply H).
  rewrite (side_spec ((dst ++ src) ++ [0x08; 0x06] ++ [0; 1; 8; 0; 6; 4; 0; 2]) sip [] smac (tmac ++ tip ++ pad ++ tl) macbuf m sender_ip sender_mac);
    [|left; rewrite Hm; by rewrite <- !app_assoc|done|done|done|done|unfold sender_mac, ETH2_HEADER_LEN; len|unfold sender_ip, ETH2_HEADER_LEN; len].
  cbind.
  rewrite (side_spec ((dst ++ src) ++ [0x08; 0x06] ++ [0; 1; 8; 0; 6; 4; 0; 2] ++ smac ++ sip) tip [] tmac (pad ++ tl) macbuf m target_ip target_mac);
    [|left; rewrite Hm; by rewrite <- !app_assoc|done|done|done|done|unfold target_mac, ETH2_HEADER_LEN; len|unfold target_ip, ETH2_HEADER_LEN; len].
  done.
Qed.

(** A frame that is long enough to be looked at and is no ARP reply. *)
Definition reply_fields (f : list Z) : Prop := take 2 (drop 12 f) = [0x08; 0x06] ∧ take 2 (drop 20 f) = [0; ARP_REPLY].

Definition ignored (r : option (list Z)) : Prop :=
  match r with
  | None => True
  | Some f => (22 ≤ length f)%nat ∧ Forall is_byte f ∧ ¬ reply_fields f
  end.

#[global] Instance ignored_dec r : Decision (ignored r).
Proof. unfold ignored, reply_fields. destruct r; apply _. Defined.

Lemma load16_frame f tl i (k := Z.to_nat i) :
  0 ≤ i → i + 2 ≤ zlen f → ∃ a b, take 2 (drop k f) = [a; b] ∧ load16 (f ++ tl) i = Ret (a + 256 * b).
Proof.
  intros Hi Hl. destruct (drop k f) as [|a [|b r]] eqn:E.
  1, 2: apply (f_equal length) in E; revert E; rewrite length_drop; cbn [length]; lia.
  exists a, b. split; [done|]. apply load16_n.
  replace (f ++ tl) with (take k f ++ [a; b] ++ (r ++ tl)).
  - apply load_n_app; [len|done].
  - rewrite <- (take_drop k f) at 2. by rewrite E, <- !app_assoc.
Qed.

Lemma take_frame {A} (f : list A) k n : (k + n ≤ 60)%nat → take n (drop k (take 60 f)) = take n (drop k f).
Proof. intros H. rewrite !take_drop_commute, take_take. by rewrite Nat.min_l by lia. Qed.

Lemma htons_pair a b : is_byte a → is_byte b → htons (a + 256 * b) = 256 * a + b.
Proof. unfold htons, is_byte. intros. mlia. Qed.

Lemma byte_pair f k a b : Forall is_byte f → take 2 (drop k f) = [a; b] → is_byte a ∧ is_byte b.
Proof.
  intros H E. assert (Forall is_byte [a; b]) as Hab by (rewrite <- E; by apply Forall_take, Forall_drop).
  rewrite !Forall_cons in Hab. tauto.
Qed.

Lemma read_arp_ignored w r fs buffer macbuf :
  w_frames w = r :: fs → ignored r → length buffer = 60%nat →
  read_arp w buffer macbuf = Ret (-1, None, received w fs).
Proof.
  intros Hfr Hr Hb. unfold read_arp, recvfrom. rewrite Hfr. cbind. destruct r as [f|]; [|done].
  destruct Hr as (Hl & Hf & Hn). rewrite recv_frame by done. cbind.
  destruct (load16_frame (take 60 f) (drop (length f) buffer) h_proto) as (a & b & E & ->);
    [by unfold h_proto|unfold h_proto; len|].
  destruct (load16_frame (take 60 f) (drop (length f) buffer) opcode) as (c & d & E' & ->);
    [by unfold opcode|unfold opcode, ETH2_HEADER_LEN; len|].
  rewrite take_frame in E, E' by (vm_compute; lia). cbind.
  destruct (byte_pair _ _ _ _ Hf E) as [Ha Hb'], (byte_pair _ _ _ _ Hf E') as [Hc Hd].
  rewrite !htons_pair by done. case_decide as H1; [done|]. rewrite decide_True; [done|].
  intros H2. apply Hn. unfold is_byte, PROTO_ARP, ARP_REPLY in *. split.
  - change 12%nat with (Z.to_nat h_proto). rewrite E. assert (a = 8 ∧ b = 6) as [-> ->] by lia. done.
  - change 20%nat with (Z.to_nat opcode). rewrite E'. assert (c = 0 ∧ d = 2) as [-> ->] by lia. done.
Qed.

(** The loop passes over the frames that are no replies and ends with the first
    one that is. *)
Lemma wait_reply junk w f fs dst src smac sip tmac tip pad buffer macbuf :
  w_frames w = junk ++ Some f :: fs → Forall ignored junk → f = reply_frame dst src smac sip tmac tip pad →
  well_sized dst src smac sip tmac tip → Forall is_byte smac → Forall is_byte tmac →
  zlen f ≤ 60 → length buffer = 60%nat → length macbuf = 18%nat →
  while_fuel (S (length (w_frames w))) (wait_step buffer macbuf) w =
    Ret (((sip, mac_text smac), (tip, mac_text tmac)), received w fs).
Proof.
  intros Hw Hj Hf Hs Hb1 Hb2 Hl Hbuf Hmb. revert w Hw. induction Hj as [|r junk Hr Hj IH]; intros w Hw.
  - apply while_fuel_inr. unfold wait_step. by erewrite read_arp_reply by done.
  - rewrite Hw. cbn [app length]. rewrite (while_fuel_inl _ _ _ (received w (junk ++ Some f :: fs))).
    + apply (IH (received w (junk ++ Some f :: fs))). done.
    + unfold wait_step. by erewrite read_arp_ignored by done.
Qed.

(** An interface that answers every question of the program. *)
Definition interface_up (w : world) (sd fd ifindex : Z) (mac ip : list Z) : Prop :=
  (∃ fds, w_sockets w = sd :: fd :: fds) ∧ 0 < sd ∧ 0 < fd ∧ w_index w = Some ifindex ∧
  w_ifaddr w = Some (AF_INET, ip) ∧
  (∃ sa, w_hwaddr w = Some (mac ++ sa)) ∧ length mac = 6%nat ∧ length ip = 4%nat.

Definition ifname_ok (ifname name : list Z) : Prop :=
  (∃ r, ifname = name ++ 0 :: r) ∧ Forall is_char name ∧ (length name ≤ 15)%nat.

Definition valid_dst (dst : list Z) : Prop :=
  length dst = 4%nat ∧ dst ≠ [0; 0; 0; 0] ∧ dst ≠ [255; 255; 255; 255].

(** The world with other sockets to come and a longer log. *)
Definition after (w : world) (fds : list Z) (log : list event) : world :=
  World fds (w_index w) (w_hwaddr w) (w_ifaddr w) (w_bind w) (w_sendto w) (w_frames w) (w_log w ++ log).

Lemma get_if_ip4_up w ifname name ip :
  w_ifaddr w = Some (AF_INET, ip) → ifname_ok ifname name → get_if_ip4 w ifname = Ret (0, Some ip).
Proof.
  intros Ha ((r & ->) & Hc & Hn). unfold get_if_ip4. rewrite strlen_cstr by (by apply is_char_nonzero).
  cbind. rewrite decide_False by (unfold IFNAMSIZ; lia). by rewrite Ha.
Qed.

Lemma get_if_info_up w ifname name sd fd ifindex mac ip :
  interface_up w sd fd ifindex mac ip → ifname_ok ifname name →
  get_if_info w ifname =
    Ret (0, Some (ip, mac, ifindex), after w (tail (w_sockets w)) [Opened sd; Closed sd]).
Proof.
  intros ((fds & Hso) & Hsd & Hfd & Hi & Ha & (sa & Hh) & Hm & Hip) Hname. pose proof Hname as ((r & ->) & Hc & Hn).
  assert (strlen (name ++ 0 :: r) 0 = Ret (zlen name)) as Hlen by (apply strlen_cstr; by apply is_char_nonzero).
  assert (memcpy (replicate 6 0) 0 (mac ++ sa) 0 MAC_LENGTH = Ret mac) as Hmac.
  { unfold memcpy. rewrite load_n_prefix by (unfold MAC_LENGTH; lia). cbind.
    pose proof (store_n_app [] (replicate 6 0) [] mac 0 eq_refl) as E. cbn [app] in E. rewrite !app_nil_r in E.
    apply E. len. }
  assert (¬ zlen name > IFNAMSIZ - 1) as Hn' by (unfold IFNAMSIZ; lia).
  unfold get_if_info, socket. rewrite Hso. rewrite (decide_True (P := 0 ≤ sd)) by lia.
  rewrite (decide_False (P := sd ≤ 0)) by lia. rewrite Hlen. cbind. rewrite (decide_False (P := zlen name > IFNAMSIZ - 1)) by done.
  cbn [w_index w_hwaddr log_event]. rewrite Hi, Hh. rewrite Hmac. cbind.
  rewrite (get_if_ip4_up _ _ name ip) by done. cbind. rewrite (decide_False (P := 0 ≠ 0)) by auto.
  rewrite decide_True by lia.
  unfold close, log_event, after. cbn. by rewrite Hi, Hh, Ha, <- app_assoc.
Qed.

Lemma bind_arp_up w fd fds ifindex :
  w_sockets w = fd :: fds → 0 < fd → 0 ≤ w_bind w →
  bind_arp w ifindex = (0, fd, after w fds [Opened fd]).
Proof.
  intros Hs Hf Hb. unfold bind_arp, socket. rewrite Hs. rewrite (decide_True (P := 0 ≤ fd)) by lia.
  rewrite (decide_False (P := fd < 1)) by lia. cbn [w_bind log_event].
  rewrite (decide_False (P := w_bind w < 0)) by lia. rewrite decide_False by lia. done.
Qed.

Lemma bind_arp_down w fd fds ifindex :
  w_sockets w = fd :: fds → 0 < fd → w_bind w < 0 →
  bind_arp w ifindex = (-1, fd, after w fds [Opened fd; Closed fd]).
Proof.
  intros Hs Hf Hb. unfold bind_arp, socket. rewrite Hs. rewrite (decide_True (P := 0 ≤ fd)) by lia.
  rewrite (decide_False (P := fd < 1)) by lia. cbn [w_bind log_event].
  rewrite (decide_True (P := w_bind w < 0)) by lia. rewrite decide_True by lia.
  unfold close, log_event, after. cbn. by rewrite <- app_assoc.
Qed.

(** A socket changes none of the other answers. *)
Lemma socket_asks w :
  w_index (socket w).2 = w_index w ∧ w_hwaddr (socket w).2 = w_hwaddr w ∧ w_ifaddr (socket w).2 = w_ifaddr w.
Proof. unfold socket. destruct (w_sockets w); [done|]. cbn [snd]. by case_decide. Qed.

Lemma memcpy_total (d : list Z) i s j n : memcpy d i s j n = Undef ∨ ∃ m, memcpy d i s j n = Ret m.
Proof.
  unfold memcpy, load_n. case_decide; [|by left]. cbind. unfold store_n. case_decide; [right; eauto|by left].
Qed.

(** When the interface cannot be asked, there is no address to go on with. *)
Lemma get_if_info_down w ifname name :
  ifname_ok ifname name → w_sockets w = [] ∨ w_index w = None ∨ w_hwaddr w = None ∨ w_ifaddr w = None →
  (∃ e w', get_if_info w ifname = Ret (e, None, w')) ∨ get_if_info w ifname = Undef.
Proof.
  intros ((r & ->) & Hc & Hn) Hf.
  assert (strlen (name ++ 0 :: r) 0 = Ret (zlen name)) as Hlen by (apply strlen_cstr; by apply is_char_nonzero).
  assert (fst (socket w) ≤ 0 ∨ w_index w = None ∨ w_hwaddr w = None ∨ w_ifaddr w = None) as Hf'.
  { destruct Hf as [Hf|Hf]; [left; unfold socket; rewrite Hf; cbn; lia|by right]. }
  destruct (socket_asks w) as (Ei & Eh & Ea). unfold get_if_info. destruct (socket w) as [sd w1]. cbn in *.
  case_decide; [left; eauto|]. rewrite Hlen. cbind. rewrite Ei, Eh.
  case_decide; [left; eauto|]. destruct (w_index w); [|left; eauto]. destruct (w_hwaddr w) as [sa|]; [|left; eauto].
  destruct Hf' as [?|[?|[?|Hi]]]; [lia|done|done|]. assert (get_if_ip4 w1 (name ++ 0 :: r) = Ret (-1, None)) as ->.
  { unfold get_if_ip4. rewrite Hlen. cbind. rewrite decide_False by done. by rewrite Ea, Hi. }
  cbind. destruct (memcpy_total [0; 0; 0; 0; 0; 0] 0 sa 0 MAC_LENGTH) as [->|[m ->]]; [by right|left; cbind; eauto].
Qed.

(** The request that is sent: an RFC 826 who-has for [dst]. *)
Definition who_has (mac ip dst : list Z) : list Z :=
  arp_packet (replicate 6 255) mac ARP_REQUEST mac ip (replicate 6 0) dst.

Lemma send_arp_spec w buffer fd ifindex mac ip dst :
  length buffer = 60%nat → length mac = 6%nat → length ip = 4%nat → length dst = 4%nat →
  send_arp w buffer fd ifindex mac ip dst =
    Ret (if decide (w_sendto w = -1) then (-1, w)
         else (0, log_event (Sent fd ifindex (mac ++ [0; 0]) (who_has mac ip dst)) w)).
Proof.
  intros Hb Hm Hi Hd. unfold send_arp. rewrite arp_frame_spec by done. cbind.
  assert (memcpy (replicate 8 0) 0 mac 0 MAC_LENGTH = Ret (mac ++ [0; 0])) as -> by (open_buffer 6 mac; done).
  cbind. fold ARP_REQUEST. fold (who_has mac ip dst). rewrite load_n_prefix.
  - cbind. by case_decide.
  - unfold who_has, arp_packet. len.
Qed.

(** Against an interface that is up, the program sends one who-has
    request for [dst] with the interface's addresses (the 42 bytes of RFC 826,
    to the broadcast address), passes over every frame that is no ARP reply,
    reports the sender and the target of the first reply with their hardware
    addresses in hexadecimal, and returns 0 with both sockets closed once. *)
Theorem arping_succeeds w ifname name sd fd ifindex mac ip dst junk fs d s smac sip tmac tip pad buffer macbuf :
  interface_up w sd fd ifindex mac ip → ifname_ok ifname name → valid_dst dst → 0 ≤ w_bind w → w_sendto w ≠ -1 →
  w_frames w = junk ++ Some (reply_frame d s smac sip tmac tip pad) :: fs → Forall ignored junk →
  well_sized d s smac sip tmac tip → Forall is_byte smac → Forall is_byte tmac → (length pad ≤ 18)%nat →
  length buffer = 60%nat → length macbuf = 18%nat →
  ∃ w', test_arping w ifname dst buffer macbuf = Ret (0, Some ((sip, mac_text smac), (tip, mac_text tmac)), w') ∧
    w_log w' = w_log w ++
      [Opened sd; Closed sd; Opened fd; Sent fd ifindex (mac ++ [0; 0]) (who_has mac ip dst); Closed fd] ∧
    w_frames w' = fs.
Proof.
  intros Hup Hn (Hd & Hd0 & Hd1) Hb Hse Hw Hj Hsz Hb1 Hb2 Hp Hbuf Hmb. unfold test_arping.
  rewrite decide_False by tauto. rewrite (get_if_info_up _ _ _ _ _ _ _ _ Hup Hn). cbind.
  destruct Hup as ((fds & Hso) & Hsd & Hfd & Hi & Ha & _ & Hm & Hip).
  rewrite decide_False by auto. rewrite (bind_arp_up _ fd fds); [|by rewrite Hso|done|done].
  rewrite decide_False by auto. rewrite send_arp_spec by done. rewrite decide_False by done. cbind.
  rewrite decide_False by auto. erewrite wait_reply; [|exact Hw|done|reflexivity|done|done|done| |done|done].
  - cbind. eexists. split; [done|]. rewrite decide_True by lia. cbn. by rewrite <- !app_assoc.
  - unfold reply_frame, arp_packet. destruct Hsz as (?&?&?&?&?&?). len.
Qed.

(** The error paths.  An address that is 0 or the one of a failed
    [inet_addr] is refused before any call.  When the interface cannot be
    asked, the jump to the cleanup reads a descriptor that was never
    initialised.  When the second socket cannot be bound, it is closed twice.
    When the request cannot be sent, it is closed once and the result is -1. *)
Theorem arping_failures w ifname name dst buffer macbuf :
  ifname_ok ifname name →
  (dst = [0; 0; 0; 0] ∨ dst = [255; 255; 255; 255] → test_arping w ifname dst buffer macbuf = Ret (1, None, w)) ∧
  (valid_dst dst →
    (w_sockets w = [] ∨ w_index w = None ∨ w_hwaddr w = None ∨ w_ifaddr w = None →
      test_arping w ifname dst buffer macbuf = Undef) ∧
    (∀ sd fd ifindex mac ip, interface_up w sd fd ifindex mac ip → length buffer = 60%nat →
      (w_bind w < 0 → ∃ w', test_arping w ifname dst buffer macbuf = Ret (-1, None, w') ∧
        w_log w' = w_log w ++ [Opened sd; Closed sd; Opened fd; Closed fd; Closed fd]) ∧
      (0 ≤ w_bind w → w_sendto w = -1 → ∃ w', test_arping w ifname dst buffer macbuf = Ret (-1, None, w') ∧
        w_log w' = w_log w ++ [Opened sd; Closed sd; Opened fd; Closed fd]))).
Proof.
  intros Hn. split; [intros Hd; unfold test_arping; by rewrite decide_True|].
  intros (Hd & Hd0 & Hd1). split.
  - intros Hf. unfold test_arping. rewrite decide_False by tauto.
    destruct (get_if_info_down w ifname name Hn Hf) as [(e & w' & ->)| ->]; done.
  - intros sd fd ifindex mac ip Hup Hbuf.
    pose proof Hup as ((fds & Hso) & Hsd & Hfd & Hi & Ha & _ & Hm & Hip).
    split; [intros Hb|intros Hb Hse]; unfold test_arping; rewrite decide_False by tauto;
      rewrite (get_if_info_up _ _ _ _ _ _ _ _ Hup Hn); cbind; rewrite decide_False by auto.
    + rewrite (bind_arp_down _ fd fds); [|cbn; by rewrite Hso|done|done]. rewrite decide_True by lia.
      eexists. split; [done|]. rewrite decide_True by lia. cbn. by rewrite <- !app_assoc.
    + rewrite (bind_arp_up _ fd fds); [|cbn; by rewrite Hso|done|done]. rewrite decide_False by auto.
      rewrite send_arp_spec by done. rewrite decide_True by done. cbind. rewrite decide_True by lia.
      eexists. split; [done|]. rewrite decide_True by lia. cbn. by rewrite <- !app_assoc.
Qed.

(** The interface 192.168.0.2 of hardware address 02:00:00:00:00:01, with a
    stray frame and a reply from 192.168.0.9 to come. *)
Definition sample_world (bound sent : Z) : world :=
  World [3; 4] (Some 2) (Some [2; 0; 0; 0; 0; 1; 0; 0]) (Some (AF_INET, [192; 168; 0; 2])) bound sent
    [None; Some (replicate 42 7);
     Some (reply_frame [2; 0; 0; 0; 0; 1] [2; 0; 0; 0; 0; 171] [2; 0; 0; 0; 0; 171] [192; 168; 0; 9]
             [2; 0; 0; 0; 0; 1] [192; 168; 0; 2] (replicate 18 0))] [].

Definition eth0 : list Z := [101; 116; 104; 48].

Lemma sample_up bound sent : interface_up (sample_world bound sent) 3 4 2 [2; 0; 0; 0; 0; 1] [192; 168; 0; 2].
Proof. repeat split; try done; eexists; reflexivity. Qed.

Lemma eth0_ok : ifname_ok (eth0 ++ [0]) eth0.
Proof. split_and!; [by exists []|by_eval|vm_compute; lia]. Qed.

Lemma arping_succeeds_witness :
  ∃ w', test_arping (sample_world 0 42) (eth0 ++ [0]) [192; 168; 0; 9] (replicate 60 1) (replicate 18 1) =
    Ret (0, Some (([192; 168; 0; 9], mac_text [2; 0; 0; 0; 0; 171]), ([192; 168; 0; 2], mac_text [2; 0; 0; 0; 0; 1])), w') ∧
    w_log w' = [] ++
      [Opened 3; Closed 3; Opened 4;
       Sent 4 2 ([2; 0; 0; 0; 0; 1] ++ [0; 0]) (who_has [2; 0; 0; 0; 0; 1] [192; 168; 0; 2] [192; 168; 0; 9]); Closed 4] ∧
    w_frames w' = [].
Proof.
  apply (arping_succeeds (sample_world 0 42) _ eth0 3 4 2 _ _ [192; 168; 0; 9] [None; Some (replicate 42 7)] []
    [2; 0; 0; 0; 0; 1] [2; 0; 0; 0; 0; 171] _ _ _ _ (replicate 18 0)).
  - apply sample_up.
  - apply eth0_ok.
  - by_eval.
  - by_eval.
  - by_eval.
  - reflexivity.
  - by_eval.
  - by_eval.
  - by_eval.
  - by_eval.
  - by_eval.
  - reflexivity.
  - reflexivity.
Defined.

Lemma arping_failures_witness :
  test_arping (sample_world 0 42) (eth0 ++ [0]) [255; 255; 255; 255] [] [] = Ret (1, None, sample_world 0 42) ∧
  ∃ w', test_arping (sample_world (-1) 0) (eth0 ++ [0]) [192; 168; 0; 9] (replicate 60 1) [] = Ret (-1, None, w') ∧
    w_log w' = [] ++ [Opened 3; Closed 3; Opened 4; Closed 4; Closed 4].
Proof.
  split.
  - apply (arping_failures (sample_world 0 42) (eth0 ++ [0]) eth0); [apply eth0_ok|by right].
  - apply (arping_failures (sample_world (-1) 0) (eth0 ++ [0]) eth0 [192; 168; 0; 9]) with (ifindex := 2) (mac := [2; 0; 0; 0; 0; 1]) (ip := [192; 168; 0; 2]);
      [apply eth0_ok|by_eval|apply sample_up|done|done].
Defined.
