(* ===== verification/Words.v ===== *)
(** * Words as lists of bytes

    The value of a word of a little-endian machine from its bytes, and the
    operations that work on all its bytes at once; shared by the tracer and the
    string copy. *)
From Stdlib Require Import ZArith Lia.
From stdpp Require Import base tactics numbers list.
From S2P Require Import Prelude.
From S2P Require Import Bits.

Open Scope Z_scope.

(** The value of a word on a little-endian machine. *)
Fixpoint word_value (w : list Z) : Z :=
  match w with [] => 0 | b :: w => b + 256 * word_value w end.

Lemma value_bytes w : Forall is_byte w → 0 ≤ word_value w < 256 ^ zlen w.
Proof.
  induction 1 as [|b w Hb Hw IH]; cbn [word_value length]; [done|]. unfold is_byte in Hb.
  rewrite Nat2Z.inj_succ, Z.pow_succ_r by lia. lia.
Qed.

Lemma value_land w m : is_byte m → Forall is_byte w →
  Z.land (word_value w) (word_value (replicate (length w) m)) = word_value (map (λ b, Z.land b m) w).
Proof.
  intros Hm. induction 1 as [|b w Hb Hw IH]; [done|]. cbn [word_value length replicate map].
  pose proof (land_split 8 b (word_value w) m (word_value (replicate (length w) m)) ltac:(lia) Hb Hm) as E.
  change (2 ^ 8) with 256 in E. rewrite IH in E. rewrite !(Z.add_comm _ (256 * _)), !(Z.mul_comm 256). exact E.
Qed.

Lemma value_lor w m : is_byte m → Forall is_byte w →
  Z.lor (word_value w) (word_value (replicate (length w) m)) = word_value (map (λ b, Z.lor b m) w).
Proof.
  intros Hm. induction 1 as [|b w Hb Hw IH]; [done|]. cbn [word_value length replicate map].
  pose proof (lor_split 8 b (word_value w) m (word_value (replicate (length w) m)) ltac:(lia) Hb Hm) as E.
  change (2 ^ 8) with 256 in E. rewrite IH in E. rewrite !(Z.add_comm _ (256 * _)), !(Z.mul_comm 256). exact E.
Qed.

Lemma value_add w m : word_value w + word_value (replicate (length w) m) = word_value (map (λ b, b + m) w).
Proof. induction w as [|b w IH]; cbn [word_value length replicate map]; lia. Qed.

Lemma value_lnot w : Z.lnot (word_value w) + 256 ^ zlen w = word_value (map (λ b, 255 - b) w).
Proof.
  unfold Z.lnot. induction w as [|b w IH]; [done|]. cbn [word_value length map].
  rewrite Nat2Z.inj_succ, Z.pow_succ_r by lia. lia.
Qed.

Lemma value_nonzero w : Forall (λ b, 0 ≤ b) w → word_value w ≠ 0 ↔ Exists (λ b, b ≠ 0) w.
Proof.
  induction 1 as [|b w Hb Hw IH]; cbn [word_value]; [split; [done|by intros ?%Exists_nil]|].
  assert (0 ≤ word_value w) by (clear IH; induction Hw; cbn [word_value]; lia).
  rewrite Exists_cons, <- IH. lia.
Qed.

(** The bytes of a word, and its value from them again. *)
Fixpoint word_bytes (n : nat) (v : Z) : list Z :=
  match n with O => [] | S n => v mod 256 :: word_bytes n (v / 256) end.

Lemma word_bytes_length n v : length (word_bytes n v) = n.
Proof. revert v. induction n as [|n IH]; intros v; cbn; [done|]. by rewrite IH. Qed.

Lemma word_bytes_bytes n v : Forall is_byte (word_bytes n v).
Proof. revert v. induction n as [|n IH]; intros v; cbn; constructor; [|apply IH]. unfold is_byte. by apply Z.mod_pos_bound. Qed.

Lemma word_value_bytes n v : 0 ≤ v < 256 ^ Z.of_nat n → word_value (word_bytes n v) = v.
Proof.
  revert v. induction n as [|n IH]; intros v Hv; cbn [word_bytes word_value].
  - change (256 ^ Z.of_nat 0) with 1 in Hv. lia.
  - rewrite Nat2Z.inj_succ, Z.pow_succ_r in Hv by lia. rewrite IH.
    + pose proof (Z.div_mod v 256 ltac:(lia)). lia.
    + split; [apply Z.div_pos; lia|]. apply Z.div_lt_upper_bound; lia.
Qed.
