(* ===== verification/Ptrace.v ===== *)
(** * ptrace/ptrace-syscall.c: rewriting the text a traced program writes

    The tracer copies the buffer of a [write] out of the child a word at a
    time, reverses the text and copies it back.  The child's memory is an
    object at an address; a word is the list of its eight bytes, so that the
    copies between words and characters are as in the code. *)
From Stdlib Require Import ZArith Lia.
From stdpp Require Import base tactics numbers list.
From S2P Require Import Prelude.
From S2P Require Import Bits.
From S2P Require Import Words.

Open Scope Z_scope.

Definition LONG_SIZE : Z := 8.

(** ** The child *)
Record child := Child { base : Z; cells : list Z }.

(** [ptrace(PTRACE_PEEKDATA, ...)]: the word and whether [errno] was set; a word
    that cannot be read is -1. *)
Definition peek (c : child) (addr : Z) : list Z * bool :=
  match load_n (cells c) (addr - base c) LONG_SIZE with
  | Ret w => (w, false)
  | _ => (replicate 8 255, true)
  end.

(** [ptrace(PTRACE_POKEDATA, ...)]: nothing is written where it fails. *)
Definition poke (c : child) (addr : Z) (w : list Z) : child :=
  match store_n (cells c) (addr - base c) w with
  | Ret m => Child (base c) m
  | _ => c
  end.

(** ** The code *)
Definition LONG_MAGIC : Z := 0x7f7f7f7f7f7f7f7f.

(** [x & LONG_MAGIC] is taken of an [unsigned long]. *)
Definition LONG_HAS_ZERO_BYTE (x : Z) : bool :=
  bool_decide (wrap 64 (Z.lnot (Z.lor (wrap 64 (Z.land x LONG_MAGIC + LONG_MAGIC)) LONG_MAGIC)) ≠ 0).

Definition dump_step (c : child) (addr : Z) (s : Z * list Z) : outcome ((Z * list Z) + list Z) :=
  let '(nr, data) := s in
  let '(v, err) := peek c (addr + nr) in
  if err : bool then data ← store data nr 0; Ret (inr data)
  else
    data ← memcpy data nr v 0 LONG_SIZE;
    if LONG_HAS_ZERO_BYTE (word_value v) then Ret (inr data)
    else Ret (inl (nr + LONG_SIZE, data)).

(** [data] is the static buffer of 4096 characters. *)
Definition dump_string (c : child) (addr : Z) (data : list Z) : outcome (list Z) :=
  while_fuel 514 (dump_step c addr) (0, data).

Definition skip_step (str : list Z) (j : Z) : outcome (Z + Z) :=
  c ← load str j;
  Ret (if isspace c then inl (j - 1) else inr j).

Definition swap_step (s : Z * Z * list Z) : outcome ((Z * Z * list Z) + list Z) :=
  let '(i, j, str) := s in
  if decide (i < j) then
    t ← load str i;
    u ← load str j;
    str ← store str i u;
    str ← store str j t;
    Ret (inl (i + 1, j - 1, str))
  else Ret (inr str).

Definition reverse (str : list Z) (jump_nl : bool) : outcome (list Z) :=
  n ← strlen str 0;
  j ← (if jump_nl then while_fuel (S (Z.to_nat n)) (skip_step str) (n - 1) else Ret (n - 1));
  while_fuel (S (Z.to_nat n)) swap_step (0, j, str).

Definition peek_data (c : child) (addr : Z) (str : list Z) (len : Z) : outcome (list Z) :=
  str ← for_up (Z.to_nat (Z.quot len LONG_SIZE)) 0
    (λ i str, memcpy str (i * LONG_SIZE) (peek c (addr + i * LONG_SIZE)).1 0 LONG_SIZE) str;
  let i := Z.quot len LONG_SIZE in
  let j := Z.rem len LONG_SIZE in
  str ← (if decide (j ≠ 0) then memcpy str (i * LONG_SIZE) (peek c (addr + i * LONG_SIZE)).1 0 j else Ret str);
  store str len 0.

(** [data] is the uninitialised word on the stack. *)
Definition poke_data (c : child) (addr : Z) (str : list Z) (len : Z) (data : list Z) : outcome child :=
  '(c, data) ← for_up (Z.to_nat (Z.quot len LONG_SIZE)) 0
    (λ i '(c, data),
      data ← memcpy data 0 str (i * LONG_SIZE) LONG_SIZE;
      Ret (poke c (addr + i * LONG_SIZE) data, data)) (c, data);
  let i := Z.quot len LONG_SIZE in
  let j := Z.rem len LONG_SIZE in
  if decide (j ≠ 0) then
    data ← memcpy data 0 str (i * LONG_SIZE) j;
    Ret (poke c (addr + i * LONG_SIZE) data)
  else Ret c.

Definition SYS_write : Z := 1.

(** A stop of the child at a system call: its number, the address and the size
    of the buffer, and the memory the child has then. *)
Record stop := Stop { orig_rax : Z; rsi : Z; rdx : Z; memory : child }.

(** What the tracer does at a stop, with the word on its stack. *)
Definition handle_stop `{al : Allocator} (word : list Z) (insyscall : Z) (s : stop) : outcome (Z * child) :=
  if decide (orig_rax s = SYS_write) then
    if decide (insyscall = 0) then
      match malloc (wrap 64 (rdx s + 1)) with
      | None => Undef
      | Some p =>
          p ← peek_data (memory s) (rsi s) p (s32 (rdx s));
          p ← reverse p true;
          c ← poke_data (memory s) (rsi s) p (s32 (rdx s)) word;
          Ret (1, c)
      end
    else Ret (0, memory s)
  else Ret (insyscall, memory s).

(** The loop over the stops until the child exits: the memory the child goes on
    with after each. *)
Fixpoint main_loop `{al : Allocator} (word : list Z) (insyscall : Z) (stops : list stop) : outcome (list child) :=
  match stops with
  | [] => Ret []
  | s :: stops =>
      '(insyscall, c) ← handle_stop word insyscall s;
      cs ← main_loop word insyscall stops;
      Ret (c :: cs)
  end.

Definition main `{al : Allocator} (word : list Z) (stops : list stop) : outcome (list child) := main_loop word 0 stops.

(** ** Copying *)

(** The words of a buffer of [len] bytes, the last one in part. *)
Definition padded (len : Z) : Z := (len + 7) / 8 * 8.

Lemma peek_at c pre mem k addr :
  cells c = pre ++ mem → addr = base c + zlen pre + k → 0 ≤ k → k + 8 ≤ zlen mem →
  peek c addr = (take 8 (drop (Z.to_nat k) mem), false).
Proof.
  intros Hc -> Hk Hl. unfold peek. rewrite Hc.
  replace (base c + zlen pre + k - base c) with (zlen pre + k) by lia.
  replace mem with (take (Z.to_nat k) mem ++ take 8 (drop (Z.to_nat k) mem) ++ drop 8 (drop (Z.to_nat k) mem)) at 1 by (by rewrite !take_drop).
  rewrite app_assoc, load_n_app; [done|len|unfold LONG_SIZE; len].
Qed.

Lemma poke_at c pre mem k addr w :
  cells c = pre ++ mem → addr = base c + zlen pre + k → 0 ≤ k → length w = 8%nat → k + 8 ≤ zlen mem →
  poke c addr w = Child (base c) (pre ++ take (Z.to_nat k) mem ++ w ++ drop (Z.to_nat k + 8) mem).
Proof.
  intros Hc -> Hk Hw Hl. unfold poke. rewrite Hc.
  replace (base c + zlen pre + k - base c) with (zlen pre + k) by lia.
  replace (pre ++ mem) with ((pre ++ take (Z.to_nat k) mem) ++ take 8 (drop (Z.to_nat k) mem) ++ drop (Z.to_nat k + 8) mem).
  - rewrite store_n_app; [|len|len]. by rewrite <- app_assoc.
  - by rewrite <- drop_drop, <- app_assoc, !take_drop.
Qed.

(** Writing on, where the last write ended. *)
Lemma write_on {A} (x y w : list A) n m :
  n = length x → m = (n + length w)%nat →
  take n (x ++ drop n y) ++ w ++ drop m (x ++ drop n y) = (x ++ w) ++ drop m y.
Proof.
  intros -> ->. rewrite take_app_length, drop_app_add', drop_drop by done. by rewrite <- app_assoc.
Qed.

Lemma word_on {A} (mem : list A) k j : 0 ≤ k → 0 ≤ j →
  take (Z.to_nat k) mem ++ take (Z.to_nat j) (drop (Z.to_nat k) mem) = take (Z.to_nat (k + j)) mem.
Proof. intros. rewrite take_take_drop. f_equal. lia. Qed.

Section copy.
Context (c : child) (pre mem : list Z) (addr len : Z).
Context (Hc : cells c = pre ++ mem) (Ha : addr = base c + zlen pre).
Context (Hlen : 0 ≤ len) (Hmem : padded len ≤ zlen mem).

Lemma len_split : len = 8 * (len / 8) + len mod 8 ∧ 0 ≤ len / 8 ∧ 0 ≤ len mod 8 < 8 ∧
  Z.quot len LONG_SIZE = len / 8 ∧ Z.rem len LONG_SIZE = len mod 8 ∧
  padded len = if decide (len mod 8 = 0) then len else 8 * (len / 8) + 8.
Proof.
  unfold LONG_SIZE, padded. rewrite Z.quot_div_nonneg, Z.rem_mod_nonneg by lia.
  split_and!; [mlia|mlia|mlia|mlia|done|done|]. case_decide; mlia.
Qed.

Lemma peek_data_spec str :
  len + 1 ≤ zlen str →
  peek_data c addr str len = Ret (take (Z.to_nat len) mem ++ 0 :: drop (Z.to_nat (len + 1)) str).
Proof.
  intros Hs. destruct len_split as (E & Hq & Hr & Eq & Er & Ep). rewrite Ep in Hmem. unfold peek_data. rewrite Eq, Er.
  edestruct (for_up_inv (λ i s, memcpy s (i * LONG_SIZE) (peek c (addr + i * LONG_SIZE)).1 0 LONG_SIZE)
    (λ k s, s = take (Z.to_nat (8 * k)) mem ++ drop (Z.to_nat (8 * k)) str) (Z.to_nat (len / 8)) 0) as (s & -> & ->).
  - intros k s Hk ->. assert (8 * k + 8 ≤ zlen mem) by (revert Hmem; case_decide; lia).
    rewrite (peek_at c pre mem (8 * k)) by (done || (unfold LONG_SIZE; lia)). cbn [fst]. eexists.
    rewrite memcpy_in by (unfold LONG_SIZE; len). split; [done|].
    unfold LONG_SIZE. rewrite drop_0. rewrite (take_ge (take 8 _)) by len.
    replace (k * 8) with (8 * k) by lia. rewrite write_on by len.
    change 8%nat with (Z.to_nat 8). rewrite word_on by lia. f_equal; f_equal; lia.
  - cbn. by rewrite take_0, drop_0.
  - cbind. rewrite Z2Nat.id by lia. rewrite Z.add_0_l. set (q := len / 8) in *.
    assert (∀ s, s = take (Z.to_nat len) mem ++ drop (Z.to_nat len) str →
      store s len 0 = Ret (take (Z.to_nat len) mem ++ 0 :: drop (Z.to_nat (len + 1)) str)) as Hst.
    { intros s ->. destruct (drop (Z.to_nat len) str) as [|x r] eqn:Ed.
      - apply (f_equal length) in Ed. revert Ed. len.
      - rewrite store_app by (revert Hmem; case_decide; len). do 3 f_equal.
        replace (Z.to_nat (len + 1)) with (Z.to_nat len + 1)%nat by lia. by rewrite <- drop_drop, Ed. }
    destruct (decide (len mod 8 ≠ 0)) as [Hj|Hj].
    + rewrite decide_False in Hmem by done.
      rewrite (peek_at c pre mem (8 * q)) by (done || (unfold LONG_SIZE; lia)). cbn [fst].
      rewrite memcpy_in by (unfold LONG_SIZE; len). cbind. apply Hst.
      unfold LONG_SIZE. rewrite drop_0. rewrite take_take, Nat.min_l by lia.
      replace (q * 8) with (8 * q) by lia. rewrite write_on by len.
      rewrite word_on by lia. by rewrite <- E.
    + cbind. apply Hst. replace (8 * q) with len by lia. done.
Qed.

(** The first [j] bytes of a word, taken from the text. *)
Lemma memcpy_part (data text rest : list Z) k j :
  length data = 8%nat → 0 ≤ k → 0 ≤ j ≤ 8 → 8 * k + j ≤ zlen text →
  memcpy data 0 (text ++ rest) (k * LONG_SIZE) j =
    Ret (take (Z.to_nat j) (drop (Z.to_nat (8 * k)) text) ++ drop (Z.to_nat j) data).
Proof.
  intros Hd Hk Hj Hl. unfold LONG_SIZE. replace (k * 8) with (8 * k) by lia.
  rewrite memcpy_in by len. rewrite take_0, Z.add_0_l. cbn [app]. do 2 f_equal.
  rewrite drop_app_le by lia. rewrite take_app_le by len. done.
Qed.

(** The word the copy of the last bytes starts from. *)
Definition last_word (text word : list Z) : list Z :=
  if decide (len / 8 = 0) then word else take 8 (drop (Z.to_nat (8 * (len / 8 - 1))) text).

(** What the partial word at the end writes after the buffer. *)
Definition spill (text word : list Z) : list Z :=
  if decide (len mod 8 = 0) then [] else drop (Z.to_nat (len mod 8)) (last_word text word).

Lemma poke_data_spec text rest word :
  zlen text = len → length word = 8%nat →
  poke_data c addr (text ++ rest) len word =
    Ret (Child (base c) (pre ++ text ++ spill text word ++ drop (Z.to_nat (padded len)) mem)).
Proof.
  intros Ht Hw. destruct len_split as (E & Hq & Hr & Eq & Er & Ep). rewrite Ep in *. unfold poke_data. rewrite Eq, Er.
  edestruct (for_up_inv (λ i '(c, data), data ← memcpy data 0 (text ++ rest) (i * LONG_SIZE) LONG_SIZE;
      Ret (poke c (addr + i * LONG_SIZE) data, data))
    (λ k s, s = (Child (base c) (pre ++ take (Z.to_nat (8 * k)) text ++ drop (Z.to_nat (8 * k)) mem),
      if decide (k = 0) then word else take 8 (drop (Z.to_nat (8 * (k - 1))) text))) (Z.to_nat (len / 8)) 0)
    as (s & -> & ->).
  - intros k s Hk ->. assert (8 * k + 8 ≤ zlen mem) by (revert Hmem; case_decide; lia).
    rewrite memcpy_part; [|destruct (decide (k = 0)); len|lia|unfold LONG_SIZE; lia|unfold LONG_SIZE; lia]. cbind.
    eexists. split; [done|]. rewrite (drop_ge _ (Z.to_nat LONG_SIZE)) by (unfold LONG_SIZE; destruct (decide (k = 0)); len).
    rewrite app_nil_r. rewrite (decide_False (P := k + 1 = 0)) by lia.
    replace (k + 1 - 1) with k by lia. f_equal.
    rewrite (poke_at _ pre (take (Z.to_nat (8 * k)) text ++ drop (Z.to_nat (8 * k)) mem) (8 * k));
      [|done|cbn [base]; unfold LONG_SIZE; lia|lia|unfold LONG_SIZE; len|len].
    cbn [base]. rewrite write_on by (unfold LONG_SIZE; len). unfold LONG_SIZE. rewrite word_on by lia.
    do 3 f_equal; f_equal; lia.
  - change (Z.to_nat (8 * 0)) with 0%nat. rewrite take_0, drop_0. cbn [app]. rewrite <- Hc. by destruct c.
  - cbind. rewrite Z2Nat.id by lia. rewrite Z.add_0_l. set (q := len / 8) in *. unfold spill, last_word. fold q.
    destruct (decide (len mod 8 ≠ 0)) as [Hj|Hj].
    + rewrite (decide_False (P := len mod 8 = 0)) in Hmem by done. rewrite !(decide_False (P := len mod 8 = 0)) by done.
      rewrite memcpy_part; [|destruct (decide (q = 0)); len|lia|lia|lia]. cbind. f_equal.
      rewrite (poke_at _ pre (take (Z.to_nat (8 * q)) text ++ drop (Z.to_nat (8 * q)) mem) (8 * q));
        [|done|cbn [base]; unfold LONG_SIZE; lia|lia|destruct (decide (q = 0)); len|len].
      cbn [base]. rewrite write_on by (destruct (decide (q = 0)); len).
      rewrite (app_assoc (take _ text)), word_on by lia. rewrite <- E.
      rewrite (take_ge text) by lia. replace (Z.to_nat (8 * q) + 8)%nat with (Z.to_nat (8 * q + 8)) by lia.
      by rewrite <- app_assoc.
    + rewrite !(decide_True (P := len mod 8 = 0)) by lia. replace (8 * q) with len by lia.
      by rewrite take_ge by lia.
Qed.
End copy.

(** ** Reversing *)
Lemma skip_loop body x sp r fuel :
  isspace x = false → Forall (λ c, isspace c = true) sp → (length sp < fuel)%nat →
  while_fuel fuel (skip_step (body ++ x :: sp ++ r)) (zlen body + zlen sp) = Ret (zlen body).
Proof.
  intros Hx. revert r fuel. induction sp as [|c sp IH] using rev_ind; intros r fuel Hsp Hf; (destruct fuel as [|fuel]; [cbn in Hf; lia|]).
  - apply while_fuel_inr. unfold skip_step. rewrite load_app by (cbn; lia). cbind. rewrite Hx. cbn [length]. by rewrite Z.add_0_r.
  - apply Forall_app in Hsp as [Hsp [Hc _]%Forall_cons]. revert Hf. rewrite length_app. cbn [length]. intros Hf.
    rewrite (while_fuel_inl _ _ _ (zlen body + zlen sp)).
    + rewrite <- app_assoc. apply IH; [done|lia].
    + unfold skip_step. replace (body ++ x :: (sp ++ [c]) ++ r) with ((body ++ x :: sp) ++ c :: r) by (by rewrite <- !app_assoc).
      rewrite load_app by len. cbind. rewrite Hc. do 2 f_equal. lia.
Qed.

Lemma swap_loop n a mid z fuel :
  (length mid ≤ n)%nat → (n < fuel)%nat →
  while_fuel fuel swap_step (zlen a, zlen a + zlen mid - 1, a ++ mid ++ z) = Ret (a ++ rev mid ++ z).
Proof.
  revert a mid z fuel. induction (lt_wf n) as [n _ IH]; intros a mid z fuel Hn Hf. destruct fuel as [|fuel]; [lia|].
  destruct mid as [|x mid]; [apply while_fuel_inr; unfold swap_step; rewrite decide_False by (cbn; lia); done|].
  destruct mid as [|y mid _] using rev_ind; [apply while_fuel_inr; unfold swap_step; rewrite decide_False by (cbn; lia); done|].
  revert Hn. cbn [length]. rewrite length_app. cbn [length]. intros Hn.
  rewrite (while_fuel_inl _ _ _ (zlen (a ++ [y]), zlen (a ++ [y]) + zlen mid - 1, (a ++ [y]) ++ mid ++ (x :: z))).
  - rewrite (IH (n - 2)%nat) by lia. cbn [rev]. rewrite rev_app_distr. cbn [rev app]. by rewrite <- !app_assoc.
  - unfold swap_step. rewrite decide_True by lia. cbn [app]. rewrite (load_app a x _ (zlen a)) by done. cbind.
    replace (a ++ x :: (mid ++ [y]) ++ z) with ((a ++ x :: mid) ++ y :: z) by (by rewrite <- !app_assoc).
    rewrite load_app by len. cbind. rewrite <- app_assoc. cbn [app]. rewrite store_app by done. cbind.
    replace (a ++ y :: mid ++ y :: z) with ((a ++ y :: mid) ++ y :: z) by (by rewrite <- !app_assoc).
    rewrite store_app by len. cbind. rewrite <- !app_assoc. cbn [app]. do 2 f_equal. f_equal; f_equal; len.
Qed.

(** The text before the trailing spaces is reversed. *)
Lemma reverse_text body x sp r :
  Forall (λ c, c ≠ 0) (body ++ x :: sp) → isspace x = false → Forall (λ c, isspace c = true) sp →
  reverse ((body ++ x :: sp) ++ 0 :: r) true = Ret ((x :: rev body) ++ sp ++ 0 :: r).
Proof.
  intros Hnz Hx Hsp. unfold reverse. rewrite strlen_cstr by done. cbind.
  replace ((body ++ x :: sp) ++ 0 :: r) with (body ++ x :: sp ++ 0 :: r) by (by rewrite <- app_assoc).
  replace (zlen (body ++ x :: sp) - 1) with (zlen body + zlen sp) by len.
  rewrite skip_loop; [|done|done|len]. cbind.
  pose proof (swap_loop (length (body ++ [x])) [] (body ++ [x]) (sp ++ 0 :: r) (S (Z.to_nat (zlen (body ++ x :: sp))))) as E.
  cbn [app] in E. rewrite <- app_assoc in E. cbn [app] in E.
  replace (zlen [] + zlen (body ++ [x]) - 1) with (zlen body) in E by len. change (zlen []) with 0 in E.
  rewrite E; [|done|len]. rewrite rev_app_distr. done.
Qed.

(** A text of spaces only sends the scan before its first character. *)
Lemma reverse_blank sp r :
  Forall (λ c, isspace c = true) sp → reverse (sp ++ 0 :: r) true = Undef.
Proof.
  intros Hsp. unfold reverse. rewrite strlen_cstr; [|eapply Forall_impl; [exact Hsp|]; intros c H ->; done]. cbind.
  assert (∀ n fuel, (n ≤ length sp)%nat → (n < fuel)%nat →
    while_fuel fuel (skip_step (sp ++ 0 :: r)) (Z.of_nat n - 1) = Undef) as Hs.
  { induction n as [|n IH]; intros fuel Hn Hf; (destruct fuel as [|fuel]; [lia|]).
    - cbn. done.
    - destruct (lookup_lt_is_Some_2 sp n ltac:(lia)) as [c Hc].
      rewrite (while_fuel_inl _ _ _ (Z.of_nat n - 1)).
      + apply IH; lia.
      + unfold skip_step, load. rewrite decide_True by lia. replace (Z.to_nat (Z.of_nat (S n) - 1)) with n by lia.
        rewrite lookup_app_l, Hc by lia. cbind. rewrite (Forall_lookup_1 _ _ _ _ Hsp Hc). do 2 f_equal. lia. }
  by rewrite Hs by lia.
Qed.

(** ** Zero bytes of a word *)
(** The test answers yes exactly for a word with a byte 0 or 0x80. *)
Lemma long_has_zero_byte w :
  Forall is_byte w → length w = 8%nat →
  LONG_HAS_ZERO_BYTE (word_value w) = true ↔ Exists (λ b, b = 0 ∨ b = 0x80) w.
Proof.
  intros Hw Hl. unfold LONG_HAS_ZERO_BYTE. rewrite bool_decide_eq_true.
  set (f b := Z.lor (Z.land b 0x7f + 0x7f) 0x7f).
  assert (Forall (λ b, is_byte (Z.land b 0x7f + 0x7f) ∧ is_byte (f b) ∧ is_byte (255 - f b) ∧ (255 - f b ≠ 0 ↔ b = 0 ∨ b = 0x80)) w) as Hf.
  { eapply Forall_impl; [exact Hw|]. intros b Hb. pose proof (byte3_stage b Hb). unfold f, is_byte. intuition lia. }
  assert (LONG_MAGIC = word_value (replicate (length w) 0x7f)) as EM by (by rewrite Hl).
  rewrite EM, value_land by done.
  rewrite <- (length_map (λ b, Z.land b 0x7f) w) at 1. rewrite value_add, map_map.
  assert (∀ v, Forall is_byte v → length v = 8%nat → wrap 64 (word_value v) = word_value v) as Hwr.
  { intros v Hv Hvl. pose proof (value_bytes v Hv) as Hb. rewrite Hvl in Hb. unfold wrap. apply Z.mod_small.
    change (256 ^ Z.of_nat 8) with (2 ^ 64) in Hb. lia. }
  rewrite Hwr; [|apply Forall_map; eapply Forall_impl; [exact Hf|]; cbn; tauto|by rewrite length_map].
  rewrite <- (length_map (λ b, Z.land b 0x7f + 0x7f) w) at 1.
  rewrite value_lor; [|by vm_compute|apply Forall_map; eapply Forall_impl; [exact Hf|]; cbn; tauto].
  rewrite map_map. change (map (λ x, Z.lor (Z.land x 127 + 127) 127) w) with (map f w).
  pose proof (value_lnot (map f w)) as E. rewrite length_map, Hl, map_map in E.
  replace (wrap 64 (Z.lnot (word_value (map f w)))) with (word_value (map (λ x, 255 - f x) w)).
  - rewrite value_nonzero by (apply Forall_map; eapply Forall_impl; [exact Hf|]; cbn; unfold is_byte; lia).
    rewrite Exists_map. clear -Hf. induction Hf as [|b w Hb Hf IH]; [by rewrite !Exists_nil|]. rewrite !Exists_cons, IH. cbn. tauto.
  - rewrite <- E. unfold wrap. change (256 ^ Z.of_nat 8) with (1 * 2 ^ 64). rewrite <- (Z_mod_plus_full _ 1).
    rewrite Z.mod_small; [done|]. change (1 * 2 ^ 64) with (256 ^ Z.of_nat 8). rewrite E.
    pose proof (value_bytes (map (λ x, 255 - f x) w)) as Hb. rewrite length_map, Hl in Hb.
    change (2 ^ 64) with (256 ^ Z.of_nat 8). apply Hb. apply Forall_map. eapply Forall_impl; [exact Hf|]. cbn. tauto.
Qed.

(** ** The dump of a string *)
Definition full_word (w : list Z) : Prop := Forall is_byte w ∧ length w = 8%nat.
Definition plain_word (w : list Z) : Prop := full_word w ∧ Forall (λ b, b ≠ 0 ∧ b ≠ 0x80) w.

Lemma plain_long w : plain_word w → LONG_HAS_ZERO_BYTE (word_value w) = false.
Proof.
  intros [[Hb Hl] Hp]. apply not_true_iff_false. rewrite long_has_zero_byte by done.
  intros (b & Hin & H)%Exists_exists. rewrite Forall_forall in Hp. specialize (Hp b Hin). tauto.
Qed.

Lemma dump_reads c pre seen w post data :
  full_word w → cells c = pre ++ seen ++ w ++ post → zlen seen + 8 ≤ zlen data →
  dump_step c (base c + zlen pre) (zlen seen, seen ++ drop (length seen) data) =
    Ret (if LONG_HAS_ZERO_BYTE (word_value w) then inr ((seen ++ w) ++ drop (length (seen ++ w)) data)
         else inl (zlen (seen ++ w), (seen ++ w) ++ drop (length (seen ++ w)) data)).
Proof.
  intros [Hb Hl] Hc Hd. unfold dump_step.
  rewrite (peek_at c pre (seen ++ w ++ post) (zlen seen)); [|done|lia|lia|len].
  rewrite Nat2Z.id, drop_app_length, (take_app_length' w) by done.
  rewrite memcpy_in by (unfold LONG_SIZE; len). cbind.
  replace (take (Z.to_nat (zlen seen)) _ ++ _ ++ drop _ _) with ((seen ++ w) ++ drop (length (seen ++ w)) data).
  - destruct (LONG_HAS_ZERO_BYTE _); [done|]. do 3 f_equal. unfold LONG_SIZE. len.
  - unfold LONG_SIZE. rewrite drop_0, (take_ge w) by len. symmetry. rewrite Nat2Z.id.
    rewrite (write_on seen data w) by len. do 2 f_equal. len.
Qed.

Lemma dump_loop c pre ws w post data fuel seen :
  Forall plain_word ws → full_word w → LONG_HAS_ZERO_BYTE (word_value w) = true →
  cells c = pre ++ seen ++ concat ws ++ w ++ post → zlen seen + 8 * zlen ws + 8 ≤ zlen data → (length ws < fuel)%nat →
  while_fuel fuel (dump_step c (base c + zlen pre)) (zlen seen, seen ++ drop (length seen) data) =
    Ret ((seen ++ concat ws ++ w) ++ drop (length (seen ++ concat ws ++ w)) data).
Proof.
  intros Hws Hw Hz. revert seen fuel. induction Hws as [|v ws Hv Hws IH]; intros seen fuel Hc Hd Hf; (destruct fuel as [|fuel]; [cbn in Hf; lia|]).
  - apply while_fuel_inr. rewrite (dump_reads c pre seen w post) by (done || (cbn in Hd; lia)). by rewrite Hz.
  - cbn [concat length] in *. rewrite (while_fuel_inl _ _ _ (zlen (seen ++ v), (seen ++ v) ++ drop (length (seen ++ v)) data)).
    + rewrite IH; [by rewrite <- !app_assoc|by rewrite Hc, <- !app_assoc| |lia].
      destruct Hv as [[_ Hv] _]. revert Hd. len.
    + pose proof Hv as [Hv' _].
      rewrite (dump_reads c pre seen v (concat ws ++ w ++ post)); [by rewrite plain_long|done|by rewrite Hc, <- !app_assoc|lia].
Qed.

(** ** Properties *)

(** A [write] of the text [body], [x] and the spaces [sp], with the memory
    around its buffer. *)
Record writing := Writing { w_base : Z; w_pre : list Z; w_body : list Z; w_last : Z; w_sp : list Z; w_post : list Z }.

Definition w_text (w : writing) : list Z := w_body w ++ w_last w :: w_sp w.
Definition w_reversed (w : writing) : list Z := w_last w :: rev (w_body w) ++ w_sp w.

Definition w_ok (w : writing) : Prop :=
  Forall (λ c, c ≠ 0) (w_text w) ∧ isspace (w_last w) = false ∧ Forall (λ c, isspace c = true) (w_sp w) ∧
  zlen (w_text w) ≤ 2147483646 ∧ padded (zlen (w_text w)) ≤ zlen (w_text w) + zlen (w_post w).

Definition entry (w : writing) : stop :=
  Stop SYS_write (w_base w + zlen (w_pre w)) (zlen (w_text w)) (Child (w_base w) (w_pre w ++ w_text w ++ w_post w)).

(** The memory after it: the text reversed up to the spaces, and the bytes
    that follow the buffer overwritten up to the end of its last word. *)
Definition rewritten (word : list Z) (w : writing) : child :=
  let n := zlen (w_text w) in
  Child (w_base w) (w_pre w ++ w_reversed w ++ spill n (w_reversed w) word ++ drop (Z.to_nat (padded n - n)) (w_post w)).

Section tracer.
Context `{al : Allocator} (word : list Z) (Hword : length word = 8%nat).
Context (Hmalloc : ∀ n, 0 < n ≤ 2147483647 → ∃ p, malloc n = Some p).

Lemma entry_rewrites w : w_ok w → handle_stop word 0 (entry w) = Ret (1, rewritten word w).
Proof.
  intros (Hnz & Hx & Hsp & Hlen & Hpad). unfold handle_stop, entry. cbn [orig_rax rdx rsi memory].
  rewrite decide_True by done. rewrite decide_True by done.
  assert (0 < zlen (w_text w)) as Hpos by (unfold w_text; len).
  unfold wrap. eval_pow. rewrite Z.mod_small, s32_small by lia.
  destruct (Hmalloc (zlen (w_text w) + 1)) as [p Hp]; [lia|]. rewrite Hp.
  pose proof (malloc_size _ _ Hp) as Hpl.
  rewrite (peek_data_spec _ (w_pre w) (w_text w ++ w_post w)); [|done|done|lia|len|lia].
  rewrite Nat2Z.id, take_app_length. cbind.
  assert (∀ r, reverse (w_text w ++ 0 :: r) true = Ret (w_reversed w ++ 0 :: r)) as ->.
  { intros r. unfold w_text, w_reversed. rewrite reverse_text by done. cbn [app]. by rewrite <- app_assoc. }
  cbind.
  assert (zlen (w_reversed w) = zlen (w_text w)) as Hrl by (unfold w_reversed, w_text; cbn [length]; rewrite !length_app, length_rev; cbn [length]; lia).
  rewrite (poke_data_spec _ (w_pre w) (w_text w ++ w_post w)); [|done|done|lia|len|done|done]. cbind.
  unfold rewritten. do 5 f_equal. f_equal. rewrite drop_app_ge by (unfold padded; mlia). f_equal. unfold padded. mlia.
Qed.

(** What the tracer sees: a write from its entry to its exit, or another call. *)
Inductive item :=
| Write (w : writing) (c : child)
| Other (s : stop).

Definition item_ok (i : item) : Prop :=
  match i with Write w _ => w_ok w | Other s => orig_rax s ≠ SYS_write end.

Definition stops_of (i : item) : list stop :=
  match i with Write w c => [entry w; Stop SYS_write (rsi (entry w)) (rdx (entry w)) c] | Other s => [s] end.

Definition outcome_of (i : item) : list child :=
  match i with Write w c => [rewritten word w; c] | Other s => [memory s] end.

Lemma spill_length w : zlen (spill (zlen (w_text w)) (w_reversed w) word) = padded (zlen (w_text w)) - zlen (w_text w).
Proof.
  assert (zlen (w_reversed w) = zlen (w_text w)) as Hrl by (unfold w_reversed, w_text; cbn [length]; rewrite !length_app, length_rev; cbn [length]; lia).
  revert Hrl. generalize (zlen (w_text w)) (w_reversed w). intros n t Ht. subst n. unfold spill, last_word.
  destruct (decide (zlen t mod 8 = 0)); [unfold padded; cbn; mlia|].
  destruct (decide (zlen t / 8 = 0)); norm_length; unfold padded; mlia.
Qed.

(** The tracer over the whole run of a child.  At the entry of a write
    the text up to its trailing spaces is reversed in the child's memory; the
    exits and the other system calls leave it as it is.  The copy back is made
    in words: when the size is no multiple of eight, the bytes after the buffer
    up to the end of the last word are overwritten with what that word held. *)
Theorem trace_reverses (items : list item) :
  Forall item_ok items →
  main word (concat (map stops_of items)) = Ret (concat (map outcome_of items)) ∧
  ∀ w c, Write w c ∈ items →
    zlen (spill (zlen (w_text w)) (w_reversed w) word) = padded (zlen (w_text w)) - zlen (w_text w).
Proof.
  intros Hok. split; [|intros w c _; apply spill_length].
  unfold main. induction Hok as [|i items Hi Hok IH]; [done|].
  destruct i as [w c|s]; cbn [map concat stops_of outcome_of app main_loop].
  - rewrite entry_rewrites by done. cbind. unfold handle_stop at 1. cbn [orig_rax memory].
    rewrite decide_True by done. rewrite decide_False by lia. cbind. by rewrite IH.
  - unfold handle_stop at 1. cbn in Hi. rewrite decide_False by done. cbind. by rewrite IH.
Qed.

(** A write of nothing but spaces, or of nothing at all, sends the search
    for the last character before the start of the copy. *)
Theorem blank_write_undefined b pre sp post :
  Forall (λ c, isspace c = true) sp → zlen sp ≤ 2147483646 → padded (zlen sp) ≤ zlen sp + zlen post →
  main word [Stop SYS_write (b + zlen pre) (zlen sp) (Child b (pre ++ sp ++ post))] = Undef.
Proof.
  intros Hsp Hlen Hpad. unfold main, main_loop, handle_stop. cbn [orig_rax rdx rsi memory].
  rewrite decide_True by done. rewrite decide_True by done. unfold wrap. eval_pow. rewrite Z.mod_small, s32_small by lia.
  destruct (Hmalloc (zlen sp + 1)) as [p Hp]; [lia|]. rewrite Hp. pose proof (malloc_size _ _ Hp) as Hpl.
  rewrite (peek_data_spec _ pre (sp ++ post)); [|done|done|lia|len|lia].
  rewrite Nat2Z.id, take_app_length. cbind. by rewrite reverse_blank.
Qed.
End tracer.

Lemma zeroed_finds n : 0 < n ≤ 2147483647 → ∃ p, malloc (Allocator := zero_allocator) n = Some p.
Proof. intros Hn. cbn. unfold zeroed. rewrite decide_True by lia. eauto. Qed.

(** "total 4\n" and "a.c\n". *)
Definition total_4 : writing := Writing 4096 [1; 2] [116; 111; 116; 97; 108; 32] 52 [10] [3].
Definition a_c : writing := Writing 4096 [] [97; 46] 99 [10] [9; 9; 9; 9; 9; 9].

Lemma trace_reverses_witness :
  main (al := zero_allocator) (replicate 8 7)
    (concat (map stops_of [Write total_4 (Child 0 []); Other (Stop 2 0 0 (Child 0 [5])); Write a_c (Child 0 [])])) =
  Ret [Child 4096 [1; 2; 52; 32; 108; 97; 116; 111; 116; 10; 3]; Child 0 []; Child 0 [5];
       Child 4096 [99; 46; 97; 10; 7; 7; 7; 7; 9; 9]; Child 0 []].
Proof.
  apply (trace_reverses (replicate 8 7) eq_refl zeroed_finds
    [Write total_4 (Child 0 []); Other (Stop 2 0 0 (Child 0 [5])); Write a_c (Child 0 [])]).
  repeat constructor; vm_compute; discriminate.
Defined.

Lemma blank_write_undefined_witness :
  main (al := zero_allocator) (replicate 8 7) [Stop SYS_write (0 + 0) 1 (Child 0 [10; 0; 0; 0; 0; 0; 0; 0])] = Undef.
Proof.
  apply (blank_write_undefined (replicate 8 7) eq_refl zeroed_finds 0 [] [10] [0; 0; 0; 0; 0; 0; 0]);
    [by_eval|by_eval|by_eval].
Defined.

(** [dump_string] copies whole words into its 4096 bytes, up to and
    including the first word that has a byte 0 or, since the test ignores the
    top bit, a byte 0x80. *)
Theorem dump_string_words c pre ws w post data :
  Forall plain_word ws → full_word w → Exists (λ b, b = 0 ∨ b = 0x80) w →
  cells c = pre ++ concat ws ++ w ++ post → zlen data = 4096 → (length ws < 512)%nat →
  dump_string c (base c + zlen pre) data = Ret ((concat ws ++ w) ++ drop (length (concat ws ++ w)) data).
Proof.
  intros Hws Hw He Hc Hd Hl. pose proof Hw as [Hb Hwl]. apply (long_has_zero_byte w Hb Hwl) in He.
  apply (dump_loop c pre ws w post data 514 []); [done|done|done|done|cbn [length]; lia|lia].
Qed.

(** The character 0x80 in the second word hides the rest of the text. *)
Lemma dump_string_words_witness :
  dump_string (Child 64 ([1] ++ (replicate 8 65 ++ []) ++ [66; 0x80; 66; 66; 66; 66; 66; 66] ++ [67; 0])) 65 (replicate 4096 0) =
    Ret ((replicate 8 65 ++ [66; 0x80; 66; 66; 66; 66; 66; 66]) ++ drop 16 (replicate 4096 0)).
Proof.
  apply (dump_string_words (Child 64 ([1] ++ (replicate 8 65 ++ []) ++ [66; 0x80; 66; 66; 66; 66; 66; 66] ++ [67; 0]))
    [1] [replicate 8 65] [66; 0x80; 66; 66; 66; 66; 66; 66] [67; 0]).
  - by_eval.
  - by_eval.
  - by_eval.
  - reflexivity.
  - reflexivity.
  - by_eval.
Defined.
