(* ===== verification/IdManager.v ===== *)
(** * socket/monitor/runner.h: [IdManager<N>]

    The ids below [N] that are in use, as a bit set.  The bit set refines the
    finite set of the live ids: every sequence of calls gives the answers of
    the set. *)
From Stdlib Require Import ZArith Lia.
From stdpp Require Import base tactics numbers list gmap sets.
From S2P Require Import Prelude.

Open Scope Z_scope.

Section id_manager.
Context (N : nat).

(** [std::bitset<N> set_]; the mutex makes every call one step. *)
Abbreviation bitset := (list bool).
Definition IdManager : bitset := replicate N false.

(** The loop of [alloc] from the index [i] on, over the bits that are left. *)
Fixpoint alloc_loop (i : nat) (set_ : bitset) : option nat :=
  match set_ with
  | [] => None
  | b :: set_ => if b : bool then alloc_loop (S i) set_ else Some i
  end.

Definition alloc (set_ : bitset) : Z * bitset :=
  match alloc_loop 0 set_ with
  | Some i => (Z.of_nat i, <[i := true]> set_)
  | None => (-1, set_)
  end.

Definition dealloc (id : Z) (set_ : bitset) : bitset :=
  if decide (id >= 0 ∧ id < Z.of_nat N) then <[Z.to_nat id := false]> set_ else set_.

Definition valid (id : Z) (set_ : bitset) : bool :=
  if decide (id >= 0 ∧ id < Z.of_nat N) then default false (set_ !! Z.to_nat id) else false.

(** ** Calls *)
Inductive call := Alloc | Dealloc (id : Z) | Valid (id : Z).
Inductive answer := Id (id : Z) | Done | Is (b : bool).

Definition step (c : call) (s : bitset) : answer * bitset :=
  match c with
  | Alloc => let '(id, s) := alloc s in (Id id, s)
  | Dealloc id => (Done, dealloc id s)
  | Valid id => (Is (valid id s), s)
  end.

(** The specification: the set of the live ids. *)
Definition free_ids (live : gset Z) : list Z := filter (λ i, i ∉ live) (seqZ 0 (Z.of_nat N)).

Definition spec_step (c : call) (live : gset Z) : answer * gset Z :=
  match c with
  | Alloc =>
      match free_ids live with
      | [] => (Id (-1), live)
      | id :: _ => (Id id, {[id]} ∪ live)
      end
  | Dealloc id => (Done, live ∖ {[id]})
  | Valid id => (Is (bool_decide (id ∈ live)), live)
  end.

Fixpoint run {S} (f : call → S → answer * S) (cs : list call) (s : S) : list answer * S :=
  match cs with
  | [] => ([], s)
  | c :: cs =>
      let '(a, s) := f c s in
      let '(r, s) := run f cs s in
      (a :: r, s)
  end.

(** ** Refinement *)

(** The bit set has [N] bits, one for every id. *)
Definition refines (s : bitset) (live : gset Z) : Prop :=
  length s = N ∧ ∀ id, id ∈ live ↔ 0 ≤ id ∧ s !! Z.to_nat id = Some true.

Lemma refines_init : refines IdManager ∅.
Proof.
  split; [apply length_replicate|]. intros id. split; [set_solver|].
  intros [_ [? _]%lookup_replicate]. done.
Qed.

Lemma alloc_loop_spec s i :
  match alloc_loop i s with
  | Some k => (i ≤ k)%nat ∧ s !! (k - i)%nat = Some false ∧ ∀ j, (j < k - i)%nat → s !! j = Some true
  | None => ∀ j b, s !! j = Some b → b = true
  end.
Proof.
  revert i. induction s as [|b s IH]; intros i; cbn [alloc_loop]; [done|]. destruct b.
  - specialize (IH (S i)). destruct (alloc_loop (S i) s) as [k|].
    + destruct IH as (Hk & H1 & H2). replace (k - i)%nat with (S (k - S i)) by lia. split_and!; [lia|done|].
      intros [|j] Hj; [done|]. apply H2. lia.
    + intros [|j] b Hb; [by injection Hb|]. by apply (IH j).
  - rewrite Nat.sub_diag. split_and!; [lia|done|lia].
Qed.

Lemma filter_none (P : Z → Prop) `{∀ x, Decision (P x)} (l : list Z) : (∀ x, x ∈ l → ¬ P x) → filter P l = [].
Proof.
  intros Hl. induction l as [|x l IH]; [done|]. rewrite filter_cons_False by (apply Hl; left).
  apply IH. intros y Hy. apply Hl. by right.
Qed.

Lemma free_ids_first live k :
  0 ≤ k < Z.of_nat N → k ∉ live → (∀ j, 0 ≤ j < k → j ∈ live) → ∃ r, free_ids live = k :: r.
Proof.
  intros Hk Hn Hb. unfold free_ids. replace (seqZ 0 (Z.of_nat N)) with (seqZ 0 k ++ k :: seqZ (k + 1) (Z.of_nat N - k - 1)).
  - rewrite filter_app. replace (filter _ (seqZ 0 k)) with ([] : list Z).
    + rewrite filter_cons_True by done. cbn. eauto.
    + symmetry. apply filter_none. intros j Hj%elem_of_seqZ Hj'. apply Hj', Hb. lia.
  - replace (Z.of_nat N) with (k + (1 + (Z.of_nat N - k - 1))) at 2 by lia. rewrite seqZ_app by lia. f_equal.
    rewrite (seqZ_cons (0 + k)) by lia. rewrite Z.add_0_l. f_equal. f_equal; lia.
Qed.

Lemma free_ids_none live : (∀ j, 0 ≤ j < Z.of_nat N → j ∈ live) → free_ids live = [].
Proof.
  intros Hb. apply filter_none. intros j Hj%elem_of_seqZ Hj'. apply Hj', Hb. lia.
Qed.

Lemma step_refines c s live :
  refines s live →
  (step c s).1 = (spec_step c live).1 ∧ refines (step c s).2 (spec_step c live).2.
Proof.
  intros [Hl Hr]. destruct c as [|id|id]; cbn [step spec_step].
  - unfold alloc. pose proof (alloc_loop_spec s 0) as Ha. destruct (alloc_loop 0 s) as [k|].
    + destruct Ha as (_ & Hk & Hb). rewrite Nat.sub_0_r in *. assert (k < length s)%nat as Hkl by (by eapply lookup_lt_Some).
      destruct (free_ids_first live (Z.of_nat k)) as [r ->].
      * lia.
      * rewrite Hr, Nat2Z.id. intros [_ ?]. congruence.
      * intros j Hj. rewrite Hr. split; [lia|]. apply Hb. lia.
      * cbn [fst snd]. split; [done|]. split; [by rewrite length_insert|]. intros id. rewrite elem_of_union, elem_of_singleton, Hr.
        destruct (decide (0 ≤ id)); [|naive_solver lia]. rewrite list_lookup_insert_Some. rewrite Hl in *. naive_solver lia.
    + rewrite free_ids_none; [done|]. intros j Hj. rewrite Hr. split; [lia|].
      destruct (lookup_lt_is_Some_2 s (Z.to_nat j)) as [b Hb]; [lia|]. by rewrite Hb, (Ha _ _ Hb).
  - cbn [fst snd]. split; [done|]. unfold dealloc. case_decide as Hd.
    + split; [by rewrite length_insert|]. intros j. rewrite elem_of_difference, elem_of_singleton, Hr, list_lookup_insert_Some. naive_solver lia.
    + split; [done|]. intros j. rewrite elem_of_difference, elem_of_singleton, Hr. split; [tauto|].
      intros [Hj Hs]. split; [done|]. intros ->. apply Hd. apply lookup_lt_Some in Hs. lia.
  - cbn [fst snd]. split; [|done]. f_equal. unfold valid. case_decide as Hd.
    + symmetry. destruct (s !! Z.to_nat id) as [[]|] eqn:E; cbn; [rewrite bool_decide_true; [done|]|rewrite bool_decide_false; [done|]..];
        rewrite Hr; rewrite E; naive_solver lia.
    + rewrite bool_decide_false; [done|]. rewrite Hr. intros [? H%lookup_lt_Some]. lia.
Qed.

(** Every sequence of calls answers as the set of the live ids does:
    [alloc] gives the least id below [N] that is not in use, or -1 when all
    are; [valid] holds of the ids allocated and not given back; giving back an
    id out of range changes nothing. *)
Theorem id_manager_refines cs :
  (run step cs IdManager).1 = (run spec_step cs ∅).1 ∧ refines (run step cs IdManager).2 (run spec_step cs ∅).2.
Proof.
  generalize refines_init. generalize IdManager (∅ : gset Z). induction cs as [|c cs IH]; intros s live Hr; [done|].
  cbn [run]. destruct (step_refines c s live Hr) as [Ha Hs].
  destruct (step c s) as [a s'], (spec_step c live) as [a' live']. cbn in Ha, Hs. subst a'.
  specialize (IH s' live' Hs). destruct (run step cs s'), (run spec_step cs live'). cbn in *. destruct IH as [-> ?]. done.
Qed.
End id_manager.

(** A free id is reused, and the fourth allocation of three fails. *)
Example id_manager_run :
  (run (step 3) [Alloc; Alloc; Alloc; Alloc; Dealloc 1; Valid 1; Alloc; Dealloc 7; Valid 2] (IdManager 3)).1 =
  [Id 0; Id 1; Id 2; Id (-1); Done; Is false; Id 1; Done; Is true].
Proof. reflexivity. Qed.
