(* ===== verification/TimeWheel.v ===== *)
(** * socket/monitor/time_wheel.h: [TimeWheel<T, N>]

    [N] slots and an index that goes down at every tick.  The wheel refines a
    queue of slots: a tick takes the slot at its head and appends an empty one,
    and [current] is the slot at its end, so that what is put there comes out
    at the [N]-th tick from then and at no other. *)
From Stdlib Require Import ZArith Lia.
From stdpp Require Import base tactics numbers list.
From S2P Require Import Prelude.

Section wheel.
Context {T : Type} (N : nat).

Record TimeWheel := Wheel { wheel_ : list (list T); i_ : Z }.

Open Scope Z_scope.

Definition TimeWheel_new : TimeWheel := Wheel (replicate N []) (Z.of_nat N - 1).

Definition tick (w : TimeWheel) : outcome (list T * TimeWheel) :=
  let i := (if decide (i_ w = 0) then Z.of_nat N else i_ w) - 1 in
  slot ← load (wheel_ w) i;
  wheel ← store (wheel_ w) i [];
  Ret (slot, Wheel wheel i).

(** The reference [current()] gives, read and pushed to by the caller. *)
Definition current (w : TimeWheel) : outcome (list T) := load (wheel_ w) (i_ w).

Definition add (x : T) (w : TimeWheel) : outcome TimeWheel :=
  slot ← current w;
  wheel ← store (wheel_ w) (i_ w) (slot ++ [x]);
  Ret (Wheel wheel (i_ w)).

(** ** The queue *)
Inductive op := Tick | Add (x : T).

Fixpoint run (ops : list op) (w : TimeWheel) : outcome (list (list T)) :=
  match ops with
  | [] => Ret []
  | Tick :: ops => '(slot, w) ← tick w; slots ← run ops w; Ret (slot :: slots)
  | Add x :: ops => w ← add x w; run ops w
  end.

(** The slots still to come, the next one first. *)
Fixpoint run_queue (ops : list op) (q : list (list T)) : list (list T) :=
  match ops with
  | [] => []
  | Tick :: ops => hd [] q :: run_queue ops (tl q ++ [[]])
  | Add x :: ops => run_queue ops (removelast q ++ [List.last q [] ++ [x]])
  end.

(** ** Refinement *)

(** The slots below the index come out first, downwards, then the others. *)
Definition queue (w : TimeWheel) : list (list T) :=
  rev (take (Z.to_nat (i_ w)) (wheel_ w)) ++ rev (drop (Z.to_nat (i_ w)) (wheel_ w)).

Definition wheel_ok (w : TimeWheel) : Prop := length (wheel_ w) = N ∧ 0 ≤ i_ w < Z.of_nat N.

Lemma split_wheel w i : length (wheel_ w) = N → 0 ≤ i < Z.of_nat N → ∃ a x b, wheel_ w = a ++ x :: b ∧ i = zlen a.
Proof. intros Hl Hi. apply split_at. lia. Qed.

Lemma queue_split a x b : queue (Wheel (a ++ x :: b) (zlen a)) = rev a ++ rev b ++ [x].
Proof. unfold queue. cbn [wheel_ i_]. rewrite Nat2Z.id, take_app_length, drop_app_length. done. Qed.

Lemma tick_refines w :
  wheel_ok w → ∃ w', tick w = Ret (hd [] (queue w), w') ∧ wheel_ok w' ∧ queue w' = tl (queue w) ++ [[]].
Proof.
  intros [Hl Hi]. unfold tick. set (i := (if decide (i_ w = 0) then Z.of_nat N else i_ w) - 1).
  assert (0 ≤ i < Z.of_nat N) as Hi' by (unfold i; case_decide; lia).
  destruct (split_wheel w i Hl Hi') as (a & x & b & Hw & Ha). rewrite Hw, load_app by done. cbn [mbind outcome_bind].
  rewrite store_app by done. cbn [mbind outcome_bind].
  assert (queue w = x :: rev a ++ rev b) as Hq.
  { unfold queue. unfold i in Ha. case_decide as H0.
    - rewrite H0, drop_0, take_0, Hw. assert (b = []) as -> by (apply length_zero_iff_nil; revert Hl; rewrite Hw; len).
      cbn [rev app]. by rewrite rev_app_distr, app_nil_r.
    - rewrite Hw. replace (Z.to_nat (i_ w)) with (length (a ++ [x])) by len.
      replace (a ++ x :: b) with ((a ++ [x]) ++ b) by (by rewrite <- app_assoc).
      rewrite take_app_length, drop_app_length, rev_app_distr. done. }
  rewrite Hq. cbn [hd tl]. eexists. split; [done|]. split.
  - split; cbn [wheel_ i_]; [|done]. rewrite <- Hl, Hw. len.
  - rewrite Ha, queue_split. by rewrite app_assoc.
Qed.

Lemma add_refines x w :
  wheel_ok w → ∃ w', add x w = Ret w' ∧ wheel_ok w' ∧ queue w' = removelast (queue w) ++ [List.last (queue w) [] ++ [x]].
Proof.
  intros [Hl Hi]. unfold add, current. destruct (split_wheel w (i_ w) Hl Hi) as (a & s & b & Hw & Ha).
  rewrite Hw, load_app by done. cbn [mbind outcome_bind]. rewrite store_app by done. cbn [mbind outcome_bind].
  eexists. split; [done|]. split.
  - split; cbn [wheel_ i_]; [|done]. rewrite <- Hl, Hw. len.
  - assert (queue w = (rev a ++ rev b) ++ [s]) as ->.
    { destruct w as [wh i]. cbn [wheel_ i_] in *. subst wh i. rewrite queue_split. by rewrite app_assoc. }
    rewrite Ha, queue_split, removelast_last, last_last. by rewrite app_assoc.
Qed.

Lemma run_refines ops w : wheel_ok w → run ops w = Ret (run_queue ops (queue w)).
Proof.
  revert w. induction ops as [|[|x] ops IH]; intros w Hw; cbn [run run_queue]; [done|..].
  - destruct (tick_refines w Hw) as (w' & -> & Hw' & <-). cbn [mbind outcome_bind]. by rewrite IH.
  - destruct (add_refines x w Hw) as (w' & -> & Hw' & <-). cbn [mbind outcome_bind]. by rewrite IH.
Qed.

Lemma new_queue : queue TimeWheel_new = replicate N [].
Proof.
  unfold queue, TimeWheel_new. cbn [wheel_ i_]. rewrite <- rev_app_distr.
  rewrite take_replicate, drop_replicate, <- replicate_add, rev_alt, <- (reverse_replicate N []). unfold reverse.
  rewrite <- !rev_alt. f_equal. f_equal. lia.
Qed.

(** ** When an item comes out *)
Definition after (o : op) (q : list (list T)) : list (list T) :=
  match o with
  | Tick => tl q ++ [[]]
  | Add x => removelast q ++ [List.last q [] ++ [x]]
  end.

Lemma run_queue_app ops1 ops2 q :
  run_queue (ops1 ++ ops2) q = run_queue ops1 q ++ run_queue ops2 (foldl (λ q o, after o q) q ops1).
Proof. revert q. induction ops1 as [|[|x] ops1 IH]; intros q; cbn; [done|f_equal; apply IH|apply IH]. Qed.

Fixpoint ticks (ops : list op) : nat :=
  match ops with [] => 0 | Tick :: ops => S (ticks ops) | Add _ :: ops => ticks ops end.

(** The item [x] is in the slot at [k] and in no other. *)
Definition only_at (x : T) (k : nat) (q : list (list T)) : Prop :=
  length q = N ∧ ∀ j s, q !! j = Some s → (x ∈ s ↔ j = k).

Definition nowhere (x : T) (q : list (list T)) : Prop := length q = N ∧ ∀ s, s ∈ q → x ∉ s.

Lemma snoc_queue (q : list (list T)) : (0 < length q)%nat → ∃ r s, q = r ++ [s].
Proof. intros Hq. destruct q as [|s r _] using rev_ind; [cbn in Hq; lia|]. eauto. Qed.

Lemma nowhere_after x o q : (0 < N)%nat → o ≠ Add x → nowhere x q → nowhere x (after o q).
Proof.
  intros HN Ho [Hl Hx]. destruct o as [|y]; cbn [after].
  - destruct q as [|s q]; [cbn in Hl; lia|]. cbn [tl]. split; [revert Hl; len|]. intros s'. rewrite elem_of_app, list_elem_of_singleton.
    intros [Hs| ->]; [apply Hx; by right|by apply not_elem_of_nil].
  - destruct (snoc_queue q ltac:(lia)) as (r & s & ->). rewrite removelast_last, last_last. split; [revert Hl; len|].
    intros s'. rewrite elem_of_app, list_elem_of_singleton. intros [Hs| ->]; [apply Hx; rewrite elem_of_app; by left|].
    rewrite not_elem_of_app, list_elem_of_singleton. split; [apply Hx; rewrite elem_of_app; right; by left|congruence].
Qed.

Lemma added_at x q : (0 < N)%nat → nowhere x q → only_at x (N - 1) (after (Add x) q).
Proof.
  intros HN [Hl Hx]. destruct (snoc_queue q ltac:(lia)) as (r & s & ->). cbn [after]. rewrite removelast_last, last_last.
  revert Hl. rewrite length_app. cbn [length]. intros Hl. split; [len|]. intros j s'. rewrite lookup_app_Some, list_lookup_singleton_Some.
  intros [Hj|(Hj & Hj0 & <-)].
  - split; [|intros ->; apply lookup_lt_Some in Hj; lia]. intros Hin. exfalso. apply (Hx s'); [|done].
    rewrite elem_of_app. left. by eapply list_elem_of_lookup_2.
  - split; [lia|]. intros _. rewrite elem_of_app. right. by apply list_elem_of_singleton.
Qed.

Lemma only_at_tick x k q : (S k < N)%nat → only_at x (S k) q → (x ∉ hd [] q) ∧ only_at x k (after Tick q).
Proof.
  intros Hk [Hl Hx]. destruct q as [|s q]; [cbn in Hl; lia|]. cbn [hd tl after] in *. cbn [length] in Hl. split.
  - intros Hin. by apply (Hx 0%nat s) in Hin.
  - split; [len|]. intros j s'. rewrite lookup_app_Some, list_lookup_singleton_Some. intros [Hj|(Hj & Hj0 & <-)].
    + rewrite (Hx (S j) s' Hj). lia.
    + split; [by intros ?%not_elem_of_nil|lia].
Qed.

Lemma only_at_add x y k q : (k < N)%nat → y ≠ x → only_at x k q → only_at x k (after (Add y) q).
Proof.
  intros Hk Hy [Hl Hx]. destruct (snoc_queue q ltac:(lia)) as (r & s & ->). cbn [after]. rewrite removelast_last, last_last.
  split; [revert Hl; len|]. intros j s'. rewrite lookup_app_Some, list_lookup_singleton_Some. intros [Hj|(Hj & Hj0 & <-)].
  - apply Hx. by apply lookup_app_l_Some.
  - rewrite elem_of_app, list_elem_of_singleton. rewrite <- (Hx j s); [naive_solver|].
    rewrite lookup_app_r by done. by rewrite Hj0.
Qed.

Lemma only_at_run x k q ops :
  (k < N)%nat → Add x ∉ ops → (ticks ops ≤ k)%nat → only_at x k q →
  (∀ s, s ∈ run_queue ops q → x ∉ s) ∧ only_at x (k - ticks ops) (foldl (λ q o, after o q) q ops).
Proof.
  revert k q. induction ops as [|o ops IH]; intros k q Hk Hn Ht Ho; cbn [run_queue ticks foldl].
  - split; [by intros s ?%not_elem_of_nil|]. by rewrite Nat.sub_0_r.
  - apply not_elem_of_cons in Hn as [Hn Hns]. destruct o as [|y]; cbn [ticks] in Ht.
    + destruct k as [|k]; [lia|]. destruct (only_at_tick x k q) as [Hh Ho']; [done|done|].
      destruct (IH k (after Tick q)) as [H1 H2]; [lia|done|lia|done|]. split; [|exact H2].
      intros s [-> |Hs]%elem_of_cons; [done|by apply H1].
    + apply IH; [done|done|done|]. apply only_at_add; [done|congruence|done].
Qed.

Lemma nowhere_run x q ops :
  (0 < N)%nat → Add x ∉ ops → nowhere x q →
  (∀ s, s ∈ run_queue ops q → x ∉ s) ∧ nowhere x (foldl (λ q o, after o q) q ops).
Proof.
  intros HN. revert q. induction ops as [|o ops IH]; intros q Hn Hx; cbn [run_queue foldl].
  - split; [by intros s ?%not_elem_of_nil|done].
  - apply not_elem_of_cons in Hn as [Hn Hns]. pose proof (nowhere_after x o q HN ltac:(congruence) Hx) as Hx'.
    destruct (IH (after o q) Hns Hx') as [H1 H2]. split; [|exact H2]. destruct o as [|y]; [|exact H1].
    intros s [-> |Hs]%elem_of_cons; [|by apply H1]. destruct q as [|s q]; [by apply not_elem_of_nil|]. apply Hx. by left.
Qed.

(** Every sequence of ticks and additions gives the slots the queue
    gives.  An item that is added once comes out at the [N]-th tick after that,
    and in no slot before. *)
Theorem wheel_expires (ops1 ops2 : list op) (x : T) :
  (0 < N)%nat → Add x ∉ ops1 → Add x ∉ ops2 → ticks ops2 = (N - 1)%nat →
  run (ops1 ++ Add x :: ops2 ++ [Tick]) TimeWheel_new =
    Ret (run_queue (ops1 ++ Add x :: ops2 ++ [Tick]) (replicate N [])) ∧
  ∃ slots slot, run (ops1 ++ Add x :: ops2 ++ [Tick]) TimeWheel_new = Ret (slots ++ [slot]) ∧
    x ∈ slot ∧ ∀ s, s ∈ slots → x ∉ s.
Proof.
  intros HN Hn1 Hn2 Ht.
  assert (∀ ops, run ops TimeWheel_new = Ret (run_queue ops (replicate N []))) as Hrun.
  { intros ops. rewrite <- new_queue. apply run_refines. split; unfold TimeWheel_new; cbn [wheel_ i_]; [apply length_replicate|lia]. }
  rewrite Hrun. split; [done|]. rewrite run_queue_app. cbn [run_queue].
  destruct (nowhere_run x (replicate N []) ops1 HN Hn1) as [H1 H1'].
  { split; [apply length_replicate|]. intros s [-> _]%elem_of_replicate. by apply not_elem_of_nil. }
  set (q := foldl _ _ ops1) in *. pose proof (added_at x q HN H1') as Ha. cbn [after] in Ha.
  rewrite run_queue_app. destruct (only_at_run x (N - 1) _ ops2 ltac:(lia) Hn2 ltac:(lia) Ha) as [H2 H2'].
  rewrite Ht, Nat.sub_diag in H2'. set (q' := foldl _ _ ops2) in *. cbn [run_queue].
  eexists _, (hd [] q'). rewrite app_assoc. split; [done|]. split.
  - destruct H2' as [Hl Hx]. destruct q' as [|s q']; [cbn in Hl; lia|]. by apply (Hx 0%nat s).
  - intros s [Hs|Hs]%elem_of_app; [by apply H1|by apply H2].
Qed.
End wheel.

#[export] Instance op_eq_dec {T} `{EqDecision T} : EqDecision (@op T).
Proof. solve_decision. Defined.

Lemma wheel_expires_witness :
  ∃ slots slot, run 4 [Tick; Add 5%Z; Tick; Add 7%Z; Tick; Tick; Add 6%Z; Tick; Tick] (TimeWheel_new 4) = Ret (slots ++ [slot]) ∧
    7%Z ∈ slot ∧ ∀ s, s ∈ slots → 7%Z ∉ s.
Proof.
  apply (wheel_expires 4 [Tick; Add 5%Z; Tick] [Tick; Tick; Add 6%Z; Tick] 7%Z);
    [lia|by_eval|by_eval|reflexivity].
Defined.
