(* ===== verification/TaskRunner.v ===== *)
(** * socket/monitor/runner.h and runner.cpp: [Notifier], [Task], [TaskRunner]

    A thread takes tasks from a deque that other threads push to.  The deque
    and the event counter are shared; a state is what they hold together with
    where every thread is, and an action is one atomic step of a thread, so that
    a list of actions is one interleaving. *)
From Stdlib Require Import ZArith Lia.
From stdpp Require Import base tactics numbers list sets.
From S2P Require Import Prelude.

Open Scope Z_scope.

(** ** [Notifier]: an eventfd *)
Definition kNotifyQuit : Z := 0x1ffffffff.
Definition kNotifyOne : Z := 1.

(** A write adds to the counter and blocks while it would pass the maximum; a
    read takes all of it and blocks while it is zero. *)
Definition counter_max : Z := 18446744073709551614.

Definition notify (event counter : Z) : option Z :=
  if decide (counter + event ≤ counter_max) then Some (counter + event) else None.

Definition retrieve (counter : Z) : option (Z * Z) :=
  if decide (counter = 0) then None else Some (counter, 0).

(** ** [Task] *)

(** What a task has: a function, a closure instead (its [arg] is the closure
    tag), hooks; and how the function or closure ends. *)
Record Task := MkTask {
  id : Z;
  fn : bool;
  is_closure : bool;
  throws : bool;
  value : Z;
  oncall : bool;
  onreturn : bool;
  onexception : bool;
}.

#[export] Instance Task_eq_dec : EqDecision Task.
Proof. solve_decision. Defined.

Inductive event := OnCall (t : Task) | Called (t : Task) | OnException (t : Task) | OnReturn (t : Task) (p : Z).

(** The calls [Task::run] makes, in order; a null function is no call. *)
Definition task_run (t : Task) : outcome (list event) :=
  let hook1 := if oncall t then [OnCall t] else [] in
  if is_closure t || fn t then
    let hook2 := if throws t && onexception t then [OnException t] else [] in
    let p := if throws t || is_closure t then 0 else value t in
    let hook3 := if onreturn t then [OnReturn t p] else [] in
    Ret (hook1 ++ [Called t] ++ hook2 ++ hook3)
  else Undef.

(** ** [TaskRunner] *)
Inductive phase :=
| Waiting                  (** in [poll] *)
| Taken (e : Z)            (** has read [e], not yet locked the deque *)
| Working (ts : list Task) (** has [ts] left to run *)
| Stopped.

Record runner := MkRunner {
  tasks_ : list Task;   (** front first *)
  counter : Z;
  pushing : nat;        (** calls of [post] between the push and the notify *)
  at_ : phase;
  ran : list Task;      (** what has been run, oldest first *)
  posted : list Task;   (** what has been accepted *)
  quits : nat;          (** calls of [stop] *)
}.

Definition runner_start : runner := MkRunner [] 0 0 Waiting [] [] 0.

(** [while (e--) { tasks.push_back(tasks_.front()); tasks_.pop_front(); }]: the
    front of an empty deque is undefined. *)
Fixpoint take_front (e : nat) (ts : list Task) : outcome (list Task * list Task) :=
  match e, ts with
  | O, _ => Ret ([], ts)
  | S e, t :: ts => '(b, ts) ← take_front e ts; Ret (t :: b, ts)
  | S _, [] => Undef
  end.

Inductive action :=
| Post (t : Task)     (** [post] up to the unlock *)
| Notify              (** the notify of some [post] *)
| Stop                (** [stop] *)
| Wake                (** [poll] returns, the counter is read *)
| Lock                (** the deque is locked and [e] tasks are taken *)
| RunOne              (** the next task is run *)
| Again.              (** back to [poll] *)

(** [post] up to the unlock: a task without a function is ignored. *)
Definition post_push (t : Task) (s : runner) : runner :=
  let '(MkRunner ts c p ph r po q) := s in
  if fn t then MkRunner (t :: ts) c (S p) ph r (po ++ [t]) q else s.

(** The end of a [post] under way; [None] is a call that has to wait. *)
Definition post_notify (s : runner) : option runner :=
  let '(MkRunner ts c p ph r po q) := s in
  match p, notify kNotifyOne c with
  | S p, Some c => Some (MkRunner ts c p ph r po q)
  | _, _ => None
  end.

(** [Runner::stop]; the state it stores is only looked at by others. *)
Definition stop (s : runner) : option runner :=
  let '(MkRunner ts c p ph r po q) := s in
  match notify kNotifyQuit c with
  | Some c => Some (MkRunner ts c p ph r po (S q))
  | None => None
  end.

(** The steps of [Run]: [None] is not the thread's next step. *)
Definition Run (a : action) (s : runner) : option (outcome runner) :=
  let '(MkRunner ts c p ph r po q) := s in
  match a, ph with
  | Wake, Waiting =>
      match retrieve c with
      | Some (e, c) =>
          Some (Ret (MkRunner ts c p (if decide (e >= kNotifyQuit) then Stopped else Taken e) r po q))
      | None => None
      end
  | Lock, Taken e =>
      Some ('(b, ts) ← take_front (Z.to_nat e) ts; Ret (MkRunner ts c p (Working b) r po q))
  | RunOne, Working (t :: b) =>
      Some (_ ← task_run t; Ret (MkRunner ts c p (Working b) (r ++ [t]) po q))
  | Again, Working [] => Some (Ret (MkRunner ts c p Waiting r po q))
  | _, _ => None
  end.

Definition step (a : action) (s : runner) : option (outcome runner) :=
  match a with
  | Post t => Some (Ret (post_push t s))
  | Notify => Ret <$> post_notify s
  | Stop => Ret <$> stop s
  | _ => Run a s
  end.

(** The states the runner reaches. *)
Inductive reachable : runner → Prop :=
| reachable_start : reachable runner_start
| reachable_step s a s' : reachable s → step a s = Some (Ret s') → reachable s'.

(** ** The invariant *)
Definition batch (ph : phase) : list Task := match ph with Working b => b | _ => [] end.
Definition taken (ph : phase) : Z := match ph with Taken e => e | _ => 0 end.

(** Every task accepted is run, being run or in the deque; every task in the
    deque is announced by the counter, by what was read of it, or by a [post]
    that has yet to notify. *)
Definition inv (s : runner) : Prop :=
  posted s ≡ₚ ran s ++ batch (at_ s) ++ tasks_ s ∧
  Forall (λ t, fn t = true) (posted s) ∧
  0 ≤ taken (at_ s) ∧ 0 ≤ counter s ∧
  (at_ s ≠ Stopped →
    zlen (tasks_ s) = Z.of_nat (pushing s) + taken (at_ s) + (counter s - Z.of_nat (quits s) * kNotifyQuit) ∧
    Z.of_nat (quits s) * kNotifyQuit ≤ counter s).

Lemma take_front_spec e ts : (e ≤ length ts)%nat → take_front e ts = Ret (take e ts, drop e ts).
Proof.
  revert ts. induction e as [|e IH]; intros ts He; [done|]. destruct ts as [|t ts]; [cbn in He; lia|].
  cbn [take_front]. rewrite IH by (cbn in He; lia). done.
Qed.

Lemma task_run_fn t : fn t = true → ∃ es, task_run t = Ret es.
Proof. intros H. unfold task_run. rewrite H, orb_true_r. eauto. Qed.

(** Open the invariant of the state an action leads to. *)
Ltac next_state :=
  eexists; split; [reflexivity|]; unfold inv;
  cbn [tasks_ counter pushing at_ ran posted quits batch taken app length] in *; split_and!; try done.

(** An action from a state of the invariant is defined and keeps it. *)
Lemma runner_step_inv a s o : inv s → step a s = Some o → ∃ s', o = Ret s' ∧ inv s'.
Proof.
  destruct s as [ts c p ph r po q]. intros (Hp & Hf & Ht & Hc & Hn) Hs. cbn [tasks_ counter pushing at_ ran posted quits] in *.
  destruct a as [t| | | | | |]; cbn [step post_push post_notify stop Run] in Hs.
  - destruct (fn t) eqn:Hft; simplify_eq; next_state.
    + rewrite Hp. solve_Permutation.
    + apply Forall_app. by repeat constructor.
    + intros Hns%Hn. lia.
  - destruct p as [|p]; [done|]. unfold notify, kNotifyOne in Hs. case_decide; cbn in Hs; simplify_eq. next_state; [lia|]. intros Hns%Hn. lia.
  - unfold notify, kNotifyOne in Hs. case_decide; cbn in Hs; simplify_eq. next_state; [unfold kNotifyQuit; lia|]. intros Hns%Hn. unfold kNotifyQuit in *. lia.
  - destruct ph; try done. unfold retrieve in Hs. case_decide; simplify_eq. case_decide; next_state.
    intros _. destruct Hn as [Hn1 Hn2]; [done|]. unfold kNotifyQuit in *. assert (q = 0%nat) as -> by lia. lia.
  - destruct ph as [|e|b|]; simplify_eq. destruct Hn as [Hn1 Hn2]; [done|]. cbn [batch taken] in *.
    rewrite take_front_spec by lia. cbn [mbind outcome_bind]. next_state.
    + by rewrite take_drop.
    + intros _. rewrite length_drop. lia.
  - destruct ph as [| |[|t b]|]; simplify_eq. destruct (task_run_fn t) as [es ->].
    { rewrite Hp in Hf. cbn [batch] in Hf. rewrite !Forall_app, Forall_cons in Hf. tauto. }
    cbn [mbind outcome_bind]. next_state.
    + rewrite Hp. by rewrite <- app_assoc.
    + intros _. by apply Hn.
  - destruct ph as [| |[|t b]|]; simplify_eq. next_state. intros _. by apply Hn.
Qed.

Lemma runner_reachable_inv s : reachable s → inv s.
Proof.
  induction 1 as [|s a s' Hs IH Hst]; [repeat split; cbn; done|]. destruct (runner_step_inv a s _ IH Hst) as (s1 & [= ->] & Hi). done.
Qed.

(** ** Properties *)

(** C31: whatever the interleaving of posts, notifications, stops and the
    runner's own steps, no step is undefined (the deque is never emptied too
    far, no null function is called) and every task accepted is, once, among
    those run, being run, or waiting in the deque.  A task that has only a
    closure is not accepted. *)
Theorem task_runner_safe s :
  reachable s →
  (∀ a o, step a s = Some o → ∃ s', o = Ret s') ∧
  posted s ≡ₚ ran s ++ batch (at_ s) ++ tasks_ s ∧
  (∀ t, fn t = false → step (Post t) s = Some (Ret s)).
Proof.
  intros Hr%runner_reachable_inv. split_and!.
  - intros a o Ho. destruct (runner_step_inv a s o Hr Ho) as (s' & -> & _). eauto.
  - apply Hr.
  - intros t Ht. destruct s. cbn. by rewrite Ht.
Qed.

(** A run of actions, each of them possible. *)
Fixpoint exec (acts : list action) (s : runner) : option (outcome runner) :=
  match acts with
  | [] => Some (Ret s)
  | a :: acts =>
      match step a s with
      | Some (Ret s') => exec acts s'
      | o => o
      end
  end.

Lemma runner_exec_app acts1 acts2 s s' : exec acts1 s = Some (Ret s') → exec (acts1 ++ acts2) s = exec acts2 s'.
Proof.
  revert s. induction acts1 as [|a acts1 IH]; intros s H; cbn in *; [by simplify_eq|].
  destruct (step a s) as [[s1| |]|]; try done. by apply IH.
Qed.

Lemma exec_run b ts c p r po q :
  Forall (λ t, fn t = true) b →
  exec (replicate (length b) RunOne) (MkRunner ts c p (Working b) r po q) = Some (Ret (MkRunner ts c p (Working []) (r ++ b) po q)).
Proof.
  revert r. induction b as [|t b IH]; intros r Hb; cbn [replicate length exec]; [by rewrite app_nil_r|].
  apply Forall_cons in Hb as [Ht Hb]. cbn [step Run]. destruct (task_run_fn t Ht) as [es ->]. cbn [mbind outcome_bind].
  rewrite IH by done. by rewrite <- app_assoc.
Qed.

(** The runner is live: when the posts under way have notified and
    nobody has stopped it, its own steps run everything in the deque, the
    newest task first, and it waits again with the deque empty and every
    accepted task run. *)
Theorem task_runner_drains s :
  reachable s → at_ s = Waiting → pushing s = 0%nat → quits s = 0%nat → counter s < kNotifyQuit →
  ∃ acts s', Forall (λ a, a ∈ [Wake; Lock; RunOne; Again]) acts ∧ exec acts s = Some (Ret s') ∧
    at_ s' = Waiting ∧ tasks_ s' = [] ∧ ran s' = ran s ++ tasks_ s ∧ ran s' ≡ₚ posted s'.
Proof.
  intros (Hp & Hf & _ & Hc & Hn)%runner_reachable_inv Ha Hpu Hq Hlt. destruct s as [ts c p ph r po q].
  cbn [tasks_ counter pushing at_ ran posted quits] in *. subst. destruct Hn as [Hl _]; [done|]. cbn [batch taken app] in *.
  destruct (decide (c = 0)) as [-> |Hc0].
  - exists [], (MkRunner ts 0 0 Waiting r po 0). destruct ts; [|cbn in Hl; lia].
    cbn [ran tasks_ posted at_]. rewrite app_nil_r in *. split_and!; [constructor|done..].
  - exists ([Wake; Lock] ++ replicate (length ts) RunOne ++ [Again]), (MkRunner [] 0 0 Waiting (r ++ ts) po 0).
    split; [rewrite !Forall_app; split_and!; [by repeat constructor; set_solver|apply Forall_replicate; set_solver|by repeat constructor; set_solver]|].
    split; [|cbn; split_and!; done].
    assert (exec [Wake; Lock] (MkRunner ts c 0 Waiting r po 0) = Some (Ret (MkRunner [] 0 0 (Working ts) r po 0))) as E.
    { cbn [exec step Run]. unfold retrieve. rewrite decide_False by done. rewrite decide_False by lia. cbn [exec step Run].
      rewrite take_front_spec by lia. cbn [mbind outcome_bind exec]. by rewrite take_ge, drop_ge by lia. }
    rewrite (runner_exec_app _ _ _ _ E).
    rewrite (runner_exec_app _ _ _ _ (exec_run ts [] 0 0 r po 0 ltac:(by rewrite Hp, Forall_app in Hf; apply Hf))). done.
Qed.

Definition sample_task (i : Z) : Task := MkTask i true false false i false false false.

(** Three posts, the second and the third while the runner has the first. *)
Definition sample_acts : list action :=
  [Post (sample_task 1); Notify; Wake; Post (sample_task 2); Notify; Post (sample_task 3); Lock; RunOne; Again; Notify].

Definition sample_runner : runner :=
  MkRunner [sample_task 2; sample_task 1] 2 0 Waiting [sample_task 3] [sample_task 1; sample_task 2; sample_task 3] 0.

Lemma runner_exec_reachable acts s s' : reachable s → exec acts s = Some (Ret s') → reachable s'.
Proof.
  revert s. induction acts as [|a acts IH]; intros s Hs H; cbn in H; [by simplify_eq|].
  destruct (step a s) as [[s1| |]|] eqn:E; try done. apply (IH s1); [by eapply reachable_step|done].
Qed.

Lemma sample_reachable : reachable sample_runner.
Proof. apply (runner_exec_reachable sample_acts runner_start); [constructor|reflexivity]. Qed.

Lemma task_runner_safe_witness :
  (∀ a o, step a sample_runner = Some o → ∃ s', o = Ret s') ∧
  posted sample_runner ≡ₚ ran sample_runner ++ batch (at_ sample_runner) ++ tasks_ sample_runner ∧
  (∀ t, fn t = false → step (Post t) sample_runner = Some (Ret sample_runner)).
Proof. apply (task_runner_safe sample_runner). apply sample_reachable. Defined.

Lemma task_runner_drains_witness :
  ∃ acts s', Forall (λ a, a ∈ [Wake; Lock; RunOne; Again]) acts ∧ exec acts sample_runner = Some (Ret s') ∧
    at_ s' = Waiting ∧ tasks_ s' = [] ∧ ran s' = [sample_task 3] ++ [sample_task 2; sample_task 1] ∧ ran s' ≡ₚ posted s'.
Proof. apply (task_runner_drains sample_runner); [apply sample_reachable|reflexivity..]. Defined.
