(* ===== verification/TimerRunner.v ===== *)
(** * socket/monitor/runner.h and runner.cpp: [tTask] and [tRunner]

    Tasks to be run at a time, once or again and again.  The steps here are
    whole calls: a [post], a [cancel], and the two halves of a round of [Run]
    between which the collected tasks run and any number of posts and
    cancellations happen.  [TimerSteps] cuts them at the locks and says what
    holds of the threads then; this coarser model is what the listener's, which
    has one thread that posts at a time, is built on.  Times are nanoseconds of the
    clock, so that the fraction of a millisecond a [double] has is kept;
    durations are milliseconds. *)
From Stdlib Require Import ZArith Lia.
From stdpp Require Import base tactics numbers list gmap sets sorting.
From S2P Require Import Prelude.
From S2P Require Import TaskRunner.

Open Scope Z_scope.

Definition TIMERTASK_ONCE : Z := 0.
Definition TIMERTASK_REPEATED : Z := 1.
Definition kTypeMask : Z := 0xff.
Definition kLeastDuration : Z := 10.

(** Milliseconds as nanoseconds. *)
Definition ms (d : Z) : Z := d * 1000000.

Record tTask := MkTimed {
  tid : Z;
  runat : Z;
  duration : Z;
  kind : Z;
  tfn : bool;
  closure : bool;
  dispose : bool;
}.

#[export] Instance tTask_eq_dec : EqDecision tTask.
Proof. solve_decision. Defined.

(** The constructor, at the time [now]. *)
Definition tTask_new (now duration kind : Z) (tfn closure dispose : bool) : tTask :=
  MkTimed (-1) (now + ms duration) duration kind tfn closure dispose.

Definition Nil : tTask := tTask_new 0 0 0 false false false.

Definition with_id (i : Z) (t : tTask) : tTask := MkTimed i (runat t) (duration t) (kind t) (tfn t) (closure t) (dispose t).
Definition with_runat (r : Z) (t : tTask) : tTask := MkTimed (tid t) r (duration t) (kind t) (tfn t) (closure t) (dispose t).

(** [std::priority_queue] with [tTask::Greater]: the earliest task is the top. *)
Fixpoint push (t : tTask) (heap : list tTask) : list tTask :=
  match heap with
  | [] => [t]
  | u :: heap => if decide (runat t < runat u) then t :: u :: heap else u :: push t heap
  end.

Inductive State := IDLE | WORK.

Record tRunner := MkTRunner {
  timer_ : Z;                      (** milliseconds it was last armed with; 0 is off *)
  heap : list tTask;
  id_ : Z;
  marks_ : gset Z;
  tstate : State;
  events : Z;                      (** the notifier's counter *)
  running : option (list tTask);   (** what a round of [Run] has collected *)
  trun : list tTask;               (** collected to be run so far *)
  disposed : list tTask;           (** disposed of so far *)
}.

Definition tRunner_new : tRunner := MkTRunner 0 [] 0 ∅ IDLE 0 None [] [].

Definition post (task : tTask) (s : tRunner) : Z * tRunner :=
  let '(MkTRunner tm h i mk st ev ru tr di) := s in
  if tfn task || closure task then
    let i := s32 (i + 1) in
    let task := with_id i task in
    let mk := {[i]} ∪ mk in
    let h := push task h in
    if decide (duration task < kLeastDuration) then
      (i, MkTRunner tm h i mk st (ev + kNotifyOne) ru tr di)
    else
      match st with
      | IDLE => (i, MkTRunner (duration task) h i mk WORK ev ru tr di)
      | WORK =>
          match h with
          | top :: _ =>
              if decide (runat top = runat task) then (i, MkTRunner (duration task) h i mk WORK ev ru tr di)
              else (i, MkTRunner tm h i mk WORK ev ru tr di)
          | [] => (i, MkTRunner tm h i mk WORK ev ru tr di)
          end
      end
  else (-1, MkTRunner tm h i mk st (ev + kNotifyOne) ru tr di).

Definition cancel (id : Z) (s : tRunner) : tRunner :=
  let '(MkTRunner tm h i mk st ev ru tr di) := s in
  if decide (id > 0 ∧ id < i) then MkTRunner tm h i (mk ∖ {[id]}) st ev ru tr di else s.

(** The loop that empties the heap of the tasks that are due: the tasks to
    run, the tasks to dispose of, the heap. *)
Fixpoint collect_loop (now : Z) (mk : gset Z) (h : list tTask) : list tTask * list tTask * list tTask :=
  match h with
  | [] => ([], [], [])
  | top :: h' =>
      if decide (runat top < now + ms kLeastDuration) then
        let '(ts, ds, h'') := collect_loop now mk h' in
        if decide (tid top ∈ mk) then (top :: ts, ds, h'')
        else (ts, (if dispose top then [top] else []) ++ ds, h'')
      else ([], [], h)
  end.

(** From the return of [poll] to the first unlock; the task bodies follow. *)
Definition collect (now : Z) (s : tRunner) : option tRunner :=
  let '(MkTRunner tm h i mk st ev ru tr di) := s in
  match ru, retrieve ev with
  | None, Some (e, ev) =>
      if decide (e >= kNotifyQuit) then None
      else
        let '(ts, ds, h) := collect_loop now mk h in
        Some (MkTRunner tm h i mk st ev (Some ts) (tr ++ ts) (di ++ ds))
  | _, _ => None
  end.

(** The loop over the tasks that were run. *)
Fixpoint finish_loop (now : Z) (ts : list tTask) (h : list tTask) (mk : gset Z) (di : list tTask) :
    list tTask * gset Z * list tTask :=
  match ts with
  | [] => (h, mk, di)
  | t :: ts =>
      if decide (Z.land (kind t) kTypeMask = TIMERTASK_REPEATED) then
        finish_loop now ts (push (with_runat (now + ms (duration t)) t) h) mk di
      else finish_loop now ts h (mk ∖ {[tid t]}) (di ++ (if dispose t then [t] else []))
  end.

(** From the second reading of the clock to the end of the round; [unsigned] of
    a value it cannot hold is undefined. *)
Definition finish (now : Z) (s : tRunner) : option (outcome tRunner) :=
  let '(MkTRunner tm h i mk st ev ru tr di) := s in
  match ru with
  | None => None
  | Some ts =>
      let '(h, mk, di) := finish_loop now ts h mk di in
      match h with
      | [] => Some (Ret (MkTRunner 0 h i mk IDLE ev None tr di))
      | top :: _ =>
          if decide (runat top < now + ms kLeastDuration) then
            Some (Ret (post Nil (MkTRunner tm h i mk st ev None tr di)).2)
          else if decide ((runat top - now) / 1000000 ≤ 4294967295) then
            Some (Ret (MkTRunner ((runat top - now) / 1000000) h i mk st ev None tr di))
          else Some Undef
      end
  end.

(** ** Interleavings *)
Inductive taction :=
| TPost (t : tTask)
| TCancel (id : Z)
| TExpire             (** the timer fires and its observer notifies *)
| TCollect (now : Z)
| TFinish (now : Z).

(** The first 2^31 - 1 posts are followed; then the ids would wrap around. *)
Definition tstep (a : taction) (s : tRunner) : option (outcome tRunner) :=
  match a with
  | TPost t => if decide (id_ s < 2147483647) then Some (Ret (post t s).2) else None
  | TCancel id => Some (Ret (cancel id s))
  | TExpire => Some (Ret (post Nil s).2)
  | TCollect now => Ret <$> collect now s
  | TFinish now => finish now s
  end.

Inductive steps : tRunner → tRunner → Prop :=
| steps_refl s : steps s s
| steps_more s a s1 s2 : steps s s1 → tstep a s1 = Some (Ret s2) → steps s s2.

(** ** The heap *)
Definition earlier (t u : tTask) : Prop := runat t ≤ runat u.

Lemma push_perm t h : push t h ≡ₚ t :: h.
Proof.
  induction h as [|u h IH]; cbn [push]; [done|]. case_decide; [done|]. rewrite IH. apply Permutation_swap.
Qed.

Lemma push_sorted t h : StronglySorted earlier h → StronglySorted earlier (push t h).
Proof.
  induction 1 as [|u h Hh IH Hu]; cbn [push]; [repeat constructor|]. case_decide as Hd.
  - constructor; [by constructor|]. unfold earlier in *. constructor; [lia|]. eapply Forall_impl; [exact Hu|]. cbn. lia.
  - constructor; [done|]. rewrite push_perm. constructor; [unfold earlier; lia|done].
Qed.

Definition due (now : Z) (t : tTask) : Prop := runat t < now + ms kLeastDuration.
#[export] Instance due_dec now t : Decision (due now t).
Proof. unfold due. apply _. Defined.

Definition alive (mk : gset Z) (t : tTask) : Prop := tid t ∈ mk.
#[export] Instance alive_dec mk t : Decision (alive mk t).
Proof. unfold alive. apply _. Defined.

(** The loop stops at the first task that is not due; by then no other is. *)
Lemma collect_loop_spec now mk h :
  StronglySorted earlier h →
  collect_loop now mk h =
    (filter (λ t, due now t ∧ alive mk t) h,
     filter (λ t, due now t ∧ ¬ alive mk t ∧ dispose t = true) h,
     filter (λ t, ¬ due now t) h).
Proof.
  induction 1 as [|t h Hh IH Ht]; cbn [collect_loop]; [done|]. rewrite IH. unfold due at 1.
  destruct (decide (runat t < now + ms kLeastDuration)) as [Hd|Hd].
  - rewrite !filter_cons. rewrite (decide_False (P := ¬ due now t)) by tauto.
    destruct (decide (tid t ∈ mk)) as [Ha|Ha].
    + rewrite (decide_True (P := due now t ∧ alive mk t)) by done. rewrite (decide_False (P := _ ∧ _ ∧ _)); [done|]. unfold alive. tauto.
    + rewrite (decide_False (P := due now t ∧ alive mk t)) by (unfold alive; tauto).
      destruct (dispose t) eqn:E; [rewrite (decide_True (P := _ ∧ _ ∧ _))|rewrite (decide_False (P := _ ∧ _ ∧ _))]; try done. naive_solver.
  - assert (Forall (λ u, ¬ due now u) (t :: h)) as Hn.
    { constructor; [done|]. eapply Forall_impl; [exact Ht|]. unfold earlier, due. cbn. lia. }
    assert (∀ (P : tTask → Prop) `{∀ x, Decision (P x)}, (∀ u, P u → due now u) → filter P (t :: h) = []) as Hf.
    { intros P HP Hi. clear -Hn Hi. induction Hn as [|u l Hu Hl IH]; [done|]. rewrite filter_cons_False; [done|]. intros ?%Hi. done. }
    rewrite !Hf by tauto. f_equal. symmetry. clear -Hn. induction Hn as [|u l Hu Hl IH]; [done|].
    rewrite filter_cons_True by done. by rewrite IH.
Qed.

Definition repeated (t : tTask) : Prop := Z.land (kind t) kTypeMask = TIMERTASK_REPEATED.
#[export] Instance repeated_dec t : Decision (repeated t).
Proof. unfold repeated. apply _. Defined.

Definition again (now : Z) (t : tTask) : tTask := with_runat (now + ms (duration t)) t.

(** Repeated tasks go back with a new time; the others leave the marks. *)
Lemma finish_loop_spec now ts h mk di :
  StronglySorted earlier h →
  let '(h', mk', di') := finish_loop now ts h mk di in
  h' ≡ₚ map (again now) (filter repeated ts) ++ h ∧ StronglySorted earlier h' ∧
  mk' = mk ∖ list_to_set (map tid (filter (λ t, ¬ repeated t) ts)).
Proof.
  revert h mk di. induction ts as [|t ts IH]; intros h mk di Hh; cbn [finish_loop].
  - split_and!; [done|done|]. set_solver.
  - rewrite !filter_cons. change (Z.land (kind t) kTypeMask = TIMERTASK_REPEATED) with (repeated t).
    destruct (decide (repeated t)) as [Hr|Hr].
    + rewrite (decide_False (P := ¬ repeated t)) by tauto.
      specialize (IH (push (with_runat (now + ms (duration t)) t) h) mk di (push_sorted _ _ Hh)).
      destruct (finish_loop _ _ _ _ _) as [[h' mk'] di']. destruct IH as (Hp & Hs & ->). split_and!; [|done|done].
      rewrite Hp, push_perm. cbn [map]. unfold again at 2. solve_Permutation.
    + rewrite (decide_True (P := ¬ repeated t)) by tauto.
      specialize (IH h (mk ∖ {[tid t]}) (di ++ (if dispose t then [t] else [])) Hh).
      destruct (finish_loop _ _ _ _ _) as [[h' mk'] di']. destruct IH as (Hp & Hs & ->). split_and!; [done|done|].
      cbn [map list_to_set]. set_solver.
Qed.

(** ** The invariant *)
Definition held (s : tRunner) : list tTask := heap s ++ default [] (running s).

Definition tinv (s : tRunner) : Prop :=
  StronglySorted earlier (heap s) ∧ NoDup (map tid (held s)) ∧
  (∀ t, t ∈ held s → 0 < tid t ≤ id_ s) ∧
  (∀ i, i ∈ marks_ s → i ∈ map tid (held s)) ∧
  0 ≤ id_ s ≤ 2147483647 ∧ 0 ≤ events s ∧
  (running s = None → heap s ≠ [] → timer_ s > 0 ∨ events s > 0).

Lemma tinv_new : tinv tRunner_new.
Proof. split_and!; cbn; first [done|lia|by constructor|set_solver]. Qed.

(** The invariant but for the wake-up depends only on what is held, up to
    order. *)
Lemma held_push t h ru : map tid (push t h ++ ru) ≡ₚ tid t :: map tid (h ++ ru).
Proof. rewrite push_perm. done. Qed.

Lemma post_inv t s : tinv s → id_ s < 2147483647 → tinv (post t s).2.
Proof.
  destruct s as [tm h i mk st ev ru tr di]. intros (Hs & Hn & Hb & Hm & Hi & He & Hw) Hlt. unfold held in *.
  cbn [timer_ heap id_ marks_ tstate events running] in *. unfold post. destruct (tfn t || closure t).
  2: { split_and!; cbn; unfold kNotifyOne; try done; lia. }
  rewrite s32_small by lia.
  set (t' := with_id (i + 1) t).
  assert (∀ tm' st' ev', 0 ≤ ev' → (ru = None → tm' > 0 ∨ ev' > 0) →
    tinv (MkTRunner tm' (push t' h) (i + 1) ({[i + 1]} ∪ mk) st' ev' ru tr di)) as Hgoal.
  { intros tm' st' ev' He' Hw'. split_and!; unfold held; cbn [timer_ heap id_ marks_ tstate events running]; [|..|lia|lia|done|auto].
    - by apply push_sorted.
    - rewrite held_push. apply NoDup_cons_2; [|done]. cbn [t' with_id tid]. intros (u & Hu & Hin)%list_elem_of_fmap.
      apply Hb in Hin. lia.
    - intros u. rewrite push_perm. cbn [app]. rewrite elem_of_cons. intros [-> |Hu]; [cbn; lia|]. apply Hb in Hu. lia.
    - intros j. rewrite held_push. rewrite elem_of_union, elem_of_singleton. intros [-> |Hj]; [left|right; by apply Hm]. }
  assert (∀ x, x ∈ push t' h → ru = None → runat (hd t' (push t' h)) ≠ runat t' → tm > 0 ∨ ev > 0) as Hold.
  { intros x _ Hru Hne. apply Hw; [done|]. intros ->. by cbn in Hne. }
  case_decide as Hd; [apply Hgoal; [unfold kNotifyOne; lia|intros _; right; unfold kNotifyOne; lia]|].
  unfold kLeastDuration in Hd. destruct st; [apply Hgoal; [done|intros _; left; lia]|].
  destruct (push t' h) as [|top h'] eqn:Eh; [exfalso; destruct h; cbn [push] in Eh; [done|by case_decide]|].
  destruct (decide (runat top = runat t')); (apply Hgoal; [done|]); [intros _; left; lia|].
  intros Hru. apply (Hold top); [left|done|done].
Qed.

Lemma cancel_inv id s : tinv s → tinv (cancel id s).
Proof.
  destruct s as [tm h i mk st ev ru tr di]. intros Hinv. unfold cancel. case_decide; [|done].
  destruct Hinv as (Hs & Hn & Hb & Hm & Hrest). split_and!; [done|done|done| |apply Hrest..].
  intros j Hj. apply Hm. cbn in *. set_solver.
Qed.

Lemma nil_post_inv s : tinv s → tinv (post Nil s).2 ∧ events (post Nil s).2 > 0.
Proof.
  destruct s as [tm h i mk st ev ru tr di]. intros (Hs & Hn & Hb & Hm & Hi & He & Hw). cbn in *. unfold kNotifyOne.
  split; [|lia]. split_and!; cbn in *; try done; lia.
Qed.

(** A selection of the tasks of the heap keeps the ids apart. *)
Lemma NoDup_filter_ids (P Q : tTask → Prop) `{∀ x, Decision (P x), ∀ x, Decision (Q x)} h :
  (∀ t, P t → Q t → False) → NoDup (map tid h) → NoDup (map tid (filter P h ++ filter Q h)).
Proof.
  intros HPQ. rewrite map_app. induction h as [|t h IH]; intros Hn; [constructor|].
  cbn [map] in Hn. apply NoDup_cons in Hn as [Ht Hn]. rewrite !filter_cons.
  assert (∀ (R : tTask → Prop) `{∀ x, Decision (R x)}, tid t ∉ map tid (filter R h)) as Hnot.
  { intros R HR (u & Hu & [_ Hin]%list_elem_of_filter)%list_elem_of_fmap. apply Ht. rewrite Hu. by apply list_elem_of_fmap_2. }
  specialize (IH Hn). destruct (decide (P t)) as [HP|HP]; (destruct (decide (Q t)) as [HQ|HQ]; [try by destruct (HPQ t)|]); cbn [map app].
  - apply NoDup_cons. split; [|done]. rewrite elem_of_app. intros [?|?]; by eapply Hnot.
  - rewrite <- Permutation_middle. apply NoDup_cons. split; [|done]. rewrite elem_of_app. intros [?|?]; by eapply Hnot.
  - done.
Qed.

Lemma collect_inv now s s' : tinv s → collect now s = Some s' → tinv s'.
Proof.
  destruct s as [tm h i mk st ev ru tr di]. intros (Hs & Hn & Hb & Hm & Hi & He & Hw) Hc. unfold held, collect in *.
  cbn [timer_ heap id_ marks_ tstate events running] in *. destruct ru as [|]; [done|]. cbn [default Datatypes.id] in *. rewrite app_nil_r in *.
  unfold retrieve in Hc. case_decide; [done|]. case_decide; [done|]. rewrite collect_loop_spec in Hc by done. simplify_eq.
  split_and!; unfold held; cbn [timer_ heap id_ marks_ tstate events running default Datatypes.id]; try done; try lia.
  - clear -Hs. induction Hs as [|t h Hh IH Ht]; [constructor|]. rewrite filter_cons. case_decide; [|done].
    constructor; [done|]. rewrite Forall_forall in *. intros u [_ Hu]%list_elem_of_filter. by apply Ht.
  - apply NoDup_filter_ids; [tauto|done].
  - intros t. rewrite elem_of_app, !list_elem_of_filter. intros [[_ Ht]|[_ Ht]]; by apply Hb.
  - intros j Hj. pose proof (Hm j Hj) as (t & -> & Ht)%list_elem_of_fmap. apply list_elem_of_fmap_2.
    rewrite elem_of_app, !list_elem_of_filter. destruct (decide (due now t)); [right|left]; done.
Qed.

Lemma tid_again now ts : map tid (map (again now) ts) = map tid ts.
Proof. rewrite map_map. done. Qed.

(** The three parts of a list that was run: nothing is lost. *)
Lemma finish_inv now s s' : tinv s → finish now s = Some (Ret s') → tinv s'.
Proof.
  destruct s as [tm h i mk st ev ru tr di]. intros (Hs & Hn & Hb & Hm & Hi & He & Hw) Hc. unfold held, finish in *.
  cbn [timer_ heap id_ marks_ tstate events running] in *. destruct ru as [ts|]; [|done]. cbn [default Datatypes.id] in *.
  pose proof (finish_loop_spec now ts h mk di Hs) as Hf. destruct (finish_loop now ts h mk di) as [[h' mk'] di'].
  destruct Hf as (Hp & Hs' & ->).
  assert (map tid h' ≡ₚ map tid (filter repeated ts) ++ map tid h) as Hids by (rewrite Hp, map_app, tid_again; done).
  assert (∀ tm' st' ev', 0 ≤ ev' → (h' ≠ [] → tm' > 0 ∨ ev' > 0) →
    tinv (MkTRunner tm' h' i (mk ∖ list_to_set (map tid (filter (λ t, ¬ repeated t) ts))) st' ev' None tr di')) as Hgoal.
  { intros tm' st' ev' He' Hw'. split_and!; unfold held; cbn [timer_ heap id_ marks_ tstate events running default Datatypes.id];
      rewrite ?app_nil_r; [done| | | |lia|lia|done|done].
    - rewrite Hids. rewrite (Permutation_app_comm (map tid _)). rewrite <- map_app.
      rewrite map_app in Hn. apply NoDup_app in Hn as (Hn1 & Hn2 & Hn3). rewrite map_app. apply NoDup_app. split_and!; [done| |].
      + intros x Hx (u & -> & [_ Hu]%list_elem_of_filter)%list_elem_of_fmap. apply (Hn2 (tid u) Hx). by apply list_elem_of_fmap_2.
      + pose proof (NoDup_filter_ids repeated (λ _, False) ts ltac:(tauto) Hn3) as Hnd. rewrite map_app in Hnd.
        by apply NoDup_app in Hnd as (? & _).
    - intros t Ht. assert (tid t ∈ map tid h') as Hin by (by apply list_elem_of_fmap_2).
      rewrite Hids, elem_of_app in Hin. destruct Hin as [(u & -> & [_ Hu]%list_elem_of_filter)%list_elem_of_fmap|(u & -> & Hu)%list_elem_of_fmap];
        apply Hb; rewrite elem_of_app; auto.
    - intros j [Hj Hnot]%elem_of_difference. rewrite Hids, elem_of_app. pose proof (Hm j Hj) as (t & -> & Ht)%list_elem_of_fmap.
      rewrite elem_of_app in Ht. destruct Ht as [Ht|Ht]; [right; by apply list_elem_of_fmap_2|left].
      apply list_elem_of_fmap_2, list_elem_of_filter. split; [|done]. apply dec_stable. intros Hr. apply Hnot.
      rewrite elem_of_list_to_set. apply list_elem_of_fmap_2, list_elem_of_filter. done. }
  destruct h' as [|top h']; [simplify_eq; by apply Hgoal|].
  case_decide as Hd1; [|case_decide as Hd2]; simplify_eq; (apply Hgoal; [unfold kNotifyOne; lia|]); intros _.
  - right. unfold kNotifyOne. lia.
  - left. unfold ms, kLeastDuration in Hd1. apply Z.lt_gt, Z.div_str_pos. lia.
Qed.

Lemma tstep_inv a s s' : tinv s → tstep a s = Some (Ret s') → tinv s'.
Proof.
  intros Hi. destruct a as [t|id| |now|now]; cbn [tstep].
  - case_decide; [|done]. intros [= <-]. by apply post_inv.
  - intros [= <-]. by apply cancel_inv.
  - intros [= <-]. by apply nil_post_inv.
  - destruct (collect now s) as [s1|] eqn:E; [|done]. cbn. intros [= <-]. by eapply collect_inv.
  - by apply finish_inv.
Qed.

Lemma timer_steps_inv s s' : tinv s → steps s s' → tinv s'.
Proof. intros Hi Hs. induction Hs as [s|s a s1 s2 Hs IH Hst]; [done|]. by eapply tstep_inv; [apply IH|]. Qed.

Lemma steps_trans s1 s2 s3 : steps s1 s2 → steps s2 s3 → steps s1 s3.
Proof. intros H12 H23. induction H23 as [s|s a s' s'' H IH Hst]; [done|]. by eapply steps_more; [apply IH|]. Qed.

(** What one step does to the ids handed out, the marks and the tasks run. *)
Lemma tstep_run a s s' :
  tinv s → tstep a s = Some (Ret s') →
  id_ s ≤ id_ s' ∧ (∀ i, i ∈ marks_ s' → i ∈ marks_ s ∨ id_ s < i) ∧
  ∃ l, trun s' = trun s ++ l ∧ ∀ i, i ∈ map tid l → i ∈ marks_ s.
Proof.
  intros Hinv. destruct s as [tm h i mk st ev ru tr di]. destruct a as [t|id| |now|now]; cbn [tstep].
  - case_decide as Hi; [|done]. cbn [id_] in Hi. intros [= <-]. assert (0 ≤ i) by apply Hinv. cbn [id_ marks_ trun].
    assert (∀ tm' h' st' ev', let s' := MkTRunner tm' h' (i + 1) ({[i + 1]} ∪ mk) st' ev' ru tr di in
      i ≤ id_ s' ∧ (∀ j, j ∈ marks_ s' → j ∈ mk ∨ i < j) ∧ ∃ l, trun s' = tr ++ l ∧ ∀ j, j ∈ map tid l → j ∈ mk) as Hg.
    { intros. cbn. split_and!; [lia| |exists []; split; [by rewrite app_nil_r|set_solver]].
      intros j. rewrite elem_of_union, elem_of_singleton. intros [-> |Hj]; [right; lia|by left]. }
    unfold post. rewrite s32_small by lia. destruct (tfn t || closure t).
    + destruct (decide (duration _ < _)); [apply Hg|]. destruct st; [apply Hg|]. destruct (push _ _); [apply Hg|].
      destruct (decide (_ = _)); apply Hg.
    + cbn. split_and!; [lia|auto|exists []; split; [by rewrite app_nil_r|set_solver]].
  - intros [= <-]. unfold cancel. case_decide; cbn; (split_and!; [lia|set_solver|exists []; split; [by rewrite app_nil_r|set_solver]]).
  - intros [= <-]. cbn. split_and!; [lia|auto|exists []; split; [by rewrite app_nil_r|set_solver]].
  - unfold collect. destruct ru; [done|]. destruct (retrieve ev) as [[e ev']|]; [|done]. case_decide; [done|].
    rewrite collect_loop_spec by apply Hinv. cbn. intros [= <-]. cbn. split_and!; [lia|auto|]. eexists. split; [done|].
    intros j (t & -> & [[_ Ht] _]%list_elem_of_filter)%list_elem_of_fmap. done.
  - unfold finish. destruct ru as [ts|]; [|done]. pose proof (finish_loop_spec now ts h mk di ltac:(apply Hinv)) as Hf.
    destruct (finish_loop now ts h mk di) as [[h' mk'] di']. destruct Hf as (_ & _ & ->). cbn [id_ marks_ trun].
    destruct h' as [|top h']; [|case_decide; [|case_decide]]; intros [= <-]; cbn [post Nil tTask_new tfn closure orb snd id_ marks_ trun];
      (split_and!; [lia|set_solver|exists []; split; [by rewrite app_nil_r|set_solver]]).
Qed.

(** ** Properties *)

(** With every call taken whole, a round of the timer thread runs the tasks that
    are due and not cancelled, in the order of their times, and leaves exactly
    those that are not due; no two tasks share an id. *)
Theorem collect_due s s' now :
  steps tRunner_new s → collect now s = Some s' →
  running s' = Some (filter (λ t, due now t ∧ alive (marks_ s) t) (heap s)) ∧
  heap s' = filter (λ t, ¬ due now t) (heap s) ∧
  StronglySorted earlier (heap s) ∧ NoDup (map tid (held s')).
Proof.
  intros Hs Hc. pose proof (timer_steps_inv _ _ tinv_new Hs) as Hi. pose proof (collect_inv _ _ _ Hi Hc) as (_ & Hn & _).
  pose proof Hi as (Hso & _). destruct s as [tm h i mk st ev ru tr di]. unfold collect in Hc. destruct ru; [done|].
  destruct (retrieve ev) as [[e ev']|]; [|done]. case_decide; [done|]. rewrite collect_loop_spec in Hc by done.
  by simplify_eq.
Qed.

(** With calls taken whole, an id that is no longer marked (cancelled, or finished) is never run
    again, whatever is posted, cancelled or run afterwards. *)
Theorem cancelled_never_runs s s' i :
  steps tRunner_new s → i ≤ id_ s → i ∉ marks_ s → steps s s' →
  ∃ l, trun s' = trun s ++ l ∧ i ∉ map tid l.
Proof.
  intros Hs Hi Hm Hss. assert (i ≤ id_ s' ∧ (i ∉ marks_ s') ∧ ∃ l, trun s' = trun s ++ l ∧ i ∉ map tid l) as (_ & _ & ?); [|done].
  induction Hss as [s|s a s1 s2 Hss IH Hst]; [split_and!; [done|done|exists []; split; [by rewrite app_nil_r|set_solver]]|].
  destruct (IH Hs Hi Hm) as (Hi1 & Hm1 & l & Hl & Hn).
  destruct (tstep_run a s1 s2 (timer_steps_inv _ _ tinv_new (steps_trans _ _ _ Hs Hss)) Hst) as (Hid & Hmk & l' & Hl' & Hn').
  split_and!; [lia|intros Hin; apply Hmk in Hin as [?|?]; [done|lia]|].
  exists (l ++ l'). rewrite Hl', Hl, app_assoc. split; [done|]. rewrite map_app, not_elem_of_app. split; [done|].
  intros Hin. apply Hm1, Hn'. done.
Qed.

(** [cancel] takes the mark of every older id, but the id of the last task
    posted is refused by the guard, and that task stays marked. *)
Theorem cancel_all_but_last s t i :
  steps tRunner_new s → id_ s < 2147483647 → (tfn t = true ∨ closure t = true) →
  let '(last, s') := post t s in
  cancel last s' = s' ∧ last ∈ marks_ s' ∧
  (0 < i < last → (i ∉ marks_ (cancel i s')) ∧ marks_ (cancel i s') = marks_ s' ∖ {[i]}).
Proof.
  intros Hs Hid Ht. pose proof (timer_steps_inv _ _ tinv_new Hs) as (_ & _ & _ & _ & Hi & _).
  destruct s as [tm h k mk st ev ru tr di]. cbn [id_] in *. unfold post. rewrite s32_small by lia.
  assert (∀ tm' h' st' ev', let s' := MkTRunner tm' h' (k + 1) ({[k + 1]} ∪ mk) st' ev' ru tr di in
    cancel (k + 1) s' = s' ∧ k + 1 ∈ marks_ s' ∧ (0 < i < k + 1 → (i ∉ marks_ (cancel i s')) ∧ marks_ (cancel i s') = marks_ s' ∖ {[i]})) as Hg.
  { intros. cbn. rewrite decide_False by lia. split_and!; [done|set_solver|]. intros Hlt. rewrite decide_True by lia. cbn. set_solver. }
  assert (tfn t || closure t = true) as -> by (destruct Ht as [-> | ->]; [done|apply orb_true_r]).
  destruct (decide (duration _ < _)); [apply Hg|]. destruct st; [apply Hg|]. destruct (push _ _); [apply Hg|].
  destruct (decide (_ = _)); apply Hg.
Qed.

(** No wake-up is lost between whole calls: whenever the timer thread waits with tasks in its
    heap, the timer is armed or a notification is pending. *)
Theorem no_lost_wakeup s :
  steps tRunner_new s → running s = None → heap s ≠ [] → timer_ s > 0 ∨ events s > 0.
Proof. intros Hs. by apply (timer_steps_inv _ _ tinv_new Hs). Qed.

(** A run of actions, each of them possible. *)
Fixpoint texec (acts : list taction) (s : tRunner) : option tRunner :=
  match acts with
  | [] => Some s
  | a :: acts => match tstep a s with Some (Ret s') => texec acts s' | _ => None end
  end.

Lemma texec_steps acts s0 s s' : steps s0 s → texec acts s = Some s' → steps s0 s'.
Proof.
  revert s. induction acts as [|a acts IH]; intros s Hs H; cbn in H; [by simplify_eq|].
  destruct (tstep a s) as [[s1| |]|] eqn:E; try done. apply (IH s1); [by eapply steps_more|done].
Qed.

(** Three tasks, the second cancelled, the first one repeated and run once. *)
Definition sample_tacts : list taction :=
  [TPost (tTask_new 0 100 TIMERTASK_REPEATED true false false); TPost (tTask_new 0 50 TIMERTASK_ONCE true false true);
   TPost (tTask_new 0 500 TIMERTASK_ONCE false true true); TCancel 2; TExpire; TCollect (ms 95); TFinish (ms 96); TExpire].

Definition sample_timer : tRunner := default tRunner_new (texec sample_tacts tRunner_new).

Lemma sample_steps : steps tRunner_new sample_timer.
Proof. apply (texec_steps sample_tacts _ tRunner_new); [constructor|vm_compute; reflexivity]. Qed.

Lemma collect_due_witness :
  ∃ s', collect (ms 190) sample_timer = Some s' ∧
    running s' = Some (filter (λ t, due (ms 190) t ∧ alive (marks_ sample_timer) t) (heap sample_timer)) ∧
    heap s' = filter (λ t, ¬ due (ms 190) t) (heap sample_timer) ∧
    StronglySorted earlier (heap sample_timer) ∧ NoDup (map tid (held s')).
Proof.
  destruct (collect (ms 190) sample_timer) as [s'|] eqn:E; [|vm_compute in E; discriminate].
  exists s'. split; [reflexivity|]. apply (collect_due sample_timer s' (ms 190) sample_steps E).
Defined.

Lemma cancelled_never_runs_witness :
  ∃ l, trun sample_timer = trun sample_timer ++ l ∧ 2 ∉ map tid l.
Proof.
  apply (cancelled_never_runs sample_timer sample_timer 2 sample_steps); [vm_compute; discriminate|by_eval|constructor].
Defined.

Lemma cancel_all_but_last_witness :
  let '(last, s') := post (tTask_new 0 20 0 true false false) sample_timer in
  cancel last s' = s' ∧ last ∈ marks_ s' ∧
  (0 < 3 < last → (3 ∉ marks_ (cancel 3 s')) ∧ marks_ (cancel 3 s') = marks_ s' ∖ {[3]}).
Proof. apply (cancel_all_but_last sample_timer _ 3 sample_steps); [vm_compute; reflexivity|by left]. Defined.

Lemma no_lost_wakeup_witness : timer_ sample_timer > 0 ∨ events sample_timer > 0.
Proof. apply (no_lost_wakeup sample_timer sample_steps); [reflexivity|vm_compute; discriminate]. Defined.
