(* ===== verification/TimerSteps.v ===== *)
(** * socket/monitor/runner.cpp: [tRunner] between its locks

    [TimerRunner] takes a [post] and each half of a round of [Run] as one step.
    Here they are cut where the program can be interrupted: at the atomic
    increment of the id, at every lock of [mtx_] and [mark_mtx_], at every read and
    write of the state and every system call.  Any number of threads are in [post]
    at once; the timer's thread is one.  [mtx_] is held over several steps by that
    thread only, and the steps that need it wait.  [top()] of an empty heap is
    undefined.  The tasks, their times and the heap are those of [TimerRunner]. *)
From Stdlib Require Import ZArith Lia.
From stdpp Require Import base tactics numbers list gmap sets sorting.
From S2P Require Import Prelude.
From S2P Require Import TaskRunner.
From S2P Require Import TimerRunner.

Open Scope Z_scope.

(** Where a thread is in [post], of a task that has its id. *)
Inductive pplace :=
| Marking | Pushing
| Testing                     (** pushed; before the tests of the duration and the state *)
| Notifying
| Arming | Working            (** the first task: before [timer_.reset], before [setstate] *)
| Looking | Resetting.        (** before [top()], before [timer_.reset] *)

(** Where the timer's thread is in [Run]. *)
Inductive rplace :=
| Waiting
| Locking
| Collecting (now : Z) (ts : list tTask)        (** holds [mtx_] *)
| Running (todo ts : list tTask)
| Relocking (now : Z) (ts : list tTask)
| Finishing (now : Z) (ts : list tTask)         (** holds [mtx_] *)
| Silencing | Resting                           (** the heap is empty; holds [mtx_] *)
| Waking (top : tTask) (now : Z)
| Stopped.

(** [pushed], [gone] and [ran] are histories: the ids pushed by [post], those of
    the tasks dropped, because they were cancelled or done, and the tasks run. *)
Record Timed := MkTimedState {
  s_timer : Z;
  s_heap : list tTask;
  s_id : Z;
  s_marks : gset Z;
  s_state : State;
  s_events : Z;
  s_posts : list (tTask * pplace);
  s_place : rplace;
  pushed : list Z;
  gone : list Z;
  ran : list tTask;
}.

Definition Timed_new : Timed := MkTimedState 0 [] 0 ∅ IDLE 0 [] Waiting [] [] [].

Definition holds_mtx (p : rplace) : bool :=
  match p with Collecting _ _ | Finishing _ _ | Silencing | Resting => true | _ => false end.

(** ** [post] *)

(** Up to the increment; a task with nothing to run only notifies. *)
Definition enter (t : tTask) (s : Timed) : option Timed :=
  let '(MkTimedState tm h i mk st ev ps pl pu go ra) := s in
  if tfn t || closure t then
    if decide (i < 2147483647) then Some (MkTimedState tm h (i + 1) mk st ev ((with_id (i + 1) t, Marking) :: ps) pl pu go ra) else None
  else Some (MkTimedState tm h i mk st (ev + kNotifyOne) ps pl pu go ra).

(** The next step of the thread that is posting [t]; [ps] are the others. *)
Definition post_step (t : tTask) (p : pplace) (ps : list (tTask * pplace)) (s : Timed) : option (outcome Timed) :=
  let '(MkTimedState tm h i mk st ev _ pl pu go ra) := s in
  match p with
  | Marking => Some (Ret (MkTimedState tm h i ({[tid t]} ∪ mk) st ev ((t, Pushing) :: ps) pl pu go ra))
  | Pushing =>
      if holds_mtx pl then None
      else Some (Ret (MkTimedState tm (push t h) i mk st ev ((t, Testing) :: ps) pl (pu ++ [tid t]) go ra))
  | Testing =>
      let p := if decide (duration t < kLeastDuration) then Notifying else match st with IDLE => Arming | WORK => Looking end in
      Some (Ret (MkTimedState tm h i mk st ev ((t, p) :: ps) pl pu go ra))
  | Notifying => Some (Ret (MkTimedState tm h i mk st (ev + kNotifyOne) ps pl pu go ra))
  | Arming => Some (Ret (MkTimedState (duration t) h i mk st ev ((t, Working) :: ps) pl pu go ra))
  | Working => Some (Ret (MkTimedState tm h i mk WORK ev ps pl pu go ra))
  | Looking =>
      if holds_mtx pl then None
      else
        match h with
        | [] => Some Undef
        | top :: _ =>
            Some (Ret (MkTimedState tm h i mk st ev (if decide (runat top = runat t) then (t, Resetting) :: ps else ps) pl pu go ra))
        end
  | Resetting => Some (Ret (MkTimedState (duration t) h i mk st ev ps pl pu go ra))
  end.

(** [cancel] *)
Definition cancel_step (id : Z) (s : Timed) : Timed :=
  let '(MkTimedState tm h i mk st ev ps pl pu go ra) := s in
  if decide (id > 0 ∧ id < i) then MkTimedState tm h i (mk ∖ {[id]}) st ev ps pl pu go ra else s.

(** ** [Run] *)
Definition at_rplace (pl : rplace) (s : Timed) : Timed :=
  let '(MkTimedState tm h i mk st ev ps _ pu go ra) := s in MkTimedState tm h i mk st ev ps pl pu go ra.

(** One turn of the loop that takes the due tasks. *)
Definition take_step (now : Z) (ts : list tTask) (s : Timed) : Timed :=
  let '(MkTimedState tm h i mk st ev ps _ pu go ra) := s in
  match h with
  | [] => at_rplace (Running ts ts) s
  | top :: h =>
      if decide (runat top < now + ms kLeastDuration) then
        if decide (tid top ∈ mk) then MkTimedState tm h i mk st ev ps (Collecting now (ts ++ [top])) pu go ra
        else MkTimedState tm h i mk st ev ps (Collecting now ts) pu (go ++ [tid top]) ra
      else at_rplace (Running ts ts) s
  end.

(** One turn of the loop after the tasks have run. *)
Definition drop_step (now : Z) (t : tTask) (ts : list tTask) (s : Timed) : Timed :=
  let '(MkTimedState tm h i mk st ev ps _ pu go ra) := s in
  if decide (Z.land (kind t) kTypeMask = TIMERTASK_REPEATED) then
    MkTimedState tm (push (with_runat (now + ms (duration t)) t) h) i mk st ev ps (Finishing now ts) pu go ra
  else MkTimedState tm h i (mk ∖ {[tid t]}) st ev ps (Finishing now ts) pu (go ++ [tid t]) ra.

(** The next step of the timer's thread, at the time [clock]. *)
Definition thread_step (clock : Z) (s : Timed) : option (outcome Timed) :=
  let '(MkTimedState tm h i mk st ev ps pl pu go ra) := s in
  match pl with
  | Waiting =>
      '(e, ev) ← retrieve ev;
      Some (Ret (MkTimedState tm h i mk st ev ps (if decide (e >= kNotifyQuit) then Stopped else Locking) pu go ra))
  | Locking => Some (Ret (at_rplace (Collecting clock []) s))
  | Collecting now ts => Some (Ret (take_step now ts s))
  | Running (t :: todo) ts => Some (Ret (MkTimedState tm h i mk st ev ps (Running todo ts) pu go (ra ++ [t])))
  | Running [] ts => Some (Ret (at_rplace (Relocking clock ts) s))
  | Relocking now ts => Some (Ret (at_rplace (Finishing now ts) s))
  | Finishing now (t :: ts) => Some (Ret (drop_step now t ts s))
  | Finishing now [] => Some (Ret (at_rplace (match h with [] => Silencing | top :: _ => Waking top now end) s))
  | Silencing => Some (Ret (MkTimedState 0 h i mk st ev ps Resting pu go ra))
  | Resting => Some (Ret (MkTimedState tm h i mk IDLE ev ps Waiting pu go ra))
  | Waking top now =>
      if decide (runat top < now + ms kLeastDuration) then Some (Ret (MkTimedState tm h i mk st (ev + kNotifyOne) ps Waiting pu go ra))
      else if decide ((runat top - now) / 1000000 ≤ 4294967295) then
        Some (Ret (MkTimedState ((runat top - now) / 1000000) h i mk st ev ps Waiting pu go ra))
      else Some Undef
  | Stopped => None
  end.

(** ** Runs *)
Inductive paction :=
| PEnter (t : tTask)          (** a thread calls [post]; the timer's observer does, with [Nil] *)
| PStep (k : nat)             (** the [k]-th of the threads in [post] *)
| PCancel (id : Z)
| PStop                       (** [stop]'s notification *)
| PThread (clock : Z).

(** [None]: the step has to wait. *)
Definition pstep (a : paction) (s : Timed) : option (outcome Timed) :=
  match a with
  | PEnter t => Ret <$> enter t s
  | PStep k => '(t, p) ← s_posts s !! k; post_step t p (base.delete k (s_posts s)) s
  | PCancel id => Some (Ret (cancel_step id s))
  | PStop =>
      let '(MkTimedState tm h i mk st ev ps pl pu go ra) := s in Some (Ret (MkTimedState tm h i mk st (ev + kNotifyQuit) ps pl pu go ra))
  | PThread clock => thread_step clock s
  end.

Inductive psteps : Timed → Timed → Prop :=
| psteps_refl s : psteps s s
| psteps_more s a s1 s2 : psteps s s1 → pstep a s1 = Some (Ret s2) → psteps s s2.

(** ** What is kept *)

(** The tasks the timer's thread has taken from the heap. *)
Definition in_hand (p : rplace) : list tTask :=
  match p with Collecting _ ts | Running _ ts | Relocking _ ts | Finishing _ ts => ts | _ => [] end.

(** The tasks of threads that have not pushed them yet. *)
Definition unpushed (x : tTask * pplace) : bool := match x.2 with Marking | Pushing => true | _ => false end.
Definition early (ps : list (tTask * pplace)) : list Z := map (tid ∘ fst) (filter unpushed ps).

(** Threads that will wake the timer's thread for a task with this time. *)
Definition will_wake (r : Z) (x : tTask * pplace) : bool :=
  bool_decide (runat x.1 = r) && match x.2 with Testing | Notifying | Arming | Looking | Resetting => true | _ => false end.

Definition long_enough (x : tTask * pplace) : Prop :=
  match x.2 with Arming | Working | Looking | Resetting => kLeastDuration ≤ duration x.1 | _ => True end.

Record pinv (s : Timed) : Prop := {
  p_sorted : StronglySorted earlier (s_heap s);
  p_ids : NoDup (pushed s ++ early (s_posts s));
  p_bound : Forall (λ i, 0 < i ≤ s_id s) (pushed s ++ early (s_posts s));
  p_kept : pushed s ≡ₚ map tid (s_heap s ++ in_hand (s_place s)) ++ gone s;
  p_marks : ∀ i, i ∈ s_marks s → i ∈ map tid (s_heap s ++ in_hand (s_place s)) ∨ ∃ t, (t, Pushing) ∈ s_posts s ∧ tid t = i;
  p_gone : ∀ i, i ∈ gone s → i ∉ s_marks s;
  p_nonneg : 0 ≤ s_id s ∧ 0 ≤ s_events s;
  p_long : Forall long_enough (s_posts s);
  p_wake : s_place s = Waiting → ∀ top h, s_heap s = top :: h → s_timer s > 0 ∨ s_events s > 0 ∨ ∃ x, x ∈ s_posts s ∧ will_wake (runat top) x = true;
  p_taken : ∀ now ts, s_place s = Collecting now ts → StronglySorted earlier (ts ++ s_heap s) ∧ Forall (due now) ts;
  p_empty : s_place s = Silencing ∨ s_place s = Resting → s_heap s = [];
  p_todo : ∀ todo ts, s_place s = Running todo ts → ∀ x, x ∈ todo → x ∈ ts;
}.

Ltac fields := cbn [s_timer s_heap s_id s_marks s_state s_events s_posts s_place pushed gone ran in_hand].

Lemma pinv_new : pinv Timed_new.
Proof. split; cbn; try done; by constructor. Qed.

(** The order of the threads in [post] does not matter. *)
Definition with_posts (ps : list (tTask * pplace)) (s : Timed) : Timed :=
  let '(MkTimedState tm h i mk st ev _ pl pu go ra) := s in MkTimedState tm h i mk st ev ps pl pu go ra.

Lemma pinv_perm ps s : pinv s → s_posts s ≡ₚ ps → pinv (with_posts ps s).
Proof.
  destruct s as [tm h i mk st ev ps0 pl pu go ra]. intros [H1 H2 H3 H4 H5 H6 H7 H8 H9 H10 H11 H12] Hp. cbn [s_timer s_heap s_id s_marks s_state s_events s_posts s_place pushed gone ran with_posts] in *.
  assert (early ps0 ≡ₚ early ps) as He by (unfold early; by rewrite Hp).
  split; fields; try done.
  - by rewrite <- He.
  - by rewrite <- He.
  - intros j Hj. destruct (H5 j Hj) as [?|(t & Ht & ?)]; [by left|right]. exists t. by rewrite <- Hp.
  - by rewrite <- Hp.
  - intros Hw top h' Eh. destruct (H9 Hw top h' Eh) as [?|[?|(x & Hx & ?)]]; auto. right. right. exists x. by rewrite <- Hp.
Qed.

Lemma early_cons x ps : early (x :: ps) = if unpushed x then tid x.1 :: early ps else early ps.
Proof.
  unfold early. destruct (unpushed x) eqn:E; [rewrite filter_cons_True by (by rewrite E)|rewrite filter_cons_False by (rewrite E; tauto)]; done.
Qed.

Lemma enter_inv t s s' : pinv s → enter t s = Some s' → pinv s'.
Proof.
  destruct s as [tm h i mk st ev ps pl pu go ra]. intros [H1 H2 H3 H4 H5 H6 H7 H8 H9 H10 H11 H12] He. cbn [s_timer s_heap s_id s_marks s_state s_events s_posts s_place pushed gone ran enter] in *.
  destruct (tfn t || closure t).
  - case_decide; [|done]. simplify_eq. split; fields; try done; rewrite ?early_cons; cbn [unpushed fst snd with_id tid].
    + rewrite <- Permutation_middle. apply NoDup_cons. split; [|done]. rewrite Forall_forall in H3. intros Hin%H3. lia.
    + rewrite <- Permutation_middle. constructor; [lia|eapply Forall_impl; [exact H3|cbn; lia]].
    + intros j Hj. destruct (H5 j Hj) as [?|(u & Hu & ?)]; [by left|right]. exists u. split; [by right|done].
    + lia.
    + by constructor.
    + intros Hw top h' Eh. destruct (H9 Hw top h' Eh) as [?|[?|(x & Hx & ?)]]; auto. right. right. exists x. split; [by right|done].
  - simplify_eq. split; fields; try done; unfold kNotifyOne; [lia|]. intros _ top h' _. lia.
Qed.

Lemma push_head t h top h' : push t h = top :: h' → (runat top = runat t) ∨ ∃ h0, h = top :: h0.
Proof.
  destruct h as [|u h]; cbn [push]; [intros [= <- <-]; by left|]. case_decide; intros [= <- <-]; [by left|right; by eexists].
Qed.

Lemma collecting_free pl now ts : holds_mtx pl = false → pl ≠ Collecting now ts.
Proof. by destruct pl. Qed.

Ltac unfields := cbn [s_timer s_heap s_id s_marks s_state s_events s_posts s_place pushed gone ran] in *.

(** A thread that has pushed its task goes on: only the wake-up is its business. *)
Lemma moved_inv tm h i mk st ev x ps pl pu go ra xs tm' st' ev' :
  pinv (MkTimedState tm h i mk st ev (x :: ps) pl pu go ra) → unpushed x = false →
  (∀ y, y ∈ ps → y ∈ xs) → early xs = early ps → Forall long_enough xs → 0 ≤ ev' →
  (∀ top h', h = top :: h' → tm > 0 ∨ ev > 0 ∨ will_wake (runat top) x = true → tm' > 0 ∨ ev' > 0 ∨ ∃ y, y ∈ xs ∧ will_wake (runat top) y = true) →
  pinv (MkTimedState tm' h i mk st' ev' xs pl pu go ra).
Proof.
  intros [H1 H2 H3 H4 H5 H6 H7 H8 H9 H10 H11 H12] Hx Hin He Hl Hev Hw. unfields. rewrite early_cons, Hx in H2, H3.
  split; fields; rewrite ?He; try done.
  - intros j Hj. destruct (H5 j Hj) as [?|(u & [<- |Hu]%elem_of_cons & <-)]; [by left|done|right]. exists u. split; [by apply Hin|done].
  - lia.
  - intros Hwa top h' Eh. destruct (H9 Hwa top h' Eh) as [?|[?|(y & [-> |Hy]%elem_of_cons & Hyw)]]; [apply (Hw top h'); auto..|].
    right. right. exists y. split; [by apply Hin|done].
Qed.

Lemma mark_inv t tm h i mk st ev ps pl pu go ra :
  pinv (MkTimedState tm h i mk st ev ((t, Marking) :: ps) pl pu go ra) →
  pinv (MkTimedState tm h i ({[tid t]} ∪ mk) st ev ((t, Pushing) :: ps) pl pu go ra).
Proof.
  intros [H1 H2 H3 H4 H5 H6 H7 H8 H9 H10 H11 H12]. unfields. rewrite early_cons in H2, H3. cbn [unpushed fst snd] in H2, H3.
  split; fields; rewrite ?early_cons; cbn [unpushed fst snd]; try done.
  - intros j. rewrite elem_of_union, elem_of_singleton. intros [-> |Hj]; [right; exists t; split; [by left|done]|].
    destruct (H5 j Hj) as [?|(u & [[=]|Hu]%elem_of_cons & <-)]; [by left|right]. exists u. split; [by right|done].
  - intros j Hj. rewrite not_elem_of_union, not_elem_of_singleton. split; [|by apply H6]. intros ->.
    apply NoDup_app in H2 as (_ & H2 & _). apply (H2 (tid t)); [|by left]. rewrite H4. set_solver.
  - apply Forall_cons in H8 as [_ H8]. by constructor.
  - intros Hw top h' Eh. destruct (H9 Hw top h' Eh) as [?|[?|(y & [-> |Hy]%elem_of_cons & Hyw)]]; auto.
    + unfold will_wake in Hyw. by rewrite andb_false_r in Hyw.
    + right. right. exists y. split; [by right|done].
Qed.

Lemma pushed_inv t tm h i mk st ev ps pl pu go ra :
  pinv (MkTimedState tm h i mk st ev ((t, Pushing) :: ps) pl pu go ra) → holds_mtx pl = false →
  pinv (MkTimedState tm (push t h) i mk st ev ((t, Testing) :: ps) pl (pu ++ [tid t]) go ra).
Proof.
  intros [H1 H2 H3 H4 H5 H6 H7 H8 H9 H10 H11 H12] Em. unfields. rewrite early_cons in H2, H3. cbn [unpushed fst snd] in H2, H3.
  split; fields; rewrite ?early_cons; cbn [unpushed fst snd]; rewrite <- ?app_assoc; try done.
  - by apply push_sorted.
  - rewrite push_perm. cbn [app map]. rewrite H4. solve_Permutation.
  - intros j Hj. rewrite push_perm. cbn [app map]. destruct (H5 j Hj) as [?|(u & [[= ->]|Hu]%elem_of_cons & <-)]; [left; by right|left; by left|].
    right. exists u. split; [by right|done].
  - apply Forall_cons in H8 as [_ H8]. by constructor.
  - intros Hw top h' Eh. apply push_head in Eh as [Et|[h0 ->]].
    + right. right. exists (t, Testing). split; [by left|]. unfold will_wake. cbn. by rewrite bool_decide_true.
    + destruct (H9 Hw top h0 eq_refl) as [?|[?|(y & [-> |Hy]%elem_of_cons & Hyw)]]; auto.
      * unfold will_wake in Hyw. by rewrite andb_false_r in Hyw.
      * right. right. exists y. split; [by right|done].
  - intros now ts E. by apply (collecting_free pl now ts) in Em.
  - intros [-> | ->]; done.
Qed.

Lemma post_step_inv t p ps s s' :
  pinv s → s_posts s = (t, p) :: ps → post_step t p ps s = Some (Ret s') → pinv s'.
Proof.
  destruct s as [tm h i mk st ev ps0 pl pu go ra]. intros Hi Ep Hs. cbn [s_posts] in Ep. subst ps0.
  pose proof (p_long _ Hi) as Hl. pose proof (p_nonneg _ Hi) as [_ He]. unfields. pose proof Hl as [Hlt Hlp]%Forall_cons.
  unfold long_enough in Hlt. cbn [fst snd] in Hlt. unfold kLeastDuration in Hlt.
  destruct p; cbn [post_step] in Hs.
  - simplify_eq. by apply mark_inv.
  - destruct (holds_mtx pl) eqn:Em; [done|]. simplify_eq. by apply pushed_inv.
  - simplify_eq. set (p' := if decide (duration t < kLeastDuration) then _ else _).
    assert (unpushed (t, p') = false ∧ long_enough (t, p') ∧ ∀ r, will_wake r (t, p') = will_wake r (t, Testing)) as (Hu & Hlo & Hww).
    { unfold p', unpushed, long_enough, will_wake. case_decide; [done|]. destruct st; cbn; (split_and!; [done|lia|done]). }
    eapply moved_inv; [exact Hi|done|by right|by rewrite early_cons, Hu|by constructor|done|].
    intros top h' _ [?|[?|Hy]]; auto. right. right. exists (t, p'). split; [by left|]. by rewrite Hww.
  - simplify_eq. eapply moved_inv; [exact Hi|done|done|done|done|unfold kNotifyOne; lia|unfold kNotifyOne; lia].
  - simplify_eq. eapply moved_inv; [exact Hi|done|by right|done|by constructor|done|lia].
  - simplify_eq. eapply moved_inv; [exact Hi|done|done|done|done|done|]. intros top h' _ [?|[?|Hy]]; auto.
    unfold will_wake in Hy. by rewrite andb_false_r in Hy.
  - destruct (holds_mtx pl); [done|]. destruct h as [|top h]; [done|]. case_decide as Ht; simplify_eq.
    + eapply moved_inv; [exact Hi|done|by right|done|by constructor|done|]. intros top' h' [= <- <-] _. right. right. exists (t, Resetting).
      split; [by left|]. unfold will_wake. cbn. by rewrite bool_decide_true.
    + eapply moved_inv; [exact Hi|done|done|done|done|done|]. intros top' h' [= <- <-] [?|[?|Hy]]; auto.
      unfold will_wake in Hy. cbn in Hy. by rewrite bool_decide_false in Hy by congruence.
  - simplify_eq. eapply moved_inv; [exact Hi|done|done|done|done|done|lia].
Qed.

Lemma cancel_step_inv id s : pinv s → pinv (cancel_step id s).
Proof.
  destruct s as [tm h i mk st ev ps pl pu go ra]. intros Hi. unfold cancel_step. case_decide; [|done].
  destruct Hi as [H1 H2 H3 H4 H5 H6 H7 H8 H9 H10 H11 H12]. unfields. split; fields; try done.
  - intros j [Hj _]%elem_of_difference. by apply H5.
  - intros j Hj [Hm _]%elem_of_difference. by apply (H6 j).
Qed.

(** The timer's thread moves on, with the same tasks in hand. *)
Lemma at_rplace_inv pl s :
  pinv s → in_hand pl = in_hand (s_place s) → pl ≠ Waiting →
  (∀ now ts, pl = Collecting now ts → ts = []) → (pl = Silencing ∨ pl = Resting → s_heap s = []) →
  (∀ todo ts, pl = Running todo ts → todo = ts) → pinv (at_rplace pl s).
Proof.
  destruct s as [tm h i mk st ev ps pl0 pu go ra]. intros [H1 H2 H3 H4 H5 H6 H7 H8 H9 H10 H11 H12] He Hw Hc Hm Hr. unfields. cbn [at_rplace].
  split; fields; rewrite ?He; try done; [intros now ts E; by rewrite (Hc now ts E)|]. intros todo ts E. by rewrite (Hr todo ts E).
Qed.

Lemma take_step_inv now ts s : pinv s → s_place s = Collecting now ts → pinv (take_step now ts s).
Proof.
  intros Hi. pose proof Hi as Hi'. destruct s as [tm h i mk st ev ps pl pu go ra]. destruct Hi' as [H1 H2 H3 H4 H5 H6 H7 H8 H9 H10 H11 H12].
  unfields. intros ->. destruct (H10 now ts eq_refl) as [Hso Hdu]. cbn [take_step in_hand] in *.
  destruct h as [|top h]; [apply at_rplace_inv; try done; first [by intros []|by intros ? ? [= <- <-]]|]. case_decide as Hd; [|apply at_rplace_inv; try done; first [by intros []|by intros ? ? [= <- <-]]].
  apply StronglySorted_inv in H1 as [H1 H1']. case_decide as Ha.
  - assert (top :: h ++ ts ≡ₚ h ++ ts ++ [top]) as Hp by solve_Permutation.
    split; fields; try done.
    + by rewrite H4, <- Hp.
    + intros j Hj. rewrite <- Hp. by apply H5.
    + intros now' ts' [= <- <-]. rewrite <- app_assoc. split; [done|]. apply Forall_app. split; [done|]. by repeat constructor.
    + by intros [].
  - split; fields; try done.
    + rewrite H4. cbn [app map]. solve_Permutation.
    + intros j Hj. destruct (H5 j Hj) as [Hin|?]; [|by right]. cbn [app map] in Hin. apply elem_of_cons in Hin as [-> |?]; [done|by left].
    + intros j Hj. apply elem_of_app in Hj as [Hj| ->%list_elem_of_singleton]; [by apply H6|done].
    + intros now' ts' [= <- <-]. split; [|done]. rewrite StronglySorted_app in *. destruct Hso as (Hx & ? & _). split_and!; [|done|done].
      intros x1 x2 ? ?. apply Hx; [done|by right].
    + by intros [].
Qed.

Lemma drop_step_inv now t ts s : pinv s → s_place s = Finishing now (t :: ts) → pinv (drop_step now t ts s).
Proof.
  destruct s as [tm h i mk st ev ps pl pu go ra]. intros [H1 H2 H3 H4 H5 H6 H7 H8 H9 H10 H11 H12] E. unfields. subst pl. cbn [drop_step in_hand] in *.
  assert (map tid (h ++ t :: ts) ≡ₚ tid t :: map tid (h ++ ts)) as Hp by (by rewrite <- Permutation_middle).
  assert (NoDup (tid t :: map tid (h ++ ts) ++ gone (MkTimedState tm h i mk st ev ps Waiting pu go ra))) as Hnd.
  { cbn [gone]. apply NoDup_app in H2 as [H2 _]. by rewrite H4, Hp in H2. }
  apply NoDup_cons in Hnd as [Hnot _]. cbn [gone] in Hnot. case_decide.
  - split; fields; try done.
    + by apply push_sorted.
    + rewrite push_perm. cbn [app map with_runat tid]. by rewrite H4, Hp.
    + intros j Hj. rewrite push_perm. cbn [app map with_runat tid]. rewrite <- Hp. by apply H5.
    + by intros [].
  - split; fields; try done.
    + rewrite H4, Hp. solve_Permutation.
    + intros j [Hj Hne]%elem_of_difference. destruct (H5 j Hj) as [Hin|?]; [|by right]. rewrite Hp in Hin. left. set_solver.
    + intros j. rewrite elem_of_app, list_elem_of_singleton. intros [Hj| ->]; [|set_solver]. specialize (H6 j Hj). set_solver.
    + by intros [].
Qed.

Lemma timer_thread_inv clock s s' : pinv s → thread_step clock s = Some (Ret s') → pinv s'.
Proof.
  intros Hi. pose proof Hi as [H1 H2 H3 H4 H5 H6 H7 H8 H9 H10 H11 H12]. destruct s as [tm h i mk st ev ps pl pu go ra]. unfields. cbn [thread_step].
  destruct pl as [| |now ts|[|t todo] ts|now ts|now [|t ts]| | |top now|]; intros E.
  - unfold retrieve in E. case_decide; cbn in E; [done|]. simplify_eq. case_decide; (split; fields; try done; first [lia|by intros []]).
  - simplify_eq. apply (at_rplace_inv (Collecting clock []) (MkTimedState tm h i mk st ev ps Locking pu go ra)); try done; [by intros ? ? [= <- <-]|by intros []].
  - simplify_eq. by apply (take_step_inv now ts (MkTimedState tm h i mk st ev ps (Collecting now ts) pu go ra)).
  - simplify_eq. apply (at_rplace_inv (Relocking clock ts) (MkTimedState tm h i mk st ev ps (Running [] ts) pu go ra)); try done. by intros [].
  - simplify_eq. split; fields; try done; [by intros []|]. intros todo' ts' [= <- <-] x Hx. apply (H12 _ _ eq_refl). by right.
  - simplify_eq. apply (at_rplace_inv (Finishing now ts) (MkTimedState tm h i mk st ev ps (Relocking now ts) pu go ra)); try done. by intros [].
  - simplify_eq. apply (at_rplace_inv _ (MkTimedState tm h i mk st ev ps (Finishing now []) pu go ra)); try done; destruct h; try done. by intros [].
  - simplify_eq. by apply (drop_step_inv now t ts (MkTimedState tm h i mk st ev ps (Finishing now (t :: ts)) pu go ra)).
  - simplify_eq. split; fields; try done. intros _. apply H11. by left.
  - simplify_eq. assert (h = []) as -> by (apply H11; by right). split; fields; try done.
  - case_decide as Hd; [|case_decide]; simplify_eq; (split; fields; try done; try (by intros [])); unfold kNotifyOne; try lia.
    intros _ top' h' _. left. unfold ms, kLeastDuration in Hd. apply Z.lt_gt, Z.div_str_pos. lia.
  - done.
Qed.

Lemma pstep_inv a s s' : pinv s → pstep a s = Some (Ret s') → pinv s'.
Proof.
  intros Hi. destruct a as [t|k|id| |clock]; cbn [pstep].
  - destruct (enter t s) as [s1|] eqn:E; cbn; [|done]. intros [= <-]. by eapply enter_inv.
  - destruct (s_posts s !! k) as [[t p]|] eqn:E; cbn [mbind option_bind]; [|done]. intros Hs.
    pose proof (pinv_perm ((t, p) :: base.delete k (s_posts s)) s Hi (delete_Permutation _ _ _ E)) as Hi'.
    apply (post_step_inv t p (base.delete k (s_posts s)) (with_posts ((t, p) :: base.delete k (s_posts s)) s)); [done|by destruct s|].
    rewrite <- Hs. by destruct s.
  - intros [= <-]. by apply cancel_step_inv.
  - destruct s as [tm h i mk st ev ps pl pu go ra]. intros [= <-]. destruct Hi as [H1 H2 H3 H4 H5 H6 H7 H8 H9 H10 H11 H12]. unfields.
    split; fields; try done; unfold kNotifyQuit; [lia|]. intros _ top h' _. lia.
  - by apply timer_thread_inv.
Qed.

Lemma psteps_inv s s' : pinv s → psteps s s' → pinv s'.
Proof. intros Hi Hs. induction Hs as [|s a s1 s2 _ IH Hst]; [done|]. by eapply pstep_inv; [apply IH|]. Qed.

(** What is said of a cancelled id: it was pushed, it is out of the marks and out
    of the thread's hands. *)
Definition out (i : Z) (s : Timed) : Prop := i ∈ pushed s ∧ (i ∉ s_marks s) ∧ i ∉ map tid (in_hand (s_place s)).

Definition not_run (i : Z) (s s' : Timed) : Prop := ∃ l, ran s' = ran s ++ l ∧ i ∉ map tid l.

Lemma same_ran i s s' : ran s' = ran s → not_run i s s'.
Proof. intros E. exists []. rewrite app_nil_r. split; [done|by apply not_elem_of_nil]. Qed.

Lemma not_elem_map_app i (a b : list tTask) : i ∉ map tid (a ++ b) ↔ (i ∉ map tid a) ∧ i ∉ map tid b.
Proof. by rewrite map_app, not_elem_of_app. Qed.

Lemma thread_out i clock s s' : pinv s → out i s → thread_step clock s = Some (Ret s') → out i s' ∧ not_run i s s'.
Proof.
  intros Hinv (Hp & Hm & Hh). pose proof (p_todo s Hinv) as Ht. clear Hinv. destruct s as [tm h j mk st ev ps pl pu go ra]. unfields.
  assert (∀ tm' h' mk' st' ev' pl' go', (∀ k, k ∈ mk' → k ∈ mk) → i ∉ map tid (in_hand pl') →
    out i (MkTimedState tm' h' j mk' st' ev' ps pl' pu go' ra) ∧ not_run i (MkTimedState tm h j mk st ev ps pl pu go ra) (MkTimedState tm' h' j mk' st' ev' ps pl' pu go' ra)) as Hgo.
  { intros tm' h' mk' st' ev' pl' go' Hmk Hpl. split; [split_and!; unfields; [done| |done]; intros ?%Hmk; done|by apply same_ran]. }
  assert (i ∉ map tid (@nil tTask)) as Hnil by (by apply not_elem_of_nil).
  unfold thread_step, take_step, drop_step, at_rplace. destruct pl as [| |now ts|[|t todo] ts|now ts|now [|t ts]| | |top now|]; cbn [in_hand map] in *; intros E.
  - destruct (retrieve ev) as [[e ev']|]; cbn in E; [|done]. simplify_eq. apply Hgo; [done|]. by case_decide.
  - simplify_eq. by apply Hgo.
  - destruct h as [|top h]; [|case_decide; [case_decide|]]; simplify_eq; apply Hgo; try done.
    cbn [in_hand]. apply not_elem_map_app. split; [done|]. intros ->%list_elem_of_singleton. done.
  - simplify_eq. by apply Hgo.
  - simplify_eq. split; [by split_and!|]. exists [t]. split; [done|]. intros ->%list_elem_of_singleton.
    apply Hh, list_elem_of_fmap_2, (Ht _ _ eq_refl). by left.
  - simplify_eq. by apply Hgo.
  - simplify_eq. apply Hgo; [done|]. by destruct h.
  - apply not_elem_of_cons in Hh as [_ Hh]. case_decide; simplify_eq; apply Hgo; try done. by intros k [? _]%elem_of_difference.
  - simplify_eq. by apply Hgo.
  - simplify_eq. by apply Hgo.
  - case_decide; [|case_decide]; simplify_eq; by apply Hgo.
  - done.
Qed.

(** A step keeps it so, and does not run it. *)
Lemma pstep_out i a s s' : pinv s → out i s → pstep a s = Some (Ret s') → out i s' ∧ not_run i s s'.
Proof.
  intros Hinv Hout Hs. destruct a as [t|k|id| |clock]; [..|by eapply thread_out]; destruct Hout as (Hpu & Hm & Hh); pose proof (p_ids s Hinv) as Hnd;
    destruct s as [tm h j mk st ev ps pl pu go ra]; cbn [pstep] in Hs; unfields.
  - destruct (enter _ _) eqn:E; cbn in Hs; [|done]. simplify_eq. unfold enter in E.
    destruct (tfn t || closure t); [case_decide|]; simplify_eq; (split; [by split_and!|by apply same_ran]).
  - destruct (ps !! k) as [[t p]|] eqn:Ek; cbn [mbind option_bind] in Hs; [|done].
    destruct p; cbn [post_step] in Hs; repeat case_match; simplify_eq; (split; [|by apply same_ran]); split_and!; unfields; try done.
    + rewrite not_elem_of_union, not_elem_of_singleton. split; [|done]. intros ->. apply NoDup_app in Hnd as (_ & Hnd & _). apply (Hnd _ Hpu). unfold early.
      apply list_elem_of_fmap. exists (t, Marking). split; [done|]. apply list_elem_of_filter. split; [done|]. by eapply list_elem_of_lookup_2.
    + apply elem_of_app. by left.
  - simplify_eq. unfold cancel_step. case_decide; (split; [|by apply same_ran]); split_and!; unfields; try done. by intros [? _]%elem_of_difference.
  - simplify_eq. split; [by split_and!|by apply same_ran].
Qed.

Lemma psteps_trans s1 s2 s3 : psteps s1 s2 → psteps s2 s3 → psteps s1 s3.
Proof. intros H12 H23. induction H23 as [s|s a s' s'' H IH Hst]; [done|]. by eapply psteps_more; [apply IH|]. Qed.

(** The loop is left when no task of the heap is due. *)
Lemma loop_left now ts clock s s' :
  StronglySorted earlier (s_heap s) → s_place s = Collecting now ts → thread_step clock s = Some (Ret s') → s_place s' = Running ts ts →
  Forall (λ t, ¬ due now t) (s_heap s').
Proof.
  destruct s as [tm h i mk st ev ps pl pu go ra]. unfields. intros Hso -> E Er. cbn [thread_step take_step] in E.
  destruct h as [|top h]; [injection E as <-; constructor|]. case_decide as Hd; [case_decide; by simplify_eq|]. simplify_eq. cbn [s_heap at_rplace].
  apply StronglySorted_inv in Hso as [_ Hso]. constructor; [done|]. eapply Forall_impl; [exact Hso|]. unfold earlier, due. cbn. lia.
Qed.

Lemma undefined_cases a s :
  pstep a s = Some Undef →
  (∃ k t, a = PStep k ∧ s_posts s !! k = Some (t, Looking) ∧ s_heap s = []) ∨
  (∃ top now, s_place s = Waking top now ∧ 4294967295 < (runat top - now) / 1000000).
Proof.
  destruct s as [tm h i mk st ev ps pl pu go ra]. destruct a as [t|k|id| |clock]; cbn [pstep s_posts]; try done.
  - by destruct (enter _ _).
  - destruct (ps !! k) as [[t p]|] eqn:E; cbn [mbind option_bind]; [|done]. intros Hs. left. exists k, t.
    destruct p; cbn [post_step] in Hs; repeat case_match; done.
  - cbn [thread_step]. destruct pl as [| |now ts|[|t todo] ts|now ts|now [|t ts]| | |top now|]; try done.
    + by destruct (retrieve ev) as [[e ev']|].
    + case_decide; [done|]. case_decide; [done|]. intros _. right. exists top, now. split; [done|lia].
Qed.

(** ** Properties *)

(** C32: the timer's thread and any number of threads in [post] and [cancel], in
    every interleaving.  No task is lost or doubled: the ids that were pushed are
    all different, and each is that of a task in the heap, in the hands of the
    thread, or dropped because it was cancelled or done.  A marked id has its task
    there, unless its thread is between the mark and the push, and a dropped id is
    not marked.  When the thread has taken the due tasks these are in the order of
    their times, all due, and the heap has none that is due.  When it waits and the
    heap is not empty, the timer is armed, a notification is pending, or a thread
    in [post] is about to arm or notify.  Nothing is undefined but [top()] of a
    heap that has become empty since the push, and a wait of 2^32 milliseconds. *)
Theorem timer_rounds s :
  psteps Timed_new s →
  (NoDup (pushed s) ∧ pushed s ≡ₚ map tid (s_heap s ++ in_hand (s_place s)) ++ gone s) ∧
  (∀ i, i ∈ s_marks s → (∃ t, t ∈ s_heap s ++ in_hand (s_place s) ∧ tid t = i) ∨ ∃ t, (t, Pushing) ∈ s_posts s ∧ tid t = i) ∧
  (∀ i, i ∈ gone s → i ∉ s_marks s) ∧
  (∀ now ts clock s', s_place s = Collecting now ts → thread_step clock s = Some (Ret s') → s_place s' = Running ts ts →
    StronglySorted earlier ts ∧ Forall (due now) ts ∧ Forall (λ t, ¬ due now t) (s_heap s')) ∧
  (s_place s = Waiting → s_heap s ≠ [] → s_timer s > 0 ∨ s_events s > 0 ∨
    ∃ t p, (t, p) ∈ s_posts s ∧ (p = Testing ∨ p = Notifying ∨ p = Arming ∨ p = Looking ∨ p = Resetting) ∧ runat t = runat (hd t (s_heap s))) ∧
  (∀ a, pstep a s = Some Undef →
    (∃ k t, a = PStep k ∧ s_posts s !! k = Some (t, Looking) ∧ s_heap s = []) ∨
    (∃ top now, s_place s = Waking top now ∧ 4294967295 < (runat top - now) / 1000000)).
Proof.
  intros Hs. pose proof (psteps_inv _ _ pinv_new Hs) as [H1 H2 H3 H4 H5 H6 H7 H8 H9 H10 H11 H12]. split_and!.
  - by apply NoDup_app in H2 as (? & _).
  - done.
  - intros i Hi. destruct (H5 i Hi) as [(t & -> & Ht)%list_elem_of_fmap|?]; [left; by exists t|by right].
  - done.
  - intros now ts clock s' E Est Er. destruct (H10 now ts E) as [Hso Hdu]. split; [by apply StronglySorted_app_1_l in Hso|]. split; [done|].
    by eapply (loop_left now ts clock s s').
  - intros Hw Hne. destruct (s_heap s) as [|top h] eqn:Eh; [done|]. destruct (H9 Hw top h eq_refl) as [?|[?|([t p] & Hx & Hww)]]; auto.
    right. right. exists t, p. split; [done|]. unfold will_wake in Hww. apply andb_true_iff in Hww as [Hr Hp]. apply bool_decide_eq_true in Hr.
    split; [destruct p; try done; auto 10|done].
  - intros a. apply undefined_cases.
Qed.

(** C33: Cancelled tasks stay out: a task that was pushed, is not marked any more and is
    not in the hands of the timer's thread at that moment is never run again,
    whatever is posted, cancelled or run afterwards. *)
Theorem cancelled_stays_out i s s' :
  psteps Timed_new s → i ∈ pushed s → i ∉ s_marks s → i ∉ map tid (in_hand (s_place s)) → psteps s s' →
  ∃ l, ran s' = ran s ++ l ∧ i ∉ map tid l.
Proof.
  intros Hs Hp Hm Hh Hss. assert (out i s' ∧ not_run i s s') as [_ ?]; [|done].
  induction Hss as [s|s a s1 s2 Hss IH Hst]; [split; [by split_and!|by apply same_ran]|]. destruct (IH Hs Hp Hm Hh) as (Ho & l & Hl & Hn).
  destruct (pstep_out i a s1 s2 (psteps_inv _ _ pinv_new (psteps_trans _ _ _ Hs Hss)) Ho Hst) as (Ho2 & l' & Hl' & Hn').
  split; [done|]. exists (l ++ l'). rewrite Hl', Hl, app_assoc. split; [done|]. by apply not_elem_map_app.
Qed.

(** ** Runs that show something *)
Fixpoint prun (l : list paction) (s : Timed) : option (outcome Timed) :=
  match l with
  | [] => Some (Ret s)
  | a :: l => match pstep a s with Some (Ret s) => prun l s | r => r end
  end.

Lemma prun_steps l s0 s s' : psteps s0 s → prun l s = Some (Ret s') → psteps s0 s'.
Proof.
  revert s. induction l as [|a l IH]; intros s Hs H; cbn [prun] in H; [by simplify_eq|].
  destruct (pstep a s) as [[s1| |]|] eqn:E; try done. apply (IH s1); [by eapply psteps_more|done].
Qed.

(** A task of 20 ms is posted and arms the timer; when the timer fires, another
    thread has pushed one of 10 ms and is before [top()].  The timer's thread takes
    both, and the heap that thread looks at is empty. *)
Definition first_task : list paction := PEnter (tTask_new 0 20 TIMERTASK_ONCE true false false) :: replicate 5 (PStep 0).
Definition second_task : list paction := PEnter (tTask_new (ms 15) 10 TIMERTASK_ONCE true false false) :: replicate 3 (PStep 0).
Definition sample_round : list paction := first_task ++ second_task ++ [PEnter Nil] ++ replicate 4 (PThread (ms 20)).

Example empty_top_race : prun (sample_round ++ [PThread (ms 20); PStep 0]) Timed_new = Some Undef.
Proof. vm_compute. reflexivity. Qed.

(** A mark without a task: a round between the mark and the push. *)
Example mark_before_task :
  (λ s, match s with Ret s => (elements (s_marks s), s_heap s) | _ => ([], []) end) <$>
  prun [PEnter (tTask_new 0 20 TIMERTASK_ONCE true false false); PStep 0; PEnter Nil; PThread 0; PThread 0; PThread 0] Timed_new = Some ([1], []).
Proof. vm_compute. reflexivity. Qed.

(** ** Witnesses *)
Definition sample_timed : Timed := match prun sample_round Timed_new with Some (Ret s) => s | _ => Timed_new end.

Lemma sample_psteps : psteps Timed_new sample_timed.
Proof. apply (prun_steps sample_round _ Timed_new); [constructor|vm_compute; reflexivity]. Qed.

Lemma timer_rounds_witness :
  NoDup (pushed sample_timed) ∧ pushed sample_timed ≡ₚ [1; 2] ∧ map tid (in_hand (s_place sample_timed)) = [1; 2] ∧
  ∀ i, i ∈ s_marks sample_timed → (∃ t, t ∈ s_heap sample_timed ++ in_hand (s_place sample_timed) ∧ tid t = i) ∨ ∃ t, (t, Pushing) ∈ s_posts sample_timed ∧ tid t = i.
Proof.
  destruct (timer_rounds sample_timed sample_psteps) as ((H1 & H2) & H3 & _). split; [exact H1|]. split; [|split; [vm_compute; reflexivity|exact H3]].
  rewrite H2. vm_compute. reflexivity.
Defined.

Definition cancelling : list paction := first_task ++ [PEnter (tTask_new 0 30 TIMERTASK_ONCE true false false); PStep 0; PStep 0; PCancel 1].
Definition sample_cancelled : Timed := match prun cancelling Timed_new with Some (Ret s) => s | _ => Timed_new end.

Lemma cancelled_stays_out_witness :
  ∃ s', psteps sample_cancelled s' ∧ map tid (ran s') = [2] ∧ ∃ l, ran s' = ran sample_cancelled ++ l ∧ 1 ∉ map tid l.
Proof.
  destruct (prun (PEnter Nil :: replicate 6 (PThread (ms 40))) sample_cancelled) as [[s'| |]|] eqn:E; try (by vm_compute in E).
  assert (psteps sample_cancelled s') as Hs by (by eapply prun_steps; [constructor|exact E]). exists s'. split; [exact Hs|].
  split; [vm_compute in E; injection E as <-; reflexivity|].
  apply (cancelled_stays_out 1 sample_cancelled s'); [|by_eval|by_eval|by_eval|exact Hs].
  apply (prun_steps cancelling _ Timed_new); [constructor|vm_compute; reflexivity].
Defined.
