(* ===== verification/Collector.v ===== *)
(** * socket/collector.h: [Queue], [Pool] and the [Collector]'s payloads

    Three shared structures and their interleavings.  The collector hands
    payloads from the threads that add them to the one that sends them through
    two vectors that are swapped, and wakes it with bytes on a socket pair. *)
From Stdlib Require Import ZArith Lia.
From stdpp Require Import base tactics numbers list sets.
From S2P Require Import Prelude.

Open Scope Z_scope.

(** ** [Queue<T>] *)
Module Queue.
Section queue.
Context {T : Type}.

Record t := Queue { data_ : list T; finish_ : bool }.

Definition new : t := Queue [] false.
Definition offer (x : T) (q : t) : t := Queue (data_ q ++ [x]) (finish_ q).
Definition finish (q : t) : t := Queue (data_ q) true.

(** [None] while the condition does not hold; then the answer, with the item. *)
Definition poll (q : t) : option (option T * t) :=
  if finish_ q then Some (None, q)
  else
    match data_ q with
    | [] => None
    | x :: data => Some (Some x, Queue data (finish_ q))
    end.

Inductive op := Offer (x : T) | Poll | Finish.

(** A run of calls: what was offered and what was polled; a call of [poll] that
    has to wait cannot be the next one. *)
Fixpoint exec (ops : list op) (q : t) : option (list T * list T * t) :=
  match ops with
  | [] => Some ([], [], q)
  | Offer x :: ops => '(o, p, q) ← exec ops (offer x q); Some (x :: o, p, q)
  | Poll :: ops =>
      '(a, q) ← poll q;
      '(o, p, q) ← exec ops q;
      Some (o, option_list a ++ p, q)
  | Finish :: ops => exec ops (finish q)
  end.

(** The items come out in the order they went in, and those that do not come
    out are still there; once the queue is finished nothing comes out. *)
Lemma queue_fifo ops q o p q' :
  exec ops q = Some (o, p, q') →
  data_ q ++ o = p ++ data_ q' ∧ (finish_ q = true → p = [] ∧ finish_ q' = true) ∧ (Finish ∉ ops → finish_ q' = finish_ q).
Proof.
  revert q o p. induction ops as [|[x| |] ops IH]; intros q o p H; cbn [exec] in H.
  - simplify_eq. rewrite app_nil_r. split_and!; [done|done|done].
  - destruct (exec ops (offer x q)) as [[[o1 p1] q1]|] eqn:E; [|done]. cbn in H. simplify_eq.
    destruct (IH _ _ _ E) as (H1 & H2 & H3). cbn in *. rewrite <- app_assoc in H1. split_and!; [done|done|].
    rewrite not_elem_of_cons. intros [_ ?]. auto.
  - unfold poll in H. destruct q as [d f]. cbn [data_ finish_] in *. destruct f.
    + cbn in H. destruct (exec ops (Queue d true)) as [[[o1 p1] q1]|] eqn:E; [|done]. cbn in H. simplify_eq.
      destruct (IH _ _ _ E) as (H1 & H2 & H3). cbn in *. split_and!; [done|done|]. rewrite not_elem_of_cons. intros [_ ?]. auto.
    + destruct d as [|x d]; [done|]. cbn in H. destruct (exec ops (Queue d false)) as [[[o1 p1] q1]|] eqn:E; [|done]. cbn in H. simplify_eq.
      destruct (IH _ _ _ E) as (H1 & H2 & H3). cbn in *. split_and!; [by rewrite H1|done|]. rewrite not_elem_of_cons. intros [_ ?]. auto.
  - destruct (IH _ _ _ H) as (H1 & H2 & H3). cbn in *. split_and!; [done|intros _; by apply H2|]. rewrite not_elem_of_cons. tauto.
Qed.
End queue.
End Queue.

(** ** [Pool<N, BLOCK>] *)
Module Pool.
Section pool.
Context (N : nat) (BLOCK : Z).

Definition MASK : Z := 7.

(** The size of a block, rounded up to pointers. *)
Definition block_ : Z :=
  if decide (Z.land BLOCK MASK ≠ 0) then Z.land BLOCK (Z.lnot MASK) + 8 else BLOCK.

(** A block: at an offset of the pool's memory, or of its own from [malloc]. *)
Inductive block := Own (offset : Z) | Malloced (n : Z).

#[export] Instance block_eq_dec : EqDecision block.
Proof. solve_decision. Defined.

(** The stack, its back first, the calls of [malloc], and the blocks in use. *)
Record t := Pool { stack_ : list Z; mallocs : Z; used : list block }.

Definition new : t := Pool (rev (map (λ i, Z.of_nat i * block_) (seq 0 N))) 0 [].

Definition acquire (s : t) : block * t :=
  match stack_ s with
  | v :: stack => (Own v, Pool stack (mallocs s) (Own v :: used s))
  | [] => (Malloced (mallocs s), Pool [] (mallocs s + 1) (Malloced (mallocs s) :: used s))
  end.

(** The deleter of a block in use: its unique pointer calls it once. *)
Definition release (b : block) (s : t) : option t :=
  if decide (b ∈ used s) then
    let rest := remove block_eq_dec b (used s) in
    match b with
    | Own v => Some (Pool (v :: stack_ s) (mallocs s) rest)
    | Malloced _ => Some (Pool (stack_ s) (mallocs s) rest)
    end
  else None.

Inductive steps : t → Prop :=
| steps_new : steps new
| steps_acquire s : steps s → steps (acquire s).2
| steps_release s b s' : steps s → release b s = Some s' → steps s'.

Definition own (b : block) : list Z := match b with Own v => [v] | Malloced _ => [] end.

Definition inv (s : t) : Prop :=
  stack_ s ++ concat (map own (used s)) ≡ₚ map (λ i, Z.of_nat i * block_) (seq 0 N) ∧
  NoDup (used s) ∧ ∀ n, Malloced n ∈ used s → n < mallocs s.

Lemma remove_perm b (l : list block) : NoDup l → b ∈ l → l ≡ₚ b :: remove block_eq_dec b l.
Proof.
  induction 1 as [|c l Hc Hl IH]; intros Hb; [by apply not_elem_of_nil in Hb|]. cbn [remove].
  destruct (block_eq_dec b c) as [-> |Hne].
  - by rewrite notin_remove by (by rewrite <- list_elem_of_In).
  - apply elem_of_cons in Hb as [?|Hb]; [done|]. rewrite (IH Hb) at 1. apply Permutation_swap.
Qed.

Context (HB : 0 < BLOCK).

(** The rounded size holds a block and is a multiple of eight. *)
Lemma block_size : BLOCK ≤ block_ < BLOCK + 8 ∧ block_ mod 8 = 0.
Proof.
  unfold block_, MASK. change 7 with (Z.ones 3). rewrite <- Z.ldiff_land, Z.ldiff_ones_r, Z.land_ones by lia.
  rewrite Z.shiftl_mul_pow2, Z.shiftr_div_pow2 by lia. change (2 ^ 3) with 8. case_decide; mlia.
Qed.

Lemma offsets_NoDup : NoDup (map (λ i, Z.of_nat i * block_) (seq 0 N)).
Proof.
  pose proof block_size. apply NoDup_fmap_2_strong; [|apply NoDup_seq]. intros i j _ _ E. nia.
Qed.

Lemma own_in v u : Own v ∈ u → v ∈ concat (map own u).
Proof.
  induction u as [|b u IH]; [by intros ?%not_elem_of_nil|]. intros [<- |Hin]%elem_of_cons; cbn; [left|].
  rewrite elem_of_app. right. by apply IH.
Qed.

Lemma own_perm u u' : u ≡ₚ u' → concat (map own u) ≡ₚ concat (map own u').
Proof.
  induction 1 as [|b u u' _ IH|b c u|]; cbn; [done|by rewrite IH|by rewrite !app_assoc, (Permutation_app_comm (own b))|etrans; eassumption].
Qed.

Lemma pool_steps_inv s : steps s → inv s.
Proof.
  induction 1 as [|s Hs (Hp & Hn & Hm)|s b s' Hs (Hp & Hn & Hm) Hr].
  - split_and!; cbn; [rewrite app_nil_r; symmetry; apply Permutation_rev|constructor|intros n H; by apply not_elem_of_nil in H].
  - unfold acquire. destruct s as [[|v st] m u]; cbn [stack_ mallocs used fst snd] in *.
    + split_and!; cbn; [done| |].
      * apply NoDup_cons. split; [|done]. intros H%Hm. lia.
      * intros n [[= ->]|Hn']%elem_of_cons; [lia|]. apply Hm in Hn'. lia.
    + pose proof offsets_NoDup as Hnd. rewrite <- Hp in Hnd. apply NoDup_cons in Hnd as [Hv _]. split_and!; cbn.
      * rewrite <- Hp. symmetry. apply Permutation_middle.
      * apply NoDup_cons. split; [|done]. intros Hin%own_in. apply Hv. rewrite elem_of_app. by right.
      * intros n [|Hn']%elem_of_cons; [done|]. by apply Hm.
  - unfold release in Hr. case_decide as Hb; [|done]. pose proof (remove_perm b (used s) Hn Hb) as Hrm.
    assert (NoDup (b :: remove block_eq_dec b (used s))) as [Hb' Hn']%NoDup_cons by (by rewrite <- Hrm).
    assert (∀ n, Malloced n ∈ remove block_eq_dec b (used s) → n < mallocs s) as Hm'.
    { intros n Hin. apply Hm. rewrite Hrm. by right. }
    apply own_perm in Hrm. cbn [map concat] in Hrm.
    destruct b as [v|k]; simplify_eq; (split_and!; cbn [stack_ used mallocs]; [|done|done]); rewrite <- Hp; rewrite Hrm; cbn [own app]; [|done].
    apply Permutation_middle.
Qed.

(** No two blocks in use overlap: those of the pool lie inside its memory, at
    different multiples of the block size, and none is both free and in use. *)
Lemma pool_disjoint s :
  steps s →
  (∀ v, Own v ∈ used s → 0 ≤ v ∧ v + block_ ≤ Z.of_nat N * block_ ∧ v ∉ stack_ s) ∧
  (∀ v w, Own v ∈ used s → Own w ∈ used s → v ≠ w → v + block_ ≤ w ∨ w + block_ ≤ v) ∧ NoDup (used s).
Proof.
  intros (Hp & Hn & _)%pool_steps_inv. pose proof block_size as Hbs.
  assert (∀ v, Own v ∈ used s → ∃ i, v = Z.of_nat i * block_ ∧ (i < N)%nat) as Hof.
  { intros v Hv%own_in. assert (v ∈ map (λ i, Z.of_nat i * block_) (seq 0 N)) as Hin by (rewrite <- Hp, elem_of_app; by right).
    apply list_elem_of_fmap in Hin as (i & -> & [_ Hi]%elem_of_seq). exists i. split; [done|lia]. }
  split_and!; [| |done].
  - intros v Hv. destruct (Hof v Hv) as (i & -> & Hi). split_and!; [nia|nia|]. intros Hst.
    pose proof offsets_NoDup as Hnd. rewrite <- Hp in Hnd. apply NoDup_app in Hnd as (_ & Hd & _). by apply (Hd _ Hst), own_in.
  - intros v w Hv Hw Hne. destruct (Hof v Hv) as (i & -> & Hi), (Hof w Hw) as (j & -> & Hj).
    destruct (decide (i < j)%nat); [left; nia|]. right. assert (j < i)%nat by (destruct (decide (i = j)); [subst; done|lia]). nia.
Qed.
End pool.
End Pool.

(** ** The collector *)
Section collector.
Context {P : Type}.

Inductive State := UNINITIALIZED | READY | DISCONNECTED | DONE.

#[export] Instance State_eq_dec : EqDecision State.
Proof. solve_decision. Defined.

Definition READY_CHAR : Z := 82.

(** "QUIT" with its terminator. *)
Definition quit_text : list Z := [81; 85; 73; 84; 0].

(** Where the consumer is: before the test of the state, in [read], about to
    swap, sending the payload of that index, or out of its loop. *)
Inductive consumer := Testing | Reading | Swapping | Sending (k : nat) | Left.

Record collector := MkCollector {
  state_ : State;
  pv : list P;
  cv : list P;
  pipe : list Z;             (** bytes written and not yet read *)
  adding : nat;              (** calls of [addPayload] that have yet to write *)
  consumer_ : consumer;
  added : list P;            (** all payloads added *)
  handled : list (P * bool); (** those the consumer went through, and whether it sent them *)
}.

(** After the constructor with a connection, and [loop]. *)
Definition collector_ready : collector := MkCollector READY [] [] [] 0 Testing [] [].

Inductive action :=
| Add (p : P)            (** [addPayload] up to the unlock *)
| Wake                   (** the write of some [addPayload] *)
| Quit                   (** the write of [quit] *)
| Become (s : State)     (** the producer loop stores a state *)
| Test | Read | Swap | Send | Clear.

(** [addPayload] up to the unlock, and its write. *)
Definition addPayload (p : P) (c : collector) : collector :=
  let '(MkCollector st pv cv pi ad co al ha) := c in
  MkCollector st (pv ++ [p]) cv pi (S ad) co (al ++ [p]) ha.

Definition addPayload_write (c : collector) : option collector :=
  let '(MkCollector st pv cv pi ad co al ha) := c in
  match ad with
  | S ad => Some (MkCollector st pv cv (pi ++ [READY_CHAR]) ad co al ha)
  | O => None
  end.

(** The write of [quit]; the terminator it triggers makes the producer loop
    store [DONE]. *)
Definition quit (c : collector) : collector :=
  let '(MkCollector st pv cv pi ad co al ha) := c in
  MkCollector st pv cv (pi ++ quit_text) ad co al ha.

(** The steps of [Consume]; [None] is not its next one. *)
Definition Consume (a : action) (c : collector) : option collector :=
  let '(MkCollector st pv cv pi ad co al ha) := c in
  match a, co with
  | Test, Testing => Some (MkCollector st pv cv pi ad (if decide (st = DONE) then Left else Reading) al ha)
  | Read, Reading =>
      match pi with
      | c :: pi => Some (MkCollector st pv cv pi ad (if decide (c ≠ READY_CHAR) then Left else Swapping) al ha)
      | [] => None
      end
  | Swap, Swapping =>
      let '(cv, pv) := (pv, cv) in
      Some (MkCollector st pv cv pi ad (match cv with [] => Testing | _ => Sending 0 end) al ha)
  | Send, Sending k =>
      match cv !! k with
      | Some p => Some (MkCollector st pv cv pi ad (Sending (S k)) al (ha ++ [(p, bool_decide (st = READY))]))
      | None => None
      end
  | Clear, Sending k =>
      if decide (k = length cv) then Some (MkCollector st pv [] pi ad Testing al ha) else None
  | _, _ => None
  end.

(** A store of the state by the producer loop. *)
Definition become (st : State) (c : collector) : collector :=
  MkCollector st (pv c) (cv c) (pipe c) (adding c) (consumer_ c) (added c) (handled c).

Definition step (a : action) (c : collector) : option collector :=
  match a with
  | Add p => Some (addPayload p c)
  | Wake => addPayload_write c
  | Quit => Some (quit c)
  | Become st => Some (become st c)
  | _ => Consume a c
  end.

Inductive reachable : collector → Prop :=
| reachable_ready : reachable collector_ready
| reachable_step c a c' : reachable c → step a c = Some c' → reachable c'.

(** The payloads the consumer has taken and not yet gone through. *)
Definition pending (c : collector) : list P := match consumer_ c with Sending k => drop k (cv c) | _ => [] end.

Definition inv (c : collector) : Prop :=
  added c = map fst (handled c) ++ pending c ++ pv c ∧
  (match consumer_ c with Sending k => (k ≤ length (cv c))%nat | _ => cv c = [] end) ∧
  (pv c ≠ [] → (0 < adding c)%nat ∨ READY_CHAR ∈ pipe c ∨ consumer_ c = Swapping ∨ consumer_ c = Left).

Lemma collector_step_inv a c c' : inv c → step a c = Some c' → inv c'.
Proof.
  destruct c as [st pv cv pi ad co al ha]. intros (Ha & Hc & Hw) Hs. unfold pending in *. cbn in Ha, Hc, Hw.
  destruct a; cbn [step addPayload addPayload_write quit become Consume pipe adding consumer_ added handled] in Hs.
  - simplify_eq. split_and!; cbn; [|done|lia]. unfold pending. cbn. by rewrite <- !app_assoc.
  - destruct ad as [|ad]; [done|]. simplify_eq. split_and!; cbn; [done|done|]. intros _. set_solver.
  - simplify_eq. split_and!; cbn; [done|done|]. intros H%Hw. set_solver.
  - simplify_eq. split_and!; cbn; done.
  - destruct co; try done. simplify_eq. case_decide; (split_and!; cbn; [done|done|]); intros H'%Hw; naive_solver.
  - destruct co; try done. destruct pi as [|b pi]; [done|]. simplify_eq. case_decide as Hb; (split_and!; cbn; [done|done|]); intros H%Hw; [by right; right; right|by right; right; left].
  - destruct co; try done. subst cv. simplify_eq. destruct pv as [|p pv]; (split_and!; cbn; [| |done]); try done; [|lia].
    unfold pending. cbn. by rewrite app_nil_r.
  - destruct co as [| | |k|]; try done. destruct (cv !! k) as [p|] eqn:E; [|done]. simplify_eq. split_and!; cbn; [|by apply lookup_lt_Some in E|naive_solver].
    unfold pending. cbn. rewrite map_app, <- app_assoc. cbn. rewrite (drop_S _ _ _ E). done.
  - destruct co as [| | |k|]; try done. case_decide as Hk; [|done]. simplify_eq. split_and!; cbn; [|done|naive_solver].
    unfold pending. cbn. by rewrite drop_all.
Qed.

Lemma collector_reachable_inv c : reachable c → inv c.
Proof. induction 1 as [|c a c' Hc IH Hs]; [split_and!; done|]. by eapply collector_step_inv. Qed.

Fixpoint exec (acts : list action) (c : collector) : option collector :=
  match acts with
  | [] => Some c
  | a :: acts => match step a c with Some c' => exec acts c' | None => None end
  end.

Lemma collector_exec_app acts1 acts2 c c' : exec acts1 c = Some c' → exec (acts1 ++ acts2) c = exec acts2 c'.
Proof.
  revert c. induction acts1 as [|a acts1 IH]; intros c H; cbn in *; [by simplify_eq|]. destruct (step a c); [|done]. by apply IH.
Qed.

Lemma collector_exec_reachable acts c c' : reachable c → exec acts c = Some c' → reachable c'.
Proof.
  revert c. induction acts as [|a acts IH]; intros c Hc H; cbn in H; [by simplify_eq|].
  destruct (step a c) as [c1|] eqn:E; [|done]. apply (IH c1); [by eapply reachable_step|done].
Qed.

Lemma exec_send st pv cv pi al ha k :
  (k ≤ length cv)%nat →
  exec (replicate (length cv - k) Send) (MkCollector st pv cv pi 0 (Sending k) al ha) =
    Some (MkCollector st pv cv pi 0 (Sending (length cv)) al (ha ++ map (λ p, (p, bool_decide (st = READY))) (drop k cv))).
Proof.
  intros Hk. remember (length cv - k)%nat as n eqn:En. revert k ha Hk En. induction n as [|n IH]; intros k ha Hk En; cbn [replicate exec].
  - rewrite drop_ge by lia. cbn [map]. rewrite app_nil_r. by replace k with (length cv) by lia.
  - destruct (lookup_lt_is_Some_2 cv k) as [p Hp]; [lia|]. cbn [step Consume]. rewrite Hp. rewrite IH by lia.
    rewrite (drop_S _ _ _ Hp). cbn [map]. by rewrite <- app_assoc.
Qed.

(** ** Properties *)

(** C34: the payloads are gone through in the order they were added and none is
    lost or repeated, whatever the interleaving of adders, the sender, state
    changes and [quit]; and while the sender has payloads to fetch, an adder
    has yet to write its byte, a byte is on the way, or the sender is about to
    swap (or it has left its loop). *)
Theorem collector_order c :
  reachable c →
  added c = map fst (handled c) ++ pending c ++ pv c ∧
  (pv c ≠ [] → (0 < adding c)%nat ∨ READY_CHAR ∈ pipe c ∨ consumer_ c = Swapping ∨ consumer_ c = Left).
Proof. intros (Ha & _ & Hw)%collector_reachable_inv. done. Qed.

(** With the connection up, every adder done and nobody quitting, the
    sender's own steps send everything that was added and not yet gone through,
    in order, and leave both vectors empty. *)
Theorem collector_delivers c :
  reachable c → consumer_ c = Testing → state_ c = READY → adding c = 0%nat → Forall (λ b, b = READY_CHAR) (pipe c) →
  ∃ acts c', Forall (λ a, a ∈ [Test; Read; Swap; Send; Clear]) acts ∧ exec acts c = Some c' ∧
    handled c' = handled c ++ map (λ p, (p, true)) (pv c) ∧ map fst (handled c') = added c' ∧ pv c' = [] ∧ cv c' = [].
Proof.
  intros (Ha & Hc & Hw)%collector_reachable_inv Hco Hst Had Hpi. destruct c as [st ps cs pi ad co al ha].
  unfold pending in Ha. cbn in *. subst st ad co cs. destruct ps as [|p ps].
  - exists [], (MkCollector READY [] [] pi 0 Testing al ha). cbn. rewrite !app_nil_r in *. split_and!; [constructor|done..].
  - destruct pi as [|b pi]; [destruct Hw as [?|[?|[?|?]]]; [done|lia|by apply not_elem_of_nil in H|done|done]|].
    apply Forall_cons in Hpi as [-> Hpi].
    exists ([Test; Read; Swap] ++ replicate (length (p :: ps) - 0) Send ++ [Clear]).
    eexists. split; [rewrite !Forall_app; split_and!; [repeat constructor; set_solver|apply Forall_replicate; set_solver|repeat constructor; set_solver]|].
    assert (exec [Test; Read; Swap] (MkCollector READY (p :: ps) [] (READY_CHAR :: pi) 0 Testing al ha) =
      Some (MkCollector READY [] (p :: ps) pi 0 (Sending 0) al ha)) as E by done.
    rewrite (collector_exec_app _ _ _ _ E). rewrite (collector_exec_app _ _ _ _ (exec_send READY [] (p :: ps) pi al ha 0 ltac:(lia))).
    cbn [exec step Consume]. rewrite decide_True by done. split; [done|]. cbn [handled pv cv added]. rewrite drop_0.
    split_and!; [done| |done|done]. rewrite Ha. rewrite map_app, map_map. cbn [fst]. by rewrite map_id.
Qed.
End collector.

Definition sample_acts : list action :=
  [Add 1; Add 2; Wake; Test; Read; Swap; Add 3; Wake; Send; Send; Clear; Wake; Test; Read; Become DISCONNECTED; Swap; Send; Clear;
   Become READY; Add 4; Wake].

Definition sample_collector : collector :=
  MkCollector READY [4] [] [READY_CHAR; READY_CHAR] 0 Testing [1; 2; 3; 4] [(1, true); (2, true); (3, false)].

Lemma sample_collector_reachable : reachable sample_collector.
Proof. apply (collector_exec_reachable sample_acts collector_ready); [constructor|reflexivity]. Qed.

Lemma collector_order_witness :
  [1; 2; 3; 4] = [1; 2; 3] ++ pending sample_collector ++ [4] ∧
  (pv sample_collector ≠ [] → (0 < adding sample_collector)%nat ∨ READY_CHAR ∈ pipe sample_collector ∨
    consumer_ sample_collector = Swapping ∨ consumer_ sample_collector = Left).
Proof. apply (collector_order sample_collector sample_collector_reachable). Defined.

Lemma collector_delivers_witness :
  ∃ acts c', Forall (λ a, a ∈ [Test; Read; Swap; Send; Clear]) acts ∧ exec acts sample_collector = Some c' ∧
    handled c' = [(1, true); (2, true); (3, false)] ++ map (λ p, (p, true)) [4] ∧ map fst (handled c') = added c' ∧ pv c' = [] ∧ cv c' = [].
Proof.
  apply (collector_delivers sample_collector sample_collector_reachable); [reflexivity..|repeat constructor].
Defined.
