(* ===== verification/DdlConv.v ===== *)
(** * string/ddl_conv.c: columns of a table as fields of a Go struct

    Each line of a table definition gives a name in camel case and a Go type.
    The line is the object [getline] filled, and pointers into it are indices. *)
From Stdlib Require Import ZArith Lia.
From stdpp Require Import base tactics numbers list.
From S2P Require Import Prelude.

Open Scope Z_scope.

Definition UNDERSCORE : Z := 95.
Definition SPACE : Z := 32.

(** One turn of the loop; it is left with a pointer that is never null. *)
Definition next_item_step (s : list Z * Z * Z) : outcome ((list Z * Z * Z) + (list Z * Z)) :=
  let '(m, i, jump) := s in
  c ← load m i;
  if decide (jump = 0 ∧ isspace c = true) then
    m ← store m i 0;
    Ret (inl (m, i + 1, 1))
  else if decide (jump > 0) then
    if isspace c then Ret (inl (m, i + 1, jump + 1)) else Ret (inr (m, i))
  else Ret (inl (m, i + 1, jump)).

Definition next_item (m : list Z) (i : Z) : outcome (list Z * Z) :=
  while_fuel (S (length m)) next_item_step (m, i, 0).

Definition key_step (m : list Z) (s : Z * option Z) : outcome ((Z * option Z) + (Z * option Z)) :=
  let '(e, d) := s in
  c ← load m e;
  if isspace c then Ret (inr (e, d))
  else Ret (inl (e + 1, if decide (c = UNDERSCORE) then Some e else d)).

Section key.
(** [memcpy] from [d + 1] to [d] in one object: when more than one byte is
    copied the two overlap, and the standard leaves the result open. *)
Context (memcpy_within : list Z → Z → Z → Z → outcome (list Z)).

Definition handle_key (m : list Z) (s : Z) : outcome (list Z) :=
  '(e, d) ← while_fuel (S (length m)) (key_step m) (s, None);
  c ← load m s;
  m ← store m s (toupper c);
  match d with
  | None => Ret m
  | Some d =>
      c ← load m (d + 1);
      if decide (c ≠ 0) then
        m ← store m (d + 1) (toupper c);
        m ← memcpy_within m d (d + 1) (e - d - 1);
        store m (e - 1) SPACE
      else Ret m
  end.

Inductive go_type := Int64 | Uint32 | Int32 | TimeTime | GoString | Interface.

(** The type, and the line with what the search for a second item wrote. *)
Definition handle_type (m : list Z) (s : Z) : outcome (list Z * go_type) :=
  c0 ← load m s;
  let c := tolower c0 in
  if decide (c = 98) then Ret (m, Int64)
  else if decide (c = 105) then
    '(m, s) ← next_item m s;
    u ← load m s;
    Ret (m, if decide (u = 117) then Uint32 else Int32)
  else if decide (c = 100 ∨ c = 116) then Ret (m, TimeTime)
  else if decide (c = 99 ∨ c = 118) then Ret (m, GoString)
  else Ret (m, Interface).

(** The text and the type that are printed. *)
Definition handle_line (m : list Z) (s : Z) : outcome (list Z * go_type) :=
  m ← handle_key m s;
  '(m, t) ← next_item m s;
  '(m, type) ← handle_type m t;
  n ← strlen m s;
  key ← load_n m s n;
  Ret (key, type).

Definition skip_step (m : list Z) (s : Z) : outcome (Z + Z) :=
  c ← load m s;
  Ret (if isspace c then inl (s + 1) else inr s).

(** One line of the program's input. *)
Definition main_line (line : list Z) : outcome (list Z * go_type) :=
  s ← while_fuel (S (length line)) (skip_step line) 0;
  handle_line line s.
End key.

(** ** The loops *)
Abbreviation blank := (λ c, isspace c = true).
Abbreviation solid := (λ c, isspace c = false).

Lemma skip_blanks sp c r fuel a :
  Forall blank sp → isspace c = false → (length sp < fuel)%nat →
  while_fuel fuel (skip_step (a ++ sp ++ c :: r)) (zlen a) = Ret (zlen a + zlen sp).
Proof.
  intros Hsp Hc. revert a fuel. induction Hsp as [|x sp Hx Hsp IH]; intros a fuel Hf; (destruct fuel as [|fuel]; [cbn in Hf; lia|]).
  - apply while_fuel_inr. unfold skip_step. cbn [app length]. rewrite load_app by done. cbind. by rewrite Hc, Z.add_0_r.
  - rewrite (while_fuel_inl _ _ _ (zlen (a ++ [x]))).
    + replace (a ++ (x :: sp) ++ c :: r) with ((a ++ [x]) ++ sp ++ c :: r) by (by rewrite <- app_assoc).
      rewrite IH by (cbn in Hf; lia). f_equal. len.
    + unfold skip_step. cbn [app]. rewrite load_app by done. cbind. rewrite Hx. do 2 f_equal. len.
Qed.

(** The blanks after an item. *)
Lemma item_blanks ws c r a jump fuel :
  Forall blank ws → isspace c = false → 0 < jump → (length ws < fuel)%nat →
  while_fuel fuel next_item_step (a ++ ws ++ c :: r, zlen a, jump) = Ret (a ++ ws ++ c :: r, zlen a + zlen ws).
Proof.
  intros Hws Hc. revert a jump fuel. induction Hws as [|x ws Hx Hws IH]; intros a jump fuel Hj Hf; (destruct fuel as [|fuel]; [cbn in Hf; lia|]).
  - apply while_fuel_inr. unfold next_item_step. cbn [app length]. rewrite load_app by done. cbind. rewrite Hc.
    rewrite decide_False by (intros []; lia). rewrite decide_True by lia. by rewrite Z.add_0_r.
  - replace (a ++ (x :: ws) ++ c :: r) with ((a ++ [x]) ++ ws ++ c :: r) by (by rewrite <- app_assoc).
    rewrite (while_fuel_inl _ _ _ ((a ++ [x]) ++ ws ++ c :: r, zlen (a ++ [x]), jump + 1)).
    + rewrite IH by (cbn in Hf; lia). do 2 f_equal. len.
    + unfold next_item_step. rewrite <- app_assoc. cbn [app]. rewrite load_app by done. cbind. rewrite Hx.
      rewrite decide_False by (intros []; lia). rewrite decide_True by lia. do 3 f_equal. f_equal. len.
Qed.

(** The first item is ended, and the next one is found. *)
Lemma next_item_spec a w x ws c r :
  Forall solid w → isspace x = true → Forall blank ws → isspace c = false →
  next_item (a ++ w ++ x :: ws ++ c :: r) (zlen a) =
    Ret (a ++ w ++ 0 :: ws ++ c :: r, zlen a + zlen w + 1 + zlen ws).
Proof.
  intros Hw Hx Hws Hc. unfold next_item.
  assert (∀ fuel a, (length w + S (length ws) < fuel)%nat →
    while_fuel fuel next_item_step (a ++ w ++ x :: ws ++ c :: r, zlen a, 0) =
      Ret (a ++ w ++ 0 :: ws ++ c :: r, zlen a + zlen w + 1 + zlen ws)) as Hl; [|apply Hl; len].
  clear a. induction Hw as [|y w Hy Hw IH]; intros fuel a Hf; (destruct fuel as [|fuel]; [cbn in Hf; lia|]).
  - cbn [app]. rewrite (while_fuel_inl _ _ _ ((a ++ [0]) ++ ws ++ c :: r, zlen (a ++ [0]), 1)).
    + rewrite item_blanks; [|done|done|lia|cbn in Hf; lia]. rewrite <- app_assoc. cbn [app length]. do 2 f_equal. len.
    + unfold next_item_step. rewrite load_app by done. cbind. rewrite decide_True by done. rewrite store_app by done. cbind.
      rewrite <- app_assoc. cbn [app]. do 3 f_equal. f_equal. len.
  - replace (a ++ (y :: w) ++ x :: ws ++ c :: r) with ((a ++ [y]) ++ w ++ x :: ws ++ c :: r) by (by rewrite <- app_assoc).
    rewrite (while_fuel_inl _ _ _ ((a ++ [y]) ++ w ++ x :: ws ++ c :: r, zlen (a ++ [y]), 0)).
    + rewrite IH by (cbn in Hf; lia). rewrite <- app_assoc. cbn [app length]. do 2 f_equal. len.
    + unfold next_item_step. rewrite <- app_assoc. cbn [app]. rewrite load_app by done. cbind. rewrite Hy.
      rewrite decide_False by (intros []; done). rewrite decide_False by lia. do 3 f_equal. f_equal. len.
Qed.

(** ** The key *)
Fixpoint last_underscore (i : Z) (k : list Z) (d : option Z) : option Z :=
  match k with
  | [] => d
  | c :: k => last_underscore (i + 1) k (if decide (c = UNDERSCORE) then Some i else d)
  end.

Lemma key_loop k x r a d fuel :
  Forall solid k → isspace x = true → (length k < fuel)%nat →
  while_fuel fuel (key_step (a ++ k ++ x :: r)) (zlen a, d) = Ret (zlen a + zlen k, last_underscore (zlen a) k d).
Proof.
  intros Hk Hx. revert a d fuel. induction Hk as [|c k Hc Hk IH]; intros a d fuel Hf; (destruct fuel as [|fuel]; [cbn in Hf; lia|]).
  - apply while_fuel_inr. unfold key_step. cbn [app length last_underscore]. rewrite load_app by done. cbind. by rewrite Hx, Z.add_0_r.
  - replace (a ++ (c :: k) ++ x :: r) with ((a ++ [c]) ++ k ++ x :: r) by (by rewrite <- app_assoc).
    rewrite (while_fuel_inl _ _ _ (zlen (a ++ [c]), if decide (c = UNDERSCORE) then Some (zlen a) else d)).
    + rewrite IH by (cbn in Hf; lia). cbn [last_underscore]. f_equal. replace (zlen (a ++ [c])) with (zlen a + 1) by len. f_equal. len.
    + unfold key_step. rewrite <- app_assoc. cbn [app]. rewrite load_app by done. cbind. rewrite Hc. do 3 f_equal. len.
Qed.

Lemma last_underscore_none i k d : UNDERSCORE ∉ k → last_underscore i k d = d.
Proof.
  revert i d. induction k as [|c k IH]; intros i d Hn; [done|]. apply not_elem_of_cons in Hn as [Hc Hn]. cbn.
  rewrite decide_False by done. by apply IH.
Qed.

Lemma last_underscore_at i k1 rest d :
  UNDERSCORE ∉ rest → last_underscore i (k1 ++ UNDERSCORE :: rest) d = Some (i + zlen k1).
Proof.
  intros Hn. revert i d. induction k1 as [|c k1 IH]; intros i d; cbn [app last_underscore length].
  - rewrite decide_True by done. rewrite last_underscore_none by done. f_equal. lia.
  - rewrite IH. f_equal. lia.
Qed.

(** The first character in upper case. *)
Definition capital (k : list Z) : list Z := match k with [] => [] | c :: k => toupper c :: k end.

(** The key up to its last underscore, and what follows it. *)
Definition camel (k1 : list Z) (rest : option (list Z)) : list Z :=
  match rest with None => capital k1 | Some rest => capital k1 ++ capital rest end.

Definition key_text (k1 : list Z) (rest : option (list Z)) : list Z :=
  match rest with None => k1 | Some rest => k1 ++ UNDERSCORE :: rest end.

Definition key_ok (k1 : list Z) (rest : option (list Z)) : Prop :=
  key_text k1 rest ≠ [] ∧ Forall solid (key_text k1 rest) ∧ Forall (λ c, c ≠ 0) (key_text k1 rest) ∧
  UNDERSCORE ∉ default k1 rest.

Lemma toupper_nonzero c : c ≠ 0 → toupper c ≠ 0.
Proof. unfold toupper. case_decide; lia. Qed.

Lemma toupper_solid c : isspace c = false → isspace (toupper c) = false.
Proof. unfold toupper, isspace. rewrite !bool_decide_eq_false. case_decide; lia. Qed.

Lemma capital_Forall (Q : Z → Prop) k : (∀ c, Q c → Q (toupper c)) → Forall Q k → Forall Q (capital k).
Proof. intros H Hk. destruct Hk; cbn; [constructor|constructor; auto]. Qed.

Lemma capital_length k : length (capital k) = length k.
Proof. by destruct k. Qed.

Lemma snoc_list {A} (x : A) l : ∃ B y, x :: l = B ++ [y].
Proof. destruct (exists_last (l := x :: l)) as (B & y & E); [done|]. eauto. Qed.

Ltac apply_capital H :=
  repeat match goal with |- _ ∧ _ => split end; (apply capital_Forall; [exact H|tauto]).

Section converted.
Context (memcpy_within : list Z → Z → Z → Z → outcome (list Z)).
Context (Hcopy : ∀ m d n, memcpy_within m d (d + 1) n = memmove m d (d + 1) n).

Lemma drop_underscore b rest x r :
  Forall (λ c, c ≠ 0) rest → isspace x = true →
  (c ← load (b ++ UNDERSCORE :: rest ++ x :: r) (zlen b + 1);
   if decide (c ≠ 0) then
     m ← store (b ++ UNDERSCORE :: rest ++ x :: r) (zlen b + 1) (toupper c);
     m ← memcpy_within m (zlen b) (zlen b + 1) (zlen b + zlen (UNDERSCORE :: rest) - zlen b - 1);
     store m (zlen b + zlen (UNDERSCORE :: rest) - 1) SPACE
   else Ret (b ++ UNDERSCORE :: rest ++ x :: r)) = Ret (b ++ capital rest ++ SPACE :: x :: r).
Proof.
  intros Hz Hx. assert (∃ c q, rest ++ x :: r = c :: q ∧ c ≠ 0 ∧ toupper c :: q = capital rest ++ x :: r) as (c & q & Eq & Hc & Eq').
  { destruct Hz as [|c rest Hc Hz]; [|by exists c, (rest ++ x :: r)]. exists x, r. split_and!; [done|intros ->; done|].
    cbn. f_equal. revert Hx. unfold isspace, toupper. rewrite bool_decide_eq_true. intros. by rewrite decide_False by lia. }
  rewrite Eq. replace (b ++ UNDERSCORE :: c :: q) with ((b ++ [UNDERSCORE]) ++ c :: q) by (by rewrite <- app_assoc).
  rewrite load_app by len. cbind. rewrite decide_True by done. rewrite store_app by len. cbind. rewrite Eq', Hcopy.
  replace (zlen b + zlen (UNDERSCORE :: rest) - zlen b - 1) with (zlen (capital rest)) by (rewrite capital_length; len).
  unfold memmove. rewrite load_n_app by len. cbind. rewrite <- app_assoc. cbn [app].
  destruct (snoc_list UNDERSCORE (capital rest)) as (B & y & EB). change (UNDERSCORE :: ?l ++ ?t) with ((UNDERSCORE :: l) ++ t).
  rewrite EB, <- app_assoc. apply (f_equal length) in EB as EBl. revert EBl. cbn [length]. rewrite length_app. cbn [length]. intros EBl.
  rewrite store_n_app by (done || lia). cbind. cbn [app].
  replace (b ++ capital rest ++ y :: x :: r) with ((b ++ capital rest) ++ y :: x :: r) by (by rewrite <- app_assoc).
  rewrite store_app by (rewrite length_app, capital_length; cbn [length]; lia). by rewrite <- app_assoc.
Qed.

(** With the bytes moved as intended, the key loses its last underscore. *)
Lemma handle_key_spec a k1 rest x r :
  key_ok k1 rest → isspace x = true →
  handle_key memcpy_within (a ++ key_text k1 rest ++ x :: r) (zlen a) =
    Ret (a ++ camel k1 rest ++ (match rest with None => [] | Some _ => [SPACE] end) ++ x :: r).
Proof.
  intros (Hne & Hs & Hz & Hu) Hx. unfold handle_key. rewrite key_loop by (done || len). cbind.
  destruct rest as [rest|]; cbn [key_text camel default Datatypes.id] in *.
  - rewrite last_underscore_at by done. apply Forall_app in Hz as [_ [_ Hz]%Forall_cons].
    assert (∃ c q, (k1 ++ UNDERSCORE :: rest) ++ x :: r = c :: q ∧ toupper c :: q = capital k1 ++ UNDERSCORE :: rest ++ x :: r) as (c & q & Eq & Eq').
    { destruct k1 as [|c k1]; [by exists UNDERSCORE, (rest ++ x :: r)|]. exists c, (k1 ++ UNDERSCORE :: rest ++ x :: r).
      cbn. by rewrite <- app_assoc. }
    rewrite Eq, load_app by done. cbind. rewrite store_app by done. cbind. rewrite Eq'.
    pose proof (drop_underscore (a ++ capital k1) rest x r Hz Hx) as E.
    rewrite length_app, capital_length, Nat2Z.inj_add, <- !app_assoc in E.
    rewrite length_app, Nat2Z.inj_add, Z.add_assoc. rewrite E. by rewrite <- !app_assoc.
  - rewrite last_underscore_none by done. destruct k1 as [|c k1]; [done|]. cbn [app capital].
    rewrite load_app by done. cbind. by rewrite store_app by done.
Qed.

(** The type of a column by the first letters of its type and of what follows
    that, as the code reads them. *)
Definition column_type (t u : Z) : go_type :=
  let c := tolower t in
  if decide (c = 98) then Int64
  else if decide (c = 105) then (if decide (u = 117) then Uint32 else Int32)
  else if decide (c = 100 ∨ c = 116) then TimeTime
  else if decide (c = 99 ∨ c = 118) then GoString
  else Interface.

(** The type of a column and what follows it: a word, blanks, and the first
    character [u] of the next item, which may be the terminator. *)
Definition type_text (ty : list Z) (t u : Z) : Prop :=
  ∃ w y ws r, ty = (t :: w) ++ y :: ws ++ u :: r ∧ Forall solid (t :: w) ∧ isspace y = true ∧ Forall blank ws ∧ isspace u = false.

Lemma handle_type_spec b ty t u :
  type_text ty t u → ∃ ty', handle_type (b ++ ty) (zlen b) = Ret (b ++ ty', column_type t u).
Proof.
  intros (w & y & ws & r & -> & Hw & Hy & Hws & Hu). unfold handle_type, column_type. cbn [app]. rewrite load_app by done. cbind.
  case_decide; [eauto|]. case_decide.
  - pose proof (next_item_spec b (t :: w) y ws u r Hw Hy Hws Hu) as E. cbn [app] in E. rewrite E. cbind.
    rewrite cons_middle, app_comm_cons, !app_assoc, load_app by len. cbind. rewrite <- !app_assoc. eauto.
  - case_decide; [eauto|]. case_decide; eauto.
Qed.

(** A column "key type ..." is converted: the key's first letter and the
    letter after its last underscore in upper case, that underscore dropped,
    and the Go type of the column by the first letters of its type ([memcpy]
    moving overlapping bytes as intended). *)
Theorem column_converted sp k1 rest x ws ty t u :
  Forall blank sp → key_ok k1 rest → isspace x = true → Forall blank ws → type_text ty t u →
  main_line memcpy_within (sp ++ key_text k1 rest ++ x :: ws ++ ty) = Ret (camel k1 rest, column_type t u).
Proof.
  intros Hsp Hk Hx Hws Hty. pose proof Hk as (Hne & Hs & Hz & _). unfold main_line.
  assert (∃ c q, key_text k1 rest = c :: q ∧ isspace c = false) as (c & q & Ec & Hc).
  { destruct (key_text k1 rest) as [|c q]; [done|]. apply Forall_cons in Hs. exists c, q. tauto. }
  assert (∀ r fuel, (length sp < fuel)%nat → while_fuel fuel (skip_step (sp ++ key_text k1 rest ++ r)) 0 = Ret (zlen sp)) as Hskip.
  { intros r fuel Hf. rewrite Ec. cbn [app]. apply (skip_blanks sp c (q ++ r) fuel [] Hsp Hc Hf). }
  rewrite Hskip by len. cbind. unfold handle_line. rewrite handle_key_spec by done. cbind.
  assert (Forall solid (camel k1 rest) ∧ Forall (λ c, c ≠ 0) (camel k1 rest)) as [Hcs Hcz].
  { destruct rest as [rest|]; cbn [key_text camel] in *; rewrite ?Forall_app, ?Forall_cons in *;
      (split; [apply_capital toupper_solid|apply_capital toupper_nonzero]). }
  assert (∃ y ys, (match rest with None => [] | Some _ => [SPACE] end) ++ x :: ws = y :: ys ∧ isspace y = true ∧ Forall blank ys) as (y & ys & Ey & Hy & Hys).
  { destruct rest; [exists SPACE, (x :: ws)|exists x, ws]; (split_and!; [done|done|]); [by constructor|done]. }
  pose proof Hty as (w & z & ws2 & r2 & Ety & [Ht _]%Forall_cons & _).
  replace (_ ++ x :: ws ++ ty) with (y :: ys ++ ty) by (rewrite app_comm_cons, <- Ey, <- app_assoc; done).
  rewrite Ety. cbn [app]. rewrite next_item_spec by done. cbind.
  destruct (handle_type_spec (sp ++ camel k1 rest ++ 0 :: ys) ty t u Hty) as [ty' E]. rewrite Ety in E. cbn [app] in E.
  replace (zlen (sp ++ camel k1 rest ++ 0 :: ys)) with (zlen sp + zlen (camel k1 rest) + 1 + zlen ys) in E by len.
  rewrite <- !app_assoc in E. cbn [app] in E. rewrite E. cbind.
  rewrite (strlen_app sp (camel k1 rest)) by done. cbind. rewrite load_n_app by done. done.
Qed.
End converted.

(** A scan that meets no blank leaves the object. *)
Lemma key_overrun k a d fuel :
  Forall solid k → (length k < fuel)%nat → while_fuel fuel (key_step (a ++ k)) (zlen a, d) = Undef.
Proof.
  intros Hk. revert a d fuel. induction Hk as [|c k Hc Hk IH]; intros a d fuel Hf; (destruct fuel as [|fuel]; [cbn in Hf; lia|]).
  - rewrite app_nil_r, while_fuel_S.
    assert (key_step a (zlen a, d) = Undef) as -> by (unfold key_step; by rewrite load_out by lia). done.
  - replace (a ++ c :: k) with ((a ++ [c]) ++ k) by (by rewrite <- app_assoc).
    rewrite (while_fuel_inl _ _ _ (zlen (a ++ [c]), if decide (c = UNDERSCORE) then Some (zlen a) else d)).
    + apply IH. cbn in Hf. lia.
    + unfold key_step. rewrite <- app_assoc. cbn [app]. rewrite load_app by done. cbind. rewrite Hc. do 3 f_equal. len.
Qed.

(** A line with no blank after its first item's start (an empty line, or a
    last line of one word that does not end in a newline) makes the scan for
    the end of the key run past the terminator and out of the line. *)
Theorem line_overrun memcpy_within sp k :
  Forall blank sp → Forall solid k → main_line memcpy_within (sp ++ k ++ [0]) = Undef.
Proof.
  intros Hsp Hk. unfold main_line.
  assert (while_fuel (S (length (sp ++ k ++ [0]))) (skip_step (sp ++ k ++ [0])) 0 = Ret (zlen sp)) as ->.
  { destruct k as [|c k]; cbn [app].
    - apply (skip_blanks sp 0 [] _ [] Hsp eq_refl). len.
    - apply Forall_cons in Hk as [Hc _]. apply (skip_blanks sp c (k ++ [0]) _ [] Hsp Hc). len. }
  cbind. unfold handle_line, handle_key.
  rewrite key_overrun; [done| |len]. apply Forall_app. split; [done|by repeat constructor].
Qed.

(** "  user_first_name int(11)  unsigned\n" *)
Lemma column_converted_witness :
  main_line memmove ([32; 32] ++ ([117; 115; 101; 114; 95; 102] ++ 95 :: [110; 97]) ++ 32 :: [] ++
    ([105; 110; 116] ++ 32 :: [32] ++ 117 :: [110; 10; 0])) =
  Ret ([85; 115; 101; 114; 95; 102; 78; 97], Uint32).
Proof.
  apply (column_converted memmove (λ m d n, eq_refl) [32; 32] [117; 115; 101; 114; 95; 102] (Some [110; 97]) 32 []
    ([105; 110; 116] ++ 32 :: [32] ++ 117 :: [110; 10; 0]) 105 117).
  - by_eval.
  - by_eval.
  - reflexivity.
  - constructor.
  - exists [110; 116], 32, [32], [110; 10; 0]. split; [reflexivity|]. by_eval.
Defined.

Lemma line_overrun_witness : main_line memmove ([10] ++ [] ++ [0]) = Undef.
Proof. apply (line_overrun memmove [10] []); by_eval. Defined.
