(* ===== verification/WeightCodec.v ===== *)
(** * socket/codec.h, codec.cpp and io/notifier.h: weights as records and text

    A reading is parsed from text, packed into 96 bits, printed as JSON, and a
    subscriber takes the weight out of the JSON again.  C strings are the lists
    of their characters. *)
From Stdlib Require Import ZArith Lia.
From stdpp Require Import base tactics numbers list.
From S2P Require Import Prelude.

Open Scope Z_scope.

(** ** Decimal text of the C library *)
Fixpoint dec_loop (fuel : nat) (n : Z) : list Z :=
  match fuel with
  | O => []
  | S fuel => if decide (n < 10) then [48 + n] else dec_loop fuel (n / 10) ++ [48 + n mod 10]
  end.

(** "%u" and "%d": twenty digits are enough for 64 bits. *)
Definition fmt_u (n : Z) : list Z := dec_loop 20 n.
Definition fmt_d (n : Z) : list Z := if decide (n < 0) then 45 :: fmt_u (- n) else fmt_u n.

Definition is_digit (c : Z) : bool := bool_decide (48 ≤ c ≤ 57).

Fixpoint digits_value (acc : Z) (s : list Z) : Z :=
  match s with
  | d :: s => if is_digit d then digits_value (10 * acc + (d - 48)) s else acc
  | [] => acc
  end.

(** The digits at the front, and what follows. *)
Fixpoint span_digits (s : list Z) : list Z * list Z :=
  match s with
  | c :: s' => if is_digit c then let '(d, r) := span_digits s' in (c :: d, r) else ([], s)
  | [] => ([], [])
  end.

Fixpoint skip_spaces (s : list Z) : list Z :=
  match s with
  | c :: s' => if isspace c then skip_spaces s' else s
  | [] => []
  end.

(** The value of the digits after blanks and a sign. *)
Definition parse_int (s : list Z) : Z :=
  match skip_spaces s with
  | 45 :: s => - digits_value 0 s
  | 43 :: s => digits_value 0 s
  | s => digits_value 0 s
  end.

(** [atoi]: a value that is no [int] is undefined. *)
Definition atoi (s : list Z) : outcome Z := int_result (parse_int s).

(** [strtoull]: a magnitude that does not fit gives the maximum. *)
Definition strtoull (s : list Z) : Z :=
  if decide (Z.abs (parse_int s) > 18446744073709551615) then 18446744073709551615
  else wrap 64 (parse_int s).

(** What follows the first, and the last, [c] in a string. *)
Fixpoint after_first (c : Z) (s : list Z) : option (list Z) :=
  match s with
  | [] => None
  | x :: s => if decide (x = c) then Some s else after_first c s
  end.

Fixpoint after_last (c : Z) (s : list Z) : option (list Z) :=
  match s with
  | [] => None
  | x :: s =>
      match after_last c s with
      | Some r => Some r
      | None => if decide (x = c) then Some s else None
      end
  end.

(** ** The record *)
Definition ERROR_OFFSET : Z := 56.
Definition IP_OFFSET : Z := 48.
Definition WEIGHT_OFFSET : Z := 32.
Definition IP_MASK : Z := 0xff.
Definition WEIGHT_MASK : Z := 0xffff.
Definition BLOCK_MASK : Z := 0xffffffff.

Record Data := MkData { a_ : Z; b_ : Z }.

Record Input := MkInput { error : Z; ip : Z; weight : Z; block : Z; serial : Z }.

Definition Input_new : Input := MkInput 0 0 0 0 0.

Definition DOT : Z := 46.
Definition SEP : Z := 64.
Definition BAD : list Z := [45; 54; 53; 53; 51; 53].
Definition BAD_LEN : nat := 6.

Definition parseIp (data : list Z) (i : Input) : outcome Input :=
  match after_last DOT data with
  | Some r => v ← atoi r; Ret (MkInput (error i) (Z.land v IP_MASK) (weight i) (block i) (serial i))
  | None => Ret i
  end.

Definition parseWeight (data : list Z) (i : Input) : outcome Input :=
  match after_last SEP data with
  | Some r =>
      if decide (take BAD_LEN r = BAD) then Ret (MkInput 1 (ip i) WEIGHT_MASK (block i) (serial i))
      else v ← atoi r; Ret (MkInput (error i) (ip i) (Z.land v WEIGHT_MASK) (block i) (serial i))
  | None => Ret i
  end.

Definition parseBlock (data : list Z) (i : Input) : outcome Input :=
  match after_first SEP data with
  | Some r => v ← atoi r; Ret (MkInput (error i) (ip i) (weight i) (u32 v) (serial i))
  | None => Ret i
  end.

Definition parseSerial (data : list Z) (i : Input) : Input :=
  MkInput (error i) (ip i) (weight i) (block i) (u32 (strtoull data)).

Definition Encode (i : Input) : Data :=
  let x := 0 in
  let x := Z.lor x (Z.shiftl (error i) ERROR_OFFSET) in
  let x := Z.lor x (Z.shiftl (ip i) IP_OFFSET) in
  let x := Z.lor x (Z.shiftl (weight i) WEIGHT_OFFSET) in
  let x := Z.lor x (block i) in
  MkData (serial i) x.

(** ** The text *)
Definition cs : list Z := [48; 49; 50; 51; 52; 53; 54; 55; 56; 57; 65; 66; 67; 68; 69; 70].

(** The loop over the four bytes, the low one first, from the end of the text
    down. *)
Definition i2s_byte (b : Z) (s : Z * list Z) : outcome (Z * list Z) :=
  let '(p, buf) := s in
  lo ← load cs (Z.land b 0xf);
  buf ← store buf p lo;
  hi ← load cs (Z.land (Z.shiftr b 4) 0xf);
  buf ← store buf (p - 1) hi;
  Ret (p - 2, buf).

Definition i2s (x : Z) (buf : list Z) : outcome (list Z) :=
  buf ← store buf 8 0;
  s ← i2s_byte (u8 x) (7, buf);
  s ← i2s_byte (u8 (Z.shiftr x 8)) s;
  s ← i2s_byte (u8 (Z.shiftr x 16)) s;
  '(_, buf) ← i2s_byte (u8 (Z.shiftr x 24)) s;
  c_string buf.

Definition RetrieveTopic (x : Z) : list Z := fmt_u (u8 (Z.shiftr x IP_OFFSET)).

Record Output := MkOutput { payload : list Z; topic : list Z }.

Definition NONE : list Z := [78; 79; 78; 69].

(** The four pieces of the pattern around its values, and its end. *)
Definition p_serial : list Z := [123; 34; 115; 101; 114; 105; 97; 108; 34; 58].
Definition p_topic : list Z := [44; 34; 116; 111; 112; 105; 99; 34; 58; 34].
Definition p_weight : list Z := [34; 44; 34; 119; 101; 105; 103; 104; 116; 34; 58].
Definition p_id : list Z := [44; 34; 105; 100; 34; 58; 34].
Definition p_end : list Z := [34; 125].

Definition PATTERN (serial : Z) (topic : list Z) (weight : Z) (id : list Z) : list Z :=
  p_serial ++ fmt_u serial ++ p_topic ++ topic ++ p_weight ++ fmt_d weight ++ p_id ++ id ++ p_end.

(** [buf] is the array of 64 characters, [ibuf] the one of [i2s]. *)
Definition load_ (buf ibuf : list Z) (data : Data) : outcome Output :=
  let x := b_ data in
  let error := u8 (Z.shiftr x ERROR_OFFSET) in
  let block := Z.land x BLOCK_MASK in
  let topic := RetrieveTopic x in
  w ← (if decide (error ≠ 0) then atoi BAD else Ret (s16 (Z.land (Z.shiftr x WEIGHT_OFFSET) WEIGHT_MASK)));
  id ← (if decide (block ≠ 0) then i2s (Z.land x BLOCK_MASK) ibuf else Ret NONE);
  '(_, buf) ← sprintf buf 0 (PATTERN (a_ data) topic w id);
  s ← c_string buf;
  Ret (MkOutput s topic).

Definition Decode (buf ibuf : list Z) (x : Data) : outcome Output := load_ buf ibuf x.

(** ** io/notifier.h: the weight out of the text *)
Fixpoint find (c : Z) (s : list Z) (k : nat) : option nat :=
  match s with
  | [] => None
  | x :: s => if decide (x = c) then Some k else find c s (S k)
  end.

(** [json.find(c, k)] *)
Definition find_from (c : Z) (s : list Z) (k : nat) : option nat := find c (drop k s) k.

(** What is left of the string; the length given to [substr] wraps around when
    the comma comes before the colon, and then all the rest is taken. *)
Definition j2s (json : list Z) : list Z :=
  match find_from 119 json 0 with
  | None => json
  | Some k =>
      match find_from 58 json k, find_from 44 json k with
      | Some i, Some j => if decide (i + 1 ≤ j)%nat then take (j - (i + 1)) (drop (i + 1) json) else drop (i + 1) json
      | _, _ => json
      end
  end.

(** ** Decimal digits *)
Definition digits (s : list Z) : Prop := Forall (λ c, 48 ≤ c ≤ 57) s.

Lemma dec_loop_digits f n : 0 ≤ n → digits (dec_loop f n).
Proof.
  revert n. induction f as [|f IH]; intros n Hn; cbn [dec_loop]; [constructor|]. case_decide.
  - constructor; [lia|constructor].
  - apply Forall_app. split; [apply IH, Z.div_pos; lia|]. constructor; [mlia|constructor].
Qed.

Lemma dec_loop_value f n acc r :
  0 ≤ n < 10 ^ Z.of_nat f → (0 < f)%nat → digits_value acc (dec_loop f n ++ r) = digits_value (acc * 10 ^ zlen (dec_loop f n) + n) r.
Proof.
  revert n acc r. induction f as [|f IH]; intros n acc r Hn Hf; [lia|]. cbn [dec_loop]. case_decide as Hd.
  - cbn [app length digits_value]. unfold is_digit. rewrite bool_decide_true by lia. f_equal. lia.
  - rewrite Nat2Z.inj_succ, Z.pow_succ_r in Hn by lia. rewrite <- app_assoc.
    destruct f as [|f]; [cbn in Hn; lia|]. rewrite IH by (try lia; mlia). cbn [app digits_value].
    unfold is_digit. rewrite bool_decide_true by mlia. f_equal. rewrite length_app. cbn [length].
    rewrite Nat2Z.inj_add, Z.pow_add_r by lia. change (10 ^ Z.of_nat 1) with 10. mlia.
Qed.

(** What follows a number. *)
Definition no_digit (r : list Z) : Prop := match r with [] => True | c :: _ => is_digit c = false end.

Lemma span_digits_app d r : digits d → no_digit r → span_digits (d ++ r) = (d, r).
Proof.
  induction 1 as [|c d Hc Hd IH]; intros Hr; cbn [app span_digits].
  - destruct r as [|c r]; [done|]. cbn. by rewrite Hr.
  - unfold is_digit at 1. rewrite bool_decide_true by done. by rewrite IH.
Qed.

Lemma fmt_u_nonempty n : 0 ≤ n → ∃ c s, fmt_u n = c :: s ∧ 48 ≤ c ≤ 57.
Proof.
  intros Hn. pose proof (dec_loop_digits 20 n Hn) as Hd. unfold fmt_u. destruct (dec_loop 20 n) as [|c s] eqn:E.
  - exfalso. revert E. cbn [dec_loop]. case_decide; [done|]. by intros []%app_eq_nil.
  - apply Forall_cons in Hd. exists c, s. tauto.
Qed.

Lemma parse_fmt_d n r : -18446744073709551615 ≤ n ≤ 18446744073709551615 → no_digit r → parse_int (fmt_d n ++ r) = n.
Proof.
  intros Hn Hr.
  assert (∀ m, 0 ≤ m ≤ 18446744073709551615 → digits_value 0 (fmt_u m ++ r) = m) as Hv.
  { intros m Hm. unfold fmt_u. rewrite dec_loop_value by (try lia; cbn; lia). rewrite Z.mul_0_l, Z.add_0_l.
    destruct r as [|c r]; [done|]. cbn [digits_value]. by rewrite Hr. }
  unfold parse_int, fmt_d. case_decide as Hs.
  - cbn [app skip_spaces]. change (isspace 45) with false. cbn match. rewrite Hv by lia. lia.
  - destruct (fmt_u_nonempty n ltac:(lia)) as (c & s & E & Hc). specialize (Hv n ltac:(lia)). rewrite E in *.
    cbn [app skip_spaces] in *. assert (isspace c = false) as -> by (unfold isspace; rewrite bool_decide_eq_false; lia).
    etrans; [|exact Hv]. destruct c as [|c|]; [lia| |lia].
    do 7 (destruct c as [c|c|]; try lia; try reflexivity).
Qed.

(** ** The packed word *)
Definition input_ok (i : Input) : Prop :=
  is_byte (error i) ∧ is_byte (ip i) ∧ 0 ≤ weight i < 65536 ∧ 0 ≤ block i < 4294967296 ∧ 0 ≤ serial i < 4294967296.

Lemma Encode_sum i : input_ok i →
  b_ (Encode i) = error i * 72057594037927936 + ip i * 281474976710656 + weight i * 4294967296 + block i.
Proof.
  intros (He & Hi & Hw & Hb & _). unfold is_byte in *. unfold Encode, ERROR_OFFSET, IP_OFFSET, WEIGHT_OFFSET. cbn [b_].
  rewrite Z.lor_0_l, !Z.shiftl_mul_pow2 by lia. rewrite (lor_disjoint 56) by (eval_pow; lia).
  replace (error i * 2 ^ 56 + ip i * 2 ^ 48) with ((error i * 256 + ip i) * 2 ^ 48) by (eval_pow; lia).
  rewrite (lor_disjoint 48) by (eval_pow; lia).
  replace ((error i * 256 + ip i) * 2 ^ 48 + weight i * 2 ^ 32) with (((error i * 256 + ip i) * 65536 + weight i) * 2 ^ 32) by (eval_pow; lia).
  rewrite (lor_disjoint 32) by (eval_pow; lia). eval_pow. lia.
Qed.

(** The fields are found again. *)
Lemma Encode_fields i (x := b_ (Encode i)) : input_ok i →
  u8 (Z.shiftr x ERROR_OFFSET) = error i ∧ u8 (Z.shiftr x IP_OFFSET) = ip i ∧
  Z.land (Z.shiftr x WEIGHT_OFFSET) WEIGHT_MASK = weight i ∧ Z.land x BLOCK_MASK = block i.
Proof.
  intros Hi. pose proof (Encode_sum i Hi) as E. fold x in E. destruct Hi as (He & Hi & Hw & Hb & _). unfold is_byte in *.
  unfold u8, ERROR_OFFSET, IP_OFFSET, WEIGHT_OFFSET, WEIGHT_MASK, BLOCK_MASK.
  change 0xffff with (2 ^ 16 - 1). change 0xffffffff with (2 ^ 32 - 1). rewrite !land_mask, !Z.shiftr_div_pow2 by lia. eval_pow.
  rewrite E. clear E x. split_and!; mlia.
Qed.

(** ** The text of a record *)
Definition hex8 (x : Z) : list Z :=
  map (λ k, hex_upper (x / 2 ^ (4 * k) mod 16)) [7; 6; 5; 4; 3; 2; 1; 0].

Lemma load_cs d : 0 ≤ d < 16 → load cs d = Ret (hex_upper d).
Proof. revert d. apply (range_all _). by vm_compute. Qed.

Lemma hex_upper_char d : 0 ≤ d < 16 → is_char (hex_upper d).
Proof. unfold hex_upper, is_char. case_decide; lia. Qed.

Lemma hex8_char x : Forall is_char (hex8 x).
Proof. unfold hex8. apply Forall_map. repeat constructor; apply hex_upper_char; apply Z.mod_pos_bound; lia. Qed.

Lemma i2s_byte_spec b p buf lo hi :
  is_byte b → hi = hex_upper (b / 16) → lo = hex_upper (b mod 16) → 1 ≤ p < zlen buf →
  i2s_byte b (p, buf) = Ret (p - 2, <[Z.to_nat (p - 1) := hi]> (<[Z.to_nat p := lo]> buf)).
Proof.
  intros Hb -> -> Hp. unfold is_byte in Hb. unfold i2s_byte. change 0xf with (2 ^ 4 - 1). rewrite !land_mask by lia.
  rewrite Z.shiftr_div_pow2 by lia. change (2 ^ 4) with 16. rewrite (Z.mod_small (b / 16)) by mlia.
  rewrite (load_cs (b mod 16)) by mlia. cbind. rewrite store_in by lia. cbind. rewrite (load_cs (b / 16)) by mlia. cbind.
  rewrite store_in by (rewrite length_insert; lia). done.
Qed.

Definition hex2 (b : Z) : list Z := [hex_upper (b / 16); hex_upper (b mod 16)].

Lemma hex8_bytes x :
  hex8 x = hex2 (u8 (x / 2 ^ 24)) ++ hex2 (u8 (x / 2 ^ 16)) ++ hex2 (u8 (x / 2 ^ 8)) ++ hex2 (u8 x).
Proof.
  unfold hex8, hex2, u8. cbn [map app]. eval_pow. repeat (f_equal; [f_equal; mlia|]). f_equal. f_equal. mlia.
Qed.

Lemma i2s_spec x buf : 0 ≤ x < 4294967296 → length buf = 16%nat → i2s x buf = Ret (hex8 x).
Proof.
  intros Hx Hl. unfold i2s. open_buffer 16 buf.
  match goal with |- context [store ?b 8 0] => change (store b 8 0) with (Ret (<[8%nat := 0]> b)) end. cbind.
  cbn [insert list_insert].
  rewrite !Z.shiftr_div_pow2 by lia.
  rewrite (i2s_byte_spec (u8 x) 7 _ _ _ (u8_range _) eq_refl eq_refl) by len. cbind.
  rewrite (i2s_byte_spec _ _ _ _ _ (u8_range _) eq_refl eq_refl) by len. cbind.
  rewrite (i2s_byte_spec _ _ _ _ _ (u8_range _) eq_refl eq_refl) by len. cbind.
  rewrite (i2s_byte_spec _ _ _ _ _ (u8_range _) eq_refl eq_refl) by len. cbind.
  rewrite <- (string_prefix (hex8 x) [z8; z9; z10; z11; z12; z13; z14] (hex8_char x)). f_equal.
  rewrite (hex8_bytes x). reflexivity.
Qed.

(** ** What a record is printed as *)
Definition shown_weight (i : Input) : Z := if decide (error i ≠ 0) then -65535 else s16 (weight i).
Definition shown_id (i : Input) : list Z := if decide (block i ≠ 0) then hex8 (block i) else NONE.
Definition shown (i : Input) : list Z := PATTERN (serial i) (fmt_u (ip i)) (shown_weight i) (shown_id i).

Lemma fmt_u_char n : 0 ≤ n → Forall is_char (fmt_u n).
Proof. intros Hn. eapply Forall_impl; [by apply dec_loop_digits|]. unfold is_char. cbn. lia. Qed.

Lemma fmt_d_char n : Forall is_char (fmt_d n).
Proof.
  unfold fmt_d. case_decide; [constructor; [done|]|]; apply fmt_u_char; lia.
Qed.

Lemma shown_char i : input_ok i → Forall is_char (shown i).
Proof.
  intros (_ & [Hi _] & _ & _ & [Hs _]). unfold shown, PATTERN.
  assert (Forall is_char (shown_id i)) by (unfold shown_id; case_decide; [apply hex8_char|by_eval]).
  repeat (apply Forall_app; split); first [assumption|by apply fmt_u_char|apply fmt_d_char|by_eval].
Qed.

Lemma Decode_shown i buf ibuf :
  input_ok i → length buf = 64%nat → length ibuf = 16%nat →
  Decode buf ibuf (Encode i) =
    if decide (zlen (shown i) ≤ 63) then Ret (MkOutput (shown i) (fmt_u (ip i))) else Undef.
Proof.
  intros Hi Hb Hib. unfold Decode, load_. destruct (Encode_fields i Hi) as (E1 & E2 & E3 & E4).
  unfold RetrieveTopic. rewrite E1, E2, E3, E4. change (a_ (Encode i)) with (serial i).
  assert ((if decide (error i ≠ 0) then atoi BAD else Ret (s16 (weight i))) = Ret (shown_weight i)) as ->.
  { unfold shown_weight. by case_decide. }
  cbind.
  assert ((if decide (block i ≠ 0) then i2s (block i) ibuf else Ret NONE) = Ret (shown_id i)) as ->.
  { unfold shown_id. case_decide; [|done]. apply i2s_spec; [apply Hi|done]. }
  cbind. fold (shown i). unfold sprintf. case_decide as Hl.
  - rewrite <- (take_drop (S (length (shown i))) buf).
    pose proof (store_n_app [] (take (S (length (shown i))) buf) (drop (S (length (shown i))) buf) (shown i ++ [0]) 0 eq_refl) as E.
    cbn [app] in E. rewrite E by len. cbind. rewrite <- app_assoc. cbn [app]. rewrite string_prefix by (by apply shown_char). done.
  - unfold store_n. rewrite decide_False; [done|]. rewrite length_app. cbn [length]. lia.
Qed.

(** ** The weight out of the text *)
Lemma find_app c s r k : c ∉ s → find c (s ++ r) k = find c r (k + length s).
Proof.
  revert k. induction s as [|x s IH]; intros k Hn; cbn [app find length]; [f_equal; lia|].
  apply not_elem_of_cons in Hn as [Hx Hn]. rewrite decide_False by done. rewrite IH by done. f_equal. lia.
Qed.

Lemma not_in_digits c s : digits s → ¬ 48 ≤ c ≤ 57 → c ∉ s.
Proof. intros Hs Hc Hin. unfold digits in Hs. rewrite Forall_forall in Hs. specialize (Hs c Hin). cbn in Hs. lia. Qed.

Lemma not_in_fmt_d c n : ¬ 48 ≤ c ≤ 57 → c ≠ 45 → c ∉ fmt_d n.
Proof.
  intros Hc Hm. unfold fmt_d. case_decide; [apply not_elem_of_cons; split; [done|]|]; (apply not_in_digits; [apply dec_loop_digits; lia|done]).
Qed.

Lemma j2s_shown i : input_ok i → j2s (shown i) = fmt_d (shown_weight i).
Proof.
  intros (_ & [Hip _] & _ & _ & [Hs _]). unfold j2s, find_from, shown, PATTERN. rewrite drop_0.
  set (a := p_serial ++ fmt_u (serial i) ++ p_topic ++ fmt_u (ip i) ++ [34; 44; 34]).
  set (z := p_id ++ shown_id i ++ p_end).
  replace (p_serial ++ _) with (a ++ ([119; 101; 105; 103; 104; 116; 34] ++ 58 :: fmt_d (shown_weight i) ++ z)).
  2: { unfold a, p_weight. rewrite <- !app_assoc. done. }
  rewrite find_app.
  2: { unfold a. rewrite !not_elem_of_app. split_and!; first [apply not_in_digits; [by apply dec_loop_digits|lia]|by_eval]. }
  set (w := [119; 101; 105; 103; 104; 116; 34]). set (f := fmt_d (shown_weight i)).
  change (find 119 (w ++ ?r) (0 + length a)) with (Some (0 + length a)%nat). cbn match. rewrite Nat.add_0_l, drop_app_length.
  assert ((58 ∉ w) ∧ (44 ∉ w ++ [58])) as [Hw1 Hw2] by (split; by_eval).
  rewrite (find_app 58 w) by done. cbn [find]. rewrite decide_True by done.
  replace (w ++ 58 :: f ++ z) with (((w ++ [58]) ++ f) ++ z) by (by rewrite <- !app_assoc).
  rewrite (find_app 44). 2: { rewrite not_elem_of_app. split; [done|]. apply not_in_fmt_d; lia. }
  change (find 44 z ?k) with (Some k). rewrite !length_app. cbn [length].
  rewrite decide_True by lia. rewrite !app_assoc, <- (app_assoc _ f).
  rewrite (drop_app_length' ((a ++ w) ++ [58])) by len. apply take_app_length'. lia.
Qed.

(** ** Parsing *)
Lemma after_first_app c s r : c ∉ s → after_first c (s ++ c :: r) = Some r.
Proof.
  induction s as [|x s IH]; intros Hn; cbn [app after_first]; [by rewrite decide_True by done|].
  apply not_elem_of_cons in Hn as [Hx Hn]. rewrite decide_False by done. by apply IH.
Qed.

Lemma after_last_none c s : c ∉ s → after_last c s = None.
Proof.
  induction s as [|x s IH]; intros Hn; [done|]. apply not_elem_of_cons in Hn as [Hx Hn]. cbn. rewrite IH by done. by rewrite decide_False.
Qed.

Lemma after_last_app c s r : c ∉ r → after_last c (s ++ c :: r) = Some r.
Proof.
  intros Hn. induction s as [|x s IH]; cbn [app after_last]; [rewrite after_last_none by done; by rewrite decide_True|].
  by rewrite IH.
Qed.

Lemma atoi_fmt_d n r : -2147483648 ≤ n ≤ 2147483647 → no_digit r → atoi (fmt_d n ++ r) = Ret n.
Proof. intros Hn Hr. unfold atoi. rewrite parse_fmt_d by (lia || done). by apply int_result_small. Qed.

Lemma dec_loop_length f k n : 0 ≤ n < 10 ^ Z.of_nat k → (1 ≤ k)%nat → (length (dec_loop f n) ≤ k)%nat.
Proof.
  revert k n. induction f as [|f IH]; intros k n Hn Hk; cbn [dec_loop length]; [lia|]. case_decide; [cbn; lia|].
  destruct k as [|[|k]]; [lia|cbn in Hn; lia|]. rewrite length_app. cbn [length]. rewrite (Nat2Z.inj_succ (S k)), Z.pow_succ_r in Hn by lia.
  assert (length (dec_loop f (n / 10)) ≤ S k)%nat; [|lia]. apply IH; [mlia|lia].
Qed.

Lemma small_not_bad w : -32768 ≤ w ≤ 32767 → take BAD_LEN (fmt_d w) ≠ BAD.
Proof.
  intros Hw. unfold fmt_d. case_decide as Hs.
  - change (take BAD_LEN (45 :: fmt_u (- w))) with (45 :: take 5 (fmt_u (- w))). unfold BAD. intros [= E].
    pose proof (dec_loop_length 20 5 (- w) ltac:(cbn; lia) ltac:(lia)) as Hl. fold (fmt_u (- w)) in Hl. rewrite take_ge in E by done.
    pose proof (dec_loop_value 20 (- w) 0 [] ltac:(cbn; lia) ltac:(lia)) as Ev. fold (fmt_u (- w)) in Ev. rewrite E in Ev.
    change (digits_value 0 ([54; 53; 53; 51; 53] ++ [])) with 65535 in Ev. cbn [digits_value] in Ev. lia.
  - destruct (fmt_u_nonempty w ltac:(lia)) as (c & s & -> & Hc). unfold BAD. cbn. intros [= Ec _]. lia.
Qed.

(** A reading: the address it is from, the text "...@block@weight" and the
    serial number. *)
Definition parse (addr data sdata : list Z) : outcome Input :=
  i ← parseIp addr Input_new;
  i ← parseWeight data i;
  i ← parseBlock data i;
  Ret (parseSerial sdata i).

Lemma parse_spec apre oct pre blk w ser :
  0 ≤ oct < 256 → SEP ∉ pre → -2147483648 ≤ blk ≤ 2147483647 → w = -65535 ∨ -32768 ≤ w ≤ 32767 → 0 ≤ ser < 4294967296 →
  parse (apre ++ DOT :: fmt_d oct) (pre ++ SEP :: fmt_d blk ++ SEP :: fmt_d w) (fmt_d ser) =
    Ret (MkInput (if decide (w = -65535) then 1 else 0) oct (u16 (if decide (w = -65535) then -1 else w)) (u32 blk) ser).
Proof.
  intros Ho Hp Hb Hw Hs. unfold parse, parseIp.
  rewrite after_last_app by (apply not_in_fmt_d; unfold DOT; lia).
  pose proof (atoi_fmt_d oct [] ltac:(lia) I) as E. rewrite app_nil_r in E. rewrite E. cbind.
  unfold parseWeight. rewrite (app_comm_cons (fmt_d blk)), app_assoc, after_last_app by (apply not_in_fmt_d; unfold SEP; lia).
  rewrite <- app_assoc. cbn [app]. cbn [error ip weight block serial Input_new].
  unfold parseBlock. rewrite (after_first_app SEP pre) by done.
  unfold IP_MASK. change 0xff with (2 ^ 8 - 1). rewrite (land_mask 8 oct) by lia. rewrite (Z.mod_small oct) by (eval_pow; lia).
  assert (∀ i, parseSerial (fmt_d ser) i = MkInput (error i) (ip i) (weight i) (block i) ser) as Hser.
  { intros i. unfold parseSerial, strtoull. pose proof (parse_fmt_d ser [] ltac:(lia) I) as Ep. rewrite app_nil_r in Ep. rewrite Ep.
    rewrite decide_False by lia. unfold wrap. eval_pow. rewrite Z.mod_small, u32_small by lia. done. }
  rewrite (atoi_fmt_d blk (SEP :: fmt_d w)) by (done || lia).
  destruct (decide (w = -65535)) as [-> |Hne].
  - rewrite decide_True by done. cbind. by rewrite Hser.
  - rewrite decide_False by (apply small_not_bad; lia).
    pose proof (atoi_fmt_d w [] ltac:(lia) I) as Ew. rewrite app_nil_r in Ew. rewrite Ew. cbind. rewrite Hser. cbn [error ip weight block serial].
    unfold WEIGHT_MASK. change 0xffff with (2 ^ 16 - 1). rewrite land_mask by lia. done.
Qed.

(** ** Properties *)

(** A reading from its text to its subscriber.  The address, block,
    weight and serial number are parsed and packed; the record is printed as
    JSON with the last byte of the address as its topic; and [j2s] takes the
    weight that was read out of the JSON again.  The JSON is written into 64
    bytes without a check: when it is longer than 63, the write is undefined. *)
Theorem weight_end_to_end apre oct pre blk w ser buf ibuf :
  0 ≤ oct < 256 → SEP ∉ pre → -2147483648 ≤ blk ≤ 2147483647 → w = -65535 ∨ -32768 ≤ w ≤ 32767 → 0 ≤ ser < 4294967296 →
  length buf = 64%nat → length ibuf = 16%nat →
  ∃ i, parse (apre ++ DOT :: fmt_d oct) (pre ++ SEP :: fmt_d blk ++ SEP :: fmt_d w) (fmt_d ser) = Ret i ∧
    let text := PATTERN ser (fmt_u oct) w (if decide (u32 blk ≠ 0) then hex8 (u32 blk) else NONE) in
    if decide (zlen text ≤ 63) then
      Decode buf ibuf (Encode i) = Ret (MkOutput text (fmt_u oct)) ∧ j2s text = fmt_d w
    else Decode buf ibuf (Encode i) = Undef.
Proof.
  intros Ho Hp Hb Hw Hs Hbuf Hib. eexists. split; [by apply parse_spec|].
  set (i := MkInput _ _ _ _ _).
  assert (input_ok i) as Hi.
  { unfold input_ok, i, is_byte, u16, u32. cbn [error ip weight block serial]. split_and!; try lia; try (case_decide; lia); mlia. }
  assert (shown_weight i = w) as Ew.
  { unfold shown_weight, i. cbn [error weight]. destruct (decide (w = -65535)) as [-> |Hne]; [done|]. rewrite decide_False by lia.
    unfold s16, swrap, u16. eval_pow. mlia. }
  assert (PATTERN ser (fmt_u oct) w (if decide (u32 blk ≠ 0) then hex8 (u32 blk) else NONE) = shown i) as ->.
  { unfold shown. rewrite Ew. done. }
  cbv zeta. pose proof (Decode_shown i buf ibuf Hi Hbuf Hib) as E. destruct (decide (zlen (shown i) ≤ 63)); [|done].
  split; [done|]. rewrite j2s_shown by done. by rewrite Ew.
Qed.

(** "192.168.10.182" and "12@179@-345": the example of the source. *)
Definition sample_addr : list Z := [49; 57; 50; 46; 49; 54; 56; 46; 49; 48].
Definition sample_pre : list Z := [49; 50].

Lemma weight_end_to_end_witness :
  ∃ i, parse (sample_addr ++ DOT :: fmt_d 182) (sample_pre ++ SEP :: fmt_d 179 ++ SEP :: fmt_d (-345)) (fmt_d 12) = Ret i ∧
    let text := PATTERN 12 (fmt_u 182) (-345) (if decide (u32 179 ≠ 0) then hex8 (u32 179) else NONE) in
    if decide (zlen text ≤ 63) then
      Decode (replicate 64 1) (replicate 16 1) (Encode i) = Ret (MkOutput text (fmt_u 182)) ∧ j2s text = fmt_d (-345)
    else Decode (replicate 64 1) (replicate 16 1) (Encode i) = Undef.
Proof.
  apply (weight_end_to_end sample_addr 182 sample_pre 179 (-345) 12);
    [lia|by_eval|lia|right; lia|lia|reflexivity|reflexivity].
Defined.

(** A large serial number with a three-digit topic and a negative weight does
    not fit. *)
Example payload_overflow :
  Decode (replicate 64 1) (replicate 16 1) (Encode (MkInput 0 182 (u16 (-1000)) 179 4294967295)) = Undef.
Proof. reflexivity. Qed.
