(* ===== verification/Topics.v ===== *)
(** * io/notifier.h and io/reader.h: topics and the buffered reader

    [TopicManager] keeps, per topic, the consumers in the order they
    subscribed; [RandomReader] serves bytes out of a buffer of 1024 that is
    filled from a file. *)
From Stdlib Require Import ZArith Lia.
From stdpp Require Import base tactics numbers list gmap.
From S2P Require Import Prelude.

Open Scope Z_scope.

(** ** [TopicManager] *)
Section topics.
Context {consumer : Type}.

Abbreviation table := (gmap (list Z) (list consumer)).

(** [table_[topic]], which is made when it is not there. *)
Definition at_topic (topic : list Z) (t : table) : list consumer := default [] (t !! topic).

Definition subscribe (topics : list (list Z)) (ptr : consumer) (t : table) : table :=
  foldl (λ t topic, <[topic := at_topic topic t ++ [ptr]]> t) t topics.

(** [calls] is what each consumer answers for this payload; the consumers are
    called in order and those that answer true stay. *)
Definition publish (topic : list Z) (calls : consumer → bool) (t : table) : list consumer * table :=
  let fns := at_topic topic t in
  (fns, <[topic := filter (λ fn, calls fn = true) fns]> t).

Inductive op :=
| Subscribe (topics : list (list Z)) (ptr : consumer)
| Publish (topic : list Z) (calls : consumer → bool).

(** The consumers called by each publication. *)
Fixpoint run (ops : list op) (t : table) : list (list consumer) :=
  match ops with
  | [] => []
  | Subscribe topics ptr :: ops => run ops (subscribe topics ptr t)
  | Publish topic calls :: ops => let '(fns, t) := publish topic calls t in fns :: run ops t
  end.

(** The specification: one list of subscriptions, oldest first. *)
Abbreviation subs := (list (list Z * consumer)).

Definition of_topic (topic : list Z) (l : subs) : list consumer := map snd (filter (λ s, s.1 = topic) l).

Fixpoint run_spec (ops : list op) (l : subs) : list (list consumer) :=
  match ops with
  | [] => []
  | Subscribe topics ptr :: ops => run_spec ops (l ++ map (λ topic, (topic, ptr)) topics)
  | Publish topic calls :: ops =>
      of_topic topic l :: run_spec ops (filter (λ s, s.1 = topic → calls s.2 = true) l)
  end.

Definition refines (t : table) (l : subs) : Prop := ∀ topic, at_topic topic t = of_topic topic l.

Lemma at_insert topic topic' v t :
  at_topic topic (<[topic' := v]> t) = if decide (topic = topic') then v else at_topic topic t.
Proof.
  unfold at_topic. case_decide as H; [subst; by rewrite lookup_insert_eq|]. by rewrite lookup_insert_ne.
Qed.

Lemma subscribe_refines topics ptr t l : refines t l → refines (subscribe topics ptr t) (l ++ map (λ topic, (topic, ptr)) topics).
Proof.
  revert t l. induction topics as [|topic topics IH]; intros t l Hr; cbn [subscribe foldl map]; [by rewrite app_nil_r|].
  replace (l ++ (topic, ptr) :: map (λ topic, (topic, ptr)) topics) with ((l ++ [(topic, ptr)]) ++ map (λ topic, (topic, ptr)) topics)
    by (by rewrite <- app_assoc).
  apply IH. intros topic'. rewrite at_insert. unfold of_topic. rewrite filter_app, map_app.
  case_decide as H.
  - subst. rewrite filter_cons_True by done. cbn. f_equal. apply Hr.
  - rewrite filter_cons_False by (cbn; congruence). cbn. rewrite app_nil_r. apply Hr.
Qed.

Lemma of_topic_cons topic a c l : of_topic topic ((a, c) :: l) = if decide (a = topic) then c :: of_topic topic l else of_topic topic l.
Proof. unfold of_topic. rewrite filter_cons. cbn. by case_decide. Qed.

Lemma of_topic_dismiss topic topic' calls l :
  of_topic topic' (filter (λ s, s.1 = topic → calls s.2 = true) l) =
    if decide (topic' = topic) then filter (λ fn, calls fn = true) (of_topic topic l) else of_topic topic' l.
Proof.
  induction l as [|[a c] l IH]; [by case_decide|]. rewrite filter_cons, !of_topic_cons. cbn [fst snd].
  destruct (decide (a = topic → calls c = true)) as [Hc|Hc]; rewrite ?of_topic_cons, IH.
  - destruct (decide (topic' = topic)) as [-> |Hne]; [|done]. destruct (decide (a = topic)) as [-> |]; [|done].
    by rewrite filter_cons_True by auto.
  - destruct (decide (topic' = topic)) as [-> |Hne].
    + destruct (decide (a = topic)) as [-> |]; [|done]. rewrite filter_cons_False by auto. done.
    + rewrite decide_False; [done|]. intros ->. apply Hc. congruence.
Qed.

Lemma publish_refines topic calls t l :
  refines t l → refines (publish topic calls t).2 (filter (λ s, s.1 = topic → calls s.2 = true) l).
Proof. intros Hr topic'. cbn. by rewrite at_insert, of_topic_dismiss, !Hr. Qed.

Lemma run_refines_spec ops t l : refines t l → run ops t = run_spec ops l.
Proof.
  revert t l. induction ops as [|[topics ptr|topic calls] ops IH]; intros t l Hr; cbn [run run_spec]; [done|..].
  - apply IH. by apply subscribe_refines.
  - pose proof (publish_refines topic calls t l Hr) as Hp. cbn in Hp. cbn. rewrite (IH _ _ Hp). by rewrite Hr.
Qed.

(** In any sequence of subscriptions and publications, a publication calls
    the consumers subscribed to its topic and not yet dismissed, each once per
    subscription, in the order they subscribed; a consumer that answers false is
    dismissed from that topic and from no other. *)
Theorem topics_deliver (ops : list op) : run ops ∅ = run_spec ops [].
Proof. apply run_refines_spec. intros topic. unfold at_topic. by rewrite lookup_empty. Qed.
End topics.

(** ** [RandomReader] *)
Definition kBufferSize : Z := 1024.

(** The buffer, the next byte in it, and what the reads to come will give. *)
Record reader := MkReader { i_ : Z; buf_ : list Z; reads : list (list Z) }.

Definition RandomReader (buf : list Z) (reads : list (list Z)) : reader := MkReader kBufferSize buf reads.

(** One turn of the loop of [Fetch]: a read puts what it gets at the start of
    the buffer, and its result is not looked at. *)
Definition fetch_byte (r : reader) : outcome (Z * reader) :=
  r ← (if decide (i_ r + 1 > kBufferSize) then
         match reads r with
         | got :: reads => buf ← store_n (buf_ r) 0 got; Ret (MkReader 0 buf reads)
         | [] => NoFuel
         end
       else Ret r);
  b ← load (buf_ r) (i_ r);
  Ret (b, MkReader (i_ r + 1) (buf_ r) (reads r)).

Fixpoint Fetch (len : nat) (r : reader) : outcome (list Z * reader) :=
  match len with
  | O => Ret ([], r)
  | S len => '(b, r) ← fetch_byte r; '(bs, r) ← Fetch len r; Ret (b :: bs, r)
  end.

(** Everything the reader has yet to give, with whole buffers to come. *)
Definition stream (r : reader) : list Z := drop (Z.to_nat (i_ r)) (buf_ r) ++ concat (reads r).

Definition reader_ok (r : reader) : Prop :=
  zlen (buf_ r) = kBufferSize ∧ 0 ≤ i_ r ≤ kBufferSize ∧ Forall (λ got, zlen got = kBufferSize) (reads r).

Lemma fetch_byte_spec r b bs :
  reader_ok r → stream r = b :: bs → ∃ r', fetch_byte r = Ret (b, r') ∧ reader_ok r' ∧ stream r' = bs.
Proof.
  intros (Hb & Hi & Hr) Hs. destruct r as [i buf rs]. unfold stream in Hs. cbn [i_ buf_ reads] in *. unfold fetch_byte. cbn [i_ buf_ reads].
  assert (∀ i buf rs, zlen buf = kBufferSize → Forall (λ got, zlen got = kBufferSize) rs → 0 ≤ i < kBufferSize → drop (Z.to_nat i) buf ++ concat rs = b :: bs →
    ∃ r', ('(MkReader i buf rs) ← Ret (MkReader i buf rs); b ← load buf i; Ret (b, MkReader (i + 1) buf rs)) = Ret (b, r') ∧ reader_ok r' ∧ stream r' = bs) as Hg.
  { clear. intros i buf rs Hb Hr Hi Hs. destruct (split_at buf i) as (a & x & z & -> & ->); [lia|].
    rewrite Nat2Z.id, drop_app_length in Hs. cbn [app] in Hs. injection Hs as -> Hs. cbind. rewrite load_app by done. cbind.
    eexists. split; [done|]. split; [split_and!; cbn [i_ buf_ reads]; first [done|lia]|]. unfold stream. cbn [i_ buf_ reads]. rewrite <- Hs.
    f_equal. rewrite cons_middle, app_assoc. apply drop_app_length'. len. }
  case_decide as Hd.
  - assert (i = kBufferSize) as -> by lia. rewrite drop_ge in Hs by lia. destruct rs as [|got rs]; [done|]. cbn [app concat] in Hs.
    apply Forall_cons in Hr as [Hgot Hr].
    pose proof (store_n_app [] buf [] got 0 eq_refl ltac:(lia)) as E. cbn [app] in E. rewrite !app_nil_r in E. rewrite E.
    destruct (Hg 0 got rs Hgot Hr) as (r' & E' & H'); [unfold kBufferSize; lia|done|]. exists r'. split; [exact E'|exact H'].
  - destruct (Hg i buf rs Hb Hr ltac:(lia) Hs) as (r' & E' & H'). exists r'. split; [exact E'|exact H'].
Qed.

(** As long as the file fills the whole buffer at every read, the bytes a
    sequence of fetches gives are the bytes of the file, in order, none skipped
    or repeated. *)
Theorem fetch_reads_on len r bs rest :
  reader_ok r → stream r = bs ++ rest → length bs = len →
  ∃ r', Fetch len r = Ret (bs, r') ∧ reader_ok r' ∧ stream r' = rest.
Proof.
  revert r bs. induction len as [|len IH]; intros r bs Hr Hs Hl; cbn [Fetch].
  - destruct bs; [|done]. eauto.
  - destruct bs as [|b bs]; [done|]. destruct (fetch_byte_spec r b (bs ++ rest) Hr Hs) as (r1 & -> & Hr1 & Hs1). cbind.
    destruct (IH r1 bs Hr1 Hs1) as (r2 & -> & Hr2 & Hs2); [by injection Hl|]. cbind. eauto.
Qed.

Lemma fetch_reads_on_witness :
  ∃ r', Fetch 3 (RandomReader (replicate 1024 0) [replicate 1024 7]) = Ret ([7; 7; 7], r') ∧ reader_ok r' ∧ stream r' = replicate 1021 7.
Proof.
  apply (fetch_reads_on 3 (RandomReader (replicate 1024 0) [replicate 1024 7]) [7; 7; 7] (replicate 1021 7));
    [split_and!; by_eval|vm_compute; reflexivity|reflexivity].
Defined.

(** A short read is served with what the buffer held before. *)
Example short_read :
  Fetch 3 (RandomReader (replicate 1024 9) [[1]]) = Ret ([1; 9; 9], MkReader 3 (1 :: replicate 1023 9) []).
Proof. vm_compute. reflexivity. Qed.
