(* ===== verification/EchoServer.v ===== *)
(** * socket/select_test.c and socket/keepalive/server.c: two echo servers

    The system calls are scripts of the results to come, and a call that waits
    for a result that never comes does not return; the log has what was
    accepted, echoed and closed. *)
From Stdlib Require Import ZArith Lia.
From stdpp Require Import base tactics numbers list gmap.
From S2P Require Import Prelude.

Open Scope Z_scope.

Inductive event :=
| Accepted (fd : Z)
| Echoed (fd : Z) (bs : list Z)
| Timeout
| Keepalive (idle intvl cnt : Z)
| Closed (fd : Z).

(** ** select_test.c *)
Record kernel := Kernel {
  k_socket : Z; k_setsockopt : Z; k_bind : Z; k_listen : Z;
  k_accepts : list Z;
  k_selects : list (Z * bool);     (** the result, and whether [errno] is EAGAIN *)
  k_reads : list (list Z);         (** what is there to read; nothing is the end or an error *)
  k_writes : list Z;
  k_log : list event;
}.

Definition logged (e : event) (k : kernel) : kernel :=
  Kernel (k_socket k) (k_setsockopt k) (k_bind k) (k_listen k) (k_accepts k) (k_selects k) (k_reads k) (k_writes k) (k_log k ++ [e]).

Definition new_server (k : kernel) : Z * kernel :=
  let fd := k_socket k in
  if decide (fd = -1) then (-1, k)
  else if decide (k_setsockopt k = -1) then (-1, logged (Closed fd) k)
  else if decide (k_bind k = -1) then (-1, logged (Closed fd) k)
  else if decide (k_listen k = -1) then (-1, logged (Closed fd) k)
  else (fd, k).

(** The buffer has 64 bytes. *)
Definition on_recv (fd : Z) (k : kernel) : outcome (Z * kernel) :=
  match k_reads k with
  | [] => NoFuel
  | bs :: reads =>
      let buf := take 64 bs in
      let k := Kernel (k_socket k) (k_setsockopt k) (k_bind k) (k_listen k) (k_accepts k) (k_selects k) reads (k_writes k) (k_log k) in
      if decide (zlen buf ≤ 0) then Ret (-1, k)
      else
        match k_writes k with
        | [] => NoFuel
        | n :: writes =>
            let k := Kernel (k_socket k) (k_setsockopt k) (k_bind k) (k_listen k) (k_accepts k) (k_selects k) (k_reads k) writes (k_log k) in
            Ret (n, if decide (n = -1) then k else logged (Echoed fd buf) k)
        end
  end.

Definition FD_SETSIZE : Z := 1024.

(** [FD_SET] outside the set is undefined. *)
Definition FD_SET (fd : Z) (fds : gset Z) : outcome (gset Z) :=
  if decide (0 ≤ fd < FD_SETSIZE) then Ret ({[fd]} ∪ fds) else Undef.

(** One turn: [None] is at [again], [Some cfd] in the loop of a connection. *)
Definition serve_step (s : gset Z * option Z * kernel) : outcome ((gset Z * option Z * kernel) + (Z * kernel)) :=
  let '(fds, at_, k) := s in
  match at_ with
  | None =>
      match k_accepts k with
      | [] => NoFuel
      | cfd :: accepts =>
          let k := Kernel (k_socket k) (k_setsockopt k) (k_bind k) (k_listen k) accepts (k_selects k) (k_reads k) (k_writes k) (k_log k) in
          if decide (cfd = -1) then Ret (inr (-1, k))
          else fds ← FD_SET cfd fds; Ret (inl (fds, Some cfd, logged (Accepted cfd) k))
      end
  | Some cfd =>
      match k_selects k with
      | [] => NoFuel
      | (rc, eagain) :: selects =>
          let k := Kernel (k_socket k) (k_setsockopt k) (k_bind k) (k_listen k) (k_accepts k) selects (k_reads k) (k_writes k) (k_log k) in
          if decide (rc < 0) then
            if eagain : bool then Ret (inl (fds, Some cfd, k)) else Ret (inr (0, k))
          else
            '(r, k) ← on_recv cfd k;
            Ret (inl (fds, if decide (r = -1) then None else Some cfd, k))
      end
  end.

(** After the arguments: [argc] and the port [atoi] gave. *)
Definition select_main (fuel : nat) (argc port : Z) (k : kernel) : outcome (Z * kernel) :=
  if decide (argc < 2) then Ret (-1, k)
  else
    let '(sfd, k) := new_server k in
    if decide (sfd = -1) then Ret (-1, k)
    else while_fuel fuel serve_step (∅, None, k).

(** ** Serving *)

(** A client: its descriptor, and what it sends before it leaves. *)
Record client := Client { c_fd : Z; c_chunks : list (list Z) }.

Definition client_ok (c : client) : Prop :=
  0 ≤ c_fd c < FD_SETSIZE ∧ Forall (λ bs, 0 < zlen bs ≤ 64) (c_chunks c).

Definition selects_of (cs : list client) : list (Z * bool) :=
  concat (map (λ c, replicate (S (length (c_chunks c))) (1, false)) cs).
Definition reads_of (cs : list client) : list (list Z) := concat (map (λ c, c_chunks c ++ [[]]) cs).
Definition writes_of (cs : list client) : list Z := concat (map (λ c, map (λ bs, zlen bs) (c_chunks c)) cs).
Definition log_of (cs : list client) : list event := concat (map (λ c, Accepted (c_fd c) :: map (Echoed (c_fd c)) (c_chunks c)) cs).

Section serving.
Context (so se bi li : Z).

(** The chunks of one client. *)
Lemma serve_chunks fd chunks fds ac sel rd wr log fuel :
  Forall (λ bs, 0 < zlen bs ≤ 64) chunks → (length chunks < fuel)%nat →
  while_fuel fuel serve_step (fds, Some fd,
    Kernel so se bi li ac (replicate (S (length chunks)) (1, false) ++ sel) (chunks ++ [] :: rd) (map (λ bs, zlen bs) chunks ++ wr) log) =
  while_fuel (fuel - S (length chunks)) serve_step (fds, None, Kernel so se bi li ac sel rd wr (log ++ map (Echoed fd) chunks)).
Proof.
  intros Hc. revert log fuel. induction Hc as [|bs chunks Hb Hc IH]; intros log fuel Hf; (destruct fuel as [|fuel]; [cbn in Hf; lia|]).
  - cbn [length replicate map app]. rewrite app_nil_r. replace (S fuel - 1)%nat with fuel by lia. by apply while_fuel_inl.
  - cbn [length replicate map app]. rewrite (while_fuel_inl _ _ _ (fds, Some fd,
      Kernel so se bi li ac (replicate (S (length chunks)) (1, false) ++ sel) (chunks ++ [] :: rd) (map (λ bs, zlen bs) chunks ++ wr) (log ++ [Echoed fd bs]))).
    + rewrite IH by (cbn in Hf; lia). cbn [Nat.sub]. by rewrite <- app_assoc.
    + unfold serve_step. cbn [k_selects]. rewrite decide_False by lia. unfold on_recv. cbn [k_reads k_writes k_socket k_setsockopt k_bind k_listen k_accepts k_selects k_log].
      rewrite (take_ge bs) by lia. rewrite decide_False by lia. rewrite decide_False by lia. cbind. rewrite decide_False by lia. done.
Qed.

Lemma serve_clients cs fds ac sel rd wr log fuel :
  Forall client_ok cs → (length (selects_of cs) + length cs < fuel)%nat →
  ∃ fuel' fds', (0 < fuel')%nat ∧ while_fuel fuel serve_step (fds, None,
    Kernel so se bi li (map c_fd cs ++ ac) (selects_of cs ++ sel) (reads_of cs ++ rd) (writes_of cs ++ wr) log) =
  while_fuel fuel' serve_step (fds', None, Kernel so se bi li ac sel rd wr (log ++ log_of cs)).
Proof.
  intros Hc. revert fds log fuel. induction Hc as [|c cs [Hfd Hch] Hc IH]; intros fds log fuel Hf.
  - exists fuel, fds. unfold log_of. cbn. rewrite app_nil_r. split; [cbn in Hf; lia|done].
  - destruct fuel as [|fuel]; [lia|]. destruct c as [fd chunks]. cbn [c_fd c_chunks] in *.
    unfold selects_of, reads_of, writes_of, log_of in *. cbn [map concat c_fd c_chunks app length] in *. rewrite <- !app_assoc.
    revert Hf. rewrite length_app, length_replicate. intros Hf.
    rewrite (while_fuel_inl _ _ _ ({[fd]} ∪ fds, Some fd, Kernel so se bi li (map c_fd cs ++ ac)
      (replicate (S (length chunks)) (1, false) ++ concat (map (λ c, replicate (S (length (c_chunks c))) (1, false)) cs) ++ sel)
      (chunks ++ [] :: concat (map (λ c, c_chunks c ++ [[]]) cs) ++ rd)
      (map (λ bs, zlen bs) chunks ++ concat (map (λ c, map (λ bs, zlen bs) (c_chunks c)) cs) ++ wr) (log ++ [Accepted fd]))).
    + rewrite serve_chunks by (done || lia). destruct (IH ({[fd]} ∪ fds) ((log ++ [Accepted fd]) ++ map (Echoed fd) chunks) (fuel - S (length chunks))%nat) as (f' & fds' & Hf' & ->); [lia|].
      exists f', fds'. split; [done|]. rewrite <- !app_assoc. done.
    + unfold serve_step. cbn [k_accepts]. rewrite decide_False by lia. unfold FD_SET. rewrite decide_True by done. cbind. done.
Qed.
End serving.

(** ** keepalive/server.c *)
Record keepalive_context_t := Context_ { fd : Z; keepidle : Z; keepintvl : Z; keepcnt : Z }.

(** The options of the sockets that are open; a call for another descriptor
    fails and changes nothing. *)
Record options := Options { so_keepalive : Z; tcp_keepidle : Z; tcp_keepintvl : Z; tcp_keepcnt : Z }.
Abbreviation sockets := (gmap Z options).

(** The context is returned with its fields filled, or a null pointer. *)
Definition keepalive_context_dump (ctx : keepalive_context_t) (s : sockets) : option keepalive_context_t :=
  match s !! fd ctx with
  | Some o =>
      if decide (so_keepalive o ≠ 0) then Some (Context_ (fd ctx) (tcp_keepidle o) (tcp_keepintvl o) (tcp_keepcnt o))
      else None
  | None => None
  end.

Definition keepalive_context_enable (ctx : keepalive_context_t) (s : sockets) : sockets :=
  match s !! fd ctx with
  | Some o => <[fd ctx := Options 1 (keepidle ctx) (keepintvl ctx) (keepcnt ctx)]> s
  | None => s
  end.

(** [socket], [bind] and [listen] with their results; the log of the failure. *)
Definition create_server (so bi li : Z) : Z * list event :=
  if decide (bi ≠ -1 ∧ li ≠ -1) then (so, []) else (-1, [Closed so]).

(** A result of [poll] for the connection, with what a read finds then. *)
Inductive polled :=
| PollError
| PollTimeout
| PollIn (bs : list Z)     (** [POLLIN]: the bytes there, none at the end *)
| PollInError              (** [POLLIN], and the read fails *)
| PollHup                  (** [POLLHUP] without [POLLIN] *)
| PollOther.               (** neither *)

(** The loop, with a buffer of 1024; a failed read passes -1 as a length to
    print and to write. *)
Fixpoint handle_loop (c : Z) (ps : list polled) : outcome (list event) :=
  match ps with
  | [] => NoFuel
  | PollError :: _ => Ret []
  | PollTimeout :: ps => l ← handle_loop c ps; Ret (Timeout :: l)
  | PollIn bs :: ps =>
      let buf := take 1024 bs in
      if decide (zlen buf = 0) then Ret [] else l ← handle_loop c ps; Ret (Echoed c buf :: l)
  | PollInError :: _ => Undef
  | PollHup :: _ => Ret []
  | PollOther :: ps => handle_loop c ps
  end.

Definition handle_connection (c : Z) (s : sockets) (ps : list polled) : outcome (list event * sockets) :=
  let ctx := Context_ c 5 3 3 in
  let s := keepalive_context_enable ctx s in
  let ctx := Context_ 0 0 0 0 in
  let dump := match keepalive_context_dump ctx s with
              | Some ctx => [Keepalive (keepidle ctx) (keepintvl ctx) (keepcnt ctx)]
              | None => []
              end in
  l ← handle_loop c ps;
  Ret (dump ++ l ++ [Closed c], s).

(** ** Properties *)

Lemma select_main_up so se bi li argc port fuel ac sel rd wr log :
  2 ≤ argc → so ≠ -1 → se ≠ -1 → bi ≠ -1 → li ≠ -1 →
  select_main fuel argc port (Kernel so se bi li ac sel rd wr log) = while_fuel fuel serve_step (∅, None, Kernel so se bi li ac sel rd wr log).
Proof.
  intros. unfold select_main, new_server. cbn [k_socket k_setsockopt k_bind k_listen].
  rewrite (decide_False (P := argc < 2)) by lia. rewrite !(decide_False (P := so = -1)) by done.
  rewrite (decide_False (P := se = -1)) by done. rewrite (decide_False (P := bi = -1)) by done. rewrite (decide_False (P := li = -1)) by done.
  by rewrite decide_False by done.
Qed.

(** The first server echoes what every client sends, client after client,
    until [accept] fails, and closes none of their descriptors; when a
    descriptor reaches 1024, the write to the descriptor set is undefined. *)
Theorem echo_serves cs so se bi li argc port fuel :
  Forall client_ok cs → 2 ≤ argc → so ≠ -1 → se ≠ -1 → bi ≠ -1 → li ≠ -1 →
  (length (selects_of cs) + length cs < fuel)%nat →
  (∃ k, select_main fuel argc port (Kernel so se bi li (map c_fd cs ++ [-1]) (selects_of cs) (reads_of cs) (writes_of cs) []) = Ret (-1, k) ∧
    k_log k = log_of cs ∧ ∀ fd, Closed fd ∉ k_log k) ∧
  (∀ big ac sel rd wr, FD_SETSIZE ≤ big →
    select_main fuel argc port (Kernel so se bi li (map c_fd cs ++ big :: ac) (selects_of cs ++ sel) (reads_of cs ++ rd) (writes_of cs ++ wr) []) = Undef).
Proof.
  intros Hc Ha Hso Hse Hbi Hli Hf. split.
  - rewrite select_main_up by done.
    destruct (serve_clients so se bi li cs ∅ [-1] [] [] [] [] fuel Hc Hf) as (f' & fds' & Hf' & E). rewrite !app_nil_r in E. cbn [app] in E.
    rewrite E. destruct f' as [|f']; [lia|]. eexists. split; [by apply while_fuel_inr|]. cbn [k_log]. split; [done|].
    intros x. unfold log_of. clear. induction cs as [|[y ch] cs IH]; [by apply not_elem_of_nil|]. cbn [map concat c_fd c_chunks].
    apply not_elem_of_app. split; [|done]. apply not_elem_of_cons. split; [done|]. intros (bs & ? & _)%list_elem_of_fmap. done.
  - intros big ac sel rd wr Hb. rewrite select_main_up by done.
    destruct (serve_clients so se bi li cs ∅ (big :: ac) sel rd wr [] fuel Hc Hf) as (f' & fds' & Hf' & ->).
    destruct f' as [|f']; [lia|]. rewrite while_fuel_S. cbn [serve_step k_accepts]. rewrite decide_False by (unfold FD_SETSIZE in Hb; lia).
    unfold FD_SET. rewrite decide_False by lia. done.
Qed.

Lemma echo_serves_witness :
  (∃ k, select_main 10 2 8888 (Kernel 3 0 0 0 ([4; 5] ++ [-1]) (selects_of [Client 4 [[104; 105]]; Client 5 []])
      (reads_of [Client 4 [[104; 105]]; Client 5 []]) (writes_of [Client 4 [[104; 105]]; Client 5 []]) []) = Ret (-1, k) ∧
    k_log k = [Accepted 4; Echoed 4 [104; 105]; Accepted 5] ∧ ∀ fd, Closed fd ∉ k_log k) ∧
  (∀ big ac sel rd wr, FD_SETSIZE ≤ big →
    select_main 10 2 8888 (Kernel 3 0 0 0 ([4; 5] ++ big :: ac) (selects_of [Client 4 [[104; 105]]; Client 5 []] ++ sel)
      (reads_of [Client 4 [[104; 105]]; Client 5 []] ++ rd) (writes_of [Client 4 [[104; 105]]; Client 5 []] ++ wr) []) = Undef).
Proof.
  apply (echo_serves [Client 4 [[104; 105]]; Client 5 []] 3 0 0 0 2 8888 10); [by_eval|lia|lia|lia|lia|lia|cbn; lia].
Defined.

(** What a connection of whole chunks ends with. *)
Definition ends (p : polled) : Prop := p = PollError ∨ p = PollIn [] ∨ p = PollHup.

(** The second server sets the options of the connection, echoes its
    chunks up to the end of the connection and closes it once; but the options
    it then reports are those of descriptor 0, since its context was cleared,
    whatever those of the connection are. *)
Theorem keepalive_serves c s chunks p rest :
  Forall (λ bs, 0 < zlen bs ≤ 1024) chunks → ends p → is_Some (s !! c) → c ≠ 0 →
  ∃ dump, handle_connection c s (map PollIn chunks ++ p :: rest) =
    Ret (dump ++ map (Echoed c) chunks ++ [Closed c], <[c := Options 1 5 3 3]> s) ∧
    dump = match keepalive_context_dump (Context_ 0 0 0 0) s with
           | Some ctx => [Keepalive (keepidle ctx) (keepintvl ctx) (keepcnt ctx)]
           | None => []
           end ∧
    keepalive_context_dump (Context_ c 0 0 0) (<[c := Options 1 5 3 3]> s) = Some (Context_ c 5 3 3).
Proof.
  intros Hch Hp [o Ho] Hc. unfold handle_connection, keepalive_context_enable. cbn [fd keepidle keepintvl keepcnt]. rewrite Ho.
  assert (handle_loop c (map PollIn chunks ++ p :: rest) = Ret (map (Echoed c) chunks)) as ->.
  { induction Hch as [|bs chunks Hb Hch IH]; cbn [map app handle_loop]; [by destruct Hp as [-> |[-> | ->]]|].
    rewrite take_ge by lia. rewrite decide_False by lia. rewrite IH. done. }
  cbind. eexists. split; [done|]. unfold keepalive_context_dump. cbn [fd]. rewrite lookup_insert_eq, lookup_insert_ne by done. done.
Qed.

Lemma keepalive_serves_witness :
  ∃ dump, handle_connection 7 {[7 := Options 0 0 0 0]} (map PollIn [[104; 105]] ++ PollIn [] :: []) =
    Ret (dump ++ map (Echoed 7) [[104; 105]] ++ [Closed 7], <[7 := Options 1 5 3 3]> {[7 := Options 0 0 0 0]}) ∧
    dump = [] ∧
    keepalive_context_dump (Context_ 7 0 0 0) (<[7 := Options 1 5 3 3]> {[7 := Options 0 0 0 0]}) = Some (Context_ 7 5 3 3).
Proof.
  destruct (keepalive_serves 7 {[7 := Options 0 0 0 0]} [[104; 105]] (PollIn []) []) as (dump & H1 & H2 & H3);
    [by_eval|right; by left|vm_compute; eauto|lia|].
  exists dump. split; [exact H1|]. split; [rewrite H2; vm_compute; reflexivity|exact H3].
Defined.
