(* ===== verification/Listener.v ===== *)
(** * socket/monitor/listener.h and listener.cpp: the listener

    A server of one peer at a time: a loop that accepts, reads requests and
    pongs, writes what other threads publish and calls what they hand over; a
    worker that answers requests ([TaskRunner]); a timer that pings the peer
    ([TimerRunner]).  Frames and messages are those of [Message].

    A state is the listener with the descriptors it has open, what it sent and
    where the publishing threads are.  An action is one step of a thread: a
    round of the loop after its [poll], a step of the worker or of the timer, a
    heartbeat, or a publication, whose notification is a step of its own.
    [None] is a step that cannot be taken (it would block).  Rounds and
    heartbeats are taken whole: the program runs [Ping] in the timer's thread and
    changes the state, the peer's descriptor and the heartbeat's numbers without a
    lock, so that what is said here of these members is said of runs in which the
    two threads do not overlap.  [Hub] cuts the hand-over of messages and closures,
    which is locked, at every lock and call.

    Times are nanoseconds of the clock instead of doubles of milliseconds;
    [dbl] and [undbl] are the eight bytes of a time in a message.  A closure is
    a number, and calling it only logs it. *)
From Stdlib Require Import ZArith Lia.
From stdpp Require Import base tactics numbers list gmap sets.
From S2P Require Import Prelude.
From S2P Require Import Message.
From S2P Require Import TaskRunner.
From S2P Require Import TimerRunner.

Open Scope Z_scope.

Definition HEARTBEAT_MAXRETRY : Z := 5.
Definition HEARTBEAT_DURATION : Z := 5000.
Definition OPMASK : Z := Z.shiftl 1 63.
Definition kNotifySmall : Z := 1.
Definition kNotifyMedium : Z := Z.shiftl 1 31.
Definition kNotifyLarge : Z := Z.shiftl 1 63.

(** ** Data *)
Record Heartbeat := MkHeartbeat {
  lastest_pingts : Z; lastest_pongts : Z;
  rtt : Z; minrtt : Z; maxrtt : Z;
  retry : Z;
}.

Definition Heartbeat_new : Heartbeat :=
  MkHeartbeat (-1) (-1) (-1) (ms HEARTBEAT_DURATION) (- ms HEARTBEAT_DURATION) HEARTBEAT_MAXRETRY.

Definition Heartbeat_reset (h : Heartbeat) : Heartbeat :=
  MkHeartbeat (-1) (-1) (-1) (ms HEARTBEAT_DURATION) (- ms HEARTBEAT_DURATION) HEARTBEAT_MAXRETRY.

Definition updateRTT (d : Z) (h : Heartbeat) : Heartbeat :=
  let '(MkHeartbeat pi po _ mn mx _) := h in
  MkHeartbeat pi po d
    (if decide (mn > d) then d else mn)
    (if decide (mx < d ∧ d < ms HEARTBEAT_DURATION / 20) then d else mx)
    HEARTBEAT_MAXRETRY.

Definition with_ping (now re : Z) (h : Heartbeat) : Heartbeat :=
  let '(MkHeartbeat _ po rt mn mx _) := h in MkHeartbeat now po rt mn mx re.
Definition with_pong (now : Z) (h : Heartbeat) : Heartbeat :=
  let '(MkHeartbeat pi _ rt mn mx re) := h in MkHeartbeat pi now rt mn mx re.

Record Reader := MkReader { msgreq : MsgRequest; msght : MsgHeartbeat; lastest_readts : Z }.

Record Metrics := MkMetrics { m_work : Z; m_idle : Z; m_times : Z; ops : Z }.

Inductive State := NOTHINGNESS | INITIALIZED | TRANSFERRED | IDLE | WORK | TERMINATED.

#[export] Instance State_eq_dec : EqDecision State.
Proof. solve_decision. Defined.

Record Listener := MkListener {
  state_ : State;
  activefd : Z; peerfd : Z;
  msghub : Z;                 (** the counter of the notifier *)
  worker : runner;
  timer : tRunner;
  heartbeat : Heartbeat;
  r : Reader;
  msgs : list MsgRaw;         (** [w.msgs] *)
  metrics : Metrics;
  closures : list Z;
  timeout : Z;                (** the static variable of [Work] *)
}.

(** The listener among its threads and descriptors. *)
Record World := MkWorld {
  self : Listener;
  looping : bool;             (** [run] has not returned *)
  pubs : nat;                 (** calls of [pub] between the push and the notify *)
  calls : nat;                (** the same for [runOnLoop] *)
  opened : gset Z;
  sent : list (Z * MsgRaw);   (** messages written, and to which descriptor *)
  called : list Z;            (** closures called *)
  handed : list Z;            (** closures handed over *)
  published : list MsgRaw;    (** messages published *)
  taken_ : list MsgRaw;       (** messages taken out of [w.msgs] *)
  overlap : bool;             (** a peer was accepted while another was there *)
  skipped : bool;             (** a round called closures while messages waited *)
}.

(** Updates of one member. *)
Definition set_state (x : State) (l : Listener) : Listener :=
  let '(MkListener _ ac pe hu wo ti he rd mg me cl to) := l in MkListener x ac pe hu wo ti he rd mg me cl to.
Definition set_peer (x : Z) (l : Listener) : Listener :=
  let '(MkListener st ac _ hu wo ti he rd mg me cl to) := l in MkListener st ac x hu wo ti he rd mg me cl to.
Definition set_hub (x : Z) (l : Listener) : Listener :=
  let '(MkListener st ac pe _ wo ti he rd mg me cl to) := l in MkListener st ac pe x wo ti he rd mg me cl to.
Definition set_worker (x : runner) (l : Listener) : Listener :=
  let '(MkListener st ac pe hu _ ti he rd mg me cl to) := l in MkListener st ac pe hu x ti he rd mg me cl to.
Definition set_timer (x : tRunner) (l : Listener) : Listener :=
  let '(MkListener st ac pe hu wo _ he rd mg me cl to) := l in MkListener st ac pe hu wo x he rd mg me cl to.
Definition set_heartbeat (x : Heartbeat) (l : Listener) : Listener :=
  let '(MkListener st ac pe hu wo ti _ rd mg me cl to) := l in MkListener st ac pe hu wo ti x rd mg me cl to.
Definition set_r (x : Reader) (l : Listener) : Listener :=
  let '(MkListener st ac pe hu wo ti he _ mg me cl to) := l in MkListener st ac pe hu wo ti he x mg me cl to.
Definition set_msgs (x : list MsgRaw) (l : Listener) : Listener :=
  let '(MkListener st ac pe hu wo ti he rd _ me cl to) := l in MkListener st ac pe hu wo ti he rd x me cl to.
Definition set_metrics (x : Metrics) (l : Listener) : Listener :=
  let '(MkListener st ac pe hu wo ti he rd mg _ cl to) := l in MkListener st ac pe hu wo ti he rd mg x cl to.
Definition set_closures (x : list Z) (l : Listener) : Listener :=
  let '(MkListener st ac pe hu wo ti he rd mg me _ to) := l in MkListener st ac pe hu wo ti he rd mg me x to.
Definition set_timeout (x : Z) (l : Listener) : Listener :=
  let '(MkListener st ac pe hu wo ti he rd mg me cl _) := l in MkListener st ac pe hu wo ti he rd mg me cl x.

Definition set_ops (x : Z) (l : Listener) : Listener :=
  set_metrics (MkMetrics (m_work (metrics l)) (m_idle (metrics l)) (m_times (metrics l)) x) l.

Definition on_self (f : Listener → Listener) (s : World) : World :=
  let '(MkWorld l lo pu ca op se cd ha pb tk ov sk) := s in MkWorld (f l) lo pu ca op se cd ha pb tk ov sk.
Definition stop_looping (s : World) : World :=
  let '(MkWorld l _ pu ca op se cd ha pb tk ov sk) := s in MkWorld l false pu ca op se cd ha pb tk ov sk.

(** ** The listener's state *)
Definition idle (s : World) : bool := bool_decide (state_ (self s) = IDLE).
Definition work (s : World) : bool := bool_decide (state_ (self s) = WORK).
Definition onWork (s : World) : World := on_self (set_state WORK) s.
Definition onIdle (s : World) : World := on_self (set_state IDLE) s.

(** [accept] gave the descriptor [fd], or -1. *)
Definition onConnect (fd : Z) (s : World) : World :=
  let '(MkWorld l lo pu ca op se cd ha pb tk ov sk) := s in
  MkWorld (set_peer fd l) lo pu ca (if decide (fd = -1) then op else {[fd]} ∪ op) se cd ha pb tk
    (ov || work s) sk.

Definition onDisconnect (s : World) : World :=
  let '(MkWorld l lo pu ca op se cd ha pb tk ov sk) := s in
  onIdle (MkWorld
    (set_ops 0 (set_heartbeat (Heartbeat_reset (heartbeat l))
      (set_r (MkReader (msgreq (r l)) (msght (r l)) (-1)) (set_peer (-1) l))))
    lo pu ca (op ∖ {[peerfd l]}) se cd ha pb tk ov sk).

(** ** The writer *)

(** [pub] up to the unlock, and its notification. *)
Definition pub_push (msg : MsgRaw) (s : World) : World :=
  let '(MkWorld l lo pu ca op se cd ha pb tk ov sk) := s in
  MkWorld (set_msgs (msgs l ++ [msg]) l) lo (S pu) ca op se cd ha (pb ++ [msg]) tk ov sk.

Definition pub_notify (s : World) : option World :=
  let '(MkWorld l lo pu ca op se cd ha pb tk ov sk) := s in
  match pu, notify kNotifySmall (msghub l) with
  | S pu, Some c => Some (MkWorld (set_hub c l) lo pu ca op se cd ha pb tk ov sk)
  | _, _ => None
  end.

(** [pub] in the loop's own thread. *)
Definition pub (msg : MsgRaw) (s : World) : option World := pub_notify (pub_push msg s).

(** The bookkeeping of a response that was written. *)
Definition count_response (o : Z) : Z :=
  if decide (Z.land o OPMASK ≠ 0) then (Z.ldiff o OPMASK + 1) mod 2 ^ 64 else o.

Definition write_one (msg : MsgRaw) (s : World) : World :=
  let '(MkWorld l lo pu ca op se cd ha pb tk ov sk) := s in
  let l' := if decide (type msg = MSGRESPONSE) then set_ops (count_response (ops (metrics l))) l else l in
  MkWorld l' lo pu ca op (se ++ [(peerfd l, msg)]) cd ha pb tk ov sk.

(** [oks]: whether each [writev] takes everything; on a closed peer none does. *)
Fixpoint write_loop (oks : list bool) (t : list MsgRaw) (s : World) : World :=
  match t with
  | [] => s
  | msg :: t =>
      if bool_decide (peerfd (self s) ≠ -1) && default true (head oks) then write_loop (tail oks) t (write_one msg s)
      else onDisconnect s
  end.

Definition swap_msgs (s : World) : World :=
  let '(MkWorld l lo pu ca op se cd ha pb tk ov sk) := s in
  MkWorld (set_msgs [] l) lo pu ca op se cd ha pb (tk ++ msgs l) ov sk.

Definition write (oks : list bool) (s : World) : World := write_loop oks (msgs (self s)) (swap_msgs s).

(** ** The reader *)

(** "invalid message" *)
Definition invalid_message : list Z := [105; 110; 118; 97; 108; 105; 100; 32; 109; 101; 115; 115; 97; 103; 101].

Definition onUnpackError (s : World) : option World :=
  pub (Raw MSGRESPONSE (MsgResponse_pack (Str invalid_message, Vec []))) s.

(** The task of a request: [Listener::Work] with both hooks. *)
Definition work_task : Task := MkTask 1 true false false 1 true true false.

Definition worker_post (l : Listener) : option Listener :=
  w ← post_notify (post_push work_task (worker l)); Some (set_worker w l).

(** ** Closures *)
Definition runOnLoop (closure : option Z) (s : World) : World :=
  let '(MkWorld l lo pu ca op se cd ha pb tk ov sk) := s in
  match closure with
  | Some c => MkWorld (set_closures (closures l ++ [c]) l) lo pu (S ca) op se cd (ha ++ [c]) pb tk ov sk
  | None => s
  end.

Definition call_notify (s : World) : option World :=
  let '(MkWorld l lo pu ca op se cd ha pb tk ov sk) := s in
  match ca, notify kNotifyMedium (msghub l) with
  | S ca, Some c => Some (MkWorld (set_hub c l) lo pu ca op se cd ha pb tk ov sk)
  | _, _ => None
  end.

Definition call_closures (s : World) : World :=
  let '(MkWorld l lo pu ca op se cd ha pb tk ov sk) := s in
  MkWorld (set_closures [] l) lo pu ca op se (cd ++ closures l) ha pb tk ov
    (sk || bool_decide (msgs l ≠ [])).

(** Open a state, and read and write its members. *)
Ltac open_world s := destruct s as [[st ac pe hu wo ti he rd mg me cl to] lo pu ca op se cd ha pb tk ov sk].
Ltac fields :=
  cbn [on_self stop_looping self looping pubs calls opened sent called handed published taken_ overlap skipped
       set_state set_peer set_hub set_worker set_timer set_heartbeat set_r set_msgs set_metrics set_closures set_timeout
       set_ops state_ activefd peerfd msghub worker timer heartbeat r msgs metrics closures timeout
       onIdle onWork onDisconnect onConnect pub_push swap_msgs call_closures] in *.

Section time.
Context (dbl : Z → MsgHeartbeat) (undbl : MsgHeartbeat → Z).

Definition on_request (now : Z) (req : MsgRequest) (s : World) : option World :=
  let s := on_self (λ l, set_ops (Z.lor (ops (metrics l)) OPMASK) (set_r (MkReader req (msght (r l)) now) l)) s in
  l ← worker_post (self s);
  Some (on_self (λ _, l) s).

Definition on_pong (now : Z) (ht : MsgHeartbeat) (s : World) : World :=
  on_self (λ l, set_heartbeat (updateRTT (now - undbl ht) (with_pong now (heartbeat l)))
    (set_r (MkReader (msgreq (r l)) ht (lastest_readts (r l))) l)) s.

(** [Reader::read], with the bytes the peer sends before it closes. *)
Definition read (now : Z) (stream : list Z) (s : World) : outcome (option World) :=
  let stream := if decide (peerfd (self s) = -1) then [] else stream in
  let '(ok, raw, _) := raw_read (Raw MSGNOTHING []) stream in
  if ok : bool then
    let u := MkUnpacker 0 (zlen (payload raw)) in
    if decide (type raw = MSGREQUEST) then
      '(ok, _, req) ← unpack (payload raw) u (msgreq (r (self s)));
      if ok : bool then Ret (on_request now req s)
      else Ret (onUnpackError (on_self (λ l, set_r (MkReader req (msght (r l)) (lastest_readts (r l))) l) s))
    else if decide (type raw = MSGPONG) then
      '(ok, _, ht) ← unpack (payload raw) u (msght (r (self s)));
      if ok : bool then Ret (Some (on_pong now ht s)) else Ret (onUnpackError s)
    else Ret (Some s)
  else Ret (Some (onDisconnect s)).

(** ** The heartbeat *)
Definition ping (now : Z) (s : World) : bool * World :=
  let h := heartbeat (self s) in
  if decide (now - lastest_readts (r (self s)) < ms HEARTBEAT_DURATION) then (true, s)
  else if decide (retry h = 0) then (false, s)
  else
    let re := if decide (lastest_pingts h > 0 ∧
                (rtt h < 0 ∨ now - lastest_pongts h > ms HEARTBEAT_DURATION + 10 * maxrtt h))
              then retry h - 1 else retry h in
    (true, pub_push (Raw MSGPING (MsgHeartbeat_pack (dbl now))) (on_self (λ l, set_heartbeat (with_ping now re h) l) s)).

(** [Listener::Ping], run by the timer. *)
Definition Ping (now : Z) (s : World) : World :=
  if idle s then
    on_self (λ l, set_metrics (MkMetrics (m_work (metrics l)) (m_idle (metrics l) + HEARTBEAT_DURATION) (m_times (metrics l)) (ops (metrics l))) l) s
  else
    let s := on_self (λ l, set_metrics (MkMetrics (m_work (metrics l) + HEARTBEAT_DURATION) (m_idle (metrics l)) (m_times (metrics l)) (ops (metrics l))) l) s in
    let '(ok, s) := ping now s in
    if ok : bool then s else onDisconnect s.

(** ** The worker's task *)
Definition MAXTESTTIMEOUT : Z := 10.

(** "photo", "view", "cave", "run", "maximum", "hair", "chef", "horror", "hand", "frozen" *)
Definition answers : list (list Z) :=
  [[112; 104; 111; 116; 111]; [118; 105; 101; 119]; [99; 97; 118; 101]; [114; 117; 110]; [109; 97; 120; 105; 109; 117; 109];
   [104; 97; 105; 114]; [99; 104; 101; 102]; [104; 111; 114; 114; 111; 114]; [104; 97; 110; 100]; [102; 114; 111; 122; 101; 110]].

Definition next_timeout (t : Z) : Z := if decide (t + 1 = MAXTESTTIMEOUT) then 0 else t + 1.

(** [Listener::Work] up to the unlock of its [pub]. *)
Definition Work (s : World) : outcome World :=
  let t := next_timeout (timeout (self s)) in
  a ← load answers t;
  Ret (pub_push (Raw MSGRESPONSE (MsgResponse_pack (Str a, Vec [9; 9; 6; 5]))) (on_self (set_timeout t) s)).

(** ** The loop *)

(** What [poll] and the calls of a round find. *)
Record found := Found {
  hub_in : bool; timer_in : bool; active_in : bool; positive_in : bool;
  accepted : Z;
  at_time : Z;
  bytes : list Z;
  oks : list bool;
}.

(** The first part of a round: [true] ends the loop. *)
Definition on_hub (e : found) (s : World) : option (bool * World) :=
  if hub_in e then
    '(ev, c) ← retrieve (msghub (self s));
    let s := on_self (set_hub c) s in
    if decide (ev >= kNotifyLarge) then Some (true, s)
    else if decide (ev >= kNotifyMedium) then Some (false, call_closures s)
    else if decide (ev >= kNotifySmall) then Some (false, write (oks e) s)
    else Some (false, s)
  else Some (false, s).

Definition on_timer (e : found) (s : World) : World :=
  match tstate (timer (self s)) with
  | TimerRunner.WORK => if timer_in e then on_self (λ l, set_timer (post Nil (timer l)).2 l) s else s
  | TimerRunner.IDLE => s
  end.

Definition count_peer (s : World) : World :=
  on_self (λ l, set_metrics (MkMetrics (m_work (metrics l)) (m_idle (metrics l)) (m_times (metrics l) + 1) (ops (metrics l))) l) s.

Definition on_positive (e : found) (s : World) : outcome (option World) :=
  if work s && positive_in e then read (at_time e) (bytes e) s else Ret (Some s).

(** [accept] gives -1, or a descriptor that was not open when the listening one is. *)
Definition acceptable (fd : Z) (s : World) : Prop :=
  fd = -1 ∨ (0 ≤ fd ∧ (fd ∉ opened s) ∧ activefd (self s) ∈ opened s).

#[local] Instance acceptable_dec fd s : Decision (acceptable fd s).
Proof. unfold acceptable. apply _. Defined.

(** The deferred [onWork] runs at the end of the round, after the reading. *)
Definition on_peers (e : found) (s : World) : outcome (option World) :=
  if active_in e then
    if decide (acceptable (accepted e) s) then
      let s := onConnect (accepted e) s in
      if decide (peerfd (self s) = -1) then Ret (Some s)
      else o ← on_positive e (count_peer s); Ret (option_map onWork o)
    else Ret None
  else on_positive e s.

(** One round of the loop of [run]. *)
Definition round (e : found) (s : World) : outcome (option World) :=
  if looping s then
    match on_hub e s with
    | None => Ret None
    | Some (true, s) => Ret (Some (stop_looping s))
    | Some (false, s) =>
        if decide (state_ (self s) = TERMINATED) then Ret (Some (stop_looping s))
        else on_peers e (on_timer e s)
    end
  else Ret None.

(** ** The beginning and the end *)

(** The constructor with the server's descriptor. *)
Definition Listener_new (fd : Z) : Listener :=
  MkListener INITIALIZED fd (-1) 0 runner_start tRunner_new Heartbeat_new
    (MkReader (0, 0) (dbl (-1)) (-1)) [] (MkMetrics 0 0 0 0) [] (-1).

(** [run] up to the loop, at the time [now]: the two test tasks, the two tasks
    that run once and the heartbeat. *)
Definition start_posts (now : Z) (t : tRunner) : tRunner :=
  let t := (post (tTask_new now 1000 TIMERTASK_REPEATED true false false) t).2 in
  let t := (post (tTask_new now 2000 TIMERTASK_REPEATED true false false) t).2 in
  let t := (post (tTask_new now (10 * 1000) TIMERTASK_ONCE false true false) t).2 in
  let t := (post (tTask_new now (20 * 1000) TIMERTASK_ONCE false true false) t).2 in
  (post (tTask_new now HEARTBEAT_DURATION TIMERTASK_REPEATED true false false) t).2.

Definition run_start (fd now : Z) : World :=
  onIdle (on_self (λ l, set_timer (start_posts now (timer l)) l)
    (MkWorld (Listener_new fd) true 0 0 {[fd]} [] [] [] [] [] false false)).

(** [runAfter], at the time [now]: a job that is there, of a known type. *)
Definition runAfter (now : Z) (job : bool) (duration kind : Z) (l : Listener) : Listener :=
  if negb job || bool_decide (kind ≠ TIMERTASK_ONCE ∧ kind ≠ TIMERTASK_REPEATED) then l
  else set_timer (post (tTask_new now duration kind job false false) (timer l)).2 l.

(** [timer.stop()]: its notification. *)
Definition timer_stop (t : tRunner) : tRunner :=
  let '(MkTRunner tm h i mk st ev ru tr di) := t in MkTRunner tm h i mk st (ev + kNotifyQuit) ru tr di.

(** The destructor (the listener is initialised and its descriptor is open). *)
Definition shutdown (s : World) : option World :=
  c ← notify kNotifyLarge (msghub (self s));
  w ← stop (worker (self s));
  let '(MkWorld l lo pu ca op se cd ha pb tk ov sk) := s in
  Some (MkWorld (set_worker w (set_timer (timer_stop (timer l)) (set_hub c l))) lo pu ca (op ∖ {[activefd l]}) se cd ha pb tk ov sk).

(** ** Interleavings *)
Inductive laction :=
| LRound (e : found)
| LPollError                    (** [poll] fails for good *)
| LWorker (a : action)          (** a step of the worker's thread *)
| LPing (now : Z)
| LTimer (a : taction)          (** a step of the timer, or a post or a cancellation *)
| LNotify                       (** a [pub] notifies *)
| LRunOnLoop (c : option Z)
| LRunAfter (now : Z) (job : bool) (duration kind : Z)
| LCall                         (** a [runOnLoop] notifies *)
| LShutdown.                    (** the destructor *)

(** The steps of the worker's thread; the call of a task is [Work]. *)
Definition worker_step (a : action) (s : World) : outcome (option World) :=
  match a with
  | Wake | Lock | Again | RunOne =>
      match step a (worker (self s)) with
      | None => Ret None
      | Some o =>
          w ← o;
          let s := on_self (set_worker w) s in
          match a with RunOne => s ← Work s; Ret (Some s) | _ => Ret (Some s) end
      end
  | _ => Ret None
  end.

Definition lstep (a : laction) (s : World) : outcome (option World) :=
  match a with
  | LRound e => round e s
  | LPollError => Ret (if looping s then Some (stop_looping s) else None)
  | LWorker a => worker_step a s
  | LPing now => Ret (Some (Ping now s))
  | LTimer a =>
      match tstep a (timer (self s)) with
      | None => Ret None
      | Some o => t ← o; Ret (Some (on_self (set_timer t) s))
      end
  | LNotify => Ret (pub_notify s)
  | LRunOnLoop c => Ret (Some (runOnLoop c s))
  | LRunAfter now job duration kind => Ret (Some (on_self (runAfter now job duration kind) s))
  | LCall => Ret (call_notify s)
  | LShutdown => Ret (shutdown s)
  end.

Inductive lreachable (fd now : Z) : World → Prop :=
| lreachable_start : lreachable fd now (run_start fd now)
| lreachable_step s a s' :
    lreachable fd now s → lstep a s = Ret (Some s') → lreachable fd now s'.

(** ** The invariant *)

(** What holds at every point of every thread. *)
Record core (s : World) : Prop := {
  core_retry : 0 ≤ retry (heartbeat (self s)) ≤ HEARTBEAT_MAXRETRY;
  core_rtt : minrtt (heartbeat (self s)) ≤ ms HEARTBEAT_DURATION ∧ maxrtt (heartbeat (self s)) < ms HEARTBEAT_DURATION / 20;
  core_worker : reachable (worker (self s));
  core_timeout : -1 ≤ timeout (self s) < MAXTESTTIMEOUT;
  core_hub : 0 ≤ msghub (self s) ≤ counter_max;
  core_msgs : published s = taken_ s ++ msgs (self s);
  core_closures : handed s = called s ++ closures (self s);
  core_wake_calls : looping s = true → closures (self s) ≠ [] → (0 < calls s)%nat ∨ kNotifyMedium ≤ msghub (self s);
  core_wake_msgs : looping s = true → skipped s = false → msgs (self s) ≠ [] → (0 < pubs s)%nat ∨ 0 < msghub (self s);
}.

(** The part of a state that says who is connected. *)
Record View := MkView { v_state : State; v_active : Z; v_peer : Z; v_opened : gset Z; v_overlap : bool }.

Definition view (s : World) : View :=
  MkView (state_ (self s)) (activefd (self s)) (peerfd (self s)) (opened s) (overlap s).

(** What holds of it between the rounds of the loop. *)
Record peers (v : View) : Prop := {
  peers_state : v_state v = IDLE ∨ v_state v = WORK;
  peers_idle : v_state v = IDLE → v_peer v = -1;
  peers_work : v_overlap v = false → v_state v = WORK → v_peer v ≠ -1;
  peers_opened : v_overlap v = false → v_active v ∈ v_opened v →
    v_opened v = {[v_active v]} ∪ (if decide (v_peer v = -1) then ∅ else {[v_peer v]});
  peers_fds : v_overlap v = false → 0 ≤ v_active v ∧ v_active v ≠ v_peer v;
}.

(** Open a state of the invariant and leave the clauses an operation changes. *)
Ltac keep_core :=
  lazymatch goal with |- context [core ?s] => idtac end;
  match goal with s : World |- _ => open_world s end;
  let H := fresh in intros H; destruct H; fields; constructor; fields; try done.

Lemma core_disconnect s : core s → core (onDisconnect s).
Proof. keep_core; unfold ms, HEARTBEAT_DURATION, HEARTBEAT_MAXRETRY in *; cbn; lia. Qed.

Lemma core_state x s : core s → core (on_self (set_state x) s).
Proof. keep_core. Qed.

Lemma core_stop s : core s → core (stop_looping s).
Proof. keep_core. Qed.

Lemma core_connect fd s : core s → core (onConnect fd s).
Proof. keep_core. Qed.

Lemma core_push msg s : core s → core (pub_push msg s).
Proof.
  keep_core; [by rewrite core_msgs0, <- app_assoc|]. intros. left. lia.
Qed.

Lemma hub_notify ev c c' : notify ev c = Some c' → 0 ≤ ev → c' = c + ev ∧ c ≤ c' ≤ counter_max.
Proof. unfold notify. intros. case_decide; simplify_eq. lia. Qed.

Lemma core_notify s s' : core s → pub_notify s = Some s' → core s'.
Proof.
  open_world s. intros H E. cbn [pub_notify] in E. fields. destruct pu as [|pu]; [done|].
  destruct (notify kNotifySmall hu) eqn:E1; [|done]. apply hub_notify in E1 as [-> ?]; [|done]. simplify_eq.
  destruct H. fields. unfold kNotifySmall in *. constructor; fields; try done; [lia| |].
  - intros H1 H2. destruct (core_wake_calls0 H1 H2); [by left|right; lia].
  - intros. right. lia.
Qed.

Lemma core_write_one msg s : core s → core (write_one msg s).
Proof. open_world s. unfold write_one. fields. intros []; fields. case_decide; constructor; fields; done. Qed.

Lemma core_write_loop oks t s : core s → core (write_loop oks t s).
Proof.
  revert oks s. induction t as [|msg t IH]; intros oks s Hs; cbn [write_loop]; [done|].
  destruct (_ && _); [apply IH; by apply core_write_one|by apply core_disconnect].
Qed.

Lemma core_swap s : core s → core (swap_msgs s).
Proof. keep_core. by rewrite core_msgs0, app_nil_r. Qed.

Lemma core_on_hub e s b s' :
  core s → on_hub e s = Some (b, s') → core (if b then stop_looping s' else s').
Proof.
  intros Hs. unfold on_hub. destruct (hub_in e); [|intros; by simplify_eq].
  unfold retrieve. case_decide as Hz; cbn [mbind option_bind]; [done|].
  case_decide as H1; [|case_decide as H2; [|case_decide as H3]]; intros; simplify_eq.
  - revert Hs Hz H1. open_world s. intros []; fields. unfold counter_max in *. constructor; fields; done.
  - revert Hs Hz H1 H2. open_world s. intros []; fields. intros. unfold counter_max in *. constructor; fields; try done.
    + by rewrite core_closures0, app_nil_r.
    + intros _ Hsk Hm. rewrite bool_decide_true in Hsk by done. by rewrite orb_true_r in Hsk.
  - apply core_write_loop. revert Hs Hz H1 H2. open_world s. intros []; fields. intros. unfold counter_max in *.
    constructor; fields; try done.
    + by rewrite core_msgs0, app_nil_r.
    + intros HL Hc. destruct (core_wake_calls0 HL Hc); [by left|lia].
  - destruct Hs. unfold kNotifySmall in *. lia.
Qed.

Lemma core_on_timer e s : core s → core (on_timer e s).
Proof.
  intros Hs. unfold on_timer. destruct (tstate _); [done|]. destruct (timer_in e); [|done]. revert Hs. keep_core.
Qed.

Lemma worker_post_reachable l l' : worker_post l = Some l' → reachable (worker l) → ∃ w, l' = set_worker w l ∧ reachable w.
Proof.
  unfold worker_post. intros E Hr. destruct (post_notify _) as [w|] eqn:E1; [|done]. cbn [mbind option_bind] in E. simplify_eq.
  exists w. split; [done|]. apply (reachable_step (post_push work_task (worker l)) Notify).
  - by apply (reachable_step (worker l) (Post work_task)).
  - cbn [step]. by rewrite E1.
Qed.

Lemma core_on_request now req s s' : core s → on_request now req s = Some s' → core s'.
Proof.
  intros Hs. unfold on_request. destruct (worker_post _) as [l|] eqn:E; [|done]. cbn [mbind option_bind]. intros [= <-].
  destruct (worker_post_reachable _ _ E) as (w & -> & Hw); [revert Hs; open_world s; intros []; by fields|].
  revert Hs. open_world s. intros []. fields. constructor; fields; done.
Qed.

Lemma core_rtt_update d now h :
  minrtt h ≤ ms HEARTBEAT_DURATION → maxrtt h < ms HEARTBEAT_DURATION / 20 →
  retry (updateRTT d (with_pong now h)) = HEARTBEAT_MAXRETRY ∧
  minrtt (updateRTT d (with_pong now h)) ≤ ms HEARTBEAT_DURATION ∧
  maxrtt (updateRTT d (with_pong now h)) < ms HEARTBEAT_DURATION / 20.
Proof.
  destruct h. cbn [updateRTT with_pong minrtt maxrtt retry]. intros. split_and!; [done|case_decide; lia|case_decide; lia].
Qed.

Lemma core_on_pong now ht s : core s → core (on_pong now ht s).
Proof.
  unfold on_pong. open_world s. intros []. fields. destruct core_rtt0.
  destruct (core_rtt_update (now - undbl ht) now he) as (? & ? & ?); [done..|].
  constructor; fields; try done. unfold HEARTBEAT_MAXRETRY in *. lia.
Qed.

Lemma core_unpack_error s s' : core s → onUnpackError s = Some s' → core s'.
Proof. intros Hs. unfold onUnpackError, pub. apply core_notify. by apply core_push. Qed.

(** Unpacking a request or a heartbeat is defined on every payload. *)
Lemma unpack_raw_defined m k r0 t : 0 ≤ k → 0 ≤ data_ r0 → end_ r0 ≤ zlen m →
  ∃ ok r' t', unpack_raw m k r0 t = Ret (ok, r', t') ∧ 0 ≤ data_ r' ∧ end_ r' = end_ r0.
Proof.
  intros Hk H0 H1. unfold unpack_raw. case_decide; [by exists false, r0, t|].
  unfold load_n. rewrite decide_True by lia. cbind. eexists true, _, _. split; [done|]. cbn [data_ end_]. lia.
Qed.

Lemma unpack_request_defined m t :
  ∃ ok r' t', unpack (A := MsgRequest) m (MkUnpacker 0 (zlen m)) t = Ret (ok, r', t').
Proof.
  destruct (unpack_raw_defined m 4 (MkUnpacker 0 (zlen m)) (int_bytes t.1)) as (ok & r1 & t1 & E & H1 & H2); [lia|cbn; lia|done|].
  cbn [unpack packable_both]. unfold unpack_both. cbn [unpack packable_int]. unfold unpack_int. rewrite E. cbind.
  destruct ok; [|eauto].
  destruct (unpack_raw_defined m 4 r1 (int_bytes t.2)) as (ok & r2 & t2 & E2 & _ & _); [lia|lia|by rewrite H2|].
  rewrite E2. cbind. eauto.
Qed.

Lemma unpack_heartbeat_defined m t :
  ∃ ok r' t', unpack (A := MsgHeartbeat) m (MkUnpacker 0 (zlen m)) t = Ret (ok, r', t').
Proof.
  destruct (unpack_raw_defined m 8 (MkUnpacker 0 (zlen m)) (dbytes t)) as (ok & r1 & t1 & E & _ & _); [lia|cbn; lia|done|].
  cbn [unpack packable_double]. rewrite E. cbind. eauto.
Qed.

(** The results of a reading: it is defined, and one of these. *)
Lemma read_cases now stream s :
  ∃ o, read now stream s = Ret o ∧
    (o = Some (onDisconnect s) ∨ o = Some s ∨ (∃ req, o = on_request now req s) ∨ (∃ ht, o = Some (on_pong now ht s)) ∨
     o = onUnpackError s ∨
     ∃ req, o = onUnpackError (on_self (λ l, set_r (MkReader req (msght (r l)) (lastest_readts (r l))) l) s)).
Proof.
  unfold read. destruct (raw_read _ _) as [[ok raw] rest]. destruct ok; [|eauto 10].
  case_decide.
  - destruct (unpack_request_defined (payload raw) (msgreq (r (self s)))) as (ok & r' & t' & ->). cbind. destruct ok; eauto 10.
  - case_decide; [|eauto 10].
    destruct (unpack_heartbeat_defined (payload raw) (msght (r (self s)))) as (ok & r' & t' & ->). cbind. destruct ok; eauto 10.
Qed.

Lemma core_read now stream s s' : core s → read now stream s = Ret (Some s') → core s'.
Proof.
  intros Hs E. destruct (read_cases now stream s) as (o & E' & Ho). rewrite E in E'. simplify_eq.
  destruct Ho as [Ho|[Ho|[[req Ho]|[[ht Ho]|[Ho|[req Ho]]]]]]; simplify_eq.
  - by apply core_disconnect.
  - done.
  - by eapply core_on_request.
  - by apply core_on_pong.
  - by eapply core_unpack_error.
  - eapply core_unpack_error; [|done]. clear Ho E s'. revert Hs. keep_core.
Qed.

Lemma core_ping now s : core s → core (ping now s).2.
Proof.
  intros Hs. unfold ping. case_decide; [done|]. case_decide; [done|]. cbn [snd]. apply core_push.
  revert Hs. open_world s. intros []. fields. destruct he as [pi po rt mn mx re]. cbn [with_ping retry minrtt maxrtt] in *.
  constructor; fields; cbn [with_ping retry minrtt maxrtt]; try done. case_decide; lia.
Qed.

Lemma core_metrics f s : core s → core (on_self (λ l, set_metrics (f l) l) s).
Proof. keep_core. Qed.

Lemma core_Ping now s : core s → core (Ping now s).
Proof.
  intros Hs. unfold Ping. destruct (idle s); [by apply core_metrics|].
  pose proof (core_ping now _ (core_metrics (λ l, MkMetrics (m_work (metrics l) + HEARTBEAT_DURATION) (m_idle (metrics l)) (m_times (metrics l)) (ops (metrics l))) s Hs)) as Hp.
  destruct (ping now _) as [ok s']. cbn [snd] in Hp. destruct ok; [done|by apply core_disconnect].
Qed.

Lemma Work_defined s : core s → ∃ msg t, -1 ≤ t < MAXTESTTIMEOUT ∧ Work s = Ret (pub_push msg (on_self (set_timeout t) s)).
Proof.
  intros [_ _ _ Ht]. unfold Work, MAXTESTTIMEOUT in *.
  assert (0 ≤ next_timeout (timeout (self s)) < 10) as Hn by (unfold next_timeout, MAXTESTTIMEOUT; case_decide; lia).
  destruct (load answers (next_timeout (timeout (self s)))) as [a| |] eqn:E.
  - cbind. do 2 eexists. split; [|done]. lia.
  - exfalso. revert E. unfold load. rewrite decide_True by lia.
    destruct (answers !! _) eqn:E2; [done|]. apply lookup_ge_None in E2. cbn in E2. lia.
  - exfalso. revert E. unfold load. case_decide; [|done]. by destruct (_ !! _).
Qed.

Lemma core_worker_step a s : core s →
  ∃ o, worker_step a s = Ret o ∧ ∀ s', o = Some s' → core s'.
Proof.
  intros Hs.
  assert (∀ b o, step b (worker (self s)) = Some o → ∃ w, o = Ret w ∧ core (on_self (set_worker w) s)) as Hstep.
  { intros b o Hb. destruct Hs as [? ? Hw]. destruct (runner_step_inv b _ o (runner_reachable_inv _ Hw) Hb) as (w & -> & _).
    exists w. split; [done|]. pose proof (reachable_step _ _ _ Hw Hb) as Hw'. clear Hb. open_world s. fields. constructor; fields; done. }
  unfold worker_step. destruct a; try (eexists; split; [done|]; intros s' ?; by simplify_eq);
    (destruct (step _ _) as [o|] eqn:E; [|eexists; split; [done|]; intros s' ?; by simplify_eq];
     destruct (Hstep _ _ E) as (w & -> & Hw); cbind; try (eexists; split; [done|]; intros s' ?; by simplify_eq)).
  destruct (Work_defined _ Hw) as (msg & t & Ht & ->). cbind. eexists. split; [done|]. intros s' [= <-]. apply core_push.
  clear E Hstep Hs. revert Hw. generalize (on_self (set_worker w) s). clear s. intros s. keep_core.
Qed.

Lemma core_runOnLoop c s : core s → core (runOnLoop c s).
Proof.
  open_world s. destruct c as [c|]; cbn [runOnLoop]; [|done]. intros []; fields; constructor; fields; try done.
  - by rewrite core_closures0, <- app_assoc.
  - intros. left. lia.
Qed.

Lemma core_runAfter now job d k s : core s → core (on_self (runAfter now job d k) s).
Proof. open_world s. intros []. fields. unfold runAfter. destruct (_ || _); constructor; fields; done. Qed.

Lemma core_call s s' : core s → call_notify s = Some s' → core s'.
Proof.
  open_world s. intros H E. cbn [call_notify] in E. fields. destruct ca as [|ca]; [done|].
  destruct (notify kNotifyMedium hu) eqn:E1; [|done]. apply hub_notify in E1 as [-> ?]; [|done]. simplify_eq.
  destruct H. fields. constructor; fields; change kNotifyMedium with 2147483648 in *; try done; [lia| |].
  - intros H1 H2. right. lia.
  - intros H1 H2 H3. destruct (core_wake_msgs0 H1 H2 H3); [by left|right; lia].
Qed.

Lemma core_shutdown s s' : core s → shutdown s = Some s' → core s'.
Proof.
  open_world s. intros H E. unfold shutdown in E. fields.
  destruct (notify kNotifyLarge hu) as [c|] eqn:E1; [|done]. cbn [mbind option_bind] in E.
  destruct (stop wo) as [w|] eqn:E2; [|done]. cbn [mbind option_bind] in E. simplify_eq.
  apply hub_notify in E1 as [-> ?]; [|done]. destruct H. fields. change kNotifyLarge with 9223372036854775808 in *.
  constructor; fields; change kNotifyMedium with 2147483648 in *; try done; [|lia| |].
  - apply (reachable_step wo Stop); [done|]. cbn [step]. by rewrite E2.
  - intros H1 H2. destruct (core_wake_calls0 H1 H2); [by left|right; lia].
  - intros H1 H2 H3. destruct (core_wake_msgs0 H1 H2 H3); [by left|right; lia].
Qed.

Lemma core_on_positive e s :
  core s → ∃ o, on_positive e s = Ret o ∧ ∀ s', o = Some s' → core s'.
Proof.
  intros Hs. unfold on_positive. destruct (_ && _); [|exists (Some s); split; [done|]; intros; by simplify_eq].
  destruct (read_cases (at_time e) (bytes e) s) as (o & E & _). exists o. split; [done|].
  intros s' ->. by eapply core_read.
Qed.

Lemma core_round e s : core s → ∃ o, round e s = Ret o ∧ ∀ s', o = Some s' → core s'.
Proof.
  intros Hs. unfold round. destruct (looping s); [|exists None; split; [done|]; intros; by simplify_eq].
  destruct (on_hub e s) as [[b s1]|] eqn:E; [|exists None; split; [done|]; intros; by simplify_eq].
  pose proof (core_on_hub _ _ _ _ Hs E) as H1. destruct b.
  { eexists. split; [done|]. intros s' [= <-]. done. }
  case_decide; [eexists; split; [done|]; intros s' [= <-]; by apply core_stop|].
  apply (core_on_timer e) in H1. unfold on_peers. destruct (active_in e); [|by apply core_on_positive].
  case_decide; [|eexists; split; [done|]; intros; by simplify_eq].
  apply (core_connect (accepted e)) in H1. case_decide; [eexists; split; [done|]; intros s' [= <-]; done|].
  destruct (core_on_positive e (count_peer (onConnect (accepted e) (on_timer e s1)))) as (o & -> & Ho); [by apply core_metrics|].
  cbind. eexists. split; [done|]. intros s' Hs'. destruct o as [o|]; [|done]. cbn in Hs'. simplify_eq.
  apply core_state. by apply Ho.
Qed.

(** Every step but the timer's own is defined. *)
Lemma core_step a s :
  core s → (∀ t, a ≠ LTimer t) → ∃ o, lstep a s = Ret o ∧ ∀ s', o = Some s' → core s'.
Proof.
  intros Hs Ha. destruct a; cbn [lstep].
  - by apply core_round.
  - eexists. split; [done|]. intros s' Hs'. destruct (looping s); simplify_eq. by apply core_stop.
  - by apply core_worker_step.
  - eexists. split; [done|]. intros s' [= <-]. by apply core_Ping.
  - by edestruct Ha.
  - eexists. split; [done|]. intros s'. by apply core_notify.
  - eexists. split; [done|]. intros s' [= <-]. by apply core_runOnLoop.
  - eexists. split; [done|]. intros s' [= <-]. by apply core_runAfter.
  - eexists. split; [done|]. intros s'. by apply core_call.
  - eexists. split; [done|]. intros s'. by apply core_shutdown.
Qed.

Lemma core_lstep a s s' : core s → lstep a s = Ret (Some s') → core s'.
Proof.
  intros Hs E. assert ((∃ t, a = LTimer t) ∨ ∀ t, a ≠ LTimer t) as [[t ->]|Ha] by (destruct a; eauto).
  2: { destruct (core_step a s Hs Ha) as (o & E' & H). rewrite E in E'. simplify_eq. by apply H. }
  cbn [lstep] in E. destruct (tstep _ _) as [[t'| |]|]; try done. cbn in E. simplify_eq. clear t. revert Hs. keep_core.
Qed.

(** ** Who is connected *)
Definition left_peer (v : View) : View :=
  MkView IDLE (v_active v) (-1) (v_opened v ∖ {[v_peer v]}) (v_overlap v).

Lemma view_disconnect s : view (onDisconnect s) = left_peer (view s).
Proof. by open_world s. Qed.

Lemma peers_left v : peers v → peers (left_peer v).
Proof.
  destruct v as [st ac pe op ov]. intros []. unfold left_peer. cbn in *. constructor; cbn; try done; [by left| |].
  - intros Ho Hin. rewrite decide_True by done. destruct (peers_fds0 Ho). rewrite (peers_opened0 Ho) by set_solver.
    case_decide; set_solver.
  - intros Ho. destruct (peers_fds0 Ho). lia.
Qed.

(** A step of the reading and writing leaves the view as it is or disconnects. *)
Definition stays (s s' : World) : Prop := view s' = view s ∨ view s' = left_peer (view s).

Lemma view_notify s s' : pub_notify s = Some s' → view s' = view s.
Proof. open_world s. cbn [pub_notify]. destruct pu; [done|]. destruct (notify _ _); [|done]. by intros [= <-]. Qed.

Lemma view_write oks t s : stays s (write_loop oks t s).
Proof.
  revert oks s. induction t as [|msg t IH]; intros oks s; cbn [write_loop]; [by left|].
  destruct (_ && _); [|right; apply view_disconnect].
  assert (view (write_one msg s) = view s) as E by (open_world s; cbn; by case_decide).
  destruct (IH (tail oks) (write_one msg s)) as [H|H]; rewrite E in H; [by left|by right].
Qed.

Lemma view_hub e s b s' : on_hub e s = Some (b, s') → stays s s'.
Proof.
  unfold on_hub. destruct (hub_in e); [|intros; simplify_eq; by left].
  destruct (retrieve _) as [[ev c]|]; [|done]. cbn [mbind option_bind].
  repeat case_decide; intros; simplify_eq; try (left; by open_world s).
  destruct (view_write (oks e) (msgs (self (on_self (set_hub c) s))) (swap_msgs (on_self (set_hub c) s))) as [Hv|Hv];
    [left|right]; unfold write; rewrite Hv; by open_world s.
Qed.

Lemma view_read now stream s s' : read now stream s = Ret (Some s') → stays s s'.
Proof.
  intros E. destruct (read_cases now stream s) as (o & E' & Ho). rewrite E in E'. simplify_eq.
  assert (∀ msg s1, view s1 = view s → pub msg s1 = Some s' → view s' = view s) as Hpub.
  { intros msg s1 Hv Hp. apply view_notify in Hp. rewrite Hp, <- Hv. by open_world s1. }
  destruct Ho as [Ho|[Ho|[[req Ho]|[[ht Ho]|[Ho|[req Ho]]]]]]; simplify_eq.
  - right. apply view_disconnect.
  - by left.
  - left. unfold on_request, worker_post in Ho. destruct (post_notify _); [|done]. cbn in Ho. simplify_eq. by open_world s.
  - left. by open_world s.
  - left. by eapply Hpub.
  - left. eapply Hpub; [|done]. by open_world s.
Qed.

Lemma view_positive e s s' : on_positive e s = Ret (Some s') → stays s s'.
Proof. unfold on_positive. destruct (_ && _); [apply view_read|]. intros [= <-]. by left. Qed.

Lemma stays_peers s s' : stays s s' → peers (view s) → peers (view s').
Proof. intros [-> | ->]; [done|apply peers_left]. Qed.

Lemma stays_overlap s s' : stays s s' → overlap s' = overlap s.
Proof. intros [E|E]; [by apply (f_equal v_overlap) in E|by apply (f_equal v_overlap) in E]. Qed.

Lemma view_connect fd s :
  view (onConnect fd s) =
    MkView (state_ (self s)) (activefd (self s)) fd (if decide (fd = -1) then opened s else {[fd]} ∪ opened s) (overlap s || work s).
Proof. by open_world s. Qed.

(** Accepting: nobody, somebody while idle, somebody while there is a peer. *)
Lemma peers_connect_failed s : peers (view s) → peers (view (onConnect (-1) s)).
Proof.
  rewrite view_connect, decide_True by done. unfold work. intros [[Hst|Hst] Hi]; cbn in *; rewrite Hst in *.
  - rewrite bool_decide_false, orb_false_r by done. rewrite Hi in * by done. constructor; cbn; try done. by left.
  - rewrite bool_decide_true, orb_true_r by done. constructor; cbn; try done. by right.
Qed.

Lemma peers_connect_idle fd s :
  peers (view s) → work s = false → fd ≠ -1 → acceptable fd s → peers (view (onWork (onConnect fd s))).
Proof.
  unfold work. intros [Hst Hi Hw Hop Hfd] Hwork Hne Hacc. apply bool_decide_eq_false in Hwork. cbn in *.
  destruct Hst as [Hst|]; [|done]. destruct Hacc as [|(Hge & Hnew & Hac)]; [done|].
  assert (view (onWork (onConnect fd s)) = MkView WORK (activefd (self s)) fd ({[fd]} ∪ opened s) (overlap s)) as ->.
  { open_world s. unfold view. fields. rewrite decide_False by done. unfold work. cbn [self state_]. rewrite bool_decide_false by done. by rewrite orb_false_r. }
  constructor; cbn; try done; [by right|..].
  - intros Ho _. rewrite decide_False by done. rewrite (Hop Ho Hac), decide_True by auto. set_solver.
  - intros Ho. destruct (Hfd Ho). split; [done|]. set_solver.
Qed.

Lemma peers_overlapping s : overlap s = true → peers (view (onWork s)).
Proof. open_world s. intros Ho. fields. subst. constructor; cbn; try done. by right. Qed.

Lemma peers_on_peers e s s' : peers (view s) → on_peers e s = Ret (Some s') → peers (view s').
Proof.
  intros Hv. unfold on_peers. destruct (active_in e).
  2: { intros E%view_positive. by eapply stays_peers. }
  destruct (decide (acceptable (accepted e) s)) as [Hacc|]; [|done].
  assert (peerfd (self (onConnect (accepted e) s)) = accepted e) as -> by (by open_world s). case_decide as Hfd.
  { rewrite Hfd. intros [= <-]. by apply peers_connect_failed. }
  assert (overlap (count_peer (onConnect (accepted e) s)) = overlap s || work s) as Hov by (by open_world s).
  assert (work (count_peer (onConnect (accepted e) s)) = work s) as Hwk by (by open_world s).
  destruct (on_positive e _) as [[s1|]| |] eqn:E; try done. cbind. cbn [option_map]. intros [= <-].
  destruct (work s) eqn:Hw.
  - apply view_positive, stays_overlap in E. apply peers_overlapping. by rewrite E, Hov, orb_true_r.
  - unfold on_positive in E. rewrite Hwk in E. cbn [andb] in E. simplify_eq.
    replace (view (onWork (count_peer (onConnect (accepted e) s)))) with (view (onWork (onConnect (accepted e) s))) by (by open_world s).
    by apply peers_connect_idle.
Qed.

Lemma peers_round e s s' : peers (view s) → round e s = Ret (Some s') → peers (view s').
Proof.
  intros Hv. unfold round. destruct (looping s); [|done]. destruct (on_hub e s) as [[b s1]|] eqn:E; [|done].
  apply view_hub in E. apply (stays_peers _ _ E) in Hv.
  assert (∀ s, view (stop_looping s) = view s) as Hstop by (intros s0; by open_world s0).
  destruct b; [intros [= <-]; by rewrite Hstop|]. case_decide; [intros [= <-]; by rewrite Hstop|].
  apply peers_on_peers. replace (view (on_timer e s1)) with (view s1); [done|].
  unfold on_timer. destruct (tstate _); [done|]. destruct (timer_in e); [|done]. by open_world s1.
Qed.

Lemma view_Ping now s : stays s (Ping now s).
Proof.
  unfold Ping. destruct (idle s); [left; by open_world s|]. unfold ping. case_decide; [left; by open_world s|].
  case_decide; [right; rewrite view_disconnect; by open_world s|left; by open_world s].
Qed.

Lemma peers_shutdown s s' : peers (view s) → shutdown s = Some s' → peers (view s').
Proof.
  intros Hv. unfold shutdown. destruct (notify _ _); [|done]. cbn [mbind option_bind]. destruct (stop _); [|done]. cbn [mbind option_bind].
  open_world s. intros [= <-]. destruct Hv. constructor; cbn in *; try done. intros _ Hin. set_solver.
Qed.

Lemma peers_step a s s' : peers (view s) → lstep a s = Ret (Some s') → peers (view s').
Proof.
  intros Hv E. destruct a as [e| |a|now|a| |c|now job d k| |]; cbn [lstep] in E.
  - by eapply peers_round.
  - destruct (looping s); simplify_eq. by open_world s.
  - assert (view s' = view s) as ->; [|done]. unfold worker_step, Work in E.
    destruct a; try done; (destruct (step _ _) as [[w| |]|]; try done; cbind; cbn in E; simplify_eq; try by open_world s).
    destruct (load _ _); cbn in E; simplify_eq. by open_world s.
  - simplify_eq. eapply stays_peers; [apply view_Ping|done].
  - destruct (tstep _ _) as [[t| |]|]; try done. cbn in E. simplify_eq. by open_world s.
  - assert (view s' = view s) as ->; [|done]. injection E as E. by apply view_notify.
  - simplify_eq. open_world s. by destruct c.
  - simplify_eq. open_world s. fields. unfold runAfter. by destruct (_ || _).
  - open_world s. cbn [call_notify] in E. destruct ca; [done|]. destruct (notify _ _); [|done]. by simplify_eq.
  - injection E as E. by eapply peers_shutdown.
Qed.

Lemma lreachable_inv fd now s : 0 ≤ fd → lreachable fd now s → core s ∧ peers (view s).
Proof.
  intros Hfd. induction 1 as [|s a s' Hs [Hc Hp] E].
  - split; [constructor|constructor]; cbn; try done; try (unfold ms; cbn; lia); [by constructor|by left|set_solver].
  - split; [by eapply core_lstep|by eapply peers_step].
Qed.

(** ** Runs *)
Fixpoint lexec (acts : list laction) (s : World) : outcome (option World) :=
  match acts with
  | [] => Ret (Some s)
  | a :: acts =>
      o ← lstep a s;
      match o with Some s' => lexec acts s' | None => Ret None end
  end.

Lemma lexec_reachable fd now acts s s' : lreachable fd now s → lexec acts s = Ret (Some s') → lreachable fd now s'.
Proof.
  revert s. induction acts as [|a acts IH]; intros s Hs E; cbn [lexec] in E; [by simplify_eq|].
  destruct (lstep a s) as [[s1|]| |] eqn:E1; try done. cbn in E. apply (IH s1); [by eapply lreachable_step|done].
Qed.

(** A frame arrives, with nothing else to do. *)
Definition frame_round (now : Z) (bs : list Z) : laction := LRound (Found false false false true (-1) now bs []).

(** The hub has been notified, and every [writev] takes everything. *)
Definition hub_round (now : Z) : laction := LRound (Found true false false false (-1) now [] []).

Lemma frame_round_read now bs s :
  looping s = true → work s = true → lstep (frame_round now bs) s = read now bs s.
Proof.
  intros Hl Hw. unfold frame_round. cbn [lstep]. unfold round. rewrite Hl. unfold on_hub. cbn [hub_in].
  rewrite decide_False by (apply bool_decide_eq_true in Hw; congruence).
  unfold on_timer. cbn [timer_in]. destruct (tstate _); unfold on_peers, on_positive; cbn [active_in positive_in at_time bytes]; by rewrite Hw.
Qed.


Lemma read_pong now ht rest s :
  peerfd (self s) ≠ -1 → length (dbytes ht) = 8%nat →
  read now (raw_write (Raw MSGPONG (MsgHeartbeat_pack ht)) ++ rest) s = Ret (Some (on_pong now ht s)).
Proof.
  intros Hp Hl. unfold read. rewrite decide_False by done.
  rewrite raw_roundtrip by (done || (unfold sized; cbn [payload]; unfold MsgHeartbeat_pack; cbn [pack packable_double]; lia)).
  cbn [type payload]. rewrite decide_False by done. rewrite decide_True by done. unfold MsgHeartbeat_pack.
  cbn [pack unpack packable_double].
  pose proof (unpack_raw_fits (dbytes ht) [] [] 8 (dbytes (msght (r (self s)))) 8 ltac:(lia) ltac:(cbn; lia)) as E.
  cbn [app] in E. rewrite app_nil_r in E. change (zlen (@nil Z)) with 0 in E. replace (zlen (dbytes ht)) with 8 by lia.
  rewrite E. cbind. by destruct ht.
Qed.









Lemma lexec_app l1 l2 s s' : lexec l1 s = Ret (Some s') → lexec (l1 ++ l2) s = lexec l2 s'.
Proof.
  revert s. induction l1 as [|a l1 IH]; intros s E; cbn [lexec app] in *; [by simplify_eq|].
  destruct (lstep a s) as [[s1|]| |]; try done. cbind. by apply IH.
Qed.




(** ** The heartbeat *)
Definition overdue (s : World) (t : Z) : Prop := 0 < t ∧ ms HEARTBEAT_DURATION ≤ t - lastest_readts (r (self s)).

Definition ping_frame (t : Z) : MsgRaw := Raw MSGPING (MsgHeartbeat_pack (dbl t)).

(** A ping that is sent, and what it costs. *)
Lemma Ping_sent t s :
  work s = true → overdue s t → 0 < retry (heartbeat (self s)) →
  let h := heartbeat (self s) in
  ∃ re, (re = retry h ∨ re = retry h - 1) ∧
    (lastest_pingts h ≤ 0 → re = retry h) ∧ (0 < lastest_pingts h → rtt h < 0 → re = retry h - 1) ∧
    heartbeat (self (Ping t s)) = with_ping t re h ∧ work (Ping t s) = true ∧ peerfd (self (Ping t s)) = peerfd (self s) ∧
    opened (Ping t s) = opened s ∧ looping (Ping t s) = looping s ∧
    lastest_readts (r (self (Ping t s))) = lastest_readts (r (self s)) ∧
    msgs (self (Ping t s)) = msgs (self s) ++ [ping_frame t].
Proof.
  intros Hw [Ht Hov] Hre. apply bool_decide_eq_true in Hw. revert Hw Hov Hre. open_world s. fields. intros -> Hov Hre.
  unfold Ping, idle, ping. cbn [self state_]. rewrite bool_decide_false by done. fields.
  rewrite decide_False by lia. rewrite (decide_False (P := retry he = 0)) by lia.
  eexists. split; [|split; [|split; [|split; [reflexivity|by split_and!]]]]; case_decide; try lia; auto; tauto.
Qed.

Lemma pings_spend ts s :
  work s = true → 0 < lastest_pingts (heartbeat (self s)) → rtt (heartbeat (self s)) < 0 →
  Forall (overdue s) ts → retry (heartbeat (self s)) = zlen ts →
  let s' := foldl (λ s t, Ping t s) s ts in
  work s' = true ∧ retry (heartbeat (self s')) = 0 ∧ peerfd (self s') = peerfd (self s) ∧ opened s' = opened s ∧
  lastest_readts (r (self s')) = lastest_readts (r (self s)) ∧
  msgs (self s') = msgs (self s) ++ map ping_frame ts.
Proof.
  revert s. induction ts as [|t ts IH]; intros s Hw Hp Hr Hov Hre; cbn [foldl map]; [by rewrite app_nil_r|].
  apply Forall_cons in Hov as [Ht Hov]. cbn [length] in Hre.
  destruct (Ping_sent t s Hw Ht ltac:(lia)) as (re & _ & _ & Hre' & Hh & Hw' & Hp' & Ho' & _ & Hl' & Hm').
  specialize (Hre' Hp Hr). destruct (IH (Ping t s)) as (H1 & H2 & H3 & H4 & H5 & H6); try rewrite Hh; try done.
  - destruct (heartbeat (self s)). destruct Ht. cbn. lia.
  - by destruct (heartbeat (self s)).
  - eapply Forall_impl; [done|]. intros t' [? ?]. split; [done|]. by rewrite Hl'.
  - destruct (heartbeat (self s)). cbn in *. lia.
  - rewrite H1, H2, H3, H4, H5, H6, Hp', Ho', Hl', Hm', <- app_assoc. done.
Qed.

(** Nothing left to retry: the peer is left. *)
Lemma Ping_leaves t s :
  work s = true → overdue s t → retry (heartbeat (self s)) = 0 →
  idle (Ping t s) = true ∧ peerfd (self (Ping t s)) = -1 ∧ opened (Ping t s) = opened s ∖ {[peerfd (self s)]} ∧
  heartbeat (self (Ping t s)) = Heartbeat_new.
Proof.
  intros Hw [Ht Hov] Hre. assert (idle s = false) as Hi.
  { unfold idle. apply bool_decide_eq_true in Hw. by rewrite bool_decide_false by congruence. }
  unfold Ping. rewrite Hi. unfold ping. revert Hov Hre. open_world s. fields. intros.
  rewrite decide_False by lia. rewrite (decide_True (P := retry he = 0)) by done. done.
Qed.

(** ** Properties *)

(** With rounds and heartbeats taken whole, the listener's loop, its worker, its
    heartbeat and the threads that publish or hand over closures: no step is
    undefined (but the timer's own arithmetic), messages leave the queue in the
    order they were published, none lost or twice, closures are called in the
    order they were handed over, and while the loop runs a waiting closure has
    its notification pending, and so has a waiting message unless a round that
    called closures passed it over. *)
Theorem listener_safe fd now s :
  0 ≤ fd → lreachable fd now s →
  (∀ a, (∀ t, a ≠ LTimer t) → ∃ o, lstep a s = Ret o) ∧
  published s = taken_ s ++ msgs (self s) ∧ handed s = called s ++ closures (self s) ∧
  (looping s = true → closures (self s) ≠ [] → (0 < calls s)%nat ∨ kNotifyMedium ≤ msghub (self s)) ∧
  (looping s = true → skipped s = false → msgs (self s) ≠ [] → (0 < pubs s)%nat ∨ 0 < msghub (self s)).
Proof.
  intros Hfd Hr. destruct (lreachable_inv _ _ _ Hfd Hr) as [Hc _]. pose proof Hc as []. split_and!; try done.
  intros a Ha. destruct (core_step a s Hc Ha) as (o & E & _). eauto.
Qed.

(** With rounds and heartbeats taken whole, the listener's state is well formed: it is
    idle or at work, idle exactly without a peer as long as peers come one at a
    time, and then the listening descriptor and the peer's are all it has open;
    the retries stay between 0 and 5, the best round trip is at most and the
    worst less than their limits. *)
Theorem listener_well_formed fd now s :
  0 ≤ fd → lreachable fd now s →
  (state_ (self s) = IDLE ∨ state_ (self s) = WORK) ∧
  (state_ (self s) = IDLE → peerfd (self s) = -1) ∧
  (overlap s = false →
    (state_ (self s) = IDLE ↔ peerfd (self s) = -1) ∧
    (activefd (self s) ∈ opened s →
      opened s = {[activefd (self s)]} ∪ (if decide (peerfd (self s) = -1) then ∅ else {[peerfd (self s)]}))) ∧
  0 ≤ retry (heartbeat (self s)) ≤ 5 ∧
  minrtt (heartbeat (self s)) ≤ ms 5000 ∧ maxrtt (heartbeat (self s)) < ms 250.
Proof.
  intros Hfd Hr. destruct (lreachable_inv _ _ _ Hfd Hr) as [[Hre [Hmin Hmax]] [Hst Hi Hw Hop _]]. cbn in *.
  split_and!; try done; try (unfold HEARTBEAT_MAXRETRY in *; lia). intros Ho. split; [|by apply Hop].
  split; [done|]. intros Hp. destruct Hst as [|Hst]; [done|]. by destruct (Hw Ho Hst).
Qed.





(** A silent peer is left: from the beginning of a session, heartbeats
    that find nothing read for five seconds each publish a ping with the time;
    the first six keep the peer, and the seventh closes its descriptor, goes
    idle and starts the heartbeat's state afresh. *)
Theorem silent_peer_left s t0 ts t :
  work s = true → heartbeat (self s) = Heartbeat_new → length ts = 5%nat → Forall (overdue s) (t0 :: ts ++ [t]) →
  let s6 := foldl (λ s t, Ping t s) s (t0 :: ts) in
  work s6 = true ∧ peerfd (self s6) = peerfd (self s) ∧ opened s6 = opened s ∧
  msgs (self s6) = msgs (self s) ++ map ping_frame (t0 :: ts) ∧
  idle (Ping t s6) = true ∧ peerfd (self (Ping t s6)) = -1 ∧ opened (Ping t s6) = opened s ∖ {[peerfd (self s)]} ∧
  heartbeat (self (Ping t s6)) = Heartbeat_new.
Proof.
  intros Hw Hh Hl Hov. apply Forall_cons in Hov as [Ht0 Hov]. rewrite Forall_app, Forall_singleton in Hov. destruct Hov as [Hts Ht].
  cbn [foldl]. destruct (Ping_sent t0 s Hw Ht0) as (re & _ & Hre & _ & Hh' & Hw' & Hp' & Ho' & _ & Hl' & Hm'); [by rewrite Hh|].
  rewrite Hh in *. assert (re = 5) as -> by (by apply Hre).
  destruct (pings_spend ts (Ping t0 s)) as (H1 & H2 & H3 & H4 & H5 & H6); try rewrite Hh'; try done.
  - destruct Ht0. cbn. lia.
  - eapply Forall_impl; [done|]. intros t' [? ?]. split; [done|]. by rewrite Hl'.
  - cbn. by rewrite Hl.
  - destruct (Ping_leaves t (foldl (λ s t, Ping t s) (Ping t0 s) ts) H1) as (H7 & H8 & H9 & H10); [|done|].
    { destruct Ht as [Ht1 Ht2]. split; [exact Ht1|]. rewrite H5, Hl'. exact Ht2. }
    rewrite H7, H8, H9, H10, H1, H3, H4, H6, Hp', Ho', Hm', <- app_assoc. by split_and!.
Qed.

(** A heartbeat, and the pong that carries its time back. *)
Definition ponged (c : Z * Z) : list laction :=
  [LPing c.1; frame_round c.2 (raw_write (Raw MSGPONG (MsgHeartbeat_pack (dbl c.1))))].

Section bytes.
Context (dbl_bytes : ∀ t, length (dbytes (dbl t)) = 8%nat) (dbl_undbl : ∀ t, 0 ≤ t < 2 ^ 63 → undbl (dbl t) = t).

Lemma ponged_one c s :
  looping s = true → work s = true → peerfd (self s) ≠ -1 → retry (heartbeat (self s)) = HEARTBEAT_MAXRETRY →
  ∃ s', lexec (ponged c) s = Ret (Some s') ∧ looping s' = true ∧ work s' = true ∧ peerfd (self s') = peerfd (self s) ∧
    retry (heartbeat (self s')) = HEARTBEAT_MAXRETRY ∧ (0 ≤ c.1 < 2 ^ 63 → rtt (heartbeat (self s')) = c.2 - c.1) ∧
    lastest_readts (r (self s')) = lastest_readts (r (self s)).
Proof.
  intros Hl Hw Hp Hre. unfold ponged. cbn [lexec lstep]. cbind.
  assert (looping (Ping c.1 s) = true ∧ work (Ping c.1 s) = true ∧ peerfd (self (Ping c.1 s)) = peerfd (self s) ∧
    lastest_readts (r (self (Ping c.1 s))) = lastest_readts (r (self s))) as (Hl' & Hw' & Hp' & Hr').
  { unfold Ping. assert (idle s = false) as -> by (unfold idle; apply bool_decide_eq_true in Hw; by rewrite bool_decide_false by congruence).
    unfold ping. revert Hl Hw Hp Hre. open_world s. fields. intros. case_decide; [by split_and!|].
    rewrite decide_False by (unfold HEARTBEAT_MAXRETRY in *; lia). by split_and!. }
  change (lstep (frame_round ?a ?b) ?s) with (lstep (frame_round a b) s).
  pose proof (frame_round_read c.2 (raw_write (Raw MSGPONG (MsgHeartbeat_pack (dbl c.1)))) (Ping c.1 s) Hl' Hw') as E.
  cbn [lstep] in E. rewrite E. clear E.
  pose proof (read_pong c.2 (dbl c.1) [] (Ping c.1 s) ltac:(congruence) (dbl_bytes c.1)) as E. rewrite app_nil_r in E. rewrite E. cbind.
  eexists. split; [done|]. rewrite <- Hp', <- Hr'. clear E Hp' Hr'. revert Hl' Hw'. generalize (Ping c.1 s). intros s1. open_world s1. fields. intros.
  destruct he. split_and!; try done. intros. cbn. by rewrite dbl_undbl.
Qed.

(** A peer that answers is kept: whatever the times, a peer that sends
    every ping's time back before the next heartbeat is never left, has all its
    retries after each pong, and the last round trip is the time between the
    heartbeat and the pong. *)
Theorem answering_peer_kept s cs c :
  looping s = true → work s = true → peerfd (self s) ≠ -1 → retry (heartbeat (self s)) = HEARTBEAT_MAXRETRY →
  0 ≤ c.1 < 2 ^ 63 →
  ∃ s', lexec (concat (map ponged (cs ++ [c]))) s = Ret (Some s') ∧ work s' = true ∧ peerfd (self s') = peerfd (self s) ∧
    retry (heartbeat (self s')) = HEARTBEAT_MAXRETRY ∧ rtt (heartbeat (self s')) = c.2 - c.1.
Proof.
  intros Hl Hw Hp Hre Hc. revert s Hl Hw Hp Hre. induction cs as [|c0 cs IH]; intros s Hl Hw Hp Hre.
  - destruct (ponged_one c s Hl Hw Hp Hre) as (s' & E & _ & ? & ? & ? & Hrtt & _). exists s'. split_and!; auto.
  - destruct (ponged_one c0 s Hl Hw Hp Hre) as (s1 & E & Hl1 & Hw1 & Hp1 & Hre1 & _).
    destruct (IH s1 Hl1 Hw1 ltac:(congruence) Hre1) as (s' & E' & ? & Hp' & ? & ?).
    exists s'. cbn [app map concat]. rewrite (lexec_app _ _ _ _ E). split_and!; [done..|congruence|done|done].
Qed.
End bytes.

(** ** What goes wrong *)

(** A round that finds both kinds of notification only calls the closures: the
    messages stay, and nothing is pending that would have them written. *)
Lemma messages_passed_over now s :
  looping s = true → state_ (self s) ≠ TERMINATED → kNotifyMedium ≤ msghub (self s) < kNotifyLarge →
  ∃ s', lstep (hub_round now) s = Ret (Some s') ∧ msgs (self s') = msgs (self s) ∧ msghub (self s') = 0 ∧ sent s' = sent s.
Proof.
  intros Hl Hst Hh. change kNotifyMedium with 2147483648 in Hh. change kNotifyLarge with 9223372036854775808 in Hh.
  unfold hub_round. cbn [lstep]. unfold round. rewrite Hl. unfold on_hub. cbn [hub_in oks]. unfold retrieve. rewrite decide_False by lia.
  cbn [mbind option_bind]. rewrite decide_False by (change kNotifyLarge with 9223372036854775808; lia).
  rewrite decide_True by (change kNotifyMedium with 2147483648; lia).
  rewrite decide_False by (by open_world s).
  exists (call_closures (on_self (set_hub 0) s)). split; [|by open_world s].
  unfold on_timer, on_peers, on_positive. cbn [timer_in active_in positive_in].
  destruct (tstate _); by rewrite andb_false_r.
Qed.

(** A second peer that connects and closes while the first has sent something:
    the round reads from the second, leaves it, and then goes to work without
    a peer; the first one's descriptor stays open and is forgotten. *)
Lemma second_peer_loses_first now fd s :
  looping s = true → work s = true → fd ≠ -1 → acceptable fd s → peerfd (self s) ∈ opened s →
  ∃ s', lstep (LRound (Found false false true true fd now [] [])) s = Ret (Some s') ∧
    work s' = true ∧ peerfd (self s') = -1 ∧ peerfd (self s) ∈ opened s'.
Proof.
  intros Hl Hw Hne Hacc Hin. cbn [lstep]. unfold round. rewrite Hl. unfold on_hub. cbn [hub_in].
  rewrite decide_False by (apply bool_decide_eq_true in Hw; congruence).
  assert (on_timer (Found false false true true fd now [] []) s = s) as -> by (unfold on_timer; by destruct (tstate _)).
  unfold on_peers. cbn [active_in accepted]. rewrite decide_True by done.
  rewrite decide_False by (by open_world s). unfold on_positive. cbn [positive_in at_time bytes].
  assert (work (count_peer (onConnect fd s)) = true) as -> by (by open_world s). cbn [andb].
  assert (read now [] (count_peer (onConnect fd s)) = Ret (Some (onDisconnect (count_peer (onConnect fd s))))) as ->.
  { unfold read. by case_decide. }
  cbind. eexists. split; [done|]. revert Hin Hacc. open_world s. unfold acceptable. fields. rewrite decide_False by done.
  intros Hin [|(_ & Hnew & _)]; [done|]. split_and!; [done..|]. set_solver.
Qed.
End time.

(** ** Witnesses *)

(** A time as eight bytes, least significant first. *)
Definition le_dbl (t : Z) : MsgHeartbeat :=
  Dbl [t mod 256; t / 256 mod 256; t / 65536 mod 256; t / 16777216 mod 256; t / 4294967296 mod 256;
       t / 1099511627776 mod 256; t / 281474976710656 mod 256; t / 72057594037927936 mod 256].
Definition le_undbl (d : MsgHeartbeat) : Z :=
  match dbytes d with
  | [a; b; c; d; e; f; g; h] => a + 256 * (b + 256 * (c + 256 * (d + 256 * (e + 256 * (f + 256 * (g + 256 * h))))))
  | _ => 0
  end.

Lemma le_dbl_undbl t : 0 ≤ t < 2 ^ 63 → le_undbl (le_dbl t) = t.
Proof. intros Ht. unfold le_undbl, le_dbl. cbn [dbytes]. eval_pow. change (2 ^ 63) with 9223372036854775808 in Ht. mlia. Qed.

(** A peer connects, a closure is handed over and a heartbeat publishes a ping. *)
Definition sample_lacts : list laction :=
  [LRound (Found false false true false 4 0 [] []); LRunOnLoop (Some 7); LPing (ms 6000); LCall].

Definition sample_world (l : list laction) : World :=
  match lexec le_dbl le_undbl l (run_start le_dbl 3 0) with Ret (Some s) => s | _ => run_start le_dbl 3 0 end.

Lemma sample_lreachable : lreachable le_dbl le_undbl 3 0 (sample_world sample_lacts).
Proof. apply (lexec_reachable le_dbl le_undbl 3 0 sample_lacts (run_start le_dbl 3 0)); [constructor|vm_compute; reflexivity]. Qed.


Lemma listener_safe_witness :
  let s := sample_world sample_lacts in
  (∀ a, (∀ t, a ≠ LTimer t) → ∃ o, lstep le_dbl le_undbl a s = Ret o) ∧
  published s = taken_ s ++ msgs (self s) ∧ handed s = called s ++ closures (self s) ∧
  (looping s = true → closures (self s) ≠ [] → (0 < calls s)%nat ∨ kNotifyMedium ≤ msghub (self s)) ∧
  (looping s = true → skipped s = false → msgs (self s) ≠ [] → (0 < pubs s)%nat ∨ 0 < msghub (self s)).
Proof. apply (listener_safe le_dbl le_undbl 3 0); [lia|exact sample_lreachable]. Defined.

Lemma listener_well_formed_witness :
  let s := sample_world sample_lacts in
  (state_ (self s) = IDLE ∨ state_ (self s) = WORK) ∧
  (state_ (self s) = IDLE → peerfd (self s) = -1) ∧
  (overlap s = false →
    (state_ (self s) = IDLE ↔ peerfd (self s) = -1) ∧
    (activefd (self s) ∈ opened s →
      opened s = {[activefd (self s)]} ∪ (if decide (peerfd (self s) = -1) then ∅ else {[peerfd (self s)]}))) ∧
  0 ≤ retry (heartbeat (self s)) ≤ 5 ∧
  minrtt (heartbeat (self s)) ≤ ms 5000 ∧ maxrtt (heartbeat (self s)) < ms 250.
Proof. apply (listener_well_formed le_dbl le_undbl 3 0); [lia|exact sample_lreachable]. Defined.


Lemma silent_peer_left_witness :
  let s := sample_world (take 1 sample_lacts) in
  let s6 := foldl (λ s t, Ping le_dbl t s) s [ms 6000; ms 11000; ms 16000; ms 21000; ms 26000; ms 31000] in
  work s6 = true ∧ peerfd (self s6) = peerfd (self s) ∧ opened s6 = opened s ∧
  msgs (self s6) = msgs (self s) ++ map (ping_frame le_dbl) [ms 6000; ms 11000; ms 16000; ms 21000; ms 26000; ms 31000] ∧
  idle (Ping le_dbl (ms 36000) s6) = true ∧ peerfd (self (Ping le_dbl (ms 36000) s6)) = -1 ∧
  opened (Ping le_dbl (ms 36000) s6) = opened s ∖ {[peerfd (self s)]} ∧
  heartbeat (self (Ping le_dbl (ms 36000) s6)) = Heartbeat_new.
Proof.
  apply (silent_peer_left le_dbl (sample_world (take 1 sample_lacts)) (ms 6000) [ms 11000; ms 16000; ms 21000; ms 26000; ms 31000] (ms 36000));
    [vm_compute; reflexivity..|].
  repeat constructor; vm_compute; (reflexivity || discriminate).
Defined.

Lemma answering_peer_kept_witness :
  let s := sample_world (take 1 sample_lacts) in
  ∃ s', lexec le_dbl le_undbl (concat (map (ponged le_dbl) ([(ms 6000, ms 6050)] ++ [(ms 11000, ms 11300)]))) s = Ret (Some s') ∧
    work s' = true ∧ peerfd (self s') = peerfd (self s) ∧
    retry (heartbeat (self s')) = HEARTBEAT_MAXRETRY ∧ rtt (heartbeat (self s')) = ms 11300 - ms 11000.
Proof.
  apply (answering_peer_kept le_dbl le_undbl (λ t, eq_refl) le_dbl_undbl (sample_world (take 1 sample_lacts)) [(ms 6000, ms 6050)] (ms 11000, ms 11300));
    vm_compute; try reflexivity; [discriminate|split; [discriminate|reflexivity]].
Defined.
