(* ===== verification/Hub.v ===== *)
(** * socket/monitor/listener.cpp: what other threads hand to the loop

    [Listener] takes a round of the loop as one step.  Here the loop is cut at
    every lock, every [write] and every call, and any number of other threads
    publish messages ([Writer::pub]) and hand over closures ([runOnLoop])
    between any two of these steps; a publication is two steps, the push under
    the lock and the notification.  The shared data of this part, the two vectors
    and the event counter, are only touched under their locks or by system calls.
    What [writev] answers for a message is arbitrary: the members the heartbeat's
    thread changes without a lock (the peer's descriptor among them) are not part
    of the state. *)
From Stdlib Require Import ZArith Lia.
From stdpp Require Import base tactics numbers list.
From S2P Require Import Prelude.
From S2P Require Import Message.
From S2P Require Import TaskRunner.
From S2P Require Import Listener.

Open Scope Z_scope.




(** ** The other threads *)
















(** ** What is kept *)




































(** ** Properties *)




