(* ===== verification/Strlcpy.v ===== *)
(** * socket/monitor/util.cpp: [details::strlcpy]

    A copy of at most [n] characters that goes by words where source and
    destination are aligned alike.  The objects lie at the addresses [sa] and
    [da]; what matters of them is their alignment. *)
From Stdlib Require Import ZArith Lia.
From stdpp Require Import base tactics numbers list.
From S2P Require Import Prelude.
From S2P Require Import Bits.
From S2P Require Import Words.

Open Scope Z_scope.

(** [HASZERO] on a [size_t]. *)
Definition HASZERO (x : Z) : Z :=
  Z.land (Z.land (wrap 64 (x - 0x0101010101010101)) (wrap 64 (Z.lnot x))) 0x8080808080808080.

(** [PTRALIGNOFFSET] of an address. *)
Definition PTRALIGNOFFSET (x : Z) : Z := Z.land x 7.

Section copy.
Context (m : list Z) (sa da : Z).

(** Source index, destination index, characters left, destination. *)
Definition state : Type := Z * Z * Z * list Z.

(** [*d = *s] and, unless it was the terminator, one character on. *)
Definition copy_one (st : state) : outcome (state + state) :=
  let '(i, j, n, dst) := st in
  c ← load m i;
  dst ← store dst j c;
  if decide (c = 0) then Ret (inr (i, j, n, dst)) else Ret (inl (i + 1, j + 1, n - 1, dst)).

Definition head_step (st : state) : outcome (state + state) :=
  let '(i, j, n, dst) := st in
  if decide (PTRALIGNOFFSET (sa + i) ≠ 0 ∧ n ≠ 0) then copy_one st else Ret (inr st).

Definition word_step (st : state) : outcome (state + state) :=
  let '(i, j, n, dst) := st in
  if decide (n >= 8) then
    w ← load_n m i 8;
    if decide (HASZERO (word_value w) = 0) then
      dst ← store_n dst j w; Ret (inl (i + 8, j + 8, n - 8, dst))
    else Ret (inr st)
  else Ret (inr st).

Definition tail_step (st : state) : outcome (state + state) :=
  let '(i, j, n, dst) := st in
  if decide (n ≠ 0) then copy_one st else Ret (inr st).

Definition copy_words (fuel : nat) (st : state) : outcome state :=
  let '(i, j, n, dst) := st in
  if decide (n ≠ 0) then
    c ← load m i;
    if decide (c ≠ 0) then while_fuel fuel word_step st else Ret st
  else Ret st.

(** [strlcpy(&dst[j], &m[i], n)]; the loops take at most [n] steps. *)
Definition strlcpy (dst : list Z) (j i n : Z) : outcome (Z * list Z) :=
  let fuel := S (Z.to_nat n) in
  st ← (if decide (PTRALIGNOFFSET (sa + i) = PTRALIGNOFFSET (da + j)) then
          st ← while_fuel fuel head_step (i, j, n, dst); copy_words fuel st
        else Ret (i, j, n, dst));
  '(_, d, _, dst) ← while_fuel fuel tail_step st;
  dst ← store dst d 0;
  Ret (d - j, dst).
End copy.

(** ** The zero-byte test *)

(** Subtract one from every byte, with borrows. *)
Fixpoint dec_bytes (c : Z) (w : list Z) : list Z :=
  match w with
  | [] => []
  | b :: w => (b - 1 - c) mod 256 :: dec_bytes (if decide (b - 1 - c < 0) then 1 else 0) w
  end.

Lemma dec_bytes_range c w : Forall is_byte (dec_bytes c w).
Proof. revert c. induction w as [|b w IH]; intros c; constructor; [unfold is_byte; mlia|apply IH]. Qed.

Lemma dec_bytes_length c w : length (dec_bytes c w) = length w.
Proof. revert c. induction w as [|b w IH]; intros c; cbn; [done|by rewrite IH]. Qed.

Lemma dec_bytes_value c w :
  c = 0 ∨ c = 1 → Forall is_byte w →
  ∃ k, word_value (dec_bytes c w) = word_value w - word_value (replicate (length w) 1) - c + k * 256 ^ zlen w.
Proof.
  intros Hc Hw. revert c Hc. induction Hw as [|b w Hb Hw IH]; intros c Hc; cbn [dec_bytes word_value length replicate].
  - exists c. cbn. lia.
  - destruct (IH (if decide (b - 1 - c < 0) then 1 else 0)) as [k Hk]; [case_decide; auto|]. exists k. rewrite Hk.
    rewrite Nat2Z.inj_succ, Z.pow_succ_r by lia. unfold is_byte in Hb.
    assert ((b - 1 - c) mod 256 = b - 1 - c + 256 * (if decide (b - 1 - c < 0) then 1 else 0)) as -> by (case_decide; mlia).
    lia.
Qed.

Lemma value_land_zip a b : Forall is_byte a → Forall is_byte b → length a = length b →
  Z.land (word_value a) (word_value b) = word_value (zip_with Z.land a b).
Proof.
  intros Ha. revert b. induction Ha as [|x a Hx Ha IH]; intros b Hb Hl; (destruct b as [|y b]; [done|]); [done|].
  apply Forall_cons in Hb as [Hy Hb]. cbn [word_value zip_with]. rewrite <- IH by (done || by injection Hl).
  pose proof (land_split 8 x (word_value a) y (word_value b) ltac:(lia) Hx Hy) as E. change (2 ^ 8) with 256 in E.
  rewrite !(Z.add_comm _ (256 * _)), !(Z.mul_comm 256). exact E.
Qed.

(** No borrow comes into the lowest zero byte, and its sign bit is set. *)
Lemma dec_zero_bytes w :
  Forall is_byte w →
  Exists (λ b, b ≠ 0) (zip_with Z.land (zip_with Z.land (dec_bytes 0 w) (map (λ b, 255 - b) w)) (replicate (length w) 0x80)) ↔
  Exists (λ b, b = 0) w.
Proof.
  assert (∀ b, 0 ≤ b < 256 → b ≠ 0 → Z.land (Z.land ((b - 1 - 0) mod 256) (255 - b)) 0x80 = 0) as Hbyte.
  { apply (range_all (λ b, b ≠ 0 → Z.land (Z.land ((b - 1 - 0) mod 256) (255 - b)) 0x80 = 0)). by_eval. }
  induction 1 as [|b w Hb Hw IH]; cbn [dec_bytes map zip_with length replicate]; [by rewrite !Exists_nil|].
  rewrite !Exists_cons. destruct (decide (b = 0)) as [-> |Hnz].
  - split; intros _; left; done.
  - rewrite Hbyte by done. rewrite decide_False by (unfold is_byte in Hb; lia). rewrite IH. tauto.
Qed.

Lemma haszero_correct w :
  Forall is_byte w → length w = 8%nat → HASZERO (word_value w) ≠ 0 ↔ Exists (λ b, b = 0) w.
Proof.
  intros Hw Hl. rewrite <- dec_zero_bytes by done.
  assert (Forall is_byte (map (λ b, 255 - b) w)) as Hn by (apply Forall_map; eapply Forall_impl; [done|]; unfold is_byte; cbn; lia).
  assert (HASZERO (word_value w) = word_value (zip_with Z.land (zip_with Z.land (dec_bytes 0 w) (map (λ b, 255 - b) w)) (replicate (length w) 0x80))) as ->.
  { unfold HASZERO. replace (wrap 64 (word_value w - 0x0101010101010101)) with (word_value (dec_bytes 0 w)).
    - replace (wrap 64 (Z.lnot (word_value w))) with (word_value (map (λ b, 255 - b) w)).
      + rewrite value_land_zip by (done || apply dec_bytes_range || (rewrite dec_bytes_length, length_map; done)).
        replace 0x8080808080808080 with (word_value (replicate (length w) 0x80)) by (by rewrite Hl).
        rewrite value_land_zip; [done| |by apply Forall_replicate|].
        * apply Forall_lookup_2. intros i x Hx. apply lookup_zip_with_Some in Hx as (y & z & -> & Hy & _).
          pose proof (Forall_lookup_1 _ _ _ _ (dec_bytes_range 0 w) Hy) as Hb. rewrite Z.land_comm. by apply (land_bound 8).
        * rewrite length_zip_with, length_replicate, length_map, dec_bytes_length. lia.
      + rewrite <- value_lnot, Hl. unfold wrap. change (256 ^ Z.of_nat 8) with (2 ^ 64).
        rewrite <- (Z_mod_plus_full _ 1), Z.mul_1_l. symmetry. apply Z.mod_small.
        replace (Z.lnot (word_value w) + 2 ^ 64) with (word_value (map (λ b, 255 - b) w)) by (rewrite <- value_lnot, Hl; done).
        pose proof (value_bytes _ Hn) as Hv. rewrite length_map, Hl in Hv. exact Hv.
    - destruct (dec_bytes_value 0 w) as [k Hk]; [by left|done|]. rewrite Hl in Hk. change (word_value (replicate 8 1)) with 0x0101010101010101 in Hk.
      change (256 ^ Z.of_nat 8) with (2 ^ 64) in Hk. unfold wrap.
      pose proof (value_bytes _ (dec_bytes_range 0 w)) as Hv. rewrite dec_bytes_length, Hl in Hv. change (256 ^ Z.of_nat 8) with (2 ^ 64) in Hv.
      rewrite <- (Z_mod_plus_full _ k). replace (word_value w - 0x0101010101010101 + k * 2 ^ 64) with (word_value (dec_bytes 0 w)) by lia.
      by rewrite Z.mod_small. }
  apply value_nonzero. apply Forall_lookup_2. intros i x Hx. apply lookup_zip_with_Some in Hx as (y & z & -> & _ & Hz).
  apply lookup_replicate in Hz as [-> _]. apply Z.land_nonneg. right. lia.
Qed.

(** ** The loops *)
Lemma offset_mod x : PTRALIGNOFFSET x = x mod 8.
Proof. unfold PTRALIGNOFFSET. apply (land_mask 3 x). lia. Qed.

Section loops.
Context (pre s post a b : list Z) (sa da n : Z).
Context (Hs : Forall is_char s) (Hpost : Forall is_byte post) (Hn : 0 ≤ n).

Let m : list Z := pre ++ s ++ 0 :: post.
Let k : Z := Z.min n (zlen s).
Context (Hroom : k < zlen b).

(** [p] characters are copied; the rest of the destination is as it was but for
    the next cell, which may hold a terminator. *)
Definition copied (p : nat) (st : state) : Prop :=
  Z.of_nat p ≤ k ∧ ∃ r, length r = (length b - p)%nat ∧ drop 1 r = drop (S p) b ∧
    st = (zlen pre + Z.of_nat p, zlen a + Z.of_nat p, n - Z.of_nat p, a ++ take p s ++ r).

Lemma source_load p : Z.of_nat p ≤ zlen s →
  ∃ c, load m (zlen pre + Z.of_nat p) = Ret c ∧ (c = 0 ↔ Z.of_nat p = zlen s) ∧ (c ≠ 0 → s !! p = Some c).
Proof.
  intros Hp. unfold m. rewrite load_at by lia. destruct (decide (Z.of_nat p = zlen s)) as [E|E].
  - exists 0. rewrite load_app by done. done.
  - destruct (lookup_lt_is_Some_2 s p ltac:(lia)) as [c Hc]. exists c.
    assert (c ≠ 0) by (pose proof (Forall_lookup_1 _ _ _ _ Hs Hc) as H; unfold is_char in H; lia).
    split_and!; [|tauto|done]. rewrite load_app_l by lia. unfold load. rewrite decide_True, Nat2Z.id, Hc by lia. done.
Qed.

(** One character: on, or the terminator is met. *)
Lemma copy_one_step p st : copied p st → Z.of_nat p < n →
  (∃ st', copy_one m st = Ret (inl st') ∧ copied (S p) st') ∨
  (Z.of_nat p = k ∧ ∃ st', copy_one m st = Ret (inr st') ∧ copied p st').
Proof.
  intros (Hp & r & Hr & Hd & ->) Hpn. unfold copy_one.
  destruct (source_load p) as (c & -> & Hc0 & Hc); [lia|]. cbind.
  destruct r as [|x r]; [exfalso; cbn in Hr; lia|].
  replace (a ++ take p s ++ x :: r) with ((a ++ take p s) ++ x :: r) by (by rewrite <- app_assoc).
  rewrite store_app by len. cbind. case_decide as Hz.
  - right. split; [lia|]. eexists. split; [done|]. split; [done|]. exists (0 :: r). subst c. rewrite <- app_assoc.
    split_and!; done.
  - left. eexists. split; [done|]. assert (p < length s)%nat by (specialize (Hc Hz); by apply lookup_lt_Some in Hc).
    split; [lia|]. exists r. cbn [length drop] in *. split_and!; [lia| |].
    + assert (r = drop (S p) b) as -> by exact Hd. rewrite drop_drop. f_equal. lia.
    + rewrite (take_S_r s p c) by auto. rewrite <- !app_assoc. cbn [app]. do 2 f_equal; [f_equal|]; lia.
Qed.

Lemma head_loop fuel p st :
  copied p st → n - Z.of_nat p < Z.of_nat fuel →
  ∃ p' st', while_fuel fuel (head_step m sa) st = Ret st' ∧ copied p' st' ∧
    (PTRALIGNOFFSET (sa + (zlen pre + Z.of_nat p')) = 0 ∨ Z.of_nat p' = k).
Proof.
  revert p st. induction fuel as [|fuel IH]; intros p st Hc Hf; [destruct Hc; lia|].
  rewrite while_fuel_S. pose proof Hc as (Hp & r & _ & _ & E).
  assert (head_step m sa st = if decide (PTRALIGNOFFSET (sa + (zlen pre + Z.of_nat p)) ≠ 0 ∧ n - Z.of_nat p ≠ 0)
    then copy_one m st else Ret (inr st)) as -> by (by rewrite E). clear E. case_decide as Hgo.
  - destruct (copy_one_step p st Hc ltac:(lia)) as [(st' & -> & Hc')|(Hk & st' & -> & Hc')]; cbind.
    + apply (IH (S p)); [done|lia].
    + exists p, st'. split_and!; [done|done|by right].
  - cbind. exists p, st. split_and!; [done|done|]. destruct (decide (PTRALIGNOFFSET (sa + (zlen pre + Z.of_nat p)) = 0)); [by left|].
    right. unfold k in *. lia.
Qed.

Lemma tail_loop fuel p st :
  copied p st → n - Z.of_nat p < Z.of_nat fuel →
  ∃ p' st', while_fuel fuel (tail_step m) st = Ret st' ∧ copied p' st' ∧ Z.of_nat p' = k.
Proof.
  revert p st. induction fuel as [|fuel IH]; intros p st Hc Hf; [destruct Hc; lia|].
  rewrite while_fuel_S. pose proof Hc as (Hp & r & _ & _ & E).
  assert (tail_step m st = if decide (n - Z.of_nat p ≠ 0) then copy_one m st else Ret (inr st)) as -> by (by rewrite E).
  clear E. case_decide as Hgo.
  - destruct (copy_one_step p st Hc ltac:(lia)) as [(st' & -> & Hc')|(Hk & st' & -> & Hc')]; cbind.
    + apply (IH (S p)); [done|lia].
    + exists p, st'. done.
  - cbind. exists p, st. split_and!; [done|done|]. unfold k in *. lia.
Qed.

(** The source ends on a word's boundary. *)
Context (Hpad : (sa + zlen m) mod 8 = 0).

Lemma word_loop fuel p st :
  copied p st → n - Z.of_nat p < Z.of_nat fuel → PTRALIGNOFFSET (sa + (zlen pre + Z.of_nat p)) = 0 →
  ∃ p' st', while_fuel fuel (word_step m) st = Ret st' ∧ copied p' st'.
Proof.
  revert p st. induction fuel as [|fuel IH]; intros p st Hc Hf Hal; [destruct Hc; lia|].
  rewrite while_fuel_S. pose proof Hc as (Hp & r & Hr & Hd & E). rewrite E. unfold word_step.
  case_decide as Hgo; [|cbind; rewrite <- E; by exists p, st].
  assert (zlen m = zlen pre + zlen s + 1 + zlen post) as Hm by (unfold m; len).
  rewrite offset_mod in Hal. assert (zlen pre + Z.of_nat p + 8 ≤ zlen m) as Hin.
  { unfold k in *. assert (∃ q, zlen m - (zlen pre + Z.of_nat p) = 8 * q) as [q Hq]; [|lia].
    exists ((sa + zlen m) / 8 - (sa + (zlen pre + Z.of_nat p)) / 8). mlia. }
  set (w := take 8 (drop p (s ++ 0 :: post))).
  assert (load_n m (zlen pre + Z.of_nat p) 8 = Ret w) as ->.
  { unfold load_n. rewrite decide_True by lia. f_equal. unfold m, w. change (Z.to_nat 8) with 8%nat. f_equal.
    replace (Z.to_nat (zlen pre + Z.of_nat p)) with (length pre + p)%nat by lia.
    rewrite <- drop_drop. f_equal. by rewrite drop_app_length. }
  cbind. assert (length w = 8%nat) as Hlw by (unfold w; norm_length; lia).
  assert (Forall is_byte w) as Hbw.
  { unfold w. apply Forall_take, Forall_drop, Forall_app. split; [by apply chars_bytes|]. by constructor. }
  case_decide as Hz; [|cbind; rewrite <- E; by exists p, st].
  (* no zero byte: the word lies in the text *)
  assert (Z.of_nat p + 8 ≤ zlen s) as Hps.
  { destruct (decide (Z.of_nat p + 8 ≤ zlen s)) as [|Hlt]; [done|]. exfalso.
    apply (proj2 (haszero_correct w Hbw Hlw)); [|done]. apply Exists_exists. exists 0. split; [|done].
    apply (list_elem_of_lookup_2 _ (length s - p)). unfold w. unfold k in *. rewrite lookup_take, lookup_drop by lia.
    rewrite decide_True by lia. rewrite lookup_app_r by lia. by replace (p + (length s - p) - length s)%nat with 0%nat by lia. }
  assert (w = take 8 (drop p s)) as Hw.
  { unfold w. rewrite drop_app_le by lia. by rewrite take_app_le by (norm_length; lia). }
  assert (8 ≤ length r)%nat as Hr8 by (unfold k in *; lia).
  replace (a ++ take p s ++ r) with ((a ++ take p s) ++ take 8 r ++ drop 8 r) by (by rewrite take_drop, <- app_assoc).
  rewrite store_n_app by (norm_length; lia). cbind.
  apply (IH (p + 8)%nat); [|lia|rewrite offset_mod; mlia].
  split; [unfold k in *; lia|]. exists (drop 8 r). split_and!.
  - rewrite length_drop. lia.
  - rewrite drop_drop. replace (8 + 1)%nat with (1 + 8)%nat by lia.
    rewrite <- drop_drop, Hd, drop_drop. by f_equal; lia.
  - rewrite Hw, <- app_assoc, (app_assoc (take p s)), take_take_drop.
    rewrite Nat2Z.inj_add. f_equal. f_equal; [f_equal|]; lia.
Qed.

Lemma words_copied fuel p st :
  copied p st → n - Z.of_nat p < Z.of_nat fuel →
  (PTRALIGNOFFSET (sa + (zlen pre + Z.of_nat p)) = 0 ∨ Z.of_nat p = k) →
  ∃ p' st', copy_words m fuel st = Ret st' ∧ copied p' st'.
Proof.
  intros Hc Hf Hor. pose proof Hc as (Hp & r & Hr & Hd & E).
  destruct (source_load p) as (c & Hl & Hc0 & _); [unfold k in *; lia|].
  assert (copy_words m fuel st = if decide (n - Z.of_nat p ≠ 0) then (if decide (c ≠ 0) then while_fuel fuel (word_step m) st else Ret st) else Ret st) as ->.
  { rewrite E. unfold copy_words. by rewrite Hl. }
  case_decide as H1; [|eauto]. case_decide as H2; [|eauto].
  destruct Hor as [Hal|Hk]; [by apply (word_loop fuel p)|]. exfalso. apply H2, Hc0. unfold k in *. lia.
Qed.
End loops.

(** ** Properties *)

(** C30: the word-wise copy is the plain one: whatever the alignment of the
    two pointers, [strlcpy] copies the first [n] characters of the string, or
    all of it when it is shorter, ends them with a terminator, leaves the rest
    of the destination alone and returns the number of characters; the
    destination needs a cell more than [n] then, unlike the BSD function of that
    name.  What the words need is that the source's object ends on a word's
    boundary, since the word with the terminator is read whole. *)
Theorem strlcpy_copies pre s post a b sa da n :
  Forall is_char s → Forall is_byte post → 0 ≤ n → Z.min n (zlen s) < zlen b →
  ((sa + zlen pre) mod 8 = (da + zlen a) mod 8 → (sa + zlen (pre ++ s ++ 0 :: post)) mod 8 = 0) →
  let k := Z.to_nat (Z.min n (zlen s)) in
  strlcpy (pre ++ s ++ 0 :: post) sa da (a ++ b) (zlen a) (zlen pre) n =
    Ret (Z.of_nat k, a ++ take k s ++ 0 :: drop (S k) b).
Proof.
  intros Hs Hpost Hn Hroom Hpad k. unfold strlcpy.
  assert (copied pre s a b n 0 (zlen pre, zlen a, n, a ++ b)) as H0.
  { split; [lia|]. exists b. rewrite Nat.sub_0_r, !Z.add_0_r, Z.sub_0_r. done. }
  assert (∃ p st, (if decide (PTRALIGNOFFSET (sa + zlen pre) = PTRALIGNOFFSET (da + zlen a)) then
      st ← while_fuel (S (Z.to_nat n)) (head_step (pre ++ s ++ 0 :: post) sa) (zlen pre, zlen a, n, a ++ b);
      copy_words (pre ++ s ++ 0 :: post) (S (Z.to_nat n)) st
    else Ret (zlen pre, zlen a, n, a ++ b)) = Ret st ∧ copied pre s a b n p st) as (p & st & -> & Hc).
  { case_decide as Hal; [|by exists 0%nat, (zlen pre, zlen a, n, a ++ b)]. rewrite !offset_mod in Hal.
    destruct (head_loop pre s post a b sa n Hs Hroom (S (Z.to_nat n)) 0 _ H0) as (p & st & -> & Hc & Hor); [lia|]. cbind.
    destruct (words_copied pre s post a b sa n Hs Hpost Hroom (Hpad Hal) (S (Z.to_nat n)) p st) as (p' & st' & E & Hc'); [done|lia|done|]. by exists p', st'. }
  cbind. destruct (tail_loop pre s post a b n Hs Hroom (S (Z.to_nat n)) p st) as (p' & st' & -> & Hc' & Hk); [done|lia|].
  destruct Hc' as (_ & r & Hr & Hd & ->). cbind. assert (p' = k) as -> by lia.
  destruct r as [|x r]; [exfalso; cbn in Hr; lia|].
  replace (a ++ take k s ++ x :: r) with ((a ++ take k s) ++ x :: r) by (by rewrite <- app_assoc).
  rewrite store_app by (norm_length; lia). cbind. f_equal. f_equal; [lia|]. rewrite <- app_assoc. do 3 f_equal. exact Hd.
Qed.

(** Twenty characters aligned alike, of which at most seventeen are copied:
    one head character, two words, the tail. *)
Lemma strlcpy_copies_witness :
  strlcpy ([1; 2; 3; 4; 5; 6; 7] ++ replicate 20 65 ++ 0 :: replicate 4 9) 0 0
    (replicate 7 1 ++ replicate 30 2) 7 7 17 = Ret (17, replicate 7 1 ++ replicate 17 65 ++ 0 :: replicate 12 2).
Proof.
  apply (strlcpy_copies [1; 2; 3; 4; 5; 6; 7] (replicate 20 65) (replicate 4 9) (replicate 7 1) (replicate 30 2) 0 0 17);
    [by apply Forall_replicate|by apply Forall_replicate|lia|vm_compute; reflexivity|intros _; vm_compute; reflexivity].
Defined.

(** An aligned source of two bytes in an object of two bytes: the word that
    holds its terminator leaves the object. *)
Example strlcpy_overreads : strlcpy [65; 0] 0 0 (replicate 16 2) 0 0 8 = Undef.
Proof. reflexivity. Qed.
