(* ===== verification/Poll.v ===== *)
(** * socket/monitor/sock.h and sock.cpp: [Poll] and [Poll::Entry]

    An event loop over epoll.  An entry owns a descriptor and its registration;
    a map holds the entries by descriptor.  A callback is a name of the program
    that uses the loop (a parameter [K]), which calls the operations below.
    With the map and the epoll set the model keeps the descriptors the process
    has open, since ownership is what the entries are about. *)
From Stdlib Require Import ZArith Lia.
From stdpp Require Import base tactics numbers list gmap sets.
From S2P Require Import Prelude.

Open Scope Z_scope.

Section poll.
Context {K : Type}.

(** [on_close] is the hook [registerEntry] makes: it calls the user's callback,
    if there is one, and erases the entry.  [cleanup_] is the deferred
    [Unregister] of a descriptor. *)
Record Entry := MkEntry {
  fd_ : Z;
  on_read : option K;
  on_close : option (option K);
  cleanup_ : option Z;
}.

Definition Entry_empty : Entry := MkEntry (-1) None None None.

Record Poll := MkPoll {
  epoll : gset Z;
  entry_map : gmap Z Entry;
  opened : gset Z;
}.

(** ** The system's side *)

(** [epoll_ctl(EPOLL_CTL_ADD)] refuses a descriptor that is closed or already there. *)
Definition Register (fd : Z) (p : Poll) : Z * Poll :=
  if decide (fd ∈ opened p ∧ fd ∉ epoll p) then (0, MkPoll ({[fd]} ∪ epoll p) (entry_map p) (opened p)) else (-1, p).

Definition Unregister (fd : Z) (p : Poll) : Poll := MkPoll (epoll p ∖ {[fd]}) (entry_map p) (opened p).

(** [util::Close]: a closed descriptor leaves the epoll set too. *)
Definition Close (fd : Z) (p : Poll) : Poll :=
  if decide (fd ≠ -1 ∧ fd ∈ opened p) then MkPoll (epoll p ∖ {[fd]}) (entry_map p) (opened p ∖ {[fd]}) else p.

(** [accept] and the like: a descriptor that was not open. *)
Definition open_fd (fd : Z) (p : Poll) : Poll := MkPoll (epoll p) (entry_map p) ({[fd]} ∪ opened p).

(** ** Entries *)
Definition Entry_new (fd : Z) (p : Poll) : Entry * Poll :=
  let '(rc, p) := Register fd p in
  (MkEntry fd None None (if decide (rc = 0) then Some fd else None), p).

Definition Entry_destroy (e : Entry) (p : Poll) : Poll :=
  let p := match cleanup_ e with Some fd => Unregister fd p | None => p end in
  Close (fd_ e) p.

Definition giveupOwnership (e : Entry) : Entry := MkEntry (-1) (on_read e) (on_close e) (cleanup_ e).

Inductive call := Reading (k : K) | Closing (k : option K).

(** [Entry::trigger] with the events [EPOLLRDHUP] and [EPOLLIN]: which callback. *)
Definition trigger (rdhup readable : bool) (e : Entry) : option call :=
  match rdhup, on_close e with
  | true, Some k => Some (Closing k)
  | _, _ => if readable then Reading <$> on_read e else None
  end.

(** ** The map *)

(** [entry_map_[fd]], and the map without it. *)
Definition entry_at (fd : Z) (p : Poll) : Entry := default Entry_empty (entry_map p !! fd).
Definition erased (fd : Z) (p : Poll) : Poll := MkPoll (epoll p) (delete fd (entry_map p)) (opened p).

(** The new entry is swapped into the map; what was there is destroyed at the end. *)
Definition registerEntry (fd : Z) (rd : K) (cl : option K) (p : Poll) : Poll :=
  let '(e, p) := Entry_new fd p in
  let e := MkEntry (fd_ e) (Some rd) (Some cl) (cleanup_ e) in
  let old := entry_at fd p in
  Entry_destroy old (MkPoll (epoll p) (<[fd := e]> (entry_map p)) (opened p)).

(** [remove(fd)], and [remove(fd, &entry)] into an empty entry. *)
Definition remove (fd : Z) (p : Poll) : Poll := Entry_destroy (entry_at fd p) (erased fd p).
Definition remove_to (fd : Z) (p : Poll) : Entry * Poll := (entry_at fd p, erased fd p).

(** The callback an event on [fd] leads to.  The loop tries the entries of the
    map until one has the descriptor, and the map is keyed by it. *)
Definition dispatch (fd : Z) (rdhup readable : bool) (p : Poll) : option call :=
  e ← entry_map p !! fd; trigger rdhup readable e.

(** The end of the hook on a closed connection: [entry_map_.erase(fd)]. *)
Definition erase_entry (fd : Z) (p : Poll) : Poll :=
  match entry_map p !! fd with Some e => Entry_destroy e (erased fd p) | None => p end.

(** ** Ownership *)

(** The entries are keyed by their descriptor, each is registered and open,
    and nothing else is registered. *)
Record owns (p : Poll) : Prop := {
  owns_entry : ∀ fd e, entry_map p !! fd = Some e → fd_ e = fd ∧ cleanup_ e = Some fd ∧ 0 ≤ fd;
  owns_epoll : epoll p = dom (entry_map p);
  owns_open : dom (entry_map p) ⊆ opened p;
}.

Lemma dom_entry p fd : fd ∈ dom (entry_map p) ↔ is_Some (entry_map p !! fd).
Proof. apply elem_of_dom. Qed.

(** A descriptor that is open and new to the loop. *)
Lemma register_owns fd rd cl p :
  owns p → 0 ≤ fd → fd ∈ opened p → entry_map p !! fd = None →
  registerEntry fd rd cl p =
    MkPoll ({[fd]} ∪ epoll p) (<[fd := MkEntry fd (Some rd) (Some cl) (Some fd)]> (entry_map p)) (opened p) ∧
  owns (registerEntry fd rd cl p).
Proof.
  intros [He Hd Ho] Hfd Hop Hn.
  assert (registerEntry fd rd cl p =
    MkPoll ({[fd]} ∪ epoll p) (<[fd := MkEntry fd (Some rd) (Some cl) (Some fd)]> (entry_map p)) (opened p)) as E.
  { unfold registerEntry, Entry_new, Register. rewrite decide_True; [|split; [done|rewrite Hd; by apply not_elem_of_dom]].
    cbn. unfold entry_at. cbn [entry_map]. rewrite Hn. done. }
  split; [done|]. rewrite E. constructor; cbn.
  - intros fd' e. rewrite lookup_insert_Some. intros [[<- <-]|[_ H]]; [done|by apply He].
  - rewrite dom_insert_L, Hd. done.
  - rewrite dom_insert_L. set_solver.
Qed.

Lemma entry_at_owned p fd e : entry_map p !! fd = Some e → entry_at fd p = e.
Proof. intros H. unfold entry_at. by rewrite H. Qed.

Lemma erased_owns p fd : owns p →
  owns (MkPoll (epoll p ∖ {[fd]}) (delete fd (entry_map p)) (opened p)).
Proof.
  intros [He Hd Ho]. constructor; cbn.
  - intros fd' e. rewrite lookup_delete_Some. intros [_ H]. by apply He.
  - by rewrite dom_delete_L, Hd.
  - rewrite dom_delete_L. set_solver.
Qed.

(** Erasing an entry closes its descriptor, once, and forgets it. *)
Lemma erase_owns p fd e :
  owns p → entry_map p !! fd = Some e →
  erase_entry fd p = MkPoll (epoll p ∖ {[fd]}) (delete fd (entry_map p)) (opened p ∖ {[fd]}) ∧
  owns (erase_entry fd p).
Proof.
  intros Hp H. pose proof Hp as [He Hd Ho]. destruct (He _ _ H) as (Hf & Hc & Hge).
  assert (erase_entry fd p = MkPoll (epoll p ∖ {[fd]}) (delete fd (entry_map p)) (opened p ∖ {[fd]})) as E.
  { unfold erase_entry. rewrite H. unfold Entry_destroy. rewrite Hc, Hf. unfold Unregister, erased, Close. cbn.
    rewrite decide_True.
    - f_equal. set_solver.
    - split; [lia|]. apply Ho, dom_entry. eauto. }
  split; [done|]. rewrite E. constructor; cbn.
  - intros fd' e'. rewrite lookup_delete_Some. intros [_ H']. by apply He.
  - by rewrite dom_delete_L, Hd.
  - rewrite dom_delete_L. set_solver.
Qed.

Lemma remove_erase p fd e : entry_map p !! fd = Some e → remove fd p = erase_entry fd p.
Proof. intros H. unfold remove, erase_entry. by rewrite (entry_at_owned _ _ _ H), H. Qed.

(** Taking an entry out, and then letting it go or giving its descriptor up. *)
Lemma remove_to_owns p fd e :
  owns p → entry_map p !! fd = Some e →
  remove_to fd p = (e, erased fd p) ∧
  Entry_destroy e (erased fd p) = erase_entry fd p ∧
  Entry_destroy (giveupOwnership e) (erased fd p) = MkPoll (epoll p ∖ {[fd]}) (delete fd (entry_map p)) (opened p) ∧
  owns (Entry_destroy (giveupOwnership e) (erased fd p)).
Proof.
  intros Hp H. pose proof Hp as [He Hd Ho]. destruct (He _ _ H) as (Hf & Hc & Hge).
  assert (Entry_destroy (giveupOwnership e) (erased fd p) = MkPoll (epoll p ∖ {[fd]}) (delete fd (entry_map p)) (opened p)) as E.
  { unfold Entry_destroy, giveupOwnership. cbn. rewrite Hc. done. }
  split_and!; [unfold remove_to; by rewrite (entry_at_owned _ _ _ H)|unfold erase_entry; by rewrite H|done|].
  rewrite E. by apply erased_owns.
Qed.

Lemma open_owns p fd : owns p → owns (open_fd fd p).
Proof. intros [He Hd Ho]. constructor; cbn; [done|done|set_solver]. Qed.

Lemma close_other_owns p fd : owns p → entry_map p !! fd = None → owns (Close fd p).
Proof.
  intros [He Hd Ho] Hn. unfold Close. case_decide; [|done]. apply not_elem_of_dom in Hn. constructor; cbn; [done|set_solver|set_solver].
Qed.

(** ** Runs of the loop's operations *)
Inductive pop :=
| PRegister (fd : Z) (rd : K) (cl : option K)  (** a new descriptor is opened and registered *)
| PRemove (fd : Z)
| PTake (fd : Z)                               (** taken out and given up *)
| PClosed (fd : Z).                            (** the peer has closed: the hook *)

Definition pstep (o : pop) (p : Poll) : option Poll :=
  match o with
  | PRegister fd rd cl => if decide (0 ≤ fd ∧ fd ∉ opened p) then Some (registerEntry fd rd cl (open_fd fd p)) else None
  | PRemove fd => if decide (is_Some (entry_map p !! fd)) then Some (remove fd p) else None
  | PTake fd =>
      if decide (is_Some (entry_map p !! fd)) then
        let '(e, p) := remove_to fd p in Some (Entry_destroy (giveupOwnership e) p)
      else None
  | PClosed fd => if decide (is_Some (entry_map p !! fd)) then Some (erase_entry fd p) else None
  end.

Fixpoint prun (os : list pop) (p : Poll) : option Poll :=
  match os with
  | [] => Some p
  | o :: os => p ← pstep o p; prun os p
  end.

(** The abstract loop: which descriptors it watches and which it has given away. *)
Definition spec_step (o : pop) (s : gset Z * gset Z) : gset Z * gset Z :=
  match o with
  | PRegister fd _ _ => ({[fd]} ∪ s.1, s.2)
  | PTake fd => (s.1 ∖ {[fd]}, {[fd]} ∪ s.2)
  | PRemove fd | PClosed fd => (s.1 ∖ {[fd]}, s.2)
  end.

Definition refines (base : gset Z) (p : Poll) (s : gset Z * gset Z) : Prop :=
  owns p ∧ dom (entry_map p) = s.1 ∧ opened p = base ∪ s.1 ∪ s.2 ∧ s.1 ## base ∪ s.2.

Lemma pstep_refines base o p p' s : refines base p s → pstep o p = Some p' → refines base p' (spec_step o s).
Proof.
  intros (Hp & Hd & Ho & Hdis) E. pose proof Hp as [_ _ Hin]. destruct o as [fd rd cl|fd|fd|fd]; cbn [pstep spec_step] in *.
  - case_decide as Hfd; [|done]. simplify_eq. destruct Hfd as [Hge Hnew].
    assert (entry_map p !! fd = None) as Hn by (apply not_elem_of_dom; set_solver).
    destruct (register_owns fd rd cl (open_fd fd p)) as [E1 E2]; [by apply open_owns|done|cbn; set_solver|done|].
    split; [done|]. rewrite E1. cbn. rewrite dom_insert_L, Ho. set_solver.
  - case_decide as Hs; [|done]. destruct Hs as [e He]. simplify_eq. rewrite (remove_erase _ _ _ He).
    destruct (erase_owns p fd e Hp He) as [E1 E2]. split; [done|]. rewrite E1. cbn. rewrite dom_delete_L, Ho.
    assert (fd ∈ s.1) by (rewrite <- Hd; apply dom_entry; eauto). split_and!; set_solver.
  - case_decide as Hs; [|done]. destruct Hs as [e He]. destruct (remove_to_owns p fd e Hp He) as (E0 & _ & E1 & E2).
    rewrite E0 in E. simplify_eq. split; [done|]. rewrite E1. cbn. rewrite dom_delete_L, Ho.
    assert (fd ∈ s.1) by (rewrite <- Hd; apply dom_entry; eauto). split_and!; [set_solver| |set_solver].
    apply set_eq. intros x. destruct (decide (x = fd)); set_solver.
  - case_decide as Hs; [|done]. destruct Hs as [e He]. simplify_eq.
    destruct (erase_owns p fd e Hp He) as [E1 E2]. split; [done|]. rewrite E1. cbn. rewrite dom_delete_L, Ho.
    assert (fd ∈ s.1) by (rewrite <- Hd; apply dom_entry; eauto). split_and!; set_solver.
Qed.

(** ** Properties *)

(** C36: entries own their descriptors: after any sequence of registrations of
    new descriptors, removals, entries taken out and given up, and closed
    connections, the loop watches exactly the descriptors the operations left
    it, every one of them registered with epoll and open; a descriptor that was
    removed or whose peer has closed is closed, once, one that was given up
    stays open, and the descriptors of others are untouched. *)
Theorem poll_refines os base p :
  prun os (MkPoll ∅ ∅ base) = Some p →
  let '(watched, given) := foldl (λ s o, spec_step o s) (∅, ∅) os in
  owns p ∧ epoll p = watched ∧ dom (entry_map p) = watched ∧ opened p = base ∪ watched ∪ given ∧ watched ## base ∪ given.
Proof.
  assert (∀ p0 s, refines base p0 s → prun os p0 = Some p → refines base p (foldl (λ s o, spec_step o s) s os)) as H.
  { induction os as [|o os IH]; intros p0 s Hr E; cbn [prun foldl] in *; [by simplify_eq|].
    destruct (pstep o p0) as [p1|] eqn:E1; [|done]. cbn in E. apply (IH p1); [by eapply pstep_refines|done]. }
  intros E. destruct (H (MkPoll ∅ ∅ base) (∅, ∅)) as (Hp & Hd & Ho & Hdis); [|done|].
  - split; [|cbn; split_and!; set_solver]. constructor; cbn; [intros ? ?; by rewrite lookup_empty|by rewrite dom_empty_L|set_solver].
  - destruct (foldl _ _ os) as [w g]. cbn [fst snd] in *. split_and!; try done. by destruct Hp as [_ -> _].
Qed.

(** A descriptor that was closed behind the loop's back and is given out again:
    the entry that is still in the map is destroyed when the new one is put in
    its place, and takes the new connection with it. *)
Lemma stale_entry_closes_new fd rd cl e p :
  0 ≤ fd → fd ∈ opened p → (fd ∉ epoll p) → entry_map p !! fd = Some e → fd_ e = fd →
  (fd ∉ opened (registerEntry fd rd cl p)) ∧ fd ∉ epoll (registerEntry fd rd cl p).
Proof.
  intros Hge Hop Hep He Hf. unfold registerEntry, Entry_new, Register. rewrite decide_True by done. cbn.
  unfold entry_at. cbn [entry_map]. rewrite He. unfold Entry_destroy. cbn. rewrite Hf.
  destruct (cleanup_ e); unfold Unregister, Close; cbn; (rewrite decide_True by (split; [lia|done])); cbn; set_solver.
Qed.
End poll.
Arguments Entry : clear implicits.
Arguments Poll : clear implicits.

Definition sample_pops : list (pop (K := Z)) :=
  [PRegister 4 1 None; PRegister 5 2 (Some 3); PRegister 6 1 None; PTake 4; PClosed 5; PRegister 5 1 None].

Lemma poll_refines_witness :
  let p := default (MkPoll ∅ ∅ {[3]}) (prun sample_pops (MkPoll ∅ ∅ {[3]})) in
  let '(watched, given) := foldl (λ s o, spec_step o s) (∅, ∅) sample_pops in
  owns p ∧ epoll p = watched ∧ dom (entry_map p) = watched ∧ opened p = {[3]} ∪ watched ∪ given ∧ watched ## {[3]} ∪ given.
Proof.
  apply (poll_refines sample_pops {[3]} (default (MkPoll ∅ ∅ {[3]}) (prun sample_pops (MkPoll ∅ ∅ {[3]})))).
  vm_compute. reflexivity.
Defined.
