(* ===== verification/Forwarder.v ===== *)
(** * socket/monitor/examples/forwarder.h and forwarder.cpp: the forwarder

    Clients connect over TCP and name a dialogue in their first eight bytes;
    followers connect over a local socket and announce, by a signal or a
    message, the dialogue they wait for.  The forwarder hands the client's
    descriptor to the follower when it has both, whichever came first.  It runs
    on the event loop of [Poll].

    A node of the list of followers has a number, which is what an iterator
    into the list holds; using an iterator whose node is gone is undefined.  An
    event is what epoll reports together with what the calls of the callback
    find.  Times are nanoseconds. *)
From Stdlib Require Import ZArith Lia.
From stdpp Require Import base tactics numbers list gmap sets.
From S2P Require Import Prelude.
From S2P Require Import Poll.

Open Scope Z_scope.

Definition CLIENTINFO_EXPIREDTHRESHOLD : Z := 5000.
Definition PAYLOADHEADER_PARTIALLENGTH : Z := 8.

Inductive callback :=
| accept_client_cb | accept_follower_cb | notify_connecting_cb | notify_connecting2_cb | peek_header_cb
| follower_quit_cb.

(** [PAYLOADHEADER_partial] *)
Record CLIENTINFO := MkClient { c_fd : Z; c_dialogue : Z; c_timestamp : Z }.

Record FollowerContext := MkFollower { node : nat; pid : Z; f_fd : Z; dialogue : Z; timestamp : Z }.

Record Forwarder := MkForwarder {
  poll : Poll callback;
  list_client : list CLIENTINFO;
  list_follower : list FollowerContext;
  map_follower : gmap Z nat;
  nodes : nat;                  (** nodes made so far *)
  error_count : Z;
  passed : list (Z * Z);        (** descriptors sent: the follower's socket and the client's *)
  alive : bool;                 (** the process has not aborted *)
}.

Definition with_poll (p : Poll callback) (s : Forwarder) : Forwarder :=
  let '(MkForwarder _ lc lf mf nd er pa al) := s in MkForwarder p lc lf mf nd er pa al.
Definition with_clients (lc : list CLIENTINFO) (s : Forwarder) : Forwarder :=
  let '(MkForwarder p _ lf mf nd er pa al) := s in MkForwarder p lc lf mf nd er pa al.
Definition with_followers (lf : list FollowerContext) (s : Forwarder) : Forwarder :=
  let '(MkForwarder p lc _ mf nd er pa al) := s in MkForwarder p lc lf mf nd er pa al.

(** The node an iterator points to. *)
Fixpoint find_node (n : nat) (l : list FollowerContext) : option FollowerContext :=
  match l with
  | [] => None
  | f :: l => if decide (node f = n) then Some f else find_node n l
  end.

Definition set_dialogue (n : nat) (d : Z) (l : list FollowerContext) : list FollowerContext :=
  map (λ f, if decide (node f = n) then MkFollower n (pid f) (f_fd f) d (timestamp f) else f) l.
Definition set_timestamp (n : nat) (t : Z) (l : list FollowerContext) : list FollowerContext :=
  map (λ f, if decide (node f = n) then MkFollower n (pid f) (f_fd f) (dialogue f) t else f) l.

#[local] Arguments set_dialogue : simpl never.
#[local] Arguments set_timestamp : simpl never.

(** [FollowerContext::publish]; [ok]: [sendmsg] works. *)
Definition publish (n : nat) (c : CLIENTINFO) (now : Z) (ok : bool) (s : Forwarder) : outcome Forwarder :=
  let '(MkForwarder p lc lf mf nd er pa al) := s in
  match find_node n lf with
  | None => Undef
  | Some f =>
      Ret (MkForwarder p lc (set_timestamp n now (set_dialogue n (-1) lf)) mf nd er
        (if ok then pa ++ [(f_fd f, c_fd c)] else pa) al)
  end.

(** What the calls of a callback find. *)
Record input := Input {
  sock : Z;                   (** from [accept] *)
  their_pid : Z;              (** what a new follower sends, 0 if nothing *)
  msg : option (Z * Z);       (** eight bytes as two ints, if they all come *)
  now : Z;
  ok : bool;                  (** [sendmsg] works *)
  order : list (Z * nat);     (** the order in which the hash map is gone through *)
}.

Definition accept_client (i : input) (s : Forwarder) : Forwarder :=
  if decide (sock i = -1) then s
  else with_poll (registerEntry (sock i) peek_header_cb None (open_fd (sock i) (poll s))) s.

Definition accept_follower (i : input) (s : Forwarder) : Forwarder :=
  if decide (sock i = -1) then s
  else
    let '(MkForwarder p lc lf mf nd er pa al) := s in
    let lf := MkFollower nd (their_pid i) (sock i) (-1) (now i) :: lf in
    (* [insert] does nothing when the key is there *)
    let mf := match mf !! their_pid i with Some _ => mf | None => <[their_pid i := nd]> mf end in
    MkForwarder (registerEntry (sock i) notify_connecting2_cb (Some follower_quit_cb) (open_fd (sock i) p)) lc lf mf (S nd) er pa al.

(** The callback of a follower that has left: the pid is read from the node
    after it was erased. *)
Definition follower_quit (fd : Z) (s : Forwarder) : outcome Forwarder :=
  if decide (Exists (λ f, f_fd f = fd) (list_follower s)) then Undef else Ret s.

(** The loop over the clients: those that stay, the one that matches, and the
    expired ones, which are erased. *)
Fixpoint scan (now d : Z) (cs : list CLIENTINFO) : list CLIENTINFO * option CLIENTINFO * list CLIENTINFO :=
  match cs with
  | [] => ([], None, [])
  | c :: cs =>
      if decide (now - c_timestamp c > CLIENTINFO_EXPIREDTHRESHOLD * 1000000) then
        let '(k, o, x) := scan now d cs in (k, o, c :: x)
      else if decide (c_dialogue c = d) then (cs, Some c, [])
      else let '(k, o, x) := scan now d cs in (c :: k, o, x)
  end.

Definition handle_notify (p d now : Z) (ok : bool) (s : Forwarder) : outcome Forwarder :=
  match map_follower s !! p with
  | None => Ret s
  | Some n =>
      match find_node n (list_follower s) with
      | None => Undef
      | Some _ =>
          let s := with_followers (set_dialogue n d (list_follower s)) s in
          let '(k, o, _) := scan now d (list_client s) in
          match o with
          | None => Ret (with_clients k s)
          | Some c =>
              s ← publish n c now ok s;
              Ret (with_clients k (with_poll (Close (c_fd c) (poll s)) s))
          end
      end
  end.

(** The signal carries the pid and a value; a failed read leaves zeros. *)
Definition notify_connecting (i : input) (s : Forwarder) : outcome Forwarder :=
  let '(p, d) := default (0, 0) (msg i) in handle_notify p d (now i) (ok i) s.

Definition notify_connecting2 (i : input) (s : Forwarder) : outcome Forwarder :=
  match msg i with Some (p, d) => handle_notify p d (now i) (ok i) s | None => Ret s end.

(** The first follower, in the map's order, that waits for the dialogue. *)
Fixpoint first_waiting (d : Z) (ps : list (Z * nat)) (lf : list FollowerContext) : outcome (option nat) :=
  match ps with
  | [] => Ret None
  | (_, n) :: ps =>
      match find_node n lf with
      | None => Undef
      | Some f => if decide (dialogue f = d) then Ret (Some n) else first_waiting d ps lf
      end
  end.

(** A header that does not come whole fails the assertion. *)
Definition peek_header (fd : Z) (i : input) (s : Forwarder) : outcome Forwarder :=
  match msg i with
  | None =>
      let '(MkForwarder p lc lf mf nd er pa _) := s in Ret (MkForwarder p lc lf mf nd er pa false)
  | Some (_, d) =>
      let '(e, p) := remove_to fd (poll s) in
      let c := MkClient (fd_ e) d (now i) in
      o ← first_waiting d (order i) (list_follower s);
      match o with
      | Some n =>
          s ← publish n c (now i) (ok i) s;
          Ret (with_poll (Entry_destroy e p) s)
      | None =>
          Ret (with_clients (c :: list_client s) (with_poll (Entry_destroy (giveupOwnership e) p) s))
      end
  end.

(** [Forwarder::initialize]: an endpoint that is valid has its descriptor
    registered, the others count as errors. *)
Definition register_endpoint (fd : option Z) (cb : callback) (s : Forwarder) : Forwarder :=
  match fd with
  | Some fd => with_poll (registerEntry fd cb None (poll s)) s
  | None => let '(MkForwarder p lc lf mf nd er pa al) := s in MkForwarder p lc lf mf nd (er + 1) pa al
  end.

Definition initialize (unixServer signalFd tcpipServer : option Z) (s : Forwarder) : Forwarder :=
  register_endpoint tcpipServer accept_client_cb
    (register_endpoint signalFd notify_connecting_cb (register_endpoint unixServer accept_follower_cb s)).

Definition Forwarder_new (opened : gset Z) : Forwarder :=
  MkForwarder (MkPoll ∅ ∅ opened) [] [] ∅ 0 0 [] true.

(** ** The loop *)
Definition run_callback (k : callback) (fd : Z) (i : input) (s : Forwarder) : outcome Forwarder :=
  match k with
  | accept_client_cb => Ret (accept_client i s)
  | accept_follower_cb => Ret (accept_follower i s)
  | notify_connecting_cb => notify_connecting i s
  | notify_connecting2_cb => notify_connecting2 i s
  | peek_header_cb => peek_header fd i s
  | follower_quit_cb => follower_quit fd s
  end.

(** One event of [Poll::loop]. *)
Definition fstep (fd : Z) (rdhup readable : bool) (i : input) (s : Forwarder) : outcome Forwarder :=
  if alive s then
    match dispatch fd rdhup readable (poll s) with
    | None => Ret s
    | Some (Reading k) => run_callback k fd i s
    | Some (Closing k) =>
        s ← (match k with Some k => run_callback k fd i s | None => Ret s end);
        Ret (with_poll (erase_entry fd (poll s)) s)
    end
  else Ret s.

(** [accept] gives -1 or a descriptor that was not open; the map is gone
    through once, in some order. *)
Definition input_ok (i : input) (s : Forwarder) : Prop :=
  (sock i = -1 ∨ (0 ≤ sock i ∧ sock i ∉ opened (poll s))) ∧ order i ≡ₚ map_to_list (map_follower s).

Definition forwarder_start (u sg t : Z) : Forwarder :=
  initialize (Some u) (Some sg) (Some t) (Forwarder_new {[u; sg; t]}).

Inductive freachable (u sg t : Z) : Forwarder → Prop :=
| freachable_start : freachable u sg t (forwarder_start u sg t)
| freachable_step s fd rdhup readable i s' :
    freachable u sg t s → input_ok i s → fstep fd rdhup readable i s = Ret s' → freachable u sg t s'.

(** ** The invariant *)
Record fwd_inv (s : Forwarder) : Prop := {
  fi_poll : owns (poll s);
  fi_map : ∀ p n, map_follower s !! p = Some n → (n < nodes s)%nat ∧ ∃ f, find_node n (list_follower s) = Some f;
  fi_meet : ∀ p n f c, map_follower s !! p = Some n → find_node n (list_follower s) = Some f → c ∈ list_client s →
    dialogue f ≠ -1 → c_dialogue c ≠ dialogue f;
  fi_nodup : NoDup (map c_fd (list_client s));
  fi_open : ∀ c, c ∈ list_client s → 0 ≤ c_fd c ∧ c_fd c ∈ opened (poll s) ∧ entry_map (poll s) !! c_fd c = None;
}.

Lemma find_set_dialogue n m d l :
  find_node m (set_dialogue n d l) =
    if decide (m = n) then (λ f, MkFollower n (pid f) (f_fd f) d (timestamp f)) <$> find_node m l else find_node m l.
Proof.
  induction l as [|f l IH]; [cbn; by case_decide|].
  change (set_dialogue n d (f :: l)) with ((if decide (node f = n) then MkFollower n (pid f) (f_fd f) d (timestamp f) else f) :: set_dialogue n d l).
  cbn [find_node]. rewrite IH.
  repeat case_decide; cbn [node] in *; simplify_eq; try done; congruence.
Qed.

Lemma find_set_timestamp n m t l :
  find_node m (set_timestamp n t l) =
    if decide (m = n) then (λ f, MkFollower n (pid f) (f_fd f) (dialogue f) t) <$> find_node m l else find_node m l.
Proof.
  induction l as [|f l IH]; [cbn; by case_decide|].
  change (set_timestamp n t (f :: l)) with ((if decide (node f = n) then MkFollower n (pid f) (f_fd f) (dialogue f) t else f) :: set_timestamp n t l).
  cbn [find_node]. rewrite IH.
  repeat case_decide; cbn [node] in *; simplify_eq; try done; congruence.
Qed.

Definition matched (o : option CLIENTINFO) : list CLIENTINFO := match o with Some c => [c] | None => [] end.

Lemma scan_spec now d cs k o x :
  scan now d cs = (k, o, x) →
  cs ≡ₚ k ++ matched o ++ x ∧ (o = None → Forall (λ c, c_dialogue c ≠ d) k) ∧ (∀ c, o = Some c → c_dialogue c = d).
Proof.
  revert k o x. induction cs as [|c cs IH]; intros k o x; cbn [scan]; [intros; simplify_eq; by repeat constructor|].
  case_decide.
  - destruct (scan now d cs) as [[k1 o1] x1]. intros; simplify_eq. destruct (IH _ _ _ eq_refl) as (Hp & H1 & H2).
    split_and!; [|done|done]. rewrite Hp. solve_Permutation.
  - case_decide.
    + intros; simplify_eq. split_and!; [cbn; solve_Permutation|done|by intros ? [= <-]].
    + destruct (scan now d cs) as [[k1 o1] x1]. intros; simplify_eq. destruct (IH _ _ _ eq_refl) as (Hp & H1 & H2).
      split_and!; [by rewrite Hp|intros ->; constructor; auto|done].
Qed.

(** What publishing to a node of the list does. *)
Lemma publish_some n f c now ok s :
  find_node n (list_follower s) = Some f →
  publish n c now ok s =
    Ret (MkForwarder (poll s) (list_client s) (set_timestamp n now (set_dialogue n (-1) (list_follower s))) (map_follower s)
      (nodes s) (error_count s) (if ok then passed s ++ [(f_fd f, c_fd c)] else passed s) (alive s)).
Proof. destruct s. cbn. by intros ->. Qed.

(** Followers that change, to a dialogue nobody has come with. *)
Lemma inv_followers s lf k p :
  fwd_inv s → owns p →
  (∀ q n f, map_follower s !! q = Some n → find_node n (list_follower s) = Some f → ∃ f', find_node n lf = Some f' ∧
    (dialogue f' = dialogue f ∨ Forall (λ c, c_dialogue c ≠ dialogue f') k ∨ dialogue f' = -1)) →
  (∀ c, c ∈ k → c ∈ list_client s) → NoDup (map c_fd k) →
  (∀ c, c ∈ k → c_fd c ∈ opened p ∧ entry_map p !! c_fd c = None) →
  ∀ er pa al, fwd_inv (MkForwarder p k lf (map_follower s) (nodes s) er pa al).
Proof.
  intros [Hp Hmap Hmeet Hnd Hop] Hown Hlf Hk Hnk Hok er pa al. constructor; cbn; [done| | |done|].
  - intros q n Hq. destruct (Hmap q n Hq) as (? & f & Hf). destruct (Hlf q n f Hq Hf) as (f' & ? & _). eauto.
  - intros q n f' c Hq Hf' Hc Hd. destruct (Hmap q n Hq) as (_ & f & Hf). destruct (Hlf q n f Hq Hf) as (f1 & Hf1 & Hor).
    simplify_eq. destruct Hor as [E|[E|E]]; [|rewrite Forall_forall in E; by apply E|done].
    rewrite E in *. eapply Hmeet; eauto.
  - intros c Hc. destruct (Hop c (Hk c Hc)) as (? & _). destruct (Hok c Hc). done.
Qed.

Lemma scan_kept now d cs k o x c : scan now d cs = (k, o, x) → c ∈ k → c ∈ cs.
Proof. intros E%scan_spec Hc. destruct E as (-> & _). set_solver. Qed.

Lemma scan_nodup now d cs k o x : scan now d cs = (k, o, x) → NoDup (map c_fd cs) →
  NoDup (map c_fd k) ∧ (∀ c c', o = Some c → c' ∈ k → c_fd c' ≠ c_fd c).
Proof.
  intros (E & _)%scan_spec Hnd. rewrite E, !map_app in Hnd. apply NoDup_app in Hnd as (H1 & H2 & _). split; [done|].
  intros c c' -> Hc' Heq. apply (H2 (c_fd c')); [by apply list_elem_of_fmap_2|]. rewrite Heq. cbn. set_solver.
Qed.

Lemma notify_inv p d now ok s :
  fwd_inv s → ∃ s', handle_notify p d now ok s = Ret s' ∧ fwd_inv s'.
Proof.
  intros Hs. pose proof Hs as [Hp Hmap Hmeet Hnd Hop]. unfold handle_notify.
  destruct (map_follower s !! p) as [n|] eqn:Hpn; [|eauto]. destruct (Hmap p n Hpn) as (_ & f & Hf). rewrite Hf.
  assert (list_client (with_followers (set_dialogue n d (list_follower s)) s) = list_client s) as -> by (by destruct s).
  destruct (scan now d (list_client s)) as [[k o] x] eqn:Hsc.
  destruct (scan_nodup _ _ _ _ _ _ Hsc Hnd) as [Hnk Hneq]. pose proof (scan_spec _ _ _ _ _ _ Hsc) as (_ & Hnone & _).
  assert (∀ c, c ∈ k → c ∈ list_client s) as Hk by (intros c; by eapply scan_kept).
  destruct o as [c|].
  - erewrite publish_some; [|destruct s; cbn in *; rewrite find_set_dialogue, decide_True, Hf by done; reflexivity].
    cbind. eexists. split; [done|]. destruct s as [po lc lf mf nd er pa al]. cbn [with_followers with_clients with_poll poll list_client list_follower map_follower nodes error_count passed alive] in *.
    assert (c ∈ lc) as Hc. { pose proof (scan_spec _ _ _ _ _ _ Hsc) as (-> & _). cbn. set_solver. }
    destruct (Hop c Hc) as (Hge & Ho & Hn).
    apply (inv_followers (MkForwarder po lc lf mf nd er pa al)); [done|by apply close_other_owns| |done|done|].
    + cbn. intros q n' f' Hq Hf'. rewrite find_set_timestamp, !find_set_dialogue. case_decide as E; [|exists f'; auto].
      subst n'. rewrite Hf'. cbn. eexists. split; [done|]. cbn. auto.
    + intros c' Hc'. destruct (Hop c' (Hk c' Hc')) as (_ & Ho' & Hn'). unfold Close. case_decide; [|done]. cbn.
      pose proof (Hneq c c' eq_refl Hc'). set_solver.
  - eexists. split; [done|]. destruct s as [po lc lf mf nd er pa al]. cbn [with_followers with_clients poll list_client list_follower map_follower nodes] in *.
    apply (inv_followers (MkForwarder po lc lf mf nd er pa al)); [done|done| |done|done|].
    + cbn. intros q n' f' Hq Hf'. rewrite find_set_dialogue. case_decide as E; [|exists f'; auto].
      subst n'. rewrite Hf'. cbn. eexists. split; [done|]. cbn. auto.
    + intros c' Hc'. destruct (Hop c' (Hk c' Hc')). naive_solver.
Qed.

(** A new descriptor is registered: the clients' are others. *)
Lemma register_inv s fd rd cl :
  fwd_inv s → 0 ≤ fd → (fd ∉ opened (poll s)) →
  let p := registerEntry fd rd cl (open_fd fd (poll s)) in
  owns p ∧ ∀ c, c ∈ list_client s → c_fd c ∈ opened p ∧ entry_map p !! c_fd c = None.
Proof.
  intros [Hp _ _ _ Hop] Hge Hnew. assert (entry_map (poll s) !! fd = None) as Hn.
  { apply not_elem_of_dom. destruct Hp as [_ _ Hin]. set_solver. }
  destruct (register_owns fd rd cl (open_fd fd (poll s))) as [E Ho]; [by apply open_owns|done|cbn; set_solver|done|].
  split; [done|]. intros c Hc. destruct (Hop c Hc) as (_ & Hopen & Hnone). rewrite E. cbn.
  split; [set_solver|]. rewrite lookup_insert_ne by (intros ->; done). done.
Qed.

Lemma accept_client_inv i s : fwd_inv s → input_ok i s → fwd_inv (accept_client i s).
Proof.
  intros Hs [Hsock _]. unfold accept_client. case_decide as E; [done|]. destruct Hsock as [|[Hge Hnew]]; [done|].
  destruct (register_inv s (sock i) peek_header_cb None Hs Hge Hnew) as [Ho Hc].
  destruct s as [po lc lf mf nd er pa al]. apply (inv_followers (MkForwarder po lc lf mf nd er pa al)); [done|done| |done|by destruct Hs|done].
  cbn. eauto.
Qed.

Lemma accept_follower_inv i s : fwd_inv s → input_ok i s → fwd_inv (accept_follower i s).
Proof.
  intros Hs [Hsock _]. unfold accept_follower. case_decide as E; [done|]. destruct Hsock as [|[Hge Hnew]]; [done|].
  destruct (register_inv s (sock i) notify_connecting2_cb (Some follower_quit_cb) Hs Hge Hnew) as [Ho Hc].
  destruct s as [po lc lf mf nd er pa al]. destruct Hs as [Hp Hmap Hmeet Hnd Hop]. cbn [poll list_client list_follower map_follower nodes] in *.
  set (f0 := MkFollower nd (their_pid i) (sock i) (-1) (now i)).
  assert (∀ q n, match mf !! their_pid i with Some _ => mf | None => <[their_pid i := nd]> mf end !! q = Some n →
    (n = nd ∧ find_node n (f0 :: lf) = Some f0) ∨ (mf !! q = Some n ∧ (n < nd)%nat ∧ find_node n (f0 :: lf) = find_node n lf)) as Hmf.
  { assert (∀ q n, mf !! q = Some n → (n < nd)%nat ∧ find_node n (f0 :: lf) = find_node n lf) as Hold.
    { intros q n Hq. destruct (Hmap q n Hq) as (Hlt & _). split; [done|]. cbn. by rewrite decide_False by lia. }
    intros q n. destruct (mf !! their_pid i) eqn:Hex; [right; split; [done|eauto]|].
    rewrite lookup_insert_Some. intros [[<- <-]|[_ H]]; [left|right; eauto]. cbn. by rewrite decide_True. }
  constructor; cbn [poll list_client list_follower map_follower nodes]; [done| | |done|].
  - intros q n [[-> Hf]|(Hq & Hlt & Hf)]%Hmf; [split; [lia|eauto]|]. rewrite Hf. destruct (Hmap q n Hq). split; [lia|done].
  - intros q n f c [[-> Hf]|(Hq & Hlt & Hf)]%Hmf; rewrite Hf; [intros [= <-]; done|]. by eapply Hmeet.
  - intros c Hc'. destruct (Hop c Hc'). destruct (Hc c Hc'). done.
Qed.

Lemma first_waiting_spec d ps lf :
  (∀ q n, (q, n) ∈ ps → ∃ f, find_node n lf = Some f) →
  ∃ o, first_waiting d ps lf = Ret o ∧
    (∀ n, o = Some n → ∃ q f, (q, n) ∈ ps ∧ find_node n lf = Some f ∧ dialogue f = d) ∧
    (o = None → ∀ q n f, (q, n) ∈ ps → find_node n lf = Some f → dialogue f ≠ d).
Proof.
  induction ps as [|[q n] ps IH]; intros Hps; cbn [first_waiting].
  - exists None. split_and!; [done|done|]. intros _ q n f []%elem_of_nil.
  - destruct (Hps q n) as [f Hf]; [set_solver|]. rewrite Hf. case_decide as Hd.
    + exists (Some n). split_and!; [done| |done]. intros ? [= <-]. exists q, f. split_and!; [set_solver|done..].
    + destruct IH as (o & -> & H1 & H2); [intros q' n' H; apply (Hps q'); set_solver|]. exists o. split_and!; [done| |].
      * intros n' Hn'. destruct (H1 n' Hn') as (q' & f' & ? & ? & ?). exists q', f'. split_and!; [set_solver|done..].
      * intros Ho q' n' f' [[= -> ->]|H]%elem_of_cons Hf'; [congruence|by eapply H2].
Qed.

Lemma order_in i s q n : input_ok i s → (q, n) ∈ order i ↔ map_follower s !! q = Some n.
Proof. intros [_ ->]. apply elem_of_map_to_list. Qed.

Lemma peek_header_inv fd e i s :
  fwd_inv s → input_ok i s → entry_map (poll s) !! fd = Some e →
  ∃ s', peek_header fd i s = Ret s' ∧ fwd_inv s'.
Proof.
  intros Hs Hi He. pose proof Hs as [Hp Hmap Hmeet Hnd Hop]. unfold peek_header. destruct (msg i) as [[p0 d]|].
  2: { destruct s. eexists. split; [done|]. by destruct Hs; constructor. }
  destruct (remove_to_owns _ _ _ Hp He) as (-> & E1 & E2 & Ho2). destruct (erase_owns _ _ _ Hp He) as [E3 Ho3].
  destruct Hp as [Hent _ Hdom]. destruct (Hent _ _ He) as (Hfd & _ & Hge).
  assert (∀ c, c ∈ list_client s → c_fd c ≠ fd) as Hne by (intros c Hc E; destruct (Hop c Hc) as (_ & _ & H); congruence).
  destruct (first_waiting_spec d (order i) (list_follower s)) as (o & -> & Hsome & Hnone).
  { intros q n Hq. apply (order_in i s) in Hq; [|done]. by destruct (Hmap q n Hq). }
  cbind. destruct o as [n|].
  - destruct (Hsome n eq_refl) as (q & f & Hq & Hf & Hd). rewrite (publish_some n f) by done. cbind. eexists. split; [done|].
    rewrite E1. destruct s as [po lc lf mf nd er pa al].
    apply (inv_followers (MkForwarder po lc lf mf nd er pa al)); [done|done| |done|done|].
    + cbn. intros q' n' f' Hq' Hf'. rewrite find_set_timestamp, !find_set_dialogue. case_decide as E; [|exists f'; auto].
      subst n'. rewrite Hf'. cbn. eexists. split; [done|]. cbn. auto.
    + intros c Hc. rewrite E3. cbn in *. destruct (Hop c Hc) as (_ & H1 & H2). pose proof (Hne c Hc).
      split; [set_solver|]. by rewrite lookup_delete_ne.
  - eexists. split; [done|]. rewrite E2 in *. destruct s as [po lc lf mf nd er pa al].
    cbn [with_poll with_clients poll list_client list_follower map_follower nodes] in *. rewrite Hfd.
    constructor; cbn [poll list_client list_follower map_follower nodes]; [done|done| | |].
    + intros q n f c Hq Hf [-> |Hc]%elem_of_cons Hd; [|by eapply Hmeet]. cbn. intros E. symmetry in E. revert E.
      apply (Hnone eq_refl q n f); [by apply (order_in i (MkForwarder po lc lf mf nd er pa al))|done].
    + cbn. constructor; [|done]. intros (c & E & Hc)%list_elem_of_fmap. cbn in E. by apply (Hne c Hc).
    + intros c [-> |Hc]%elem_of_cons; cbn.
      * split_and!; [done|apply Hdom, dom_entry; eauto|by rewrite lookup_delete_eq].
      * destruct (Hop c Hc) as (? & ? & H2). split_and!; [done|done|]. rewrite lookup_delete_ne by (intros E; by apply (Hne c Hc)). done.
Qed.

Lemma callback_inv k fd e i s :
  fwd_inv s → input_ok i s → entry_map (poll s) !! fd = Some e →
  (k = follower_quit_cb → ¬ Exists (λ f, f_fd f = fd) (list_follower s)) →
  ∃ s', run_callback k fd i s = Ret s' ∧ fwd_inv s'.
Proof.
  intros Hs Hi He Hq. destruct k; cbn [run_callback].
  - eexists. split; [done|]. by apply accept_client_inv.
  - eexists. split; [done|]. by apply accept_follower_inv.
  - unfold notify_connecting. destruct (default _ _) as [p d]. by apply notify_inv.
  - unfold notify_connecting2. destruct (msg i) as [[p d]|]; [by apply notify_inv|eauto].
  - by eapply peek_header_inv.
  - unfold follower_quit. rewrite decide_False by auto. eauto.
Qed.

Lemma erase_inv fd e s : fwd_inv s → entry_map (poll s) !! fd = Some e → fwd_inv (with_poll (erase_entry fd (poll s)) s).
Proof.
  intros Hs He. pose proof Hs as [Hp Hmap Hmeet Hnd Hop]. destruct (erase_owns _ _ _ Hp He) as [E Ho].
  destruct s as [po lc lf mf nd er pa al]. cbn [with_poll poll] in *.
  apply (inv_followers (MkForwarder po lc lf mf nd er pa al)); [done|done| |done|done|]; cbn in *; [eauto|].
  intros c Hc. rewrite E. cbn. destruct (Hop c Hc) as (_ & H1 & H2). assert (c_fd c ≠ fd) by (intros Eq; congruence).
  split; [set_solver|]. by rewrite lookup_delete_ne.
Qed.

(** A follower in the list that leaves is the one thing that is undefined. *)
Definition quits (fd : Z) (rdhup : bool) (s : Forwarder) : Prop :=
  rdhup = true ∧ (∃ e, entry_map (poll s) !! fd = Some e ∧ on_close e = Some (Some follower_quit_cb)) ∧
  Exists (λ f, f_fd f = fd) (list_follower s).

(** Callbacks of the entries: only a connection's close hook has the quit. *)
Definition hooks (s : Forwarder) : Prop :=
  ∀ fd e, entry_map (poll s) !! fd = Some e →
    on_read e ≠ Some follower_quit_cb ∧ (∀ k, on_close e = Some (Some k) → k = follower_quit_cb).

Lemma fstep_inv fd rdhup readable i s :
  fwd_inv s → hooks s → input_ok i s → ¬ quits fd rdhup s → ∃ s', fstep fd rdhup readable i s = Ret s' ∧ fwd_inv s'.
Proof.
  intros Hs Hh Hi Hq. unfold fstep. destruct (alive s); [|eauto]. unfold dispatch.
  destruct (entry_map (poll s) !! fd) as [e|] eqn:He; cbn [mbind option_bind]; [|eauto].
  destruct (Hh fd e He) as [Hrd Hcl]. unfold trigger.
  assert (∃ s', match (if readable then Reading <$> on_read e else None) with
      | None => Ret s
      | Some (Reading k) => run_callback k fd i s
      | Some (Closing k) =>
          s1 ← match k with Some k0 => run_callback k0 fd i s | None => Ret s end;
          Ret (with_poll (erase_entry fd (poll s1)) s1)
      end = Ret s' ∧ fwd_inv s') as Hread.
  { destruct readable; [|eauto]. destruct (on_read e) as [k|]; [|eauto]. cbn. eapply callback_inv; try done. by intros ->. }
  destruct rdhup; [|exact Hread]. destruct (on_close e) as [k|] eqn:Hk; [|exact Hread].
  destruct k as [k|].
  - pose proof (Hcl k eq_refl) as ->. cbn [run_callback]. unfold follower_quit. rewrite decide_False; [|by intros ?; apply Hq; unfold quits; eauto].
    cbind. eexists. split; [done|]. by eapply erase_inv.
  - cbind. eexists. split; [done|]. by eapply erase_inv.
Qed.

Lemma map_destroy (e : Entry callback) p : entry_map (Entry_destroy e p) = entry_map p.
Proof. unfold Entry_destroy, Close, Unregister. destruct (cleanup_ e); by case_decide. Qed.

Lemma map_close fd (p : Poll callback) : entry_map (Close fd p) = entry_map p.
Proof. unfold Close. by case_decide. Qed.

Lemma map_register fd (rd : callback) cl p :
  ∃ cu, entry_map (registerEntry fd rd cl p) = <[fd := MkEntry fd (Some rd) (Some cl) cu]> (entry_map p).
Proof.
  unfold registerEntry, Entry_new, Register. case_decide; cbn; rewrite map_destroy; eauto.
Qed.

Lemma map_erase fd (p : Poll callback) : entry_map (erase_entry fd p) = delete fd (entry_map p).
Proof.
  unfold erase_entry. destruct (entry_map p !! fd) eqn:E; [by rewrite map_destroy|]. by rewrite delete_id.
Qed.

Lemma hooks_insert s s' fd rd cl cu :
  hooks s → entry_map (poll s') = <[fd := MkEntry fd (Some rd) (Some cl) cu]> (entry_map (poll s)) →
  rd ≠ follower_quit_cb → (∀ k, cl = Some k → k = follower_quit_cb) → hooks s'.
Proof.
  intros Hh E Hrd Hcl fd' e'. rewrite E, lookup_insert_Some. intros [[<- <-]|[_ H]]; [|by apply (Hh fd')].
  cbn. split; [congruence|]. intros k [= Hk]. by apply Hcl.
Qed.

Lemma hooks_delete s s' fd : hooks s → entry_map (poll s') = delete fd (entry_map (poll s)) → hooks s'.
Proof. intros Hh E fd' e'. rewrite E, lookup_delete_Some. intros [_ H]. by apply (Hh fd'). Qed.

Lemma hooks_same s s' : hooks s → entry_map (poll s') = entry_map (poll s) → hooks s'.
Proof. intros Hh E fd' e'. rewrite E. apply (Hh fd'). Qed.

Lemma publish_poll n c now ok s s' : publish n c now ok s = Ret s' → poll s' = poll s.
Proof. destruct s. cbn. destruct (find_node _ _); [|done]. by intros [= <-]. Qed.

Lemma notify_hooks p d now ok s s' : hooks s → handle_notify p d now ok s = Ret s' → hooks s'.
Proof.
  intros Hh. unfold handle_notify. destruct (_ !! p); [|by intros [= <-]]. destruct (find_node _ _); [|done].
  destruct (scan _ _ _) as [[k o] x]. destruct o as [c|].
  - destruct (publish _ _ _ _ _) as [s1| |] eqn:E; try done. cbind. intros [= <-]. apply publish_poll in E.
    apply (hooks_same s); [done|]. destruct s, s1. cbn in *. by rewrite map_close, E.
  - intros [= <-]. apply (hooks_same s); [done|]. by destruct s.
Qed.

Lemma callback_hooks k fd i s s' : hooks s → run_callback k fd i s = Ret s' → hooks s'.
Proof.
  intros Hh. destruct k; cbn [run_callback].
  - unfold accept_client. case_decide; intros [= <-]; [done|].
    destruct (map_register (sock i) peek_header_cb None (open_fd (sock i) (poll s))) as [cu E].
    eapply (hooks_insert s); [done|destruct s; exact E|done|done].
  - unfold accept_follower. case_decide; intros [= <-]; [done|].
    destruct (map_register (sock i) notify_connecting2_cb (Some follower_quit_cb) (open_fd (sock i) (poll s))) as [cu E].
    eapply (hooks_insert s); [done|destruct s; exact E|done|by intros ? [= <-]].
  - unfold notify_connecting. destruct (default _ _). by apply notify_hooks.
  - unfold notify_connecting2. destruct (msg i) as [[? ?]|]; [by apply notify_hooks|by intros [= <-]].
  - unfold peek_header. destruct (msg i) as [[? d]|].
    + unfold remove_to. destruct (first_waiting _ _ _) as [[n|]| |]; try done; cbind.
      * destruct (publish _ _ _ _ _) as [s1| |] eqn:E; try done. cbind. intros [= <-]. apply (hooks_delete s _ fd); [done|].
        destruct s1. cbn. by rewrite map_destroy.
      * intros [= <-]. apply (hooks_delete s _ fd); [done|]. destruct s. cbn. by rewrite map_destroy.
    + destruct s. by intros [= <-].
  - unfold follower_quit. case_decide; [done|]. by intros [= <-].
Qed.

Lemma fstep_hooks fd rdhup readable i s s' : hooks s → fstep fd rdhup readable i s = Ret s' → hooks s'.
Proof.
  intros Hh. unfold fstep. destruct (alive s); [|by intros [= <-]]. destruct (dispatch _ _ _ _) as [[k|k]|]; [by apply callback_hooks| |by intros [= <-]].
  destruct (match k with Some k0 => run_callback k0 fd i s | None => Ret s end) as [s1| |] eqn:E; try done. cbind. intros [= <-].
  assert (hooks s1) by (destruct k; [by eapply callback_hooks|by simplify_eq]).
  apply (hooks_delete s1 _ fd); [done|]. destruct s1. cbn. by rewrite map_erase.
Qed.

(** A quit is undefined. *)
Lemma quit_undefined fd rdhup readable i s : alive s = true → quits fd rdhup s → fstep fd rdhup readable i s = Undef.
Proof.
  intros Ha (-> & (e & He & Hc) & Hex). unfold fstep. rewrite Ha. unfold dispatch. rewrite He. cbn. unfold trigger. rewrite Hc.
  cbn. unfold follower_quit. by rewrite decide_True.
Qed.

Lemma start_inv u sg t : NoDup [u; sg; t] → 0 ≤ u → 0 ≤ sg → 0 ≤ t → fwd_inv (forwarder_start u sg t) ∧ hooks (forwarder_start u sg t).
Proof.
  intros Hnd Hu Hsg Ht. rewrite !NoDup_cons, !elem_of_cons in Hnd.
  assert (owns (MkPoll ∅ ∅ {[u; sg; t]} : Poll callback)) as Ho.
  { constructor; cbn; [intros ? ?; by rewrite lookup_empty|by rewrite dom_empty_L|set_solver]. }
  unfold forwarder_start, initialize, register_endpoint, Forwarder_new. cbn [with_poll poll].
  destruct (register_owns u accept_follower_cb None (MkPoll ∅ ∅ {[u; sg; t]})) as [E1 O1]; [done|done|cbn; set_solver|done|].
  destruct (register_owns sg notify_connecting_cb None (registerEntry u accept_follower_cb None (MkPoll ∅ ∅ {[u; sg; t]}))) as [E2 O2];
    [done|done|rewrite E1; cbn; set_solver|rewrite E1; cbn; rewrite lookup_insert_ne by naive_solver; by rewrite lookup_empty|].
  destruct (register_owns t accept_client_cb None (registerEntry sg notify_connecting_cb None (registerEntry u accept_follower_cb None (MkPoll ∅ ∅ {[u; sg; t]})))) as [E3 O3];
    [done|done|rewrite E2, E1; cbn; set_solver|rewrite E2, E1; cbn; rewrite !lookup_insert_ne by naive_solver; by rewrite lookup_empty|].
  split.
  - constructor; cbn; [done|intros ? ?; by rewrite lookup_empty|intros ? ? ? ?; by rewrite lookup_empty|constructor|by intros ? ?%elem_of_nil].
  - intros fd e. cbn. rewrite E3, E2, E1. cbn. rewrite !lookup_insert_Some, lookup_empty.
    intros [[_ <-]|[_ [[_ <-]|[_ [[_ <-]|[_ ?]]]]]]; done.
Qed.

Lemma freachable_inv u sg t s :
  NoDup [u; sg; t] → 0 ≤ u → 0 ≤ sg → 0 ≤ t → freachable u sg t s → fwd_inv s ∧ hooks s.
Proof.
  intros Hnd Hu Hsg Ht. induction 1 as [|s fd rdhup readable i s' Hr [Hs Hh] Hi E]; [by apply start_inv|].
  split; [|by eapply fstep_hooks]. destruct (alive s) eqn:Ha.
  - assert (¬ quits fd rdhup s) as Hq by (intros Hq; rewrite quit_undefined in E; done).
    destruct (fstep_inv fd rdhup readable i s Hs Hh Hi Hq) as (s1 & E1 & Hs1). congruence.
  - unfold fstep in E. rewrite Ha in E. by simplify_eq.
Qed.

(** ** Runs *)
Definition fevent : Type := Z * bool * bool * input.

Fixpoint frun (es : list fevent) (s : Forwarder) : outcome Forwarder :=
  match es with
  | [] => Ret s
  | (fd, rdhup, readable, i) :: es => s ← fstep fd rdhup readable i s; frun es s
  end.

(** The inputs are such as the kernel gives. *)
Fixpoint fgood (es : list fevent) (s : Forwarder) : Prop :=
  match es with
  | [] => True
  | (fd, rdhup, readable, i) :: es =>
      input_ok i s ∧ match fstep fd rdhup readable i s with Ret s' => fgood es s' | _ => True end
  end.

(** Some event of the run is the hang-up of a follower that is in the list. *)
Fixpoint follower_leaves (es : list fevent) (s : Forwarder) : Prop :=
  match es with
  | [] => False
  | (fd, rdhup, readable, i) :: es =>
      (alive s = true ∧ quits fd rdhup s) ∨ match fstep fd rdhup readable i s with Ret s' => follower_leaves es s' | _ => False end
  end.

(** A follower waits for a dialogue; -1 is what it has when it waits for none. *)
Definition waits_for (d : Z) (s : Forwarder) : Prop :=
  d ≠ -1 ∧ ∃ p n f, map_follower s !! p = Some n ∧ find_node n (list_follower s) = Some f ∧ dialogue f = d.

Lemma quits_dec fd rdhup s : quits fd rdhup s ∨ ¬ quits fd rdhup s.
Proof.
  unfold quits. destruct rdhup; [|right; by intros [? _]]. destruct (entry_map (poll s) !! fd) as [e|]; [|right; by intros (_ & (? & ? & _) & _)].
  destruct (on_close e) as [[[]|]|] eqn:E; try (right; intros (_ & (e' & [= <-] & ?) & _); congruence).
  destruct (decide (Exists (λ f, f_fd f = fd) (list_follower s))); [left; eauto|right; tauto].
Qed.

Lemma fstep_cases fd rdhup readable i s :
  fwd_inv s → hooks s → input_ok i s →
  (alive s = true ∧ quits fd rdhup s ∧ fstep fd rdhup readable i s = Undef) ∨
  (¬ (alive s = true ∧ quits fd rdhup s) ∧ ∃ s', fstep fd rdhup readable i s = Ret s' ∧ fwd_inv s' ∧ hooks s').
Proof.
  intros Hs Hh Hi. destruct (alive s) eqn:Ha.
  - destruct (quits_dec fd rdhup s) as [Hq|Hq]; [left; split_and!; [done|done|by apply quit_undefined]|right]. split; [tauto|].
    destruct (fstep_inv fd rdhup readable i s Hs Hh Hi Hq) as (s' & E & Hs'). exists s'. split_and!; [done|done|by eapply fstep_hooks].
  - right. split; [by intros [? _]|]. exists s. unfold fstep. by rewrite Ha.
Qed.

Lemma frun_cases es s :
  fwd_inv s → hooks s → fgood es s →
  (follower_leaves es s ∧ frun es s = Undef) ∨ (¬ follower_leaves es s ∧ ∃ s', frun es s = Ret s' ∧ fwd_inv s').
Proof.
  revert s. induction es as [|[[[fd h] r] i] es IH]; intros s Hs Hh Hg; cbn [frun fgood follower_leaves] in *; [right; eauto|].
  destruct Hg as [Hi Hg]. destruct (fstep_cases fd h r i s Hs Hh Hi) as [(? & ? & E)|(Hn & s' & E & Hs' & Hh')]; rewrite E in *; cbind; [left; auto|].
  destruct (IH s' Hs' Hh' Hg) as [[? ?]|[? ?]]; [left; auto|right; tauto].
Qed.

(** ** Properties *)

(** C10: the forwarder in every run.  What it does is undefined exactly when a
    follower that is in its list hangs up, since the node is read after it was
    erased.  In every other run it returns to its loop, and a client and a
    follower never miss each other: no stored client has named a dialogue that a
    follower waits for; and the stored clients have distinct descriptors, open and
    no longer watched. *)
Theorem forwarder_meets u sg t es :
  NoDup [u; sg; t] → 0 ≤ u → 0 ≤ sg → 0 ≤ t → fgood es (forwarder_start u sg t) →
  (frun es (forwarder_start u sg t) = Undef ↔ follower_leaves es (forwarder_start u sg t)) ∧
  (¬ follower_leaves es (forwarder_start u sg t) → ∃ s, frun es (forwarder_start u sg t) = Ret s ∧
    (∀ c, c ∈ list_client s → ¬ waits_for (c_dialogue c) s) ∧
    NoDup (map c_fd (list_client s)) ∧
    (∀ c, c ∈ list_client s → c_fd c ∈ opened (poll s) ∧ entry_map (poll s) !! c_fd c = None)).
Proof.
  intros Hnd Hu Hsg Ht Hg. destruct (start_inv u sg t Hnd Hu Hsg Ht) as [Hs Hh].
  destruct (frun_cases es _ Hs Hh Hg) as [[Hl E]|(Hl & s & E & [_ _ Hmeet Hnc Hop])]; rewrite E; (split; [split; [|]; try done|done || intros _]).
  exists s. split_and!; [done| |done|].
  - intros c Hc (Hd & p & n & f & Hp & Hf & Ed). by apply (Hmeet p n f c Hp Hf Hc); rewrite Ed.
  - intros c Hc. destruct (Hop c Hc) as (_ & ? & ?). done.
Qed.

Definition unexpired (t d : Z) (c : CLIENTINFO) : Prop :=
  t - c_timestamp c ≤ CLIENTINFO_EXPIREDTHRESHOLD * 1000000 ∧ c_dialogue c ≠ d.

Lemma scan_none t d cs : Forall (unexpired t d) cs → scan t d cs = (cs, None, []).
Proof.
  induction 1 as [|c cs [H1 H2] Hcs IH]; [done|]. cbn [scan]. rewrite decide_False by lia. rewrite decide_False by done. by rewrite IH.
Qed.

Definition signalled (p d t : Z) (s : Forwarder) : input := Input (-1) 0 (Some (p, d)) t true (map_to_list (map_follower s)).
Definition headed (d t : Z) (s : Forwarder) : input := Input (-1) 0 (Some (0, d)) t true (map_to_list (map_follower s)).

Lemma reading_step fd e k i s :
  alive s = true → entry_map (poll s) !! fd = Some e → on_read e = Some k →
  fstep fd false true i s = run_callback k fd i s.
Proof. intros Ha He Hk. unfold fstep, dispatch. rewrite Ha, He. cbn. unfold trigger. by rewrite Hk. Qed.

Section meeting.
Context (s : Forwarder) (sfd fd : Z) (es e : Entry callback) (p : Z) (n : nat) (f : FollowerContext) (d t1 t2 : Z).
Context (Hs : fwd_inv s) (Halive : alive s = true).
Context (Hes : entry_map (poll s) !! sfd = Some es) (Hsig : on_read es = Some notify_connecting_cb).
Context (He : entry_map (poll s) !! fd = Some e) (Hpeek : on_read e = Some peek_header_cb).
Context (Hp : map_follower s !! p = Some n) (Hf : find_node n (list_follower s) = Some f).
Context (Halone : ∀ q n' f', map_follower s !! q = Some n' → find_node n' (list_follower s) = Some f' → dialogue f' ≠ d).
Context (Hfresh : Forall (unexpired t1 d) (list_client s)).
Context (Ht : t1 ≤ t2) (Hsoon : t2 - t1 ≤ CLIENTINFO_EXPIREDTHRESHOLD * 1000000).

Lemma header_entry : fd_ e = fd ∧ 0 ≤ fd ∧ fd ∈ opened (poll s).
Proof.
  destruct Hs as [[Hent _ Hdom] _ _ _ _]. destruct (Hent _ _ He) as (? & _ & ?). split_and!; [done|done|]. apply Hdom, dom_entry. eauto.
Qed.

(** The connection first: it is stored, and the signal finds it. *)
Lemma header_then_signal :
  ∃ s1 s2, fstep fd false true (headed d t1 s) s = Ret s1 ∧ fstep sfd false true (signalled p d t2 s1) s1 = Ret s2 ∧
    passed s2 = passed s ++ [(f_fd f, fd)] ∧ list_client s2 = list_client s ∧ fd ∉ opened (poll s2).
Proof.
  destruct header_entry as (Hfd & Hge & Hopen). pose proof Hs as [Hown Hmap _ _ _].
  destruct s as [po lc lf mf nd er pa al].
  cbn [with_poll with_clients with_followers map_follower list_follower list_client poll passed alive] in *.
  rewrite (reading_step fd e peek_header_cb) by done. cbn [run_callback]. unfold peek_header, headed. cbn [msg now ok order poll map_follower list_follower].
  destruct (remove_to_owns _ _ _ Hown He) as (-> & _ & E2 & _).
  destruct (first_waiting_spec d (map_to_list mf) lf) as (o & -> & Hsome & _).
  { intros q n' Hq%elem_of_map_to_list. by destruct (Hmap q n' Hq). }
  destruct o as [n'|]; [exfalso; destruct (Hsome n' eq_refl) as (q & f' & Hq%elem_of_map_to_list & Hf' & Hd); by eapply Halone|].
  cbind. eexists _, _. split; [done|]. rewrite E2, Hfd.
  assert (sfd ≠ fd) as Hne by (intros ->; congruence).
  rewrite (reading_step sfd es notify_connecting_cb); [|done|cbn; by rewrite lookup_delete_ne|done].
  cbn [run_callback]. unfold notify_connecting, signalled. cbn [msg now ok default Datatypes.id]. unfold handle_notify.
  cbn [with_poll with_clients with_followers map_follower list_follower list_client poll].
  rewrite Hp, Hf. cbn [scan c_timestamp c_dialogue]. rewrite decide_False by lia. rewrite decide_True by done.
  rewrite (publish_some n (MkFollower n (pid f) (f_fd f) d (timestamp f))); [|cbn [list_follower]; by rewrite find_set_dialogue, decide_True, Hf].
  cbind. split; [reflexivity|]. cbn. split_and!; [done|done|]. unfold Close. cbn. rewrite decide_True by (split; [lia|done]). cbn. set_solver.
Qed.

(** The signal first: the follower waits, and the connection finds it. *)
Lemma signal_then_header :
  ∃ s1 s2, fstep sfd false true (signalled p d t1 s) s = Ret s1 ∧ fstep fd false true (headed d t2 s1) s1 = Ret s2 ∧
    passed s2 = passed s ++ [(f_fd f, fd)] ∧ list_client s2 = list_client s ∧ fd ∉ opened (poll s2).
Proof.
  destruct header_entry as (Hfd & Hge & Hopen). pose proof Hs as [Hown Hmap _ _ _].
  destruct s as [po lc lf mf nd er pa al].
  cbn [with_poll with_clients with_followers map_follower list_follower list_client poll passed alive] in *.
  rewrite (reading_step sfd es notify_connecting_cb) by done. cbn [run_callback]. unfold notify_connecting, signalled. cbn [msg now ok default Datatypes.id].
  unfold handle_notify. cbn [map_follower list_follower list_client with_followers]. rewrite Hp, Hf. cbn [list_client].
  rewrite scan_none by done. eexists _, _. split; [done|].
  rewrite (reading_step fd e peek_header_cb); [|done|done|done].
  cbn [run_callback]. unfold peek_header, headed. cbn [msg now ok order].
  cbn [with_poll with_clients with_followers map_follower list_follower list_client poll].
  destruct (remove_to_owns _ _ _ Hown He) as (-> & E1 & _ & _). destruct (erase_owns _ _ _ Hown He) as [E3 _].
  destruct (first_waiting_spec d (map_to_list mf) (set_dialogue n d lf)) as (o & -> & Hsome & Hnone).
  { intros q n' Hq%elem_of_map_to_list. destruct (Hmap q n' Hq) as (_ & f' & Hf'). rewrite find_set_dialogue, Hf'. case_decide; cbn; eauto. }
  assert (o = Some n) as ->.
  { destruct o as [n'|].
    - destruct (Hsome n' eq_refl) as (q & f' & Hq%elem_of_map_to_list & Hf' & Hd). rewrite find_set_dialogue in Hf'.
      case_decide; [by subst|]. by destruct (Halone q n' f' Hq Hf').
    - exfalso. eapply (Hnone eq_refl p n); [by apply elem_of_map_to_list|by rewrite find_set_dialogue, decide_True, Hf|done]. }
  cbind. rewrite (publish_some n (MkFollower n (pid f) (f_fd f) d (timestamp f))); [|cbn [list_follower]; by rewrite find_set_dialogue, decide_True, Hf].
  cbind. split; [reflexivity|]. rewrite E1, E3, Hfd. cbn. split_and!; [done|done|set_solver].
Qed.
End meeting.

(** C4: the meeting does not depend on who comes first: for a registered
    follower and a connected client with the dialogue only they have, the
    connection's header followed within five seconds by the follower's signal,
    and the signal followed by the header, both send the client's descriptor to
    the follower's socket, once, close the forwarder's own copy and leave the
    stored clients as they were. *)
Theorem either_order_passes u sg t s fd e p n f d t1 t2 :
  NoDup [u; sg; t] → 0 ≤ u → 0 ≤ sg → 0 ≤ t → freachable u sg t s → alive s = true →
  (∃ es, entry_map (poll s) !! sg = Some es ∧ on_read es = Some notify_connecting_cb) →
  entry_map (poll s) !! fd = Some e → on_read e = Some peek_header_cb →
  map_follower s !! p = Some n → find_node n (list_follower s) = Some f →
  (∀ q n' f', map_follower s !! q = Some n' → find_node n' (list_follower s) = Some f' → dialogue f' ≠ d) →
  Forall (unexpired t1 d) (list_client s) → t1 ≤ t2 → t2 - t1 ≤ CLIENTINFO_EXPIREDTHRESHOLD * 1000000 →
  (∃ s1 s2, fstep fd false true (headed d t1 s) s = Ret s1 ∧ fstep sg false true (signalled p d t2 s1) s1 = Ret s2 ∧
    passed s2 = passed s ++ [(f_fd f, fd)] ∧ list_client s2 = list_client s ∧ fd ∉ opened (poll s2)) ∧
  (∃ s1 s2, fstep sg false true (signalled p d t1 s) s = Ret s1 ∧ fstep fd false true (headed d t2 s1) s1 = Ret s2 ∧
    passed s2 = passed s ++ [(f_fd f, fd)] ∧ list_client s2 = list_client s ∧ fd ∉ opened (poll s2)).
Proof.
  intros Hnd Hu Hsg Ht Hr Ha (es & Hes & Hsig) He Hpeek Hp Hf Halone Hfresh H12 Hsoon.
  destruct (freachable_inv _ _ _ _ Hnd Hu Hsg Ht Hr) as [Hs _].
  split; [by eapply header_then_signal|by eapply signal_then_header].
Qed.

(** ** What goes wrong *)

(** An expired client is forgotten, and its descriptor stays open. *)
Lemma expired_client_leaks c rest now ok s p n f d :
  list_client s = c :: rest → now - c_timestamp c > CLIENTINFO_EXPIREDTHRESHOLD * 1000000 →
  Forall (unexpired now d) rest → map_follower s !! p = Some n → find_node n (list_follower s) = Some f →
  ∃ s', handle_notify p d now ok s = Ret s' ∧ list_client s' = rest ∧ opened (poll s') = opened (poll s).
Proof.
  intros Hc Hexp Hrest Hp Hf. unfold handle_notify. rewrite Hp, Hf.
  assert (list_client (with_followers (set_dialogue n d (list_follower s)) s) = c :: rest) as -> by (by destruct s).
  cbn [scan]. rewrite decide_True by lia. rewrite scan_none by done. eexists. split; [done|]. by destruct s.
Qed.

(** A connection and a follower; the runs below start from there. *)
Definition sample_events : list (Z * input) :=
  [(5, Input 6 0 None 0 true []); (3, Input 7 100 None 0 true [])].

Fixpoint fexec (evs : list (Z * input)) (s : Forwarder) : outcome Forwarder :=
  match evs with
  | [] => Ret s
  | (fd, i) :: evs => s ← fstep fd false true i s; fexec evs s
  end.

Definition sample_forwarder : Forwarder :=
  match fexec sample_events (forwarder_start 3 4 5) with Ret s => s | _ => forwarder_start 3 4 5 end.

(** A client that names the dialogue -1 is sent to a follower that has
    announced nothing: -1 is what an idle follower has. *)
Example unasked_client_passed :
  fmap passed (fstep 6 false true (headed (-1) 0 sample_forwarder) sample_forwarder) = Ret [(7, 6)].
Proof. vm_compute. reflexivity. Qed.

(** A client that sends less than a header ends the process. *)
Example short_header_aborts :
  fmap alive (fstep 6 false true (Input (-1) 0 None 0 true [(100, 0%nat)]) sample_forwarder) = Ret false.
Proof. vm_compute. reflexivity. Qed.

Lemma sample_freachable : freachable 3 4 5 sample_forwarder.
Proof.
  assert (∀ evs s s', freachable 3 4 5 s → map_follower s = ∅ → (sock evs = -1 ∨ (0 ≤ sock evs ∧ sock evs ∉ opened (poll s))) →
    order evs = [] → ∀ fd, fstep fd false true evs s = Ret s' → freachable 3 4 5 s') as Hstep.
  { intros i s s' Hs Hm Hsock Ho fd E. eapply freachable_step; [exact Hs| |exact E]. split; [done|]. by rewrite Ho, Hm, map_to_list_empty. }
  set (s1 := accept_client (Input 6 0 None 0 true []) (forwarder_start 3 4 5)).
  apply (Hstep (Input 7 100 None 0 true []) s1 _) with (fd := 3).
  - apply (Hstep (Input 6 0 None 0 true []) (forwarder_start 3 4 5) _) with (fd := 5);
      [constructor|reflexivity|right; split; [done|by_eval]|reflexivity|vm_compute; reflexivity].
  - reflexivity.
  - right. split; [done|by_eval].
  - reflexivity.
  - vm_compute. reflexivity.
Qed.

#[local] Instance fgood_dec es s : Decision (fgood es s).
Proof.
  revert s. induction es as [|[[[fd h] r] i] es IH]; intros s; cbn [fgood]; [apply _|]. unfold input_ok.
  apply and_dec; [apply _|]. destruct (fstep fd h r i s); [apply IH|apply _..].
Defined.

(** A client that is stored, and a follower that waits for another dialogue. *)
Definition sample_meeting : list fevent :=
  [(5, false, true, Input 6 0 None 0 true []); (3, false, true, Input 7 100 None 0 true []);
   (6, false, true, Input (-1) 0 (Some (0, 9)) 0 true [(100, 0%nat)]); (4, false, true, Input (-1) 0 (Some (100, 8)) 0 true [(100, 0%nat)])].

Lemma forwarder_meets_witness :
  ∃ s, frun sample_meeting (forwarder_start 3 4 5) = Ret s ∧ map c_dialogue (list_client s) = [9] ∧ waits_for 8 s ∧
    (∀ c, c ∈ list_client s → ¬ waits_for (c_dialogue c) s) ∧
    (∀ c, c ∈ list_client s → c_fd c ∈ opened (poll s) ∧ entry_map (poll s) !! c_fd c = None).
Proof.
  destruct (forwarder_meets 3 4 5 sample_meeting ltac:(by_eval) ltac:(lia) ltac:(lia) ltac:(lia) ltac:(by_eval)) as [Hu H].
  destruct (frun sample_meeting (forwarder_start 3 4 5)) as [s| |] eqn:E; [|vm_compute in E; discriminate..].
  destruct H as (s' & [= <-] & H1 & _ & H2). { intros Hl. apply Hu in Hl. discriminate. }
  exists s. split; [done|]. split; [vm_compute in E; injection E as <-; reflexivity|]. split; [|done].
  split; [lia|]. exists 100, 0%nat. vm_compute in E. injection E as <-. eexists. split_and!; vm_compute; reflexivity.
Defined.

Lemma either_order_passes_witness :
  let s := sample_forwarder in
  (∃ s1 s2, fstep 6 false true (headed 9 10 s) s = Ret s1 ∧ fstep 4 false true (signalled 100 9 20 s1) s1 = Ret s2 ∧
    passed s2 = passed s ++ [(7, 6)] ∧ list_client s2 = list_client s ∧ 6 ∉ opened (poll s2)) ∧
  (∃ s1 s2, fstep 4 false true (signalled 100 9 10 s) s = Ret s1 ∧ fstep 6 false true (headed 9 20 s1) s1 = Ret s2 ∧
    passed s2 = passed s ++ [(7, 6)] ∧ list_client s2 = list_client s ∧ 6 ∉ opened (poll s2)).
Proof.
  apply (either_order_passes 3 4 5 sample_forwarder 6 (MkEntry 6 (Some peek_header_cb) (Some None) (Some 6)) 100 0
    (MkFollower 0 100 7 (-1) 0) 9 10 20);
    [by_eval|lia|lia|lia|exact sample_freachable|vm_compute; reflexivity| |vm_compute; reflexivity|reflexivity
    |vm_compute; reflexivity|vm_compute; reflexivity| |constructor|lia|unfold CLIENTINFO_EXPIREDTHRESHOLD; lia].
  - exists (MkEntry 4 (Some notify_connecting_cb) (Some None) (Some 4)). split; vm_compute; reflexivity.
  - assert (Forall (λ x : Z * nat, match find_node x.2 (list_follower sample_forwarder) with Some f => dialogue f ≠ 9 | None => True end)
      (map_to_list (map_follower sample_forwarder))) as Hall by (vm_compute; repeat constructor; discriminate).
    intros q n' f' Hq Hf'. apply elem_of_map_to_list in Hq. rewrite Forall_forall in Hall. specialize (Hall _ Hq). cbn [snd] in Hall.
    by rewrite Hf' in Hall.
Defined.
