(* ===== verification/Coroutine.v ===== *)
(** * coroutine/schedule.cpp: coroutines and their schedule

    A task is what it prints between its yields: a list of pieces, of which the
    last ends the task.  [swapcontext] into a coroutine runs its next piece; a
    yield swaps back, and so does the end of the task, through [uc_link]. *)
From Stdlib Require Import ZArith Lia.
From stdpp Require Import base tactics numbers list.
From S2P Require Import Prelude.

Open Scope Z_scope.

Inductive State := RUNNABLE | RUNNING | SUSPEND.

#[export] Instance State_eq_dec : EqDecision State.
Proof. solve_decision. Defined.

Section schedule.
Context {A : Type}.

Record Coroutine := MkCoroutine { pieces : list (list A); state : State }.

Record Schedule := MkSchedule { running_id : Z; coroutines : list Coroutine; out : list A }.

Definition Schedule_new : Schedule := MkSchedule (-1) [] [].

Definition Create (task : list (list A)) (sched : Schedule) : Z * Schedule :=
  let '(MkSchedule r cs o) := sched in
  let cs := cs ++ [MkCoroutine task RUNNABLE] in
  (zlen cs, MkSchedule r cs o).

(** [Yield], called by the running coroutine with [rest] of its task to come. *)
Definition Yield (rest : list (list A)) (sched : Schedule) : outcome Schedule :=
  let '(MkSchedule r cs o) := sched in
  cs ← store cs (r - 1) (MkCoroutine rest SUSPEND);
  Ret (MkSchedule (-1) cs o).

(** The coroutine that was swapped to, until it swaps back. *)
Definition run_piece (sched : Schedule) : outcome Schedule :=
  let '(MkSchedule r cs o) := sched in
  co ← load cs (r - 1);
  match pieces co with
  | [] => Undef
  | [p] =>
      cs ← store cs (r - 1) (MkCoroutine [] (state co));
      Ret (MkSchedule r cs (o ++ p))
  | p :: rest => Yield rest (MkSchedule r cs (o ++ p))
  end.

Definition Resume (id : Z) (sched : Schedule) : outcome Schedule :=
  let '(MkSchedule r cs o) := sched in
  if decide (id ≤ 0 ∨ id > zlen cs) then Ret sched
  else
    co ← load cs (id - 1);
    if decide (state co = RUNNING) then Ret sched
    else
      cs ← store cs (id - 1) (MkCoroutine (pieces co) RUNNING);
      run_piece (MkSchedule id cs o).

Definition finished (sched : Schedule) : bool :=
  forallb (λ co, bool_decide (state co = RUNNING)) (coroutines sched).

Fixpoint create_all (tasks : list (list (list A))) (sched : Schedule) : list Z * Schedule :=
  match tasks with
  | [] => ([], sched)
  | t :: tasks =>
      let '(id, sched) := Create t sched in
      let '(ids, sched) := create_all tasks sched in (id :: ids, sched)
  end.

Fixpoint resume_all (ids : list Z) (sched : Schedule) : outcome Schedule :=
  match ids with
  | [] => Ret sched
  | id :: ids => sched ← Resume id sched; resume_all ids sched
  end.

Definition main_step (ids : list Z) (sched : Schedule) : outcome (Schedule + Schedule) :=
  if finished sched then Ret (inr sched) else s ← resume_all ids sched; Ret (inl s).

(** The program, for any number of tasks. *)
Definition schedule_main (fuel : nat) (tasks : list (list (list A))) : outcome Schedule :=
  let '(ids, sched) := create_all tasks Schedule_new in
  while_fuel fuel (main_step ids) sched.

(** ** The specification: round robin *)
Definition piece_of (r : nat) (t : list (list A)) : list A := default [] (t !! r).
Definition round_of (tasks : list (list (list A))) (r : nat) : list A := concat (map (piece_of r) tasks).
Definition rounds (tasks : list (list (list A))) : nat := foldr (λ t m, Nat.max (length t) m) 0%nat tasks.
Definition round_robin (tasks : list (list (list A))) : list A := concat (map (round_of tasks) (seq 0 (rounds tasks))).

(** A coroutine after [r] rounds. *)
Definition after (r : nat) (t : list (list A)) : Coroutine :=
  MkCoroutine (drop r t) (if decide (r = 0)%nat then RUNNABLE else if decide (r < length t)%nat then SUSPEND else RUNNING).

Definition ids_of (k n : nat) : list Z := map (λ i, Z.of_nat i + 1) (seq k n).

Lemma create_all_spec tasks r cs o :
  create_all tasks (MkSchedule r cs o) =
    (ids_of (length cs) (length tasks), MkSchedule r (cs ++ map (λ t, MkCoroutine t RUNNABLE) tasks) o).
Proof.
  revert cs. induction tasks as [|t tasks IH]; intros cs; cbn [create_all map length]; [by rewrite app_nil_r|].
  cbn [Create]. rewrite IH, <- app_assoc. unfold ids_of. cbn [seq map]. rewrite length_app, Nat.add_1_r. cbn [app]. do 2 f_equal. lia.
Qed.

(** One coroutine is resumed: a piece is printed, unless it has ended. *)
Lemma resume_one r0 r t pre post o :
  t ≠ [] →
  ∃ r1, Resume (zlen pre + 1) (MkSchedule r0 (pre ++ after r t :: post) o) =
    Ret (MkSchedule r1 (pre ++ after (S r) t :: post) (o ++ piece_of r t)).
Proof.
  intros Ht. unfold Resume. rewrite decide_False by len. replace (zlen pre + 1 - 1) with (zlen pre) by lia.
  rewrite load_app by done. cbind. unfold piece_of.
  destruct (decide (length t ≤ r)%nat) as [Hge|Hlt].
  - assert (r ≠ 0)%nat by (destruct t; [done|cbn in Hge; lia]).
    rewrite (decide_True (P := state (after r t) = RUNNING)) by (cbn; repeat case_decide; done || lia). exists r0.
    rewrite lookup_ge_None_2 by done. cbn [default]. rewrite app_nil_r.
    assert (after r t = after (S r) t) as ->; [|done]. unfold after. rewrite !drop_ge by lia. f_equal. repeat case_decide; done || lia.
  - rewrite (decide_False (P := state (after r t) = RUNNING)) by (cbn; repeat case_decide; done || lia). rewrite store_app by done. cbind. unfold run_piece.
    replace (zlen pre + 1 - 1) with (zlen pre) by lia. rewrite load_app by done. cbind. cbn [pieces after].
    destruct (lookup_lt_is_Some_2 t r ltac:(lia)) as [p Hp]. rewrite Hp. cbn.
    rewrite (drop_S t p r) by done. destruct (drop (S r) t) as [|q rest] eqn:Hd.
    + rewrite store_app by done. cbind. eexists. do 4 f_equal. unfold after. rewrite Hd. f_equal.
      apply (f_equal length) in Hd. rewrite length_drop in Hd. cbn in Hd. repeat case_decide; done || lia.
    + unfold Yield. replace (zlen pre + 1 - 1) with (zlen pre) by lia. rewrite store_app by done. cbind. eexists. do 4 f_equal.
      unfold after. rewrite Hd. f_equal. apply (f_equal length) in Hd. rewrite length_drop in Hd. cbn in Hd. repeat case_decide; done || lia.
Qed.

Lemma resume_all_spec r0 r pre tasks o :
  Forall (λ t, t ≠ []) tasks →
  ∃ r1, resume_all (ids_of (length pre) (length tasks)) (MkSchedule r0 (pre ++ map (after r) tasks) o) =
    Ret (MkSchedule r1 (pre ++ map (after (S r)) tasks) (o ++ round_of tasks r)).
Proof.
  intros Ht. revert r0 pre o. induction Ht as [|t tasks Ht Hts IH]; intros r0 pre o.
  - exists r0. cbn. by rewrite !app_nil_r.
  - unfold ids_of. cbn [length seq map resume_all]. destruct (resume_one r0 r t pre (map (after r) tasks) o Ht) as [r1 ->]. cbind.
    destruct (IH r1 (pre ++ [after (S r) t]) (o ++ piece_of r t)) as [r2 E]. exists r2. unfold ids_of in E.
    rewrite length_app, Nat.add_1_r, <- !app_assoc in E. cbn [app] in E. rewrite E. unfold round_of. cbn [map concat]. done.
Qed.

Lemma finished_after r0 r tasks o :
  Forall (λ t, t ≠ []) tasks →
  finished (MkSchedule r0 (map (after r) tasks) o) = bool_decide (rounds tasks ≤ r)%nat.
Proof.
  intros Ht. unfold finished, rounds. cbn [coroutines]. induction Ht as [|t tasks Hne Hts IH]; [done|].
  cbn [map forallb foldr]. rewrite IH. assert (1 ≤ length t)%nat by (destruct t; [done|cbn; lia]).
  assert (bool_decide (state (after r t) = RUNNING) = bool_decide (length t ≤ r)%nat) as ->.
  { apply bool_decide_ext. cbn [state after]. repeat case_decide; split; intros; done || lia. }
  rewrite <- bool_decide_and. apply bool_decide_ext. lia.
Qed.

(** ** Properties *)

(** The schedule is round robin and ends: whatever the tasks, the program
    prints the first pieces of all of them in the order they were created, then
    the second pieces of those that have one, and so on, every piece once, and
    stops when all have ended, after as many rounds as the longest has pieces. *)
Theorem schedule_round_robin (tasks : list (list (list A))) fuel :
  Forall (λ t, t ≠ []) tasks → (rounds tasks < fuel)%nat →
  ∃ sched, schedule_main fuel tasks = Ret sched ∧ out sched = round_robin tasks ∧
    finished sched = true ∧ Forall (λ co, pieces co = []) (coroutines sched).
Proof.
  intros Ht Hf. unfold schedule_main, Schedule_new. rewrite create_all_spec. cbn [length app].
  replace (map (λ t, MkCoroutine t RUNNABLE) tasks) with (map (after 0) tasks) by done.
  assert (∀ n r r0 o, (rounds tasks - r = n)%nat → (n < fuel)%nat →
    ∃ r1, while_fuel fuel (main_step (ids_of 0 (length tasks))) (MkSchedule r0 (map (after r) tasks) o) =
      Ret (MkSchedule r1 (map (after (r + n)) tasks) (o ++ concat (map (round_of tasks) (seq r n))))) as Hloop.
  { clear Hf. induction fuel as [|fuel IH]; intros n r r0 o Hn Hlt; [lia|]. rewrite while_fuel_S.
    match goal with |- context [main_step ?i ?s] =>
      change (main_step i s) with (if finished s then Ret (inr s) else x ← resume_all i s; Ret (inl x)) end.
    rewrite finished_after by done. destruct n as [|n].
    - rewrite bool_decide_true by lia. cbind. exists r0. cbn. by rewrite Nat.add_0_r, app_nil_r.
    - rewrite bool_decide_false by lia. destruct (resume_all_spec r0 r [] tasks o Ht) as [r1 E]. cbn [length app] in E. rewrite E. cbind.
      destruct (IH n (S r) r1 (o ++ round_of tasks r)) as [r2 ->]; [lia|lia|]. exists r2. cbn [seq map concat].
      rewrite <- app_assoc. by rewrite Nat.add_succ_comm. }
  destruct (Hloop (rounds tasks) 0%nat (-1) []) as [r1 ->]; [lia|done|]. eexists. split; [done|]. cbn [out coroutines Nat.add app].
  split_and!; [done|rewrite finished_after by done; by apply bool_decide_true|].
  apply Forall_map, Forall_forall. intros t Hin. cbn. apply drop_ge. unfold rounds. clear -Hin.
  induction tasks as [|u tasks IH]; [by apply elem_of_nil in Hin|]. cbn. apply elem_of_cons in Hin as [-> |Hin]; [lia|]. specialize (IH Hin). lia.
Qed.
End schedule.

(** The program's own tasks: 1, 11, 111 and 2, 22. *)
Definition fn1 : list (list Z) := [[1]; [11]; [111]].
Definition fn2 : list (list Z) := [[2]; [22]].

Lemma schedule_round_robin_witness :
  ∃ sched, schedule_main 4 [fn1; fn2] = Ret sched ∧ out sched = [1; 2; 11; 22; 111] ∧
    finished sched = true ∧ Forall (λ co, pieces co = []) (coroutines sched).
Proof. apply (schedule_round_robin [fn1; fn2] 4); [repeat constructor; discriminate|cbn; lia]. Defined.
