(* ===== verification/Coordinator.v ===== *)
(** * socket/monitor/examples/coordinator.h and coordinator.cpp: the coordinator

    Workers connect and send pings; a time wheel finds the ones that have
    stopped.  Every ping puts the worker's record into the slot that comes out
    ten ticks later, and when a slot comes out a record that nothing but the
    slot and the map refers to has expired.  The reference counts are counted:
    a shared pointer is the number of a record, and its count is how often the
    number occurs in the slot, in the wheel and in the map.

    The coordinator runs on the event loop of [Poll] and the wheel of
    [TimeWheel].  Times are nanoseconds. *)
From Stdlib Require Import ZArith Lia.
From stdpp Require Import base tactics numbers list gmap sets.
From S2P Require Import Prelude.
From S2P Require Import WeightCodec.
From S2P Require Import TimeWheel.
From S2P Require Import Poll.

Open Scope Z_scope.

Inductive ccallback := Accept_cb | OnWheelTick_cb | AcceptWorkerConnection_cb | OnRecvHeartBeat_cb.

Record WorkerMeta := MkMeta { w_pid : Z; w_handler : Z }.
Record WorkerHeartBeatInfo := MkInfo { h_pid : Z; h_handler : Z; h_timestamp : Z }.

(** The messages of the heart beat, as the callbacks use them. *)
Inductive MessageType := PING | PONG | OTHER.
Record Message := MkMessage { m_type : MessageType; m_pid : Z; m_timestamp : Z }.

Definition WHEEL : nat := 10.

Record Coordinator := MkCoordinator {
  cpoll : Poll ccallback;
  infos : list WorkerHeartBeatInfo;     (** the records made so far *)
  timeWheel : @TimeWheel nat;
  heartBeatInfo : gmap Z nat;
  busy_workers : list WorkerMeta;
  idle_workers : list WorkerMeta;
  replies : list (Z * Message);         (** what was written to the workers *)
}.

(** What the calls of a callback find. *)
Record cinput := CInput {
  c_sock : Z;                   (** from [accept] or [socket] *)
  c_msg : Message;              (** what [recv] leaves in the message *)
  c_now : Z;
  c_pid : Z;                    (** [GetPid] *)
  c_valid : WorkerMeta → bool;  (** process and descriptor are there *)
  c_connected : bool;           (** [connect] works *)
}.

(** ** Heart beats *)

(** How often a record occurs in a list of shared pointers. *)
Definition occurrences (n : nat) (l : list nat) : nat := length (filter (λ x, x = n) l).

Definition use_count (n : nat) (slot : list nat) (s : Coordinator) : nat :=
  occurrences n slot + occurrences n (concat (wheel_ (timeWheel s))) +
  size (filter (λ p : Z * nat, p.2 = n) (heartBeatInfo s)).

(** The loop over the slot that has come out. *)
Fixpoint expire (slot rest : list nat) (s : Coordinator) : outcome Coordinator :=
  match rest with
  | [] => Ret s
  | n :: rest =>
      i ← load (infos s) (Z.of_nat n);
      if decide (use_count n slot s = 2%nat) then
        let '(MkCoordinator p nf w hb bw iw r) := s in
        expire slot rest (MkCoordinator (remove (h_handler i) p) nf w (delete (h_handler i) hb) bw iw r)
      else expire slot rest s
  end.

Definition OnWheelTick (s : Coordinator) : outcome Coordinator :=
  let '(MkCoordinator p nf w hb bw iw r) := s in
  '(slot, w) ← tick WHEEL w;
  expire slot slot (MkCoordinator p nf w hb bw iw r).

(** A descriptor without a record gives a null pointer. *)
Definition OnRecvHeartBeat (fd : Z) (i : cinput) (s : Coordinator) : outcome Coordinator :=
  match m_type (c_msg i) with
  | PING =>
      let '(MkCoordinator p nf w hb bw iw r) := s in
      match hb !! fd with
      | None => Undef
      | Some n =>
          info ← load nf (Z.of_nat n);
          nf ← store nf (Z.of_nat n) (MkInfo (m_pid (c_msg i)) (h_handler info) (c_now i));
          w ← add n w;
          Ret (MkCoordinator p nf w hb bw iw (r ++ [(fd, MkMessage PONG (c_pid i) (c_now i))]))
      end
  | _ => Ret s
  end.

Definition AcceptWorkerConnection (i : cinput) (s : Coordinator) : outcome Coordinator :=
  if decide (c_sock i = -1) then Ret s
  else
    let '(MkCoordinator p nf w hb bw iw r) := s in
    let n := length nf in
    w ← add n w;
    Ret (MkCoordinator (registerEntry (c_sock i) OnRecvHeartBeat_cb None (open_fd (c_sock i) p))
      (nf ++ [MkInfo 0 (c_sock i) 0]) w (<[c_sock i := n]> hb) bw iw r).

(** ** Clients and workers *)

(** The first worker that is still there; the others are erased from the copy. *)
Fixpoint first_valid (valid : WorkerMeta → bool) (l : list WorkerMeta) : option WorkerMeta :=
  match l with
  | [] => None
  | m :: l => if valid m then Some m else first_valid valid l
  end.

Definition with_cpoll (p : Poll ccallback) (s : Coordinator) : Coordinator :=
  let '(MkCoordinator _ nf w hb bw iw r) := s in MkCoordinator p nf w hb bw iw r.

(** [Accept]: when there is a worker its node is read after it was erased. *)
Definition Accept (i : cinput) (s : Coordinator) : outcome Coordinator :=
  if decide (c_sock i = -1) then Ret s
  else
    match first_valid (c_valid i) (idle_workers s) with
    | Some _ => Undef
    | None => Ret (with_cpoll (Close (c_sock i) (open_fd (c_sock i) (cpoll s))) s)
    end.

(** [sscanf(name, "worker.%d", &pid)] with [pid] zero before. *)
Fixpoint strip_prefix (p s : list Z) : option (list Z) :=
  match p, s with
  | [], _ => Some s
  | a :: p, b :: s => if decide (a = b) then strip_prefix p s else None
  | _ :: _, [] => None
  end.

Definition WORKER_IPC_PREFIX : list Z := [119; 111; 114; 107; 101; 114; 46].

Definition scan_worker (name : list Z) : outcome Z :=
  match strip_prefix WORKER_IPC_PREFIX name with
  | Some s => int_result (parse_int s)
  | None => Ret 0
  end.

(** The size of [sun_path]. *)
Definition SUN_PATH : Z := 108.

Definition OnIpcFileCreate (name : list Z) (i : cinput) (s : Coordinator) : outcome Coordinator :=
  pid ← scan_worker name;
  if decide (pid = 0) then Ret s
  else if decide (Exists (λ m, w_pid m = pid) (busy_workers s)) then Undef
  else if decide (zlen name + 1 ≤ SUN_PATH) then
    let '(MkCoordinator p nf w hb bw iw r) := s in
    (* a failed [connect] leaves the descriptor open *)
    let p := if decide (c_sock i = -1) then p else open_fd (c_sock i) p in
    Ret (MkCoordinator p nf w hb bw
      (if decide (c_sock i ≠ -1 ∧ c_connected i = true) then iw ++ [MkMeta pid (c_sock i)] else iw) r)
  else Undef.

(** ** Start and loop *)
Definition Coordinator_new (tcp timer unix : Z) : Coordinator :=
  let p := MkPoll ∅ ∅ {[tcp; timer; unix]} in
  let p := registerEntry tcp Accept_cb None p in
  let p := registerEntry timer OnWheelTick_cb None p in
  let p := registerEntry unix AcceptWorkerConnection_cb None p in
  MkCoordinator p [] (TimeWheel_new WHEEL) ∅ [] [] [].

Definition run_ccallback (k : ccallback) (fd : Z) (i : cinput) (s : Coordinator) : outcome Coordinator :=
  match k with
  | Accept_cb => Accept i s
  | OnWheelTick_cb => OnWheelTick s
  | AcceptWorkerConnection_cb => AcceptWorkerConnection i s
  | OnRecvHeartBeat_cb => OnRecvHeartBeat fd i s
  end.

(** One event of [Poll::loop]. *)
Definition cstep (fd : Z) (rdhup readable : bool) (i : cinput) (s : Coordinator) : outcome Coordinator :=
  match dispatch fd rdhup readable (cpoll s) with
  | None => Ret s
  | Some (Reading k) => run_ccallback k fd i s
  | Some (Closing k) =>
      s ← (match k with Some k => run_ccallback k fd i s | None => Ret s end);
      Ret (with_cpoll (erase_entry fd (cpoll s)) s)
  end.

(** The destructor closes the handlers of the workers. *)
Definition Coordinator_destroy (s : Coordinator) : Poll ccallback :=
  foldl (λ p m, Close (w_handler m) p) (cpoll s) (busy_workers s ++ idle_workers s).

(** ** The specification: how many ticks a worker has left

    A connection has ten ticks from its acceptance and from every ping, and is
    dropped at the tick that takes the last one.  [Some] says the code's
    assumptions hold: a number is not given to a new connection while a record
    with it is left, and a connection's record is put into a slot once. *)
Inductive beat :=
| BTick
| BAccept (sock : Z)
| BPing (fd pid now : Z)
| BHangup (fd : Z)
| BRefuse (sock : Z).            (** a client comes when no worker is idle *)

Record spec := Spec { ticks_left : gmap Z nat; watched : gset Z }.

Definition spec_tick (m : gmap Z nat) : gmap Z nat :=
  omap (λ k, if decide (k = 1%nat) then None else Some (k - 1)%nat) m.

Definition spec_beat (base : gset Z) (b : beat) (s : spec) : option spec :=
  match b with
  | BTick => let m := spec_tick (ticks_left s) in Some (Spec m (watched s ∩ dom m))
  | BAccept sock =>
      if decide (0 ≤ sock ∧ (sock ∉ base) ∧ sock ∉ dom (ticks_left s))
      then Some (Spec (<[sock := WHEEL]> (ticks_left s)) ({[sock]} ∪ watched s)) else None
  | BPing fd _ _ =>
      k ← ticks_left s !! fd;
      if decide (fd ∈ watched s ∧ k ≠ WHEEL) then Some (Spec (<[fd := WHEEL]> (ticks_left s)) (watched s)) else None
  | BHangup fd => if decide (fd ∈ watched s) then Some (Spec (ticks_left s) (watched s ∖ {[fd]})) else None
  | BRefuse sock => if decide (0 ≤ sock ∧ (sock ∉ base) ∧ sock ∉ watched s) then Some s else None
  end.

(** The event of the loop a beat is. *)
Section events.
Context (tcp timer unix : Z).

Definition silence : Message := MkMessage OTHER 0 0.

Definition beat_step (b : beat) (s : Coordinator) : outcome Coordinator :=
  match b with
  | BTick => cstep timer false true (CInput (-1) silence 0 0 (λ _, false) false) s
  | BAccept sock => cstep unix false true (CInput sock silence 0 0 (λ _, false) false) s
  | BPing fd pid now => cstep fd false true (CInput (-1) (MkMessage PING pid now) now 0 (λ _, false) false) s
  | BHangup fd => cstep fd true true (CInput (-1) silence 0 0 (λ _, false) false) s
  | BRefuse sock => cstep tcp false true (CInput sock silence 0 0 (λ _, false) false) s
  end.

Fixpoint beats (bs : list beat) (s : Coordinator) : outcome Coordinator :=
  match bs with
  | [] => Ret s
  | b :: bs => s ← beat_step b s; beats bs s
  end.

Fixpoint spec_beats (bs : list beat) (s : spec) : option spec :=
  match bs with
  | [] => Some s
  | b :: bs => s ← spec_beat {[tcp; timer; unix]} b s; spec_beats bs s
  end.
End events.

(** The pings of a run, and the number of ticks a connection has left decided by
    its own pings alone: [false] when they run out or the peer hangs up. *)
Fixpoint pings (bs : list beat) : list (Z * Message) :=
  match bs with
  | [] => []
  | BPing fd _ now :: bs => (fd, MkMessage PONG 0 now) :: pings bs
  | _ :: bs => pings bs
  end.

Fixpoint in_time (fd : Z) (k : nat) (bs : list beat) : bool :=
  match bs with
  | [] => true
  | BTick :: bs => if decide (k = 1%nat) then false else in_time fd (k - 1) bs
  | BPing fd' _ _ :: bs => in_time fd (if decide (fd' = fd) then WHEEL else k) bs
  | BHangup fd' :: bs => if decide (fd' = fd) then false else in_time fd k bs
  | _ :: bs => in_time fd k bs
  end.

(** ** Counting references *)
Lemma occurrences_app n l1 l2 : occurrences n (l1 ++ l2) = (occurrences n l1 + occurrences n l2)%nat.
Proof. unfold occurrences. by rewrite filter_app, length_app. Qed.

Lemma occurrences_perm n l1 l2 : l1 ≡ₚ l2 → occurrences n l1 = occurrences n l2.
Proof. intros H. unfold occurrences. by rewrite H. Qed.

Lemma occurrences_zero n l : n ∉ l → occurrences n l = 0%nat.
Proof.
  intros H. unfold occurrences. induction l as [|x l IH]; [done|].
  apply not_elem_of_cons in H as [H1 H2]. rewrite filter_cons_False by congruence. auto.
Qed.

Lemma occurrences_pos n l : n ∈ l → (1 ≤ occurrences n l)%nat.
Proof.
  intros (l1 & l2 & ->)%list_elem_of_split. rewrite occurrences_app. unfold occurrences at 2.
  rewrite filter_cons_True by done. cbn. lia.
Qed.

Lemma occurrences_nodup n l : NoDup l → n ∈ l → occurrences n l = 1%nat.
Proof.
  intros Hn (l1 & l2 & ->)%list_elem_of_split. apply NoDup_app in Hn as (_ & H1 & [H2 _]%NoDup_cons).
  rewrite occurrences_app, (occurrences_zero n l1).
  - unfold occurrences. rewrite filter_cons_True by done. cbn. fold (occurrences n l2). by rewrite occurrences_zero.
  - intros H. apply (H1 n H). by left.
Qed.

Lemma queue_perm {T} (w : @TimeWheel T) : queue w ≡ₚ wheel_ w.
Proof.
  unfold queue. rewrite <- (take_drop (Z.to_nat (i_ w)) (wheel_ w)) at 3.
  rewrite <- !Permutation_rev. done.
Qed.

Lemma concat_perm {T} (l1 l2 : list (list T)) : l1 ≡ₚ l2 → concat l1 ≡ₚ concat l2.
Proof.
  induction 1; cbn; [done|by apply Permutation_app|rewrite !app_assoc; apply Permutation_app_tail, Permutation_app_comm|by etrans].
Qed.

(** The pointers in the map: one if the record is there under one key only. *)
Lemma map_count (m : gmap Z nat) fd n :
  m !! fd = Some n → (∀ fd', m !! fd' = Some n → fd' = fd) → size (filter (λ p : Z * nat, p.2 = n) m) = 1%nat.
Proof.
  intros H Hu. assert (filter (λ p : Z * nat, p.2 = n) m = {[fd := n]}) as ->; [|apply map_size_singleton].
  apply map_eq. intros k. apply option_eq. intros v. rewrite map_lookup_filter_Some, lookup_singleton_Some. cbn. naive_solver.
Qed.

(** ** The simulation *)
Section simulation.
Context (tcp timer unix : Z).
Context (Hfds : 0 ≤ tcp ∧ 0 ≤ timer ∧ 0 ≤ unix ∧ tcp ≠ timer ∧ tcp ≠ unix ∧ timer ≠ unix).

Definition servers : gset Z := {[tcp; timer; unix]}.
Definition centry (fd : Z) (cb : ccallback) : Entry ccallback := MkEntry fd (Some cb) (Some None) (Some fd).

(** The loop watches the three servers and the connections [W]. *)
Record loop_ok (p : Poll ccallback) (W : gset Z) : Prop := {
  lo_owns : owns p;
  lo_tcp : entry_map p !! tcp = Some (centry tcp Accept_cb);
  lo_timer : entry_map p !! timer = Some (centry timer OnWheelTick_cb);
  lo_unix : entry_map p !! unix = Some (centry unix AcceptWorkerConnection_cb);
  lo_conn : ∀ fd, fd ∈ W → entry_map p !! fd = Some (centry fd OnRecvHeartBeat_cb);
  lo_dom : dom (entry_map p) = servers ∪ W;
  lo_open : opened p = servers ∪ W;
}.

(** A record is where its ticks say, possibly in earlier slots too, and in the
    map under its descriptor. *)
Record simulates (s : Coordinator) (m : gmap Z nat) (W : gset Z) : Prop := {
  si_wheel : wheel_ok WHEEL (timeWheel s);
  si_dom : dom (heartBeatInfo s) = dom m;
  si_info : ∀ fd n, heartBeatInfo s !! fd = Some n → ∃ i, infos s !! n = Some i ∧ h_handler i = fd;
  si_slot : ∀ j slot, queue (timeWheel s) !! j = Some slot →
    NoDup slot ∧ ∀ n, n ∈ slot → ∃ fd k, heartBeatInfo s !! fd = Some n ∧ m !! fd = Some k ∧ (j < k)%nat;
  si_last : ∀ fd n k, heartBeatInfo s !! fd = Some n → m !! fd = Some k →
    (1 ≤ k ≤ WHEEL)%nat ∧ ∃ slot, queue (timeWheel s) !! (k - 1)%nat = Some slot ∧ n ∈ slot;
  si_loop : loop_ok (cpoll s) W;
  si_watched : W ⊆ dom m;
  si_servers : dom m ## servers;
  si_workers : idle_workers s = [] ∧ busy_workers s = [];
}.

Lemma queue_length w : wheel_ok WHEEL w → length (queue (T := nat) w) = WHEEL.
Proof. intros [H _]. by rewrite (Permutation_length (queue_perm w)). Qed.

(** A record in the map is in it once. *)
Lemma info_unique s m W fd fd' n :
  simulates s m W → heartBeatInfo s !! fd = Some n → heartBeatInfo s !! fd' = Some n → fd' = fd.
Proof.
  intros Hs H H'. destruct (si_info _ _ _ Hs _ _ H) as (i & Hi & <-).
  destruct (si_info _ _ _ Hs _ _ H') as (i' & Hi' & <-). congruence.
Qed.

(** Removing connections: those the loop still has are closed. *)
Lemma loop_remove p W fd : loop_ok p W → W ## servers → (fd ∉ servers) → loop_ok (remove fd p) (W ∖ {[fd]}).
Proof.
  intros [Ho Ht Hm Hu Hc Hd Hop] Hdis Hfd. unfold servers in *. destruct (decide (fd ∈ W)) as [Hin|Hin].
  - pose proof (Hc fd Hin) as He. rewrite (remove_erase p fd _ He). destruct (erase_owns p fd _ Ho He) as [E1 E2]. rewrite E1 in *.
    constructor; cbn; [done|rewrite lookup_delete_ne by set_solver; done..| | |].
    + intros fd' Hfd'. rewrite lookup_delete_ne by set_solver. apply Hc. set_solver.
    + rewrite dom_delete_L, Hd. unfold servers. set_solver.
    + rewrite Hop. unfold servers. set_solver.
  - assert (entry_map p !! fd = None) as Hn by (apply not_elem_of_dom; rewrite Hd; unfold servers; set_solver).
    assert (remove fd p = p) as ->.
    { unfold remove, entry_at, erased. rewrite Hn. cbn. unfold Entry_destroy. cbn. unfold Close.
      rewrite decide_False by (intros [? _]; done). rewrite delete_id by done. by destruct p. }
    replace (W ∖ {[fd]}) with W by set_solver. by constructor.
Qed.

(** The loop over a slot whose records are in it once each: those that are
    nowhere else in the wheel go, from the map and from the event loop. *)
Lemma expire_spec slot nf w bw iw r todo p hb W :
  (∀ n, n ∈ slot → occurrences n slot = 1%nat) → NoDup todo → (∀ n, n ∈ todo → n ∈ slot ∧ ∃ fd, hb !! fd = Some n) →
  (∀ fd n, hb !! fd = Some n → ∃ i, nf !! n = Some i ∧ h_handler i = fd) →
  loop_ok p W → W ## servers → dom hb ## servers →
  let dead n := n ∈ todo ∧ occurrences n (concat (wheel_ w)) = 0%nat in
  ∃ p' hb' W', expire slot todo (MkCoordinator p nf w hb bw iw r) = Ret (MkCoordinator p' nf w hb' bw iw r) ∧
    loop_ok p' W' ∧ (∀ fd n, hb' !! fd = Some n ↔ hb !! fd = Some n ∧ ¬ dead n) ∧
    (∀ fd, fd ∈ W' ↔ fd ∈ W ∧ ∀ n, hb !! fd = Some n → ¬ dead n).
Proof.
  intros Hone. revert p hb W. induction todo as [|n todo IH]; intros p hb W Hnd Hin Hinf Hlo HW Hhb dead; cbn [expire].
  - exists p, hb, W. split; [done|]. split; [done|]. unfold dead. set_solver.
  - apply NoDup_cons in Hnd as [Hn Hnd]. destruct (Hin n) as (Hs & fd & Hfd); [by left|].
    destruct (Hinf fd n Hfd) as (i & Hi & Hh). cbn [infos]. assert (load nf (Z.of_nat n) = Ret i) as -> by (apply load_Ret; rewrite Nat2Z.id; split; [lia|done]). cbind.
    assert (∀ fd' n', hb !! fd' = Some n' → n' = n → fd' = fd) as Huniq.
    { intros fd' n' H' ->. destruct (Hinf fd' n H') as (i' & ? & ?). congruence. }
    unfold use_count. cbn [timeWheel heartBeatInfo]. rewrite (Hone n Hs), (map_count hb fd n) by eauto. case_decide as Hc.
    + rewrite Hh. edestruct (IH (remove fd p) (delete fd hb) (W ∖ {[fd]})) as (p' & hb' & W' & E & Hlo' & Hhb' & HW').
      * done.
      * intros n' Hn'. destruct (Hin n') as (? & fd' & Hfd'); [by right|]. split; [done|]. exists fd'.
        rewrite lookup_delete_ne by congruence. done.
      * intros fd' n' (_ & H')%lookup_delete_Some. eauto.
      * apply loop_remove; [done|done|]. apply elem_of_dom_2 in Hfd. set_solver.
      * set_solver.
      * rewrite dom_delete_L. set_solver.
      * exists p', hb', W'. split; [done|]. split; [done|]. unfold dead. split.
        -- intros fd' n'. rewrite Hhb', lookup_delete_Some, elem_of_cons.
           split; [intros ((? & ?) & ?); split; [done|]; intros [[-> |?] ?]; [by eapply H, eq_sym, Huniq|tauto]|].
           intros (H1 & H2). split; [|tauto]. split; [|done]. intros <-. apply H2. rewrite Hfd in H1. simplify_eq. split; [by left|lia].
        -- intros fd'. rewrite HW', elem_of_difference, elem_of_singleton. setoid_rewrite lookup_delete_Some. setoid_rewrite elem_of_cons. split.
           ++ intros ((? & ?) & H2). split; [done|]. intros n' Hn' [[-> |?] ?]; [by eauto|]. by apply (H2 n').
           ++ intros (? & H2). split; [split; [done|]|].
              ** intros ->. apply (H2 n Hfd). split; [by left|lia].
              ** intros n' [_ Hn'] [? ?]. apply (H2 n' Hn'). auto.
    + edestruct (IH p hb W) as (p' & hb' & W' & E & Hlo' & Hhb' & HW'); [done|by intros n' ?; apply Hin; right|done..|].
      exists p', hb', W'. split; [done|]. split; [done|]. unfold dead. setoid_rewrite elem_of_cons. split.
      * intros fd' n'. rewrite Hhb'. split; [|tauto]. intros (? & H2). split; [done|]. intros [[-> |?] ?]; [lia|tauto].
      * intros fd'. rewrite HW'. split; intros (? & H2); (split; [done|]); intros n' Hn' [Hd ?]; [|apply (H2 n' Hn'); tauto].
        destruct Hd as [-> |?]; [lia|by apply (H2 n' Hn')].
Qed.

Lemma elem_concat {T} (x : T) ls : x ∈ concat ls ↔ ∃ l, l ∈ ls ∧ x ∈ l.
Proof. rewrite list_elem_of_In, in_concat. by setoid_rewrite <- list_elem_of_In. Qed.

(** The records of the slot that comes out that are nowhere else are those whose
    ticks are up. *)
Lemma dead_iff s m W slot rest n fd k :
  simulates s m W → queue (timeWheel s) = slot :: rest → heartBeatInfo s !! fd = Some n → m !! fd = Some k →
  n ∈ slot ∧ occurrences n (concat (rest ++ [[]])) = 0%nat ↔ k = 1%nat.
Proof.
  intros Hs Hq Hfd Hk. destruct (si_last _ _ _ Hs fd n k Hfd Hk) as (Hk1 & slot' & Hsl & Hin). rewrite Hq in Hsl. split.
  - intros [Hn H0]. destruct (k - 1)%nat as [|k'] eqn:E; [lia|]. cbn in Hsl. exfalso.
    assert (n ∈ concat (rest ++ [[]])) as H%occurrences_pos; [|lia].
    apply elem_concat. exists slot'. split; [|done]. apply elem_of_app. left. by eapply list_elem_of_lookup_2.
  - intros ->. cbn in Hsl. simplify_eq. split; [done|]. apply occurrences_zero. intros (l & Hl & Hin')%elem_concat.
    apply elem_of_app in Hl as [Hl|Hl%list_elem_of_singleton]; [|subst; by apply not_elem_of_nil in Hin'].
    apply list_elem_of_lookup_1 in Hl as [j Hj]. destruct (si_slot _ _ _ Hs (S j) l) as [_ H]; [by rewrite Hq|].
    destruct (H n Hin') as (fd' & k & Hfd' & Hk' & Hlt). rewrite (info_unique s m W fd fd' n Hs Hfd Hfd'), Hk in Hk'. simplify_eq. lia.
Qed.

Lemma spec_tick_lookup m fd k :
  spec_tick m !! fd = Some k ↔ ∃ k0, m !! fd = Some k0 ∧ k0 ≠ 1%nat ∧ k = (k0 - 1)%nat.
Proof.
  unfold spec_tick. rewrite lookup_omap_Some. split; intros (k0 & H1 & H2).
  - case_decide; simplify_eq. eauto.
  - destruct H2 as [? ->]. exists k0. split; [|done]. by rewrite decide_False.
Qed.

Lemma tracked s m W fd n : simulates s m W → heartBeatInfo s !! fd = Some n → ∃ k, m !! fd = Some k.
Proof. intros Hs H%elem_of_dom_2. rewrite (si_dom _ _ _ Hs), elem_of_dom in H. destruct H; eauto. Qed.

Lemma tracked_back s m W fd k : simulates s m W → m !! fd = Some k → ∃ n, heartBeatInfo s !! fd = Some n.
Proof. intros Hs H%elem_of_dom_2. rewrite <- (si_dom _ _ _ Hs), elem_of_dom in H. destruct H; eauto. Qed.

Lemma tick_simulates s m W :
  simulates s m W → ∃ s', OnWheelTick s = Ret s' ∧ simulates s' (spec_tick m) (W ∩ dom (spec_tick m)).
Proof.
  intros Hs. destruct s as [p nf w hb bw iw r]. pose proof Hs as [Hw Hd Hi Hsl Hla Hlo HW Hse Hwo]. cbn in *.
  destruct (tick_refines WHEEL w Hw) as (w' & -> & Hw' & Hq'). cbind.
  destruct (queue w) as [|slot rest] eqn:Hq; [pose proof (queue_length w Hw) as Hl; rewrite Hq in Hl; done|]. cbn [hd tl] in *.
  destruct (Hsl 0%nat slot eq_refl) as [Hnd Hin].
  assert (∀ n, occurrences n (concat (wheel_ w')) = occurrences n (concat (rest ++ [[]]))) as Hocc.
  { intros n. apply occurrences_perm, concat_perm. by rewrite <- Hq', queue_perm. }
  edestruct (expire_spec slot nf w' bw iw r slot p hb W) as (p' & hb' & W' & E & Hlo' & Hhb' & HW').
  { intros n. by apply occurrences_nodup. }
  { done. }
  { intros n Hn. split; [done|]. destruct (Hin n Hn) as (fd & _ & ? & _). eauto. }
  { done. } { done. } { set_solver. } { by rewrite Hd. }
  rewrite E. clear E.
  (* who stays *)
  assert (∀ fd n k, hb !! fd = Some n → m !! fd = Some k →
    (n ∈ slot ∧ occurrences n (concat (wheel_ w')) = 0%nat) ↔ k = 1%nat) as Hdead.
  { intros fd n k Hfd Hk. rewrite Hocc. by apply (dead_iff _ m W slot rest n fd k Hs). }
  assert (∀ fd n, hb' !! fd = Some n ↔ hb !! fd = Some n ∧ fd ∈ dom (spec_tick m)) as Hstay.
  { intros fd n. rewrite Hhb', elem_of_dom. split; intros [Hfd H]; (split; [done|]).
    - destruct (tracked _ m W fd n Hs Hfd) as [k Hk]. exists (k - 1)%nat. apply spec_tick_lookup. exists k.
      split_and!; [done| |done]. intros ->. apply H. by apply (Hdead fd n 1%nat).
    - destruct H as [k (k0 & Hk0 & Hne & _)%spec_tick_lookup]. intros Hd0. apply (Hdead fd n k0) in Hd0; done. }
  eexists. split; [done|]. constructor; cbn; [done| | | | | | | |done].
  - apply set_eq. intros fd. rewrite elem_of_dom. split.
    + intros [n [_ H]%Hstay]. done.
    + intros H. pose proof H as [k (k0 & Hk0 & _)%spec_tick_lookup]%elem_of_dom.
      destruct (tracked_back _ m W fd k0 Hs Hk0) as [n Hn]. exists n. by apply Hstay.
  - intros fd n [H _]%Hstay. eauto.
  - rewrite Hq'. intros j l Hj. apply lookup_app_Some in Hj as [Hj|[_ Hj]].
    + destruct (Hsl (S j) l Hj) as [Hn Hl]. split; [done|]. intros n Hnl. destruct (Hl n Hnl) as (fd & k & Hfd & Hk & Hlt).
      exists fd, (k - 1)%nat. assert (spec_tick m !! fd = Some (k - 1)%nat) as Hk'.
      { apply spec_tick_lookup. exists k. split_and!; [done|lia|done]. }
      split_and!; [apply Hstay; split; [done|by eapply elem_of_dom_2]|done|lia].
    + apply list_lookup_singleton_Some in Hj as [_ <-]. split; [constructor|]. by intros n ?%not_elem_of_nil.
  - intros fd n k [Hfd _]%Hstay (k0 & Hk0 & Hne & ->)%spec_tick_lookup. destruct (Hla fd n k0 Hfd Hk0) as (Hk & l & Hl & Hn).
    split; [lia|]. exists l. split; [|done]. rewrite Hq'. destruct k0 as [|[|k0]]; [lia..|].
    replace (S (S k0) - 1)%nat with (S k0) in * by lia. cbn in Hl. replace (S k0 - 1)%nat with k0 by lia. by apply lookup_app_l_Some.
  - assert (W' = W ∩ dom (spec_tick m)) as <-; [|done]. apply set_eq. intros fd. rewrite HW', elem_of_intersection.
    split; intros [H1 H2]; (split; [done|]).
    + apply HW in H1 as H3. apply elem_of_dom in H3 as [k Hk]. destruct (tracked_back _ m W fd k Hs Hk) as [n Hn]. cbn in Hn.
      apply elem_of_dom. exists (k - 1)%nat. apply spec_tick_lookup. exists k. split_and!; [done| |done].
      intros ->. apply (H2 n Hn). by apply (Hdead fd n 1%nat).
    + intros n Hn Hd0. apply elem_of_dom in H2 as [k (k0 & Hk0 & Hne & _)%spec_tick_lookup]. by apply (Hdead fd n k0) in Hd0.
  - set_solver.
  - intros fd Hfd Hin'. apply elem_of_dom in Hfd as [k (k0 & Hk0%elem_of_dom_2 & _)%spec_tick_lookup]. set_solver.
Qed.
(** A record is put into the current slot, which does not have it yet. *)
Lemma push_simulates s m W fd n p' nf' w' W' r' :
  simulates s m W → wheel_ok WHEEL w' →
  queue w' = removelast (queue (timeWheel s)) ++ [List.last (queue (timeWheel s)) [] ++ [n]] →
  (heartBeatInfo s !! fd = Some n ∨ heartBeatInfo s !! fd = None) →
  (∀ l, queue (timeWheel s) !! (WHEEL - 1)%nat = Some l → n ∉ l) →
  (∀ k i, infos s !! k = Some i → ∃ i', nf' !! k = Some i' ∧ h_handler i' = h_handler i) →
  (∃ i, nf' !! n = Some i ∧ h_handler i = fd) →
  loop_ok p' W' → W' ⊆ {[fd]} ∪ dom m → (fd ∉ servers) →
  simulates (MkCoordinator p' nf' w' (<[fd := n]> (heartBeatInfo s)) (busy_workers s) (idle_workers s) r') (<[fd := WHEEL]> m) W'.
Proof.
  intros Hs Hw' Hq' Hhb Hnew Hnf Hn Hlo' HW' Hfd. pose proof Hs as [Hw Hd Hi Hsl Hla Hlo HW Hse Hwo].
  pose proof (queue_length _ Hw) as Hlen. destruct (snoc_queue (queue (timeWheel s))) as (q & l & Hq); [rewrite Hlen; unfold WHEEL; lia|].
  rewrite Hq, removelast_last, last_last in Hq'. rewrite Hq, length_app in Hlen. cbn [length] in Hlen.
  assert (length q = WHEEL - 1)%nat as Hql by lia.
  assert ((queue (timeWheel s)) !! (WHEEL - 1)%nat = Some l) as Hl by (by rewrite Hq, <- Hql, list_lookup_middle).
  assert (∀ fd' k, m !! fd' = Some k → (k ≤ WHEEL)%nat) as Hle.
  { intros fd' k Hk. destruct (tracked_back _ _ _ _ _ Hs Hk) as [n' Hn']. destruct (Hla _ _ _ Hn' Hk). lia. }
  assert (∀ fd' n' k j, heartBeatInfo s !! fd' = Some n' → m !! fd' = Some k → (j < k)%nat → ∃ k',
    <[fd := n]> (heartBeatInfo s) !! fd' = Some n' ∧ <[fd := WHEEL]> m !! fd' = Some k' ∧ (j < k')%nat) as Hup.
  { intros fd' n' k j Hfd' Hk Hj. destruct (decide (fd' = fd)) as [-> |Hne].
    - exists WHEEL. rewrite !lookup_insert_eq. pose proof (Hle _ _ Hk). split_and!; [|done|lia].
      destruct Hhb as [E|E]; congruence.
    - exists k. rewrite !lookup_insert_ne by done. done. }
  constructor; cbn; [done| | | | |done| | |done].
  - rewrite !dom_insert_L. by rewrite Hd.
  - intros fd' n'. rewrite lookup_insert_Some. intros [[<- <-]|[_ H]]; [done|].
    destruct (Hi _ _ H) as (i & H1 & <-). eauto.
  - intros j l' Hj. rewrite Hq' in Hj. apply lookup_app_Some in Hj as [Hj|[Hj1 Hj]].
    + destruct (Hsl j l') as [Hnd Hin]; [rewrite Hq; by apply lookup_app_l_Some|]. split; [done|]. intros n' Hn'.
      destruct (Hin n' Hn') as (fd' & k & H1 & H2 & H3). exists fd'. eauto.
    + apply list_lookup_singleton_Some in Hj as [Hj <-]. replace j with (WHEEL - 1)%nat by lia.
      destruct (Hsl _ l Hl) as [Hnd Hin]. split.
      * apply NoDup_app. split_and!; [done| |apply NoDup_singleton]. intros x Hx ->%list_elem_of_singleton. by apply (Hnew l Hl).
      * intros n' [Hn'| ->%list_elem_of_singleton]%elem_of_app.
        -- destruct (Hin n' Hn') as (fd' & k & H1 & H2 & H3). exists fd'. eauto.
        -- exists fd, WHEEL. rewrite !lookup_insert_eq. split_and!; [done|done|unfold WHEEL; lia].
  - intros fd' n' k. rewrite !lookup_insert_Some. rewrite Hq'. intros [[<- <-]|[Hne H1]] [[? <-]|[Hne' H2]]; try done.
    + split; [unfold WHEEL; lia|]. eexists. split; [rewrite <- Hql; apply list_lookup_middle; done|]. apply elem_of_app. right. by left.
    + destruct (Hla _ _ _ H1 H2) as (Hk & l' & Hl' & Hn'). split; [done|]. rewrite Hq in Hl'.
      apply lookup_app_Some in Hl' as [Hl'|[Hk1 Hl']].
      * exists l'. split; [by apply lookup_app_l_Some|done].
      * apply list_lookup_singleton_Some in Hl' as [Hk2 <-]. exists (l ++ [n]). split; [|apply elem_of_app; by left].
        replace (k - 1)%nat with (length q) by lia. by rewrite list_lookup_middle.
  - rewrite dom_insert_L. done.
  - rewrite dom_insert_L. set_solver.
Qed.

Lemma accept_simulates s m W sock i :
  simulates s m W → 0 ≤ sock → (sock ∉ servers) → (sock ∉ dom m) → c_sock i = sock →
  ∃ s', AcceptWorkerConnection i s = Ret s' ∧ simulates s' (<[sock := WHEEL]> m) ({[sock]} ∪ W).
Proof.
  intros Hs Hge Hsv Hnew Hsock. pose proof Hs as [Hw Hd Hi Hsl Hla Hlo HW Hse Hwo]. unfold AcceptWorkerConnection.
  rewrite decide_False by lia. rewrite Hsock. destruct (add_refines WHEEL (length (infos s)) _ Hw) as (w' & E & Hw' & Hq').
  destruct s as [p nf w hb bw iw r] eqn:Es. cbn in E. rewrite E. cbind. eexists. split; [done|]. rewrite <- Es in Hs.
  pose proof (push_simulates s m W sock (length nf)) as Hpush. rewrite Es in Hpush. cbn in *. rewrite <- Es in Hpush.
  apply Hpush; [done|done|done| | | | | | |done].
  - right. apply not_elem_of_dom. by rewrite Hd.
  - intros l Hl Hin. destruct (Hsl _ l Hl) as [_ H]. destruct (H _ Hin) as (fd & k & Hfd & _).
    destruct (Hi _ _ Hfd) as (x & Hx%lookup_lt_Some & _). lia.
  - intros k x Hx. exists x. split; [by apply lookup_app_l_Some|done].
  - eexists. rewrite list_lookup_middle by done. done.
  - destruct Hlo as [Ho Ht Hm Hu Hc Hdo Hop].
    assert (entry_map p !! sock = None) as Hn by (apply not_elem_of_dom; rewrite Hdo; set_solver).
    destruct (register_owns sock OnRecvHeartBeat_cb None (open_fd sock p)) as [E1 E2]; [by apply open_owns|done|cbn; set_solver|done|].
    unfold servers in *. rewrite E1 in *. constructor; cbn; [done|rewrite lookup_insert_ne by set_solver; done..| | |].
    + intros fd. destruct (decide (fd = sock)) as [-> |Hne]; [by rewrite lookup_insert_eq|].
      rewrite lookup_insert_ne by done. intros [?%elem_of_singleton|?]%elem_of_union; [done|]. auto.
    + rewrite dom_insert_L, Hdo. unfold servers. set_solver.
    + rewrite Hop. unfold servers. set_solver.
  - set_solver.
Qed.

Lemma ping_simulates s m W fd k i :
  simulates s m W → fd ∈ W → m !! fd = Some k → k ≠ WHEEL → m_type (c_msg i) = PING →
  ∃ s', OnRecvHeartBeat fd i s = Ret s' ∧ simulates s' (<[fd := WHEEL]> m) W ∧
    replies s' = replies s ++ [(fd, MkMessage PONG (c_pid i) (c_now i))].
Proof.
  intros Hs Hin Hk Hne Hp. pose proof Hs as [Hw Hd Hi Hsl Hla Hlo HW Hse Hwo]. unfold OnRecvHeartBeat. rewrite Hp.
  destruct (tracked_back _ _ _ _ _ Hs Hk) as [n Hn]. destruct (Hi _ _ Hn) as (x & Hx & Hh).
  destruct (add_refines WHEEL n _ Hw) as (w' & E & Hw' & Hq').
  destruct s as [p nf w hb bw iw r] eqn:Es. cbn in E, Hn, Hx. rewrite Hn.
  assert (load nf (Z.of_nat n) = Ret x) as -> by (apply load_Ret; rewrite Nat2Z.id; split; [lia|done]). cbind.
  apply lookup_lt_Some in Hx as Hlt. unfold store. rewrite decide_True by lia. cbind. rewrite Nat2Z.id, E. cbind.
  eexists. split; [done|]. split; [|done]. rewrite <- (insert_id hb fd n Hn). rewrite <- Es in Hs.
  pose proof (push_simulates s m W fd n) as Hpush. rewrite Es in Hpush. cbn in *. rewrite <- Es in Hpush.
  apply Hpush; [done|done|done|by left| | | |done| |].
  - intros l Hl Hin'. destruct (Hsl _ l Hl) as [_ H]. destruct (H _ Hin') as (fd' & k' & Hfd' & Hk' & Hlt').
    rewrite (info_unique _ _ _ fd fd' n Hs) in Hk'; [|by rewrite Es..]. assert (k' = k) as -> by congruence.
    destruct (Hla fd n k Hn Hk). unfold WHEEL in *. lia.
  - intros k' y Hy. destruct (decide (k' = n)) as [-> |Hnk].
    + eexists. rewrite list_lookup_insert_eq by done. split; [done|]. cbn. congruence.
    + exists y. rewrite list_lookup_insert_ne by done. done.
  - eexists. rewrite list_lookup_insert_eq by done. split; [done|]. done.
  - set_solver.
  - set_solver.
Qed.
Lemma expire_replies slot todo s s' : expire slot todo s = Ret s' → replies s' = replies s.
Proof.
  revert s. induction todo as [|n todo IH]; intros s; cbn [expire]; [by intros [= <-]|]. rewrite bind_Ret.
  intros (i & _ & E). destruct s. case_decide; by apply IH in E.
Qed.

Lemma tick_replies s s' : OnWheelTick s = Ret s' → replies s' = replies s.
Proof. destruct s. cbn. rewrite bind_Ret. intros ([slot w] & _ & E). by apply expire_replies in E. Qed.

Lemma accept_replies i s s' : AcceptWorkerConnection i s = Ret s' → replies s' = replies s.
Proof.
  unfold AcceptWorkerConnection. case_decide; [by intros [= <-]|]. destruct s. rewrite bind_Ret. by intros (w & _ & [= <-]).
Qed.

Lemma dispatch_read p fd cb : entry_map p !! fd = Some (centry fd cb) → dispatch fd false true p = Some (Reading cb).
Proof. intros H. unfold dispatch. by rewrite H. Qed.

Lemma dispatch_close p fd cb : entry_map p !! fd = Some (centry fd cb) → dispatch fd true true p = Some (Closing None).
Proof. intros H. unfold dispatch. by rewrite H. Qed.

Lemma loop_erase p W fd : loop_ok p W → W ## servers → fd ∈ W → loop_ok (erase_entry fd p) (W ∖ {[fd]}).
Proof.
  intros Hlo Hdis Hin. rewrite <- (remove_erase p fd (centry fd OnRecvHeartBeat_cb)) by (by apply (lo_conn _ _ Hlo)).
  apply loop_remove; [done|done|set_solver].
Qed.

(** A client that is refused: its descriptor is opened and closed. *)
Lemma refuse_loop p W sock : loop_ok p W → 0 ≤ sock → (sock ∉ servers) → (sock ∉ W) → loop_ok (Close sock (open_fd sock p)) W.
Proof.
  intros [Ho Ht Hm Hu Hc Hd Hop] Hge Hs Hn. unfold Close. rewrite decide_True by (cbn; split; [lia|set_solver]). cbn.
  assert (epoll p ∖ {[sock]} = epoll p) as -> by (destruct Ho as [_ -> _]; rewrite Hd; set_solver).
  assert (({[sock]} ∪ opened p) ∖ {[sock]} = opened p) as -> by (rewrite Hop; set_solver). by destruct p.
Qed.

Lemma with_cpoll_simulates s m W p W' :
  simulates s m W → loop_ok p W' → W' ⊆ W → simulates (with_cpoll p s) m W'.
Proof. intros [] Hp HW. destruct s. constructor; cbn in *; try done. set_solver. Qed.

Lemma beat_simulates b s sp sp' :
  simulates s (ticks_left sp) (watched sp) → spec_beat servers b sp = Some sp' →
  ∃ s', beat_step tcp timer unix b s = Ret s' ∧ simulates s' (ticks_left sp') (watched sp') ∧ replies s' = replies s ++ pings [b].
Proof.
  intros Hs E. pose proof Hs as [Hw Hd Hi Hsl Hla Hlo HW Hse Hwo]. destruct b as [|sock|fd pid now|fd|sock]; cbn in E |- *; unfold cstep.
  - rewrite (dispatch_read _ _ _ (lo_timer _ _ Hlo)). cbn [run_ccallback]. destruct (tick_simulates _ _ _ Hs) as (s' & E' & Hs').
    simplify_eq. exists s'. split_and!; [done|done|]. rewrite app_nil_r. revert E'. apply tick_replies.
  - case_decide as Hsock; [|done]. simplify_eq. destruct Hsock as (? & ? & ?). rewrite (dispatch_read _ _ _ (lo_unix _ _ Hlo)).
    set (i := CInput _ _ _ _ _ _). destruct (accept_simulates s _ _ sock i Hs) as (s' & E' & Hs'); [done..|]. exists s'. split_and!; [done|done|]. rewrite app_nil_r.
    revert E'. apply accept_replies.
  - destruct (ticks_left sp !! fd) as [k|] eqn:Hk; [|done]. cbn in E. case_decide as Hin; [|done]. simplify_eq. destruct Hin as [Hin Hne].
    rewrite (dispatch_read _ _ _ (lo_conn _ _ Hlo fd Hin)).
    set (i := CInput _ _ _ _ _ _). destruct (ping_simulates s _ _ fd k i Hs) as (s' & E' & Hs' & Hr); [done..|]. eauto.
  - case_decide as Hin; [|done]. simplify_eq. rewrite (dispatch_close _ _ _ (lo_conn _ _ Hlo fd Hin)). cbind.
    eexists. split; [done|]. split; [|by destruct s; cbn; rewrite app_nil_r]. eapply with_cpoll_simulates; [done| |set_solver].
    apply loop_erase; [done|set_solver|done].
  - case_decide as Hsock; [|done]. simplify_eq. destruct Hsock as (? & ? & ?). rewrite (dispatch_read _ _ _ (lo_tcp _ _ Hlo)).
    cbn [run_ccallback]. unfold Accept. cbn [c_sock]. rewrite decide_False by lia. destruct Hwo as [-> _]. cbn [first_valid].
    eexists. split; [done|]. split; [|by destruct s; cbn; rewrite app_nil_r]. eapply with_cpoll_simulates; [done| |set_solver].
    by apply refuse_loop.
Qed.

Lemma beats_simulate bs s sp sp' :
  simulates s (ticks_left sp) (watched sp) → spec_beats tcp timer unix bs sp = Some sp' →
  ∃ s', beats tcp timer unix bs s = Ret s' ∧ simulates s' (ticks_left sp') (watched sp') ∧ replies s' = replies s ++ pings bs.
Proof.
  revert s sp. induction bs as [|b bs IH]; intros s sp Hs E; cbn [beats spec_beats] in *.
  - simplify_eq. exists s. split_and!; [done|done|]. by rewrite app_nil_r.
  - destruct (spec_beat _ b sp) as [sp1|] eqn:E1; [|done]. cbn in E. destruct (beat_simulates b s sp sp1 Hs E1) as (s1 & -> & Hs1 & Hr1).
    cbind. destruct (IH s1 sp1 Hs1 E) as (s' & -> & Hs' & Hr). exists s'. split_and!; [done|done|]. rewrite Hr, Hr1, <- app_assoc.
    f_equal. by destruct b.
Qed.

Lemma start_simulates : simulates (Coordinator_new tcp timer unix) ∅ ∅.
Proof.
  assert (owns (MkPoll (K := ccallback) ∅ ∅ servers)) as H0.
  { constructor; cbn; [intros ? ?; by rewrite lookup_empty|by rewrite dom_empty_L|set_solver]. }
  unfold Coordinator_new. fold servers.
  destruct (register_owns tcp Accept_cb None (MkPoll ∅ ∅ servers)) as [-> H1]; [done|lia|cbn; set_solver|done|]. cbn in H1 |- *.
  match goal with H : owns ?p |- _ => destruct (register_owns timer OnWheelTick_cb None p) as [-> H2] end;
    [done|lia|cbn; set_solver|cbn; by rewrite lookup_insert_ne by lia|]. cbn in H2 |- *.
  match goal with H : owns ?p |- _ => destruct (register_owns unix AcceptWorkerConnection_cb None p) as [-> H3] end;
    [done|lia|cbn; set_solver|cbn; by rewrite !lookup_insert_ne by lia|]. cbn in H3 |- *.
  constructor; cbn; try set_solver.
  - split; [done|]. by_eval.
  - intros j slot. change (Wheel _ _) with (TimeWheel_new (T := nat) WHEEL). rewrite new_queue. intros [-> _]%lookup_replicate. split; [constructor|]. by intros n ?%not_elem_of_nil.
  - constructor; cbn; [done|rewrite ?lookup_insert_ne by lia; by rewrite lookup_insert_eq..|set_solver| |set_solver].
    rewrite !dom_insert_L, dom_empty_L. unfold servers. set_solver.
Qed.

(** ** Properties *)

(** C7: the time wheel and the reference counts keep the workers that beat.
    For every sequence of acceptances, pings, hang-ups, refused clients and
    ticks in which no descriptor is given out again while a record of it is
    left and no worker is entered twice between two ticks, the coordinator runs
    without touching what is gone, tracks exactly the connections that have
    ticks left, watches and holds open exactly the ones that have also not hung
    up, and has answered every ping, in order. *)
Theorem heartbeat_refines bs sp :
  spec_beats tcp timer unix bs (Spec ∅ ∅) = Some sp →
  ∃ s, beats tcp timer unix bs (Coordinator_new tcp timer unix) = Ret s ∧
    dom (heartBeatInfo s) = dom (ticks_left sp) ∧
    epoll (cpoll s) = servers ∪ watched sp ∧ opened (cpoll s) = servers ∪ watched sp ∧ replies s = pings bs.
Proof.
  intros E. destruct (beats_simulate bs _ (Spec ∅ ∅) sp start_simulates E) as (s & Es & Hs & Hr).
  exists s. destruct (si_loop _ _ _ Hs) as [Ho _ _ _ _ Hd Hop].
  split_and!; [done|apply Hs| |done|done]. by destruct Ho as [_ -> _].
Qed.

Lemma spec_beats_app bs1 bs2 sp :
  spec_beats tcp timer unix (bs1 ++ bs2) sp = (sp ← spec_beats tcp timer unix bs1 sp; spec_beats tcp timer unix bs2 sp).
Proof. revert sp. induction bs1 as [|b bs1 IH]; intros sp; cbn; [done|]. destruct (spec_beat _ b sp); cbn; auto. Qed.

(** Once a connection is gone it stays gone until it is accepted again. *)
Lemma gone_stays fd bs sp sp' :
  (fd ∉ watched sp) → BAccept fd ∉ bs → spec_beats tcp timer unix bs sp = Some sp' → fd ∉ watched sp'.
Proof.
  revert sp. induction bs as [|b bs IH]; intros sp Hn Ha E; cbn in E; [by simplify_eq|].
  apply not_elem_of_cons in Ha as [Hb Ha]. destruct (spec_beat _ b sp) as [sp1|] eqn:E1; [|done]. cbn in E.
  eapply (IH sp1); [|done|done]. clear IH E Ha. destruct b as [|sock|fd' pid now|fd'|sock]; cbn in E1.
  - simplify_eq. cbn. by intros [? _]%elem_of_intersection.
  - case_decide; simplify_eq. cbn. by intros [->%elem_of_singleton|?]%elem_of_union.
  - destruct (ticks_left sp !! fd'); [|done]. cbn in E1. case_decide; by simplify_eq.
  - case_decide; simplify_eq. cbn. by intros [? _]%elem_of_difference.
  - case_decide; by simplify_eq.
Qed.

Lemma in_time_watched fd k bs sp sp' :
  ticks_left sp !! fd = Some k → fd ∈ watched sp → BAccept fd ∉ bs →
  spec_beats tcp timer unix bs sp = Some sp' → fd ∈ watched sp' ↔ in_time fd k bs = true.
Proof.
  revert k sp. induction bs as [|b bs IH]; intros k sp Hk Hin Ha E; cbn [spec_beats in_time] in *; [by simplify_eq|].
  apply not_elem_of_cons in Ha as [Hb Ha]. destruct (spec_beat _ b sp) as [sp1|] eqn:E1; [|done]. cbn in E.
  destruct b as [|sock|fd' pid now|fd'|sock]; cbn in E1.
  - simplify_eq. case_decide as H1.
    + split; [|done]. intros Hw. exfalso. revert Hw. eapply gone_stays; [|done|done]. cbn.
      rewrite elem_of_intersection, elem_of_dom. intros [_ [k' (k0 & Hk0 & Hne & _)%spec_tick_lookup]]. congruence.
    + assert (spec_tick (ticks_left sp) !! fd = Some (k - 1)%nat) as Hk' by (apply spec_tick_lookup; eauto).
      refine (IH _ (Spec _ _) Hk' _ Ha E). cbn. apply elem_of_dom_2 in Hk'. set_solver.
  - case_decide; [|done]. simplify_eq. refine (IH _ (Spec _ _) _ _ Ha E); [|cbn; set_solver]. cbn. rewrite lookup_insert_ne by congruence. done.
  - destruct (ticks_left sp !! fd') as [k'|] eqn:Hk'; [|done]. cbn in E1. case_decide; [|done]. simplify_eq.
    refine (IH _ (Spec _ _) _ _ Ha E); [|done]. cbn. rewrite lookup_insert. repeat case_decide; congruence.
  - case_decide; [|done]. simplify_eq. case_decide as Hf.
    + subst. split; [|done]. intros Hw. exfalso. revert Hw. eapply gone_stays; [|done|done]. cbn. set_solver.
    + refine (IH _ (Spec _ _) _ _ Ha E); [done|]. cbn. set_solver.
  - case_decide; [|done]. simplify_eq. by eapply IH.
Qed.

(** C37: a worker is kept if and only if it beats: in such a run, whatever came
    before and whatever the other connections do, a connection that is accepted
    is still open and watched at the end exactly when it has not hung up and
    there were never ten ticks after its acceptance or after a ping of its
    without another one. *)
Theorem worker_kept_iff fd bs0 bs sp :
  spec_beats tcp timer unix (bs0 ++ BAccept fd :: bs) (Spec ∅ ∅) = Some sp → BAccept fd ∉ bs →
  ∃ s, beats tcp timer unix (bs0 ++ BAccept fd :: bs) (Coordinator_new tcp timer unix) = Ret s ∧
    (fd ∈ opened (cpoll s) ∧ fd ∈ epoll (cpoll s) ↔ in_time fd WHEEL bs = true).
Proof.
  intros E Ha. destruct (beats_simulate _ _ (Spec ∅ ∅) sp start_simulates E) as (s & Es & Hs & _).
  exists s. split; [done|]. destruct (si_loop _ _ _ Hs) as [[_ Hep _] _ _ _ _ Hd Hop].
  rewrite spec_beats_app in E. destruct (spec_beats _ _ _ bs0 _) as [sp0|]; [|done]. cbn in E. case_decide as Hacc; [|done]. cbn in E.
  assert (fd ∉ servers) as Hsv by tauto.
  rewrite <- (in_time_watched fd WHEEL bs (Spec (<[fd := WHEEL]> (ticks_left sp0)) ({[fd]} ∪ watched sp0)) sp);
    [|by cbn; rewrite lookup_insert_eq|cbn; set_solver|done|done].
  rewrite Hep, Hop, Hd, !elem_of_union. tauto.
Qed.
End simulation.

(** A worker on descriptor 8 that beats and one on 9 that does not. *)
Definition sample_beats : list beat :=
  [BAccept 8; BTick; BAccept 9; BTick; BPing 8 70 5; BTick; BTick; BTick; BTick; BTick; BTick; BPing 8 70 11; BTick; BTick; BRefuse 10;
   BTick; BHangup 9; BTick].

Lemma heartbeat_refines_witness :
  ∃ s, beats 3 4 5 (take 16 sample_beats) (Coordinator_new 3 4 5) = Ret s ∧
    dom (heartBeatInfo s) = {[8]} ∧ epoll (cpoll s) = {[3; 4; 5; 8]}.
Proof.
  destruct (heartbeat_refines 3 4 5 ltac:(lia) (take 16 sample_beats)
    (default (Spec ∅ ∅) (spec_beats 3 4 5 (take 16 sample_beats) (Spec ∅ ∅)))) as (s & E & Hd & He & _).
  { vm_compute. reflexivity. }
  exists s. split; [exact E|]. split; [rewrite Hd|rewrite He]; vm_compute; reflexivity.
Defined.

Lemma worker_kept_iff_witness :
  ∃ s, beats 3 4 5 ([BTick] ++ BAccept 9 :: [BTick; BAccept 8; BTick; BTick; BTick; BPing 8 70 5; BTick; BTick; BTick; BTick; BTick; BTick; BTick])
    (Coordinator_new 3 4 5) = Ret s ∧ ¬ (9 ∈ opened (cpoll s) ∧ 9 ∈ epoll (cpoll s)).
Proof.
  destruct (worker_kept_iff 3 4 5 ltac:(lia) 9 [BTick]
    [BTick; BAccept 8; BTick; BTick; BTick; BPing 8 70 5; BTick; BTick; BTick; BTick; BTick; BTick; BTick]
    (Spec {[8 := 3%nat]} {[8]})) as (s & E & H).
  - vm_compute. reflexivity.
  - rewrite !not_elem_of_cons. repeat split; try discriminate. apply not_elem_of_nil.
  - exists s. split; [exact E|]. intros H9. apply H in H9. revert H9. vm_compute. discriminate.
Defined.

(** ** What breaks the assumptions *)

(** A worker that is accepted and beats before the next tick has two
    references in one slot: the count is three when the slot comes out, the
    worker is kept, and nothing is left in the wheel to find it later. *)
Lemma double_entry_never_dropped :
  (s ← beats 3 4 5 ([BAccept 8; BPing 8 70 5] ++ replicate 40 BTick) (Coordinator_new 3 4 5);
   Ret (heartBeatInfo s !! 8, bool_decide (8 ∈ opened (cpoll s)), concat (wheel_ (timeWheel s)))) = Ret (Some 0%nat, true, []).
Proof. vm_compute. reflexivity. Qed.

(** A worker hangs up and its descriptor is given to a new one: the records of
    the first that are left in the wheel, counted alone, make two, and the new
    connection is closed, however faithfully it beats. *)
Lemma stale_record_drops_new :
  (s ← beats 3 4 5 [BAccept 8; BTick; BPing 8 70 5; BHangup 8; BAccept 8; BTick; BPing 8 71 6; BTick; BPing 8 71 7;
                    BTick; BPing 8 71 8; BTick; BPing 8 71 9; BTick; BPing 8 71 10; BTick; BPing 8 71 11; BTick; BPing 8 71 12;
                    BTick; BPing 8 71 13; BTick] (Coordinator_new 3 4 5);
   Ret (heartBeatInfo s !! 8, bool_decide (8 ∈ opened (cpoll s)))) = Ret (None, false).
Proof. vm_compute. reflexivity. Qed.

(** ** Handing clients to workers *)

(** As soon as a worker is idle and valid, a client that connects makes the
    coordinator read a list node it has erased; and so does a busy worker that
    becomes idle. *)
Lemma accept_with_worker_undefined i s m :
  c_sock i ≠ -1 → m ∈ idle_workers s → c_valid i m = true → Accept i s = Undef.
Proof.
  intros Hs Hm Hv. unfold Accept. rewrite decide_False by done. destruct (first_valid _ _) eqn:E; [done|]. exfalso.
  revert Hm E. induction (idle_workers s) as [|m' l IH]; cbn; [by intros ?%not_elem_of_nil|].
  intros [<- |Hm]%elem_of_cons; [by rewrite Hv|]. destruct (c_valid i m'); [done|]. by apply IH.
Qed.

Lemma busy_to_idle_undefined name pid i s m :
  scan_worker name = Ret pid → pid ≠ 0 → m ∈ busy_workers s → w_pid m = pid → OnIpcFileCreate name i s = Undef.
Proof.
  intros Hn Hp Hm Hw. unfold OnIpcFileCreate. rewrite Hn. cbind. rewrite decide_False by done.
  rewrite decide_True; [done|]. apply Exists_exists. eauto.
Qed.

(** A worker that announces itself is entered as idle; one that does not answer
    leaves the coordinator an open descriptor that is in neither list. *)
Lemma new_worker pid i s :
  0 < pid ≤ 2147483647 → 0 ≤ c_sock i → busy_workers s = [] →
  ∃ s', OnIpcFileCreate (WORKER_IPC_PREFIX ++ fmt_d pid) i s = Ret s' ∧ busy_workers s' = [] ∧
    idle_workers s' = (if c_connected i then idle_workers s ++ [MkMeta pid (c_sock i)] else idle_workers s) ∧
    c_sock i ∈ opened (cpoll s').
Proof.
  intros Hp Hs Hb.
  assert (strip_prefix WORKER_IPC_PREFIX (WORKER_IPC_PREFIX ++ fmt_d pid) = Some (fmt_d pid)) as Hpre by reflexivity.
  assert (parse_int (fmt_d pid) = pid) as Hint by (rewrite <- (app_nil_r (fmt_d pid)); apply parse_fmt_d; [lia|done]).
  unfold OnIpcFileCreate, scan_worker. rewrite Hpre, Hint. unfold int_result. rewrite decide_True by lia. cbind.
  rewrite decide_False by lia. rewrite Hb. rewrite decide_False by (by intros ?%Exists_nil).
  rewrite (decide_True (P := zlen _ + 1 ≤ SUN_PATH)).
  2: { unfold fmt_d. rewrite decide_False by lia. pose proof (dec_loop_length 20 10 pid ltac:(lia) ltac:(lia)).
       unfold fmt_u, WORKER_IPC_PREFIX, SUN_PATH. rewrite length_app. cbn [length]. lia. }
  destruct s as [p nf w hb bw iw r]. cbn in *. eexists. split; [done|]. cbn. split; [done|].
  rewrite (decide_False (P := c_sock i = -1)) by lia. cbn. split; [|set_solver].
  destruct (c_connected i); [by rewrite decide_True by (split; [lia|done])|by rewrite decide_False by (by intros [_ ?])].
Qed.
