(* ===== verification/Worker.v ===== *)
(** * socket/monitor/examples/worker.h and worker.cpp: a worker

    The coordinator connects and passes clients' descriptors; the worker echoes
    what the clients send.  A file in a watched directory says that the worker
    is free: it is removed when a client comes and made again when one leaves.
    A timer sends pings to the coordinator while that connection lasts.  The
    worker runs on the event loop of [Poll]. *)
From Stdlib Require Import ZArith Lia.
From stdpp Require Import base tactics numbers list gmap sets.
From S2P Require Import Prelude.
From S2P Require Import Poll.

Open Scope Z_scope.

Inductive wcallback :=
| WAccept_cb | OnRecvFd_cb | Work_cb | RecvPong_cb | OnTimer_cb
| client_left_cb | coordinator_left_cb.
#[export] Instance wcallback_eq_dec : EqDecision wcallback.
Proof. solve_decision. Defined.

Inductive WorkerState := STARTUP | BUSY | IDLE | FINISH.
#[export] Instance WorkerState_eq_dec : EqDecision WorkerState.
Proof. solve_decision. Defined.

Record Worker := MkWorker {
  wpoll : Poll wcallback;
  state_ : WorkerState;
  pid_ : Z;                          (** of the coordinator *)
  notifier : bool;                   (** the file is there *)
  valid_heartbeat_handler : bool;
  echoed : list (Z * list Z);        (** what was written to the clients *)
  beats_sent : list (Z * Z);         (** pings: the descriptor and the time *)
}.

(** What the calls of a callback find. *)
Inductive received := RecvFailed | RecvNothing | RecvFdOf (fd : Z).
Record winput := WInput {
  w_sock : Z;               (** from [accept] *)
  w_peer : option Z;        (** [SO_PEERCRED]: the peer's pid *)
  w_recv : received;        (** [recvmsg]: failed, without a descriptor, with one *)
  w_read : list Z;          (** the bytes to read *)
  w_now : Z;
}.

Definition with_wpoll (p : Poll wcallback) (s : Worker) : Worker :=
  let '(MkWorker _ st pid n v e b) := s in MkWorker p st pid n v e b.

Definition Touch (s : Worker) : Worker :=
  let '(MkWorker p st pid _ v e b) := s in MkWorker p st pid true v e b.

(** A full buffer is terminated one past its end. *)
Definition WORK_BUFFER : Z := 1024.

Definition Work (fd : Z) (i : winput) (s : Worker) : outcome Worker :=
  let data := take (Z.to_nat WORK_BUFFER) (w_read i) in
  if decide (data = []) then Ret s
  else if decide (zlen data < WORK_BUFFER) then
    let '(MkWorker p st pid n v e b) := s in Ret (MkWorker p st pid n v (e ++ [(fd, data)]) b)
  else Undef.

(** [check_cred] is set. *)
Definition checkCred (i : winput) (s : Worker) : bool :=
  match w_peer i with Some p => bool_decide (p = pid_ s) | None => false end.

(** The assertion on the control message is compiled out, so that a message
    without one is read through a null pointer. *)
Definition OnRecvFd (fd : Z) (i : winput) (s : Worker) : outcome Worker :=
  if checkCred i s then
    match w_recv i with
    | RecvNothing => Undef
    | RecvFailed => Ret s
    | RecvFdOf sock =>
        if decide (sock = -1) then Ret s
        else
          let '(MkWorker p _ pid _ v e b) := s in
          Ret (MkWorker (registerEntry sock Work_cb (Some client_left_cb) (open_fd sock p)) BUSY pid false v e b)
    end
  else Ret (with_wpoll (Close fd (wpoll s)) s).

Definition WAccept (i : winput) (s : Worker) : Worker :=
  if decide (w_sock i = -1) then s
  else with_wpoll (registerEntry (w_sock i) OnRecvFd_cb None (open_fd (w_sock i) (wpoll s))) s.

Definition client_left (s : Worker) : Worker :=
  let '(MkWorker p _ pid n v e b) := Touch s in MkWorker p IDLE pid n v e b.

Definition coordinator_left (s : Worker) : Worker :=
  let '(MkWorker p st pid n _ e b) := s in MkWorker p st pid n false e b.

(** The timer's lambda, with the descriptor it has captured. *)
Definition OnTimer (client_handler : Z) (i : winput) (s : Worker) : Worker :=
  let '(MkWorker p st pid n v e b) := s in
  if v then MkWorker p st pid n v e (b ++ [(client_handler, w_now i)]) else s.

(** ** Start and loop *)
Definition Worker_new (unix : Z) (opened : gset Z) : Worker :=
  MkWorker (registerEntry unix WAccept_cb None (MkPoll ∅ ∅ opened)) STARTUP (-1) false true [] [].

(** [coordinatorPid() = pid] and [startHeartBeat]. *)
Definition startHeartBeat (client timer : Z) (s : Worker) : bool * Worker :=
  let '(MkWorker p st pid n v e b) := Touch s in
  if decide (pid = -1) then (false, Touch s)
  else
    let p := registerEntry client RecvPong_cb (Some coordinator_left_cb) p in
    let p := registerEntry timer OnTimer_cb None p in
    (true, MkWorker p st pid n v e b).

Definition set_pid (pid : Z) (s : Worker) : Worker :=
  let '(MkWorker p st _ n v e b) := s in MkWorker p st pid n v e b.

Definition run_wcallback (client : Z) (k : wcallback) (fd : Z) (i : winput) (s : Worker) : outcome Worker :=
  match k with
  | WAccept_cb => Ret (WAccept i s)
  | OnRecvFd_cb => OnRecvFd fd i s
  | Work_cb => Work fd i s
  | RecvPong_cb => Ret s
  | OnTimer_cb => Ret (OnTimer client i s)
  | client_left_cb => Ret (client_left s)
  | coordinator_left_cb => Ret (coordinator_left s)
  end.

(** One event of [Poll::loop]. *)
Definition wstep (client fd : Z) (rdhup readable : bool) (i : winput) (s : Worker) : outcome Worker :=
  match dispatch fd rdhup readable (wpoll s) with
  | None => Ret s
  | Some (Reading k) => run_wcallback client k fd i s
  | Some (Closing k) =>
      s ← (match k with Some k => run_wcallback client k fd i s | None => Ret s end);
      Ret (with_wpoll (erase_entry fd (wpoll s)) s)
  end.

Definition worker_start (unix client timer pid : Z) : Worker :=
  (startHeartBeat client timer (set_pid pid (Worker_new unix {[unix; client; timer]}))).2.

Definition wevent : Type := Z * bool * bool * winput.

Fixpoint wrun (client : Z) (es : list wevent) (s : Worker) : outcome Worker :=
  match es with
  | [] => Ret s
  | (fd, rdhup, readable, i) :: es => s ← wstep client fd rdhup readable i s; wrun client es s
  end.

(** What the kernel and a well-behaved coordinator give: new descriptors, the
    coordinator as the only peer, a descriptor with every message, and reads
    that leave room for the terminator. *)
Definition winput_ok (i : winput) (s : Worker) : Prop :=
  (w_sock i = -1 ∨ (0 ≤ w_sock i ∧ w_sock i ∉ opened (wpoll s))) ∧
  w_peer i = Some (pid_ s) ∧ zlen (w_read i) < WORK_BUFFER ∧
  match w_recv i with
  | RecvNothing => False
  | RecvFailed => True
  | RecvFdOf fd => 0 ≤ fd ∧ fd ∉ opened (wpoll s)
  end.
#[export] Instance winput_ok_dec i s : Decision (winput_ok i s).
Proof. unfold winput_ok. destruct (w_recv i); apply _. Defined.

(** Runs all of whose inputs are such. *)
Fixpoint wgood (client : Z) (es : list wevent) (s : Worker) : Prop :=
  match es with
  | [] => True
  | (fd, rdhup, readable, i) :: es =>
      winput_ok i s ∧
      match wstep client fd rdhup readable i s with Ret s' => wgood client es s' | _ => True end
  end.
#[export] Instance wgood_dec client es s : Decision (wgood client es s).
Proof.
  revert s. induction es as [|[[[fd h] r] i] es IH]; intros s; cbn [wgood]; [apply _|].
  apply and_dec; [apply _|]. destruct (wstep client fd h r i s); [apply IH|apply _..].
Defined.

(** The pings that are due: one for each event of the timer while the connection to
    the coordinator is registered, and on it. *)
Definition due_beat (client fd : Z) (rdhup readable : bool) (i : winput) (s : Worker) : list (Z * Z) :=
  match dispatch fd rdhup readable (wpoll s), entry_map (wpoll s) !! client with
  | Some (Reading OnTimer_cb), Some e => if decide (on_read e = Some RecvPong_cb) then [(client, w_now i)] else []
  | _, _ => []
  end.
Fixpoint due_beats (client : Z) (es : list wevent) (s : Worker) : list (Z * Z) :=
  match es with
  | [] => []
  | (fd, rdhup, readable, i) :: es =>
      due_beat client fd rdhup readable i s ++
      match wstep client fd rdhup readable i s with Ret s' => due_beats client es s' | _ => [] end
  end.

(** ** The invariant *)

(** The descriptors of clients. *)
Definition clients (p : Poll wcallback) : gset Z :=
  dom (filter (λ e : Z * Entry wcallback, on_read e.2 = Some Work_cb) (entry_map p)).

Lemma elem_clients p fd : fd ∈ clients p ↔ ∃ e, entry_map p !! fd = Some e ∧ on_read e = Some Work_cb.
Proof. unfold clients. rewrite elem_of_dom. unfold is_Some. setoid_rewrite map_lookup_filter_Some. done. Qed.

(** The entries the worker makes. *)
Definition wkinds (client fd : Z) : list (wcallback * option wcallback) :=
  [(WAccept_cb, None); (OnRecvFd_cb, None); (Work_cb, Some client_left_cb); (OnTimer_cb, None)] ++
  (if decide (fd = client) then [(RecvPong_cb, Some coordinator_left_cb)] else []).

Definition wentry (fd : Z) (k : wcallback * option wcallback) : Entry wcallback := MkEntry fd (Some k.1) (Some k.2) (Some fd).

Record worker_inv (client : Z) (s : Worker) : Prop := {
  wi_owns : owns (wpoll s);
  wi_entries : ∀ fd e, entry_map (wpoll s) !! fd = Some e → ∃ k, k ∈ wkinds client fd ∧ e = wentry fd k;
  wi_file : notifier s = bool_decide (state_ s ≠ BUSY);
  wi_busy : state_ s = BUSY → clients (wpoll s) ≠ ∅;
  wi_beat : valid_heartbeat_handler s = true ↔
    entry_map (wpoll s) !! client = Some (wentry client (RecvPong_cb, Some coordinator_left_cb));
}.

(** A new descriptor is registered. *)
Lemma wregister client p fd k :
  owns p → 0 ≤ fd → (fd ∉ opened p) → k ∈ wkinds client fd →
  (∀ fd' e, entry_map p !! fd' = Some e → ∃ k, k ∈ wkinds client fd' ∧ e = wentry fd' k) →
  let p' := registerEntry fd k.1 k.2 (open_fd fd p) in
  owns p' ∧ entry_map p' = <[fd := wentry fd k]> (entry_map p) ∧
  (∀ fd' e, entry_map p' !! fd' = Some e → ∃ k, k ∈ wkinds client fd' ∧ e = wentry fd' k).
Proof.
  intros Hp Hge Hnew Hk He p'. assert (entry_map p !! fd = None) as Hn.
  { apply not_elem_of_dom. intros Hin. apply Hnew. by apply (owns_open p Hp). }
  destruct (register_owns fd k.1 k.2 (open_fd fd p)) as [E Ho]; [by apply open_owns|done|cbn; set_solver|done|].
  split; [done|]. unfold p'. rewrite E. cbn. split; [done|]. intros fd' e. rewrite lookup_insert_Some.
  intros [[<- <-]|[_ H]]; [eauto|by apply He].
Qed.

Lemma clients_insert (p p' : Poll wcallback) fd e0 :
  entry_map p' = <[fd := e0]> (entry_map p) → entry_map p !! fd = None → clients p ⊆ clients p'.
Proof.
  intros E Hn x. rewrite !elem_clients, E. intros (e & Hx & Hr). exists e. split; [|done].
  by rewrite lookup_insert_ne by congruence.
Qed.

Lemma fresh_entry (p : Poll wcallback) fd : owns p → (fd ∉ opened p) → entry_map p !! fd = None.
Proof. intros Hp Hn. apply not_elem_of_dom. intros Hin. apply Hn. by apply (owns_open p Hp). Qed.

(** A new entry does not touch that of the coordinator's connection. *)
Lemma beat_insert client (m : gmap Z (Entry wcallback)) fd k (v : bool) :
  m !! fd = None → k.1 ≠ RecvPong_cb →
  (v = true ↔ m !! client = Some (wentry client (RecvPong_cb, Some coordinator_left_cb))) →
  v = true ↔ <[fd := wentry fd k]> m !! client = Some (wentry client (RecvPong_cb, Some coordinator_left_cb)).
Proof.
  intros Hn Hk Hv. rewrite Hv. destruct (decide (fd = client)) as [-> |Hne]; [|by rewrite lookup_insert_ne].
  rewrite lookup_insert_eq, Hn. split; [done|]. intros [=]. congruence.
Qed.

Lemma read_inv client fd k i s :
  worker_inv client s → winput_ok i s → entry_map (wpoll s) !! fd = Some (wentry fd k) → k ∈ wkinds client fd →
  ∃ s', run_wcallback client k.1 fd i s = Ret s' ∧ worker_inv client s'.
Proof.
  intros Hinv (Hsock & Hpeer & Hread & Hrecv) Hfd Hk. pose proof Hinv as [Ho He Hf Hb Hv].
  assert (k.1 ≠ client_left_cb ∧ k.1 ≠ coordinator_left_cb) as [Hk1 Hk2].
  { unfold wkinds in Hk. case_decide; set_solver. }
  destruct (k.1) eqn:Ek; cbn [run_wcallback]; try done; clear Hk1 Hk2.
  - unfold WAccept. destruct (decide (w_sock i = -1)) as [Hs|Hs]; [eauto|]. destruct Hsock as [?|[Hge Hnew]]; [done|].
    destruct (wregister client (wpoll s) (w_sock i) (OnRecvFd_cb, None)) as (Ho' & E' & He'); [done|done|done|unfold wkinds; set_solver|done|].
    pose proof (fresh_entry _ _ Ho Hnew) as Hn. eexists. split; [done|]. destruct s. cbn in *. constructor; cbn; try done.
    + intros Hst. pose proof (Hb Hst). pose proof (clients_insert _ _ _ _ E' Hn). set_solver.
    + rewrite E'. apply (beat_insert _ _ _ (OnRecvFd_cb, None)); done.
  - unfold OnRecvFd, checkCred. rewrite Hpeer, bool_decide_true by done. destruct (w_recv i) as [| |sock]; [eauto|done|].
    destruct Hrecv as [Hge Hnew]. rewrite decide_False by lia.
    destruct (wregister client (wpoll s) sock (Work_cb, Some client_left_cb)) as (Ho' & E' & He'); [done|done|done|unfold wkinds; set_solver|done|].
    pose proof (fresh_entry _ _ Ho Hnew) as Hn. destruct s. cbn in *. eexists. split; [done|]. constructor; cbn; try done.
    + intros _. assert (sock ∈ clients (registerEntry sock Work_cb (Some client_left_cb) (open_fd sock wpoll0))); [|set_solver].
      apply elem_clients. rewrite E', lookup_insert_eq. eauto.
    + rewrite E'. apply (beat_insert _ _ _ (Work_cb, Some client_left_cb)); done.
  - unfold Work. destruct (decide (take _ _ = [])); [eauto|]. rewrite decide_True by (rewrite length_take; lia).
    destruct s. eexists. split; [done|]. by constructor.
  - eauto.
  - destruct s as [? ? ? ? [] ? ?]; eexists; (split; [done|]); by constructor.
Qed.

(** A connection is closed and its entry erased. *)
Lemma close_inv client fd k i s :
  worker_inv client s → entry_map (wpoll s) !! fd = Some (wentry fd k) → k ∈ wkinds client fd →
  ∃ s1, (match k.2 with Some c => run_wcallback client c fd i s | None => Ret s end) = Ret s1 ∧
    worker_inv client (with_wpoll (erase_entry fd (wpoll s1)) s1).
Proof.
  intros [Ho He Hf Hb Hv] Hfd Hk. destruct (erase_owns _ fd _ Ho Hfd) as [E Ho'].
  assert (∀ fd' e, entry_map (erase_entry fd (wpoll s)) !! fd' = Some e → ∃ k, k ∈ wkinds client fd' ∧ e = wentry fd' k) as He'.
  { intros fd' e. rewrite E. cbn. rewrite lookup_delete_Some. intros [_ H]. by apply He. }
  assert (k.1 ≠ RecvPong_cb → (valid_heartbeat_handler s = true ↔
    entry_map (erase_entry fd (wpoll s)) !! client = Some (wentry client (RecvPong_cb, Some coordinator_left_cb)))) as Hbeat.
  { intros Hk1. rewrite Hv, E. cbn. rewrite lookup_delete_Some. split; [|tauto]. intros H. split; [|done]. intros ->.
    rewrite H in Hfd. destruct k. unfold wentry in Hfd. cbn in *. by simplify_eq. }
  assert (k.1 = RecvPong_cb → fd = client) as Hcli.
  { unfold wkinds in Hk. case_decide; [done|]. intros Hk1. destruct k. cbn in Hk1. subst. set_solver. }
  assert (k.1 ≠ Work_cb → clients (wpoll s) ≠ ∅ → clients (erase_entry fd (wpoll s)) ≠ ∅) as Hcl.
  { intros Hk1 [x (e & Hx & Hr)%elem_clients]%set_choose_L. intros Hem. assert (x ∈ clients (erase_entry fd (wpoll s))); [|set_solver].
    apply elem_clients. exists e. rewrite E. cbn. rewrite lookup_delete_ne; [done|]. intros ->. rewrite Hx in Hfd. injection Hfd as ->. cbn in Hr. congruence. }
  assert (k ∈ [(WAccept_cb, None); (OnRecvFd_cb, None); (Work_cb, Some client_left_cb); (OnTimer_cb, None); (RecvPong_cb, Some coordinator_left_cb)]) as Hk'.
  { unfold wkinds in Hk. case_decide; set_solver. }
  destruct s. cbn in *. repeat (apply elem_of_cons in Hk' as [-> |Hk']); [..|by apply not_elem_of_nil in Hk']; cbn in *;
    (eexists; split; [done|]); constructor; cbn; try done; auto.
  split; [done|]. rewrite E, Hcli by done. cbn. by rewrite lookup_delete_eq.
Qed.

Lemma wstep_inv client fd h r i s :
  worker_inv client s → winput_ok i s → ∃ s', wstep client fd h r i s = Ret s' ∧ worker_inv client s'.
Proof.
  intros Hs Hi. unfold wstep, dispatch. destruct (entry_map (wpoll s) !! fd) as [e|] eqn:Hfd; cbn; [|eauto].
  destruct (wi_entries _ _ Hs fd e Hfd) as (k & Hk & ->). destruct h; cbn.
  - destruct (close_inv client fd k i s Hs Hfd Hk) as (s1 & -> & H1). cbind. eauto.
  - destruct r; cbn; [|eauto]. by apply read_inv.
Qed.

(** No callback but the timer's sends a ping. *)
Lemma callback_beats client k fd i s s' : k ≠ OnTimer_cb → run_wcallback client k fd i s = Ret s' → beats_sent s' = beats_sent s.
Proof.
  destruct s as [p st pid n v e b]. destruct k; cbn; try done; intros _.
  - intros [= <-]. unfold WAccept. by case_decide.
  - unfold OnRecvFd. destruct (checkCred _ _); [|by intros [= <-]]. destruct (w_recv i); [by intros [= <-]|done|].
    case_decide; by intros [= <-].
  - unfold Work. case_decide; [by intros [= <-]|]. case_decide; [by intros [= <-]|done].
  - by intros [= <-].
  - by intros [= <-].
  - by intros [= <-].
Qed.

Lemma wstep_beats client fd h r i s s' :
  worker_inv client s → wstep client fd h r i s = Ret s' → beats_sent s' = beats_sent s ++ due_beat client fd h r i s.
Proof.
  intros [Ho He Hf Hb Hv] Hs. unfold wstep, due_beat in *. destruct (dispatch fd h r (wpoll s)) as [[k|k]|] eqn:Ed.
  - destruct (decide (k = OnTimer_cb)) as [-> |Hk]; [|rewrite (callback_beats _ _ _ _ _ _ Hk Hs); destruct k; try done; cbn; by rewrite app_nil_r].
    cbn [run_wcallback] in Hs. injection Hs as <-. destruct s as [p st pid n v ec b]. cbn [OnTimer wpoll valid_heartbeat_handler] in *. destruct v; cbn [beats_sent].
    + rewrite (proj1 Hv eq_refl). by rewrite decide_True.
    + destruct (entry_map p !! client) as [e|] eqn:Ee; [|by rewrite app_nil_r].
      destruct (decide (on_read e = Some RecvPong_cb)) as [Hr|Hr]; [|by rewrite app_nil_r]. exfalso.
      destruct (He client e Ee) as (k & Hk & ->). cbn in Hr. injection Hr as Hr. assert (k = (RecvPong_cb, Some coordinator_left_cb)) as ->.
      { unfold wkinds in Hk. rewrite decide_True in Hk by done. destruct k. cbn in Hr. subst. set_solver. }
      by destruct Hv as [_ Hv]; discriminate (Hv eq_refl).
  - rewrite app_nil_r. assert (∀ c, k = Some c → c ≠ OnTimer_cb) as Hc.
    { intros c ->. unfold dispatch in Ed. destruct (entry_map (wpoll s) !! fd) as [e|] eqn:Ee; cbn in Ed; [|done].
      destruct (He fd e Ee) as (k & Hk & ->). destruct h; cbn in Ed; [|by destruct r]. injection Ed as Ed. unfold wkinds in Hk. case_decide; set_solver. }
    destruct k as [c|]; [|cbn in Hs; injection Hs as <-; by destruct s]. destruct (run_wcallback client c fd i s) as [s1| |] eqn:E1; cbn in Hs; [|done|done].
    injection Hs as <-. rewrite <- (callback_beats _ _ _ _ _ _ (Hc c eq_refl) E1). by destruct s1.
  - rewrite app_nil_r. by injection Hs as <-.
Qed.

Section start.
Context (unix client timer pid : Z).
Context (Hfds : 0 ≤ unix ∧ 0 ≤ client ∧ 0 ≤ timer ∧ unix ≠ client ∧ unix ≠ timer ∧ client ≠ timer) (Hpid : pid ≠ -1).

Lemma worker_start_inv : worker_inv client (worker_start unix client timer pid).
Proof.
  set (base := {[unix; client; timer]} : gset Z).
  assert (owns (MkPoll (K := wcallback) ∅ ∅ base)) as H0.
  { constructor; cbn; [intros ? ?; by rewrite lookup_empty|by rewrite dom_empty_L|set_solver]. }
  unfold worker_start, Worker_new, set_pid, startHeartBeat. cbn [Touch]. rewrite decide_False by done. cbn [snd]. fold base.
  destruct (register_owns unix WAccept_cb None (MkPoll ∅ ∅ base)) as [-> H1]; [done|lia|cbn; set_solver|done|]. cbn in H1 |- *.
  match goal with H : owns ?p |- _ => destruct (register_owns client RecvPong_cb (Some coordinator_left_cb) p) as [-> H2] end;
    [done|lia|cbn; set_solver|cbn; by rewrite lookup_insert_ne by lia|]. cbn in H2 |- *.
  match goal with H : owns ?p |- _ => destruct (register_owns timer OnTimer_cb None p) as [-> H3] end;
    [done|lia|cbn; set_solver|cbn; by rewrite !lookup_insert_ne by lia|]. cbn in H3 |- *.
  constructor; cbn; [done| |done|done|].
  - intros fd e. rewrite !lookup_insert_Some, lookup_empty. unfold wkinds.
    intros [[<- <-]|[_ [[<- <-]|[_ [[<- <-]|[_ ?]]]]]]; [| | |done].
    + exists (OnTimer_cb, None). split; [set_solver|done].
    + exists (RecvPong_cb, Some coordinator_left_cb). split; [rewrite decide_True by done; set_solver|done].
    + exists (WAccept_cb, None). split; [set_solver|done].
  - split; [intros _|done]. rewrite lookup_insert_ne by lia. by rewrite lookup_insert_eq.
Qed.

Lemma wrun_inv es s : worker_inv client s → wgood client es s →
  ∃ s', wrun client es s = Ret s' ∧ worker_inv client s' ∧ beats_sent s' = beats_sent s ++ due_beats client es s.
Proof.
  revert s. induction es as [|[[[fd h] r] i] es IH]; intros s Hs Hg; cbn [wrun wgood due_beats] in *; [rewrite app_nil_r; eauto|].
  destruct Hg as [Hi Hg]. destruct (wstep_inv client fd h r i s Hs Hi) as (s' & E & Hs'). pose proof (wstep_beats _ _ _ _ _ _ _ Hs E) as Hb.
  rewrite E in *. cbind. destruct (IH s' Hs' Hg) as (s2 & E2 & Hs2 & Hb2). exists s2. split_and!; [done|done|]. by rewrite Hb2, Hb, app_assoc.
Qed.

(** C38: the worker's file tells the truth.  Whatever the order of connections,
    passed descriptors, data, hang-ups and timer events, with the coordinator as
    the only peer, the worker runs without touching what is gone, its file is
    there exactly when it does not call itself busy, it is busy only while it
    serves a client, and every registered descriptor is open and its own.  It
    sends one ping for every event of the timer while its connection to the
    coordinator is registered, on that connection, and none afterwards, although
    a client may then have the connection's number. *)
Theorem worker_announces es :
  wgood client es (worker_start unix client timer pid) →
  ∃ s, wrun client es (worker_start unix client timer pid) = Ret s ∧ owns (wpoll s) ∧
    (notifier s = true ↔ state_ s ≠ BUSY) ∧ (clients (wpoll s) = ∅ → notifier s = true) ∧
    beats_sent s = due_beats client es (worker_start unix client timer pid).
Proof.
  intros Hg. destruct (wrun_inv es _ worker_start_inv Hg) as (s & E & [Ho He Hf Hb Hv] & Hbe). exists s.
  split_and!; [done|done|rewrite Hf; apply bool_decide_eq_true| |].
  - intros Hc. rewrite Hf, bool_decide_true; [done|]. intros Hst. by apply Hb.
  - rewrite Hbe. assert (beats_sent (worker_start unix client timer pid) = []) as ->; [|done].
    unfold worker_start, Worker_new, set_pid, startHeartBeat. cbn [Touch]. by rewrite decide_False.
Qed.
End start.

(** ** Concrete runs *)
Definition a_client (n : Z) : wevent := (7, false, true, WInput (-1) (Some 50) (RecvFdOf n) [] 0).
Definition hangup (fd : Z) : wevent := (fd, true, true, WInput (-1) (Some 50) RecvFailed [] 0).
Definition connection (n : Z) : wevent := (3, false, true, WInput n (Some 50) RecvFailed [] 0).

Definition timer_tick (now : Z) : wevent := (5, false, true, WInput (-1) (Some 50) RecvFailed [] now).

(** A client comes and goes, the coordinator hangs up and a second client gets
    the number of its connection: the timer's second event sends nothing. *)
Definition sample_wevents : list wevent :=
  [connection 7; a_client 8; (8, false, true, WInput (-1) (Some 50) RecvFailed [104; 105] 0); timer_tick 10; hangup 8; hangup 4; a_client 4; timer_tick 20].

Lemma worker_announces_witness :
  ∃ s, wrun 4 sample_wevents (worker_start 3 4 5 50) = Ret s ∧ (notifier s = true ↔ state_ s ≠ BUSY) ∧ beats_sent s = [(4, 10)].
Proof.
  destruct (worker_announces 3 4 5 50 ltac:(lia) ltac:(lia) sample_wevents) as (s & E & _ & H & _ & Hb).
  - by_eval.
  - exists s. split; [exact E|]. split; [exact H|]. rewrite Hb. vm_compute. reflexivity.
Defined.

(** Two clients are passed and one leaves: the worker announces itself free
    while it serves the other. *)
Lemma free_while_serving :
  (s ← wrun 4 [connection 7; a_client 8; a_client 9; hangup 8] (worker_start 3 4 5 50);
   Ret (state_ s, notifier s, elements (clients (wpoll s)))) = Ret (IDLE, true, [9]).
Proof. vm_compute. reflexivity. Qed.

(** 1024 bytes at once: the terminator is written past the buffer. *)
Lemma full_buffer_overrun data fd s i :
  zlen data = WORK_BUFFER → w_read i = data → Work fd i s = Undef.
Proof.
  intros Hl Hr. unfold Work. rewrite Hr, take_ge by lia. rewrite decide_False by (intros ->; done). by rewrite decide_False by lia.
Qed.

(** A peer that is not the coordinator is closed behind the loop's back; the
    next client that gets its number is closed at once. *)
Lemma stranger_costs_a_client :
  (s ← wrun 4 [connection 7; connection 8; (8, false, true, WInput (-1) (Some 51) RecvFailed [] 0); a_client 8] (worker_start 3 4 5 50);
   Ret (state_ s, bool_decide (8 ∈ opened (wpoll s)))) = Ret (BUSY, false).
Proof. vm_compute. reflexivity. Qed.
