(* ===== verification/BlockQueue.v ===== *)
(** * design_pattern/producer_and_consumer/1vs1/main.cpp: a blocking queue

    [put], [get] and [ready] take the queue's mutex, so each is one step, except
    that [ready] may wait on the condition variable in the middle.  A state is
    the queue together with where every consumer is; an action is a step of a
    thread, so that a list of actions is one interleaving.  [None] is a step
    that cannot be taken. *)
From Stdlib Require Import ZArith Lia.
From stdpp Require Import base tactics numbers list.
From S2P Require Import Prelude.

Open Scope Z_scope.

Definition QUEUEREADY : Z := 1.
Definition QUIT : Z := 0x1fffff.

(** Where a consumer is: about to look whether the queue is empty, waiting on
    the condition variable, between [ready] and [get], or out of its loop. *)
Inductive cpc := Checking | Waiting | Getting | Done.
#[export] Instance cpc_eq_dec : EqDecision cpc.
Proof. solve_decision. Defined.

Record BlockQueue := MkQueue {
  q_ : list Z;
  consumers : list cpc;
  printed : list (nat * Z);      (** what was consumed, and by whom *)
  notifier : Z;                  (** the event counter *)
}.

Definition BlockQueue_new (n : nat) : BlockQueue := MkQueue [] (replicate n Checking) [] 0.

(** [pthread_cond_broadcast] *)
Definition broadcast (cs : list cpc) : list cpc := map (λ c, if decide (c = Waiting) then Checking else c) cs.

Definition put (t : Z) (s : BlockQueue) : BlockQueue :=
  let '(MkQueue q cs pr nt) := s in MkQueue (q ++ [t]) (broadcast cs) pr (nt + QUEUEREADY).

(** [front] and [pop] of an empty queue are undefined. *)
Definition get (s : BlockQueue) : outcome (Z * BlockQueue) :=
  let '(MkQueue q cs pr nt) := s in
  match q with
  | [] => Undef
  | t :: q => Ret (t, MkQueue q cs pr nt)
  end.

Definition set_consumer (k : nat) (c : cpc) (s : BlockQueue) : BlockQueue :=
  let '(MkQueue q cs pr nt) := s in MkQueue q (<[k := c]> cs) pr nt.

Definition print (k : nat) (t : Z) (s : BlockQueue) : BlockQueue :=
  let '(MkQueue q cs pr nt) := s in MkQueue q cs (pr ++ [(k, t)]) nt.

(** The loop of [ready], from the test. *)
Definition ready_check (s : BlockQueue) : cpc := if decide (q_ s = []) then Waiting else Getting.

Inductive action :=
| Put (t : Z)
| Consume (k : nat)             (** the next step of a consumer *)
| Spurious (k : nat)            (** the wait returns without a broadcast *)
| WaitFails (k : nat).          (** the wait returns an error *)

Definition step (a : action) (s : BlockQueue) : outcome (option BlockQueue) :=
  match a with
  | Put t => Ret (Some (put t s))
  | Consume k =>
      match consumers s !! k with
      | Some Checking => Ret (Some (set_consumer k (ready_check s) s))
      | Some Getting =>
          '(t, s) ← get s;
          Ret (Some (set_consumer k Checking (print k t s)))
      | _ => Ret None
      end
  | Spurious k =>
      match consumers s !! k with
      | Some Waiting => Ret (Some (set_consumer k Checking s))
      | _ => Ret None
      end
  | WaitFails k =>
      match consumers s !! k with
      | Some Waiting => Ret (Some (set_consumer k Done s))
      | _ => Ret None
      end
  end.

Fixpoint run (acts : list action) (s : BlockQueue) : outcome (option BlockQueue) :=
  match acts with
  | [] => Ret (Some s)
  | a :: acts =>
      o ← step a s;
      match o with Some s => run acts s | None => Ret None end
  end.

(** The producer of the program. *)
Definition producer : list Z := map (λ i : nat, Z.of_nat i * Z.of_nat i) (seq 0 10).

(** ** The variant on events: one [read] of the counter, which gives it whole
    and clears it, and one [get].  [None] ends the loop. *)
Definition consume_event (s : BlockQueue) : outcome (option (Z * BlockQueue)) :=
  let '(MkQueue q cs pr nt) := s in
  if decide (nt < QUIT) then
    '(t, s) ← get (MkQueue q cs pr 0);
    Ret (Some (t, s))
  else Ret None.

(** The spoiler's event. *)
Definition spoil (s : BlockQueue) : BlockQueue :=
  let '(MkQueue q cs pr nt) := s in MkQueue q cs pr (nt + QUIT).

(** ** One consumer *)
Fixpoint puts (acts : list action) : list Z :=
  match acts with
  | [] => []
  | Put t :: acts => t :: puts acts
  | _ :: acts => puts acts
  end.

Record bq_inv (xs : list Z) (s : BlockQueue) : Prop := {
  bi_one : ∃ c, consumers s = [c] ∧ (c = Getting → q_ s ≠ []) ∧ (c = Waiting → q_ s = []);
  bi_order : map snd (printed s) ++ q_ s = xs;
  bi_events : notifier s = zlen xs;
}.

Lemma step_inv xs a s :
  bq_inv xs s → ∃ o, step a s = Ret o ∧ ∀ s', o = Some s' → bq_inv (xs ++ puts [a]) s'.
Proof.
  intros [(c & Hc & Hg & Hw) Ho He]. destruct s as [q cs pr nt]. cbn in *. subst cs nt.
  destruct a as [t|k|k|k]; cbn [puts]; rewrite ?app_nil_r.
  - eexists. split; [done|]. intros s' [= <-]. constructor; cbn.
    + eexists. split; [done|]. split; [intros _; by destruct q|]. by case_decide.
    + by rewrite app_assoc, Ho.
    + unfold QUEUEREADY. len.
  - destruct k as [|k]; cbn; [|by exists None]. destruct c; cbn; try by exists None.
    + eexists. split; [done|]. intros s' [= <-]. constructor; cbn; [|done|done]. eexists. split; [done|].
      unfold ready_check. cbn. case_decide; naive_solver.
    + destruct q as [|t q]; [by destruct (Hg eq_refl)|]. cbn. eexists. split; [done|]. intros s' [= <-].
      constructor; cbn; [naive_solver| |done]. rewrite map_app, <- app_assoc. done.
  - destruct k as [|k]; cbn; [|by exists None]. destruct c; cbn; try by exists None. eexists. split; [done|]. intros s' [= <-].
    constructor; cbn; [|done|done]. naive_solver.
  - destruct k as [|k]; cbn; [|by exists None]. destruct c; cbn; try by exists None. eexists. split; [done|]. intros s' [= <-].
    constructor; cbn; [|done|done]. naive_solver.
Qed.

Lemma run_inv acts xs s :
  bq_inv xs s → ∃ o, run acts s = Ret o ∧ ∀ s', o = Some s' → bq_inv (xs ++ puts acts) s'.
Proof.
  revert xs s. induction acts as [|a acts IH]; intros xs s Hs; cbn [run].
  - eexists. split; [done|]. intros s' [= <-]. by rewrite app_nil_r.
  - destruct (step_inv xs a s Hs) as (o & -> & Hinv). cbind. destruct o as [s1|]; [|by exists None].
    destruct (IH _ s1 (Hinv s1 eq_refl)) as (o & E & H). exists o. split; [done|]. intros s' Hs'.
    specialize (H s' Hs'). rewrite <- app_assoc in H. by destruct a.
Qed.

Lemma new_inv : bq_inv [] (BlockQueue_new 1).
Proof. constructor; cbn; [|done|done]. exists Checking. naive_solver. Qed.

(** One producer and one consumer.  In every interleaving of puts, consumer
    steps and spurious wake-ups the consumer never takes from an empty queue;
    what it has consumed followed by what is queued is what was put, in order;
    it waits only while the queue is empty, so that no wake-up is lost. *)
Theorem queue_safe acts :
  ∃ o, run acts (BlockQueue_new 1) = Ret o ∧
    ∀ s, o = Some s → map snd (printed s) ++ q_ s = puts acts ∧ (consumers s = [Waiting] → q_ s = []).
Proof.
  destruct (run_inv acts [] _ new_inv) as (o & E & H). exists o. split; [done|]. intros s Hs.
  destruct (H s Hs) as [(c & Hc & _ & Hw) Ho _]. split; [done|]. rewrite Hc. intros [= ->]. by apply Hw.
Qed.

(** Two steps of the consumer for each element. *)
Lemma drains q pr nt c :
  (c = Getting → q ≠ []) → c = Checking ∨ c = Getting →
  ∃ n s', (n ≤ 2 * length q + 1)%nat ∧ run (replicate n (Consume 0)) (MkQueue q [c] pr nt) = Ret (Some s') ∧
    consumers s' = [Waiting] ∧ q_ s' = [] ∧ map snd (printed s') = map snd pr ++ q.
Proof.
  assert (∀ q pr, ∃ n s', (n ≤ 2 * length q + 1)%nat ∧ run (replicate n (Consume 0)) (MkQueue q [Checking] pr nt) = Ret (Some s') ∧
    consumers s' = [Waiting] ∧ q_ s' = [] ∧ map snd (printed s') = map snd pr ++ q) as Hck.
  { intros q0. induction q0 as [|t q0 IH]; intros pr0.
    - exists 1%nat. eexists. cbn. split; [lia|]. split; [done|]. cbn. by rewrite app_nil_r.
    - destruct (IH (pr0 ++ [(0%nat, t)])) as (n & s' & Hn & E & Hc & Hq & Hp). exists (S (S n)), s'. split; [cbn; lia|].
      split; [exact E|]. split; [done|]. split; [done|]. rewrite Hp, map_app, <- app_assoc. done. }
  intros Hg [-> | ->]; [apply Hck|]. destruct q as [|t q]; [by destruct (Hg eq_refl)|].
  destruct (Hck q (pr ++ [(0%nat, t)])) as (n & s' & Hn & E & Hc & Hq & Hp). exists (S n), s'. split; [cbn; lia|].
  split; [exact E|]. split; [done|]. split; [done|]. rewrite Hp, map_app, <- app_assoc. done.
Qed.

(** Whatever was put is consumed: from every state the interleavings lead to
    in which the wait has not failed, the consumer alone, in at most two steps
    for each queued element and one more, prints everything that was put, in
    order, and waits. *)
Theorem queue_drains acts s :
  run acts (BlockQueue_new 1) = Ret (Some s) → consumers s ≠ [Done] →
  ∃ n s', (n ≤ 2 * length (q_ s) + 1)%nat ∧ run (replicate n (Consume 0)) s = Ret (Some s') ∧
    consumers s' = [Waiting] ∧ q_ s' = [] ∧ map snd (printed s') = puts acts.
Proof.
  intros E Hd. destruct (run_inv acts [] _ new_inv) as (o & E' & H). rewrite E in E'. injection E' as <-.
  destruct (H s eq_refl) as [(c & Hc & Hg & Hw) Ho _]. destruct s as [q cs pr nt]. cbn in *. subst cs.
  destruct (decide (c = Waiting)) as [-> |Hnw].
  - exists 0%nat. eexists. split; [lia|]. split; [done|]. cbn. specialize (Hw eq_refl). subst q. by rewrite app_nil_r in Ho.
  - rewrite <- Ho. apply drains; [done|]. destruct c; [auto|done|auto|done].
Qed.

Lemma queue_drains_witness :
  ∃ n s', (n ≤ 2 * 8 + 1)%nat ∧ run (replicate n (Consume 0))
      (MkQueue [4; 9; 16; 25; 36; 49; 64; 81] [Getting] [(0%nat, 0); (0%nat, 1)] 10) = Ret (Some s') ∧
    consumers s' = [Waiting] ∧ q_ s' = [] ∧ map snd (printed s') = producer.
Proof.
  apply (queue_drains ([Put 0; Consume 0; Consume 0; Consume 0; Spurious 0; Put 1; Consume 0; Consume 0] ++
                       map Put [4; 9; 16; 25; 36; 49; 64; 81] ++ [Consume 0])
    (MkQueue [4; 9; 16; 25; 36; 49; 64; 81] [Getting] [(0%nat, 0); (0%nat, 1)] 10)); [vm_compute; reflexivity|discriminate].
Defined.

(** ** What the class does not allow *)

(** Two consumers: both see the one element, and the second takes from an empty queue. *)
Lemma two_consumers_undefined :
  run [Put 7; Consume 0; Consume 1; Consume 0; Consume 1] (BlockQueue_new 2) = Undef.
Proof. reflexivity. Qed.

(** On events: two puts are one event, so that an element is left behind, and
    the elements still queued when the spoiler comes are not consumed. *)
Lemma events_leave_elements t1 t2 q pr :
  (∀ t s, consume_event (put t2 (put t1 (MkQueue q [] pr 0))) = Ret (Some (t, s)) → q_ s ≠ [] ∧ notifier s = 0) ∧
  consume_event (spoil (put t1 (MkQueue q [] pr 0))) = Ret None.
Proof.
  split; [|done]. intros t s. destruct q as [|x q]; cbn; intros [= <- <-]; cbn; [done|]. split; [|done]. by destruct q.
Qed.

(** * container/blocking-queue.cpp: [BQ]

    Here the wait is inside [get], under the lock, so that any number of
    consumers can share the queue.  Each consumer of the program gets one
    element. *)
Module BQ.

Inductive pc := Want | Asleep | Got (t : Z).
#[export] Instance pc_eq_dec : EqDecision pc.
Proof. solve_decision. Defined.

Record queue := MkBQ { bq_ : list Z; threads : list pc; taken : list Z }.

Definition BQ_new (n : nat) : queue := MkBQ [] (replicate n Want) [].

(** [notify_all] *)
Definition notify_all (ts : list pc) : list pc := map (λ c, if decide (c = Asleep) then Want else c) ts.

Definition put (t : Z) (s : queue) : queue := let '(MkBQ q ts tk) := s in MkBQ (q ++ [t]) (notify_all ts) tk.

(** A consumer's turn in [get], from the test of the wait: it sleeps or leaves
    with an element.  [None]: it sleeps already, or has left. *)
Definition get (k : nat) (s : queue) : option queue :=
  let '(MkBQ q ts tk) := s in
  match ts !! k with
  | Some Want =>
      match q with
      | [] => Some (MkBQ q (<[k := Asleep]> ts) tk)
      | t :: q => Some (MkBQ q (<[k := Got t]> ts) (tk ++ [t]))
      end
  | _ => None
  end.

(** A wake-up nobody has sent. *)
Definition spurious (k : nat) (s : queue) : option queue :=
  let '(MkBQ q ts tk) := s in
  match ts !! k with Some Asleep => Some (MkBQ q (<[k := Want]> ts) tk) | _ => None end.

Inductive bact := BPut (t : Z) | BGet (k : nat) | BWake (k : nat).

Definition bstep (a : bact) (s : queue) : option queue :=
  match a with BPut t => Some (put t s) | BGet k => get k s | BWake k => spurious k s end.

Fixpoint brun (acts : list bact) (s : queue) : option queue :=
  match acts with
  | [] => Some s
  | a :: acts => s ← bstep a s; brun acts s
  end.

Fixpoint bputs (acts : list bact) : list Z :=
  match acts with [] => [] | BPut t :: acts => t :: bputs acts | _ :: acts => bputs acts end.

(** What the threads that have left have got. *)
Definition got (c : pc) : list Z := match c with Got t => [t] | _ => [] end.
Definition gots (ts : list pc) : list Z := concat (map got ts).

#[local] Arguments gots : simpl never.
#[local] Arguments notify_all : simpl never.

Record binv (n : nat) (xs : list Z) (s : queue) : Prop := {
  b_order : taken s ++ bq_ s = xs;
  b_got : gots (threads s) ≡ₚ taken s;
  b_sleep : bq_ s ≠ [] → Asleep ∉ threads s;
  b_count : length (threads s) = n;
}.

Lemma gots_app a b : gots (a ++ b) = gots a ++ gots b.
Proof. unfold gots. by rewrite map_app, concat_app. Qed.

Lemma gots_set ts k c c' : ts !! k = Some c → got c = [] → gots (<[k := c']> ts) ≡ₚ got c' ++ gots ts.
Proof.
  intros Hk Hc. apply take_drop_middle in Hk as Hts. pose proof (lookup_lt_Some _ _ _ Hk).
  rewrite insert_take_drop by done. rewrite <- Hts at 3. rewrite !gots_app.
  change (gots (c' :: drop (S k) ts)) with (got c' ++ gots (drop (S k) ts)).
  change (gots (c :: drop (S k) ts)) with (got c ++ gots (drop (S k) ts)). rewrite Hc. cbn [app]. solve_Permutation.
Qed.

Lemma gots_notify ts : gots (notify_all ts) = gots ts.
Proof.
  unfold gots, notify_all. rewrite map_map. f_equal. apply map_ext. intros c. by case_decide; subst.
Qed.

Lemma bstep_inv n xs a s s' : binv n xs s → bstep a s = Some s' → binv n (xs ++ bputs [a]) s'.
Proof.
  destruct s as [q ts tk]. intros [Ho Hg Hs Hc] E. cbn in *. destruct a as [t|k|k]; cbn in *.
  - simplify_eq. constructor; cbn; [by rewrite app_assoc|by rewrite gots_notify| |unfold notify_all; by rewrite length_map].
    intros _ (c & E & _)%list_elem_of_fmap. case_decide; congruence.
  - rewrite app_nil_r. destruct (ts !! k) as [[| |t]|] eqn:Hk; [|done..]. destruct q as [|t q]; simplify_eq; constructor; cbn.
    + done.
    + by rewrite (gots_set _ _ Want).
    + done.
    + by rewrite length_insert.
    + by rewrite <- app_assoc.
    + rewrite (gots_set _ _ Want) by done. rewrite Hg. cbn. solve_Permutation.
    + intros _ (j & Hj)%list_elem_of_lookup_1. apply list_lookup_insert_Some in Hj as [(_ & ? & _)|[_ Hj]]; [done|].
      apply (Hs ltac:(done)). by eapply list_elem_of_lookup_2.
    + by rewrite length_insert.
  - rewrite app_nil_r. destruct (ts !! k) as [[| |t]|] eqn:Hk; [done| |done..]. simplify_eq. constructor; cbn; [done| | |by rewrite length_insert].
    + by rewrite (gots_set _ _ Asleep).
    + intros Hq. exfalso. apply (Hs Hq). by eapply list_elem_of_lookup_2.
Qed.

Lemma brun_inv n acts xs s s' : binv n xs s → brun acts s = Some s' → binv n (xs ++ bputs acts) s'.
Proof.
  revert xs s. induction acts as [|a acts IH]; intros xs s Hs E; cbn [brun] in E; [simplify_eq; by rewrite app_nil_r|].
  destruct (bstep a s) as [s1|] eqn:E1; [|done]. cbn in E. pose proof (IH _ _ (bstep_inv _ _ _ _ _ Hs E1) E) as H.
  rewrite <- app_assoc in H. by destruct a.
Qed.

Lemma new_binv n : binv n [] (BQ_new n).
Proof.
  constructor; cbn; [done| |done|apply length_replicate]. unfold gots. induction n; [done|]. done.
Qed.

Lemma gots_all ts : (length (gots ts) ≤ length ts)%nat ∧ (length (gots ts) = length ts → Forall (λ c, got c ≠ []) ts).
Proof.
  induction ts as [|c ts [IH1 IH2]]; [done|]. change (gots (c :: ts)) with (got c ++ gots ts). rewrite length_app. cbn [length].
  destruct c; cbn [got length]; (split; [lia|]); intros H; [lia|lia|]. constructor; [done|]. apply IH2. lia.
Qed.

Lemma all_gots ts : Forall (λ c, got c ≠ []) ts → length (gots ts) = length ts.
Proof.
  induction 1 as [|c ts Hc _ IH]; [done|]. change (gots (c :: ts)) with (got c ++ gots ts). rewrite length_app, IH. by destruct c.
Qed.

(** While there are elements for all, somebody is there to take the next. *)
Lemma someone_wants n xs s : binv n xs s → length xs = n → bq_ s ≠ [] → ∃ k, threads s !! k = Some Want.
Proof.
  intros [Ho Hg Hs Hc] Hx Hq. destruct (decide (Want ∈ threads s)) as [Hin|Hin]; [by apply list_elem_of_lookup_1 in Hin|].
  exfalso. assert (Forall (λ c, got c ≠ []) (threads s)) as Hall.
  { apply Forall_forall. intros [| |t] Hin'; [done|by destruct (Hs Hq)|done]. }
  apply all_gots in Hall. apply Permutation_length in Hg. apply (f_equal length) in Ho. rewrite length_app in Ho.
  destruct (bq_ s); [done|]. cbn in Ho. lia.
Qed.

Lemma serves n xs s : binv n xs s → length xs = n →
  ∃ ks s', length ks = length (bq_ s) ∧ brun (map BGet ks) s = Some s' ∧ binv n xs s' ∧ bq_ s' = [].
Proof.
  remember (length (bq_ s)) as m eqn:Hm. revert s Hm. induction m as [|m IH]; intros s Hm Hs Hx.
  - exists [], s. split_and!; [done|done|done|]. by destruct (bq_ s).
  - destruct (someone_wants n xs s Hs Hx) as [k Hk]; [by intros E; rewrite E in Hm|].
    assert (∃ s1, bstep (BGet k) s = Some s1 ∧ length (bq_ s1) = m) as (s1 & E1 & Hl1).
    { destruct s as [q ts tk]. cbn in *. rewrite Hk. destruct q as [|t q]; [done|]. eexists. split; [done|]. cbn in *. lia. }
    pose proof (bstep_inv _ _ _ _ _ Hs E1) as Hs1. rewrite app_nil_r in Hs1.
    destruct (IH s1 ltac:(lia) Hs1 Hx) as (ks & s' & H1 & H2 & H3 & H4). exists (k :: ks), s'.
    split; [cbn; lia|]. cbn [map brun]. rewrite E1. done.
Qed.

(** Everybody is served.  With as many consumers as elements that are put,
    from every state the interleavings lead to once all are put, some consumer
    can always take the next element, and after as many turns as there are
    elements left every consumer has one; the elements were taken in the order
    they were put, each by one consumer. *)
Theorem everybody_served n acts s :
  brun acts (BQ_new n) = Some s → length (bputs acts) = n →
  ∃ ks s', length ks = length (bq_ s) ∧ brun (map BGet ks) s = Some s' ∧ taken s' = bputs acts ∧
    Forall (λ c, got c ≠ []) (threads s') ∧ gots (threads s') ≡ₚ bputs acts.
Proof.
  intros E Hn. pose proof (brun_inv _ _ _ _ _ (new_binv n) E) as Hs. cbn [app] in Hs.
  destruct (serves n _ s Hs Hn) as (ks & s' & Hl & E' & [Ho Hg _ Hc] & Hq). exists ks, s'. rewrite Hq, app_nil_r in Ho.
  split_and!; [done|done|done| |by rewrite <- Ho]. apply gots_all. apply Permutation_length in Hg. rewrite Hg, Ho. lia.
Qed.

Lemma everybody_served_witness :
  ∃ ks s', length ks = 2%nat ∧ brun (map BGet ks) (MkBQ [8; 9] [Want; Got 7; Want] [7]) = Some s' ∧ taken s' = [7; 8; 9] ∧
    Forall (λ c, got c ≠ []) (threads s') ∧ gots (threads s') ≡ₚ [7; 8; 9].
Proof.
  apply (everybody_served 3 [BGet 0; BGet 1; BPut 7; BGet 1; BPut 8; BPut 9] (MkBQ [8; 9] [Want; Got 7; Want] [7])); reflexivity.
Defined.
End BQ.
