(* ===== verification/Secure.v ===== *)
(** * socket/secure.h and secure.cpp: masked records

    A record is sent behind a secret and a random byte, everything but the
    random byte masked with it.  The random byte comes from the buffered reader
    of [Topics]; the record is the packed [Data] of [WeightCodec]. *)
From Stdlib Require Import ZArith Lia.
From stdpp Require Import base tactics numbers list gmap.
From S2P Require Import Prelude.
From S2P Require Import Words.
From S2P Require Import Topics.
From S2P Require Import WeightCodec.

Open Scope Z_scope.

Definition kDataSize : Z := 12.
Definition kDataLen : Z := 4 + kDataSize.
Definition SECRET : list Z := [83; 85; 78].
Definition SECRET_LEN : Z := 3.

Definition CreateBuffer : list Z := replicate (Z.to_nat kDataLen) 0.

(** One turn of the loop around the buffer, and the loop. *)
Definition mask_step (mask : Z) (s : Z * list Z) : outcome ((Z * list Z) + list Z) :=
  let '(i, p) := s in
  if decide (i = SECRET_LEN) then Ret (inr p)
  else
    let i := if decide (i = kDataLen) then 0 else i in
    b ← load p i;
    p ← store p i (Z.lxor b mask);
    Ret (inl (i + 1, p)).

Definition mask_loop (mask : Z) (p : list Z) : outcome (list Z) :=
  while_fuel 17 (mask_step mask) (SECRET_LEN + 1, p).

(** [resize] pads the secret with zeros. *)
Definition Encrypt (data : list Z) (len : Z) (entropy : reader) : outcome (list Z * reader) :=
  let res := SECRET ++ replicate (Z.to_nat (kDataLen - SECRET_LEN)) 0 in
  res ← memcpy res (SECRET_LEN + 1) data 0 len;
  '(bs, entropy) ← Fetch 1 entropy;
  mask ← load bs 0;
  p ← store res SECRET_LEN mask;
  p ← mask_loop mask p;
  Ret (p, entropy).

(** [None] is false.  The string is unmasked in place. *)
Definition Decrypt (s : list Z) (len : Z) : outcome (option (list Z) * list Z) :=
  if decide (zlen s = kDataLen) then
    mask ← load s SECRET_LEN;
    s ← mask_loop mask s;
    if decide (take 3 s = SECRET) then
      data ← load_n s (SECRET_LEN + 1) len;
      Ret (Some data, s)
    else Ret (None, s)
  else Ret (None, s).

(** ** The packed record *)
Definition data_bytes (d : Data) : list Z := word_bytes 4 (a_ d) ++ word_bytes 8 (b_ d).
Definition data_of (bs : list Z) : Data := MkData (word_value (take 4 bs)) (word_value (drop 4 bs)).

Definition data_ok (d : Data) : Prop := 0 ≤ a_ d < 2 ^ 32 ∧ 0 ≤ b_ d < 2 ^ 64.

Lemma data_of_bytes d : data_ok d → data_of (data_bytes d) = d.
Proof.
  intros [Ha Hb]. unfold data_of, data_bytes. rewrite <- (word_bytes_length 4 (a_ d)) at 1 4.
  rewrite take_app_length, drop_app_length, !word_value_bytes by done. by destruct d.
Qed.

Lemma data_bytes_length d : zlen (data_bytes d) = kDataSize.
Proof. unfold data_bytes. by rewrite length_app, !word_bytes_length. Qed.

(** ** The mask *)

(** Everything but the byte at 3 is masked; masking again undoes it. *)
Definition masked (mask : Z) (p : list Z) : list Z :=
  map (λ b, Z.lxor b mask) (take 3 p) ++ take 1 (drop 3 p) ++ map (λ b, Z.lxor b mask) (drop 4 p).

Lemma sixteen (p : list Z) : zlen p = kDataLen → length p = 16%nat.
Proof. unfold kDataLen, kDataSize. lia. Qed.

Lemma mask_loop_spec mask p : zlen p = kDataLen → mask_loop mask p = Ret (masked mask p).
Proof. intros Hl%sixteen. open_buffer 16 p. reflexivity. Qed.

Lemma lxor_twice b mask : Z.lxor (Z.lxor b mask) mask = b.
Proof. by rewrite Z.lxor_assoc, Z.lxor_nilpotent, Z.lxor_0_r. Qed.

Lemma masked_twice mask p : zlen p = kDataLen → masked mask (masked mask p) = p.
Proof. intros Hl%sixteen. open_buffer 16 p. unfold masked. cbn. by rewrite !lxor_twice. Qed.

Lemma masked_length mask p : zlen p = kDataLen → zlen (masked mask p) = kDataLen.
Proof. intros Hl%sixteen. by open_buffer 16 p. Qed.

Lemma masked_key mask p : zlen p = kDataLen → load (masked mask p) SECRET_LEN = load p SECRET_LEN.
Proof. intros Hl%sixteen. by open_buffer 16 p. Qed.

(** What is sent: the secret and the record, masked, around the random byte. *)
Lemma encrypt_spec data entropy mask entropy' :
  zlen data = kDataSize → Fetch 1 entropy = Ret ([mask], entropy') →
  Encrypt data kDataSize entropy = Ret (masked mask (SECRET ++ [mask] ++ data), entropy').
Proof.
  intros Hl E. unfold Encrypt. assert (memcpy (SECRET ++ replicate (Z.to_nat (kDataLen - SECRET_LEN)) 0) (SECRET_LEN + 1) data 0 kDataSize
    = Ret (SECRET ++ [0] ++ data)) as ->.
  { assert (length data = 12%nat) as Hn by (unfold kDataSize in Hl; lia). clear Hl. open_buffer 12 data. reflexivity. }
  cbind. rewrite E. cbind. change (load [mask] 0) with (Ret mask). cbind.
  change (store (SECRET ++ [0] ++ data) SECRET_LEN mask) with
    (if decide (0 ≤ 3 < zlen (SECRET ++ [0] ++ data)) then Ret (SECRET ++ [mask] ++ data) else Undef).
  rewrite decide_True by (cbn [length app SECRET]; lia). cbind.
  rewrite mask_loop_spec; [done|]. rewrite !length_app. cbn [length SECRET]. unfold kDataLen. lia.
Qed.

Lemma decrypt_spec s :
  zlen s = kDataLen →
  ∃ mask, load s SECRET_LEN = Ret mask ∧
    Decrypt s kDataSize = Ret (if decide (take 3 (masked mask s) = SECRET) then Some (drop 4 (masked mask s)) else None, masked mask s).
Proof.
  intros Hl. destruct (load_in s SECRET_LEN) as (mask & E & _); [unfold kDataLen, kDataSize, SECRET_LEN in *; lia|]. exists mask.
  split; [done|]. unfold Decrypt. rewrite decide_True by done. rewrite E. cbind. rewrite mask_loop_spec by done. cbind.
  pose proof (masked_length mask s Hl) as Hm. case_decide; [|done]. unfold load_n.
  rewrite decide_True by (rewrite Hm; unfold SECRET_LEN, kDataLen, kDataSize; lia). cbind. do 3 f_equal. apply take_ge.
  rewrite length_drop. unfold SECRET_LEN, kDataLen, kDataSize in *. lia.
Qed.

(** ** Properties *)

(** What is encrypted is decrypted to the same record, whatever the random
    byte; and for a record of the codec, to the same values. *)
Theorem secure_roundtrip d entropy mask entropy' :
  data_ok d → Fetch 1 entropy = Ret ([mask], entropy') →
  ∃ s, Encrypt (data_bytes d) kDataSize entropy = Ret (s, entropy') ∧ zlen s = kDataLen ∧
    ∃ s', Decrypt s kDataSize = Ret (Some (data_bytes d), s') ∧ data_of (data_bytes d) = d.
Proof.
  intros Hd E. pose proof (data_bytes_length d) as Hl. rewrite (encrypt_spec _ _ mask entropy') by done. eexists. split; [done|].
  assert (zlen (SECRET ++ [mask] ++ data_bytes d) = kDataLen) as Hp by (rewrite !length_app; cbn [length SECRET]; unfold kDataLen; lia).
  pose proof (masked_length mask _ Hp) as Hm. split; [done|]. destruct (decrypt_spec _ Hm) as (mask' & E' & ->).
  rewrite masked_key in E' by done. change (load (SECRET ++ [mask] ++ data_bytes d) SECRET_LEN) with (Ret mask) in E'. injection E' as <-.
  rewrite masked_twice by done. eexists. split; [done|]. by apply data_of_bytes.
Qed.

(** Which strings are accepted, on every input: those of the right length whose
    first three bytes are the secret masked with the fourth.  Nothing is read
    outside the string, and what is rejected leaves no record. *)
Theorem decrypt_accepts_iff s :
  ∃ o s', Decrypt s kDataSize = Ret (o, s') ∧
    (is_Some o ↔ zlen s = kDataLen ∧ ∃ mask, load s SECRET_LEN = Ret mask ∧ take 3 s = map (λ b, Z.lxor b mask) SECRET).
Proof.
  destruct (decide (zlen s = kDataLen)) as [Hl|Hl].
  - destruct (decrypt_spec s Hl) as (mask & E & ->). eexists _, _. split; [done|].
    assert (take 3 (masked mask s) = map (λ b, Z.lxor b mask) (take 3 s)) as Ht.
    { apply sixteen in Hl. clear E. by open_buffer 16 s. }
    rewrite Ht. split.
    + case_decide as Hs; [|by intros [? ?]]. intros _. split; [done|]. exists mask. split; [done|]. rewrite <- Hs, map_map.
      rewrite <- (map_id (take 3 s)) at 1. apply map_ext. intros b. by rewrite lxor_twice.
    + intros (_ & mask' & E' & Hs). rewrite E in E'. injection E' as <-. rewrite decide_True; [eauto|].
      rewrite Hs, map_map. rewrite <- (map_id SECRET) at 2. apply map_ext. intros b. by rewrite lxor_twice.
  - exists None, s. unfold Decrypt. rewrite decide_False by done. split; [done|]. split; [by intros [? ?]|]. by intros [? _].
Qed.

Lemma secure_roundtrip_witness :
  ∃ s, Encrypt (data_bytes (MkData 77 (2 ^ 56 + 2 ^ 48 * 182 + 5))) kDataSize (RandomReader (replicate 1024 0) [replicate 1024 211]) =
      Ret (s, MkReader 1 (replicate 1024 211) []) ∧ zlen s = kDataLen ∧
    ∃ s', Decrypt s kDataSize = Ret (Some (data_bytes (MkData 77 (2 ^ 56 + 2 ^ 48 * 182 + 5))), s') ∧
      data_of (data_bytes (MkData 77 (2 ^ 56 + 2 ^ 48 * 182 + 5))) = MkData 77 (2 ^ 56 + 2 ^ 48 * 182 + 5).
Proof.
  apply (secure_roundtrip (MkData 77 (2 ^ 56 + 2 ^ 48 * 182 + 5)) (RandomReader (replicate 1024 0) [replicate 1024 211]) 211).
  - split; cbn; lia.
  - vm_compute. reflexivity.
Defined.
