(* ===== verification/ParseTopic.v ===== *)
(** * io/notifier.cpp: [parseTopic]

    The topics of a request's address: the values of its query, read with
    [sscanf] into two arrays of sixteen characters.  The arrays have no value
    until the first match; a [std::string] is the list of its characters, with a
    terminator behind them. *)
From Stdlib Require Import ZArith Lia.
From stdpp Require Import base tactics numbers list.
From S2P Require Import Prelude.

Open Scope Z_scope.

Definition BUF : Z := 16.
Definition QUESTION : Z := 63.
Definition AMP : Z := 38.
Definition EQ : Z := 61.

(** The characters a C string function sees. *)
Fixpoint until_nul (s : list Z) : list Z :=
  match s with
  | [] => []
  | c :: s => if decide (c = 0) then [] else c :: until_nul s
  end.

(** [%[^c]]: the longest text without [c], and what follows. *)
Fixpoint span (c : Z) (s : list Z) : list Z * list Z :=
  match s with
  | [] => ([], [])
  | x :: s' => if decide (x = c) then ([], s) else let '(a, b) := span c s' in (x :: a, b)
  end.

(** The text is stored with a terminator into an array of [BUF] characters. *)
Definition store_text (t : list Z) : outcome (option (list Z)) :=
  if decide (zlen t + 1 ≤ BUF) then Ret (Some t) else Undef.

(** [sscanf(s, "%[^=]=%[^&]%n", k, v, &n)] with [n] zero before: the arrays and
    [n] after.  A conversion that matches nothing ends it. *)
Definition scan_pair (s : list Z) (k v : option (list Z)) : outcome (option (list Z) * option (list Z) * Z) :=
  let '(key, r) := span EQ (until_nul s) in
  if decide (key = []) then Ret (k, v, 0)
  else
    k ← store_text key;
    match r with
    | [] => Ret (k, v, 0)
    | _ :: r =>
        let '(val, _) := span AMP r in
        if decide (val = []) then Ret (k, v, 0)
        else
          v ← store_text val;
          Ret (k, v, zlen key + 1 + zlen val)
    end.

Fixpoint find_char (c : Z) (s : list Z) (i : Z) : option Z :=
  match s with
  | [] => None
  | x :: s => if decide (x = c) then Some i else find_char c s (i + 1)
  end.

(** The state of the loop: [i], the arrays and the result.  The arrays are
    printed, and [v] is appended, whatever the scan has matched. *)
Definition topic_state : Type := Z * option (list Z) * option (list Z) * list (list Z).

Definition topic_step (uri : list Z) (s : topic_state) : outcome (topic_state + list (list Z)) :=
  let '(i, k, v, res) := s in
  let i := i + 1 in
  if decide (i < zlen uri) then
    '(k, v, n) ← scan_pair (drop (Z.to_nat i) uri) k v;
    match k, v with
    | Some _, Some t => Ret (inl (i + n, k, v, res ++ [t]))
    | _, _ => Undef
    end
  else Ret (inr res).

Definition parseTopic (uri : list Z) : outcome (list (list Z)) :=
  match find_char QUESTION uri 0 with
  | None => Ret []
  | Some i => while_fuel (S (length uri)) (topic_step uri) (i, None, None, [])
  end.

(** ** Printing *)
Definition pair_text (p : list Z * list Z) : list Z := p.1 ++ [EQ] ++ p.2.

Fixpoint query_text (ps : list (list Z * list Z)) : list Z :=
  match ps with
  | [] => []
  | [p] => pair_text p
  | p :: ps => pair_text p ++ [AMP] ++ query_text ps
  end.

Definition text_ok (sep : Z) (t : list Z) : Prop := t ≠ [] ∧ (sep ∉ t) ∧ (0 ∉ t) ∧ zlen t < BUF.
Definition pair_ok (p : list Z * list Z) : Prop := text_ok EQ p.1 ∧ text_ok AMP p.2.
#[export] Instance pair_ok_dec p : Decision (pair_ok p).
Proof. unfold pair_ok, text_ok. apply _. Defined.

Lemma span_app c a b : (c ∉ a) → span c (a ++ c :: b) = (a, c :: b).
Proof.
  induction a as [|x a IH]; intros H; cbn; [by rewrite decide_True|].
  apply not_elem_of_cons in H as [H1 H2]. rewrite decide_False by congruence. by rewrite IH.
Qed.

Lemma span_all c a : (c ∉ a) → span c a = (a, []).
Proof.
  induction a as [|x a IH]; intros H; cbn; [done|].
  apply not_elem_of_cons in H as [H1 H2]. rewrite decide_False by congruence. by rewrite IH.
Qed.

Lemma until_nul_id a : (0 ∉ a) → until_nul a = a.
Proof.
  induction a as [|x a IH]; intros H; cbn; [done|].
  apply not_elem_of_cons in H as [H1 H2]. rewrite decide_False by congruence. by rewrite IH.
Qed.

Lemma store_text_ok sep t : text_ok sep t → store_text t = Ret (Some t).
Proof. intros (_ & _ & _ & H). unfold store_text. by rewrite decide_True by lia. Qed.

(** A pair with the end or a separator behind it. *)
Lemma scan_pair_ok p rest k v :
  pair_ok p → (0 ∉ rest) → (rest = [] ∨ ∃ r, rest = AMP :: r) →
  scan_pair (pair_text p ++ rest) k v = Ret (Some p.1, Some p.2, zlen (pair_text p)).
Proof.
  destruct p as [a b]. intros [Ha Hb] H0 Hrest. cbn [fst snd] in *. pose proof Ha as (Ha1 & Ha2 & Ha3 & _). pose proof Hb as (Hb1 & Hb2 & Hb3 & _).
  unfold scan_pair, pair_text. cbn [fst snd]. rewrite until_nul_id.
  2: { rewrite !not_elem_of_app, list_elem_of_singleton. unfold EQ. naive_solver. }
  rewrite <- !app_assoc. cbn [app]. rewrite span_app by done. rewrite decide_False by done. rewrite (store_text_ok EQ) by done. cbind.
  assert (span AMP (b ++ rest) = (b, rest)) as ->.
  { destruct Hrest as [-> |[r ->]]; [rewrite app_nil_r; by apply span_all|by apply span_app]. }
  rewrite decide_False by done. rewrite (store_text_ok AMP) by done. cbind. do 3 f_equal. rewrite length_app. cbn [length]. lia.
Qed.

Lemma query_chars ps : Forall pair_ok ps → 0 ∉ query_text ps.
Proof.
  assert (∀ p, pair_ok p → 0 ∉ pair_text p) as Hp.
  { intros [a b] [(_ & _ & Ha & _) (_ & _ & Hb & _)]. unfold pair_text. cbn in *.
    rewrite !not_elem_of_app, not_elem_of_cons. unfold EQ. naive_solver. }
  induction 1 as [|p ps H Hs IH]; [by apply not_elem_of_nil|]. destruct ps as [|p' ps]; [by apply Hp|].
  change (0 ∉ pair_text p ++ [AMP] ++ query_text (p' :: ps)). rewrite !not_elem_of_app, list_elem_of_singleton. unfold AMP. naive_solver.
Qed.

Lemma pair_text_pos p : 0 < zlen (pair_text p).
Proof. unfold pair_text. rewrite !length_app. cbn [length]. lia. Qed.

(** The loop from the character before a query. *)
Lemma topic_loop pre ps fuel k v res :
  ps ≠ [] → Forall pair_ok ps → (length ps < fuel)%nat →
  while_fuel fuel (topic_step (pre ++ query_text ps)) (zlen pre - 1, k, v, res) = Ret (res ++ map snd ps).
Proof.
  revert pre fuel k v res. induction ps as [|p ps IH]; intros pre fuel k v res Hne Hok Hf; [done|].
  apply Forall_cons in Hok as [Hp Hok]. destruct fuel as [|fuel]; [lia|].
  assert (∃ rest, query_text (p :: ps) = pair_text p ++ rest ∧ (0 ∉ rest) ∧
    ((rest = [] ∧ ps = []) ∨ (rest = AMP :: query_text ps ∧ ps ≠ []))) as (rest & Hq & H0 & Hrest).
  { destruct ps as [|p' ps].
    - exists []. split; [by rewrite app_nil_r|]. split; [apply not_elem_of_nil|by left].
    - exists (AMP :: query_text (p' :: ps)). split; [done|]. split; [|by right].
      apply not_elem_of_cons. split; [done|by apply query_chars]. }
  rewrite Hq in *. pose proof (pair_text_pos p) as Hpos.
  rewrite (while_fuel_inl _ _ _ (zlen pre + zlen (pair_text p), Some p.1, Some p.2, res ++ [p.2])).
  2: { unfold topic_step. replace (zlen pre - 1 + 1) with (zlen pre) by lia. rewrite decide_True by len.
       rewrite Nat2Z.id, drop_app_length, scan_pair_ok; [done|done|done|]. naive_solver. }
  destruct Hrest as [[-> ->]|[-> Hps]].
  - destruct fuel as [|fuel]; [cbn in Hf; lia|]. rewrite app_nil_r.
    rewrite (while_fuel_inr _ _ _ (res ++ [p.2])); [done|]. unfold topic_step. rewrite decide_False; [done|]. len.
  - specialize (IH (pre ++ pair_text p ++ [AMP]) fuel (Some p.1) (Some p.2) (res ++ [p.2]) Hps Hok ltac:(cbn in Hf; lia)).
    rewrite <- !app_assoc in IH. cbn [app] in IH. cbn [map]. rewrite <- IH. f_equal.
    do 3 f_equal. rewrite !length_app. cbn [length]. lia.
Qed.

Lemma find_question pre r i : (QUESTION ∉ pre) → find_char QUESTION (pre ++ QUESTION :: r) i = Some (i + zlen pre).
Proof.
  revert i. induction pre as [|x pre IH]; intros i H; cbn; [rewrite decide_True by done; f_equal; lia|].
  apply not_elem_of_cons in H as [H1 H2]. rewrite decide_False by congruence. rewrite IH by done. f_equal. lia.
Qed.

Lemma query_length ps : (length ps ≤ length (query_text ps))%nat.
Proof.
  induction ps as [|p ps IH]; [done|]. pose proof (pair_text_pos p). destruct ps as [|p' ps]; [cbn; lia|].
  change (query_text (p :: p' :: ps)) with (pair_text p ++ [AMP] ++ query_text (p' :: ps)). rewrite !length_app. cbn [length] in *. lia.
Qed.

(** ** Properties *)

(** Parsing an address with a query gives the values of the query, in order:
    for every prefix without a question mark and every list of keys and values
    of at most fifteen characters, keys without '=' and values without '&'. *)
Theorem parseTopic_query pre ps :
  (QUESTION ∉ pre) → ps ≠ [] → Forall pair_ok ps →
  parseTopic (pre ++ QUESTION :: query_text ps) = Ret (map snd ps).
Proof.
  intros Hpre Hne Hok. unfold parseTopic. rewrite find_question by done.
  replace (pre ++ QUESTION :: query_text ps) with ((pre ++ [QUESTION]) ++ query_text ps) by (by rewrite <- app_assoc).
  replace (0 + zlen pre) with (zlen (pre ++ [QUESTION]) - 1) by (rewrite length_app; cbn [length]; lia).
  apply topic_loop; [done|done|]. pose proof (query_length ps). rewrite length_app. lia.
Qed.

(** "ws://h?w1=182&w2=184" *)
Lemma parseTopic_query_witness :
  parseTopic ([119; 115; 58; 47; 47; 104] ++ QUESTION :: query_text [([119; 49], [49; 56; 50]); ([119; 50], [49; 56; 52])]) =
    Ret [[49; 56; 50]; [49; 56; 52]].
Proof.
  apply (parseTopic_query [119; 115; 58; 47; 47; 104] [([119; 49], [49; 56; 50]); ([119; 50], [49; 56; 52])]); [by_eval|discriminate|by_eval].
Defined.

(** A value of sixteen characters does not fit with its terminator. *)
Lemma parseTopic_overflow pre k v :
  (QUESTION ∉ pre) → text_ok EQ k → (AMP ∉ v) → (0 ∉ v) → zlen v = BUF → parseTopic (pre ++ QUESTION :: k ++ EQ :: v) = Undef.
Proof.
  intros Hpre Hk Hv H0 Hl. unfold parseTopic. rewrite find_question by done. rewrite while_fuel_S.
  match goal with |- context [topic_step ?u ?x] => assert (topic_step u x = Undef) as ->; [|done] end. unfold topic_step.
  rewrite decide_True by len. replace (pre ++ QUESTION :: k ++ EQ :: v) with ((pre ++ [QUESTION]) ++ k ++ EQ :: v) by (by rewrite <- app_assoc).
  replace (Z.to_nat (0 + zlen pre + 1)) with (length (pre ++ [QUESTION])) by len. rewrite drop_app_length. unfold scan_pair.
  pose proof Hk as (Hk1 & Hk2 & Hk3 & _). rewrite until_nul_id.
  2: { rewrite not_elem_of_app, not_elem_of_cons. unfold EQ. naive_solver. }
  rewrite span_app by done. rewrite decide_False by done. rewrite (store_text_ok EQ) by done. cbind. rewrite span_all by done.
  rewrite decide_False by (intros ->; done). unfold store_text. by rewrite decide_False by (rewrite Hl; lia).
Qed.

(** "?a=1&b=": a value that is missing appends the one before it, and the
    characters after it are taken for further pairs. *)
Lemma parseTopic_repeats : parseTopic [63; 97; 61; 49; 38; 98; 61] = Ret [[49]; [49]; [49]].
Proof. reflexivity. Qed.

(** "?a": nothing was ever stored in the arrays that are printed. *)
Lemma parseTopic_indeterminate : parseTopic [63; 97] = Undef.
Proof. reflexivity. Qed.
