(* ===== verification/WsNotifier.v ===== *)
(** * io/notifier.cpp: the relay and the notifier

    Remote sensors send masked records ([Secure]); the relay's thread unmasks
    them and puts those somebody subscribes to into a pipe; the notifier's
    thread decodes a record ([WeightCodec]) and calls the subscribers of its
    topic ([Topics]).  The subscribers are taken out of the table under a lock,
    called without it, and those that answer true put back under it again;
    other threads register subscribers in between.

    A subscriber's closure is a number; the weak pointer kept with its key has
    expired when the number is in no list any more. *)
From Stdlib Require Import ZArith Lia.
From stdpp Require Import base tactics numbers list gmap sets.
From S2P Require Import Prelude.
From S2P Require Import Topics.
From S2P Require Import WeightCodec.
From S2P Require Import Secure.

Open Scope Z_scope.

(** ** The relay *)
Definition PIPE_LIMIT : Z := 128.

Inductive verdict := KickedOut | NoSubscriber | Relayed | PipeFull.

(** [RemoteReader]'s [handle_message]: [s] is what [recv] has filled the
    connection's buffer with, [pipe] what the notifier has not read yet. *)
Definition handle_message (filter_ : list Z → bool) (s : list Z) (pipe : list Data) : outcome (verdict * list Data) :=
  '(o, _) ← Decrypt s kDataSize;
  match o with
  | None => Ret (KickedOut, pipe)
  | Some bs =>
      let x := data_of bs in
      let topic := RetrieveTopic (b_ x) in
      if filter_ topic then
        if decide (kDataSize * zlen pipe < PIPE_LIMIT) then Ret (Relayed, pipe ++ [x]) else Ret (PipeFull, pipe)
      else Ret (NoSubscriber, pipe)
  end.

(** ** The notifier *)

(** Where the thread is: about to wait, calling the subscribers it has taken
    out, or about to put those that stay back. *)
Inductive npc :=
| Polling
| Publishing (topic payload : list Z) (tasks : list nat)
| PuttingBack (topic : list Z) (valid : list nat).

Record Notifier := MkNotifier {
  subscriber : gmap Z nat;
  manager : gmap (list Z) (list nat);
  made : nat;                                (** closures made so far *)
  thread : npc;
  published : list (list nat * list Z);      (** who was called with what *)
}.

Definition Notifier_new : Notifier := MkNotifier ∅ ∅ 0 Polling [].

(** What the relay's filter answers: whether the list of the topic is empty. *)
Definition has_subscriber (s : Notifier) (topic : list Z) : bool := bool_decide (at_topic topic (manager s) ≠ []).

(** The filter as the relay calls it, without the lock: [manager_[topic]] puts an
    empty list into the table when the topic is not there.  Beside a thread that
    holds the lock it is a data race; [RelaySystem] has the runs. *)
Definition ask (topic : list Z) (s : Notifier) : bool * Notifier :=
  let '(MkNotifier sub m n th pb) := s in
  (has_subscriber s topic, MkNotifier sub (<[topic := at_topic topic m]> m) n th pb).

Definition Register (key : Z) (topics : list (list Z)) (s : Notifier) : Notifier :=
  let '(MkNotifier sub m n th pb) := s in
  match sub !! key with
  | Some _ => s
  | None => MkNotifier (<[key := n]> sub) (subscribe topics n m) (S n) th pb
  end.

(** [lock()] of the weak pointer. *)
Definition alive (m : gmap (list Z) (list nat)) (n : nat) : Prop := n ∈ concat (map snd (map_to_list m)).
#[export] Instance alive_dec m n : Decision (alive m n).
Proof. unfold alive. apply _. Defined.

(** A message under the lock: expired keys are erased and the subscribers of the
    topic swapped out. *)
Definition take_tasks (o : Output) (s : Notifier) : Notifier :=
  let '(MkNotifier sub m n _ pb) := s in
  let sub := filter (λ p : Z * nat, alive m p.2) sub in
  let ref := at_topic (topic o) m in
  MkNotifier sub (<[topic o := []]> m) n (if decide (ref = []) then Polling else Publishing (topic o) (payload o) ref) pb.

(** The calls; [calls] is what the closures answer. *)
Definition call_tasks (t pl : list Z) (tasks : list nat) (calls : nat → bool) (s : Notifier) : Notifier :=
  let '(MkNotifier sub m n _ pb) := s in
  let valid := filter (λ k, calls k = true) tasks in
  MkNotifier sub m n (if decide (valid = []) then Polling else PuttingBack t valid) (pb ++ [(tasks, pl)]).

Definition put_back (t : list Z) (valid : list nat) (s : Notifier) : Notifier :=
  let '(MkNotifier sub m n _ pb) := s in
  MkNotifier sub (<[t := at_topic t m ++ valid]> m) n Polling pb.

(** One step of a thread.  [None]: the notifier's thread is somewhere else. *)
Inductive naction :=
| ARegister (key : Z) (topics : list (list Z))
| AMessage (o : Output)
| ACall (calls : nat → bool)
| APutBack.

Definition nstep (a : naction) (s : Notifier) : option Notifier :=
  match a, thread s with
  | ARegister key topics, _ => Some (Register key topics s)
  | AMessage o, Polling => Some (take_tasks o s)
  | ACall calls, Publishing t pl tasks => Some (call_tasks t pl tasks calls s)
  | APutBack, PuttingBack t valid => Some (put_back t valid s)
  | _, _ => None
  end.

Fixpoint nrun (acts : list naction) (s : Notifier) : option Notifier :=
  match acts with
  | [] => Some s
  | a :: acts => s ← nstep a s; nrun acts s
  end.

(** ** The specification: one list of subscriptions, in which nothing is taken
    out while a message is published *)
Record nspec := MkSpec {
  s_keys : gmap Z nat;
  s_subs : list (list Z * nat);
  s_made : nat;
  s_pending : option (list Z * list Z * list nat);
  s_log : list (list nat * list Z);
}.

Definition nspec_new : nspec := MkSpec ∅ [] 0 None [].

Definition spec_nstep (a : naction) (s : nspec) : nspec :=
  let '(MkSpec ks l n p lg) := s in
  match a with
  | ARegister key topics =>
      match ks !! key with
      | Some _ => s
      | None => MkSpec (<[key := n]> ks) (l ++ map (λ t, (t, n)) topics) (S n) p lg
      end
  | AMessage o =>
      let now := of_topic (topic o) l in
      MkSpec (filter (λ p : Z * nat, p.2 ∈ map snd l) ks) l n
        (if decide (now = []) then None else Some (topic o, payload o, now)) lg
  | ACall calls =>
      match p with
      | Some (t, pl, now) =>
          MkSpec ks (filter (λ x, x.1 = t ∧ x.2 ∈ now → calls x.2 = true) l) n None (lg ++ [(now, pl)])
      | None => s
      end
  | APutBack => s
  end.

(** ** Simulation *)
#[local] Arguments of_topic : simpl never.
#[local] Arguments at_topic : simpl never.
#[local] Arguments subscribe : simpl never.

(** The closures of a topic, wherever they are. *)
Definition held (t : list Z) (s : Notifier) : list nat :=
  at_topic t (manager s) ++
  match thread s with
  | Polling => []
  | Publishing t' _ tasks => if decide (t' = t) then tasks else []
  | PuttingBack t' valid => if decide (t' = t) then valid else []
  end.

Record nsim (s : Notifier) (a : nspec) : Prop := {
  ns_keys : subscriber s = s_keys a;
  ns_made : made s = s_made a;
  ns_subs : ∀ t, held t s ≡ₚ of_topic t (s_subs a);
  ns_fresh : ∀ t n, n ∈ of_topic t (s_subs a) → (n < made s)%nat;
  ns_pending : match thread s with
    | Publishing t pl tasks => ∃ now, s_pending a = Some (t, pl, now) ∧ tasks ≡ₚ now ∧ ∀ n, n ∈ tasks → n ∉ at_topic t (manager s)
    | _ => s_pending a = None
    end;
  ns_log : Forall2 (λ x y, x.1 ≡ₚ y.1 ∧ x.2 = y.2) (published s) (s_log a);
}.

Lemma alive_iff m n : alive m n ↔ ∃ t, n ∈ at_topic t m.
Proof.
  unfold alive. rewrite list_elem_of_In, in_concat. setoid_rewrite <- list_elem_of_In. split.
  - intros (l & ([t l'] & -> & Hl)%list_elem_of_fmap & Hn). exists t. apply elem_of_map_to_list in Hl. unfold at_topic. by rewrite Hl.
  - intros (t & Hn). unfold at_topic in Hn. destruct (m !! t) as [l|] eqn:E; [|by apply not_elem_of_nil in Hn].
    exists l. split; [|done]. apply list_elem_of_fmap. exists (t, l). split; [done|]. by apply elem_of_map_to_list.
Qed.

Lemma of_topic_elem t n (l : list (list Z * nat)) : n ∈ of_topic t l ↔ (t, n) ∈ l.
Proof.
  unfold of_topic. rewrite list_elem_of_fmap. split.
  - intros ([t' n'] & -> & [E H]%list_elem_of_filter). cbn in E. by subst.
  - intros H. exists (t, n). split; [done|]. by apply list_elem_of_filter.
Qed.

(** A closure that is dismissed from a topic by those that were called. *)
Lemma of_topic_call t t' (now : list nat) calls (l : list (list Z * nat)) :
  of_topic t' (filter (λ x, x.1 = t ∧ x.2 ∈ now → calls x.2 = true) l) =
    if decide (t' = t) then filter (λ n, n ∈ now → calls n = true) (of_topic t l) else of_topic t' l.
Proof.
  induction l as [|[a c] l IH]; [by case_decide|]. rewrite filter_cons, !of_topic_cons. cbn [fst snd].
  destruct (decide (a = t ∧ c ∈ now → calls c = true)) as [Hc|Hc]; rewrite ?of_topic_cons, IH.
  - destruct (decide (t' = t)) as [-> |Hne]; [|done]. destruct (decide (a = t)) as [-> |]; [|done].
    by rewrite filter_cons_True by auto.
  - destruct (decide (t' = t)) as [-> |Hne].
    + destruct (decide (a = t)) as [-> |Ha]; [|done]. rewrite filter_cons_False; [done|]. intros H. apply Hc. intros [_ ?]. auto.
    + rewrite decide_False; [done|]. intros ->. apply Hc. intros [? _]. done.
Qed.

Lemma at_subscribe t topics (n : nat) m : at_topic t (subscribe topics n m) = at_topic t m ++ of_topic t (map (λ t, (t, n)) topics).
Proof.
  revert m. unfold subscribe. induction topics as [|x topics IH]; intros m; cbn [foldl map]; [by rewrite app_nil_r|].
  rewrite IH, at_insert, of_topic_cons. destruct (decide (t = x)) as [-> |Hne].
  - rewrite decide_True by done. by rewrite <- app_assoc.
  - by rewrite decide_False by congruence.
Qed.

Lemma of_topic_app t l1 l2 : of_topic (consumer := nat) t (l1 ++ l2) = of_topic t l1 ++ of_topic t l2.
Proof. unfold of_topic. by rewrite filter_app, map_app. Qed.

Lemma of_topic_new t (n : nat) topics k : k ∈ of_topic t (map (λ t, (t, n)) topics) → k = n.
Proof. rewrite of_topic_elem, list_elem_of_fmap. by intros (? & [= _ ->] & _). Qed.

Lemma register_sim key topics s a : nsim s a → nsim (Register key topics s) (spec_nstep (ARegister key topics) a).
Proof.
  destruct s as [sub m n th pb], a as [ks l n' p lg]. intros [Hk Hm Hs Hf Hp Hl]. cbn in Hk, Hm. subst ks n'. cbn [Register spec_nstep].
  destruct (sub !! key) as [?|]; [by constructor|]. cbn in *.
  constructor; cbn; [done|done| | | |done].
  - intros t. unfold held in *. cbn in *. rewrite at_subscribe, of_topic_app, <- Hs. solve_Permutation.
  - intros t k. rewrite of_topic_app, elem_of_app. intros [H%Hf|H%of_topic_new]; lia.
  - destruct th as [|t pl tasks|t valid]; [done| |done]. destruct Hp as (now & E & Hperm & Hd). exists now. split_and!; [done|done|].
    intros k Hkt. rewrite at_subscribe, elem_of_app. intros [?|H%of_topic_new]; [by apply (Hd k)|]. subst k.
    assert (n < n)%nat; [|lia]. apply (Hf t). rewrite <- Hs. unfold held. cbn. rewrite decide_True by done. apply elem_of_app. by right.
Qed.

Lemma message_sim o s a : nsim s a → thread s = Polling → nsim (take_tasks o s) (spec_nstep (AMessage o) a).
Proof.
  destruct s as [sub m n th pb], a as [ks l n' p lg]. intros [Hk Hm Hs Hf Hp Hl] Hth. cbn in Hk, Hm, Hth. subst ks n' th. cbn in *.
  assert (∀ t, at_topic t m ≡ₚ of_topic t l) as Hs'.
  { intros t. rewrite <- Hs. unfold held. cbn. by rewrite app_nil_r. }
  assert (filter (λ p : Z * nat, alive m p.2) sub = filter (λ p : Z * nat, p.2 ∈ map snd l) sub) as Hfl.
  { apply map_filter_ext. intros k i _. cbn. rewrite alive_iff. split.
    - intros (t & H). rewrite Hs', of_topic_elem in H. apply list_elem_of_fmap. by exists (t, i).
    - intros ([t i'] & -> & H)%list_elem_of_fmap. exists t. by rewrite Hs', of_topic_elem. }
  assert ((at_topic (topic o) m = []) ↔ of_topic (topic o) l = []) as Hempty.
  { pose proof (Hs' (topic o)) as H. split; intros E; rewrite E in H; [by apply Permutation_nil in H|by apply symmetry, Permutation_nil in H]. }
  constructor; cbn; [done|done| |done| |done].
  - intros t. unfold held. cbn. rewrite at_insert, <- Hs'. destruct (decide (t = topic o)) as [-> |Hne].
    + case_decide as E; cbn; [by rewrite E|]. by rewrite decide_True.
    + case_decide; cbn; [by rewrite app_nil_r|]. rewrite decide_False by congruence. by rewrite app_nil_r.
  - case_decide as E.
    + by rewrite decide_True by (by apply Hempty).
    + rewrite decide_False by tauto. eexists. split_and!; [done|apply Hs'|]. intros k _. rewrite at_insert, decide_True by done. apply not_elem_of_nil.
Qed.

Lemma call_sim t pl tasks calls s a :
  nsim s a → thread s = Publishing t pl tasks → nsim (call_tasks t pl tasks calls s) (spec_nstep (ACall calls) a).
Proof.
  destruct s as [sub m n th pb], a as [ks l n' p lg]. intros [Hk Hm Hs Hf Hp Hl] Hth. cbn in Hk, Hm, Hth. subst ks n' th. cbn in *.
  destruct Hp as (now & -> & Hperm & Hd). constructor; cbn; [done|done| | | |].
  - intros t'. assert (∀ th, th = (if decide (filter (λ k, calls k = true) tasks = []) then Polling else PuttingBack t (filter (λ k, calls k = true) tasks)) →
      held t' (MkNotifier sub m n th (pb ++ [(tasks, pl)])) = at_topic t' m ++ (if decide (t = t') then filter (λ k, calls k = true) tasks else [])) as Hh.
    { intros th ->. unfold held. cbn. case_decide as E; cbn; [|done]. rewrite E. by case_decide. }
    rewrite (Hh _ eq_refl), of_topic_call. specialize (Hs t'). unfold held in Hs. cbn in Hs.
    destruct (decide (t = t')) as [<- |Hne]; [|by rewrite decide_False by congruence].
    rewrite decide_True by done. rewrite <- Hs, filter_app. apply Permutation_app.
    + rewrite filter_keep; [done|]. intros k Hk Hin. rewrite <- Hperm in Hin. by destruct (Hd k Hin).
    + rewrite (filter_same (λ k, k ∈ now → _) (λ k, calls k = true) tasks); [done|]. intros k Hk. rewrite Hperm in Hk. tauto.
  - intros t' k. rewrite of_topic_call. case_decide as E; [|apply Hf]. subst t'. rewrite list_elem_of_filter. intros [_ H]. by apply (Hf t).
  - by case_decide.
  - apply Forall2_app; [done|]. by repeat constructor.
Qed.

Lemma put_back_sim t valid s a : nsim s a → thread s = PuttingBack t valid → nsim (put_back t valid s) (spec_nstep APutBack a).
Proof.
  destruct s as [sub m n th pb], a as [ks l n' p lg]. intros [Hk Hm Hs Hf Hp Hl] Hth. cbn in Hk, Hm, Hth. subst ks n' th. cbn in *.
  constructor; cbn; try done. intros t'. specialize (Hs t'). unfold held in *. cbn in *. rewrite at_insert, app_nil_r.
  destruct (decide (t' = t)) as [-> |Hne]; [by rewrite decide_True in Hs|]. rewrite decide_False in Hs by congruence. by rewrite app_nil_r in Hs.
Qed.

(** The filter's lookup changes no list. *)
Lemma ask_sim t s a : nsim s a → nsim (ask t s).2 a.
Proof.
  destruct s as [sub m n th pb]. intros [Hk Hm Hs Hf Hp Hl].
  assert (∀ t', at_topic t' (<[t := at_topic t m]> m) = at_topic t' m) as Hat by (intros t'; rewrite at_insert; by case_decide; subst).
  cbn in *. constructor; cbn; try done.
  - intros t'. rewrite <- Hs. unfold held. cbn. by rewrite Hat.
  - destruct th as [|t' pl tasks|]; [done| |done]. destruct Hp as (now & ? & ? & Hd). exists now. split_and!; [done|done|].
    intros k Hk'. rewrite Hat. by apply Hd.
Qed.

Lemma nstep_sim act s s' a : nsim s a → nstep act s = Some s' → nsim s' (spec_nstep act a).
Proof.
  intros Hs E. unfold nstep in E. destruct act as [key topics|o|calls|], (thread s) as [|t pl tasks|t valid] eqn:Hth; simplify_eq;
    first [by apply register_sim|by apply message_sim|by eapply call_sim|by eapply put_back_sim].
Qed.

(** ** Properties *)

Lemma nrun_sim acts s s' a : nsim s a → nrun acts s = Some s' → nsim s' (foldl (λ a act, spec_nstep act a) a acts).
Proof.
  revert s a. induction acts as [|act acts IH]; intros s a Hs E; cbn [nrun foldl] in *; [by simplify_eq|].
  destruct (nstep act s) as [s1|] eqn:E1; [|done]. cbn in E. apply (IH s1); [by eapply nstep_sim|done].
Qed.

Lemma new_sim : nsim Notifier_new nspec_new.
Proof. constructor; cbn; try done. intros t n. by intros ?%not_elem_of_nil. Qed.

(** C11: publishing without the lock loses and duplicates nothing.  In every
    interleaving of registrations with the steps of the notifier's thread, each
    message is delivered to exactly the subscriptions its topic has when it is
    taken, once each; a subscription ends when its closure answers false and in
    no other way, also when it is made while a message of its topic is being
    published; and the keys are those of the registrations, less those that were
    found without a subscription. *)
Theorem notifier_refines acts s :
  nrun acts Notifier_new = Some s →
  let a := foldl (λ a act, spec_nstep act a) nspec_new acts in
  Forall2 (λ x y, x.1 ≡ₚ y.1 ∧ x.2 = y.2) (published s) (s_log a) ∧
  (∀ t, held t s ≡ₚ of_topic t (s_subs a)) ∧ subscriber s = s_keys a.
Proof.
  intros E. destruct (nrun_sim acts Notifier_new s nspec_new new_sim E) as [Hk _ Hs _ _ Hl]. done.
Qed.

(** Two subscribers; a third registers while the first message is published, of
    which the second subscriber is dismissed. *)
Definition sample_acts : list naction :=
  [ARegister 1 [[49]]; ARegister 2 [[49]; [50]]; AMessage (MkOutput [7] [49]); ARegister 3 [[49]]; ACall (λ n, bool_decide (n ≠ 1%nat)); APutBack;
   AMessage (MkOutput [8] [49]); ACall (λ _, true); APutBack].

Lemma notifier_refines_witness :
  let a := foldl (λ a act, spec_nstep act a) nspec_new sample_acts in
  s_log a = [([0%nat; 1%nat], [7]); ([0%nat; 2%nat], [8])] ∧
  ∃ s, Forall2 (λ x y, x.1 ≡ₚ y.1 ∧ x.2 = y.2) (published s) (s_log a).
Proof.
  split; [vm_compute; reflexivity|].
  exists (default Notifier_new (nrun sample_acts Notifier_new)).
  apply (notifier_refines sample_acts (default Notifier_new (nrun sample_acts Notifier_new))). vm_compute. reflexivity.
Defined.

(** ** From the sensor to the subscriber *)
Lemma encode_ok i : input_ok i → data_ok (Encode i).
Proof.
  intros Hi. pose proof (Encode_sum i Hi) as E. destruct Hi as (He & Hip & Hw & Hb & Hs). unfold is_byte in *. split.
  - change (a_ (Encode i)) with (serial i). eval_pow. lia.
  - rewrite E. eval_pow. lia.
Qed.

(** A reading reaches its subscribers.  A reading that is encoded and
    masked, with any random byte, is accepted by the relay, which puts it into
    the pipe when there is room and somebody subscribes to its topic; decoded by
    the notifier it is handed, as text, to every subscriber of the topic, in
    order and once each. *)
Theorem reading_reaches_subscribers i entropy mask entropy' pipe s buf ibuf calls :
  input_ok i → zlen (shown i) ≤ 63 → length buf = 64%nat → length ibuf = 16%nat →
  Fetch 1 entropy = Ret ([mask], entropy') → kDataSize * zlen pipe < PIPE_LIMIT →
  thread s = Polling → at_topic (fmt_u (ip i)) (manager s) ≠ [] →
  ∃ str o s', Encrypt (data_bytes (Encode i)) kDataSize entropy = Ret (str, entropy') ∧
    handle_message (has_subscriber s) str pipe = Ret (Relayed, pipe ++ [Encode i]) ∧
    Decode buf ibuf (Encode i) = Ret o ∧ nrun [AMessage o; ACall calls] s = Some s' ∧
    published s' = published s ++ [(at_topic (fmt_u (ip i)) (manager s), shown i)].
Proof.
  intros Hi Hsh Hbuf Hib HF Hpipe Hth Hsub. pose proof (encode_ok i Hi) as Hd. pose proof (data_bytes_length (Encode i)) as Hl.
  pose proof (encrypt_spec _ _ mask entropy' Hl HF) as HE. eexists. exists (MkOutput (shown i) (fmt_u (ip i))).
  exists (call_tasks (fmt_u (ip i)) (shown i) (at_topic (fmt_u (ip i)) (manager s)) calls (take_tasks (MkOutput (shown i) (fmt_u (ip i))) s)).
  split; [exact HE|]. split; [|split; [|split]].
  - unfold handle_message.
    assert (zlen (SECRET ++ [mask] ++ data_bytes (Encode i)) = kDataLen) as Hp by (rewrite !length_app; cbn [length SECRET]; unfold kDataLen; lia).
    destruct (decrypt_spec _ (masked_length mask _ Hp)) as (mask' & E' & ->). rewrite masked_key in E' by done.
    change (load (SECRET ++ [mask] ++ data_bytes (Encode i)) SECRET_LEN) with (Ret mask) in E'. injection E' as <-.
    rewrite masked_twice by done. cbind. change (drop 4 (SECRET ++ [mask] ++ data_bytes (Encode i))) with (data_bytes (Encode i)).
    rewrite decide_True by done. rewrite data_of_bytes by done. destruct (Encode_fields i Hi) as (_ & Et & _). unfold RetrieveTopic. rewrite Et.
    unfold has_subscriber. rewrite bool_decide_true by done. by rewrite decide_True.
  - rewrite Decode_shown by done. by rewrite decide_True.
  - cbn [nrun]. assert (nstep (AMessage (MkOutput (shown i) (fmt_u (ip i)))) s = Some (take_tasks (MkOutput (shown i) (fmt_u (ip i))) s)) as ->
      by (unfold nstep; by rewrite Hth). cbn [mbind option_bind]. unfold nstep.
    assert (thread (take_tasks (MkOutput (shown i) (fmt_u (ip i))) s) =
      Publishing (fmt_u (ip i)) (shown i) (at_topic (fmt_u (ip i)) (manager s))) as ->; [|done].
    destruct s as [sub m n th pb]. cbn [take_tasks topic payload thread manager] in *. by rewrite decide_False.
  - by destruct s.
Qed.

Lemma reading_reaches_subscribers_witness :
  let i := MkInput 0 182 300 0 9 in let s := Register 5 [[49; 56; 50]] Notifier_new in
  ∃ str o s', Encrypt (data_bytes (Encode i)) kDataSize (RandomReader (replicate 1024 0) [replicate 1024 211]) =
      Ret (str, MkReader 1 (replicate 1024 211) []) ∧
    handle_message (has_subscriber s) str [] = Ret (Relayed, [Encode i]) ∧
    Decode (replicate 64 0) (replicate 16 0) (Encode i) = Ret o ∧ nrun [AMessage o; ACall (λ _, true)] s = Some s' ∧
    published s' = [([0%nat], shown i)].
Proof.
  apply (reading_reaches_subscribers (MkInput 0 182 300 0 9) (RandomReader (replicate 1024 0) [replicate 1024 211]) 211
    (MkReader 1 (replicate 1024 211) []) [] (Register 5 [[49; 56; 50]] Notifier_new) (replicate 64 0) (replicate 16 0) (λ _, true)).
  - unfold input_ok, is_byte. cbn. lia.
  - by_eval.
  - reflexivity.
  - reflexivity.
  - vm_compute. reflexivity.
  - by_eval.
  - reflexivity.
  - vm_compute. discriminate.
Defined.

(** The relay on every input: nothing is read outside the buffer, a stranger is
    kicked out, and the pipe never holds more than eleven records. *)
Lemma relay_bounded filter_ s pipe :
  zlen pipe ≤ 11 → ∃ v pipe', handle_message filter_ s pipe = Ret (v, pipe') ∧ zlen pipe' ≤ 11 ∧
    (v = Relayed ∨ pipe' = pipe).
Proof.
  intros Hp. unfold handle_message. destruct (decide (zlen s = kDataLen)) as [Hl|Hl].
  - destruct (decrypt_spec s Hl) as (mask & _ & ->). cbind. case_decide; [|eauto 10]. destruct (filter_ _); [|eauto 10].
    case_decide as Hr; [|eauto 10]. eexists _, _. split; [done|]. split; [|by left]. unfold kDataSize, PIPE_LIMIT in Hr. len.
  - unfold Decrypt. rewrite decide_False by done. cbind. eauto 10.
Qed.

(** ** What the locking leaves open *)

(** While a message is published the topic's list is empty: the relay, which
    asks without the lock, drops the next message although it has a subscriber. *)
Lemma filter_drops_while_publishing :
  (s ← nrun [ARegister 1 [[49]]; AMessage (MkOutput [7] [49])] Notifier_new; Some (has_subscriber s [49], held [49] s)) = Some (false, [0%nat]).
Proof. vm_compute. reflexivity. Qed.

(** A subscriber that was dismissed registers again before the next message: its
    old key is still there and the registration is ignored. *)
Lemma reregistration_ignored :
  (s ← nrun [ARegister 1 [[49]]; AMessage (MkOutput [7] [49]); ACall (λ _, false); ARegister 1 [[49]]] Notifier_new;
   Some (subscriber s !! 1, held [49] s)) = Some (Some 0%nat, []).
Proof. vm_compute. reflexivity. Qed.
