(* ===== verification/Bins.v ===== *)
(** * trivial/bitmap.cpp: the bins of a heap

    [bit2idx] and [computeTreeIndex], each in the form with a bit-scan
    instruction and in the portable one.  [bsf] and [bsr] give the lowest and
    the highest set bit of their operand; sizes are 64-bit, the arithmetic of the
    portable forms is 32-bit with its wrap-around. *)
From Stdlib Require Import ZArith Lia.
From stdpp Require Import base tactics numbers list.
From S2P Require Import Prelude.

Open Scope Z_scope.

Definition TREEBIN_SHIFT : Z := 8.
Definition NTREEBINS : Z := 32.

(** The instructions, on an operand that is not zero. *)
Fixpoint lowest (p : positive) : Z := match p with xO p => 1 + lowest p | _ => 0 end.
Definition bsfl (x : Z) : Z := match x with Zpos p => lowest p | _ => 0 end.
Definition bsrl (x : Z) : Z := Z.log2 x.

Definition bit2idx (x : Z) : Z := bsfl x.

Definition bit2idx_portable (x : Z) : Z :=
  let x := u32 (x - 1) in
  let x := u32 (x - Z.land (Z.shiftr x 1) 0x55555555) in
  let x := u32 (Z.land (Z.shiftr x 2) 0x33333333 + Z.land x 0x33333333) in
  let x := Z.land (u32 (Z.shiftr x 4 + x)) 0x0f0f0f0f in
  let x := u32 (x + Z.shiftr x 8) in
  let x := u32 (x + Z.shiftr x 16) in
  Z.land x 0x3f.

(** The bin from the power of two and the bit below it. *)
Definition bin_of (k size : Z) : Z := u32 (Z.shiftl k 1 + Z.land (Z.shiftr size (k + (TREEBIN_SHIFT - 1))) 1).

Definition computeTreeIndex (size : Z) : Z :=
  let x := Z.shiftr size TREEBIN_SHIFT in
  if decide (x = 0) then 0
  else if decide (x > 0xFFFF) then NTREEBINS - 1
  else bin_of (bsrl x) size.

(** The search for the highest bit by shifts: [y], [n] and [k] as they change. *)
Definition portable_k (x : Z) : Z :=
  let y := u32 x in
  let n := Z.land (Z.shiftr (u32 (y - 0x100)) 16) 8 in
  let y := u32 (Z.shiftl y n) in
  let k := Z.land (Z.shiftr (u32 (y - 0x1000)) 16) 4 in
  let n := u32 (n + k) in
  let y := u32 (Z.shiftl y k) in
  let k := Z.land (Z.shiftr (u32 (y - 0x4000)) 16) 2 in
  let n := u32 (n + k) in
  let y := u32 (Z.shiftl y k) in
  u32 (14 - n + Z.shiftr y 15).

Definition computeTreeIndex_portable (size : Z) : Z :=
  let x := Z.shiftr size TREEBIN_SHIFT in
  if decide (x = 0) then 0
  else if decide (x > 0xFFFF) then NTREEBINS - 1
  else bin_of (portable_k x) size.

(** ** One bit *)
Lemma lowest_pow k : bsfl (2 ^ Z.of_nat k) = Z.of_nat k.
Proof.
  induction k as [|k IH]; [done|]. rewrite Nat2Z.inj_succ, Z.pow_succ_r by lia.
  destruct (2 ^ Z.of_nat k) as [|p|p] eqn:E; [lia| |lia].
  change (2 * Z.pos p) with (Z.pos p~0). unfold bsfl in *. cbn [lowest]. lia.
Qed.

(** For a word with one bit set the two forms give its index. *)
Lemma bit2idx_agree k : 0 ≤ k < 32 → bit2idx (2 ^ k) = k ∧ bit2idx_portable (2 ^ k) = k.
Proof.
  intros Hk. split; [rewrite <- (Z2Nat.id k) by lia; apply lowest_pow|].
  assert (Forall (λ k, bit2idx_portable (2 ^ k) = k) (map Z.of_nat (seq 0 32))) as H by by_eval.
  rewrite Forall_forall in H. apply H. apply list_elem_of_fmap. exists (Z.to_nat k). split; [lia|]. apply elem_of_seq. lia.
Qed.

(** With two bits set, as the program calls it, they differ. *)
Lemma bit2idx_two_bits : bit2idx 24 = 3 ∧ bit2idx_portable 24 = 4.
Proof. by_eval. Qed.

(** ** The bins *)

(** A stage of the search: the shift is made when the value is below the bound. *)
Lemma stage y m : 1 ≤ y < 65536 → m = 8 ∨ m = 4 ∨ m = 2 →
  Z.land (Z.shiftr (u32 (y - 2 ^ (16 - m))) 16) m = if decide (y < 2 ^ (16 - m)) then m else 0.
Proof.
  intros Hy Hm. assert (0 < 2 ^ (16 - m) ≤ 65536) as Hc by (destruct Hm as [-> |[-> | ->]]; by_eval).
  rewrite Z.shiftr_div_pow2 by lia. change (2 ^ 16) with 65536. unfold u32. case_decide.
  - assert ((y - 2 ^ (16 - m)) mod 4294967296 / 65536 = 65535) as -> by mlia. by destruct Hm as [-> |[-> | ->]].
  - assert ((y - 2 ^ (16 - m)) mod 4294967296 / 65536 = 0) as -> by mlia. done.
Qed.

Lemma stage_shift y m : 1 ≤ y < 65536 → m = 8 ∨ m = 4 ∨ m = 2 →
  let k := if decide (y < 2 ^ (16 - m)) then m else 0 in
  u32 (Z.shiftl y k) = y * 2 ^ k ∧ y * 2 ^ k < 65536 ∧ (2 ^ (16 - 2 * m) ≤ y → 2 ^ (16 - m) ≤ y * 2 ^ k).
Proof.
  intros Hy Hm k. rewrite Z.shiftl_mul_pow2 by (unfold k; case_decide; lia).
  assert (y * 2 ^ k < 65536 ∧ 1 ≤ y * 2 ^ k ∧ (2 ^ (16 - 2 * m) ≤ y → 2 ^ (16 - m) ≤ y * 2 ^ k)) as (H1 & H2 & H3).
  { unfold k. destruct Hm as [-> |[-> | ->]]; case_decide as Hd; cbn in Hd |- *; lia. }
  split; [|done]. apply u32_small. lia.
Qed.

Lemma portable_k_log x : 1 ≤ x ≤ 65535 → portable_k x = Z.log2 x.
Proof.
  intros Hx. unfold portable_k. rewrite (u32_small x) by lia.
  change 0x100 with (2 ^ (16 - 8)). change 0x1000 with (2 ^ (16 - 4)). change 0x4000 with (2 ^ (16 - 2)).
  rewrite (stage x 8) by lia. set (n1 := if decide (x < 2 ^ (16 - 8)) then 8 else 0).
  destruct (stage_shift x 8) as (E1 & Hy1 & Hl1); [lia|lia|]. fold n1 in E1, Hy1, Hl1. rewrite E1. set (y1 := x * 2 ^ n1) in *.
  assert (256 ≤ y1) as P1 by (apply Hl1; cbn; lia).
  rewrite (stage y1 4) by lia. set (n2 := if decide (y1 < 2 ^ (16 - 4)) then 4 else 0).
  destruct (stage_shift y1 4) as (E2 & Hy2 & Hl2); [lia|lia|]. fold n2 in E2, Hy2, Hl2. rewrite E2. set (y2 := y1 * 2 ^ n2) in *.
  assert (4096 ≤ y2) as P2 by (apply Hl2; cbn; lia).
  rewrite (stage y2 2) by lia. set (n3 := if decide (y2 < 2 ^ (16 - 2)) then 2 else 0).
  destruct (stage_shift y2 2) as (E3 & Hy3 & Hl3); [lia|lia|]. fold n3 in E3, Hy3, Hl3. rewrite E3. set (y3 := y2 * 2 ^ n3) in *.
  assert (16384 ≤ y3) as P3 by (apply Hl3; cbn; lia).
  assert (0 ≤ n1 ≤ 8 ∧ 0 ≤ n2 ≤ 4 ∧ 0 ≤ n3 ≤ 2) as (B1 & B2 & B3) by (unfold n1, n2, n3; repeat case_decide; lia).
  assert (Z.log2 y3 = Z.log2 x + n1 + n2 + n3) as Hlog.
  { unfold y3, y2, y1. rewrite !Z.log2_mul_pow2 by lia. lia. }
  assert (Z.shiftr y3 15 = Z.log2 y3 - 14) as ->.
  { rewrite Z.shiftr_div_pow2 by lia. change (2 ^ 15) with 32768. destruct (decide (y3 < 32768)).
    - rewrite Z.div_small by lia. rewrite (Z.log2_unique y3 14) by (cbn; lia). done.
    - rewrite (Z.log2_unique y3 15) by (cbn; lia). symmetry. apply (Z.div_unique _ _ _ (y3 - 32768)); lia. }
  rewrite (u32_small (n1 + n2)), (u32_small (n1 + n2 + n3)) by lia. pose proof (Z.log2_nonneg x).
  rewrite u32_small; [lia|]. assert (Z.log2 x < 16) by (apply Z.log2_lt_pow2; lia). lia.
Qed.

Lemma shiftr_small size : 0 ≤ size → Z.shiftr size TREEBIN_SHIFT ≠ 0 → ¬ Z.shiftr size TREEBIN_SHIFT > 0xFFFF →
  1 ≤ Z.shiftr size TREEBIN_SHIFT ≤ 65535.
Proof. intros H1 H2 H3. pose proof (proj2 (Z.shiftr_nonneg size TREEBIN_SHIFT) H1). lia. Qed.

(** The bin of a size between [2 ^ (k + 8)] and the next power of two: the
    interval is halved. *)
Lemma bin_value k size : 0 ≤ k ≤ 15 → 2 ^ (k + 8) ≤ size < 2 ^ (k + 9) →
  bin_of k size = 2 * k + (if decide (size < 2 ^ (k + 8) + 2 ^ (k + 7)) then 0 else 1).
Proof.
  intros Hk Hs. unfold bin_of, TREEBIN_SHIFT. replace (k + (8 - 1)) with (k + 7) by lia.
  rewrite Z.shiftr_div_pow2, Z.shiftl_mul_pow2 by lia. change 1 with (Z.ones 1) at 2. rewrite Z.land_ones by lia. change (2 ^ 1) with 2.
  assert (2 ^ (k + 8) = 2 * 2 ^ (k + 7)) as E8 by (rewrite <- Z.pow_succ_r by lia; f_equal; lia).
  assert (2 ^ (k + 9) = 4 * 2 ^ (k + 7)) as E9 by (change 4 with (2 ^ 2); rewrite <- Z.pow_add_r by lia; f_equal; lia).
  assert (0 < 2 ^ (k + 7)) as Hpos by (apply Z.pow_pos_nonneg; lia). set (p := 2 ^ (k + 7)) in *.
  assert (size / p = if decide (size < 2 ^ (k + 8) + p) then 2 else 3) as ->.
  { case_decide; symmetry; [apply (Z.div_unique _ _ _ (size - p * 2))|apply (Z.div_unique _ _ _ (size - p * 3))]; lia. }
  change (2 ^ 1) with 2. case_decide; [change (2 mod 2) with 0|change (3 mod 2) with 1]; rewrite u32_small; lia.
Qed.

Lemma tree_index_value size : 256 ≤ size < 2 ^ 24 →
  computeTreeIndex size = bin_of (Z.log2 size - 8) size ∧ 0 ≤ Z.log2 size - 8 ≤ 15 ∧
  2 ^ (Z.log2 size - 8 + 8) ≤ size < 2 ^ (Z.log2 size - 8 + 9).
Proof.
  intros Hs. pose proof (Z.log2_spec size ltac:(lia)) as Hl.
  assert (8 ≤ Z.log2 size) by (apply (Z.log2_le_mono 256); lia).
  assert (Z.log2 size < 24) by (apply Z.log2_lt_pow2; lia).
  replace (Z.log2 size - 8 + 8) with (Z.log2 size) by lia. replace (Z.log2 size - 8 + 9) with (Z.succ (Z.log2 size)) by lia.
  split; [|lia]. unfold computeTreeIndex, bsrl, TREEBIN_SHIFT.
  assert (Z.log2 (Z.shiftr size 8) = Z.log2 size - 8) as -> by (rewrite Z.log2_shiftr by lia; lia).
  rewrite Z.shiftr_div_pow2 by lia. rewrite !decide_False; [done|..].
  - change (2 ^ 8) with 256. assert (size / 256 < 65536) by (apply Z.div_lt_upper_bound; lia). lia.
  - change (2 ^ 8) with 256. assert (1 ≤ size / 256) by (apply Z.div_le_lower_bound; lia). lia.
Qed.

(** ** Properties *)

(** The two forms of the bin computation agree on every size. *)
Theorem tree_index_agree size : 0 ≤ size < 2 ^ 64 → computeTreeIndex size = computeTreeIndex_portable size.
Proof.
  intros Hs. unfold computeTreeIndex, computeTreeIndex_portable. case_decide; [done|]. case_decide; [done|].
  unfold bsrl. rewrite portable_k_log; [done|]. apply shiftr_small; [lia|done|done].
Qed.

Lemma tree_index_agree_witness : computeTreeIndex 1000 = computeTreeIndex_portable 1000.
Proof. apply (tree_index_agree 1000). lia. Defined.

Lemma tree_index_small size : 0 ≤ size < 256 → computeTreeIndex size = 0.
Proof.
  intros Hs. unfold computeTreeIndex, TREEBIN_SHIFT. rewrite Z.shiftr_div_pow2 by lia. change (2 ^ 8) with 256. by rewrite Z.div_small, decide_True.
Qed.

Lemma tree_index_large size : 2 ^ 24 ≤ size → computeTreeIndex size = 31.
Proof.
  intros Hs. unfold computeTreeIndex, TREEBIN_SHIFT, NTREEBINS. rewrite Z.shiftr_div_pow2 by lia. change (2 ^ 8) with 256.
  assert (65536 ≤ size / 256) by (apply Z.div_le_lower_bound; lia). rewrite decide_False, decide_True by lia. done.
Qed.

(** Bins are in range and grow with the size, so that a larger chunk is never in
    an earlier bin. *)
Theorem tree_index_monotone a b :
  0 ≤ a ≤ b → 0 ≤ computeTreeIndex a ≤ computeTreeIndex b ∧ computeTreeIndex b < NTREEBINS.
Proof.
  intros Hab. assert (∀ s, 0 ≤ s → 0 ≤ computeTreeIndex s < 32) as Hrange.
  { intros s Hs. destruct (decide (s < 256)); [rewrite tree_index_small; lia|].
    destruct (decide (2 ^ 24 ≤ s)); [rewrite tree_index_large; lia|].
    destruct (tree_index_value s ltac:(lia)) as (-> & Hk & Hb). rewrite bin_value by lia. case_decide; lia. }
  pose proof (Hrange a ltac:(lia)). pose proof (Hrange b ltac:(lia)). unfold NTREEBINS. split; [|lia]. split; [lia|].
  destruct (decide (a < 256)); [rewrite tree_index_small; lia|]. destruct (decide (2 ^ 24 ≤ b)); [rewrite (tree_index_large b); lia|].
  destruct (tree_index_value a ltac:(lia)) as (-> & Hka & Ha). destruct (tree_index_value b ltac:(lia)) as (-> & Hkb & Hb).
  pose proof (Z.log2_le_mono a b ltac:(lia)) as Hl. rewrite !bin_value by lia.
  destruct (decide (Z.log2 a = Z.log2 b)) as [<- |Hne]; repeat case_decide; lia.
Qed.
