(* ===== verification/StringBuilder.v ===== *)
(** * trivial/StringBuilder.cpp and trivial/counter.cpp

    A builder keeps the pieces it was given and their total length; a counter
    keeps four longs, the last one counted first.  A string is the list of its
    characters, a [long] a [Z] whose overflow is undefined. *)
From Stdlib Require Import ZArith Lia.
From stdpp Require Import base tactics numbers list.
From S2P Require Import Prelude.

Open Scope Z_scope.

(** ** [StringBuilder] *)
Record StringBuilder := MkBuilder { data_ : list (list Z); total_ : Z }.

Definition StringBuilder_new : StringBuilder := MkBuilder [] 0.

Definition Append (s : list Z) (b : StringBuilder) : StringBuilder := MkBuilder (data_ b ++ [s]) (total_ b + zlen s).

Definition Add (ss : list (list Z)) (b : StringBuilder) : StringBuilder := foldl (λ b s, Append s b) b ss.

Definition newLine : list Z := [10].

Definition AppendLine0 (b : StringBuilder) : StringBuilder := MkBuilder (data_ b ++ [newLine]) (total_ b + 1).

Definition AppendLine (s : list Z) (b : StringBuilder) : StringBuilder := AppendLine0 (Append s b).

Definition ToString (b : StringBuilder) : list Z := foldl (λ res s, res ++ s) [] (data_ b).

(** [joiner], and [Join]: [reserved] is what it reserves. *)
Definition joiner (d lhs rhs : list Z) : list Z := (lhs ++ d) ++ rhs.

Definition Join (d : list Z) (b : StringBuilder) : list Z :=
  if decide (d = []) then ToString b
  else match data_ b with
       | [] => []
       | s :: ss => foldl (joiner d) ([] ++ s) ss
       end.

Definition reserved (d : list Z) (b : StringBuilder) : Z := zlen d * (zlen (data_ b) - 1) + total_ b + 1.

Inductive bop := BAppend (s : list Z) | BAdd (ss : list (list Z)) | BLine | BAppendLine (s : list Z).

Definition bstep (b : StringBuilder) (o : bop) : StringBuilder :=
  match o with
  | BAppend s => Append s b
  | BAdd ss => Add ss b
  | BLine => AppendLine0 b
  | BAppendLine s => AppendLine s b
  end.

(** The pieces in order, and text between pieces. *)
Definition pieces (o : bop) : list (list Z) :=
  match o with BAppend s => [s] | BAdd ss => ss | BLine => [newLine] | BAppendLine s => [s; newLine] end.

Fixpoint separated (d : list Z) (ss : list (list Z)) : list Z :=
  match ss with
  | [] => []
  | [s] => s
  | s :: ss => s ++ d ++ separated d ss
  end.

Definition builds (b : StringBuilder) (ss : list (list Z)) : Prop := data_ b = ss ∧ total_ b = zlen (concat ss).

Lemma append_builds s b ss : builds b ss → builds (Append s b) (ss ++ [s]).
Proof. intros [H1 H2]. split; cbn; [by rewrite H1|]. rewrite concat_app, length_app, H2. cbn. rewrite app_nil_r. lia. Qed.

Lemma add_builds ss' b ss : builds b ss → builds (Add ss' b) (ss ++ ss').
Proof.
  revert b ss. unfold Add. induction ss' as [|s ss' IH]; intros b ss H; cbn [foldl]; [by rewrite app_nil_r|].
  replace (ss ++ s :: ss') with ((ss ++ [s]) ++ ss') by (by rewrite <- app_assoc). by apply IH, append_builds.
Qed.

Lemma bstep_builds b o ss : builds b ss → builds (bstep b o) (ss ++ pieces o).
Proof.
  intros H. destruct o as [s|ss'| |s]; cbn [bstep pieces]; [by apply append_builds|by apply add_builds|by apply append_builds|].
  replace (ss ++ [s; newLine]) with ((ss ++ [s]) ++ [newLine]) by (by rewrite <- app_assoc). by apply append_builds, append_builds.
Qed.

Lemma foldl_concat res ss : foldl (λ res s : list Z, res ++ s) res ss = res ++ concat ss.
Proof. revert res. induction ss as [|s ss IH]; intros res; cbn; [by rewrite app_nil_r|]. by rewrite IH, <- app_assoc. Qed.

Lemma foldl_joiner d s ss : foldl (joiner d) s ss = separated d (s :: ss).
Proof.
  revert s. induction ss as [|x ss IH]; intros s; [done|]. cbn [foldl]. rewrite IH. unfold joiner.
  destruct ss; cbn; by rewrite <- !app_assoc.
Qed.

Lemma separated_length d s ss : zlen (separated d (s :: ss)) = zlen d * zlen ss + zlen (concat (s :: ss)).
Proof.
  revert s. induction ss as [|x ss IH]; intros s.
  - cbn [separated concat length]. rewrite app_nil_r. lia.
  - change (separated d (s :: x :: ss)) with (s ++ d ++ separated d (x :: ss)). rewrite !length_app, !Nat2Z.inj_add, IH.
    cbn [concat length]. rewrite !length_app. cbn [concat]. lia.
Qed.

(** After any calls the text is the concatenation of the pieces, the total is
    its length, the joined text is the pieces with the delimiter between them,
    and both fit into what was reserved for them. *)
Theorem builder_correct ops d :
  let b := foldl bstep StringBuilder_new ops in let ss := concat (map pieces ops) in
  ToString b = concat ss ∧ total_ b = zlen (ToString b) ∧
  Join d b = separated d ss ∧ (ss ≠ [] → zlen (Join d b) < reserved d b).
Proof.
  assert (∀ b ss, builds b ss → builds (foldl bstep b ops) (ss ++ concat (map pieces ops))) as H.
  { clear d. induction ops as [|o ops IH]; intros b ss Hb; cbn [foldl map concat]; [by rewrite app_nil_r|].
    rewrite app_assoc. by apply IH, bstep_builds. }
  intros b ss. destruct (H StringBuilder_new []) as [H1 H2]; [done|]. change ([] ++ concat (map pieces ops)) with ss in H1, H2. fold b in H1, H2. clear H. clearbody b ss.
  assert (ToString b = concat ss) as Ht by (unfold ToString; by rewrite H1, foldl_concat).
  assert (Join d b = separated d ss) as Hj.
  { unfold Join. case_decide as Hd.
    - subst d. rewrite Ht. clear. induction ss as [|s ss IH]; [done|]. destruct ss as [|s' ss]; [cbn; by rewrite app_nil_r|].
      change (separated [] (s :: s' :: ss)) with (s ++ [] ++ separated [] (s' :: ss)). cbn [concat app] in *. by rewrite IH.
    - rewrite H1. destruct ss as [|s ss']; [done|]. apply foldl_joiner. }
  rewrite Ht, H2. split_and!; [done|done|done|]. intros Hne. rewrite Hj. unfold reserved. rewrite H1, H2.
  destruct ss as [|s ss']; [done|]. rewrite separated_length. cbn [length]. lia.
Qed.

Lemma builder_correct_witness :
  zlen (Join [44] (foldl bstep StringBuilder_new [BAppend [72; 105]; BAppendLine [33]])) <
  reserved [44] (foldl bstep StringBuilder_new [BAppend [72; 105]; BAppendLine [33]]).
Proof. apply (builder_correct [BAppend [72; 105]; BAppendLine [33]] [44]). discriminate. Defined.

(** ** [Counter] *)
Definition LONGMAX : Z := 0x7fffffffffffffff.
Definition LONGMIN : Z := - 0x8000000000000000.

Definition long_result (z : Z) : outcome Z := if decide (LONGMIN ≤ z ≤ LONGMAX) then Ret z else Undef.

(** [++a[i]] and [--a[i]] with the carry to the left: [++a[--i]] and, unless that
    was the first, the same again from there. *)
Definition bump (v i : Z) (a : list Z) : outcome (list Z) :=
  x ← load a i; y ← long_result (x + v); store a i y.

Fixpoint carry (fuel : nat) (v i : Z) (a : list Z) : outcome (list Z) :=
  match fuel with
  | O => NoFuel
  | S fuel =>
      a ← bump v i a;
      x ← load a i;
      if decide (x = 0) then
        a ← bump v (i - 1) a;
        if decide (i - 1 ≠ 0) then carry fuel v (i - 1) a else Ret a
      else Ret a
  end.

Definition AddOne (i : Z) (a : list Z) : outcome (list Z) := carry 4 1 i a.
Definition SubOne (i : Z) (a : list Z) : outcome (list Z) := carry 4 (-1) i a.

Definition increment (a : list Z) : outcome (list Z) := AddOne 3 a.
Definition decrement (a : list Z) : outcome (list Z) := SubOne 3 a.

Definition add_assign (v : Z) (a : list Z) : outcome (list Z) :=
  v0 ← load a 3;
  s ← long_result (v0 + v);
  a ← store a 3 s;
  if decide (v0 > 0 ∧ v > 0) then
    if decide (v0 > s ∧ v > s) then
      a ← store a 3 (Z.land s LONGMAX); AddOne 2 a
    else Ret a
  else if decide (v0 < 0 ∧ v < 0) then
    if decide (s > v0 ∧ s > v) then SubOne 2 a else Ret a
  else Ret a.

(** The program: two increments and a large addition on the first counter. *)
Definition counter_main : outcome (list Z) :=
  a ← increment [0; 0; 0; 0];
  a ← increment a;
  a ← increment a;
  add_assign LONGMAX a.

(** Within the range of the last [long] the counter counts. *)
Lemma counter_counts a b c x v :
  0 ≤ x → 0 < v → x + v ≤ LONGMAX →
  increment [a; b; c; x] = Ret [a; b; c; x + 1] ∧ add_assign v [a; b; c; x] = Ret [a; b; c; x + v].
Proof.
  intros Hx Hv Hs. unfold LONGMAX in *. split.
  - unfold increment, AddOne. cbn [carry]. unfold bump. change (load [a; b; c; x] 3) with (Ret x). cbind.
    unfold long_result, LONGMIN, LONGMAX. rewrite decide_True by lia. cbind. change (store [a; b; c; x] 3 (x + 1)) with (Ret [a; b; c; x + 1]). cbind.
    change (load [a; b; c; x + 1] 3) with (Ret (x + 1)). cbind. by rewrite decide_False by lia.
  - unfold add_assign. change (load [a; b; c; x] 3) with (Ret x). cbind. unfold long_result, LONGMIN, LONGMAX. rewrite decide_True by lia. cbind.
    change (store [a; b; c; x] 3 (x + v)) with (Ret [a; b; c; x + v]). cbind.
    destruct (decide (x > 0 ∧ v > 0)); [by rewrite decide_False by lia|]. by rewrite decide_False by lia.
Qed.

(** The tests for an overflow come after it: the addition of the program itself
    overflows. *)
Lemma counter_main_undefined : counter_main = Undef.
Proof. reflexivity. Qed.

(** A carry is made twice, by the increment of the digit to the left and by the
    call that follows it.  Counting down from one borrows, twice, although
    nothing is owed; counting down from zero does not. *)
Lemma counter_carries_twice :
  increment [0; 0; 0; -1] = Ret [0; 0; 2; 0] ∧ decrement [0; 0; 0; 1] = Ret [0; 0; -2; 0] ∧ decrement [0; 0; 5; 0] = Ret [0; 0; 5; -1].
Proof. split_and!; reflexivity. Qed.
