(* ===== verification/Reconnect.v ===== *)
(** * socket/collector.cpp and collector.h: the collector's connection

    The collector sends to a server.  When the server hangs up the socket is
    closed and a timer is armed, which tries to connect until it succeeds.  The
    state is the two descriptors, the handlers of the loop and what epoll
    watches; with it the model keeps the descriptors the process has open.

    A connection object is the descriptor it has and what its callbacks do.  The
    callback of a source holds the object itself, so that erasing it from the
    set does not destroy it and its descriptor is never closed. *)
From Stdlib Require Import ZArith Lia.
From stdpp Require Import base tactics numbers list gmap sets.
From S2P Require Import Prelude.
From S2P Require Import Collector.

Open Scope Z_scope.

Inductive role := Source | Server | Timer.
#[export] Instance role_eq_dec : EqDecision role.
Proof. solve_decision. Defined.

Record Link := MkLink {
  fd_ : Z;
  timer_fd_ : Z;
  armed : bool;
  handlers_ : list (Z * role);
  watching : gset Z;              (** the epoll set *)
  opened : gset Z;
  retry_count : Z;
  link_state : State;
  sources : gset Z;               (** descriptors of sources, ever *)
}.

(** What the calls of [Connect] find. *)
Record tries := Tries { t_socket : option Z; t_sockopt : bool; t_connect : bool }.

Definition set_fd (fd : Z) (op : gset Z) (s : Link) : Link :=
  let '(MkLink _ t a h w _ r st so) := s in MkLink fd t a h w op r st so.

(** A socket that is there already is used again. *)
Definition Connect (i : tries) (s : Link) : bool * Link :=
  if decide (fd_ s = -1) then
    match t_socket i with
    | None => (false, s)
    | Some sock =>
        if t_sockopt i then (t_connect i, set_fd sock ({[sock]} ∪ opened s) s)
        else (false, set_fd (-1) (opened s) s)
    end
  else (t_connect i, s).

(** The first handler of the timer is erased and cancelled. *)
Fixpoint erase_timer (t : Z) (h : list (Z * role)) : list (Z * role) :=
  match h with
  | [] => []
  | x :: h => if decide (x.1 = t) then h else x :: erase_timer t h
  end.

Definition OnConnect (s : Link) : Link :=
  let '(MkLink fd t a h w op r st so) := s in
  let '(a, h, w) :=
    if decide (st = DISCONNECTED) then (false, erase_timer t h, w ∖ {[t]}) else (a, h, w) in
  MkLink fd t a (h ++ [(fd, Server)]) ({[fd]} ∪ w) op 0 READY so.

Definition OnDisconnect (s : Link) : Link :=
  let '(MkLink fd t _ h w op r _ so) := s in
  MkLink fd t true (h ++ [(t, Timer)]) ({[t]} ∪ w) op r DISCONNECTED so.

(** The server has hung up: [eventTrigger] and the callback [OnConnect] has
    registered. *)
Definition server_closed (s : Link) : Link :=
  let '(MkLink fd t a h w op r st so) := s in
  OnDisconnect (MkLink (-1) t a (filter (λ x, x ≠ (fd, Server)) h) (w ∖ {[fd]})
    (if decide (fd = -1) then op else op ∖ {[fd]}) r st so).

(** The timer: [expiration] is what it has counted. *)
Definition on_timer (expiration : Z) (i : tries) (s : Link) : Link :=
  let '(MkLink fd t a h w op r st so) := s in
  let '(ok, s) := Connect i (MkLink fd t a h w op (wrap 64 (r + expiration)) st so) in
  if ok then OnConnect s else s.

Definition registerSource (fd : Z) (s : Link) : Link :=
  let '(MkLink f t a h w op r st so) := s in
  MkLink f t a (h ++ [(fd, Source)]) ({[fd]} ∪ w) ({[fd]} ∪ op) r st ({[fd]} ∪ so).

(** A source hangs up: it is taken from the loop, and stays open. *)
Definition source_closed (fd : Z) (s : Link) : Link :=
  let '(MkLink f t a h w op r st so) := s in
  MkLink f t a (filter (λ x, x ≠ (fd, Source)) h) (w ∖ {[fd]}) op r st so.


Inductive levent :=
| Expired (expiration : Z) (i : tries)   (** the timer's descriptor is readable *)
| HungUp (fd : Z)
| NewSource (fd : Z).

Definition lstep (e : levent) (s : Link) : option Link :=
  match e with
  | Expired x i => if decide ((timer_fd_ s, Timer) ∈ handlers_ s ∧ timer_fd_ s ∈ watching s) then Some (on_timer x i s) else None
  | HungUp fd =>
      if decide (fd ∈ watching s) then
        if decide ((fd, Server) ∈ handlers_ s) then Some (server_closed s)
        else if decide ((fd, Source) ∈ handlers_ s) then Some (source_closed fd s) else None
      else None
  | NewSource fd => Some (registerSource fd s)
  end.

Fixpoint lrun (es : list levent) (s : Link) : option Link :=
  match es with
  | [] => Some s
  | e :: es => s ← lstep e s; lrun es s
  end.

(** The constructor, when the server is there, and the start of [Produce]. *)
Definition link_start (sock timer term : Z) (others : gset Z) : Link :=
  OnConnect (MkLink sock timer false [] {[term]} ({[sock; timer; term]} ∪ others) 0 READY ∅).

(** What the kernel gives: descriptors that were not open. *)
Definition levent_ok (e : levent) (s : Link) : Prop :=
  match e with
  | Expired _ i => match t_socket i with Some sock => 0 ≤ sock ∧ sock ∉ opened s | None => True end
  | HungUp _ => True
  | NewSource fd => 0 ≤ fd ∧ fd ∉ opened s
  end.
#[export] Instance levent_ok_dec e s : Decision (levent_ok e s).
Proof. destruct e as [? i| |]; cbn; [destruct (t_socket i)|..]; apply _. Defined.

Fixpoint lgood (es : list levent) (s : Link) : Prop :=
  match es with
  | [] => True
  | e :: es => levent_ok e s ∧ match lstep e s with Some s' => lgood es s' | None => True end
  end.
#[export] Instance lgood_dec es s : Decision (lgood es s).
Proof.
  revert s. induction es as [|e es IH]; intros s; cbn [lgood]; [apply _|]. apply and_dec; [apply _|].
  destruct (lstep e s); [apply IH|apply _].
Defined.

(** ** The invariant *)
Definition server_fd (s : Link) : gset Z := if decide (fd_ s = -1) then ∅ else {[fd_ s]}.

Record link_inv (base : gset Z) (term : Z) (s : Link) : Prop := {
  li_base : timer_fd_ s ∈ base ∧ term ∈ base ∧ term ≠ timer_fd_ s ∧ (-1 ∉ base);
  li_nodup : NoDup (map fst (handlers_ s));
  li_watch : watching s = {[term]} ∪ list_to_set (map fst (handlers_ s));
  li_roles : ∀ fd ro, (fd, ro) ∈ handlers_ s →
    match ro with Source => fd ∈ sources s | Server => fd = fd_ s | Timer => fd = timer_fd_ s end;
  li_state : match link_state s with
    | READY => (fd_ s, Server) ∈ handlers_ s ∧ fd_ s ≠ -1 ∧ ((timer_fd_ s, Timer) ∉ handlers_ s) ∧ armed s = false
    | DISCONNECTED => ((fd_ s, Server) ∉ handlers_ s) ∧ (timer_fd_ s, Timer) ∈ handlers_ s ∧ armed s = true
    | _ => False
    end;
  li_open : opened s = base ∪ sources s ∪ server_fd s;
  li_disj : server_fd s ## base ∪ sources s ∧ sources s ## base ∧ (-1 ∉ sources s);
}.

Section invariant.
Context (base : gset Z) (term : Z).

Lemma nodup_role (h : list (Z * role)) fd r1 r2 : NoDup (map fst h) → (fd, r1) ∈ h → (fd, r2) ∈ h → r1 = r2.
Proof.
  intros Hn [j Hj]%list_elem_of_lookup_1 [k Hk]%list_elem_of_lookup_1.
  assert (j = k) as -> by (eapply (NoDup_lookup (map fst h)); [done|rewrite list_lookup_fmap, Hj; done|rewrite list_lookup_fmap, Hk; done]).
  congruence.
Qed.

Lemma erase_timer_filter t (h : list (Z * role)) : NoDup (map fst h) → erase_timer t h = filter (λ x, x.1 ≠ t) h.
Proof.
  induction h as [|[f r] h IH]; intros Hn; [done|]. apply NoDup_cons in Hn as [Hf Hn]. cbn [erase_timer]. cbn [fst] in *.
  rewrite filter_cons. cbn [fst]. destruct (decide (f = t)) as [-> |Hne].
  - rewrite decide_False by naive_solver. rewrite <- IH by done. clear IH. induction h as [|[f r'] h IH]; [done|].
    cbn in Hf. apply not_elem_of_cons in Hf as [Hne Hf]. cbn [erase_timer fst]. rewrite decide_False by congruence.
    apply NoDup_cons in Hn as [_ Hn]. by rewrite <- IH.
  - rewrite decide_True by done. by rewrite IH.
Qed.

Lemma filter_nodup (P : Z * role → Prop) `{∀ x, Decision (P x)} (h : list (Z * role)) : NoDup (map fst h) → NoDup (map fst (filter P h)).
Proof.
  induction h as [|x h IH]; intros Hn; [done|]. apply NoDup_cons in Hn as [Hf Hn]. rewrite filter_cons. case_decide; [|auto].
  cbn. apply NoDup_cons. split; [|auto]. intros (y & E & [_ Hy]%list_elem_of_filter)%list_elem_of_fmap. apply Hf. apply list_elem_of_fmap. eauto.
Qed.

Lemma snoc_nodup (h : list (Z * role)) x (r : role) : NoDup (map fst h) → (∀ r', (x, r') ∉ h) → NoDup (map fst (h ++ [(x, r)])).
Proof.
  intros Hn Hx. rewrite map_app. apply NoDup_app. split_and!; [done| |apply NoDup_singleton].
  intros y Hy Hy'. apply list_elem_of_singleton in Hy'. cbn in Hy'. subst y.
  apply list_elem_of_fmap in Hy as ([f r'] & E & Hy). cbn in E. subst f. by apply (Hx r').
Qed.

(** The handlers without one: what is left to watch. *)
Lemma filter_watch (h : list (Z * role)) fd (r : role) :
  NoDup (map fst h) → (fd, r) ∈ h →
  (list_to_set (map fst (filter (λ x, x ≠ (fd, r)) h)) : gset Z) = list_to_set (map fst h) ∖ {[fd]}.
Proof.
  intros Hn Hin. apply set_eq. intros x. rewrite elem_of_difference, elem_of_singleton, !elem_of_list_to_set, !list_elem_of_fmap. split.
  - intros ([f ro] & -> & [Hne H]%list_elem_of_filter). split; [by exists (f, ro)|]. cbn. intros ->.
    apply Hne. f_equal. by eapply nodup_role.
  - intros (([f ro] & -> & H) & Hne). exists (f, ro). split; [done|]. apply list_elem_of_filter. split; [|done]. cbn in Hne. congruence.
Qed.

Lemma server_closed_inv s : link_inv base term s → (fd_ s, Server) ∈ handlers_ s → link_inv base term (server_closed s).
Proof.
  destruct s as [fd t a h w op r st so]. intros [(Hb1 & Hb2 & Hb3 & Hb4) Hn Hw Hr Hst Hop (Hd1 & Hd2 & Hd3)] Hin. cbn in *.
  destruct st; try done; [|by destruct Hst]. destruct Hst as (_ & Hfd & Ht & ->).
  unfold server_fd in *. cbn in *. rewrite decide_False in Hop, Hd1 by done.
  assert (∀ ro, (t, ro) ∉ h) as Hnt.
  { intros ro H. pose proof (Hr _ _ H) as Hro. destruct ro; [set_solver|set_solver|by apply Ht]. }
  constructor; cbn; unfold server_fd; cbn.
  - done.
  - apply snoc_nodup; [by apply filter_nodup|]. intros ro [_ H]%list_elem_of_filter. by apply (Hnt ro).
  - rewrite map_app, list_to_set_app_L, filter_watch, Hw by done. cbn. set_solver.
  - intros f ro [[Hne H]%list_elem_of_filter|[= -> ->]%list_elem_of_singleton]%elem_of_app; [|done].
    pose proof (Hr _ _ H) as Hro. destruct ro; [done| |done]. by subst.
  - split_and!; [|apply elem_of_app; right; by left|done]. intros [[_ H]%list_elem_of_filter|[= ?]%list_elem_of_singleton]%elem_of_app.
    pose proof (Hr _ _ H). cbn in *. congruence.
  - rewrite decide_False by done. rewrite Hop. set_solver.
  - split_and!; set_solver.
Qed.

Lemma source_closed_inv s fd :
  link_inv base term s → (fd, Source) ∈ handlers_ s → link_inv base term (source_closed fd s).
Proof.
  destruct s as [f t a h w op r st so]. intros [(Hb1 & Hb2 & Hb3 & Hb4) Hn Hw Hr Hst Hop Hd] Hin. cbn in *.
  constructor; cbn; try done.
  - by apply filter_nodup.
  - rewrite filter_watch, Hw by done. assert (fd ≠ term); [|set_solver]. intros ->. pose proof (Hr _ _ Hin). cbn in *. set_solver.
  - intros f' ro [_ H]%list_elem_of_filter. by apply Hr.
  - destruct st; try done; rewrite !list_elem_of_filter; naive_solver.
Qed.

Lemma link_register_inv s fd :
  link_inv base term s → 0 ≤ fd → (fd ∉ opened s) → link_inv base term (registerSource fd s).
Proof.
  destruct s as [f t a h w op r st so]. intros [(Hb1 & Hb2 & Hb3 & Hb4) Hn Hw Hr Hst Hop (Hd1 & Hd2 & Hd3)] Hge Hnew. cbn in *.
  unfold server_fd in *. cbn in *.
  assert (∀ ro, (fd, ro) ∉ h) as Hnf.
  { intros ro H. pose proof (Hr _ _ H) as Hro. destruct ro; [set_solver| |set_solver]. subst f. rewrite decide_False in Hop by lia. set_solver. }
  constructor; cbn; unfold server_fd; cbn.
  - done.
  - by apply snoc_nodup.
  - rewrite map_app, list_to_set_app_L, Hw. cbn. set_solver.
  - intros f' ro [H|[= -> ->]%list_elem_of_singleton]%elem_of_app; [|set_solver]. pose proof (Hr _ _ H). destruct ro; set_solver.
  - destruct st; try done; rewrite !elem_of_app, !list_elem_of_singleton; naive_solver.
  - rewrite Hop. set_solver.
  - split_and!; [set_solver|set_solver|]. assert (fd ≠ -1) by lia. set_solver.
Qed.

(** Connecting: the socket is new or the one there was. *)
Lemma connect_inv i s ok s' :
  link_inv base term s → link_state s = DISCONNECTED → levent_ok (Expired 0 i) s → Connect i s = (ok, s') →
  link_inv base term s' ∧ link_state s' = DISCONNECTED ∧ (ok = true → fd_ s' ≠ -1).
Proof.
  destruct s as [f t a h w op r st so]. intros Hs Hst Hi E. pose proof Hs as [(Hb1 & Hb2 & Hb3 & Hb4) Hn Hw Hr Hls Hop (Hd1 & Hd2 & Hd3)].
  cbn in *. subst st. unfold Connect in E. cbn in E. case_decide as Hf; [|by simplify_eq].
  destruct (t_socket i) as [sock|]; [|by simplify_eq]. destruct Hi as [Hge Hnew]. destruct (t_sockopt i); simplify_eq; [|done].
  split; [|split; [done|intros _; cbn; lia]]. unfold server_fd in *. cbn in *. rewrite decide_True in Hop by done.
  constructor; cbn; unfold server_fd; cbn; try done.
  - intros f' ro H. pose proof (Hr _ _ H) as Hro. destruct ro; [done| |done]. subst f'. destruct Hls as [Hns _]. done.
  - destruct Hls as (Hns & Ht & Ha). split_and!; [|done|done]. intros H. pose proof (Hr _ _ H). cbn in *. lia.
  - rewrite decide_False by lia. set_solver.
  - rewrite decide_False by lia. split_and!; set_solver.
Qed.

Lemma onconnect_inv s :
  link_inv base term s → link_state s = DISCONNECTED → fd_ s ≠ -1 → link_inv base term (OnConnect s).
Proof.
  destruct s as [f t a h w op r st so]. intros [(Hb1 & Hb2 & Hb3 & Hb4) Hn Hw Hr Hls Hop (Hd1 & Hd2 & Hd3)] Hst Hf.
  cbn in *. subst st. unfold OnConnect. rewrite decide_True by done. rewrite erase_timer_filter by done.
  unfold server_fd in *. cbn in *. rewrite decide_False in Hop, Hd1 by done. destruct Hls as (Hns & Ht & Ha).
  rewrite (filter_same _ (λ x, x ≠ (t, Timer))).
  2: { intros [f' ro] H. cbn. split; [congruence|]. intros Hne ->. apply Hne. f_equal. by eapply nodup_role. }
  assert (∀ ro, (f, ro) ∉ h) as Hnf.
  { intros ro H. pose proof (Hr _ _ H) as Hro. destruct ro; [set_solver|done|set_solver]. }
  constructor; cbn; unfold server_fd; cbn.
  - done.
  - apply snoc_nodup; [by apply filter_nodup|]. intros ro [_ H]%list_elem_of_filter. by apply (Hnf ro).
  - rewrite map_app, list_to_set_app_L, filter_watch, Hw by done. cbn. set_solver.
  - intros f' ro [[_ H]%list_elem_of_filter|[= -> ->]%list_elem_of_singleton]%elem_of_app; [|done]. by apply Hr.
  - split_and!; [apply elem_of_app; right; by left|done| |done].
    intros [[Hne _]%list_elem_of_filter|[= ?]%list_elem_of_singleton]%elem_of_app. done.
  - by rewrite decide_False.
  - by rewrite decide_False.
Qed.

Lemma retry_inv s n : link_inv base term s →
  link_inv base term (MkLink (fd_ s) (timer_fd_ s) (armed s) (handlers_ s) (watching s) (opened s) n (link_state s) (sources s)).
Proof. intros []. by constructor. Qed.

Lemma lstep_inv e s s' : link_inv base term s → levent_ok e s → lstep e s = Some s' → link_inv base term s'.
Proof.
  intros Hs He E. destruct e as [x i|fd|fd]; cbn [lstep] in E.
  - case_decide as Ht; [|done]. simplify_eq. destruct Ht as [Ht _].
    assert (link_state s = DISCONNECTED) as Hst.
    { pose proof (li_state _ _ _ Hs) as H. destruct (link_state s); naive_solver. }
    destruct s as [f t a h w op r st so]. unfold on_timer. pose proof (retry_inv _ (wrap 64 (r + x)) Hs) as Hs'. cbn in *.
    destruct (Connect i _) as [ok s1] eqn:E1. destruct (connect_inv _ _ _ _ Hs' Hst He E1) as (H1 & H2 & H3).
    destruct ok; [|done]. apply onconnect_inv; auto.
  - case_decide; [|done]. case_decide as Hsv.
    + simplify_eq. pose proof (li_roles _ _ _ Hs _ _ Hsv) as Hf. cbn in Hf. subst fd. by apply server_closed_inv.
    + case_decide as Hsr; [|done]. simplify_eq. by apply source_closed_inv.
  - simplify_eq. destruct He. by apply link_register_inv.
Qed.

Lemma lrun_inv es s s' : link_inv base term s → lgood es s → lrun es s = Some s' → link_inv base term s'.
Proof.
  revert s. induction es as [|e es IH]; intros s Hs Hg E; cbn [lrun lgood] in *; [by simplify_eq|].
  destruct Hg as [He Hg]. destruct (lstep e s) as [s1|] eqn:E1; [|done]. cbn in E. apply (IH s1); [by eapply lstep_inv|done|done].
Qed.
End invariant.

Section properties.
Context (sock timer term : Z) (others : gset Z).
Context (Hfds : 0 ≤ sock ∧ 0 ≤ timer ∧ 0 ≤ term ∧ sock ≠ timer ∧ sock ≠ term ∧ timer ≠ term ∧ (sock ∉ others) ∧ -1 ∉ others).

Definition link_base : gset Z := {[timer; term]} ∪ others.

Lemma link_start_inv : link_inv link_base term (link_start sock timer term others).
Proof.
  destruct Hfds as (H1 & H2 & H3 & H4 & H5 & H6 & H7 & H8). unfold link_start, OnConnect, link_base. rewrite decide_False by done.
  assert (sock ≠ -1 ∧ timer ≠ -1 ∧ term ≠ -1) as (N1 & N2 & N3) by lia.
  constructor; cbn; unfold server_fd; cbn; rewrite ?(decide_False (P := sock = -1)) by done.
  - split_and!; set_solver.
  - apply NoDup_singleton.
  - set_solver.
  - by intros fd ro [= -> ->]%list_elem_of_singleton.
  - split_and!; [by left|done| |done]. by intros [= ?]%list_elem_of_singleton.
  - set_solver.
  - split_and!; set_solver.
Qed.

Lemma lstep_timer e s s' : lstep e s = Some s' → timer_fd_ s' = timer_fd_ s.
Proof.
  destruct s as [f t a h w op r st so]. destruct e as [x i|fd|fd]; cbn [lstep]; intros E; repeat case_decide; simplify_eq; try done.
  unfold on_timer, Connect. cbn. destruct (decide (f = -1)), (t_socket i) as [sk|], (t_sockopt i), (t_connect i); cbn; by repeat case_decide.
Qed.

Lemma lrun_timer es s s' : lrun es s = Some s' → timer_fd_ s' = timer_fd_ s.
Proof.
  revert s. induction es as [|e es IH]; intros s E; cbn [lrun] in E; [by simplify_eq|].
  destruct (lstep e s) as [s1|] eqn:E1; [|done]. cbn in E. rewrite (IH _ E). by eapply lstep_timer.
Qed.

(** What is watched, by its role. *)
Lemma watched_iff base t s fd : link_inv base t s → fd ∈ watching s ↔ fd = t ∨ ∃ ro, (fd, ro) ∈ handlers_ s.
Proof.
  intros Hs. rewrite (li_watch _ _ _ Hs), elem_of_union, elem_of_singleton, elem_of_list_to_set, list_elem_of_fmap.
  split; intros [H|H]; auto; right; [destruct H as ([f ro] & -> & H); eauto|destruct H as [ro H]; by exists (fd, ro)].
Qed.

(** The connection is lost and made again without losing a descriptor.  After
    every sequence of hang-ups, expirations of the timer whatever the calls of
    [Connect] give, and new sources: the collector is either connected, with the
    server watched and the timer off, or not, with the timer armed and watched,
    each handled once; and the process has open what it began with, its sources
    and at most one socket to the server, however often it was made. *)
Theorem reconnect_owns es s :
  lgood es (link_start sock timer term others) → lrun es (link_start sock timer term others) = Some s →
  (link_state s = READY ∧ fd_ s ∈ watching s ∧ armed s = false ∧ (timer ∉ watching s) ∨
   link_state s = DISCONNECTED ∧ armed s = true ∧ timer ∈ watching s ∧ (fd_ s ∉ watching s)) ∧
  NoDup (map fst (handlers_ s)) ∧ opened s = link_base ∪ sources s ∪ server_fd s.
Proof.
  intros Hg E. pose proof (lrun_inv _ _ _ _ _ link_start_inv Hg E) as Hs. pose proof Hs as [(Hb1 & Hb2 & Hb3 & Hb4) Hn Hw Hr Hst Hop (Hd1 & Hd2 & Hd3)].
  pose proof (lrun_timer _ _ _ E) as Ht. unfold link_start, OnConnect in Ht. rewrite decide_False in Ht by done. cbn in Ht.
  rewrite Ht in *. split; [|done].
  assert (fd_ s ∉ link_base ∪ sources s) as Hsep.
  { unfold server_fd in Hd1. case_decide as Hf; [rewrite Hf; set_solver|set_solver]. }
  rewrite !(watched_iff _ _ _ _ Hs). destruct (link_state s); try done; [left|right].
  - destruct Hst as (H1 & H2 & H3 & H4). split_and!; [done|by eauto|done|]. intros [?|[ro H]]; [lia|].
    pose proof (Hr _ _ H) as Hro. destruct ro; [set_solver|set_solver|done].
  - destruct Hst as (H1 & H2 & H3). split_and!; [done|done|by eauto|]. intros [Hf|[ro H]]; [set_solver|].
    pose proof (Hr _ _ H) as Hro. destruct ro; [set_solver|done|set_solver].
Qed.
End properties.

(** A server that comes back is found: whatever happened before, when the
    collector is disconnected the next expiration of the timer that can connect
    leaves it connected, watching the server, with its count of attempts
    reset. *)
Lemma reconnects_when_it_can s base term x i sock :
  link_inv base term s → link_state s = DISCONNECTED → (fd_ s = -1 → t_socket i = Some sock ∧ t_sockopt i = true) → t_connect i = true →
  ∃ s', lstep (Expired x i) s = Some s' ∧ link_state s' = READY ∧ retry_count s' = 0 ∧
    fd_ s' = (if decide (fd_ s = -1) then sock else fd_ s) ∧ fd_ s' ∈ watching s'.
Proof.
  intros Hs Hst Hsock Hc. pose proof (li_state _ _ _ Hs) as Hls. rewrite Hst in Hls. destruct Hls as (_ & Ht & _).
  cbn [lstep]. rewrite decide_True by (split; [done|apply (watched_iff _ _ _ _ Hs); eauto]). eexists. split; [done|].
  destruct s as [f t a h w op r st so]. cbn in *. subst st. unfold Connect. cbn. rewrite Hc. destruct (decide (f = -1)) as [-> |Hf].
  - destruct (Hsock eq_refl) as [-> ->]. cbn. rewrite decide_True by done. cbn. split_and!; set_solver.
  - cbn. rewrite decide_True by done. cbn. split_and!; set_solver.
Qed.

(** ** Concrete runs *)
Definition lost_twice : list levent :=
  [NewSource 9; HungUp 6; Expired 1 (Tries (Some 6) true false); Expired 2 (Tries None true false); Expired 1 (Tries None true true);
   HungUp 6; Expired 1 (Tries (Some 10) true true)].

Lemma reconnect_owns_witness :
  ∃ s, lrun lost_twice (link_start 6 7 8 {[3; 4]}) = Some s ∧ opened s = link_base 7 8 {[3; 4]} ∪ sources s ∪ server_fd s.
Proof.
  exists (default (link_start 6 7 8 {[3; 4]}) (lrun lost_twice (link_start 6 7 8 {[3; 4]}))). split; [vm_compute; reflexivity|].
  apply (reconnect_owns 6 7 8 {[3; 4]} ltac:(split_and!; try lia; by_eval) lost_twice
    (default (link_start 6 7 8 {[3; 4]}) (lrun lost_twice (link_start 6 7 8 {[3; 4]})))).
  - by_eval.
  - vm_compute. reflexivity.
Defined.

(** A source that hangs up leaves the loop and stays open. *)
Lemma source_leaks : (s ← lrun [NewSource 9; HungUp 9] (link_start 6 7 8 ∅); Some (bool_decide (9 ∈ watching s), bool_decide (9 ∈ opened s))) = Some (false, true).
Proof. vm_compute. reflexivity. Qed.
