(* ===== verification/Telemetry.v ===== *)
(** * socket/collector.cpp: from a datagram to the subscribers

    [HandleGroupMsg] turns a datagram of a sensor into the payload that is sent
    to the relay, and [split] reads the list of ports the program is given.
    Together with [WsNotifier] this is the whole way of a reading: datagram,
    record, masked payload, relay, pipe, text, subscribers. *)
From Stdlib Require Import ZArith Lia.
From stdpp Require Import base tactics numbers list gmap.
From S2P Require Import Prelude.
From S2P Require Import Topics.
From S2P Require Import WeightCodec.
From S2P Require Import Secure.
From S2P Require Import WsNotifier.

Open Scope Z_scope.

(** ** [HandleGroupMsg]: [ip] is the sender's address as text, [buf] the text of
    the datagram; the payload for [addPayload]. *)
Definition HandleGroupMsg (ip buf : list Z) (entropy : reader) : outcome (list Z * reader) :=
  i ← parse ip buf buf;
  let x := Encode i in
  Encrypt (data_bytes x) kDataSize entropy.

(** ** [split]: the texts between separators that are not empty.  [i] and [j] are
    the indices of the loop. *)
Fixpoint split_loop (sep : Z) (s : list Z) (part : list Z) : list (list Z) :=
  match s with
  | [] => if decide (part = []) then [] else [part]
  | c :: s =>
      if decide (c = sep) then (if decide (part = []) then [] else [part]) ++ split_loop sep s []
      else split_loop sep s (part ++ [c])
  end.

Definition split {T} (sep : Z) (op : list Z → option T) (s : list Z) : option (list T) := mapM op (split_loop sep s []).

(** [std::stoi]: [None] is an exception, for a text without a number or a number
    that is no [int]; nothing catches it. *)
Definition has_number (s : list Z) : bool :=
  match skip_spaces s with
  | [] => false
  | d :: s => if decide (d = 45 ∨ d = 43) then match s with d :: _ => is_digit d | [] => false end else is_digit d
  end.

Definition stoi (s : list Z) : option Z :=
  if has_number s then
    if decide (-2147483648 ≤ parse_int s ≤ 2147483647) then Some (parse_int s) else None
  else None.

Definition PORT_BASE : Z := 10000.

(** The lambda of the program: the port of a number. *)
Definition port_of (s : list Z) : option Z := v ← stoi s; Some (s16 (u32 (Z.land v 0xff + PORT_BASE))).

Definition COMMA : Z := 44.
Definition ports (arg : list Z) : option (list Z) := split COMMA port_of arg.

(** ** The datagram *)
Definition datagram (ser blk w : Z) : list Z := fmt_d ser ++ SEP :: fmt_d blk ++ SEP :: fmt_d w.

Definition reading (oct ser blk w : Z) : Input :=
  MkInput (if decide (w = -65535) then 1 else 0) oct (u16 (if decide (w = -65535) then -1 else w)) (u32 blk) ser.

Lemma serial_prefix ser r i : 0 ≤ ser < 4294967296 → no_digit r → parseSerial (fmt_d ser ++ r) i = parseSerial (fmt_d ser) i.
Proof.
  intros Hs Hr. unfold parseSerial, strtoull. rewrite parse_fmt_d by (lia || done).
  pose proof (parse_fmt_d ser [] ltac:(lia) I) as E. rewrite app_nil_r in E. by rewrite E.
Qed.

Lemma sep_not_in n : SEP ∉ fmt_d n.
Proof. apply not_in_fmt_d; unfold SEP; lia. Qed.

Lemma datagram_parsed apre oct ser blk w :
  0 ≤ oct < 256 → 0 ≤ ser < 4294967296 → -2147483648 ≤ blk ≤ 2147483647 → w = -65535 ∨ -32768 ≤ w ≤ 32767 →
  parse (apre ++ DOT :: fmt_d oct) (datagram ser blk w) (datagram ser blk w) = Ret (reading oct ser blk w).
Proof.
  intros Ho Hs Hb Hw. pose proof (parse_spec apre oct (fmt_d ser) blk w ser Ho (sep_not_in ser) Hb Hw Hs) as E.
  unfold parse in *. fold (datagram ser blk w) in E. destruct (parseIp _ _) as [i1| |]; try done. cbn [mbind outcome_bind] in *.
  destruct (parseWeight _ _) as [i2| |]; try done. cbn [mbind outcome_bind] in *. destruct (parseBlock _ _) as [i3| |]; try done.
  cbn [mbind outcome_bind] in *. unfold datagram at 1. rewrite serial_prefix by done. exact E.
Qed.

Lemma reading_ok oct ser blk w : 0 ≤ oct < 256 → 0 ≤ ser < 4294967296 → input_ok (reading oct ser blk w).
Proof.
  intros Ho Hs. unfold input_ok, reading, is_byte, u16, u32. cbn [error ip weight block serial].
  split_and!; try lia; try (case_decide; lia); mlia.
Qed.

Lemma reading_shown oct ser blk w : w = -65535 ∨ -32768 ≤ w ≤ 32767 →
  shown (reading oct ser blk w) = PATTERN ser (fmt_u oct) w (if decide (u32 blk ≠ 0) then hex8 (u32 blk) else NONE).
Proof.
  intros Hw. unfold shown, shown_weight, shown_id, reading. cbn [error ip weight block serial].
  destruct (decide (w = -65535)) as [-> |Hne]; [done|]. rewrite decide_False by lia. f_equal.
  unfold s16, swrap, u16. eval_pow. mlia.
Qed.

(** ** Properties *)

(** C6: from the datagram to the subscribers.  A datagram "serial@block@weight"
    from an address that ends in ".octet" is parsed, packed and masked by the
    collector with whatever random byte; the relay unmasks it and, when the topic
    has a subscriber and the pipe has room, puts it into the pipe; and the
    notifier hands every subscriber of the octet, in order and once each, the
    JSON text with that serial number, octet, weight and block. *)
Theorem datagram_reaches_subscribers apre oct ser blk w entropy mask entropy' pipe s buf ibuf calls :
  let text := PATTERN ser (fmt_u oct) w (if decide (u32 blk ≠ 0) then hex8 (u32 blk) else NONE) in
  0 ≤ oct < 256 → 0 ≤ ser < 4294967296 → -2147483648 ≤ blk ≤ 2147483647 → w = -65535 ∨ -32768 ≤ w ≤ 32767 →
  zlen text ≤ 63 → length buf = 64%nat → length ibuf = 16%nat → Fetch 1 entropy = Ret ([mask], entropy') →
  kDataSize * zlen pipe < PIPE_LIMIT → thread s = Polling → at_topic (fmt_u oct) (manager s) ≠ [] →
  ∃ payload x o s', HandleGroupMsg (apre ++ DOT :: fmt_d oct) (datagram ser blk w) entropy = Ret (payload, entropy') ∧
    handle_message (has_subscriber s) payload pipe = Ret (Relayed, pipe ++ [x]) ∧ Decode buf ibuf x = Ret o ∧
    nrun [AMessage o; ACall calls] s = Some s' ∧ published s' = published s ++ [(at_topic (fmt_u oct) (manager s), text)].
Proof.
  intros text Ho Hs Hb Hw Hl Hbuf Hib HF Hp Hth Hsub. subst text. rewrite <- (reading_shown oct ser blk w Hw) in *.
  destruct (reading_reaches_subscribers (reading oct ser blk w) entropy mask entropy' pipe s buf ibuf calls) as (str & o & s' & H1 & H2 & H3 & H4 & H5);
    [by apply reading_ok|done..|].
  exists str, (Encode (reading oct ser blk w)), o, s'. split; [|done].
  unfold HandleGroupMsg. rewrite datagram_parsed by done. exact H1.
Qed.

Lemma datagram_reaches_subscribers_witness :
  let s := Register 5 [[49; 56; 50]] Notifier_new in
  ∃ payload x o s', HandleGroupMsg ([49; 48; 46; 48; 46; 48] ++ DOT :: fmt_d 182) (datagram 9 0 (-300)) (RandomReader (replicate 1024 0) [replicate 1024 211]) =
      Ret (payload, MkReader 1 (replicate 1024 211) []) ∧
    handle_message (has_subscriber s) payload [] = Ret (Relayed, [x]) ∧ Decode (replicate 64 0) (replicate 16 0) x = Ret o ∧
    nrun [AMessage o; ACall (λ _, true)] s = Some s' ∧ published s' = [([0%nat], PATTERN 9 (fmt_u 182) (-300) NONE)].
Proof.
  apply (datagram_reaches_subscribers [49; 48; 46; 48; 46; 48] 182 9 0 (-300) (RandomReader (replicate 1024 0) [replicate 1024 211]) 211
    (MkReader 1 (replicate 1024 211) []) [] (Register 5 [[49; 56; 50]] Notifier_new) (replicate 64 0) (replicate 16 0) (λ _, true));
    first [lia|reflexivity|by_eval].
Defined.

(** The ports of a list of numbers are read in order; empty entries are skipped. *)
Fixpoint commas (ns : list Z) : list Z :=
  match ns with [] => [] | [n] => fmt_d n | n :: ns => fmt_d n ++ COMMA :: commas ns end.

Lemma split_loop_app sep a r part : (sep ∉ a) → part ++ a ≠ [] → split_loop sep (a ++ sep :: r) part = (part ++ a) :: split_loop sep r [].
Proof.
  revert part. induction a as [|c a IH]; intros part Hn Hne; cbn [app split_loop].
  - rewrite decide_True by done. rewrite app_nil_r in *. by rewrite decide_False.
  - apply not_elem_of_cons in Hn as [Hc Hn]. rewrite decide_False by congruence. rewrite IH; [by rewrite <- app_assoc|done|by destruct part].
Qed.

Lemma split_loop_end sep a part : (sep ∉ a) → part ++ a ≠ [] → split_loop sep a part = [part ++ a].
Proof.
  revert part. induction a as [|c a IH]; intros part Hn Hne; cbn [split_loop].
  - rewrite app_nil_r in *. by rewrite decide_False.
  - apply not_elem_of_cons in Hn as [Hc Hn]. rewrite decide_False by congruence. rewrite IH; [by rewrite <- app_assoc|done|by destruct part].
Qed.

Lemma fmt_d_nonempty n : fmt_d n ≠ [].
Proof. unfold fmt_d. case_decide; [done|]. destruct (fmt_u_nonempty n ltac:(lia)) as (c & r & -> & _). done. Qed.

Lemma commas_split ns : split_loop COMMA (commas ns) [] = map fmt_d ns.
Proof.
  assert (∀ n, COMMA ∉ fmt_d n) as Hc by (intros n; apply not_in_fmt_d; unfold COMMA; lia).
  induction ns as [|n ns IH]; [done|]. destruct ns as [|m ns].
  - cbn [commas map]. rewrite split_loop_end; [done|apply Hc|apply fmt_d_nonempty].
  - change (commas (n :: m :: ns)) with (fmt_d n ++ COMMA :: commas (m :: ns)).
    rewrite split_loop_app; [|apply Hc|apply fmt_d_nonempty]. by rewrite IH.
Qed.

Lemma stoi_number n : 0 ≤ n ≤ 2147483647 → stoi (fmt_d n) = Some n.
Proof.
  intros Hn. unfold stoi. pose proof (parse_fmt_d n [] ltac:(lia) I) as E. rewrite app_nil_r in E. rewrite E, decide_True by lia.
  assert (has_number (fmt_d n) = true) as ->; [|done]. unfold fmt_d. rewrite decide_False by lia.
  destruct (fmt_u_nonempty n ltac:(lia)) as (c & r & -> & Hc). unfold has_number. cbn [skip_spaces].
  assert (isspace c = false) as -> by (apply bool_decide_eq_false; lia).
  rewrite decide_False by lia. by apply bool_decide_eq_true.
Qed.

Lemma port_of_number n : 0 ≤ n < 256 → port_of (fmt_d n) = Some (n + PORT_BASE).
Proof.
  intros Hn. unfold port_of. rewrite stoi_number by lia. cbn [mbind option_bind]. f_equal.
  change 0xff with (2 ^ 8 - 1). rewrite land_mask by lia. unfold PORT_BASE. rewrite Z.mod_small by (eval_pow; lia).
  rewrite u32_small by lia. unfold s16, swrap. eval_pow. mlia.
Qed.

Theorem ports_of_list ns :
  Forall (λ n, 0 ≤ n < 256) ns → ports (commas ns) = Some (map (λ n, n + PORT_BASE) ns).
Proof.
  intros Hns. unfold ports, split. rewrite commas_split. apply mapM_Some. induction Hns as [|n ns Hn _ IH]; [constructor|].
  cbn [map]. constructor; [by apply port_of_number|done].
Qed.
