(* ===== verification/Endpoint.v ===== *)
(** * socket/monitor: end points, timers and pipes

    base.h ([Defer], [transferable]), endpoint.h, sock.h and sock.cpp (the four
    kinds of sockets), signal_fd.cpp, timer.h and timer.cpp, pipe.h and pipe.cpp,
    and [util::Close] of fs.cpp: the objects that own descriptors.

    The process is the set of its open descriptors and the log of its calls.
    What a call answers is an argument ([answers]); a call on a descriptor that
    is not open fails whatever the answer.  Every deferred closure of these
    classes closes the descriptor of its object, so that [cleanup_] is there or
    is not. *)
From Stdlib Require Import ZArith Lia.
From stdpp Require Import base tactics numbers list gmap sets.
From S2P Require Import Prelude.

Open Scope Z_scope.

(** ** [Defer]

    [run] calls the closure, which may change the object it belongs to. *)
Section defer.
Context {K S : Type} (run : K → S → S).

Definition Defer := option K.

(** The destructor. *)
Definition Defer_destroy (d : Defer) (s : S) : S := match d with Some k => run k s | None => s end.

(** [d = Defer(k)]: the closures are swapped, and the temporary with the old one
    is destroyed. *)
Definition Defer_assign (d d' : Defer) (s : S) : Defer * S := (d', Defer_destroy d s).

Definition Defer_cancel (d : Defer) : Defer := None.

Definition Defer_trigger (d : Defer) (s : S) : Defer * S := (None, Defer_destroy d s).

(** The move constructor takes the closure, and [swap] exchanges two. *)
Definition Defer_move (d : Defer) : Defer * Defer := (d, None).
Definition Defer_swap (d d' : Defer) : Defer * Defer := (d', d).
End defer.
Arguments Defer : clear implicits.

(** ** The process *)
Inductive sockaddr := SaUn (sun_path : list Z) | SaIn (sin_port sin_addr : Z).

Inductive sockopt := SO_REUSEADDR (v : Z) | SO_REUSEPORT (v : Z) | SO_SNDTIMEO (sec usec : Z).

Record timespec := Timespec { tv_sec : Z; tv_nsec : Z }.
Record itimerspec := Itimerspec { it_interval : timespec; it_value : timespec }.

Inductive syscall :=
| CRemove (path : list Z)
| CSocket (family type fd : Z)
| COption (fd : Z) (o : sockopt)
| CBind (fd : Z) (sa : sockaddr)
| CListen (fd backlog : Z)
| CConnect (fd : Z) (sa : sockaddr)
| CTimer (flags fd : Z)
| CSettime (fd : Z) (its : itimerspec)
| CSignal (sig fd : Z)
| CClose (fd : Z).

Record Sys := MkSys { opened : gset Z; log : list syscall }.

(** What the calls answer: an error number of [remove], a new descriptor, the
    success of the options in their order, and of [bind], [listen], [connect]. *)
Record answers := Answers {
  a_remove : Z;
  a_fd : option Z;
  a_option1 : bool;
  a_option2 : bool;
  a_bind : bool;
  a_listen : bool;
  a_aton : option Z;
  a_connect : bool;
}.

Definition ENOENT : Z := 2.
Definition AF_UNIX : Z := 1.
Definition AF_INET : Z := 2.
Definition SOCK_STREAM : Z := 1.
Definition INADDR_ANY : Z := 0.

(** A call that gives a new descriptor, or -1. *)
Definition sys_open (c : Z → syscall) (fd : option Z) (s : Sys) : Z * Sys :=
  match fd with
  | Some fd => (fd, MkSys ({[fd]} ∪ opened s) (log s ++ [c fd]))
  | None => (-1, s)
  end.

(** A call on a descriptor: it is logged when it succeeds. *)
Definition sys_on (fd : Z) (c : syscall) (ok : bool) (s : Sys) : bool * Sys :=
  if decide (ok = true ∧ fd ∈ opened s) then (true, MkSys (opened s) (log s ++ [c])) else (false, s).

(** [util::Close(int&)] with [ValidFd]: the descriptor is closed if it is open,
    and the variable is -1 afterwards. *)
Definition Close (fd : Z) (s : Sys) : Z * Sys :=
  (-1, if decide (fd ≠ -1 ∧ fd ∈ opened s) then MkSys (opened s ∖ {[fd]}) (log s ++ [CClose fd]) else s).

(** ** [EndPoint] *)
Inductive State := NOTHINGNESS | INITIALIZED | TRANSFERRED.
#[export] Instance State_eq_dec : EqDecision State.
Proof. solve_decision. Defined.

(** The only deferred closure: close the descriptor of this object. *)
Inductive closure := CloseThis.

Record EndPoint := MkEndPoint { fd_ : Z; state_ : State; cleanup_ : Defer closure }.

Definition EndPoint_new : EndPoint := MkEndPoint (-1) NOTHINGNESS None.

Definition set_fd (fd : Z) (e : EndPoint) : EndPoint := MkEndPoint fd (state_ e) (cleanup_ e).
Definition set_cleanup (d : Defer closure) (e : EndPoint) : EndPoint := MkEndPoint (fd_ e) (state_ e) d.

Definition run_closure (k : closure) (es : EndPoint * Sys) : EndPoint * Sys :=
  let '(fd, s) := Close (fd_ es.1) es.2 in (set_fd fd es.1, s).

(** [cleanup_ = Defer([this]{util::Close(fd_);})] *)
Definition defer_close (es : EndPoint * Sys) : EndPoint * Sys :=
  let '(d, (e, s)) := Defer_assign run_closure (cleanup_ es.1) (Some CloseThis) es in (set_cleanup d e, s).

(** [cleanup_.trigger()] *)
Definition trigger_cleanup (es : EndPoint * Sys) : EndPoint * Sys :=
  let '(d, (e, s)) := Defer_trigger run_closure (cleanup_ es.1) es in (set_cleanup d e, s).

Definition initialize (e : EndPoint) : EndPoint := MkEndPoint (fd_ e) INITIALIZED (cleanup_ e).
Definition valid (e : EndPoint) : bool := bool_decide (state_ e = INITIALIZED).

(** [transferable::transfer]: the variable forgets the descriptor. *)
Definition transfer (e : EndPoint) : Z * EndPoint := (fd_ e, set_fd (-1) e).

Definition transferOwnership (e : EndPoint) : Z * EndPoint :=
  (fd_ e, MkEndPoint (fd_ e) TRANSFERRED (Defer_cancel (cleanup_ e))).

Definition EndPoint_destroy (e : EndPoint) (s : Sys) : Sys := (Defer_destroy run_closure (cleanup_ e) (e, s)).2.

(** ** Timers *)
Module Timer.

Definition kThousand : Z := 1000.
Definition kMillion : Z := 1000000.
Definition kLeastDuration : Z := 10.

(** The members are [u32]. *)
Record Config := MkConfig {
  interval_second_ : Z;
  interval_millisecond_ : Z;
  value_second_ : Z;
  value_millisecond_ : Z;
}.

(** [SETTIMESPEC]: seconds and milliseconds as [u32], [tv_nsec] as [long]. *)
Definition SETTIMESPEC (x y : Z) : timespec :=
  let '(x, y) := if decide (kThousand ≤ y) then (u32 (x + y / kThousand), y mod kThousand) else (x, y) in
  Timespec x (if decide (y ≠ 0) then y * kMillion else 0).

Definition to_itimerspec (c : Config) : itimerspec :=
  Itimerspec (SETTIMESPEC (interval_second_ c) (interval_millisecond_ c))
             (SETTIMESPEC (value_second_ c) (value_millisecond_ c)).

Definition notnull (c : Config) : bool :=
  bool_decide (interval_second_ c ≠ 0) || bool_decide (kLeastDuration ≤ interval_millisecond_ c)
  || bool_decide (value_second_ c ≠ 0) || bool_decide (kLeastDuration ≤ value_millisecond_ c).

(** [timerfd_settime]; what it answers is not looked at by the constructor. *)
Definition Timer_new (c : Config) (flags : Z) (a : answers) (s : Sys) : EndPoint * Sys :=
  let '(fd, s) := sys_open (CTimer flags) (a_fd a) s in
  let e := set_fd fd EndPoint_new in
  if decide (fd = -1) then (e, s)
  else
    let s := if notnull c then (sys_on fd (CSettime fd (to_itimerspec c)) true s).2 else s in
    let '(e, s) := defer_close (e, s) in
    (initialize e, s).

Definition reset (c : Config) (e : EndPoint) (s : Sys) : Z * Sys :=
  let '(ok, s) := sys_on (fd_ e) (CSettime (fd_ e) (to_itimerspec c)) true s in (if ok then 0 else -1, s).
End Timer.

(** [SignalFd] *)
Definition SignalFd_new (sig : Z) (a : answers) (s : Sys) : EndPoint * Sys :=
  let '(fd, s) := sys_open (CSignal sig) (a_fd a) s in
  let e := set_fd fd EndPoint_new in
  let '(e, s) := if decide (fd ≠ -1) then defer_close (e, s) else (e, s) in
  (initialize e, s).

(** ** Sockets *)

(** [strcpy(sa.sun_path, path)] into the 108 bytes of a [sockaddr_un]. *)
Definition SUN_PATH : Z := 108.
Definition sun_path_of (path : list Z) : outcome (list Z) := store_n (replicate (Z.to_nat SUN_PATH) 0) 0 (path ++ [0]).

Definition UnixServer_new (path : list Z) (a : answers) (s : Sys) : outcome (EndPoint * Sys) :=
  let '(e, s) := defer_close (EndPoint_new, s) in
  if decide (a_remove a ≠ 0 ∧ a_remove a ≠ ENOENT) then Ret (e, s)
  else
    let s := MkSys (opened s) (log s ++ [CRemove path]) in
    p ← sun_path_of path;
    let '(fd, s) := sys_open (CSocket AF_UNIX SOCK_STREAM) (a_fd a) s in
    let e := set_fd fd e in
    let '(ok, s) := sys_on fd (CBind fd (SaUn p)) (a_bind a) s in
    if negb ok then Ret (trigger_cleanup (e, s))
    else
      let '(ok, s) := sys_on fd (CListen fd 5) (a_listen a) s in
      if negb ok then Ret (trigger_cleanup (e, s)) else Ret (initialize e, s).

Definition UnixClient_new (path : list Z) (a : answers) (s : Sys) : outcome (EndPoint * Sys) :=
  let '(e, s) := defer_close (EndPoint_new, s) in
  let '(fd, s) := sys_open (CSocket AF_UNIX SOCK_STREAM) (a_fd a) s in
  let e := set_fd fd e in
  p ← sun_path_of path;
  let '(ok, s) := sys_on fd (COption fd (SO_SNDTIMEO 2000 0)) (a_option1 a) s in
  if negb ok then Ret (e, s)
  else
    let '(ok, s) := sys_on fd (CConnect fd (SaUn p)) (a_connect a) s in
    Ret (if ok then initialize e else e, s).

(** [a_aton] is what [inet_aton] makes of the address. *)
Definition TcpipClient_new (port : Z) (a : answers) (s : Sys) : EndPoint * Sys :=
  let '(e, s) := defer_close (EndPoint_new, s) in
  let '(fd, s) := sys_open (CSocket AF_INET SOCK_STREAM) (a_fd a) s in
  let e := set_fd fd e in
  match a_aton a with
  | None => (e, s)
  | Some ip =>
      let '(ok, s) := sys_on fd (COption fd (SO_SNDTIMEO 2000 0)) (a_option1 a) s in
      if negb ok then (e, s)
      else
        let '(ok, s) := sys_on fd (CConnect fd (SaIn (htons port) ip)) (a_connect a) s in
        (if ok then initialize e else e, s)
  end.

Record TcpipServer := MkTcpipServer { ep : EndPoint; port : Z; reuseport : Z }.

Definition set_ep (e : EndPoint) (t : TcpipServer) : TcpipServer := MkTcpipServer e (port t) (reuseport t).

(** The calls of [TcpipServer::initialize] after the socket was made; a false
    result is one of its early returns. *)
Definition bind_and_listen (a : answers) (t : TcpipServer) (s : Sys) : bool * Sys :=
  let fd := fd_ (ep t) in
  let '(ok, s) := sys_on fd (COption fd (SO_REUSEADDR 1)) (a_option1 a) s in
  if negb ok then (false, s)
  else
    let '(ok, s) :=
      if decide (reuseport t ≠ 0) then sys_on fd (COption fd (SO_REUSEPORT (reuseport t))) (a_option2 a) s else (true, s) in
    if negb ok then (false, s)
    else
      let '(ok, s) := sys_on fd (CBind fd (SaIn (htons (port t)) INADDR_ANY)) (a_bind a) s in
      if negb ok then (false, s) else sys_on fd (CListen fd 5) (a_listen a) s.

Definition TcpipServer_initialize (a : answers) (t : TcpipServer) (s : Sys) : TcpipServer * Sys :=
  if decide (state_ (ep t) = NOTHINGNESS) then
    let '(e, s) := defer_close (ep t, s) in
    let '(fd, s) := sys_open (CSocket AF_INET SOCK_STREAM) (a_fd a) s in
    let t := set_ep (set_fd fd e) t in
    let '(ok, s) := bind_and_listen a t s in
    (if ok then set_ep (initialize (ep t)) t else t, s)
  else (t, s).

Definition TcpipServer_new (p : Z) (lazy : bool) (a : answers) (s : Sys) : TcpipServer * Sys :=
  let t := MkTcpipServer EndPoint_new p 0 in
  if lazy then (t, s) else TcpipServer_initialize a t s.

Definition enableSharePort (t : TcpipServer) : TcpipServer := MkTcpipServer (ep t) (port t) 1.

(** ** [Pipe] *)
Record Pipe := MkPipe { fds0 : Z; fds1 : Z }.

(** [pipe2] gives two descriptors or leaves the members at -1. *)
Definition Pipe_new (r : option (Z * Z)) (o : gset Z) : Pipe * gset Z :=
  match r with Some (a, b) => (MkPipe a b, {[a; b]} ∪ o) | None => (MkPipe (-1) (-1), o) end.

Definition close_end (fd : Z) (o : gset Z) : gset Z := if decide (fd ≠ -1) then o ∖ {[fd]} else o.
Definition closeReadEnd (p : Pipe) (o : gset Z) : Pipe * gset Z := (MkPipe (-1) (fds1 p), close_end (fds0 p) o).
Definition closeWriteEnd (p : Pipe) (o : gset Z) : Pipe * gset Z := (MkPipe (fds0 p) (-1), close_end (fds1 p) o).
Definition Pipe_giveupOwnership (p : Pipe) : Pipe := MkPipe (-1) (-1).
Definition Pipe_destroy (p : Pipe) (o : gset Z) : gset Z :=
  let '(p, o) := closeReadEnd p o in (closeWriteEnd p o).2.

(** ** Runs

    An object of one of the classes, with the operations of its interface, and
    what the rest of the program does to descriptors in between. *)
Inductive endpoint_kind :=
| KUnixServer (path : list Z)
| KUnixClient (path : list Z)
| KTcpipServer (p : Z) (lazy : bool)
| KTcpipClient (p : Z)
| KTimer (c : Timer.Config) (flags : Z)
| KSignalFd (sig : Z).

Definition as_object (es : EndPoint * Sys) : TcpipServer * Sys := (MkTcpipServer es.1 0 0, es.2).

Definition construct (k : endpoint_kind) (a : answers) (s : Sys) : outcome (TcpipServer * Sys) :=
  match k with
  | KUnixServer p => as_object <$> UnixServer_new p a s
  | KUnixClient p => as_object <$> UnixClient_new p a s
  | KTcpipServer p lazy => Ret (TcpipServer_new p lazy a s)
  | KTcpipClient p => Ret (as_object (TcpipClient_new p a s))
  | KTimer c flags => Ret (as_object (Timer.Timer_new c flags a s))
  | KSignalFd sig => Ret (as_object (SignalFd_new sig a s))
  end.

Inductive endpoint_op :=
| EInitialize (a : answers)
| EShare
| ETransfer
| ETransferOwnership
| EOpen (fd : Z)      (** the program opens a descriptor *)
| EClose (fd : Z).    (** and closes one of its own *)

(** [others] are the descriptors the rest of the program answers for. *)
Record Run := MkRun { object : TcpipServer; sys : Sys; others : gset Z }.

(** The descriptor the destructor will close. *)
Definition owned (e : EndPoint) : gset Z :=
  match cleanup_ e with Some _ => if decide (fd_ e = -1) then ∅ else {[fd_ e]} | None => ∅ end.

Definition is_tcpip (k : endpoint_kind) : bool := match k with KTcpipServer _ _ => true | _ => false end.

Definition estep (k : endpoint_kind) (o : endpoint_op) (r : Run) : Run :=
  let '(MkRun t s others) := r in
  match o with
  | EInitialize a =>
      if is_tcpip k then let '(t, s) := TcpipServer_initialize a t s in MkRun t s others
      else MkRun (set_ep (initialize (ep t)) t) s others
  | EShare => MkRun (enableSharePort t) s others
  | ETransfer => MkRun (set_ep (transfer (ep t)).2 t) s (others ∪ owned (ep t))
  | ETransferOwnership => MkRun (set_ep (transferOwnership (ep t)).2 t) s (others ∪ owned (ep t))
  | EOpen fd => MkRun t (MkSys ({[fd]} ∪ opened s) (log s)) ({[fd]} ∪ others)
  | EClose fd => MkRun t (MkSys (opened s ∖ {[fd]}) (log s)) (others ∖ {[fd]})
  end.

(** The kernel gives descriptors that are not open, and the program closes only
    what is its own. *)
Definition fresh_fd (r : option Z) (s : Sys) : Prop :=
  match r with Some fd => 0 ≤ fd ∧ fd ∉ opened s | None => True end.
#[export] Instance fresh_fd_dec r s : Decision (fresh_fd r s).
Proof. destruct r; cbn; apply _. Defined.

Definition op_ok (o : endpoint_op) (r : Run) : Prop :=
  match o with
  | EInitialize a => fresh_fd (a_fd a) (sys r)
  | EOpen fd => 0 ≤ fd ∧ fd ∉ opened (sys r)
  | EClose fd => fd ∈ others r
  | _ => True
  end.
#[export] Instance op_ok_dec o r : Decision (op_ok o r).
Proof. destruct o; cbn; apply _. Defined.

Fixpoint erun (k : endpoint_kind) (os : list endpoint_op) (r : Run) : option Run :=
  match os with
  | [] => Some r
  | o :: os => if decide (op_ok o r) then erun k os (estep k o r) else None
  end.

(** ** Ownership *)

(** What is open is the object's and the others', and they share nothing. *)
Definition partitioned (e : EndPoint) (s : Sys) (others : gset Z) : Prop :=
  opened s = others ∪ owned e ∧ others ## owned e ∧ -1 ∉ opened s.

Lemma owned_set_state e st : owned (MkEndPoint (fd_ e) st (cleanup_ e)) = owned e.
Proof. done. Qed.

(** A deferred close: whatever the object had is closed, and it has the closure. *)
Lemma defer_close_partitioned e s o :
  partitioned e s o →
  let '(e', s') := defer_close (e, s) in
  opened s' = o ∧ cleanup_ e' = Some CloseThis ∧ state_ e' = state_ e ∧ -1 ∉ o.
Proof.
  intros (Ho & Hd & Hn). unfold defer_close, Defer_assign, Defer_destroy. cbn [fst snd].
  unfold partitioned, owned in *. destruct e as [fd st [[]|]]; cbn in *.
  - unfold Close. case_decide as Hf; cbn.
    + rewrite decide_False by lia. set_solver.
    + case_decide as Hx; cbn.
      * split_and!; [|done|done|set_solver]. rewrite Ho. destruct Hx as [_ Hx]. set_solver.
      * assert (fd ∈ opened s) by set_solver. tauto.
  - split_and!; [set_solver|done|done|set_solver].
Qed.

(** The socket that is made then is the object's. *)
Lemma opened_partitioned c r e s o :
  opened s = o → cleanup_ e = Some CloseThis → -1 ∉ o → fresh_fd r s →
  let '(fd, s') := sys_open c r s in partitioned (set_fd fd e) s' o ∧ log s' = log s ++ (match r with Some fd => [c fd] | None => [] end).
Proof.
  intros Ho Hc Hn Hr. unfold sys_open. destruct r as [fd|]; cbn in *.
  - unfold partitioned, owned. cbn. rewrite Hc. rewrite decide_False by lia. cbn. split; [|done]. split_and!; set_solver by lia.
  - unfold partitioned, owned. cbn. rewrite Hc. rewrite app_nil_r. set_solver.
Qed.

Lemma sys_on_opened fd c ok s : opened (sys_on fd c ok s).2 = opened s.
Proof. unfold sys_on. by case_decide. Qed.

Lemma partitioned_opened e s s' o : opened s' = opened s → partitioned e s o → partitioned e s' o.
Proof. unfold partitioned. intros ->. done. Qed.

Lemma partitioned_same e e' s o : fd_ e' = fd_ e → cleanup_ e' = cleanup_ e → partitioned e s o → partitioned e' s o.
Proof. unfold partitioned, owned. intros -> ->. done. Qed.

Lemma trigger_partitioned e s o :
  partitioned e s o → cleanup_ e = Some CloseThis → partitioned (trigger_cleanup (e, s)).1 (trigger_cleanup (e, s)).2 o.
Proof.
  intros (Ho & Hd & Hn) Hc. unfold trigger_cleanup, Defer_trigger, Defer_destroy. cbn [fst snd]. rewrite Hc. cbn.
  unfold partitioned, owned in *. rewrite Hc in *. cbn. case_decide as Hf.
  - rewrite decide_False by (intros [? ?]; done). set_solver.
  - rewrite decide_True by set_solver. cbn. set_solver.
Qed.

Lemma destroy_partitioned e s o : partitioned e s o → opened (EndPoint_destroy e s) = o.
Proof.
  intros (Ho & Hd & Hn). unfold EndPoint_destroy, Defer_destroy, owned in *.
  destruct (cleanup_ e) as [[]|]; cbn; [|set_solver]. case_decide as Hf; cbn in *.
  - rewrite decide_False by (intros [? ?]; done). set_solver.
  - rewrite decide_True by set_solver. cbn. set_solver.
Qed.

Lemma new_partitioned s : -1 ∉ opened s → partitioned EndPoint_new s (opened s).
Proof. intros H. unfold partitioned, owned. cbn. set_solver. Qed.

(** How all the sockets start. *)
Lemma socket_partitioned c r e s o :
  partitioned e s o → fresh_fd r s →
  let '(e1, s1) := defer_close (e, s) in
  let '(fd, s2) := sys_open c r s1 in
  partitioned (set_fd fd e1) s2 o ∧ cleanup_ e1 = Some CloseThis ∧ state_ e1 = state_ e.
Proof.
  intros Hp Hr. pose proof (defer_close_partitioned _ _ _ Hp) as H. destruct (defer_close (e, s)) as [e1 s1].
  destruct H as (Ho & Hc & Hs & Hn). pose proof (opened_partitioned c r e1 s1 o Ho Hc Hn) as H.
  destruct (sys_open c r s1) as [fd s2]. destruct H as [H _]; [|done].
  destruct r as [x|]; [|done]. cbn in *. destruct Hp as (Hq & _ & _). set_solver.
Qed.

(** Through the calls on a socket, to an early return or to the end; and that
    the socket stays with its object then. *)
Ltac calls :=
  repeat match goal with
    | |- context [sys_on ?fd ?c ?ok ?s] =>
        let E := fresh in let ok' := fresh "ok" in let s' := fresh "s" in
        pose proof (sys_on_opened fd c ok s) as E; destruct (sys_on fd c ok s) as [ok' s']; cbn [snd] in E; destruct ok'; cbn [negb]
    end.
Ltac settle :=
  cbn [fst snd ep set_ep]; eapply partitioned_same; [reflexivity|reflexivity|]; eapply partitioned_opened; [|eassumption]; congruence.

Lemma tcpip_initialize_partitioned a t s o :
  partitioned (ep t) s o → fresh_fd (a_fd a) s →
  let '(t', s') := TcpipServer_initialize a t s in partitioned (ep t') s' o.
Proof.
  intros Hp Hr. unfold TcpipServer_initialize. case_decide; [|done].
  pose proof (socket_partitioned (CSocket AF_INET SOCK_STREAM) _ _ _ _ Hp Hr) as H1. destruct (defer_close (ep t, s)) as [e1 s1].
  destruct (sys_open _ (a_fd a) s1) as [fd s2]. destruct H1 as (H1 & _ & _).
  unfold bind_and_listen. cbn [ep set_ep fd_ set_fd reuseport port]. case_decide; calls; settle.
Qed.

(** A new object with its closure, and the descriptor it then gets. *)
Definition closing : EndPoint := MkEndPoint (-1) NOTHINGNESS (Some CloseThis).

Lemma defer_close_new fd s : defer_close (set_fd fd EndPoint_new, s) = (set_fd fd closing, s).
Proof. done. Qed.

Lemma closing_partitioned s : -1 ∉ opened s → partitioned closing s (opened s).
Proof. intros H. unfold partitioned, owned. cbn. set_solver. Qed.

Lemma closing_opened c r s :
  -1 ∉ opened s → fresh_fd r s → let '(fd, s') := sys_open c r s in partitioned (set_fd fd closing) s' (opened s).
Proof.
  intros Hn Hr. pose proof (opened_partitioned c r closing s (opened s) eq_refl eq_refl Hn Hr) as H.
  destruct (sys_open c r s) as [fd s']. apply H.
Qed.

(** An object that has no descriptor needs no closure. *)
Lemma partitioned_closed s o : partitioned (set_fd (-1) closing) s o → partitioned (set_fd (-1) EndPoint_new) s o.
Proof. unfold partitioned, owned. cbn. done. Qed.

Ltac new_socket :=
  match goal with
  | Hn : -1 ∉ opened ?s, Hr : fresh_fd ?r ?s |- context [sys_open ?c ?r ?s1] =>
      let H := fresh "Hsock" in pose proof (closing_opened c r s1 Hn Hr) as H; cbn [opened] in H;
      destruct (sys_open c r s1) as [fd s2]
  end.

Lemma unix_server_partitioned p a s r :
  -1 ∉ opened s → fresh_fd (a_fd a) s → UnixServer_new p a s = Ret r → partitioned r.1 r.2 (opened s).
Proof.
  intros Hn Hr. unfold UnixServer_new. rewrite (defer_close_new (-1) s : defer_close (EndPoint_new, s) = (closing, s)).
  case_decide; [intros E; apply Ret_inj in E as <-; by apply closing_partitioned|].
  destruct (sun_path_of p) as [sp| |]; cbn [mbind outcome_bind]; [|done|done]. new_socket.
  calls; intros E; apply Ret_inj in E as <-; [settle|..];
    (apply trigger_partitioned; [|reflexivity]; eapply partitioned_opened; [|eassumption]; congruence).
Qed.

Lemma construct_partitioned k a s r :
  -1 ∉ opened s → fresh_fd (a_fd a) s → construct k a s = Ret r → partitioned (ep r.1) r.2 (opened s).
Proof.
  intros Hn Hr. destruct k as [p|p|p lazy|p|c fl|sig]; cbn [construct]; unfold as_object.
  - destruct (UnixServer_new p a s) as [e| |] eqn:E; cbn; intros H; simplify_eq. cbn. by eapply unix_server_partitioned.
  - unfold UnixClient_new. rewrite (defer_close_new (-1) s : defer_close (EndPoint_new, s) = (closing, s)). new_socket.
    destruct (sun_path_of p) as [sp| |]; cbn [mbind outcome_bind]; [|done|done].
    calls; intros E; apply Ret_inj in E as <-; settle.
  - intros E; apply Ret_inj in E as <-. unfold TcpipServer_new. destruct lazy; [by apply new_partitioned|].
    pose proof (tcpip_initialize_partitioned a (MkTcpipServer EndPoint_new p 0) s (opened s) (new_partitioned s Hn) Hr) as H.
    by destruct (TcpipServer_initialize _ _ _).
  - unfold TcpipClient_new. rewrite (defer_close_new (-1) s : defer_close (EndPoint_new, s) = (closing, s)). new_socket.
    destruct (a_aton a); [|by intros E; apply Ret_inj in E as <-]. calls; intros E; apply Ret_inj in E as <-; settle.
  - unfold Timer.Timer_new. new_socket. intros E; apply Ret_inj in E as <-. case_decide as Hf.
    + subst fd. cbn [fst snd ep]. eapply partitioned_closed; eassumption.
    + rewrite defer_close_new. destruct (Timer.notnull c); [|settle].
      pose proof (sys_on_opened fd (CSettime fd (Timer.to_itimerspec c)) true s2). settle.
  - unfold SignalFd_new. new_socket. intros E; apply Ret_inj in E as <-. case_decide as Hf.
    + rewrite defer_close_new. settle.
    + assert (fd = -1) as -> by lia. cbn [fst snd ep]. eapply partitioned_closed; eassumption.
Qed.

Lemma estep_partitioned k o r :
  partitioned (ep (object r)) (sys r) (others r) → op_ok o r →
  partitioned (ep (object (estep k o r))) (sys (estep k o r)) (others (estep k o r)).
Proof.
  destruct r as [t s ot]. cbn [object sys others]. intros Hp Hok. pose proof Hp as (Ho & Hd & Hn).
  destruct o as [a| | | |fd|fd]; cbn [estep op_ok] in *.
  - destruct (is_tcpip k); [|exact Hp]. pose proof (tcpip_initialize_partitioned a t s ot Hp Hok) as H.
    by destruct (TcpipServer_initialize a t s).
  - exact Hp.
  - unfold partitioned, owned, transfer in *. cbn. destruct (cleanup_ (ep t)); set_solver.
  - unfold partitioned, owned, transferOwnership in *. cbn. set_solver.
  - unfold partitioned in *. cbn in *. split_and!; [set_solver|set_solver|set_solver by lia].
  - unfold partitioned in *. cbn in *. set_solver.
Qed.

(** ** Properties *)

(** C16: descriptors of end points are neither lost nor taken from others.
    Whatever the system calls answer to the constructor of a server, a client, a
    timer or a signal descriptor, and to later attempts to initialize it, and
    however the object hands its descriptor over in between, the open
    descriptors are at every moment those of the rest of the program and the one
    of the object, apart from each other; when the object is destroyed its
    descriptor is closed, unless it was handed over, and nothing else is. *)
Theorem endpoint_owns k a s os r r' :
  -1 ∉ opened s → fresh_fd (a_fd a) s → construct k a s = Ret r →
  erun k os (MkRun r.1 r.2 (opened s)) = Some r' →
  opened (sys r') = others r' ∪ owned (ep (object r')) ∧ others r' ## owned (ep (object r')) ∧
  opened (EndPoint_destroy (ep (object r')) (sys r')) = others r'.
Proof.
  intros Hn Hr Hc Hrun.
  assert (partitioned (ep (object r')) (sys r') (others r')) as Hp.
  { pose proof (construct_partitioned _ _ _ _ Hn Hr Hc : partitioned (ep (object (MkRun r.1 r.2 (opened s)))) (sys (MkRun r.1 r.2 (opened s))) (others (MkRun r.1 r.2 (opened s)))) as Hp.
    revert Hp Hrun. generalize (MkRun r.1 r.2 (opened s)). induction os as [|o os IH]; intros r0 Hp E; cbn [erun] in E; [by simplify_eq|].
    case_decide; [|done]. by apply (IH (estep k o r0)); [apply estep_partitioned|]. }
  pose proof Hp as (H1 & H2 & _). split_and!; [done|done|by apply destroy_partitioned].
Qed.

(** The calls of a server that comes up, in order. *)
Definition server_calls (t : TcpipServer) (fd : Z) : list syscall :=
  [CSocket AF_INET SOCK_STREAM fd; COption fd (SO_REUSEADDR 1)] ++
  (if decide (reuseport t ≠ 0) then [COption fd (SO_REUSEPORT (reuseport t))] else []) ++
  [CBind fd (SaIn (htons (port t)) INADDR_ANY); CListen fd 5].

Definition server_answers (a : answers) (t : TcpipServer) : bool :=
  bool_decide (is_Some (a_fd a)) && a_option1 a && (bool_decide (reuseport t = 0) || a_option2 a) && a_bind a && a_listen a.

Lemma sys_on_fresh fd c ok s : fd ∈ opened s → sys_on fd c ok s = (ok, if ok then MkSys (opened s) (log s ++ [c]) else s).
Proof. intros H. unfold sys_on. destruct ok; [by rewrite decide_True|]. by rewrite decide_False by (intros [? _]; done). Qed.

Lemma sys_on_closed fd c ok s : fd ∉ opened s → sys_on fd c ok s = (false, s).
Proof. intros H. unfold sys_on. by rewrite decide_False by (intros [_ ?]; done). Qed.

(** A server is valid exactly when its socket was made, set up, bound and
    made to listen; then these are the calls it has made, with the port in
    network order, and otherwise the object stays as it was for another attempt. *)
Theorem server_valid_iff a t s :
  ep t = EndPoint_new → -1 ∉ opened s → fresh_fd (a_fd a) s →
  let '(t', s') := TcpipServer_initialize a t s in
  valid (ep t') = server_answers a t ∧
  (valid (ep t') = true → log s' = log s ++ server_calls t (fd_ (ep t')) ∧ fd_ (ep t') ∈ opened s') ∧
  (valid (ep t') = false → state_ (ep t') = NOTHINGNESS).
Proof.
  intros He Hn Hr. unfold TcpipServer_initialize. rewrite He. rewrite decide_True by done.
  rewrite (defer_close_new (-1) s : defer_close (EndPoint_new, s) = (closing, s)).
  unfold sys_open, server_answers, server_calls, bind_and_listen. destruct (a_fd a) as [fd|]; cbn [fd_ ep set_ep set_fd reuseport port].
  - rewrite (bool_decide_true (is_Some (Some fd))) by done. rewrite (sys_on_fresh fd); [|cbn; set_solver].
    destruct (a_option1 a); cbn [negb andb]; [|done].
    rewrite (bool_decide_decide (reuseport t = 0)).
    destruct (decide (reuseport t ≠ 0)) as [Hx|Hx]; destruct (decide (reuseport t = 0)); try done; cbn [orb].
    + rewrite (sys_on_fresh fd); [|cbn; set_solver]. destruct (a_option2 a); cbn [negb andb]; [|done].
      rewrite (sys_on_fresh fd); [|cbn; set_solver]. destruct (a_bind a); cbn [negb andb]; [|done].
      rewrite (sys_on_fresh fd); [|cbn; set_solver]. destruct (a_listen a); cbn; [|done].
      split_and!; [done| |done]. intros _. split; [by rewrite <- !app_assoc|set_solver].
    + rewrite (sys_on_fresh fd); [|cbn; set_solver]. destruct (a_bind a); cbn [negb andb]; [|done].
      rewrite (sys_on_fresh fd); [|cbn; set_solver]. destruct (a_listen a); cbn; [|done].
      split_and!; [done| |done]. intros _. split; [by rewrite <- !app_assoc|set_solver].
  - rewrite (bool_decide_false (is_Some None)) by (intros [? ?]; done). rewrite sys_on_closed by done. done.
Qed.

(** The time of a timer's configuration is kept: seconds and any number of
    milliseconds become a normal [timespec] of the same duration, as long as
    the seconds fit their 32 bits. *)
Theorem config_duration x y :
  0 ≤ x < 2 ^ 32 → 0 ≤ y < 2 ^ 32 → x + y / 1000 < 2 ^ 32 →
  let ts := Timer.SETTIMESPEC x y in
  0 ≤ tv_sec ts < 2 ^ 32 ∧ 0 ≤ tv_nsec ts < 1000000000 ∧ tv_sec ts * 1000000000 + tv_nsec ts = x * 1000000000 + y * 1000000.
Proof.
  intros Hx Hy Hs. unfold Timer.SETTIMESPEC, Timer.kThousand, Timer.kMillion. case_decide.
  - rewrite u32_small by mlia. case_decide; cbn; mlia.
  - case_decide; cbn; mlia.
Qed.

(** Where they do not, the seconds wrap round: an hour more than the limit is an hour. *)
Lemma config_wraps : Timer.SETTIMESPEC (2 ^ 32 - 1) 3601000 = Timespec 3600 0.
Proof. reflexivity. Qed.

(** A configuration with an interval and no first expiration passes [notnull],
    and the call it makes disarms the timer; one of less than ten milliseconds
    does not pass. *)
Lemma interval_alone_disarms n : 0 < n < 2 ^ 32 →
  Timer.notnull (Timer.MkConfig n 0 0 0) = true ∧
  it_value (Timer.to_itimerspec (Timer.MkConfig n 0 0 0)) = Timespec 0 0.
Proof. intros H. split; [|done]. unfold Timer.notnull. cbn -[bool_decide]. by rewrite bool_decide_true by lia. Qed.

Lemma short_value_not_armed n : 0 ≤ n < 10 → Timer.notnull (Timer.MkConfig 0 0 0 n) = false.
Proof. intros H. unfold Timer.notnull, Timer.kLeastDuration. cbn -[bool_decide]. by rewrite !bool_decide_false by lia. Qed.

(** A signal descriptor that could not be made is valid all the same. *)
Lemma failed_signalfd_valid sig a s : a_fd a = None → valid (SignalFd_new sig a s).1 = true ∧ fd_ (SignalFd_new sig a s).1 = -1.
Proof. intros H. unfold SignalFd_new, sys_open. rewrite H. done. Qed.

(** A path of 108 characters or more is written past the end of the address. *)
Lemma long_path_overflows path a s :
  107 < zlen path → a_remove a = 0 → UnixServer_new path a s = Undef.
Proof.
  intros Hp Hr. unfold UnixServer_new. rewrite (defer_close_new (-1) s : defer_close (EndPoint_new, s) = (closing, s)).
  rewrite Hr, decide_False by tauto. unfold sun_path_of, store_n. rewrite decide_False; [done|]. unfold SUN_PATH. len.
Qed.

Lemma close_end_open fd o : 0 ≤ fd → close_end fd o = o ∖ {[fd]}.
Proof. intros H. unfold close_end. by rewrite decide_True by lia. Qed.

Lemma close_end_none o : close_end (-1) o = o.
Proof. done. Qed.

(** The two ends of a pipe are closed once each, unless they were given up. *)
Lemma pipe_destroy a b o : 0 ≤ a → 0 ≤ b → a ≠ b → a ∉ o → b ∉ o →
  let '(p, o1) := Pipe_new (Some (a, b)) o in
  Pipe_destroy p o1 = o ∧
  Pipe_destroy (closeReadEnd p o1).1 (closeReadEnd p o1).2 = o ∧
  Pipe_destroy (Pipe_giveupOwnership p) o1 = o1.
Proof.
  intros Ha Hb Hab Hna Hnb. cbn [Pipe_new]. unfold Pipe_destroy, closeReadEnd, closeWriteEnd, Pipe_giveupOwnership. cbn [fst snd fds0 fds1].
  rewrite !close_end_none, !close_end_open by done. set_solver.
Qed.

(** ** Witnesses *)
Definition ok_answers (fd : Z) : answers := Answers ENOENT (Some fd) true true true true (Some 0) true.
Definition sample_sys : Sys := MkSys {[3]} [].

Definition sample_run : list endpoint_op := [EShare; EInitialize (ok_answers 4); EOpen 5; ETransferOwnership; EClose 4; EOpen 4].

Lemma endpoint_owns_witness :
  let r' := default (MkRun (MkTcpipServer EndPoint_new 0 0) sample_sys ∅)
    (erun (KTcpipServer 80 true) sample_run (MkRun (MkTcpipServer EndPoint_new 80 0) sample_sys {[3]})) in
  opened (sys r') = others r' ∪ owned (ep (object r')) ∧ others r' ## owned (ep (object r')) ∧
  opened (EndPoint_destroy (ep (object r')) (sys r')) = others r'.
Proof.
  apply (endpoint_owns (KTcpipServer 80 true) (ok_answers 9) sample_sys sample_run (MkTcpipServer EndPoint_new 80 0, sample_sys)).
  - by_eval.
  - by_eval.
  - reflexivity.
  - vm_compute. reflexivity.
Defined.

Lemma server_valid_iff_witness :
  let '(t', s') := TcpipServer_initialize (ok_answers 4) (MkTcpipServer EndPoint_new 80 1) sample_sys in
  valid (ep t') = server_answers (ok_answers 4) (MkTcpipServer EndPoint_new 80 1) ∧
  (valid (ep t') = true → log s' = log sample_sys ++ server_calls (MkTcpipServer EndPoint_new 80 1) (fd_ (ep t')) ∧ fd_ (ep t') ∈ opened s') ∧
  (valid (ep t') = false → state_ (ep t') = NOTHINGNESS).
Proof. apply (server_valid_iff (ok_answers 4) (MkTcpipServer EndPoint_new 80 1) sample_sys); [reflexivity|by_eval|by_eval]. Defined.

Lemma config_duration_witness :
  let ts := Timer.SETTIMESPEC 2 3500 in
  0 ≤ tv_sec ts < 2 ^ 32 ∧ 0 ≤ tv_nsec ts < 1000000000 ∧ tv_sec ts * 1000000000 + tv_nsec ts = 2 * 1000000000 + 3500 * 1000000.
Proof. apply (config_duration 2 3500); [lia|lia|reflexivity]. Defined.
