(* ===== verification/FdPass.v ===== *)
(** * Descriptors sent over sockets

    socket/monitor/sock.cpp ([SendFd], [RecvFd]) and the programs io/scm-send.c
    and io/scm-recv.c.  A descriptor travels in a control message: a header of
    sixteen bytes, the number, and padding.  The kernel is a parameter: what it
    makes of a message ([transmit]), given the tables of open files of the two
    processes. *)
From Stdlib Require Import ZArith Lia.
From stdpp Require Import base tactics numbers list gmap sets.
From S2P Require Import Prelude.

Open Scope Z_scope.

(** ** Control messages of <sys/socket.h> on a 64-bit machine *)
Definition CMSG_ALIGN (n : Z) : Z := Z.land (n + 7) (Z.lnot 7).
Definition CMSG_HDR : Z := 16.
Definition CMSG_SPACE (n : Z) : Z := CMSG_ALIGN n + CMSG_ALIGN CMSG_HDR.
Definition CMSG_LEN (n : Z) : Z := CMSG_ALIGN CMSG_HDR + n.
Definition SOL_SOCKET : Z := 1.
Definition SCM_RIGHTS : Z := 1.

(** [CMSG_FIRSTHDR]: the offset of the first header, or a null pointer. *)
Definition CMSG_FIRSTHDR (controllen : Z) : option Z := if decide (CMSG_HDR ≤ controllen) then Some 0 else None.
Definition CMSG_DATA (h : Z) : Z := h + CMSG_HDR.

Definition le64 (v : Z) : list Z :=
  [v mod 256; v / 2 ^ 8 mod 256; v / 2 ^ 16 mod 256; v / 2 ^ 24 mod 256; v / 2 ^ 32 mod 256; v / 2 ^ 40 mod 256; v / 2 ^ 48 mod 256; v / 2 ^ 56 mod 256].
Definition le32 (v : Z) : list Z := [v mod 256; v / 256 mod 256; v / 65536 mod 256; v / 16777216 mod 256].
Definition store64 (m : list Z) (i v : Z) : outcome (list Z) := store_n m i (le64 v).
Definition load64 (m : list Z) (i : Z) : outcome Z :=
  bs ← load_n m i 8;
  Ret (foldr (λ b v, b + 256 * v) 0 bs).

(** A message: its data and its control bytes. *)
Record Msg := MkMsg { data : list Z; control : list Z }.

(** ** [SendFd] and [RecvFd] *)

(** The header and the number, written into the control buffer. *)
Definition put_rights (buf : list Z) (fd : Z) : outcome (list Z) :=
  match CMSG_FIRSTHDR (zlen buf) with
  | None => Undef
  | Some h =>
      buf ← store64 buf h (CMSG_LEN 4);
      buf ← store32 buf (h + 8) SOL_SOCKET;
      buf ← store32 buf (h + 12) SCM_RIGHTS;
      store32 buf (CMSG_DATA h) fd
  end.

(** [sent] is whether [sendmsg] succeeds. *)
Definition SendFd (fd : Z) (sent : bool) : outcome (bool * Msg) :=
  buf ← put_rights (replicate (Z.to_nat (CMSG_SPACE 4)) 0) fd;
  Ret (sent, MkMsg [0] buf).

(** The number in the control bytes that were received; [None] is the failure of
    the assertion, which evaluates its parts from left to right. *)
Definition get_rights (c : list Z) : outcome (option Z) :=
  match CMSG_FIRSTHDR (zlen c) with
  | None => Ret None
  | Some h =>
      len ← load64 c h;
      if decide (len ≠ CMSG_LEN 4) then Ret None
      else
        level ← load32 c (h + 8);
        if decide (level ≠ SOL_SOCKET) then Ret None
        else
          type ← load32 c (h + 12);
          if decide (type ≠ SCM_RIGHTS) then Ret None
          else fd ← load32 c (CMSG_DATA h); Ret (Some fd)
  end.

(** [r] is the message [recvmsg] gives, or its failure. *)
Definition RecvFd (r : option Msg) : outcome (option Z) :=
  match r with
  | None => Ret (Some (-1))
  | Some m => get_rights (control m)
  end.

(** ** The programs *)
Inductive action :=
| AOpen (fd : Z)
| ASocket (datagram : bool) (fd : Z)
| ASend (m : Msg)
| AClose (fd : Z)
| AAccept (fd : Z)
| AWrite (bytes : list Z).

(** The options [getopt] returns: [None] is the usage message and the end. *)
Fixpoint datagram_option (opts : list Z) (d : bool) : option bool :=
  match opts with
  | [] => Some d
  | o :: opts => if decide (o = 100) then datagram_option opts true else None
  end.

(** io/scm-send.c as it is compiled, to send descriptors.  [nargs] is the
    number of arguments after the options; [msg.msg_iov] is never set, so that
    the message has no data. *)
Definition scm_send (opts : list Z) (nargs : Z) (opened : option Z) (sfd : Z) (connected sent : bool) : outcome (Z * list action) :=
  match datagram_option opts false with
  | None => Ret (0, [])
  | Some d =>
      if decide (nargs ≠ 1) then Ret (1, [])
      else
        match opened with
        | None => Ret (1, [])
        | Some fd =>
            buf ← put_rights (replicate (Z.to_nat (CMSG_SPACE 4)) 0) fd;
            let acts := [AOpen fd; ASocket d sfd] in
            if negb connected then Ret (1, acts ++ [AClose sfd])
            else if negb sent then Ret (1, acts ++ [AClose sfd])
            else Ret (0, acts ++ [ASend (MkMsg [] buf); AClose sfd; AClose fd])
        end
  end.

(** The loop of io/scm-recv.c over what [read] gives: [None] is an error. *)
Fixpoint copy_out (reads : list (option (list Z))) : list action * bool :=
  match reads with
  | [] => ([], true)
  | None :: _ => ([], false)
  | Some [] :: _ => ([], true)
  | Some bs :: reads => let '(acts, ok) := copy_out reads in (AWrite bs :: acts, ok)
  end.

Definition CLEAN (d : bool) (lfd sfd : Z) : list action := (if d then [] else [AClose lfd]) ++ [AClose sfd].

(** What the calls of io/scm-recv.c answer. *)
Record recv_answers := RecvAnswers {
  r_remove : bool;
  r_socket : Z;
  r_bind : bool;
  r_listen : bool;
  r_accept : option Z;
  r_msg : option Msg;
  r_reads : list (option (list Z));
  r_peercred : bool;
}.

(** From the message on: when [recvmsg] fails the buffer is not written and the
    length is still its size.  The result has no exit code when the program is
    aborted. *)
Definition scm_recv_message (d : bool) (lfd sfd : Z) (a : recv_answers) : outcome (option Z * list action) :=
  match r_msg a with
  | None => Undef
  | Some m =>
      r ← get_rights (control m);
      match r with
      | None => Ret (None, [])
      | Some fd =>
          let '(acts, ok) := copy_out (r_reads a) in
          if negb ok then Ret (Some 1, acts ++ [AClose fd])
          else Ret (Some (if r_peercred a then 0 else 1), acts ++ [AClose fd] ++ CLEAN d lfd sfd)
      end
  end.

Definition scm_recv (opts : list Z) (a : recv_answers) : outcome (option Z * list action) :=
  match datagram_option opts false with
  | None => Ret (Some 0, [])
  | Some d =>
      if negb (r_remove a) then Ret (Some 1, [])
      else
        let fd := r_socket a in
        let acts := [ASocket d fd] in
        if negb (r_bind a) then Ret (Some 1, acts ++ [AClose fd])
        else if d then '(rc, more) ← scm_recv_message d fd fd a; Ret (rc, acts ++ more)
        else if negb (r_listen a) then Ret (Some 1, acts ++ [AClose fd])
        else
          match r_accept a with
          | None => Ret (Some 1, acts ++ [AClose fd])
          | Some sfd => '(rc, more) ← scm_recv_message d fd sfd a; Ret (rc, acts ++ [AAccept sfd] ++ more)
          end
  end.

(** ** The bytes *)
Definition rights (fd : Z) : list Z := le64 (CMSG_LEN 4) ++ le32 SOL_SOCKET ++ le32 SCM_RIGHTS ++ le32 fd.

Definition is_fd (v : Z) : Prop := 0 ≤ v ≤ 2147483647.

Lemma put_rights_bytes fd : put_rights (replicate (Z.to_nat (CMSG_SPACE 4)) 0) fd = Ret (rights fd ++ replicate 4 0).
Proof. reflexivity. Qed.

Lemma load32_le32 v : is_fd v → s32 (v mod 256 + 256 * (v / 256 mod 256) + 65536 * (v / 65536 mod 256) + 16777216 * (v / 16777216 mod 256)) = v.
Proof.
  intros H. unfold is_fd in H.
  assert (v / 65536 = v / 256 / 256) as -> by (by rewrite Z.div_div by lia).
  assert (v / 16777216 = v / 256 / 256 / 256) as -> by (rewrite (Z.div_div v 256 256), Z.div_div by lia; done).
  replace (_ + _ + _ + _) with v; [by apply s32_small; lia|].
  pose proof (Z.div_mod v 256 ltac:(lia)). pose proof (Z.div_mod (v / 256) 256 ltac:(lia)). pose proof (Z.div_mod (v / 256 / 256) 256 ltac:(lia)).
  assert (v / 256 / 256 / 256 mod 256 = v / 256 / 256 / 256) as -> by (apply Z.mod_small; mlia). lia.
Qed.

Lemma get_rights_bytes fd pad : is_fd fd → get_rights (rights fd ++ pad) = Ret (Some fd).
Proof.
  intros H. unfold get_rights, CMSG_FIRSTHDR. rewrite decide_True by (rewrite length_app; change (length (rights fd)) with 20%nat; unfold CMSG_HDR; lia).
  assert (load_n (rights fd ++ pad) 0 8 = Ret (le64 (CMSG_LEN 4))) as E1 by (apply (load_n_app [] (le64 (CMSG_LEN 4)) (le32 SOL_SOCKET ++ le32 SCM_RIGHTS ++ le32 fd ++ pad)); done).
  assert (load_n (rights fd ++ pad) 8 4 = Ret (le32 SOL_SOCKET)) as E2 by (apply (load_n_app (le64 (CMSG_LEN 4)) (le32 SOL_SOCKET) (le32 SCM_RIGHTS ++ le32 fd ++ pad)); done).
  assert (load_n (rights fd ++ pad) 12 4 = Ret (le32 SCM_RIGHTS)) as E3
    by (apply (load_n_app (le64 (CMSG_LEN 4) ++ le32 SOL_SOCKET) (le32 SCM_RIGHTS) (le32 fd ++ pad)); done).
  assert (load_n (rights fd ++ pad) 16 4 = Ret (le32 fd)) as E4
    by (apply (load_n_app (le64 (CMSG_LEN 4) ++ le32 SOL_SOCKET ++ le32 SCM_RIGHTS) (le32 fd) pad); done).
  unfold load64, load32, CMSG_DATA, CMSG_HDR. rewrite E1. cbind. rewrite decide_False by (intros Hf; by apply Hf).
  change (0 + 8) with 8. rewrite E2. cbind. rewrite decide_False by (intros Hf; by apply Hf).
  change (0 + 12) with 12. rewrite E3. cbind. rewrite decide_False by (intros Hf; by apply Hf).
  change (0 + 16) with 16. rewrite E4. cbind. cbn [lookup_total list_lookup_total le32]. by rewrite load32_le32.
Qed.

(** ** The kernel

    [transmit m s r] is the message that arrives and the files the receiver then
    has.  unix(7): a message with at least one byte of data and the rights to a
    file the sender has open arrives with the number of a new descriptor of the
    receiver for the same file; without data nothing arrives on a stream. *)
Section kernel.
Context {File : Type} (transmit : Msg → gmap Z File → gmap Z File → option (Msg * gmap Z File)).

Definition rights_delivered : Prop := ∀ d pad fd f sender receiver,
  d ≠ [] → length pad = 4%nat → is_fd fd → sender !! fd = Some f → (∀ x, x ∈ dom receiver → 0 ≤ x < 2147483647) →
  ∃ new pad', is_fd new ∧ receiver !! new = None ∧
    transmit (MkMsg d (rights fd ++ pad)) sender receiver = Some (MkMsg d (rights new ++ pad'), <[new := f]> receiver).

Definition stream_needs_data : Prop := ∀ c sender receiver, transmit (MkMsg [] c) sender receiver = None.

(** ** Properties *)

(** C15: a descriptor that is sent is received: whatever open file of the sender
    [SendFd] is given, the message it makes lets [RecvFd] return a new
    descriptor of the receiver for the same file, with no access outside the
    control buffers and no failed assertion. *)
Theorem descriptor_passes fd f sender receiver :
  rights_delivered → is_fd fd → sender !! fd = Some f → (∀ x, x ∈ dom receiver → 0 ≤ x < 2147483647) →
  ∃ m m' new, SendFd fd true = Ret (true, m) ∧ transmit m sender receiver = Some (m', <[new := f]> receiver) ∧
    receiver !! new = None ∧ RecvFd (Some m') = Ret (Some new).
Proof.
  intros Hk Hfd Hf Hr. destruct (Hk [0] (replicate 4 0) fd f sender receiver) as (new & pad' & Hn & Hnew & E); [done..|].
  exists (MkMsg [0] (rights fd ++ replicate 4 0)), (MkMsg [0] (rights new ++ pad')), new.
  split_and!; [|done|done|by apply get_rights_bytes]. unfold SendFd. by rewrite put_rights_bytes.
Qed.

(** The program scm-send sends no data: over a stream its descriptor never
    arrives, and the receiver, which finds no control message when the
    connection is closed, is aborted by its assertion. *)
Lemma scm_send_lost fd sfd acts :
  stream_needs_data → scm_send [] 1 (Some fd) sfd true true = Ret (0, acts) →
  ∃ m, ASend m ∈ acts ∧ ∀ sender receiver, transmit m sender receiver = None.
Proof.
  intros Hk E. unfold scm_send in E. cbn [datagram_option negb] in E. rewrite decide_False in E by tauto.
  rewrite put_rights_bytes in E. cbind. cbn [mbind outcome_bind] in E. apply Ret_inj in E. simplify_eq.
  exists (MkMsg [] (rights fd ++ replicate 4 0)). split; [|intros; apply Hk]. cbn [app]. rewrite !elem_of_cons. right. right. by left.
Qed.
End kernel.

Lemma scm_recv_eof a d lfd sfd : r_msg a = Some (MkMsg [] []) → scm_recv_message d lfd sfd a = Ret (None, []).
Proof. intros H. unfold scm_recv_message. by rewrite H. Qed.

(** What is read from the descriptor that was received. *)
Lemma copy_out_all chunks tail :
  Forall (λ c, c ≠ []) chunks → copy_out ((Some <$> chunks) ++ Some [] :: tail) = (AWrite <$> chunks, true).
Proof. induction 1 as [|c cs Hc _ IH]; [done|]. cbn. destruct c; [done|]. cbn in IH. by rewrite IH. Qed.

(** Scm-recv prints the file whose descriptor it is sent: all of it, in
    order, then closes that descriptor and its own sockets, each once. *)
Theorem scm_recv_prints d a fd pad chunks tail sfd :
  r_remove a = true → r_bind a = true → r_listen a = true → r_accept a = Some sfd → r_peercred a = true →
  is_fd fd → r_msg a = Some (MkMsg d (rights fd ++ pad)) →
  Forall (λ c, c ≠ []) chunks → r_reads a = (Some <$> chunks) ++ Some [] :: tail →
  scm_recv [] a = Ret (Some 0, [ASocket false (r_socket a); AAccept sfd] ++ (AWrite <$> chunks) ++ [AClose fd; AClose (r_socket a); AClose sfd]).
Proof.
  intros Hr Hb Hl Ha Hp Hfd Hm Hc Hs. unfold scm_recv. cbn [datagram_option]. rewrite Hr, Hb, Hl, Ha. cbn [negb].
  unfold scm_recv_message. rewrite Hm. cbn [control]. rewrite get_rights_bytes by done. cbind. rewrite Hs, copy_out_all by done.
  cbn [negb]. rewrite Hp. done.
Qed.

(** ** Witnesses *)

(** A kernel that takes the next number. *)
Definition next_fd {File} (r : gmap Z File) : Z := 1 + foldr Z.max 0 (elements (dom r)).

Definition transmit_next (m : Msg) (sender receiver : gmap Z Z) : option (Msg * gmap Z Z) :=
  match data m with
  | [] => None
  | d =>
      match get_rights (control m) with
      | Ret (Some fd) =>
          f ← sender !! fd;
          let new := next_fd receiver in
          Some (MkMsg d (rights new ++ replicate 4 0), <[new := f]> receiver)
      | _ => None
      end
  end.

Lemma next_fd_fresh {File} (r : gmap Z File) x : x ∈ dom r → x < next_fd r.
Proof.
  intros Hx%elem_of_elements. unfold next_fd. induction (elements (dom r)) as [|y l IH]; [by apply not_elem_of_nil in Hx|].
  apply elem_of_cons in Hx as [->|Hx]; cbn; [lia|]. specialize (IH Hx). lia.
Qed.

Lemma next_fd_range {File} (r : gmap Z File) : (∀ x, x ∈ dom r → 0 ≤ x < 2147483647) → is_fd (next_fd r).
Proof.
  intros H. unfold next_fd, is_fd. assert (∀ x, x ∈ elements (dom r) → 0 ≤ x < 2147483647) as H' by (intros x Hx; apply H; by apply elem_of_elements).
  clear H. induction (elements (dom r)) as [|y l IH]; cbn [foldr]; [lia|].
  pose proof (H' y ltac:(set_solver)). assert (∀ x, x ∈ l → 0 ≤ x < 2147483647) as Hl by (intros; apply H'; set_solver).
  specialize (IH Hl). lia.
Qed.

Lemma transmit_next_delivers : rights_delivered transmit_next.
Proof.
  intros d pad fd f sender receiver Hd Hp Hfd Hf Hr. exists (next_fd receiver), (replicate 4 0).
  split_and!; [by apply next_fd_range| |].
  - apply not_elem_of_dom. intros Hx%next_fd_fresh. lia.
  - unfold transmit_next. cbn [data control]. destruct d as [|b d]; [done|]. rewrite get_rights_bytes by done. rewrite Hf. done.
Qed.

Definition sample_sender : gmap Z Z := {[7 := 1000]}.
Definition sample_receiver : gmap Z Z := {[0 := 1; 3 := 2]}.

Lemma descriptor_passes_witness :
  ∃ m m' new, SendFd 7 true = Ret (true, m) ∧ transmit_next m sample_sender sample_receiver = Some (m', <[new := 1000]> sample_receiver) ∧
    sample_receiver !! new = None ∧ RecvFd (Some m') = Ret (Some new).
Proof.
  apply (descriptor_passes transmit_next 7 1000 sample_sender sample_receiver); [exact transmit_next_delivers|unfold is_fd; lia|reflexivity|].
  intros x Hx. assert (x = 0 ∨ x = 3) as [-> | ->]; [|lia|lia].
  unfold sample_receiver in Hx. rewrite dom_insert_L, dom_singleton_L in Hx. set_solver.
Defined.

Definition sample_answers : recv_answers :=
  RecvAnswers true 3 true true (Some 4) (Some (MkMsg [0] (rights 5 ++ replicate 4 0))) [Some [104; 105]; Some [10]; Some []] true.

Lemma scm_recv_prints_witness :
  scm_recv [] sample_answers = Ret (Some 0, [ASocket false 3; AAccept 4] ++ (AWrite <$> [[104; 105]; [10]]) ++ [AClose 5; AClose 3; AClose 4]).
Proof.
  apply (scm_recv_prints [0] sample_answers 5 (replicate 4 0) [[104; 105]; [10]] [] 4);
    [reflexivity..|unfold is_fd; lia|reflexivity|by repeat constructor|reflexivity].
Defined.
