(* ===== verification/ProcUtil.v ===== *)
(** * socket/monitor/util.cpp: names of processes, daemons and times

    [NiceName] gives the process another name: it finds the segments of the
    process in /proc/self/stat and tells the kernel a new place of the
    arguments.  [Daemon::run] makes a daemon by forking twice, with a pipe from
    the first process to the last.  C strings are the lists of their
    characters; what files, [readlink] and [fork] give are arguments. *)
From Stdlib Require Import ZArith Lia.
From stdpp Require Import base tactics numbers list gmap sets.
From S2P Require Import Prelude.
From S2P Require Import WeightCodec.
From S2P Require Import Endpoint.

Open Scope Z_scope.

(** ** [sscanf] with "%lu" *)
Definition ULONG_MAX : Z := 18446744073709551615.

(** One conversion: the value and what follows, or a matching failure. *)
Definition scan_lu (s : list Z) : option (Z * list Z) :=
  let '(neg, s) := match skip_spaces s with 45 :: s => (true, s) | 43 :: s => (false, s) | s => (false, s) end in
  match span_digits s with
  | ([], _) => None
  | (d, r) =>
      let v := digits_value 0 d in
      Some (if decide (v > ULONG_MAX) then ULONG_MAX else wrap 64 (if neg : bool then - v else v), r)
  end.

(** "%lu %lu ...": as many as asked for, or fewer when one does not match. *)
Fixpoint scan_lus (n : nat) (s : list Z) : list Z :=
  match n with
  | O => []
  | S n => match scan_lu s with Some (v, r) => v :: scan_lus n r | None => [] end
  end.

(** ** [NiceName] *)

(** [fgets(buf, n, fp)]: a line with its end, or as much as there is room for. *)
Fixpoint line (n : nat) (s : list Z) : list Z :=
  match n, s with
  | S n, c :: s => if decide (c = 10) then [c] else c :: line n s
  | _, _ => []
  end.
Definition fgets (n : Z) (s : list Z) : option (list Z) :=
  match s with [] => None | _ => Some (line (Z.to_nat (n - 1)) s) end.

(** [strchr(p, ' ')] as the rest of the string from the character on. *)
Fixpoint from_space (s : list Z) : option (list Z) :=
  match s with
  | [] => None
  | c :: s' => if decide (c = 32) then Some s else from_space s'
  end.

(** [SKIPFIELDS] with the check of the pointer after it: [None] is the return of -1. *)
Fixpoint SKIPFIELDS (n : nat) (p : option (list Z)) : option (list Z) :=
  match n with
  | O => p
  | S n => p ← p; SKIPFIELDS n (from_space (tail p))
  end.

(** [struct prctl_mm_map] as it is filled. *)
Record mm_map := MmMap {
  start_code : Z; end_code : Z; start_stack : Z;
  start_data : Z; end_data : Z; start_brk : Z; brk : Z;
  arg_start : Z; arg_end : Z; env_start : Z; env_end : Z;
  exe_fd : Z;
}.

(** The fields of the line.  The second call has seven conversions, the fourth
    and the fifth without an object. *)
Definition read_stat (buf : list Z) (name_addr name_size brk_val : Z) : option mm_map :=
  p ← SKIPFIELDS 24 (from_space buf);
  match scan_lus 3 p with
  | [sc; ec; ss] =>
      p ← SKIPFIELDS 19 (Some p);
      match scan_lus 7 p with
      | [sd; ed; sb; _; _; se; ee] =>
          Some (MmMap sc ec ss sd ed sb brk_val name_addr (wrap 64 (name_addr + name_size + 1)) se ee (-1))
      | _ => None
      end
  | _ => None
  end.

(** [None] is the result -1 without a call of [prctl]; a file that cannot be
    opened is [None].  An empty file leaves the buffer as it is. *)
Definition NiceName (stat : option (list Z)) (name_addr name_size brk_val : Z) : outcome (option mm_map) :=
  match stat with
  | None => Ret None
  | Some s =>
      match fgets 2048 s with
      | None => Undef
      | Some buf => Ret (read_stat buf name_addr name_size brk_val)
      end
  end.

(** ** [WhichExe]

    [nr] is what [readlink] returns; the buffer has 1024 bytes, of which the
    first tells whether it was filled before. *)
Definition WhichExe (buf : list Z) (link : option (list Z)) : outcome (list Z) :=
  c ← load buf 0;
  if decide (c ≠ 0) then Ret buf
  else
    let '(nr, buf) :=
      match link with
      | Some l => let l := take 1024 l in (zlen l, l ++ drop (length l) buf)
      | None => (-1, buf)
      end in
    store buf nr 0.

(** ** [DefaultTimeFormatter] and [Now]

    "%d.%03d" into 32 bytes. *)
Definition fmt_03d (n : Z) : list Z := let s := fmt_d n in replicate (3 - length s) 48 ++ s.
Definition DefaultTimeFormatter (buf : list Z) (seconds milliseconds : Z) : outcome (list Z) :=
  '(_, buf) ← sprintf buf 0 (fmt_d seconds ++ [46] ++ fmt_03d milliseconds); Ret buf.

(** The seconds of the clock become an [int]. *)
Definition Now (buf : list Z) (sec nsec : Z) : outcome (list Z) := DefaultTimeFormatter buf (s32 sec) (nsec / 1000000).

(** [util::Sleep]: the timeout [poll] is called with, if it is called. *)
Definition Sleep (ms : Z) : option Z := if decide (ms ≤ 0 ∨ 0x1fffff ≤ ms) then None else Some ms.

(** ** [Daemon::run]

    What one process does, given what its calls of [fork] return; with [main]
    goes what descriptors are open while it runs. *)
Inductive daemon_act := DWait (pid : Z) | DExit | DSetsid | DOnfork (fd : Z) | DMain (fd : Z) (o : gset Z).

Definition kCorruption : Z := 2.

(** The result, what was done, and the descriptors that are open when the
    function is left: the pipe's object is destroyed, except by [exit]. *)
Definition Daemon_run (r : option (Z * Z)) (fork1 fork2 : Z) (has_onfork : bool) (o : gset Z) : option Z * list daemon_act * gset Z :=
  let '(p, o) := Pipe_new r o in
  if decide (fork1 = -1) then (Some kCorruption, [], Pipe_destroy p o)
  else if decide (fork1 ≠ 0) then
    let '(p, o) := closeReadEnd p o in
    let fd := fds1 p in
    (Some 0, (if has_onfork then [DOnfork fd] else []) ++ [DWait fork1], Pipe_destroy (Pipe_giveupOwnership p) o)
  else if decide (fork2 ≠ 0) then (None, [DExit], o)
  else
    let '(p, o) := closeWriteEnd p o in
    (Some kCorruption, [DSetsid; DMain (fds0 p) o], Pipe_destroy p o).

(** ** Lines of fields *)
Fixpoint join (fs : list (list Z)) : list Z :=
  match fs with
  | [] => []
  | [f] => f
  | f :: fs => f ++ 32 :: join fs
  end.

Definition word (f : list Z) : Prop := Forall (λ c, c ≠ 32) f.

Lemma join_cons f fs : fs ≠ [] → join (f :: fs) = f ++ 32 :: join fs.
Proof. by destruct fs. Qed.

Lemma from_space_word f r : word f → from_space (f ++ 32 :: r) = Some (32 :: r).
Proof. induction 1 as [|c f Hc _ IH]; cbn; [done|]. by rewrite decide_False. Qed.

Lemma skip_join n fs :
  Forall word fs → (n < length fs)%nat → SKIPFIELDS n (Some (32 :: join fs)) = Some (32 :: join (drop n fs)).
Proof.
  revert fs. induction n as [|n IH]; intros fs Hf Hn; [done|]. destruct fs as [|f fs]; [cbn in Hn; lia|].
  apply Forall_cons in Hf as [Hw Hf]. cbn in Hn. cbn [SKIPFIELDS mbind option_bind tail drop].
  rewrite join_cons by (intros ->; cbn in Hn; lia). rewrite from_space_word by done. apply IH; [done|lia].
Qed.

(** ** Numbers in a line *)
Lemma scan_lu_fmt v r : 0 ≤ v ≤ ULONG_MAX → scan_lu (32 :: fmt_u v ++ 32 :: r) = Some (v, 32 :: r).
Proof.
  intros Hv. unfold ULONG_MAX in Hv. unfold scan_lu. cbn [skip_spaces]. change (isspace 32) with true. cbn match.
  destruct (fmt_u_nonempty v ltac:(lia)) as (c & s & E & Hc).
  assert (skip_spaces (fmt_u v ++ 32 :: r) = fmt_u v ++ 32 :: r) as ->.
  { rewrite E. cbn. assert (isspace c = false) as -> by (unfold isspace; rewrite bool_decide_eq_false; lia). done. }
  assert (digits (fmt_u v)) as Hd by (apply dec_loop_digits; lia).
  assert (digits_value 0 (fmt_u v) = v) as Hval.
  { unfold fmt_u. rewrite <- (app_nil_r (dec_loop 20 v)), dec_loop_value by (try lia; cbn; lia). cbn. lia. }
  assert (∀ b : bool, b = false → match span_digits (fmt_u v ++ 32 :: r) with
            | ([], _) => None
            | (d, r0) => let v0 := digits_value 0 d in Some (if decide (v0 > ULONG_MAX) then ULONG_MAX else wrap 64 (if b then - v0 else v0), r0)
            end = Some (v, 32 :: r)) as H.
  { intros b ->. rewrite span_digits_app by done. rewrite E. rewrite <- E. cbn zeta. rewrite Hval.
    rewrite decide_False by (unfold ULONG_MAX; lia). unfold wrap. rewrite Z.mod_small by (eval_pow; lia). done. }
  rewrite E in *. cbn [app] in *. destruct c as [|c|]; [lia| |lia].
  do 7 (destruct c as [c|c|]; try lia; try (exact (H false eq_refl))).
Qed.

Lemma scan_lus_fmt vs r : Forall (λ v, 0 ≤ v ≤ ULONG_MAX) vs →
  scan_lus (length vs) (foldr (λ v s, 32 :: fmt_u v ++ s) (32 :: r) vs) = vs.
Proof.
  induction 1 as [|v vs Hv Hvs IH]; [done|]. cbn [length scan_lus foldr].
  assert (∃ r', foldr (λ v s, 32 :: fmt_u v ++ s) (32 :: r) vs = 32 :: r') as [r' E] by (destruct vs; cbn; eauto).
  rewrite E in *. rewrite scan_lu_fmt by done. by rewrite IH.
Qed.

(** Consecutive fields that are numbers. *)
Lemma join_numbers vs fs : fs ≠ [] →
  32 :: join ((fmt_u <$> vs) ++ fs) = foldr (λ v s, 32 :: fmt_u v ++ s) (32 :: join fs) vs.
Proof.
  intros Hf. induction vs as [|v vs IH]; [done|]. cbn [fmap list_fmap app foldr]. rewrite join_cons.
  - by rewrite <- IH.
  - destruct vs; cbn; done.
Qed.

Lemma fgets_line s t : s ≠ [] → Forall (λ c, c ≠ 10) s → zlen s + 2 ≤ 2048 → fgets 2048 (s ++ 10 :: t) = Some (s ++ [10]).
Proof.
  intros Hs Hn Hl. unfold fgets. destruct s as [|c s]; [done|]. cbn [app]. f_equal. change (c :: s ++ 10 :: t) with ((c :: s) ++ 10 :: t).
  change (c :: s ++ [10]) with ((c :: s) ++ [10]). revert Hl Hn. generalize (c :: s). intros l Hl Hn.
  assert (length l + 1 ≤ Z.to_nat (2048 - 1))%nat as Hm by lia. clear Hl. revert Hm. generalize (Z.to_nat (2048 - 1)).
  induction Hn as [|x l Hx _ IH]; intros n Hm; destruct n as [|n]; try (cbn in Hm; lia); cbn; [done|].
  rewrite decide_False by done. f_equal. apply IH. cbn in Hm. lia.
Qed.

Lemma word_fmt v : 0 ≤ v → word (fmt_u v).
Proof. intros Hv. eapply Forall_impl; [apply dec_loop_digits, Hv|]. cbn. intros c Hc. lia. Qed.

Lemma word_fmts vs : Forall (λ v, 0 ≤ v ≤ ULONG_MAX) vs → Forall word (fmt_u <$> vs).
Proof. intros H. apply Forall_fmap. eapply Forall_impl; [exact H|]. cbn. intros v Hv. apply word_fmt. lia. Qed.

Lemma join_last fs z t : join (fs ++ [z]) ++ t = join (fs ++ [z ++ t]).
Proof.
  induction fs as [|f fs IH]; [done|]. cbn [app]. rewrite !join_cons by (by destruct fs). rewrite <- app_assoc. cbn [app]. by rewrite IH.
Qed.

(** The line of a process: 25 fields, three numbers, 16 fields, seven numbers
    and a last field. *)
Definition stat_line (a : list (list Z)) (v1 : list Z) (b : list (list Z)) (v2 : list Z) (z : list Z) : list Z :=
  join (a ++ (fmt_u <$> v1) ++ b ++ (fmt_u <$> v2) ++ [z]).

Record stat_ok (a : list (list Z)) (v1 : list Z) (b : list (list Z)) (v2 : list Z) (z : list Z) : Prop := {
  ok_a : Forall word a ∧ length a = 25%nat;
  ok_v1 : Forall (λ v, 0 ≤ v ≤ ULONG_MAX) v1 ∧ length v1 = 3%nat;
  ok_b : Forall word b ∧ length b = 16%nat;
  ok_v2 : Forall (λ v, 0 ≤ v ≤ ULONG_MAX) v2 ∧ length v2 = 7%nat;
  ok_z : word z;
}.

Lemma read_stat_line a v1 b v2 z addr size brk_val :
  stat_ok a v1 b v2 z → 0 ≤ addr → 0 ≤ size → addr + size < ULONG_MAX →
  read_stat (stat_line a v1 b v2 z) addr size brk_val =
    Some (MmMap (v1 !!! 0%nat) (v1 !!! 1%nat) (v1 !!! 2%nat) (v2 !!! 0%nat) (v2 !!! 1%nat) (v2 !!! 2%nat)
      brk_val addr (addr + size + 1) (v2 !!! 5%nat) (v2 !!! 6%nat) (-1)).
Proof.
  intros [[Ha La] [H1 L1] [Hb Lb] [H2 L2] Hz] Haddr Hsize Hfit. unfold read_stat, stat_line. unfold ULONG_MAX in Hfit.
  destruct a as [|a0 a]; [done|]. apply Forall_cons in Ha as [Ha0 Ha]. injection La as La. cbn [app].
  assert (Forall word ((fmt_u <$> v1) ++ b ++ (fmt_u <$> v2) ++ [z])) as Hw.
  { repeat (apply Forall_app; split); auto using word_fmts. }
  rewrite join_cons by (destruct a; done). rewrite from_space_word by done.
  rewrite skip_join; [|by apply Forall_app|rewrite !length_app, !length_fmap; cbn [length]; lia]. rewrite drop_app_length' by done. cbn [mbind option_bind].
  rewrite join_numbers by (destruct b; done). rewrite <- L1 at 1. rewrite scan_lus_fmt by done.
  rewrite <- join_numbers by (destruct b; done).
  destruct v1 as [|x1 [|x2 [|x3 [|]]]]; try done. cbn [fmap list_fmap].
  rewrite skip_join; [|done|rewrite !length_app, length_fmap; cbn; lia].
  cbn [app drop]. rewrite drop_app_length' by done. cbn [mbind option_bind].
  rewrite join_numbers by done. rewrite <- L2 at 1. rewrite scan_lus_fmt by done.
  destruct v2 as [|y1 [|y2 [|y3 [|y4 [|y5 [|y6 [|y7 [|]]]]]]]]; try done. unfold wrap. rewrite Z.mod_small by (eval_pow; lia). done.
Qed.

(** ** Properties *)

(** [NiceName] reads the line of /proc/self/stat: of the fields, separated
    by single blanks, the 26th to 28th and the 45th to 51st are taken for the
    code, the stack, the data, the heap and the environment, and the arguments
    are put where the new name and its terminator are. *)
Theorem nice_name_reads a v1 b v2 z addr size brk_val t :
  stat_ok a v1 b v2 z → Forall (λ c, c ≠ 10) (stat_line a v1 b v2 z) → zlen (stat_line a v1 b v2 z) ≤ 2046 →
  0 ≤ addr → 0 ≤ size → addr + size < ULONG_MAX →
  NiceName (Some (stat_line a v1 b v2 z ++ 10 :: t)) addr size brk_val =
    Ret (Some (MmMap (v1 !!! 0%nat) (v1 !!! 1%nat) (v1 !!! 2%nat) (v2 !!! 0%nat) (v2 !!! 1%nat) (v2 !!! 2%nat)
      brk_val addr (addr + size + 1) (v2 !!! 5%nat) (v2 !!! 6%nat) (-1))).
Proof.
  intros Hok Hn Hl Ha Hs Hfit. unfold NiceName. rewrite fgets_line; [|intros E|done|lia].
  - f_equal. assert (stat_line a v1 b v2 z ++ [10] = stat_line a v1 b v2 (z ++ [10])) as ->.
    { unfold stat_line. rewrite !app_assoc. apply join_last. }
    apply read_stat_line; [|done..]. destruct Hok. constructor; [done..|]. apply Forall_app. split; [done|]. by repeat constructor.
  - destruct Hok as [[_ La] _ _ _ _]. destruct a as [|a0 a]; [done|]. unfold stat_line in E. cbn [app] in E.
    rewrite join_cons in E by (destruct a; done). by destruct a0.
Qed.

(** A process whose name has a blank has one more: every field is taken for the
    one before it.  This one is called "a b"; its code begins at 1. *)
Definition sample_fields (name : list (list Z)) : list (list Z) :=
  [[49]] ++ name ++ replicate 23 [48] ++ (fmt_u <$> [1; 2; 3]) ++ replicate 16 [48] ++ (fmt_u <$> [4; 5; 6; 0; 0; 7; 8]) ++ [[48]].

Lemma blank_in_name_shifts :
  read_stat (join (sample_fields [[40; 97]; [98; 41]])) 100 3 9 = Some (MmMap 0 1 2 0 4 5 9 100 104 0 7 (-1)).
Proof. vm_compute. reflexivity. Qed.

(** A link of 1024 characters or more, or one that cannot be read, makes
    [WhichExe] write outside its buffer. *)
Lemma which_exe_ok l : zlen l < 1024 → ∃ buf, WhichExe (replicate 1024 0) (Some l) = Ret buf ∧ take (length l + 1) buf = l ++ [0].
Proof.
  intros Hl. unfold WhichExe. change (load (replicate 1024 0) 0) with (Ret 0). cbind. rewrite decide_False by tauto. cbn zeta.
  rewrite (take_ge l) by lia. rewrite drop_replicate. destruct (1024 - length l)%nat as [|n] eqn:E; [lia|]. cbn [replicate].
  rewrite store_app by done. eexists. split; [done|].
  rewrite take_app. rewrite take_ge by lia. f_equal. replace (length l + 1 - length l)%nat with 1%nat by lia. done.
Qed.

Lemma which_exe_overruns l : (∃ s, l = Some s ∧ zlen s = 1024) ∨ l = None → WhichExe (replicate 1024 0) l = Undef.
Proof.
  intros Hl. unfold WhichExe. change (load (replicate 1024 0) 0) with (Ret 0). cbind. rewrite decide_False by tauto.
  destruct Hl as [(s & -> & Hs)| ->]; cbn zeta.
  - rewrite take_ge by lia. rewrite store_out; [done|]. rewrite length_app, length_drop, length_replicate. lia.
  - rewrite store_out; [done|lia].
Qed.

(** The two processes of a daemon are joined by the pipe: the first keeps
    the writing end and no other, the daemon runs with the reading end and
    without the writing one, so that it sees the end of the first. *)
Theorem daemon_pipe r w pid o acts o1 acts' o2 rc rc' :
  0 ≤ r → 0 ≤ w → r ≠ w → r ∉ o → w ∉ o → 0 < pid →
  Daemon_run (Some (r, w)) pid 0 true o = (rc, acts, o1) →
  Daemon_run (Some (r, w)) 0 0 true o = (rc', acts', o2) →
  rc = Some 0 ∧ acts = [DOnfork w; DWait pid] ∧ o1 = {[w]} ∪ o ∧
  rc' = Some kCorruption ∧ acts' = [DSetsid; DMain r ({[r]} ∪ o)] ∧ o2 = o.
Proof.
  intros Hr Hw Hne Hro Hwo Hp. unfold Daemon_run. cbn [Pipe_new].
  rewrite (decide_False (P := pid = -1)), (decide_True (P := pid ≠ 0)), (decide_False (P := 0 = -1)), (decide_False (P := 0 ≠ 0)) by lia.
  unfold Pipe_destroy, closeReadEnd, closeWriteEnd, Pipe_giveupOwnership. cbn [fst snd fds0 fds1].
  rewrite !close_end_none, !close_end_open by done. intros E1 E2. rewrite (decide_False (P := 0 ≠ 0)) in E2 by tauto.
  assert (({[r; w]} ∪ o) ∖ {[w]} = {[r]} ∪ o) as E by set_solver. rewrite E in E2. simplify_eq. set_solver.
Qed.

(** ** Witnesses *)
Definition sample_a : list (list Z) := [49] :: [40; 97; 41] :: replicate 23 [48].

Lemma nice_name_reads_witness :
  NiceName (Some (stat_line sample_a [1; 2; 3] (replicate 16 [48]) [4; 5; 6; 0; 0; 7; 8] [48] ++ 10 :: [])) 100 3 9 =
    Ret (Some (MmMap 1 2 3 4 5 6 9 100 104 7 8 (-1))).
Proof.
  apply (nice_name_reads sample_a [1; 2; 3] (replicate 16 [48]) [4; 5; 6; 0; 0; 7; 8] [48] 100 3 9 []);
    [|by_eval|by_eval|lia|lia|unfold ULONG_MAX; lia].
  constructor; try split; try reflexivity; by_eval.
Defined.

Lemma daemon_pipe_witness :
  let '(rc, acts, o1) := Daemon_run (Some (3, 4)) 77 0 true {[0]} in
  let '(rc', acts', o2) := Daemon_run (Some (3, 4)) 0 0 true {[0]} in
  rc = Some 0 ∧ acts = [DOnfork 4; DWait 77] ∧ o1 = {[4]} ∪ {[0]} ∧
  rc' = Some kCorruption ∧ acts' = [DSetsid; DMain 3 ({[3]} ∪ {[0]})] ∧ o2 = {[0]}.
Proof.
  destruct (Daemon_run (Some (3, 4)) 77 0 true {[0]}) as [[rc acts] o1] eqn:E1.
  destruct (Daemon_run (Some (3, 4)) 0 0 true {[0]}) as [[rc' acts'] o2] eqn:E2.
  apply (daemon_pipe 3 4 77 {[0]} acts o1 acts' o2 rc rc'); try lia; try by_eval; [exact E1|exact E2].
Defined.
