(* ===== verification/FileLock.v ===== *)
(** * socket/monitor/fs.cpp, fs.h and io/filelock.cpp: locks on parts of files

    The two classes [FileLock] are the same but for the kinds of locks they
    know, the flags they open the file with and their destructors.  The kernel's
    side is what fcntl(2) says of the locks of one process on one file: record
    locks belong to the process and go with the first descriptor that is closed;
    the others belong to the open file description, which a forked process
    shares, and go when it is closed for the last time.  Whether a lock is
    granted, and what the lock is that [F_GETLK] finds in the way, are arguments;
    so is what other processes do between the operations. *)
From Stdlib Require Import ZArith Lia.
From stdpp Require Import base tactics numbers list gmap sets.
From S2P Require Import Prelude.

Open Scope Z_scope.

Definition F_RDLCK : Z := 0.
Definition F_WRLCK : Z := 1.
Definition F_UNLCK : Z := 2.

Definition SEEK_SET : Z := 0.
Definition SEEK_CUR : Z := 1.
Definition SEEK_END : Z := 2.

Record flock := MkFlock { l_type : Z; l_whence : Z; l_start : Z; l_len : Z; l_pid : Z }.

(** Which kind of lock: [RECORD], [OFD] of io/filelock.cpp, or another value. *)
Inductive Type_ := RECORD | OFD | UNKNOWN.
#[export] Instance Type_eq_dec : EqDecision Type_.
Proof. solve_decision. Defined.

(** The columns of [kMatrix]. *)
Inductive command := SETLK | SETLKW | GETLK.

Record FileLock := MkFileLock { type_ : Type_; fd_ : Z; fl_ : flock }.

Definition FileLock_new (t : Type_) : FileLock := MkFileLock t (-1) (MkFlock 0 0 0 0 0).

(** ** The kernel

    [record_] are the locks of the process, [ofd_] those of the description the
    object has open, [left_] those of descriptions the object has closed while a
    forked process had them too; [shared] tells whether one has the present one. *)
Record Kernel := MkKernel {
  opened : gset Z;
  record_ : Z → option Z;
  ofd_ : Z → option Z;
  left_ : Z → option Z;
  shared : bool;
  offset : Z;
  size : Z;
}.

Definition fresh_kernel (fds : gset Z) (sz : Z) : Kernel := MkKernel fds (λ _, None) (λ _, None) (λ _, None) false 0 sz.

Definition held (t : Type_) (k : Kernel) : Z → option Z := match t with RECORD => record_ k | OFD => ofd_ k | UNKNOWN => λ _, None end.

Definition OFFSET_MAX : Z := 9223372036854775807.

(** The bytes of a lock: where they begin, and where they end unless it is up to
    the end of any file.  [None] is EINVAL or EOVERFLOW. *)
Definition whence_base (w : Z) (k : Kernel) : option Z :=
  if decide (w = SEEK_SET) then Some 0
  else if decide (w = SEEK_CUR) then Some (offset k)
  else if decide (w = SEEK_END) then Some (size k)
  else None.

Definition range (f : flock) (k : Kernel) : option (Z * option Z) :=
  b ← whence_base (l_whence f) k;
  let s := b + l_start f in
  if decide (s < 0 ∨ OFFSET_MAX < s) then None
  else if decide (l_len f = 0) then Some (s, None)
  else if decide (0 < l_len f) then (if decide (OFFSET_MAX < s + l_len f - 1) then None else Some (s, Some (s + l_len f)))
  else if decide (s + l_len f < 0) then None
  else Some (s + l_len f, Some s).

Definition in_range (r : Z * option Z) (b : Z) : Prop := r.1 ≤ b ∧ match r.2 with None => True | Some e => b < e end.
#[export] Instance in_range_dec r b : Decision (in_range r b).
Proof. destruct r as [? []]; unfold in_range; cbn; apply _. Defined.

Definition put_lock (r : Z * option Z) (v : option Z) (m : Z → option Z) : Z → option Z := λ b, if decide (in_range r b) then v else m b.

Definition put (t : Type_) (r : Z * option Z) (v : option Z) (k : Kernel) : Kernel :=
  match t with
  | RECORD => MkKernel (opened k) (put_lock r v (record_ k)) (ofd_ k) (left_ k) (shared k) (offset k) (size k)
  | OFD => MkKernel (opened k) (record_ k) (put_lock r v (ofd_ k)) (left_ k) (shared k) (offset k) (size k)
  | UNKNOWN => k
  end.

Inductive fcntl_answer := Granted | Refused | Found (f : flock) | NotFound.

(** Releasing a range succeeds.  [F_GETLK] leaves the lock it has found, with
    the process that has it, or only changes the type.  The commands on the
    description refuse an [l_pid] that is not zero. *)
Definition fcntl (t : Type_) (fd : Z) (c : command) (f : flock) (a : fcntl_answer) (k : Kernel) : Z * flock * Kernel :=
  if decide (fd ∉ opened k ∨ (t = OFD ∧ l_pid f ≠ 0)) then (-1, f, k)
  else
    match range f k with
    | None => (-1, f, k)
    | Some r =>
        match c with
        | SETLK | SETLKW =>
            if decide (l_type f = F_UNLCK) then (0, f, put t r None k)
            else if decide (l_type f = F_RDLCK ∨ l_type f = F_WRLCK) then
              match a with
              | Granted => (0, f, put t r (Some (l_type f)) k)
              | _ => (-1, f, k)
              end
            else (-1, f, k)
        | GETLK =>
            match a with
            | Found g => (0, g, k)
            | NotFound => (0, MkFlock F_UNLCK (l_whence f) (l_start f) (l_len f) (l_pid f), k)
            | _ => (-1, f, k)
            end
        end
    end.

(** Closing the descriptor gives up the record locks, and the others unless a
    forked process has the description. *)
Definition close (fd : Z) (k : Kernel) : Kernel :=
  if decide (fd ∈ opened k) then
    MkKernel (opened k ∖ {[fd]}) (λ _, None) (λ _, None)
      (if shared k then λ b, match ofd_ k b with Some v => Some v | None => left_ k b end else left_ k) false 0 (size k)
  else k.

(** A new description. *)
Definition open_file (fd : Z) (k : Kernel) : Kernel :=
  MkKernel ({[fd]} ∪ opened k) (record_ k) (λ _, None) (left_ k) false 0 (size k).

(** What happens outside the object: a fork, the end of all forked processes,
    the file read or written through the descriptor, and its size changed. *)
Inductive env_op := EFork | EChildrenEnd | ESeek (n : Z) | EResize (n : Z).

Definition env_step (e : env_op) (k : Kernel) : Kernel :=
  match e with
  | EFork => MkKernel (opened k) (record_ k) (ofd_ k) (left_ k) true (offset k) (size k)
  | EChildrenEnd => MkKernel (opened k) (record_ k) (ofd_ k) (λ _, None) false (offset k) (size k)
  | ESeek n => MkKernel (opened k) (record_ k) (ofd_ k) (left_ k) (shared k) n (size k)
  | EResize n => MkKernel (opened k) (record_ k) (ofd_ k) (left_ k) (shared k) (offset k) n
  end.
Definition env_run (es : list env_op) (k : Kernel) : Kernel := foldl (flip env_step) k es.

(** ** The class *)
Definition set_fl (f : flock) (l : FileLock) : FileLock := MkFileLock (type_ l) (fd_ l) f.
Definition setType (t : Z) (l : FileLock) : FileLock :=
  let f := fl_ l in set_fl (MkFlock t (l_whence f) (l_start f) (l_len f) (l_pid f)) l.
Definition setWhence (w : Z) (l : FileLock) : FileLock :=
  let f := fl_ l in set_fl (MkFlock (l_type f) w (l_start f) (l_len f) (l_pid f)) l.
Definition setStart (s : Z) (l : FileLock) : FileLock :=
  let f := fl_ l in set_fl (MkFlock (l_type f) (l_whence f) s (l_len f) (l_pid f)) l.
Definition setLen (n : Z) (l : FileLock) : FileLock :=
  let f := fl_ l in set_fl (MkFlock (l_type f) (l_whence f) (l_start f) n (l_pid f)) l.

(** [FileLock::Lock]; a lock of an unknown kind is not asked for, and the answer is 0. *)
Definition Lock (isblock istest : bool) (a : fcntl_answer) (l : FileLock) (k : Kernel) : Z * FileLock * Kernel :=
  match type_ l with
  | RECORD | OFD =>
      let '(r, f, k) := fcntl (type_ l) (fd_ l) (if istest then GETLK else if isblock then SETLKW else SETLK) (fl_ l) a k in
      (r, set_fl f l, k)
  | UNKNOWN => (0, l, k)
  end.

(** [o] is the descriptor [open] gives. *)
Definition TryOpen (o : option Z) (l : FileLock) (k : Kernel) : FileLock * Kernel :=
  if decide (fd_ l = -1) then
    match o with
    | Some fd => (MkFileLock (type_ l) fd (fl_ l), open_file fd k)
    | None => (l, k)
    end
  else (l, k).

Definition lock (isblock : bool) (o : option Z) (a : fcntl_answer) (l : FileLock) (k : Kernel) : Z * FileLock * Kernel :=
  let '(l, k) := TryOpen o l k in
  if decide (fd_ l = -1) then (-1, l, k) else Lock isblock false a l k.

Definition unlock (l : FileLock) (k : Kernel) : Z * FileLock * Kernel :=
  if decide (fd_ l = -1 ∨ l_type (fl_ l) = F_UNLCK) then (0, l, k)
  else Lock false false Granted (setType F_UNLCK l) k.

Definition test (o : option Z) (a : fcntl_answer) (l : FileLock) (k : Kernel) : Z * FileLock * Kernel :=
  let '(l, k) := TryOpen o l k in
  if decide (fd_ l = -1) then (-1, l, k) else Lock false true a l k.

(** [util::Close(fd_)] *)
Definition cleanup (l : FileLock) (k : Kernel) : FileLock * Kernel :=
  (MkFileLock (type_ l) (-1) (fl_ l), if decide (fd_ l ≠ -1) then close (fd_ l) k else k).

Definition FileLock_destroy (l : FileLock) (k : Kernel) : Kernel :=
  let '(_, l, k) := unlock l k in (cleanup l k).2.

(** The destructor of io/filelock.cpp. *)
Definition io_destroy (l : FileLock) (k : Kernel) : Kernel :=
  if decide (fd_ l = -1) then k else let '(_, l, k) := unlock l k in close (fd_ l) k.

(** The main program of io/filelock.cpp: what it returns, what is locked while
    it waits for the signal, if it does, and what is locked after it; [rc] is
    what [sigwait] returns. *)
Definition filelock_main (argc : Z) (o : option Z) (a : fcntl_answer) (rc : Z) (k : Kernel) : Z * option Kernel * Kernel :=
  if decide (argc = 1) then (0, None, k)
  else
    let fl := FileLock_new OFD in
    let '(ret, fl, k) := lock false o a (setLen 20 (setStart 10 (setWhence SEEK_SET (setType F_WRLCK fl)))) k in
    if decide (ret = -1) then (0, None, io_destroy fl k) else (rc, Some k, io_destroy fl k).

(** ** Runs *)
Inductive lock_op :=
| OSet (f : flock)                                   (** the four setters *)
| OLock (isblock : bool) (o : option Z) (a : fcntl_answer)
| OUnlock
| OTest (o : option Z) (a : fcntl_answer)
| OCleanup
| OEnv (e : env_op).

Definition lock_step (op : lock_op) (s : FileLock * Kernel) : FileLock * Kernel :=
  let '(l, k) := s in
  match op with
  | OSet f => (setLen (l_len f) (setStart (l_start f) (setWhence (l_whence f) (setType (l_type f) l))), k)
  | OLock b o a => let '(_, l, k) := lock b o a l k in (l, k)
  | OUnlock => let '(_, l, k) := unlock l k in (l, k)
  | OTest o a => let '(_, l, k) := test o a l k in (l, k)
  | OCleanup => cleanup l k
  | OEnv e => (l, env_step e k)
  end.

(** [open] gives a descriptor that was not in use. *)
Definition open_ok (o : option Z) (k : Kernel) : Prop := match o with Some fd => 0 ≤ fd ∧ fd ∉ opened k | None => True end.
#[export] Instance open_ok_dec o k : Decision (open_ok o k).
Proof. destruct o; cbn; apply _. Defined.
Definition lock_op_ok (op : lock_op) (s : FileLock * Kernel) : Prop :=
  match op with OLock _ o _ | OTest o _ => open_ok o s.2 | _ => True end.
#[export] Instance lock_op_ok_dec op s : Decision (lock_op_ok op s).
Proof. destruct op; cbn; apply _. Defined.


(** ** What the object holds

    Its descriptor is the only one it has opened, there are locks only while it
    is open, and an object with record locks has no other ones. *)
Definition holds (base : gset Z) (s : FileLock * Kernel) : Prop :=
  let '(l, k) := s in
  (type_ l = RECORD → ∀ b, ofd_ k b = None) ∧
  ((fd_ l = -1 ∧ opened k = base ∧ (∀ b, record_ k b = None ∧ ofd_ k b = None)) ∨
   (0 ≤ fd_ l ∧ (fd_ l ∉ base) ∧ opened k = {[fd_ l]} ∪ base)).

(** What every call leaves as it is. *)
Definition same_fds (k k' : Kernel) : Prop :=
  opened k' = opened k ∧ left_ k' = left_ k ∧ shared k' = shared k ∧ offset k' = offset k ∧ size k' = size k.

Lemma put_same t r v k : same_fds k (put t r v k).
Proof. by destruct t. Qed.

Lemma fcntl_same t fd c f a k : same_fds k (fcntl t fd c f a k).2 ∧ (t = RECORD → ofd_ (fcntl t fd c f a k).2 = ofd_ k).
Proof.
  unfold fcntl. case_decide; [done|]. destruct (range f k) as [r|]; [|done].
  destruct c; [..|by destruct a]; (case_decide; [split; [apply put_same|by intros ->]|]); (case_decide; [|done]); destruct a; try done;
    (split; [apply put_same|by intros ->]).
Qed.

Lemma Lock_same ib it a l k :
  let '(_, l', k') := Lock ib it a l k in
  same_fds k k' ∧ fd_ l' = fd_ l ∧ type_ l' = type_ l ∧ (type_ l = RECORD → ofd_ k' = ofd_ k).
Proof.
  unfold Lock. destruct (type_ l) eqn:E; [| |done];
    (pose proof (fcntl_same (type_ l) (fd_ l) (if it then GETLK else if ib then SETLKW else SETLK) (fl_ l) a k) as [H1 H2]; rewrite E in H1, H2;
     destruct (fcntl _ _ _ _ _ _) as [[r f] k']; cbn in *; split_and!; try done; by rewrite E).
Qed.

Lemma same_holds base l k l' k' :
  holds base (l, k) → 0 ≤ fd_ l → same_fds k k' → fd_ l' = fd_ l → type_ l' = type_ l → (type_ l = RECORD → ofd_ k' = ofd_ k) → holds base (l', k').
Proof.
  intros [H0 H] Hf (E & _) Ef Et Ho. split.
  - intros Hr b. rewrite Et in Hr. rewrite Ho by done. by apply H0.
  - right. destruct H as [[? _]|H]; [lia|]. by rewrite Ef, E.
Qed.

Lemma Lock_holds base ib it a l k : 0 ≤ fd_ l → holds base (l, k) → holds base ((Lock ib it a l k).1.2, (Lock ib it a l k).2).
Proof.
  intros Hf Hh. pose proof (Lock_same ib it a l k) as H. destruct (Lock ib it a l k) as [[r l'] k']. cbn. destruct H as (? & ? & ? & ?).
  by eapply same_holds.
Qed.


Lemma unlock_holds base l k : holds base (l, k) → holds base ((unlock l k).1.2, (unlock l k).2).
Proof.
  intros Hh. unfold unlock. case_decide as Hd; [done|]. apply Lock_holds; [|done].
  destruct Hh as [_ [[? _]|[? _]]]; [tauto|done].
Qed.

Lemma cleanup_holds base l k : holds base (l, k) → holds base (cleanup l k) ∧ fd_ (cleanup l k).1 = -1.
Proof.
  intros [H0 Hh]. split; [|done]. unfold cleanup. cbn. destruct Hh as [(Hf & Hk & Hm)|(Hf & Hn & Hk)].
  - rewrite decide_False by lia. split; [done|by left].
  - rewrite decide_True by lia. unfold close. rewrite decide_True by set_solver. cbn. split; [done|]. left. split_and!; [done| |done].
    rewrite Hk. set_solver.
Qed.





Lemma destroy_releases base l k :
  holds base (l, k) → let k' := FileLock_destroy l k in opened k' = base ∧ ∀ b, record_ k' b = None ∧ ofd_ k' b = None.
Proof.
  intros Hh. cbn zeta. unfold FileLock_destroy. pose proof (unlock_holds base l k Hh) as H. destruct (unlock l k) as [[r l1] k1]. cbn in H.
  apply cleanup_holds in H as [H Hf]. destruct (cleanup l1 k1) as [l2 k2]. cbn in *. destruct H as [_ [(_ & ? & ?)|(? & _)]]; [done|lia].
Qed.

(** The two destructors do the same. *)
Lemma io_destroy_same l k : io_destroy l k = FileLock_destroy l k.
Proof.
  unfold io_destroy, FileLock_destroy. case_decide as Hf.
  - unfold unlock. rewrite decide_True by tauto. unfold cleanup. cbn. by rewrite decide_False by tauto.
  - assert (fd_ (unlock l k).1.2 = fd_ l) as E.
    { unfold unlock. case_decide; [done|]. pose proof (Lock_same false false Granted (setType F_UNLCK l) k) as HL. destruct (Lock _ _ _ _ _) as [[? ?] ?]. by destruct HL as (_ & ? & _). }
    destruct (unlock l k) as [[r l1] k1]. cbn in *. by rewrite decide_True by congruence.
Qed.


Lemma Lock_set a t fd f k r :
  t ≠ UNKNOWN → fd ∈ opened k → l_pid f = 0 → range f k = Some r → l_type f = F_UNLCK ∨ (a = Granted ∧ (l_type f = F_RDLCK ∨ l_type f = F_WRLCK)) →
  Lock false false a (MkFileLock t fd f) k =
    (0, MkFileLock t fd f, put t r (if decide (l_type f = F_UNLCK) then None else Some (l_type f)) k).
Proof.
  intros Ht Hfd Hp Hr Hty. unfold Lock. cbn [type_ fd_ fl_].
  assert (fcntl t fd SETLK f a k = (0, f, put t r (if decide (l_type f = F_UNLCK) then None else Some (l_type f)) k)) as E.
  { unfold fcntl. rewrite decide_False by tauto. rewrite Hr. case_decide; [done|]. destruct Hty as [?|[-> Hty]]; [done|]. by rewrite decide_True. }
  destruct t; [| |done]; by rewrite E.
Qed.


Lemma env_run_held t es k : opened (env_run es k) = opened k ∧ held t (env_run es k) = held t k.
Proof.
  revert k. unfold env_run. induction es as [|e es IH]; intros k; cbn [foldl]; [done|]. destruct (IH (flip env_step k e)) as [-> ->].
  by destruct e, t.
Qed.



(** ** Properties *)


Lemma lock_open ib o a t fd f k : fd ≠ -1 → lock ib o a (MkFileLock t fd f) k = Lock ib false a (MkFileLock t fd f) k.
Proof. intros H. unfold lock, TryOpen. cbn [fd_]. by rewrite decide_False, decide_False by done. Qed.

(** After [unlock] the type stays that of a release: the next [lock] answers 0
    and locks nothing.  A [test] that finds nothing in the way has the same
    effect, also on a lock that is held: [unlock] then does nothing. *)
Lemma relock_takes_nothing fd f k r :
  fd ≠ -1 → fd ∈ opened k → l_pid f = 0 → (l_type f = F_RDLCK ∨ l_type f = F_WRLCK) → range f k = Some r → (∀ b, record_ k b = None) →
  let '(_, l, k1) := lock false None Granted (MkFileLock RECORD fd f) k in
  let '(_, l, k2) := unlock l k1 in
  let '(rc, l, k3) := lock false None Granted l k2 in
  rc = 0 ∧ ∀ b, record_ k3 b = None.
Proof.
  intros Hfd Hop Hp Hf Hr Hm. assert (l_type f ≠ F_UNLCK) as Hu by (by destruct Hf as [-> | ->]).
  rewrite lock_open, (Lock_set Granted RECORD fd f k r) by first [done|by right].
  unfold unlock. cbn [fd_ fl_]. rewrite (decide_False (P := fd = -1 ∨ l_type f = F_UNLCK)) by tauto.
  unfold setType, set_fl. cbn [type_ fd_ fl_]. rewrite (Lock_set Granted RECORD fd _ _ r) by first [done|by left|exact Hr].
  rewrite lock_open, (Lock_set Granted RECORD fd _ _ r) by first [done|by left|exact Hr].
  split; [done|]. intros b. cbn [put record_ l_type]. rewrite !(decide_True (P := F_UNLCK = F_UNLCK)) by done. unfold put_lock. by case_decide.
Qed.

Lemma test_hides_lock fd f k r :
  fd ≠ -1 → fd ∈ opened k → l_pid f = 0 → range f k = Some r →
  let '(rc, l, k1) := test None NotFound (MkFileLock RECORD fd f) k in
  rc = 0 ∧ unlock l k1 = (0, l, k) ∧ (lock false None Granted l k1).1.1 = 0 ∧ record_ (lock false None Granted l k1).2 = put_lock r None (record_ k).
Proof.
  intros Hfd Hop Hp Hr. unfold test, TryOpen. cbn [fd_]. rewrite decide_False by done. cbn [fd_]. rewrite decide_False by done.
  unfold Lock at 1. cbn [type_ fd_ fl_]. unfold fcntl at 1. rewrite decide_False by (intros [?|[? _]]; done). rewrite Hr. unfold set_fl. cbn [type_ fd_].
  rewrite lock_open, (Lock_set Granted RECORD fd _ _ r) by first [done|by left|exact Hr]. split_and!; [done| |done|done].
  unfold unlock. cbn [fd_ fl_ l_type]. by rewrite decide_True by tauto.
Qed.

(** A [test] that finds a lock leaves the process that has it in [l_pid], which
    no setter changes: locks on the description are refused from then on. *)
Lemma found_blocks_ofd fd f g k a f' :
  fd ≠ -1 → fd ∈ opened k → l_pid f = 0 → range f k ≠ None → l_pid g ≠ 0 →
  let '(rc, l, k1) := test None (Found g) (MkFileLock OFD fd f) k in
  rc = 0 ∧ (lock false None a (lock_step (OSet f') (l, k1)).1 k1).1.1 = -1.
Proof.
  intros Hfd Hop Hp Hr Hg. unfold test, TryOpen. cbn [fd_]. rewrite decide_False by done. cbn [fd_]. rewrite decide_False by done.
  unfold Lock at 1. cbn [type_ fd_ fl_]. unfold fcntl at 1. rewrite decide_False by (intros [?|[_ ?]]; done). destruct (range f k) as [r|]; [|done].
  split; [done|]. cbn [lock_step]. unfold setType, setWhence, setStart, setLen, set_fl. cbn. rewrite lock_open by done. unfold Lock, fcntl. cbn [type_ fd_ fl_ l_pid].
  by rewrite decide_True by tauto.
Qed.

(** A lock relative to the end of a file that has grown is not the one that is
    released: a forked process keeps it. *)
Lemma grown_file_keeps_lock :
  let '(rc, l, k) := lock false (Some 4) Granted (setWhence SEEK_END (setType F_WRLCK (FileLock_new OFD))) (fresh_kernel ∅ 10) in
  rc = 0 ∧ left_ (io_destroy l (env_run [EFork; EResize 20] k)) 15 = Some F_WRLCK ∧ left_ (io_destroy l (env_run [EFork] k)) 15 = None.
Proof. vm_compute. done. Qed.

(** A lock of an unknown kind is reported as taken. *)
Lemma unknown_lock_succeeds fd f k a : fd ≠ -1 → lock false None a (MkFileLock UNKNOWN fd f) k = (0, MkFileLock UNKNOWN fd f, k).
Proof. intros H. unfold lock, TryOpen. cbn. rewrite decide_False by done. by rewrite decide_False. Qed.

(** The program keeps the bytes 10 to 29 while it waits, and none after. *)
Lemma main_locks fd rc argc sz :
  argc ≠ 1 → 0 ≤ fd →
  let '(ret, w, k) := filelock_main argc (Some fd) Granted rc (fresh_kernel ∅ sz) in
  ret = rc ∧ (∃ k1, w = Some k1 ∧ ∀ b, ofd_ k1 b = if decide (10 ≤ b < 30) then Some F_WRLCK else None) ∧ opened k = ∅ ∧ ∀ b, ofd_ k b = None.
Proof.
  intros Hargc Hfd. unfold filelock_main. rewrite decide_False by done. unfold setType, setWhence, setStart, setLen, set_fl. cbn [type_ fd_ fl_ FileLock_new l_type l_whence l_start l_len l_pid].
  set (f := MkFlock F_WRLCK SEEK_SET 10 20 0). unfold lock, TryOpen. cbn [fd_]. rewrite decide_True by done. cbn [fd_ type_ fl_]. rewrite decide_False by lia.
  rewrite (Lock_set Granted OFD fd f _ (10, Some 30)); [|done|cbn; set_solver|done|done|right; split; [done|by right]].
  rewrite (decide_False (P := 0 = -1)) by lia. rewrite io_destroy_same.
  assert (holds ∅ (MkFileLock OFD fd f, put OFD (10, Some 30) (Some F_WRLCK) (open_file fd (fresh_kernel ∅ sz)))) as Hh.
  { split; [done|]. right. cbn. split_and!; [done|set_solver|done]. }
  destruct (destroy_releases ∅ _ _ Hh) as [H1 H2]. split_and!; [done| |exact H1|apply H2].
  eexists. split; [done|]. intros b. cbn. unfold put_lock, in_range. cbn. by repeat case_decide; try lia.
Qed.


