(* ===== verification/Connection.v ===== *)
(** * socket/network.h and connection.cpp: connections, and the sockets of servers

    [Connection] owns a descriptor, with callbacks an epoll loop calls; a
    callback is a name of the program that uses it (a parameter [K]).  The
    process is what epoll watches and which descriptors are open; closing one
    that is not open is counted, since between two closes the number may be
    somebody else's.  The constructors of io/notifier.cpp ([RemoteReader]),
    server.cpp and group.cpp make their sockets in the same way. *)
From Stdlib Require Import ZArith Lia.
From stdpp Require Import base tactics numbers list gmap sets.
From S2P Require Import Prelude.

Open Scope Z_scope.

Record Net := MkNet { epoll : gset Z; opened : gset Z; stray : nat }.

(** [close]: a descriptor leaves the epoll set with its last reference. *)
Definition sys_close (fd : Z) (n : Net) : Net :=
  if decide (fd ∈ opened n) then MkNet (epoll n ∖ {[fd]}) (opened n ∖ {[fd]}) (stray n)
  else MkNet (epoll n) (opened n) (S (stray n)).

Definition sys_opened (fd : Z) (n : Net) : Net := MkNet (epoll n) ({[fd]} ∪ opened n) (stray n).

(** [Connection::Cleanup] and [FdHelper::Close] *)
Definition Cleanup (fd : Z) (n : Net) : Z * Net := (-1, if decide (fd ≠ -1) then sys_close fd n else n).

Section connection.
Context {K : Type}.

Record Connection := MkConnection {
  fd_ : Z;
  on_recv : option K;
  on_send : option K;
  on_close : option K;
  buffer_ : list Z;
}.

Definition Connection_new (fd : Z) : Connection := MkConnection fd None None None [].

(** The registrations swap; the old callback goes with the argument. *)
Definition registerOnRecv (k : K) (c : Connection) : Connection :=
  MkConnection (fd_ c) (Some k) (on_send c) (on_close c) (buffer_ c).
Definition registerOnClose (k : K) (c : Connection) : Connection :=
  MkConnection (fd_ c) (on_recv c) (on_send c) (Some k) (buffer_ c).
Definition registerCallback (r s cl : option K) (c : Connection) : Connection :=
  MkConnection (fd_ c) r s cl (buffer_ c).
Definition cancel (c : Connection) : Connection := MkConnection (-1) (on_recv c) (on_send c) (on_close c) (buffer_ c).
Definition set_buffer (b : list Z) (c : Connection) : Connection := MkConnection (fd_ c) (on_recv c) (on_send c) (on_close c) b.

(** Move assignment swaps the descriptors and the callbacks, and not the buffers. *)
Definition Connection_assign (a b : Connection) : Connection * Connection :=
  (MkConnection (fd_ b) (on_recv b) (on_send b) (on_close b) (buffer_ a),
   MkConnection (fd_ a) (on_recv a) (on_send a) (on_close a) (buffer_ b)).

Definition Connection_destroy (c : Connection) (n : Net) : Net := (Cleanup (fd_ c) n).2.

(** [epoll_ctl] refuses what is not open, and what is or is not there. *)
Definition epollRegister (c : Connection) (n : Net) : Z * Net :=
  if decide (fd_ c ∈ opened n ∧ fd_ c ∉ epoll n) then (0, MkNet ({[fd_ c]} ∪ epoll n) (opened n) (stray n)) else (-1, n).

Definition epollUnregister (c : Connection) (n : Net) : Z * Net :=
  if decide (fd_ c ∈ epoll n) then (0, MkNet (epoll n ∖ {[fd_ c]}) (opened n) (stray n)) else (-1, n).

Inductive fired := Receive (k : K) | Closed (k : K).

(** [eventTrigger] with the events [EPOLLRDHUP] and [EPOLLIN]: what is called. *)
Definition eventTrigger (rdhup readable : bool) (c : Connection) (n : Net) : option fired * Net :=
  if rdhup then (Closed <$> on_close c, (epollUnregister c n).2)
  else if readable then (Receive <$> on_recv c, n) else (None, n).
End connection.
Arguments Connection : clear implicits.
Arguments fired : clear implicits.

(** ** Sockets that are set up call by call

    [socket] gives a descriptor or fails; of the calls after it the first that
    fails ends the constructor, with the socket closed by the macro or by the
    cleaner.  [SETSOCKOPT] closes the socket itself and the cleaner then closes
    -1. *)
Definition set_up (sock : option Z) (calls : list bool) (n : Net) : Z * Net :=
  match sock with
  | None => (-1, n)
  | Some fd =>
      let n := sys_opened fd n in
      if decide (Forall (λ ok, ok = true) calls) then (fd, n) else Cleanup fd n
  end.

(** io/notifier.cpp: three options, [bind] and [listen]. *)
Definition RemoteReader_socket (sock : option Z) (opt1 opt2 opt3 bound listening : bool) (n : Net) : Z * Net :=
  set_up sock [opt1; opt2; opt3; bound; listening] n.

(** server.cpp: two options, [bind] and [listen]; [None] is the exception. *)
Inductive ServerType := TCP | UDP.
Definition Server_socket (t : ServerType) (sock : option Z) (opt1 opt2 bound listening : bool) (n : Net) : option (Z * Net) :=
  match t with
  | TCP => Some (set_up sock [opt1; opt2; bound; listening] n)
  | UDP => None
  end.

(** group.cpp: two options and [bind]; then the group is joined, and the socket
    closed again when that fails. *)
Definition Join (joined : bool) (fd : Z) (n : Net) : bool * Z * Net :=
  if joined then (true, fd, n) else let '(fd, n) := Cleanup fd n in (false, fd, n).
Definition Group_new (sock : option Z) (opt1 opt2 bound joined : bool) (n : Net) : Z * Net :=
  let '(fd, n) := set_up sock [opt1; opt2; bound] n in
  if decide (fd = -1) then (fd, n) else let '(_, fd, n) := Join joined fd n in (fd, n).

(** ** Lemmas *)
Lemma close_opened fd n : fd ∈ opened n → sys_close fd n = MkNet (epoll n ∖ {[fd]}) (opened n ∖ {[fd]}) (stray n).
Proof. intros H. unfold sys_close. by rewrite decide_True. Qed.

Lemma destroy_opened {K} (c : Connection K) n : 0 ≤ fd_ c → fd_ c ∈ opened n →
  Connection_destroy c n = MkNet (epoll n ∖ {[fd_ c]}) (opened n ∖ {[fd_ c]}) (stray n).
Proof. intros H1 H2. unfold Connection_destroy, Cleanup. rewrite decide_True by lia. by apply close_opened. Qed.

(** A socket is set up and open, or nothing has changed. *)
Lemma set_up_owns sock calls n :
  match sock with Some fd => 0 ≤ fd ∧ fd ∉ opened n | None => True end → epoll n ⊆ opened n →
  (∃ fd, sock = Some fd ∧ Forall (λ ok, ok = true) calls ∧ set_up sock calls n = (fd, sys_opened fd n)) ∨
  set_up sock calls n = (-1, n).
Proof.
  intros Hs He. unfold set_up. destruct sock as [fd|]; [|by right]. case_decide as Hc; [left; eauto|]. right.
  unfold Cleanup. rewrite decide_True by lia. f_equal. rewrite close_opened by (cbn; set_solver). destruct n as [ep op st]. cbn in *.
  f_equal; set_solver.
Qed.
