(* ===== verification/Relay.v ===== *)
(** * io/notifier.cpp: the relay's thread ([RemoteReader::Run])

    The relay listens for sensors, keeps a connection object for each in a map
    by descriptor, and hands what they send to [handle_message] ([WsNotifier]).
    An object is in the map only, so that erasing it destroys it.  A batch of
    [epoll_wait] is a list of events; what [accept] and [recv] give is part of
    the event, and so is the filter, which looks at the notifier's table. *)
From Stdlib Require Import ZArith Lia.
From stdpp Require Import base tactics numbers list gmap sets.
From S2P Require Import Prelude.
From S2P Require Import WeightCodec.
From S2P Require Import Secure.
From S2P Require Import WsNotifier.
From S2P Require Import Connection.

Open Scope Z_scope.

(** The lambdas of [Run]. *)
Inductive callback := HandleConnection | HandleMessage | Quit | Erase.

Inductive State := READY | WAIT | QUIT.
#[export] Instance State_eq_dec : EqDecision State.
Proof. solve_decision. Defined.

Record Relay := MkRelay {
  net : Net;
  handlers : gmap Z (Connection callback);
  state_ : State;
  pipe : list Data;
}.

Definition PORT : Z := 10001.
Definition BACKLOG : Z := 5.
Definition BAD_VALUE : Z := -0xffff.

(** [x_] is the member of that name, which nothing writes. *)
Definition GetInt (x_ : Z) (s : Relay) : Z := if decide (state_ s = READY) then x_ else BAD_VALUE.

(** What [Run] registers before its loop.  The terminator's descriptor is put
    into the map and not into the epoll set. *)
Definition run_start (listen term : Z) (n : Net) : Relay :=
  let h := Connection_new listen in
  let n := (epollRegister h n).2 in
  let h := registerOnRecv HandleConnection h in
  let t := registerOnRecv Quit (Connection_new term) in
  MkRelay n (<[term := t]> {[listen := h]}) WAIT [].

(** An event with what its callback will find. *)
Record revent := MkEvent {
  e_fd : Z;
  e_rdhup : bool;
  e_in : bool;
  e_accept : option Z;
  e_bytes : list Z;
  e_filter : list Z → bool;
}.

(** [handlers.erase(fd)]: the object is destroyed with its last pointer. *)
Definition erase (fd : Z) (s : Relay) : Relay :=
  match handlers s !! fd with
  | Some c => MkRelay (Connection_destroy c (net s)) (delete fd (handlers s)) (state_ s) (pipe s)
  | None => s
  end.

(** The new connection goes into the map if it could be registered and the key
    is free, and is destroyed otherwise. *)
Definition handle_connection (accepted : option Z) (s : Relay) : Relay :=
  match accepted with
  | None => s
  | Some sock =>
      let c := Connection_new sock in
      let '(rc, n) := epollRegister c (sys_opened sock (net s)) in
      if decide (rc = 0) then
        let c := registerOnClose Erase (registerOnRecv HandleMessage (set_buffer CreateBuffer c)) in
        match handlers s !! sock with
        | None => MkRelay n (<[sock := c]> (handlers s)) (state_ s) (pipe s)
        | Some _ => MkRelay (Connection_destroy c n) (handlers s) (state_ s) (pipe s)
        end
      else MkRelay (Connection_destroy c n) (handlers s) (state_ s) (pipe s)
  end.

(** [recv] into the connection's buffer: the socket does not block, and what is
    there overwrites the beginning.  [Decrypt] unmasks in place. *)
Definition recv_into (bytes buf : list Z) : list Z := take (length buf) bytes ++ drop (length (take (length buf) bytes)) buf.

Definition on_message (fd : Z) (c : Connection callback) (e : revent) (s : Relay) : outcome Relay :=
  let buf := recv_into (e_bytes e) (buffer_ c) in
  '(v, p) ← handle_message (e_filter e) buf (pipe s);
  '(_, buf) ← Decrypt buf kDataSize;
  let s := MkRelay (net s) (<[fd := set_buffer buf c]> (handlers s)) (state_ s) p in
  match v with
  | KickedOut => Ret (erase fd s)
  | NoSubscriber => Ret s
  | Relayed | PipeFull => Ret (MkRelay (net s) (handlers s) READY (pipe s))
  end.

(** [handlers[fd]->eventTrigger(epollfd, events)]: a key that is not there is a
    null pointer. *)
Definition on_event (e : revent) (s : Relay) : outcome Relay :=
  match handlers s !! e_fd e with
  | None => Undef
  | Some c =>
      let '(f, n) := eventTrigger (e_rdhup e) (e_in e) c (net s) in
      let s := MkRelay n (handlers s) (state_ s) (pipe s) in
      match f with
      | None => Ret s
      | Some (Closed _) => Ret (erase (e_fd e) s)
      | Some (Receive HandleConnection) => Ret (handle_connection (e_accept e) s)
      | Some (Receive HandleMessage) => on_message (e_fd e) c e s
      | Some (Receive Quit) => Ret (MkRelay (net s) (handlers s) QUIT (pipe s))
      | Some (Receive Erase) => Ret s
      end
  end.

Fixpoint batch (es : list revent) (s : Relay) : outcome Relay :=
  match es with
  | [] => Ret s
  | e :: es => s ← on_event e s; batch es s
  end.

(** Steps of the threads: a batch of the loop, which ends when the state is
    [QUIT]; a record the notifier takes from the pipe; and [terminator.trigger()]
    of a destructor, which writes to a descriptor the loop does not watch. *)
Inductive raction := RBatch (es : list revent) | RTake | RTrigger.

Definition rstep (a : raction) (s : Relay) : outcome Relay :=
  match a with
  | RBatch es => if decide (state_ s = QUIT) then Ret s else batch es s
  | RTake => Ret (MkRelay (net s) (handlers s) (state_ s) (tail (pipe s)))
  | RTrigger => Ret s
  end.

Fixpoint rrun (acts : list raction) (s : Relay) : outcome Relay :=
  match acts with
  | [] => Ret s
  | a :: acts => s ← rstep a s; rrun acts s
  end.

(** The end of [Run], when [epoll_wait] fails: the map and its objects go. *)
Definition run_end (s : Relay) : Net := foldr (λ p n, Connection_destroy p.2 n) (net s) (map_to_list (handlers s)).

(** [~RemoteReader] after the thread was joined. *)
Definition RemoteReader_destroy (listen r w : Z) (n : Net) : Net := (Cleanup w (Cleanup r (Cleanup listen n).2).2).2.

(** ** What the kernel gives

    Events are of descriptors in the epoll set, one each in a batch, and of the
    kind that was asked for; a new descriptor was not open. *)
Definition event_ok (listen : Z) (e : revent) (s : Relay) : Prop :=
  (e_fd e = listen → e_rdhup e = false) ∧
  match e_accept e with Some fd => 0 ≤ fd ∧ fd ∉ opened (net s) | None => True end.
#[export] Instance event_ok_dec listen e s : Decision (event_ok listen e s).
Proof. unfold event_ok. destruct (e_accept e); apply _. Defined.

Fixpoint events_ok (listen : Z) (es : list revent) (s : Relay) : Prop :=
  match es with
  | [] => True
  | e :: es => event_ok listen e s ∧ match on_event e s with Ret s' => events_ok listen es s' | _ => True end
  end.
#[export] Instance events_ok_dec listen es s : Decision (events_ok listen es s).
Proof.
  revert s. induction es as [|e es IH]; intros s; cbn; [apply _|]. apply and_dec; [apply _|]. destruct (on_event e s); [apply IH|apply _..].
Defined.

Definition action_ok (listen : Z) (a : raction) (s : Relay) : Prop :=
  match a with
  | RBatch es => NoDup (e_fd <$> es) ∧ Forall (λ e, e_fd e ∈ epoll (net s)) es ∧ events_ok listen es s
  | _ => True
  end.
#[export] Instance action_ok_dec listen a s : Decision (action_ok listen a s).
Proof. destruct a; cbn; apply _. Defined.

Fixpoint run_ok (listen : Z) (acts : list raction) (s : Relay) : Prop :=
  match acts with
  | [] => True
  | a :: acts => action_ok listen a s ∧ match rstep a s with Ret s' => run_ok listen acts s' | _ => True end
  end.
#[export] Instance run_ok_dec listen acts s : Decision (run_ok listen acts s).
Proof.
  revert s. induction acts as [|a acts IH]; intros s; cbn [run_ok]; [apply _|]. apply and_dec; [apply _|]. destruct (rstep a s); [apply IH|apply _..].
Defined.

(** ** The invariant *)
Section relay.
Context (listen term : Z) (base : gset Z).

(** The connection of a sensor. *)
Definition is_peer (fd : Z) (c : Connection callback) : Prop :=
  fd_ c = fd ∧ on_recv c = Some HandleMessage ∧ on_close c = Some Erase ∧ zlen (buffer_ c) = kDataLen ∧ 0 ≤ fd ∧ fd ∉ base.

Definition peers (s : Relay) : gset Z := dom (handlers s) ∖ {[listen; term]}.

Record relay_inv (s : Relay) : Prop := {
  inv_listen : handlers s !! listen = Some (registerOnRecv HandleConnection (Connection_new listen));
  inv_term : handlers s !! term = Some (registerOnRecv Quit (Connection_new term));
  inv_peers : ∀ fd c, handlers s !! fd = Some c → fd ≠ listen → fd ≠ term → is_peer fd c;
  inv_epoll : epoll (net s) = {[listen]} ∪ peers s;
  inv_opened : opened (net s) = base ∪ peers s;
  inv_stray : stray (net s) = 0%nat;
  inv_state : state_ s ≠ QUIT;
  inv_pipe : zlen (pipe s) ≤ 11;
}.

Context (Hl : listen ∈ base) (Ht : term ∈ base) (Hlt : listen ≠ term).

Lemma peers_fresh s fd : relay_inv s → fd ∈ peers s → (fd ∉ base) ∧ 0 ≤ fd ∧ fd ≠ listen ∧ fd ≠ term ∧ ∃ c, handlers s !! fd = Some c ∧ is_peer fd c.
Proof.
  intros Hs Hfd. unfold peers in Hfd. apply elem_of_difference in Hfd as [[c Hc]%elem_of_dom Hn].
  assert (fd ≠ listen ∧ fd ≠ term) as [H1 H2] by set_solver. pose proof (inv_peers s Hs fd c Hc H1 H2) as Hp.
  pose proof Hp as (_ & _ & _ & _ & ? & ?). eauto 10.
Qed.

Lemma epoll_cases s fd : relay_inv s → fd ∈ epoll (net s) → fd = listen ∨ fd ∈ peers s.
Proof. intros Hs. rewrite (inv_epoll s Hs). set_solver. Qed.

(** A sensor leaves: its object is destroyed and its descriptor closed. *)
Lemma relay_erase_inv s fd c ep :
  relay_inv s → fd ∈ peers s → is_peer fd c → ep = epoll (net s) ∨ ep = epoll (net s) ∖ {[fd]} →
  let s' := erase fd (MkRelay (MkNet ep (opened (net s)) (stray (net s))) (<[fd := c]> (handlers s)) (state_ s) (pipe s)) in
  relay_inv s' ∧ epoll (net s') = epoll (net s) ∖ {[fd]}.
Proof.
  intros Hs Hfd Hc Hep. destruct (peers_fresh s fd Hs Hfd) as (Hb & Hge & Hnl & Hnt & _).
  pose proof Hc as (Efd & _). unfold erase. cbn [handlers]. rewrite lookup_insert_eq. cbn [net state_ pipe].
  rewrite destroy_opened by (rewrite Efd; cbn; rewrite ?(inv_opened s Hs); set_solver). rewrite Efd. cbn [epoll opened stray].
  rewrite delete_insert_eq.
  assert (ep ∖ {[fd]} = epoll (net s) ∖ {[fd]}) as -> by (destruct Hep as [->| ->]; set_solver).
  assert (dom (delete fd (handlers s)) ∖ {[listen; term]} = peers s ∖ {[fd]}) as Ep by (unfold peers; rewrite dom_delete_L; set_solver).
  split; [|done]. constructor; cbn [handlers net epoll opened stray state_ pipe].
  - rewrite lookup_delete_ne by done. apply Hs.
  - rewrite lookup_delete_ne by done. apply Hs.
  - intros x y H. rewrite lookup_delete_Some in H. destruct H as [_ H]. by apply (inv_peers s Hs).
  - unfold peers. cbn [handlers]. rewrite Ep, (inv_epoll s Hs). set_solver.
  - unfold peers. cbn [handlers]. rewrite Ep, (inv_opened s Hs). set_solver.
  - apply Hs.
  - apply Hs.
  - apply Hs.
Qed.

(** A sensor comes. *)
Lemma handle_connection_inv s a :
  relay_inv s → match a with Some fd => 0 ≤ fd ∧ fd ∉ opened (net s) | None => True end →
  relay_inv (handle_connection a s) ∧ epoll (net s) ⊆ epoll (net (handle_connection a s)).
Proof.
  intros Hs Ha. destruct a as [sock|]; [|done]. destruct Ha as [Hge Hn]. rewrite (inv_opened s Hs) in Hn.
  assert (sock ≠ listen ∧ sock ≠ term ∧ (sock ∉ peers s) ∧ sock ∉ base) as (Hsl & Hst & Hsp & Hsb) by set_solver.
  assert (handlers s !! sock = None) as Hno by (apply not_elem_of_dom; unfold peers in Hsp; set_solver).
  unfold handle_connection, epollRegister. cbn [fd_ Connection_new sys_opened opened epoll].
  rewrite decide_True by (rewrite (inv_epoll s Hs); set_solver). rewrite decide_True by done. rewrite Hno.
  assert (dom (<[sock := registerOnClose Erase (registerOnRecv HandleMessage (set_buffer CreateBuffer (Connection_new sock)))]> (handlers s)) ∖ {[listen; term]}
    = {[sock]} ∪ peers s) as Ep by (unfold peers; rewrite dom_insert_L; set_solver).
  split; [|cbn; set_solver]. constructor; cbn [handlers net epoll opened stray state_ pipe].
  - rewrite lookup_insert_ne by done. apply Hs.
  - rewrite lookup_insert_ne by done. apply Hs.
  - intros x y. rewrite lookup_insert_Some. intros [[<- <-]|[_ H]]; [|by apply (inv_peers s Hs)]. intros _ _. by repeat split.
  - unfold peers. cbn [handlers]. rewrite Ep, (inv_epoll s Hs). set_solver.
  - unfold peers. cbn [handlers]. rewrite Ep, (inv_opened s Hs). set_solver.
  - apply Hs.
  - apply Hs.
  - apply Hs.
Qed.

Lemma recv_into_length bytes buf : length (recv_into bytes buf) = length buf.
Proof. unfold recv_into. rewrite length_app, length_drop, length_take. lia. Qed.

(** A sensor's object with another buffer, and another pipe and state. *)
Lemma update_inv s fd c st p :
  relay_inv s → fd ∈ peers s → is_peer fd c → st ≠ QUIT → zlen p ≤ 11 →
  relay_inv (MkRelay (net s) (<[fd := c]> (handlers s)) st p).
Proof.
  intros Hs Hfd Hc Hst Hp. destruct (peers_fresh s fd Hs Hfd) as (Hb & Hge & Hnl & Hnt & c0 & Hc0 & _).
  assert (dom (<[fd := c]> (handlers s)) = dom (handlers s)) as Ed.
  { rewrite dom_insert_L. apply elem_of_dom_2 in Hc0. set_solver. }
  constructor; cbn [handlers net state_ pipe]; unfold peers; cbn [handlers]; rewrite ?Ed; try apply Hs; try done.
  - rewrite lookup_insert_ne by done. apply Hs.
  - rewrite lookup_insert_ne by done. apply Hs.
  - intros x y. rewrite lookup_insert_Some. intros [[<- <-]|[_ H]]; [done|]. by apply (inv_peers s Hs).
Qed.

Lemma on_message_inv s fd c e :
  relay_inv s → fd ∈ peers s → is_peer fd c →
  ∃ s', on_message fd c e s = Ret s' ∧ relay_inv s' ∧ epoll (net s) ∖ {[fd]} ⊆ epoll (net s').
Proof.
  intros Hs Hfd Hc. unfold on_message. set (buf := recv_into (e_bytes e) (buffer_ c)).
  pose proof Hc as (Efd & Hrv & Hcl & Hbuf & Hge & Hbase).
  assert (zlen buf = kDataLen) as Hlen by (unfold buf; by rewrite recv_into_length).
  destruct (relay_bounded (e_filter e) buf (pipe s) (inv_pipe s Hs)) as (v & p & -> & Hp & _). cbind.
  destruct (decrypt_spec buf Hlen) as (mask & _ & ->). cbind.
  set (c' := set_buffer (masked mask buf) c).
  assert (is_peer fd c') as Hc' by (repeat split; try done; cbn; by apply masked_length).
  destruct v; eexists; (split; [done|]).
  - destruct (relay_erase_inv (MkRelay (net s) (handlers s) (state_ s) p) fd c' (epoll (net s))) as [H1 H2]; [|done|done|by left|].
    + destruct Hs. by constructor.
    + cbn [net handlers state_ pipe] in *. destruct (net s). cbn in *. split; [exact H1|]. by rewrite H2.
  - split; [|cbn; set_solver]. apply update_inv; [done|done|done|by apply inv_state|done].
  - split; [|cbn; set_solver]. by apply (update_inv s fd c' READY p).
  - split; [|cbn; set_solver]. by apply (update_inv s fd c' READY p).
Qed.

(** One event of a descriptor that is watched. *)
Lemma on_event_inv s e :
  relay_inv s → e_fd e ∈ epoll (net s) → event_ok listen e s →
  ∃ s', on_event e s = Ret s' ∧ relay_inv s' ∧ epoll (net s) ∖ {[e_fd e]} ⊆ epoll (net s').
Proof.
  intros Hs Hep [Hl0 Ha]. destruct (epoll_cases s _ Hs Hep) as [E|Hp]; unfold on_event.
  - rewrite E, (inv_listen s Hs). unfold eventTrigger. rewrite Hl0 by done. assert (MkRelay (net s) (handlers s) (state_ s) (pipe s) = s) as Es by (by destruct s).
    destruct (e_in e); cbn [fmap option_fmap option_map on_recv registerOnRecv Connection_new]; rewrite Es; eexists; (split; [done|]).
    + destruct (handle_connection_inv s (e_accept e) Hs Ha) as [H1 H2]. split; [done|]. set_solver.
    + split; [done|]. set_solver.
  - destruct (peers_fresh s _ Hs Hp) as (Hb & Hge & Hnl & Hnt & c & Hc & Hpc). rewrite Hc. pose proof Hpc as (Efd & Hrv & Hcl & _).
    assert (MkRelay (net s) (handlers s) (state_ s) (pipe s) = s) as Es by (by destruct s).
    unfold eventTrigger. rewrite Hrv, Hcl. destruct (e_rdhup e); [|destruct (e_in e)]; cbn [fmap option_fmap option_map].
    + eexists. split; [done|]. unfold epollUnregister. rewrite Efd, decide_True by done. cbn [snd].
      destruct (relay_erase_inv s (e_fd e) c (epoll (net s) ∖ {[e_fd e]}) Hs Hp Hpc ltac:(by right)) as [H1 H2].
      rewrite insert_id in H1, H2 by done. split; [exact H1|]. rewrite H2. done.
    + rewrite Es. by apply on_message_inv.
    + rewrite Es. eexists. split; [done|]. split; [done|set_solver].
Qed.

Lemma batch_inv es s :
  relay_inv s → NoDup (e_fd <$> es) → Forall (λ e, e_fd e ∈ epoll (net s)) es → events_ok listen es s →
  ∃ s', batch es s = Ret s' ∧ relay_inv s'.
Proof.
  revert s. induction es as [|e es IH]; intros s Hs Hnd Hin Hok; cbn [batch]; [eauto|].
  apply Forall_cons in Hin as [He Hin]. cbn [fmap list_fmap] in Hnd. apply NoDup_cons in Hnd as [Hni Hnd]. destruct Hok as [Hoe Hok].
  destruct (on_event_inv s e Hs He Hoe) as (s1 & E & Hs1 & Hsub). rewrite E in *. cbind. apply IH; try done.
  apply Forall_forall. intros e' He'. apply Hsub. rewrite Forall_forall in Hin. specialize (Hin e' He'). apply elem_of_difference.
  split; [done|]. intros Heq%elem_of_singleton. apply Hni. rewrite <- Heq. by apply list_elem_of_fmap_2.
Qed.

Lemma rstep_inv a s : relay_inv s → action_ok listen a s → ∃ s', rstep a s = Ret s' ∧ relay_inv s'.
Proof.
  intros Hs Hok. destruct a as [es| |]; cbn [rstep].
  - rewrite decide_False by apply (inv_state s Hs). destruct Hok as (H1 & H2 & H3). by apply batch_inv.
  - eexists. split; [done|]. destruct Hs. constructor; try done. cbn [pipe]. destruct (pipe s); cbn in *; lia.
  - eauto.
Qed.

Lemma rrun_inv acts s : relay_inv s → run_ok listen acts s → ∃ s', rrun acts s = Ret s' ∧ relay_inv s'.
Proof.
  revert s. induction acts as [|a acts IH]; intros s Hs Hok; cbn [rrun]; [eauto|]. destruct Hok as [Ha Hok].
  destruct (rstep_inv a s Hs Ha) as (s1 & E & Hs1). rewrite E in *. cbind. by apply IH.
Qed.

Lemma start_relay_inv n :
  epoll n = ∅ → opened n = base → stray n = 0%nat → relay_inv (run_start listen term n).
Proof.
  intros He Ho Hst. unfold run_start, epollRegister. cbn [fd_ Connection_new]. rewrite decide_True by (rewrite He, Ho; set_solver).
  cbn [snd]. assert (dom (<[term := registerOnRecv Quit (Connection_new term)]> {[listen := registerOnRecv HandleConnection (Connection_new listen)]}
    : gmap Z (Connection callback)) ∖ {[listen; term]} = ∅) as Ep by (rewrite dom_insert_L, dom_singleton_L; set_solver).
  constructor; cbn [handlers net epoll opened stray state_ pipe]; unfold peers; cbn [handlers]; rewrite ?Ep.
  - rewrite lookup_insert_ne by done. apply lookup_singleton_eq.
  - apply lookup_insert_eq.
  - intros fd c. rewrite lookup_insert_Some, lookup_singleton_Some. intros [[<- _]|[_ [<- _]]]; done.
  - rewrite He. set_solver.
  - rewrite Ho. set_solver.
  - done.
  - done.
  - cbn. lia.
Qed.
End relay.

(** ** Properties *)

(** C12: the relay keeps its connections in order.  Under every sequence of
    batches of events, records taken from the pipe and attempts to stop it, the
    loop never follows a null handler and never reads outside a buffer; the
    epoll set is the listening socket and the sensors in the map, the open
    descriptors are those and the rest of the program's, nothing is closed that
    is not open, and the pipe holds at most eleven records. *)
Theorem relay_owns listen term base acts :
  listen ∈ base → term ∈ base → listen ≠ term →
  run_ok listen acts (run_start listen term (MkNet ∅ base 0)) →
  ∃ s, rrun acts (run_start listen term (MkNet ∅ base 0)) = Ret s ∧
    epoll (net s) = {[listen]} ∪ peers listen term s ∧ opened (net s) = base ∪ peers listen term s ∧
    base ## peers listen term s ∧ stray (net s) = 0%nat ∧ zlen (pipe s) ≤ 11.
Proof.
  intros Hl Ht Hlt Hok. destruct (rrun_inv listen term base Hl Ht Hlt acts _ (start_relay_inv listen term base Hl Ht Hlt (MkNet ∅ base 0) eq_refl eq_refl eq_refl) Hok) as (s & E & Hs).
  exists s. split; [done|]. split_and!; try apply Hs. intros x Hx Hp. by destruct (peers_fresh listen term base Hl Ht Hlt s x Hs Hp).
Qed.

(** The relay cannot be stopped: the descriptor of the terminator is not in
    the epoll set, so that whatever happens, and however often a destructor
    triggers it, the state is never [QUIT] and the thread it then joins goes on. *)
Theorem relay_never_quits listen term base acts s :
  listen ∈ base → term ∈ base → listen ≠ term →
  run_ok listen acts (run_start listen term (MkNet ∅ base 0)) →
  rrun acts (run_start listen term (MkNet ∅ base 0)) = Ret s →
  state_ s ≠ QUIT ∧ term ∉ epoll (net s).
Proof.
  intros Hl Ht Hlt Hok E. destruct (rrun_inv listen term base Hl Ht Hlt acts _ (start_relay_inv listen term base Hl Ht Hlt (MkNet ∅ base 0) eq_refl eq_refl eq_refl) Hok) as (s' & E' & Hs).
  pose proof (Ret_inj _ _ (eq_trans (eq_sym E) E')) as <-. split; [apply (inv_state _ _ _ s Hs)|]. rewrite (inv_epoll _ _ _ s Hs). unfold peers. set_solver.
Qed.

(** A record that arrives in two pieces.  Its first five bytes are read with
    what the buffer holds and pass for a record of another sensor, since the
    secret and the mask are among them; the rest is then no record and its
    sensor is kicked out. *)
Definition sample_record : list Z := masked 211 (SECRET ++ [211] ++ data_bytes (Encode (MkInput 0 182 300 0 9))).

Definition sample_start : Relay := run_start 3 4 (MkNet ∅ {[3; 4]} 0).
Definition sample_accept : revent := MkEvent 3 false true (Some 7) [] (λ _, true).
Definition sample_part (bytes : list Z) : revent := MkEvent 7 false true None bytes (λ _, true).

Definition topics_in (s : Relay) : list (list Z) := (λ d, RetrieveTopic (b_ d)) <$> pipe s.

Lemma split_record_misread :
  (s ← rrun [RBatch [sample_accept]; RBatch [sample_part sample_record]] sample_start; Ret (topics_in s, bool_decide (7 ∈ epoll (net s)))) =
    Ret ([[49; 56; 50]], true) ∧
  (s ← rrun [RBatch [sample_accept]; RBatch [sample_part (take 5 sample_record)]; RBatch [sample_part (drop 5 sample_record)]] sample_start;
   Ret (topics_in s, bool_decide (7 ∈ epoll (net s)))) = Ret ([[50; 49; 49]], false).
Proof. split; vm_compute; reflexivity. Qed.

(** When the loop ends because [epoll_wait] fails, the map closes the listening
    socket and the terminator's descriptor, and the destructor closes the
    listening socket again. *)
Lemma teardown_closes_twice :
  stray (run_end sample_start) = 0%nat ∧ opened (run_end sample_start) = ∅ ∧ stray (RemoteReader_destroy 3 (-1) (-1) (run_end sample_start)) = 1%nat.
Proof. split_and!; vm_compute; reflexivity. Qed.

(** ** Witnesses *)
Definition sample_acts : list raction :=
  [RBatch [sample_accept]; RTrigger; RBatch [sample_part sample_record; MkEvent 3 false true (Some 8) [] (λ _, true)]; RTake;
   RBatch [MkEvent 7 true false None [] (λ _, true)]].

Lemma relay_owns_witness :
  ∃ s, rrun sample_acts sample_start = Ret s ∧
    epoll (net s) = {[3]} ∪ peers 3 4 s ∧ opened (net s) = {[3; 4]} ∪ peers 3 4 s ∧
    {[3; 4]} ## peers 3 4 s ∧ stray (net s) = 0%nat ∧ zlen (pipe s) ≤ 11.
Proof. apply (relay_owns 3 4 {[3; 4]} sample_acts); [by_eval|by_eval|lia|by_eval]. Defined.

Lemma relay_never_quits_witness :
  match rrun sample_acts sample_start with Ret s => state_ s ≠ QUIT ∧ 4 ∉ epoll (net s) | _ => True end.
Proof.
  destruct (rrun sample_acts sample_start) as [s| |] eqn:E; [|exact I|exact I].
  apply (relay_never_quits 3 4 {[3; 4]} sample_acts s); [by_eval|by_eval|lia|by_eval|exact E].
Defined.
