(* ===== verification/Server.v ===== *)
(** * socket/server.cpp: the demonstration server

    An epoll loop over connection objects ([Connection]) in a set of shared
    pointers.  The callback a connection has for its end holds a pointer to the
    connection itself: erasing it from the set does not destroy it, and its
    descriptor stays open ([leaked]). *)
From Stdlib Require Import ZArith Lia.
From stdpp Require Import base tactics numbers list gmap sets.
From S2P Require Import Prelude.
From S2P Require Import WeightCodec.
From S2P Require Import Connection.

Open Scope Z_scope.

Inductive callback := Accept | Print | EraseThis.

Record Server := MkServer {
  net : Net;
  connections_ : gmap Z (Connection callback);
  new_connection_ : option (Connection callback);
  leaked : gset Z;
  received : list (Z * list Z);     (** what was logged, and from whom *)
}.

(** ** The start of [run]

    [None] is a return before the loop. *)
Definition server_start (listen term : Z) (n : Net) : option Server :=
  let h := Connection_new listen in
  let '(rc, n) := epollRegister h n in
  if decide (rc = -1) then None
  else
    let h := registerCallback (Some Accept) None None h in
    let t : Connection callback := Connection_new term in
    let '(rc, n) := epollRegister t n in
    if decide (rc = -1) then None
    else let n := Connection_destroy (cancel t) n in Some (MkServer n {[listen := h]} None ∅ []).

Record sevent := MkSEvent { e_fd : Z; e_rdhup : bool; e_in : bool; e_accept : option Z; e_bytes : list Z }.

(** [Server::Accept] *)
Definition accept_connection (a : option Z) (s : Server) : Server :=
  match a with
  | None => s
  | Some fd => MkServer (sys_opened fd (net s)) (connections_ s) (Some (Connection_new fd)) (leaked s) (received s)
  end.

(** What an event makes the connection do. *)
Definition dispatch (e : sevent) (c : Connection callback) (s : Server) : Server :=
  let '(f, n) := eventTrigger (e_rdhup e) (e_in e) c (net s) in
  let '(MkServer _ cs nc lk rc) := s in
  match f with
  | Some (Receive Accept) => accept_connection (e_accept e) (MkServer n cs nc lk rc)
  | Some (Receive Print) => MkServer n cs nc lk (rc ++ [(e_fd e, take 1024 (e_bytes e))])
  | Some (Closed EraseThis) => MkServer n (delete (fd_ c) cs) nc ({[fd_ c]} ∪ lk) rc
  | _ => MkServer n cs nc lk rc
  end.

(** The new connection is registered and gets its callbacks; [None] when that
    fails and [run] returns. *)
Definition adopt (s : Server) : option Server :=
  let '(MkServer n cs nc lk rc) := s in
  match nc with
  | None => Some s
  | Some c =>
      let '(r, n) := epollRegister c n in
      if decide (r = -1) then None
      else Some (MkServer n (<[fd_ c := registerCallback (Some Print) None (Some EraseThis) c]> cs) None lk rc)
  end.

(** The loop over the events of a batch: the terminator's ends it, and no more. *)
Fixpoint sbatch (term : Z) (es : list sevent) (s : Server) : option Server :=
  match es with
  | [] => Some s
  | e :: es =>
      if decide (e_fd e = term) then Some s
      else
        match connections_ s !! e_fd e with
        | None => sbatch term es s
        | Some c => s ← adopt (dispatch e c s); sbatch term es s
        end
  end.

(** Batches, one after the other; there is no other end than a failure. *)
Fixpoint srun (term : Z) (bs : list (list sevent)) (s : Server) : option Server :=
  match bs with
  | [] => Some s
  | b :: bs => s ← sbatch term b s; srun term bs s
  end.

(** The port of the program. *)
Definition PORT_BASE : Z := 10000.
Definition server_port (arg : option (list Z)) : Z :=
  match arg with
  | None => s16 (PORT_BASE + 2)
  | Some a => let t := parse_int a in s16 (PORT_BASE + (if decide (t > PORT_BASE) then Z.rem t PORT_BASE else t))
  end.

(** ** What the kernel gives *)
Definition sevent_ok (listen : Z) (e : sevent) (s : Server) : Prop :=
  (e_fd e = listen → e_rdhup e = false) ∧
  match e_accept e with Some fd => 0 ≤ fd ∧ fd ∉ opened (net s) | None => True end.
#[export] Instance sevent_ok_dec listen e s : Decision (sevent_ok listen e s).
Proof. unfold sevent_ok. destruct (e_accept e); apply _. Defined.

Fixpoint sbatch_ok (listen term : Z) (es : list sevent) (s : Server) : Prop :=
  match es with
  | [] => True
  | e :: es =>
      sevent_ok listen e s ∧
      match sbatch term [e] s with Some s' => sbatch_ok listen term es s' | None => True end
  end.
#[export] Instance sbatch_ok_dec listen term es s : Decision (sbatch_ok listen term es s).
Proof.
  revert s. induction es as [|e es IH]; intros s; cbn [sbatch_ok]; [apply _|]. apply and_dec; [apply _|].
  destruct (sbatch term [e] s); [apply IH|apply _].
Defined.

Fixpoint srun_ok (listen term : Z) (bs : list (list sevent)) (s : Server) : Prop :=
  match bs with
  | [] => True
  | b :: bs => sbatch_ok listen term b s ∧ match sbatch term b s with Some s' => srun_ok listen term bs s' | None => True end
  end.
#[export] Instance srun_ok_dec listen term bs s : Decision (srun_ok listen term bs s).
Proof.
  revert s. induction bs as [|b bs IH]; intros s; cbn [srun_ok]; [apply _|]. apply and_dec; [apply _|].
  destruct (sbatch term b s); [apply IH|apply _].
Defined.

(** ** The invariant *)
Section server.
Context (listen term : Z) (base : gset Z).

Definition is_client (fd : Z) (c : Connection callback) : Prop :=
  fd_ c = fd ∧ on_recv c = Some Print ∧ on_close c = Some EraseThis.

Definition clients (s : Server) : gset Z := dom (connections_ s) ∖ {[listen]}.

Record server_inv (s : Server) : Prop := {
  sinv_listen : connections_ s !! listen = Some (registerCallback (Some Accept) None None (Connection_new listen));
  sinv_clients : ∀ fd c, connections_ s !! fd = Some c → fd ≠ listen → is_client fd c;
  sinv_new : new_connection_ s = None;
  sinv_epoll : epoll (net s) = {[listen; term]} ∪ clients s;
  sinv_opened : opened (net s) = base ∪ clients s ∪ leaked s;
  sinv_apart : base ## clients s ∪ leaked s ∧ clients s ## leaked s;
  sinv_stray : stray (net s) = 0%nat;
}.

Context (Hl : listen ∈ base) (Ht : term ∈ base) (Hlt : listen ≠ term).

(** A client is accepted, registered and kept. *)
Lemma accept_inv s fd :
  server_inv s → 0 ≤ fd → fd ∉ opened (net s) →
  ∃ s', adopt (accept_connection (Some fd) s) = Some s' ∧ server_inv s' ∧
    clients s' = {[fd]} ∪ clients s ∧ leaked s' = leaked s ∧ received s' = received s.
Proof.
  intros [Hli Hcl Hnc Hep Hop [Hap Hap'] Hst] Hge Hn. destruct s as [[ep op st] cs nc lk rc]. cbn in *.
  unfold adopt, epollRegister. cbn. rewrite Hop in Hn.
  assert (fd ≠ listen ∧ fd ≠ term ∧ (fd ∉ dom cs) ∧ (fd ∉ lk) ∧ fd ∉ base) as (H1 & H2 & H3 & H4 & H5).
  { unfold clients in *. cbn in *. assert (fd ≠ listen) by set_solver. split_and!; try set_solver. }
  rewrite decide_True by (unfold clients in *; cbn in *; set_solver). rewrite decide_False by done.
  eexists. split; [done|].
  assert (dom (<[fd := registerCallback (Some Print) None (Some EraseThis) (Connection_new fd)]> cs) ∖ {[listen]} = {[fd]} ∪ dom cs ∖ {[listen]}) as Ec
    by (rewrite dom_insert_L; set_solver).
  split; [|unfold clients; cbn; by rewrite Ec].
  constructor; cbn; unfold clients in *; cbn in *; rewrite ?Ec.
  - by rewrite lookup_insert_ne.
  - intros x c. rewrite lookup_insert_Some. intros [[<- <-]|[_ H]]; [done|by apply Hcl].
  - done.
  - set_solver.
  - set_solver.
  - set_solver.
  - done.
Qed.

(** A client leaves: it is watched no more, and stays open. *)
Lemma leave_inv s fd c :
  server_inv s → fd ∈ clients s → connections_ s !! fd = Some c →
  let s' := dispatch (MkSEvent fd true false None []) c s in
  server_inv s' ∧ clients s' = clients s ∖ {[fd]} ∧ leaked s' = {[fd]} ∪ leaked s ∧ received s' = received s.
Proof.
  intros [Hli Hcl Hnc Hep Hop [Hap Hap'] Hst] Hfd Hc. assert (fd ≠ listen) as Hne by (unfold clients in Hfd; set_solver).
  destruct (Hcl fd c Hc Hne) as (E1 & E2 & E3).
  unfold dispatch, eventTrigger, epollUnregister. cbn [e_rdhup]. rewrite E1, E3, decide_True by (rewrite Hep; set_solver).
  destruct s as [[ep op st] cs nc lk rc]. cbn in *.
  assert (dom (delete fd cs) ∖ {[listen]} = dom cs ∖ {[listen]} ∖ {[fd]}) as Ec by (rewrite dom_delete_L; set_solver).
  assert (fd ∉ base) as Hb by set_solver. assert (fd ≠ term) by set_solver.
  split; [|unfold clients; cbn; by rewrite Ec].
  constructor; cbn; unfold clients in *; cbn in *; rewrite ?Ec.
  - by rewrite lookup_delete_ne.
  - intros x y. rewrite lookup_delete_Some. intros [_ Hxy]. by apply Hcl.
  - done.
  - rewrite Hep. set_solver.
  - rewrite Hop. apply set_eq. intros x. destruct (decide (x = fd)); set_solver.
  - set_solver.
  - done.
Qed.

(** ** The specification: who is connected, who has left, what was said *)
Record sspec := MkSSpec { sp_clients : gset Z; sp_left : gset Z; sp_log : list (Z * list Z) }.

Definition spec_event (e : sevent) (a : sspec) : sspec :=
  let '(MkSSpec cl lf lg) := a in
  if decide (e_fd e = listen) then
    match e_in e, e_accept e with true, Some fd => MkSSpec ({[fd]} ∪ cl) lf lg | _, _ => a end
  else if decide (e_fd e ∈ cl) then
    if e_rdhup e then MkSSpec (cl ∖ {[e_fd e]}) ({[e_fd e]} ∪ lf) lg
    else if e_in e then MkSSpec cl lf (lg ++ [(e_fd e, take 1024 (e_bytes e))]) else a
  else a.

Fixpoint spec_batch (es : list sevent) (a : sspec) : sspec :=
  match es with
  | [] => a
  | e :: es => if decide (e_fd e = term) then a else spec_batch es (spec_event e a)
  end.

Definition ssim (s : Server) (a : sspec) : Prop :=
  server_inv s ∧ clients s = sp_clients a ∧ leaked s = sp_left a ∧ received s = sp_log a.

Lemma event_sim e s a :
  ssim s a → sevent_ok listen e s → e_fd e ≠ term →
  ∃ s', sbatch term [e] s = Some s' ∧ ssim s' (spec_event e a).
Proof.
  intros (Hs & Hc & Hlk & Hr) [Hl0 Ha] Hnt. cbn [sbatch]. rewrite decide_False by done. destruct a as [cl lf lg]. cbn in Hc, Hlk, Hr.
  unfold spec_event. case_decide as El.
  - rewrite El, (sinv_listen s Hs). unfold dispatch, eventTrigger. rewrite Hl0 by done.
    assert (adopt s = Some s) as Hid by (destruct s; unfold adopt; pose proof (sinv_new _ Hs) as E; cbn in E; by rewrite E).
    assert (MkServer (net s) (connections_ s) (new_connection_ s) (leaked s) (received s) = s) as Es by (by destruct s).
    destruct (e_in e); cbn [fmap option_fmap option_map on_recv registerCallback].
    + destruct (e_accept e) as [fd|].
      * destruct Ha as [Hge Hn]. destruct (accept_inv s fd Hs Hge Hn) as (s' & E & H1 & H2 & H3 & H4).
        exists s'. destruct s. cbn in *. rewrite E. split; [done|]. unfold ssim. cbn. rewrite H2, H3, H4. by subst.
      * destruct s. cbn [accept_connection net] in *. rewrite Hid. eexists. split; [done|]. done.
    + destruct s. cbn [net]. rewrite Hid. eexists. split; [done|]. done.
  - destruct (connections_ s !! e_fd e) as [c|] eqn:Ec.
    + assert (e_fd e ∈ clients s) as Hin by (apply elem_of_dom_2 in Ec; unfold clients; set_solver).
      rewrite decide_True by (by rewrite <- Hc). destruct (sinv_clients s Hs _ c Ec El) as (E1 & E2 & E3).
      destruct (e_rdhup e) eqn:Erd.
      * destruct (leave_inv s (e_fd e) c Hs Hin Ec) as (H1 & H2 & H3 & H4).
        assert (dispatch e c s = dispatch (MkSEvent (e_fd e) true false None []) c s) as ->
          by (unfold dispatch, eventTrigger; rewrite Erd, E3; cbn; by destruct s).
        set (s1 := dispatch _ _ _) in *. exists s1. assert (adopt s1 = Some s1) as ->
          by (destruct s1; unfold adopt; pose proof (sinv_new _ H1) as E; cbn in E; by rewrite E).
        split; [done|]. unfold ssim. cbn [sp_clients sp_left sp_log]. rewrite H2, H3, H4. by rewrite Hc, Hlk, Hr.
      * unfold dispatch, eventTrigger. rewrite Erd, E2. destruct s as [n cs nc lk rc]. cbn in *.
        pose proof (sinv_new _ Hs) as E. cbn in E. subst nc.
        destruct (e_in e); cbn; (eexists; split; [done|]); (split; [|cbn; by subst]); destruct Hs; by constructor.
    + rewrite decide_False; [by exists s|]. rewrite <- Hc. unfold clients. apply not_elem_of_dom in Ec. set_solver.
Qed.

Lemma batch_sim es s a : ssim s a → sbatch_ok listen term es s → ∃ s', sbatch term es s = Some s' ∧ ssim s' (spec_batch es a).
Proof.
  revert s a. induction es as [|e es IH]; intros s a Hs Hok; [by exists s|]. cbn [sbatch_ok] in Hok. destruct Hok as [He Hok].
  cbn [spec_batch]. destruct (decide (e_fd e = term)) as [Et|Et].
  - exists s. cbn [sbatch]. by rewrite decide_True.
  - destruct (event_sim e s a Hs He Et) as (s1 & E & H1). rewrite E in Hok. destruct (IH s1 _ H1 Hok) as (s2 & E2 & H2). exists s2.
    split; [|done]. cbn [sbatch] in *. rewrite decide_False in * by done. destruct (connections_ s !! e_fd e); [|congruence].
    destruct (adopt _) as [s'|]; [|done]. cbn in *. congruence.
Qed.

Lemma run_sim bs s a : ssim s a → srun_ok listen term bs s → ∃ s', srun term bs s = Some s' ∧ ssim s' (foldl (λ a b, spec_batch b a) a bs).
Proof.
  revert s a. induction bs as [|b bs IH]; intros s a Hs Hok; [by exists s|]. destruct Hok as [Hb Hok].
  destruct (batch_sim b s a Hs Hb) as (s1 & E & H1). cbn [srun foldl]. rewrite E in *. cbn. by apply IH.
Qed.

Lemma start_sim s : server_start listen term (MkNet ∅ base 0) = Some s → ssim s (MkSSpec ∅ ∅ []).
Proof.
  unfold server_start, epollRegister. cbn. rewrite decide_True by set_solver. rewrite decide_False by done.
  cbn. rewrite decide_True by set_solver. rewrite decide_False by done. unfold Connection_destroy. cbn. intros E. simplify_eq.
  match goal with |- ssim ?s0 _ => assert (clients s0 = ∅) as Ec by (unfold clients; cbn; rewrite dom_singleton_L; set_solver) end.
  split; [|by rewrite Ec]. constructor; rewrite ?Ec; cbn; try done.
  - apply lookup_singleton_eq.
  - by intros fd c [<- _]%lookup_singleton_Some Hn.
  - set_solver.
  - set_solver.
Qed.
End server.

(** ** Properties *)

(** C14: the server's loop implements a set of clients: whatever the events, it
    does not return; it watches itself, the terminator and exactly the clients
    that have come and not left, and logs what they say, up to 1024 bytes an
    event, in order; the descriptors of the clients that have left stay open
    beside those, and no other is touched.  The terminator's event only ends its
    batch, with the events behind it unheard. *)
Theorem server_refines listen term base bs s0 :
  listen ∈ base → term ∈ base → listen ≠ term →
  server_start listen term (MkNet ∅ base 0) = Some s0 → srun_ok listen term bs s0 →
  let a := foldl (λ a b, spec_batch listen term b a) (MkSSpec ∅ ∅ []) bs in
  ∃ s, srun term bs s0 = Some s ∧ epoll (net s) = {[listen; term]} ∪ sp_clients a ∧
    opened (net s) = base ∪ sp_clients a ∪ sp_left a ∧ received s = sp_log a ∧ stray (net s) = 0%nat.
Proof.
  intros Hl Ht Hlt H0 Hok. destruct (run_sim listen term base Hl Ht Hlt bs s0 _ (start_sim listen term base Hl Ht Hlt s0 H0) Hok) as (s & E & Hs & Hc & Hlk & Hr).
  exists s. rewrite <- Hc, <- Hlk. split_and!; try done; apply Hs.
Qed.

(** The descriptor of a client that has left is never closed: a client that
    comes and goes costs one for good. *)
Lemma client_leaks :
  (s ← server_start 3 4 (MkNet ∅ {[3; 4]} 0);
   s ← srun 4 [[MkSEvent 3 false true (Some 5) []]; [MkSEvent 5 true true None []]] s;
   Some (elements (opened (net s)), elements (epoll (net s)))) = Some (elements ({[3; 4; 5]} : gset Z), elements ({[3; 4]} : gset Z)).
Proof. vm_compute. reflexivity. Qed.

(** ** Witness *)
Definition sample_batches : list (list sevent) :=
  [[MkSEvent 3 false true (Some 5) []]; [MkSEvent 5 false true None [104; 105]; MkSEvent 3 false true (Some 6) []];
   [MkSEvent 5 true true None []; MkSEvent 4 false true None []; MkSEvent 6 false true None [111]]].

Lemma server_refines_witness :
  let s0 := default (MkServer (MkNet ∅ ∅ 0) ∅ None ∅ []) (server_start 3 4 (MkNet ∅ {[3; 4]} 0)) in
  let a := foldl (λ a b, spec_batch 3 4 b a) (MkSSpec ∅ ∅ []) sample_batches in
  ∃ s, srun 4 sample_batches s0 = Some s ∧ epoll (net s) = {[3; 4]} ∪ sp_clients a ∧
    opened (net s) = {[3; 4]} ∪ sp_clients a ∪ sp_left a ∧ received s = sp_log a ∧ stray (net s) = 0%nat.
Proof.
  apply (server_refines 3 4 {[3; 4]} sample_batches (default (MkServer (MkNet ∅ ∅ 0) ∅ None ∅ []) (server_start 3 4 (MkNet ∅ {[3; 4]} 0))));
    [by_eval|by_eval|lia|vm_compute; reflexivity|by_eval].
Defined.

Lemma server_port_range a : server_port None = 10002 ∧ (0 ≤ parse_int a → 10000 ≤ server_port (Some a) ≤ 20000).
Proof.
  split; [reflexivity|]. intros H. unfold server_port, PORT_BASE. pose proof (Z.rem_bound_pos (parse_int a) 10000 ltac:(lia) ltac:(lia)).
  rewrite s16_small; case_decide; lia.
Qed.
