(* ===== verification/Logger.v ===== *)
(** * socket/logger.h and logger.cpp: the rotating log

    Standard output goes into a pipe; the logger's thread copies it to one of N
    files, and to the next when the file has grown over a limit, which it looks
    at every hundred reads.  A symbolic link with the name of the log points to
    the current file.  The state is the object and the file system; what [read]
    gives, and whether the link can be made and the file be opened, are arguments. *)
From Stdlib Require Import ZArith Lia.
From stdpp Require Import base tactics numbers list gmap sets.
From S2P Require Import Prelude.
From S2P Require Import WeightCodec.

Open Scope Z_scope.

Inductive State := UNINITIALIZED | READY | RUNNING | DETACHED.
#[export] Instance State_eq_dec : EqDecision State.
Proof. solve_decision. Defined.

(** [handler_] is the file that is open, or a null pointer. *)
Record Logger := MkLogger {
  handler_ : option (list Z);
  i_ : Z;
  filesize_ : Z;
  state_ : State;
  logfiles_ : list (list Z);
  logbase_ : list Z;
  buffer_ : list Z;
}.

Record FS := MkFS { files : gmap (list Z) (list Z); links : gmap (list Z) (list Z) }.

Definition kMb : Z := 1024 * 1024.

(** The name of a file is the name of the log and its number. *)
Definition file_name (logfile : list Z) (k : nat) : list Z := logfile ++ fmt_u (Z.of_nat k).

Definition Logger_new (logfile : list Z) (N : nat) (MB BL : Z) : Logger :=
  MkLogger None 0 (MB * kMb) UNINITIALIZED (file_name logfile <$> seq 0 N) logfile (replicate (Z.to_nat BL) 0).

(** The arguments [CreateLogger] accepts. *)
Definition arguments_ok (N : nat) (MB BL : Z) : bool :=
  bool_decide (0 < Z.of_nat N ≤ 10) && bool_decide (0 < MB ≤ 20) && bool_decide (0 < BL ≤ 1024).

(** The move constructor; [filesize_] gets the value of [i_]. *)
Definition Logger_move (o : Logger) : Logger :=
  MkLogger (handler_ o) (i_ o) (i_ o) (state_ o) (logfiles_ o) (logbase_ o) (buffer_ o).

Definition set_state (st : State) (l : Logger) : Logger :=
  MkLogger (handler_ l) (i_ l) (filesize_ l) st (logfiles_ l) (logbase_ l) (buffer_ l).

(** [redirect]: whether standard output is redirected, and the new state. *)
Definition redirect (l : Logger) : bool * Logger :=
  if decide (state_ l = UNINITIALIZED) then (true, set_state READY l) else (false, l).

(** [detach]: whether a thread is started; it sets the state before it is awaited. *)
Definition detach (l : Logger) : bool * Logger :=
  if decide (state_ l = DETACHED) then (false, l) else (true, set_state DETACHED (set_state RUNNING l)).

(** ** Files *)
(** [unlink(to)] and [symlink(from, to)], which may fail. *)
Definition symlink_to (ok : bool) (from to : list Z) (fs : FS) : FS :=
  MkFS (files fs) (let l := delete to (links fs) in if ok then <[to := from]> l else l).
Definition resolve (p : list Z) (fs : FS) : list Z := default p (links fs !! p).

(** What the two calls of [Next] answer. *)
Record opening := Opening { a_symlink : bool; a_fopen : bool }.

(** [Logger::Next] when no file is open: the link is made and the file opened
    through it, empty. *)
Definition open_next (a : opening) (l : Logger) (fs : FS) : outcome (Logger * FS) :=
  from ← load (logfiles_ l) (i_ l);
  let to := logbase_ l in
  let fs := symlink_to (a_symlink a) from to fs in
  if a_fopen a then
    let f := resolve to fs in
    Ret (MkLogger (Some f) (i_ l) (filesize_ l) (state_ l) (logfiles_ l) to (buffer_ l), MkFS (<[f := []]> (files fs)) (links fs))
  else Ret (MkLogger None (i_ l) (filesize_ l) (state_ l) (logfiles_ l) to (buffer_ l), fs).

Definition Next (a : opening) (l : Logger) (fs : FS) : outcome (Logger * FS) :=
  match handler_ l with
  | None => open_next a l fs
  | Some _ =>
      let i := if decide (i_ l + 1 = zlen (logfiles_ l)) then 0 else i_ l + 1 in
      open_next a (MkLogger None i (filesize_ l) (state_ l) (logfiles_ l) (logbase_ l) (buffer_ l)) fs
  end.

(** "%.*s" with the buffer: as many characters as were read, up to a zero; a
    negative number is no limit, and the string ends with its terminator. *)
Fixpoint c_text (s : list Z) : list Z :=
  match s with [] => [] | c :: s => if decide (c = 0) then [] else c :: c_text s end.

(** What [read] gives: bytes, or -1. *)
Definition read_text (r : option (list Z)) (buf : list Z) : list Z * list Z :=
  match r with
  | Some bs => let bs := take (length buf) bs in (c_text bs, bs ++ drop (length bs) buf)
  | None => (c_text buf, buf)
  end.

Definition FREQUENCY : Z := 100.

(** One turn of the loop: [count] is its counter, [a] what opening the next file
    would answer.  [fprintf] to a file that could not be opened is undefined. *)
Definition log_step (r : option (list Z)) (a : opening) (s : Logger * FS * Z) : outcome (Logger * FS * Z) :=
  let '(l, fs, count) := s in
  let '(t, buf) := read_text r (buffer_ l) in
  let l := MkLogger (handler_ l) (i_ l) (filesize_ l) (state_ l) (logfiles_ l) (logbase_ l) buf in
  match handler_ l with
  | None => Undef
  | Some f =>
      let text := default [] (files fs !! f) ++ t in
      let fs := MkFS (<[f := text]> (files fs)) (links fs) in
      if decide (FREQUENCY ≤ count + 1) then
        if decide (filesize_ l < zlen text) then '(l, fs) ← Next a l fs; Ret (l, fs, 0) else Ret (l, fs, 0)
      else Ret (l, fs, count + 1)
  end.

(** [Run]: the first file, and the reads, each with what opening a file would
    answer then. *)
Fixpoint log_loop (rs : list (option (list Z) * opening)) (s : Logger * FS * Z) : outcome (Logger * FS * Z) :=
  match rs with
  | [] => Ret s
  | (r, a) :: rs => s ← log_step r a s; log_loop rs s
  end.

Definition Run (a : opening) (rs : list (option (list Z) * opening)) (l : Logger) (fs : FS) : outcome (Logger * FS * Z) :=
  '(l, fs) ← Next a (set_state RUNNING l) fs; log_loop rs (l, fs, 0).

(** ** What was read *)
Definition both : opening := Opening true true.

(** Text that fits the buffer, while files can be opened. *)
Definition good_read (n : nat) (x : option (list Z) * opening) : Prop :=
  x.2 = both ∧ ∃ bs, x.1 = Some bs ∧ Forall (λ c, c ≠ 0) bs ∧ (length bs ≤ n)%nat.

Definition bytes_read (rs : list (option (list Z) * opening)) : list Z := concat (map (λ x, default [] x.1) rs).

Lemma c_text_all s : Forall (λ c, c ≠ 0) s → c_text s = s.
Proof. induction 1 as [|c s Hx _ IH]; cbn; [done|]. rewrite decide_False by done. by f_equal. Qed.

Lemma read_text_good bs buf :
  Forall (λ c, c ≠ 0) bs → (length bs ≤ length buf)%nat →
  (read_text (Some bs) buf).1 = bs ∧ length (read_text (Some bs) buf).2 = length buf.
Proof.
  intros Hz Hl. unfold read_text. cbn [fst snd]. rewrite (take_ge bs) by lia. split; [by apply c_text_all|].
  rewrite length_app, length_drop. lia.
Qed.

(** ** The invariant: the log as segments *)
Section ring.
Context (logfile : list Z) (N : nat) (HN : (0 < N ≤ 10)%nat).

Definition name (j : nat) : list Z := file_name logfile (j mod N).

(** [segs] are the segments written so far; the last is in the open file, and
    the files hold the last N of them. *)
Record log_inv (segs : list (list Z)) (l : Logger) (fs : FS) : Prop := {
  inv_some : (0 < length segs)%nat;
  inv_i : i_ l = Z.of_nat ((length segs - 1) mod N);
  inv_handler : handler_ l = Some (name (length segs - 1));
  inv_link : links fs !! logfile = Some (name (length segs - 1));
  inv_names : logfiles_ l = file_name logfile <$> seq 0 N;
  inv_base : logbase_ l = logfile;
  inv_files : ∀ j s, segs !! j = Some s → (length segs ≤ j + N)%nat → files fs !! name j = Some s;
}.

Lemma mod_apart j k : (j < k)%nat → (k < j + N)%nat → (j mod N ≠ k mod N)%nat.
Proof.
  intros H1 H2 E. pose proof (Nat.div_mod_eq j N). pose proof (Nat.div_mod_eq k N).
  assert (k - j = N * (k / N - j / N))%nat by nia. destruct (k / N - j / N)%nat; nia.
Qed.

Lemma succ_mod m : (S m mod N = if decide (S (m mod N) = N) then 0 else S (m mod N))%nat.
Proof.
  pose proof (Nat.div_mod_eq m N). pose proof (Nat.mod_upper_bound m N ltac:(lia)). case_decide.
  - symmetry. apply (Nat.mod_unique _ _ (S (m / N))); nia.
  - symmetry. apply (Nat.mod_unique _ _ (m / N)); nia.
Qed.

Lemma file_name_inj a b : (a < 10)%nat → (b < 10)%nat → file_name logfile a = file_name logfile b → a = b.
Proof.
  intros Ha Hb E. apply app_inj_1 in E as [_ E]; [|done]. revert E. unfold fmt_u. cbn [dec_loop]. rewrite !decide_True by lia. intros [=]. lia.
Qed.

Lemma name_apart j k : (j < k)%nat → (k < j + N)%nat → name j ≠ name k.
Proof.
  intros H1 H2 E. apply (mod_apart j k H1 H2). pose proof (Nat.mod_upper_bound j N ltac:(lia)). pose proof (Nat.mod_upper_bound k N ltac:(lia)).
  apply file_name_inj in E; lia.
Qed.

(** Text goes to the end of the last segment. *)
Lemma append_inv pre cur t l fs buf :
  log_inv (pre ++ [cur]) l fs →
  files fs !! name (length pre) = Some cur ∧
  log_inv (pre ++ [cur ++ t]) (MkLogger (handler_ l) (i_ l) (filesize_ l) (state_ l) (logfiles_ l) (logbase_ l) buf)
    (MkFS (<[name (length pre) := cur ++ t]> (files fs)) (links fs)).
Proof.
  intros [H1 H2 H3 H4 H5 H6 H7]. rewrite !length_app in *. cbn [length] in *. rewrite Nat.add_sub in *.
  assert (files fs !! name (length pre) = Some cur) as Hcur by (apply H7; [by rewrite list_lookup_middle|lia]).
  split; [done|]. constructor; cbn [handler_ i_ logfiles_ logbase_ files links]; rewrite ?length_app; cbn [length]; rewrite ?Nat.add_sub; try done.
  intros j x Hj Hw. destruct (decide (j = length pre)) as [->|Hne].
  - rewrite list_lookup_middle in Hj by done. simplify_eq. apply lookup_insert_eq.
  - assert (j < length pre)%nat as Hlt.
    { apply lookup_lt_Some in Hj. rewrite length_app in Hj. cbn in Hj. lia. }
    rewrite lookup_app_l in Hj by done. rewrite lookup_insert_ne; [|apply not_eq_sym, name_apart; lia]. apply H7; [|lia]. by rewrite lookup_app_l.
Qed.

Lemma load_name l k : logfiles_ l = file_name logfile <$> seq 0 N → (k < N)%nat → load (logfiles_ l) (Z.of_nat k) = Ret (file_name logfile k).
Proof.
  intros E Hk. rewrite E. apply load_Ret. split; [lia|]. rewrite Nat2Z.id, list_lookup_fmap, lookup_seq_lt by done. done.
Qed.

(** The next file is a new segment. *)
Lemma next_inv segs l fs :
  log_inv segs l fs → ∃ l' fs', Next both l fs = Ret (l', fs') ∧ log_inv (segs ++ [[]]) l' fs' ∧ filesize_ l' = filesize_ l ∧ buffer_ l' = buffer_ l.
Proof.
  intros [H1 H2 H3 H4 H5 H6 H7]. unfold Next. rewrite H3.
  set (i := if decide (i_ l + 1 = zlen (logfiles_ l)) then 0 else i_ l + 1).
  assert (i = Z.of_nat (length segs mod N)) as Hi.
  { unfold i. rewrite H5, H2, length_fmap, length_seq. replace (length segs) with (S (length segs - 1)) at 3 by lia. rewrite succ_mod.
    repeat case_decide; lia. }
  unfold open_next. cbn [logfiles_ i_ logbase_ filesize_ state_ buffer_]. rewrite Hi, load_name; [|done|apply Nat.mod_upper_bound; lia]. cbind.
  change (file_name logfile (length segs mod N)) with (name (length segs)). cbn [a_symlink a_fopen both].
  assert (resolve (logbase_ l) (symlink_to true (name (length segs)) (logbase_ l) fs) = name (length segs)) as ->
    by (unfold resolve, symlink_to; cbn; by rewrite lookup_insert_eq).
  eexists _, _. split; [done|]. split; [|done].
  constructor; cbn [handler_ i_ logfiles_ logbase_ files links symlink_to]; rewrite ?length_app; cbn [length]; rewrite ?Nat.add_sub; try done; [lia| |].
  - rewrite H6. apply lookup_insert_eq.
  - intros j x Hj Hw. destruct (decide (j = length segs)) as [->|Hne].
    + rewrite list_lookup_middle in Hj by done. simplify_eq. apply lookup_insert_eq.
    + assert (j < length segs)%nat as Hlt by (apply lookup_lt_Some in Hj; rewrite length_app in Hj; cbn in Hj; lia).
      rewrite lookup_app_l in Hj by done. rewrite lookup_insert_ne; [|apply not_eq_sym, name_apart; lia]. apply H7; [done|lia].
Qed.

(** Segments before the last are those that had grown over the limit. *)
Definition grown (limit : Z) (segs : list (list Z)) : Prop := Forall (λ s, limit < zlen s) (removelast segs).

Lemma removelast_snoc {A} (l : list A) x : removelast (l ++ [x]) = l.
Proof. apply removelast_last. Qed.

Lemma logger_step_inv segs l fs c bs :
  log_inv segs l fs → grown (filesize_ l) segs → Forall (λ c, c ≠ 0) bs → (length bs ≤ length (buffer_ l))%nat →
  ∃ segs' l' fs' c', log_step (Some bs) both (l, fs, c) = Ret (l', fs', c') ∧ log_inv segs' l' fs' ∧ grown (filesize_ l') segs' ∧
    filesize_ l' = filesize_ l ∧ concat segs' = concat segs ++ bs ∧ length (buffer_ l') = length (buffer_ l).
Proof.
  intros Hs Hg Hz Hl. destruct segs as [|cur pre _] using rev_ind; [pose proof (inv_some _ _ _ Hs) as H; cbn in H; lia|].
  unfold log_step. destruct (read_text_good bs (buffer_ l) Hz Hl) as [Et Elb]. destruct (read_text (Some bs) (buffer_ l)) as [t buf].
  cbn [fst snd] in Et, Elb. subst t. cbn [handler_ filesize_].
  destruct (append_inv pre cur bs l fs buf Hs) as [Hcur Ha]. assert (handler_ l = Some (name (length pre))) as Hh.
  { rewrite (inv_handler _ _ _ Hs), length_app. cbn [length]. by rewrite Nat.add_sub. }
  rewrite Hh in *. rewrite Hcur. change (default [] (Some cur)) with cur.
  unfold grown in *. rewrite removelast_snoc in Hg.
  assert (concat (pre ++ [cur ++ bs]) = concat (pre ++ [cur]) ++ bs) as Ec by (rewrite !concat_app; cbn; by rewrite !app_nil_r, app_assoc).
  case_decide; [case_decide as Hf|].
  - destruct (next_inv _ _ _ Ha) as (l' & fs' & E & Hi & Hsz & Hb). cbn [filesize_ buffer_] in Hsz, Hb. rewrite E. cbind.
    eexists _, _, _, _. split; [done|]. split; [exact Hi|]. rewrite removelast_snoc, Hsz, Hb. split_and!; try done.
    + apply Forall_app. split; [done|]. by constructor.
    + rewrite concat_app, Ec. cbn. by rewrite app_nil_r.
  - eexists _, _, _, _. split; [done|]. split; [exact Ha|]. rewrite removelast_snoc. by rewrite Ec.
  - eexists _, _, _, _. split; [done|]. split; [exact Ha|]. rewrite removelast_snoc. by rewrite Ec.
Qed.

Lemma loop_inv rs segs l fs c :
  log_inv segs l fs → grown (filesize_ l) segs → Forall (good_read (length (buffer_ l))) rs →
  ∃ segs' l' fs' c', log_loop rs (l, fs, c) = Ret (l', fs', c') ∧ log_inv segs' l' fs' ∧ grown (filesize_ l) segs' ∧
    concat segs' = concat segs ++ bytes_read rs.
Proof.
  intros Hs Hg Hrs. revert segs l fs c Hs Hg Hrs. induction rs as [|[r a] rs IH]; intros segs l fs c Hs Hg Hrs; cbn [log_loop].
  - exists segs, l, fs, c. by rewrite app_nil_r.
  - apply Forall_cons in Hrs as [(Ea & bs & Er & Hz & Hl) Hrs]. cbn in Ea, Er. subst a r.
    destruct (logger_step_inv segs l fs c bs Hs Hg Hz Hl) as (segs1 & l1 & fs1 & c1 & E & H1 & H2 & H3 & H4 & H5). rewrite E. cbind.
    destruct (IH segs1 l1 fs1 c1 H1 H2) as (segs2 & l2 & fs2 & c2 & E2 & H6 & H7 & H8); [by rewrite H5|]. exists segs2, l2, fs2, c2.
    rewrite H3 in H7. split_and!; try done. rewrite H8, H4. unfold bytes_read. cbn. by rewrite app_assoc.
Qed.
End ring.

(** ** Properties *)

(** C17: the log is kept.  As long as reads give text and files can be opened,
    the thread writes every byte it has read, in order, as segments to the N files
    in turn; the link names the file of the last segment, the last N segments are
    in the files, each in its own, and every segment before the last has grown
    over the limit of the object: nothing is lost but whole old files.  A first
    file that cannot be opened makes the first read undefined. *)
Theorem logger_keeps logfile N l fs rs :
  (0 < N ≤ 10)%nat → handler_ l = None → i_ l = 0 → logfiles_ l = file_name logfile <$> seq 0 N → logbase_ l = logfile →
  Forall (good_read (length (buffer_ l))) rs →
  (∃ segs l' fs' c, Run both rs l fs = Ret (l', fs', c) ∧ concat segs = bytes_read rs ∧
    links fs' !! logfile = Some (name logfile N (length segs - 1)) ∧
    (∀ j s, segs !! j = Some s → (length segs ≤ j + N)%nat → files fs' !! name logfile N j = Some s) ∧
    Forall (λ s, filesize_ l < zlen s) (removelast segs)) ∧
  (∀ a, rs ≠ [] → a_fopen a = false → Run a rs l fs = Undef).
Proof.
  intros HN Hh Hi Hf Hb Hrs. unfold Run, Next, set_state. cbn [handler_]. rewrite Hh. unfold open_next. cbn [logfiles_ i_ logbase_ filesize_ state_ buffer_].
  rewrite Hi, (load_name logfile N HN l 0 Hf ltac:(lia) : load (logfiles_ l) 0 = _). cbind. split.
  2: { intros a Hne ->. cbind. destruct rs as [|[r a'] rs]; [done|]. cbn [log_loop]. unfold log_step. by destruct (read_text _ _). }
  cbn [a_symlink a_fopen both].
  assert (resolve (logbase_ l) (symlink_to true (file_name logfile 0) (logbase_ l) fs) = file_name logfile 0) as ->
    by (unfold resolve, symlink_to; cbn; by rewrite lookup_insert_eq).
  cbind.
  match goal with |- context [log_loop rs (?l1, ?fs1, 0)] => destruct (loop_inv logfile N HN rs [[]] l1 fs1 0) as (segs & l' & fs' & c & E & [] & H2 & H3) end.
  - assert (0 mod N = 0)%nat as H0 by (apply Nat.mod_small; lia).
    constructor; cbn [handler_ i_ logfiles_ logbase_ files links symlink_to length]; unfold name; rewrite ?Nat.sub_diag, ?H0; try done.
    + lia.
    + rewrite Hb. apply lookup_insert_eq.
    + intros [|j] s; [|done]. cbn. intros [= <-] _. rewrite H0. apply lookup_insert_eq.
  - constructor.
  - done.
  - exists segs, l', fs', c. split_and!; try done.
Qed.

(** An object that was moved, as [CreateLogger]'s result is when it is not
    built in place, has a limit of zero: a new file is begun every hundred reads. *)
Lemma moved_limit logfile N MB BL : filesize_ (Logger_move (Logger_new logfile N MB BL)) = 0.
Proof. done. Qed.

Definition one_char : list (option (list Z) * opening) := replicate 100 (Some [97], both).

Lemma moved_rotates :
  (r ← Run both one_char (Logger_new [108] 2 1 4) (MkFS ∅ ∅); let '(l, _, _) := r in Ret (i_ l)) = Ret 0 ∧
  (r ← Run both one_char (Logger_move (Logger_new [108] 2 1 4)) (MkFS ∅ ∅); let '(l, _, _) := r in Ret (i_ l)) = Ret 1.
Proof. split; vm_compute; reflexivity. Qed.

(** A read that fails writes what the buffer still holds once more, and what
    follows a zero byte is not written. *)
Lemma failed_read_repeats buf bs : Forall (λ c, c ≠ 0) bs → length bs = length buf →
  let '(t, buf) := read_text (Some bs) buf in t = bs ∧ (read_text None buf).1 = bs.
Proof.
  intros Hz Hl. cbn [read_text]. rewrite (take_ge bs), (drop_ge buf) by lia. rewrite app_nil_r. cbn [read_text fst]. by rewrite c_text_all.
Qed.

Lemma zero_cuts (a b buf : list Z) : Forall (λ c, c ≠ 0) a → (length (a ++ 0%Z :: b) ≤ length buf)%nat → (read_text (Some (a ++ 0 :: b)) buf).1 = a.
Proof.
  intros Ha Hl. unfold read_text. cbn [fst]. rewrite take_ge by done. clear Hl. induction Ha as [|c a Hc _ IH]; cbn; [done|].
  rewrite decide_False by done. by rewrite IH.
Qed.

(** A later file that cannot be opened leaves a null pointer to the next read. *)
Lemma lost_file_undefined :
  Run both (replicate 100 (Some [97], Opening true false) ++ [(Some [97], both)]) (Logger_move (Logger_new [108] 2 1 4)) (MkFS ∅ ∅) = Undef.
Proof. vm_compute. reflexivity. Qed.

(** ** Witness *)
Lemma logger_keeps_witness :
  let l := Logger_move (Logger_new [108] 2 1 4) in
  ∃ segs l' fs' c, Run both one_char l (MkFS ∅ ∅) = Ret (l', fs', c) ∧ concat segs = replicate 100 97 ∧
    links fs' !! [108] = Some (name [108] 2 (length segs - 1)) ∧
    (∀ j s, segs !! j = Some s → (length segs ≤ j + 2)%nat → files fs' !! name [108] 2 j = Some s) ∧
    Forall (λ s, filesize_ l < zlen s) (removelast segs).
Proof.
  destruct (logger_keeps [108] 2 (Logger_move (Logger_new [108] 2 1 4)) (MkFS ∅ ∅) one_char) as [H _]; [lia|reflexivity..| |exact H].
  apply Forall_replicate. split; [reflexivity|]. exists [97]. split; [reflexivity|]. split; [by_eval|vm_compute; lia].
Defined.
