(* ===== verification/Watcher.v ===== *)
(** * socket/monitor: file_watcher.h, file_watcher.cpp, proc_monitor.h, proc_monitor.cpp

    The two threads that turn what the kernel reports into callbacks: of files
    made and removed in watched directories (inotify), and of processes that
    start a program or end (the process connector).  What [poll] and the reads
    give is an argument; buffers are the bytes the kernel writes, and a callback
    is what it is called with. *)
From Stdlib Require Import ZArith Lia.
From stdpp Require Import base tactics numbers list gmap sets.
From S2P Require Import Prelude.

Open Scope Z_scope.

Definition loadu32 (m : list Z) (i : Z) : outcome Z := v ← load32 m i; Ret (u32 v).
Definition le32 (v : Z) : list Z := [v mod 256; v / 256 mod 256; v / 65536 mod 256; v / 16777216 mod 256].
Definition le16 (v : Z) : list Z := [v mod 256; v / 256 mod 256].

Lemma load_le32 a v b : load32 (a ++ le32 v ++ b) (zlen a) = Ret (s32 v).
Proof.
  unfold load32. rewrite (load_n_app a (le32 v) b) by done. cbind. f_equal. cbn [lookup_total list_lookup_total le32].
  unfold s32, swrap. eval_pow. mlia.
Qed.

Lemma loadu_le32 a v b i : i = zlen a → 0 ≤ v < 4294967296 → loadu32 (a ++ le32 v ++ b) i = Ret v.
Proof.
  intros -> Hv. unfold loadu32. rewrite load_le32. cbind. f_equal. unfold s32, u32, swrap. eval_pow. mlia.
Qed.

Lemma loads_le32 a v b i : i = zlen a → -2147483648 ≤ v ≤ 2147483647 → load32 (a ++ le32 v ++ b) i = Ret v.
Proof. intros -> Hv. rewrite load_le32. f_equal. by apply s32_small. Qed.

(** ** [FileWatcher] *)
Definition IN_CREATE : Z := 0x100.
Definition IN_DELETE : Z := 0x200.
Definition EVENT : Z := 16.      (** [sizeof(struct inotify_event)] *)

Inductive watch_call := OnCreate (wd : Z) (name : list Z) | OnDelete (wd : Z) (name : list Z).

(** Which callbacks are registered. *)
Record callbacks := Callbacks { on_file_create_ : bool; on_file_delete_ : bool }.

(** [registerCallback(type, callback)]: the new one is swapped in. *)
Inductive EventType := CREATE | DELETE.
Definition registerCallback (t : EventType) (set : bool) (c : callbacks) : callbacks :=
  match t with CREATE => Callbacks set (on_file_delete_ c) | DELETE => Callbacks (on_file_create_ c) set end.

(** One event of the buffer: the callback is given the structure, of which the
    name is read as a string. *)
Definition event_at (c : callbacks) (buf : list Z) (p : Z) : outcome (list watch_call * Z) :=
  wd ← load32 buf p;
  mask ← loadu32 buf (p + 4);
  len ← loadu32 buf (p + 12);
  calls ←
    (if decide (Z.land mask IN_CREATE ≠ 0 ∧ on_file_create_ c = true) then
       name ← load_n buf (p + EVENT) len; Ret [OnCreate wd name]
     else if decide (Z.land mask IN_DELETE ≠ 0 ∧ on_file_delete_ c = true) then
       name ← load_n buf (p + EVENT) len; Ret [OnDelete wd name]
     else Ret []);
  Ret (calls, p + EVENT + len).

(** The loop over the [nr] bytes that were read. *)
Fixpoint events (fuel : nat) (c : callbacks) (buf : list Z) (nr p : Z) : outcome (list watch_call) :=
  if decide (p < nr) then
    match fuel with
    | O => NoFuel
    | S fuel => '(calls, p) ← event_at c buf p; more ← events fuel c buf nr p; Ret (calls ++ more)
    end
  else Ret [].

(** What a turn of the loop of [Run] finds: an error of [poll] that ends it or
    does not, the notifier, and the result of [read]: an error that is [EAGAIN]
    or is not, or bytes. *)
Inductive read_result := RBytes (bs : list Z) | RAgain | RError.
Inductive watch_turn :=
| TInterrupted
| TPollError
| TReady (notified readable : bool) (r : read_result).

Definition BUFFER : Z := 4096.

(** The bytes overwrite the beginning of the buffer; every turn consumes at
    least a header, so that the number of bytes is enough fuel. *)
Fixpoint watch_run (c : callbacks) (ts : list watch_turn) (buf : list Z) : outcome (list watch_call) :=
  match ts with
  | [] => Ret []
  | TInterrupted :: ts => watch_run c ts buf
  | TPollError :: _ => Ret []
  | TReady notified readable r :: ts =>
      if notified then Ret []
      else if readable then
        match r with
        | RError => Ret []
        | RAgain => watch_run c ts buf
        | RBytes bs =>
            let buf := take (Z.to_nat BUFFER) bs ++ drop (length (take (Z.to_nat BUFFER) bs)) buf in
            calls ← events (length bs) c buf (zlen (take (Z.to_nat BUFFER) bs)) 0;
            more ← watch_run c ts buf;
            Ret (calls ++ more)
        end
      else watch_run c ts buf
  end.

(** ** What the kernel writes *)
Record inotify_event := InotifyEvent { ev_wd : Z; ev_mask : Z; ev_cookie : Z; ev_name : list Z }.

Definition event_bytes (e : inotify_event) : list Z :=
  le32 (ev_wd e) ++ le32 (ev_mask e) ++ le32 (ev_cookie e) ++ le32 (zlen (ev_name e)) ++ ev_name e.

Definition event_ok (e : inotify_event) : Prop :=
  -2147483648 ≤ ev_wd e ≤ 2147483647 ∧ 0 ≤ ev_mask e < 4294967296 ∧ zlen (ev_name e) < 4294967296.

Definition calls_of (c : callbacks) (e : inotify_event) : list watch_call :=
  if decide (Z.land (ev_mask e) IN_CREATE ≠ 0 ∧ on_file_create_ c = true) then [OnCreate (ev_wd e) (ev_name e)]
  else if decide (Z.land (ev_mask e) IN_DELETE ≠ 0 ∧ on_file_delete_ c = true) then [OnDelete (ev_wd e) (ev_name e)]
  else [].

Lemma event_bytes_length e : zlen (event_bytes e) = EVENT + zlen (ev_name e).
Proof. unfold event_bytes, EVENT. rewrite !length_app. cbn [length le32]. lia. Qed.

Lemma event_read c a e r p : event_ok e → p = zlen a →
  event_at c (a ++ event_bytes e ++ r) p = Ret (calls_of c e, p + zlen (event_bytes e)).
Proof.
  intros (Hwd & Hm & Hn) ->. rewrite event_bytes_length. unfold event_at, event_bytes. rewrite <- !app_assoc.
  rewrite (loads_le32 a) by done. cbind. rewrite (app_assoc a (le32 (ev_wd e))).
  rewrite (loadu_le32 (a ++ le32 (ev_wd e)) _ _ (zlen a + 4)) by (done || (rewrite length_app; cbn [length le32]; lia)). cbind.
  rewrite (app_assoc _ (le32 (ev_mask e))), (app_assoc _ (le32 (ev_cookie e))).
  rewrite (loadu_le32 (((a ++ le32 (ev_wd e)) ++ le32 (ev_mask e)) ++ le32 (ev_cookie e)) _ _ (zlen a + 12)) by (lia || (rewrite !length_app; cbn [length le32]; lia)). cbind.
  rewrite (app_assoc _ (le32 (zlen (ev_name e)))).
  rewrite load_n_app by (done || (rewrite !length_app; unfold EVENT; cbn [length le32]; lia)). unfold calls_of. cbind.
  rewrite <- Z.add_assoc. repeat case_decide; done.
Qed.

Lemma events_read c es a r fuel : Forall event_ok es → (length es ≤ fuel)%nat →
  events fuel c (a ++ concat (map event_bytes es) ++ r) (zlen (a ++ concat (map event_bytes es))) (zlen a) = Ret (concat (map (calls_of c) es)).
Proof.
  intros Hes. revert a fuel. induction Hes as [|e es He _ IH]; intros a fuel Hf.
  - rewrite app_nil_r. destruct fuel; cbn [events]; by rewrite decide_False by lia.
  - cbn [map concat] in *. destruct fuel as [|fuel]; [cbn in Hf; lia|]. cbn [events].
    pose proof (event_bytes_length e) as Hl. unfold EVENT in Hl. rewrite decide_True by (rewrite !length_app; lia).
    rewrite <- (app_assoc (event_bytes e)), event_read by done. cbind.
    specialize (IH (a ++ event_bytes e) fuel ltac:(cbn in Hf; lia)). rewrite <- !app_assoc in IH.
    replace (zlen (a ++ event_bytes e)) with (zlen a + zlen (event_bytes e)) in IH by (rewrite length_app; lia). rewrite IH. done.
Qed.

(** The watched directories, and what the destructor leaves to the system: the
    descriptor is closed before the watches are removed. *)
Record FileWatcher := MkWatcher { watched_paths_ : gmap Z (list Z); cleanup_ : list Z }.

Definition watchPath (path : list Z) (wd : option Z) (w : FileWatcher) : bool * FileWatcher :=
  match wd with
  | None => (false, w)
  | Some d => (true, MkWatcher (<[d := path]> (watched_paths_ w)) (cleanup_ w ++ [d]))
  end.

Inductive teardown := CloseInotify | RmWatch (wd : Z).
Definition FileWatcher_destroy (w : FileWatcher) : list teardown := CloseInotify :: map RmWatch (cleanup_ w).

(** ** Properties *)

(** Every event is passed on: when a read gives whole events, each is turned
    into the call of the callback for its kind, if there is one, with the name it
    carries, in order and once, with no access outside the buffer, and the loop
    then goes on. *)
Theorem watcher_reports c es buf ts calls :
  Forall event_ok es → zlen (concat (map event_bytes es)) ≤ BUFFER → zlen buf = BUFFER →
  watch_run c ts (concat (map event_bytes es) ++ drop (length (concat (map event_bytes es))) buf) = Ret calls →
  watch_run c (TReady false true (RBytes (concat (map event_bytes es))) :: ts) buf = Ret (concat (map (calls_of c) es) ++ calls).
Proof.
  intros Hes Hl Hb E. cbn [watch_run]. set (bs := concat (map event_bytes es)) in *. rewrite (take_ge bs) by lia.
  pose proof (events_read c es [] (drop (length bs) buf) (length bs) Hes) as H. cbn [app length] in H. fold bs in H. change (Z.of_nat 0) with 0 in H.
  rewrite H.
  - cbind. by rewrite E.
  - unfold bs. clear. induction es as [|e es IH]; cbn [map concat length]; [lia|]. rewrite length_app.
    pose proof (event_bytes_length e) as H. unfold EVENT in H. lia.
Qed.

(** The watches are removed on a descriptor that was closed before. *)
Lemma watches_removed_late w : ∃ rest, FileWatcher_destroy w = CloseInotify :: rest ∧ ∀ d, d ∈ cleanup_ w → RmWatch d ∈ rest.
Proof. eexists. split; [done|]. intros d Hd. by apply list_elem_of_fmap_2. Qed.

(** ** [ProcMonitor] *)
Module Proc.

(** [connect]: [sock] is what [socket] gives and [bound] whether [bind]
    succeeds.  The deferred closures run in the reverse of their order: the
    socket is closed on failure, and then [nl_sock_] is set in any case. *)
Record Monitor := MkMonitor { nl_sock_ : Z; opened : gset Z }.

Definition connect (sock : option Z) (bound : bool) (m : Monitor) : bool * Monitor :=
  match sock with
  | None => (false, MkMonitor (-1) (opened m))
  | Some fd => if bound then (true, MkMonitor fd ({[fd]} ∪ opened m)) else (false, MkMonitor fd (({[fd]} ∪ opened m) ∖ {[fd]}))
  end.

Definition NLMSG_DONE : Z := 3.
Definition CN_IDX_PROC : Z := 1.
Definition CN_VAL_PROC : Z := 1.
Definition PROC_CN_MCAST_LISTEN : Z := 1.
Definition PROC_CN_MCAST_IGNORE : Z := 2.

(** A message: the header of netlink, that of the connector, and a payload. *)
Definition nlmsg (len pid : Z) : list Z := le32 len ++ le16 NLMSG_DONE ++ le16 0 ++ le32 0 ++ le32 pid.
Definition cn_msg (len : Z) : list Z := le32 CN_IDX_PROC ++ le32 CN_VAL_PROC ++ le32 0 ++ le32 0 ++ le16 len ++ le16 0.

(** What [subscribe] sends. *)
Definition subscribe (pid : Z) (enable : bool) : list Z :=
  nlmsg 40 pid ++ cn_msg 4 ++ le32 (if enable then PROC_CN_MCAST_LISTEN else PROC_CN_MCAST_IGNORE).

Definition PROC_EVENT_NONE : Z := 0.
Definition PROC_EVENT_EXEC : Z := 2.
Definition PROC_EVENT_EXIT : Z := 0x80000000.

(** Where the event begins in the packed message, and its fields: the kind, a
    processor and a time, then the data of the kind. *)
Definition EVENT_AT : Z := 36.
Definition DATA_AT : Z := 52.
Definition MSG_SIZE : Z := 76.

Inductive proc_call := OnExec (pid : Z) | OnExit (pid rc : Z).
Record proc_callbacks := ProcCallbacks { on_process_exec : bool; on_process_exit : bool }.

(** A message that was received into the object: which callback is called. *)
Definition on_message (c : proc_callbacks) (msg : list Z) : outcome (list proc_call) :=
  what ← loadu32 msg EVENT_AT;
  if decide (what = PROC_EVENT_NONE) then Ret []
  else if decide (what = PROC_EVENT_EXEC ∧ on_process_exec c = true) then pid ← load32 msg DATA_AT; Ret [OnExec pid]
  else if decide (what = PROC_EVENT_EXIT ∧ on_process_exit c = true) then
    pid ← load32 msg DATA_AT; rc ← loadu32 msg (DATA_AT + 8); Ret [OnExit pid (s32 rc)]
  else Ret [].

Inductive proc_turn := PInterrupted | PPollError | PReady (notified readable : bool) (r : option (list Z)) (eintr : bool).

(** [Run]: what was called.  A message overwrites the beginning of the object. *)
Fixpoint proc_run (c : proc_callbacks) (ts : list proc_turn) (msg : list Z) : outcome (list proc_call) :=
  match ts with
  | [] => Ret []
  | PInterrupted :: ts => proc_run c ts msg
  | PPollError :: _ => Ret []
  | PReady notified readable r eintr :: ts =>
      if notified then Ret []
      else if readable then
        match r with
        | None => if eintr then proc_run c ts msg else Ret []
        | Some bs =>
            let bs := take (Z.to_nat MSG_SIZE) bs in
            let msg := bs ++ drop (length bs) msg in
            calls ← on_message c msg; more ← proc_run c ts msg; Ret (calls ++ more)
        end
      else proc_run c ts msg
  end.

(** *** What the kernel sends *)
Inductive proc_event := Exec (pid tgid : Z) | Exit (pid tgid rc sig : Z) | Other (what : Z).

Definition is_int (v : Z) : Prop := -2147483648 ≤ v ≤ 2147483647.

(** [h] are the bytes before the event, [t] the processor and the time, [z] what
    follows the data. *)
Definition proc_bytes (h t z : list Z) (e : proc_event) : list Z :=
  match e with
  | Exec pid tgid => h ++ le32 PROC_EVENT_EXEC ++ t ++ le32 pid ++ le32 tgid ++ z
  | Exit pid tgid rc sig => h ++ le32 PROC_EVENT_EXIT ++ t ++ le32 pid ++ le32 tgid ++ le32 rc ++ le32 sig ++ z
  | Other what => h ++ le32 what ++ t ++ z
  end.

Definition event_ok (e : proc_event) : Prop :=
  match e with
  | Exec pid _ => is_int pid
  | Exit pid _ rc _ => is_int pid ∧ is_int rc
  | Other w => 0 ≤ w < 4294967296 ∧ w ≠ PROC_EVENT_EXEC ∧ w ≠ PROC_EVENT_EXIT
  end.

Definition reported (c : proc_callbacks) (e : proc_event) : list proc_call :=
  match e with
  | Exec pid _ => if on_process_exec c then [OnExec pid] else []
  | Exit pid _ rc _ => if on_process_exit c then [OnExit pid rc] else []
  | Other _ => []
  end.

Lemma message_read c h t z r e :
  event_ok e → length h = 36%nat → length t = 12%nat → on_message c (proc_bytes h t z e ++ r) = Ret (reported c e).
Proof.
  intros He Hh Ht. destruct e as [pid tgid|pid tgid rc sig|w]; cbn [proc_bytes event_ok reported] in *; unfold on_message; rewrite <- !app_assoc.
  - rewrite (loadu_le32 h _ _ EVENT_AT) by (unfold EVENT_AT, PROC_EVENT_EXEC; lia). cbind. rewrite decide_False by done.
    rewrite (app_assoc h), (app_assoc _ t). destruct (on_process_exec c).
    + rewrite decide_True by done. rewrite loads_le32 by (done || (rewrite !length_app; unfold DATA_AT; cbn [length le32]; lia)). done.
    + rewrite decide_False by (intros [_ ?]; done). rewrite decide_False by (intros [? _]; done). done.
  - destruct He as [Hp Hr]. rewrite (loadu_le32 h _ _ EVENT_AT) by (unfold EVENT_AT, PROC_EVENT_EXIT; lia). cbind. rewrite decide_False by done. rewrite decide_False by (intros [? _]; done).
    rewrite (app_assoc h), (app_assoc _ t). destruct (on_process_exit c).
    + rewrite decide_True by done. rewrite loads_le32 by (done || (rewrite !length_app; unfold DATA_AT; cbn [length le32]; lia)). cbind.
      rewrite (app_assoc _ (le32 pid)), (app_assoc _ (le32 tgid)). unfold loadu32. rewrite loads_le32 by (done || (rewrite !length_app; unfold DATA_AT; cbn [length le32]; lia)).
      cbind. do 3 f_equal. unfold is_int in Hr. unfold s32, u32, swrap. eval_pow. mlia.
    + by rewrite decide_False by (intros [_ ?]; done).
  - destruct He as (Hw & H1 & H2). rewrite (loadu_le32 h _ _ EVENT_AT) by (unfold EVENT_AT; lia). cbind. case_decide; [done|].
    by rewrite decide_False, decide_False by (intros [? _]; done).
Qed.

(** Every process event is passed on: a message of the connector that tells
    of a program started or a process ended leads to one call, with the process
    and its exit code, and any other to none, with no access outside the message
    object; the loop then goes on. *)
Theorem monitor_reports c h t z e msg ts calls :
  event_ok e → length h = 36%nat → length t = 12%nat → zlen (proc_bytes h t z e) ≤ MSG_SIZE → zlen msg = MSG_SIZE →
  proc_run c ts (proc_bytes h t z e ++ drop (length (proc_bytes h t z e)) msg) = Ret calls →
  proc_run c (PReady false true (Some (proc_bytes h t z e)) false :: ts) msg = Ret (reported c e ++ calls).
Proof.
  intros He Hh Ht Hl Hm E. cbn [proc_run]. rewrite take_ge by lia. rewrite message_read by done. cbind. by rewrite E.
Qed.

(** A socket that could not be bound is closed, and its number kept: the thread
    closes it again. *)
Lemma failed_connect_keeps fd m : fd ∉ opened m →
  let '(ok, m') := connect (Some fd) false m in ok = false ∧ nl_sock_ m' = fd ∧ fd ∉ opened m'.
Proof. intros H. cbn. set_solver. Qed.

Lemma subscribe_size pid enable : zlen (subscribe pid enable) = 40 ∧ loadu32 (subscribe pid enable) 0 = Ret 40.
Proof. done. Qed.

Lemma monitor_reports_witness :
  proc_run (ProcCallbacks true true) [PReady false true (Some (proc_bytes (replicate 36 0) (replicate 12 0) [] (Exit 300 300 (-1) 17))) false] (replicate 76 9) =
    Ret (reported (ProcCallbacks true true) (Exit 300 300 (-1) 17) ++ []).
Proof.
  apply (monitor_reports (ProcCallbacks true true) (replicate 36 0) (replicate 12 0) [] (Exit 300 300 (-1) 17) (replicate 76 9) [] []);
    [cbn; unfold is_int; lia|reflexivity|reflexivity|by_eval|reflexivity|reflexivity].
Defined.
End Proc.

(** ** Witness *)
Definition sample_events : list inotify_event :=
  [InotifyEvent 1 IN_CREATE 0 [97; 0; 0; 0]; InotifyEvent 1 0x40000000 0 []; InotifyEvent 2 IN_DELETE 0 [98; 99; 0; 0]].

Lemma watcher_reports_witness :
  watch_run (Callbacks true true) [TReady false true (RBytes (concat (map event_bytes sample_events)))] (replicate 4096 7) =
    Ret (concat (map (calls_of (Callbacks true true)) sample_events) ++ []).
Proof.
  apply (watcher_reports (Callbacks true true) sample_events (replicate 4096 7) [] []).
  - do 3 (apply Forall_cons; split; [unfold event_ok, IN_CREATE, IN_DELETE; cbn; lia|]). apply Forall_nil. exact I.
  - by_eval.
  - reflexivity.
  - reflexivity.
Defined.
