(* ===== verification/Tool.v ===== *)
(** * socket/tool.h, tool.cpp and time/now.c: locks, meters and times

    [Spinlock] as steps of any number of threads, [Counter] and [Recorder] as
    state machines that print, and the texts of times.  Times are values the
    caller gives. *)
From Stdlib Require Import ZArith Lia.
From stdpp Require Import base tactics numbers list gmap sets relations.
From S2P Require Import Prelude.
From S2P Require Import WeightCodec.

Open Scope Z_scope.

(** ** [Spinlock] *)
Module Spin.

(** A thread is outside, in the loop of the constructor, or between the
    constructor and the destructor. *)
Inductive pc := Outside | Spinning | Inside.
#[export] Instance pc_eq_dec : EqDecision pc.
Proof. solve_decision. Defined.

Record world := MkWorld { flag : bool; threads : gmap nat pc }.

(** [test_and_set] returns the old value, and the loop ends when that is false. *)
Definition test_and_set (w : world) : bool * world := (flag w, MkWorld true (threads w)).

Inductive step : world → world → Prop :=
| step_new w t : threads w !! t = Some Outside → step w (MkWorld (flag w) (<[t := Spinning]> (threads w)))
| step_spin w t w' : threads w !! t = Some Spinning → test_and_set w = (true, w') → step w w'
| step_enter w t w' : threads w !! t = Some Spinning → test_and_set w = (false, w') → step w (MkWorld (flag w') (<[t := Inside]> (threads w')))
| step_leave w t : threads w !! t = Some Inside → step w (MkWorld false (<[t := Outside]> (threads w))).

Definition start (ts : gset nat) : world := MkWorld false (gset_to_gmap Outside ts).

Definition inside (w : world) (t : nat) : Prop := threads w !! t = Some Inside.

(** The flag is set exactly while a thread is inside, and then there is one. *)
Definition lock_inv (w : world) : Prop :=
  (flag w = true → ∃ t, inside w t) ∧ (∀ t, inside w t → flag w = true) ∧ (∀ t u, inside w t → inside w u → t = u).

Lemma lookup_other (m : gmap nat pc) t u p q : <[t := p]> m !! u = Some q → q ≠ p → m !! u = Some q ∧ u ≠ t.
Proof. rewrite lookup_insert_Some. intros [[<- <-]|[? ?]] Hn; [done|by split]. Qed.

Lemma lock_step_inv w w' : step w w' → lock_inv w → lock_inv w'.
Proof.
  unfold lock_inv, inside. intros Hst (H1 & H2 & H3). destruct Hst as [w t Ht|w t w' Ht E|w t w' Ht E|w t Ht]; cbn [flag threads] in *.
  - split_and!.
    + intros Hf. destruct (H1 Hf) as [u Hu]. exists u. rewrite lookup_insert_ne; [done|congruence].
    + intros u [Hu _]%lookup_other; [|done]. eauto.
    + intros u v [Hu _]%lookup_other [Hv _]%lookup_other; [|done|done]. eauto.
  - unfold test_and_set in E. simplify_eq. cbn. split_and!; [|done|done]. intros _. auto.
  - unfold test_and_set in E. simplify_eq. cbn. assert (∀ u, threads w !! u ≠ Some Inside) as Hno by (intros u Hu; specialize (H2 u Hu); congruence).
    assert (∀ u, <[t := Inside]> (threads w) !! u = Some Inside → u = t) as Hone.
    { intros u. rewrite lookup_insert_Some. intros [[-> _]|[_ Hu]]; [done|]. by destruct (Hno u). }
    split_and!; [|done|].
    + intros _. exists t. apply lookup_insert_eq.
    + intros u v Hu%Hone Hv%Hone. congruence.
  - assert (∀ u, <[t := Outside]> (threads w) !! u ≠ Some Inside) as Hno.
    { intros u [Hu Hn]%lookup_other; [|done]. by specialize (H3 u t Hu Ht). }
    split_and!; [done|intros u Hu; by destruct (Hno u)|intros u v Hu; by destruct (Hno u)].
Qed.

Lemma start_lock_inv ts : lock_inv (start ts).
Proof.
  unfold lock_inv, inside, start. cbn. split_and!; [done|intros t [? ?]%lookup_gset_to_gmap_Some; done|intros t u [? ?]%lookup_gset_to_gmap_Some; done].
Qed.

(** The spin lock excludes: however the threads interleave, at most one is
    between constructor and destructor; and a thread that waits when no other is
    there enters at its next attempt. *)
Theorem spinlock_excludes ts w :
  rtc step (start ts) w →
  (∀ t u, inside w t → inside w u → t = u) ∧
  (∀ t, threads w !! t = Some Spinning → (∀ u, ¬ inside w u) → ∃ w', step w w' ∧ inside w' t).
Proof.
  intros Hr. assert (lock_inv w) as (H1 & H2 & H3).
  { revert Hr. generalize (start_lock_inv ts). generalize (start ts). intros w0 H0 Hr. induction Hr as [|x y z Hxy _ IH]; [done|].
    apply IH. by apply (lock_step_inv x). }
  split; [done|]. intros t Ht Hno. assert (flag w = false) as Hf.
  { destruct (flag w); [|done]. destruct (H1 eq_refl) as [u Hu]. by destruct (Hno u). }
  eexists. split; [eapply step_enter; [exact Ht|unfold test_and_set; by rewrite Hf]|]. apply lookup_insert_eq.
Qed.

Lemma spinlock_excludes_witness :
  let w := MkWorld true {[1%nat := Inside; 2%nat := Spinning]} in
  (∀ t u, inside w t → inside w u → t = u) ∧
  (∀ t, threads w !! t = Some Spinning → (∀ u, ¬ inside w u) → ∃ w', step w w' ∧ inside w' t).
Proof.
  apply (spinlock_excludes {[1%nat; 2%nat]}).
  eapply rtc_l; [apply (step_new _ 2%nat); reflexivity|]. eapply rtc_l; [apply (step_new _ 1%nat); reflexivity|].
  eapply rtc_l; [apply (step_enter _ 1%nat (MkWorld true {[1%nat := Spinning; 2%nat := Spinning]})); reflexivity|].
  exact (rtc_refl _ _).
Defined.
End Spin.

(** ** [Counter]

    Every thirty calls the frequency of the last thirty is printed; here the
    time they took. *)
Module Meter.
Record Counter := MkCounter { count_ : Z; ts_ : Z }.
Definition MAX : Z := 30.

Definition Counter_new (now : Z) : Counter := MkCounter 0 now.

Definition tick (now : Z) (c : Counter) : Counter * option (Z * Z) :=
  let n := wrap 64 (count_ c + 1) in
  if decide (n = MAX) then (MkCounter 0 now, Some (n, now - ts_ c)) else (MkCounter n (ts_ c), None).

Fixpoint ticks (nows : list Z) (c : Counter) : list (Z * Z) :=
  match nows with
  | [] => []
  | t :: ts => let '(c, o) := tick t c in match o with Some p => p :: ticks ts c | None => ticks ts c end
  end.

(** The counter reports thirty by thirty: of any number of calls it prints
    one line per full thirty, each for thirty calls. *)
Theorem counter_reports now nows :
  zlen (ticks nows (Counter_new now)) = zlen nows / MAX ∧ Forall (λ p, p.1 = MAX) (ticks nows (Counter_new now)).
Proof.
  assert (∀ nows k ts, 0 ≤ k < MAX → zlen (ticks nows (MkCounter k ts)) = (zlen nows + k) / MAX ∧ Forall (λ p, p.1 = MAX) (ticks nows (MkCounter k ts))) as H.
  { clear. induction nows as [|t nows IH]; intros k ts Hk; cbn [ticks length].
    - split; [|constructor]. symmetry. apply Z.div_small. lia.
    - unfold tick. cbn [count_ ts_]. unfold wrap. rewrite Z.mod_small by (unfold MAX in Hk; eval_pow; lia).
      unfold MAX in *. case_decide as Hm.
      + destruct (IH 0 t ltac:(lia)) as [IH1 IH2]. cbn [length]. split; [|by constructor].
        rewrite !Nat2Z.inj_succ, IH1, Z.add_0_r. replace (Z.succ (zlen nows) + k) with (zlen nows + 1 * 30) by lia.
        rewrite Z.div_add by lia. lia.
      + destruct (IH (k + 1) ts ltac:(lia)) as [IH1 IH2]. split; [|done]. rewrite IH1. f_equal. lia. }
  destruct (H nows 0 now) as [H1 H2]; [unfold MAX; lia|]. by rewrite Z.add_0_r in H1.
Qed.
End Meter.

(** ** [Recorder] *)
Module Record_.
Record Recorder := MkRecorder { tag_ : list Z; emit_ : bool }.

Definition Recorder_new (tag : list Z) : Recorder := MkRecorder tag false.

(** What is logged is the tag. *)
Definition Done (r : Recorder) : Recorder * list (list Z) :=
  if emit_ r then (r, []) else (MkRecorder (tag_ r) true, [tag_ r]).
Definition Cancel (r : Recorder) : Recorder := MkRecorder (tag_ r) true.

(** The move assignment swaps the tags and copies [emit_]; the move constructor
    assigns to an empty one. *)
Definition Recorder_assign (a b : Recorder) : Recorder * Recorder := (MkRecorder (tag_ b) (emit_ b), MkRecorder (tag_ a) (emit_ b)).

Definition Recorder_destroy (r : Recorder) : list (list Z) := (Done r).2.

Inductive rop := RDone | RCancel.
Fixpoint record_run (ops : list rop) (r : Recorder) : list (list Z) :=
  match ops with
  | [] => Recorder_destroy r
  | RDone :: ops => let '(r, l) := Done r in l ++ record_run ops r
  | RCancel :: ops => record_run ops (Cancel r)
  end.

(** A recorder logs once in its life, unless it is cancelled before. *)
Lemma recorder_once tag ops :
  record_run ops (Recorder_new tag) = match ops with RCancel :: _ => [] | _ => [tag] end.
Proof.
  assert (∀ ops t, record_run ops (MkRecorder t true) = []) as H.
  { intros os. induction os as [|[] os IH]; intros t; cbn; [done|apply IH|apply IH]. }
  destruct ops as [|[] ops]; cbn; [done|by rewrite H|apply H].
Qed.

(** One that was moved logs a second time, without a tag. *)
Lemma moved_recorder_logs_twice tag old :
  let '(a, b) := Recorder_assign (MkRecorder [] old) (Recorder_new tag) in
  Recorder_destroy b ++ Recorder_destroy a = [[]; tag].
Proof. done. Qed.
End Record_.

(** ** Texts of times *)
Record tm := MkTm { tm_year : Z; tm_mon : Z; tm_mday : Z; tm_hour : Z; tm_min : Z; tm_sec : Z }.

(** "%0*d" of a number that is not negative, and "%4d". *)
Definition pad (c : Z) (w : nat) (n : Z) : list Z := let s := fmt_d n in replicate (w - length s) c ++ s.
Definition zeros (w : nat) (n : Z) : list Z := pad 48 w n.

Definition date_text (t : tm) : list Z :=
  pad 32 4 (tm_year t + 1900) ++ [47] ++ zeros 2 (tm_mon t + 1) ++ [47] ++ zeros 2 (tm_mday t) ++ [45] ++
  zeros 2 (tm_hour t) ++ [58] ++ zeros 2 (tm_min t) ++ [58] ++ zeros 2 (tm_sec t) ++ [46].

(** [sun::time::format] of tool.cpp and [default_formatter] of now.c, into 64 bytes. *)
Definition format (t : tm) (usec : Z) (buf : list Z) : outcome (list Z) :=
  '(_, buf) ← sprintf buf 0 (date_text t ++ zeros 6 usec); Ret buf.
Definition default_formatter (t : tm) (ms : Z) (buf : list Z) : outcome (list Z) :=
  '(_, buf) ← sprintf buf 0 (date_text t ++ zeros 3 ms); Ret buf.
Definition time_format (t : tm) (usec : Z) (buf : list Z) : outcome (list Z) := default_formatter t (usec / 1000) buf.

(** [sun::time::seconds] in microseconds. *)
Definition seconds (sec usec : Z) : Z := sec * 1000000 + usec.

Definition tm_ok (t : tm) : Prop :=
  0 ≤ tm_year t < 8100 ∧ 0 ≤ tm_mon t < 12 ∧ 1 ≤ tm_mday t ≤ 31 ∧ 0 ≤ tm_hour t < 24 ∧ 0 ≤ tm_min t < 60 ∧ 0 ≤ tm_sec t ≤ 60.

Lemma pad_length c w n : 0 ≤ n < 10 ^ Z.of_nat w → (0 < w ≤ 20)%nat → length (pad c w n) = w.
Proof.
  intros Hn Hw. unfold pad, fmt_d. rewrite decide_False by lia. pose proof (dec_loop_length 20 w n Hn ltac:(lia)) as H. unfold fmt_u.
  rewrite length_app, length_replicate. lia.
Qed.

(** A time of day and date always fills the same columns, and its text fits
    the buffer: twenty characters, then six digits or three. *)
Theorem time_text_fits t usec buf :
  tm_ok t → 0 ≤ usec < 1000000 → length buf = 64%nat →
  length (date_text t ++ zeros 6 usec) = 26%nat ∧
  format t usec buf = Ret (date_text t ++ zeros 6 usec ++ [0] ++ drop 27 buf) ∧
  time_format t usec buf = Ret (date_text t ++ zeros 3 (usec / 1000) ++ [0] ++ drop 24 buf).
Proof.
  intros (H1 & H2 & H3 & H4 & H5 & H6) Hu Hb.
  assert (length (date_text t) = 20%nat) as Hd by (unfold date_text, zeros; rewrite !length_app, !pad_length by (cbn; lia); done).
  assert (length (zeros 6 usec) = 6%nat) as H66 by (apply pad_length; [cbn; lia|lia]).
  assert (length (zeros 3 (usec / 1000)) = 3%nat) as H33 by (apply pad_length; [cbn; mlia|lia]).
  assert (∀ s, (length s < 64)%nat → ('(_, b) ← sprintf buf 0 s; Ret b) = Ret (s ++ [0] ++ drop (length s + 1) buf)) as Hs.
  { intros s Hl. unfold sprintf, store_n. rewrite decide_True by (rewrite length_app; cbn [length]; lia). cbind. cbn [take Z.to_nat app].
    rewrite length_app. cbn [length]. rewrite <- app_assoc. done. }
  split; [by rewrite length_app, Hd, H66|]. unfold format, time_format, default_formatter.
  rewrite !Hs by (rewrite length_app; lia). rewrite !length_app, Hd, H66, H33, <- !app_assoc. done.
Qed.

Lemma time_text_fits_witness :
  let t := MkTm 120 7 25 9 5 0 in
  length (date_text t ++ zeros 6 42) = 26%nat ∧
  format t 42 (replicate 64 0) = Ret (date_text t ++ zeros 6 42 ++ [0] ++ drop 27 (replicate 64 0)) ∧
  time_format t 42 (replicate 64 0) = Ret (date_text t ++ zeros 3 (42 / 1000) ++ [0] ++ drop 24 (replicate 64 0)).
Proof. apply (time_text_fits (MkTm 120 7 25 9 5 0) 42 (replicate 64 0)); [unfold tm_ok; cbn; lia|lia|reflexivity]. Defined.
