(* ===== verification/Supervisor.v ===== *)
(** * The main program of socket/monitor/examples/forwarder.cpp and export/export.cpp

    The forwarder is run in two ways.  Its main program takes a lock on a file,
    so that it runs once, and makes a daemon that watches it over a pipe and
    starts it again when it is gone.  A Java program starts and stops it in a
    thread of its own (module [Jni]).

    The processes are the entries of a map, each with the place of the program
    it has reached; a step is what one process does up to its next wait, and
    what system calls answer is part of the step.  The lock is that of
    [FileLock], the two forks are those of [ProcUtil.Daemon_run], and the
    number of errors is that of [Forwarder.initialize]. *)
From Stdlib Require Import ZArith Lia.
From stdpp Require Import base tactics numbers list gmap sets.
From S2P Require Import Prelude.
From S2P Require Import Endpoint.
From S2P Require Import ProcUtil.
From S2P Require Import FileLock.
From S2P Require Import Forwarder.

Open Scope Z_scope.

Definition kConflict : Z := 6.

(** ** The processes *)

(** The variable [notifier]: nothing was stored in it, or the writing end of a
    pipe, by its number; [Fd None] is -1. *)
Inductive notifier := Indeterminate | Fd (k : option nat).

(** Whether a process is the one that took the lock, or a daemon that has come
    out of [Daemon::run] and goes on in [main]. *)
Inductive role := First | Fallen.

Inductive phase :=
| Starting                                  (** at the beginning of [main] *)
| Locked                                    (** has the lock, before [daemon.run()] *)
| Initializing (r : role) (n : notifier)    (** before [forwarder] is made *)
| Serving (r : role) (n : notifier)         (** in [forwarder.loop()] *)
| Watching (k w : option nat).              (** the daemon in [submain]: the reading end it waits at, the
                                                writing end it has *)

Record System := MkSystem {
  procs : gmap Z phase;
  holder : option Z;             (** who has the lock *)
  pipes : gmap nat (option Z);   (** what is in each pipe *)
  next : nat;                    (** pipes made so far *)
}.

#[export] Instance notifier_eq_dec : EqDecision notifier.
Proof. solve_decision. Defined.
#[export] Instance role_eq_dec : EqDecision role.
Proof. solve_decision. Defined.
#[export] Instance phase_eq_dec : EqDecision phase.
Proof. solve_decision. Defined.

(** The writing end a process has. *)
Definition writes (ph : phase) : option nat :=
  match ph with Initializing _ (Fd k) | Serving _ (Fd k) => k | Watching _ w => w | _ => None end.

Definition set_phase (p : Z) (ph : phase) (s : System) : System :=
  MkSystem (<[p := ph]> (procs s)) (holder s) (pipes s) (next s).

(** A process ends, by itself or by a signal: its descriptors are closed and
    its lock is released. *)
Definition exits (p : Z) (s : System) : System :=
  MkSystem (delete p (procs s)) (if decide (holder s = Some p) then None else holder s) (pipes s) (next s).

(** ** Steps *)

(** [fl.setType(F_WRLCK).lock()]; [o] is what [open] gives. *)
Definition take_lock (p : Z) (o : option Z) (s : System) : System :=
  let answer := match holder s with None => Granted | Some _ => Refused end in
  let '(r, _, _) := lock false o answer (setType F_WRLCK (FileLock_new RECORD)) (fresh_kernel ∅ 0) in
  if decide (r = -1) then exits p s
  else MkSystem (<[p := Locked]> (procs s)) (Some p) (pipes s) (next s).

Fixpoint onfork_fd (l : list daemon_act) : option Z :=
  match l with [] => None | DOnfork fd :: _ => Some fd | _ :: l => onfork_fd l end.
Fixpoint main_fd (l : list daemon_act) : option (Z * gset Z) :=
  match l with [] => None | DMain fd o :: _ => Some (fd, o) | _ :: l => main_fd l end.

(** A number is an end of the pipe [k] in a process that has it open. *)
Definition pipe_end (k : nat) (fd : Z) (o : gset Z) : option nat := if decide (fd ∈ o) then Some k else None.
Definition write_end (r : option (Z * Z)) : Z := match r with Some (_, w) => w | None => -1 end.

(** What [pipe2] can give. *)
Definition pipe_answer (r : option (Z * Z)) : Prop := match r with Some (a, b) => 0 ≤ a ∧ 0 ≤ b ∧ a ≠ b | None => True end.
#[export] Instance pipe_answer_dec r : Decision (pipe_answer r).
Proof. destruct r as [[]|]; cbn; apply _. Defined.

(** [daemon.run()]: [r] is what [pipe2] gives, [fork1] and [fork2] what the two
    forks return to those that call them.  Which ends of the pipe the first
    process and the daemon have open is what [Daemon_run] leaves open. *)
Definition run_daemon (p : Z) (r : option (Z * Z)) (fork1 fork2 : Z) (s : System) : System :=
  let '(_, acts, o) := Daemon_run r fork1 fork2 true ∅ in
  let n := match onfork_fd acts with Some fd => Fd (pipe_end (next s) fd o) | None => Indeterminate end in
  let s := MkSystem (<[p := Initializing First n]> (procs s)) (holder s) (<[next s := None]> (pipes s)) (S (next s)) in
  if decide (0 < fork1 ∧ 0 < fork2) then
    let '(_, acts, _) := Daemon_run r 0 0 true ∅ in
    match main_fd acts with
    | Some (fd, o) =>
        let k := Nat.pred (next s) in
        set_phase fork2 (Watching (pipe_end k fd o) (pipe_end k (write_end r) o)) s
    | None => s
    end
  else s.

(** [sun::Forwarder forwarder]: what becomes of the three end points. *)
Definition errors (u sg t : option Z) : Z := error_count (initialize u sg t (Forwarder_new ∅)).

Definition init_forwarder (p : Z) (r : role) (n : notifier) (errs : Z) (s : System) : outcome System :=
  if decide (errs ≠ 0) then
    match n with
    | Indeterminate => Undef
    | Fd None => Ret (exits p s)
    | Fd (Some k) =>
        let s := exits p s in
        Ret (MkSystem (procs s) (holder s) (<[k := Some kConflict]> (pipes s)) (next s))
    end
  else Ret (set_phase p (Serving r n) s).

(** [poll] has returned because the descriptor is ready, or with an error: the
    [continue] of the macro leaves the loop too. *)
Inductive poll_answer := Ready | Failed.

Definition has_writer (k : nat) (s : System) : Prop := map_Exists (λ _ ph, writes ph = Some k) (procs s).
Definition ready (k : nat) (s : System) : Prop := (∃ v, pipes s !! k = Some (Some v)) ∨ ¬ has_writer k s.
#[export] Instance has_writer_dec k s : Decision (has_writer k s).
Proof. apply _. Defined.
#[export] Instance ready_dec k s : Decision (ready k s).
Proof.
  unfold ready. destruct (pipes s !! k) as [[v|]|] eqn:E.
  - left. left. by exists v.
  - destruct (decide (has_writer k s)) as [H|H]; [right|left; by right]. intros [[v ?]|?]; done.
  - destruct (decide (has_writer k s)) as [H|H]; [right|left; by right]. intros [[v ?]|?]; done.
Defined.

(** [submain] after its wait; [exec] is whether [execl] succeeds, which closes
    the pipe.  When it fails, and when [submain] returns, [run] returns to
    [main], which does not look at the result. *)
Definition submain (d : Z) (k : option nat) (a : poll_answer) (exec : bool) (s : System) : System :=
  let again := set_phase d (if exec then Starting else Initializing Fallen Indeterminate) in
  match a, k with
  | Ready, Some k =>
      if decide (ready k s) then
        match pipes s !! k with
        | Some (Some v) =>
            let s := MkSystem (procs s) (holder s) (<[k := None]> (pipes s)) (next s) in
            if decide (v = kConflict) then set_phase d (Initializing Fallen Indeterminate) s else again s
        | _ => again s
        end
      else s
  | Ready, None => s
  | Failed, _ => again s
  end.

Inductive saction :=
| Invoke (p : Z)                                         (** the program is started *)
| Lock_ (p : Z) (o : option Z)
| Fork (p : Z) (r : option (Z * Z)) (fork1 fork2 : Z)
| Init (p : Z) (u sg t : option Z)
| Watch (d : Z) (a : poll_answer) (exec : bool)
| Kill (p : Z)                                           (** a signal ends the process *)
| Quit_ (p : Z).                                         (** the loop has been left *)

(** A step that its process is not about to make, or with an answer the system
    does not give, changes nothing. *)
Definition sstep (a : saction) (s : System) : outcome System :=
  match a with
  | Invoke p => match procs s !! p with None => Ret (set_phase p Starting s) | Some _ => Ret s end
  | Lock_ p o => match procs s !! p with Some Starting => Ret (take_lock p o s) | _ => Ret s end
  | Fork p r fork1 fork2 =>
      match procs s !! p, procs s !! fork2 with
      | Some Locked, None => if decide (pipe_answer r) then Ret (run_daemon p r fork1 fork2 s) else Ret s
      | _, _ => Ret s
      end
  | Init p u sg t =>
      match procs s !! p with Some (Initializing r n) => init_forwarder p r n (errors u sg t) s | _ => Ret s end
  | Watch d a exec => match procs s !! d with Some (Watching k _) => Ret (submain d k a exec s) | _ => Ret s end
  | Kill p => Ret (exits p s)
  | Quit_ p =>
      match procs s !! p with
      | Some (Serving _ Indeterminate) => Undef
      | Some (Serving _ (Fd _)) => Ret (exits p s)
      | _ => Ret s
      end
  end.

Fixpoint srun (acts : list saction) (s : System) : outcome System :=
  match acts with [] => Ret s | a :: acts => s ← sstep a s; srun acts s end.

Definition start : System := MkSystem ∅ None ∅ 0.

(** ** What is kept *)
Definition main_phase (ph : phase) : bool :=
  match ph with Locked | Initializing First _ | Serving First _ => true | _ => false end.

Record sinv (s : System) : Prop := {
  main_holds : ∀ p ph, procs s !! p = Some ph → main_phase ph → holder s = Some p;
  holder_main : ∀ p, holder s = Some p → ∃ ph, procs s !! p = Some ph ∧ main_phase ph;
  writer_main : ∀ p ph k, procs s !! p = Some ph → writes ph = Some k → main_phase ph ∧ (k < next s)%nat ∧ pipes s !! k = Some None;
}.

Lemma exits_inv p s : sinv s → sinv (exits p s).
Proof.
  intros [H1 H2 H3]. split; cbn.
  - intros q ph [Hq E]%lookup_delete_Some Hm. pose proof (H1 q ph E Hm) as Hh. rewrite decide_False by congruence. done.
  - intros q Hq. case_decide as Hp; [done|]. destruct (H2 q Hq) as (ph & E & Hm). exists ph. split; [|done].
    rewrite lookup_delete_ne; [done|congruence].
  - intros q ph k [Hq E]%lookup_delete_Some. by apply (H3 q ph k).
Qed.

(** A process that is not the one with the lock moves to a place where it has
    no pipe. *)
Lemma outside_inv p ph s :
  sinv s → (∀ ph', procs s !! p = Some ph' → main_phase ph' = false) → main_phase ph = false → writes ph = None → sinv (set_phase p ph s).
Proof.
  intros [H1 H2 H3] Hp Hm Hw. split; cbn.
  - intros q ph' [[<- <-]|[Hq E]]%lookup_insert_Some Hx; [by rewrite Hm in Hx|]. by eapply H1.
  - intros q Hq. destruct (H2 q Hq) as (ph' & E & Hm'). exists ph'. split; [|done]. rewrite lookup_insert_ne; [done|].
    intros <-. by rewrite (Hp ph' E) in Hm'.
  - intros q ph' k [[<- <-]|[Hq E]]%lookup_insert_Some ?; [congruence|]. by apply (H3 q ph' k).
Qed.

(** The one with the lock moves on. *)
Lemma inside_inv p ph ph' s :
  sinv s → procs s !! p = Some ph → main_phase ph → main_phase ph' →
  (∀ k, writes ph' = Some k → (k < next s)%nat ∧ pipes s !! k = Some None) → sinv (set_phase p ph' s).
Proof.
  intros [H1 H2 H3] Hp Hm Hm' Hw. split; cbn.
  - intros q ph'' [[<- <-]|[Hq E]]%lookup_insert_Some ?; [by eapply H1|]. by eapply H1.
  - intros q Hq. pose proof (H1 p ph Hp Hm). simplify_eq. exists ph'. by rewrite lookup_insert_eq.
  - intros q ph'' k [[<- <-]|[Hq E]]%lookup_insert_Some ?; [split; [done|by apply Hw]|]. by apply (H3 q ph'' k).
Qed.

(** Pipes change, those in use excepted. *)
Lemma pipes_inv m s n :
  sinv s → (next s ≤ n)%nat → (∀ p ph k, procs s !! p = Some ph → writes ph = Some k → m !! k = pipes s !! k) →
  sinv (MkSystem (procs s) (holder s) m n).
Proof.
  intros [H1 H2 H3] Hn Hm. split; cbn; [done|done|]. intros p ph k E Hw. destruct (H3 p ph k E Hw) as (? & ? & ?).
  split; [done|]. split; [lia|]. by rewrite (Hm p ph k E Hw).
Qed.

Lemma main_unique s p q ph ph' :
  sinv s → procs s !! p = Some ph → main_phase ph → procs s !! q = Some ph' → main_phase ph' → p = q.
Proof. intros [H1 _ _] Hp Hm Hq Hm'. pose proof (H1 p ph Hp Hm). pose proof (H1 q ph' Hq Hm'). congruence. Qed.

Lemma lock_free o l k : fd_ l = -1 → type_ l = RECORD → l_type (fl_ l) ≠ F_UNLCK →
  (lock false o Refused l k).1.1 = -1.
Proof.
  intros Hf Ht Hu. unfold lock, TryOpen. rewrite decide_True by done. destruct o as [fd|]; [|by rewrite decide_True].
  cbn [fd_]. destruct (decide (fd = -1)); [done|]. unfold Lock. cbn [type_ fd_ fl_]. rewrite Ht. unfold fcntl. case_decide; [done|].
  destruct (range (fl_ l) (open_file fd k)); [|done]. rewrite decide_False by done. by case_decide.
Qed.

Lemma take_lock_inv p o s : sinv s → procs s !! p = Some Starting → sinv (take_lock p o s).
Proof.
  intros Hs Hp. unfold take_lock. destruct (holder s) as [h|] eqn:Eh.
  - pose proof (lock_free o (setType F_WRLCK (FileLock_new RECORD)) (fresh_kernel ∅ 0) eq_refl eq_refl ltac:(done)) as Hl.
    destruct (lock _ _ _ _ _) as [[r l] k]. cbn in Hl. rewrite decide_True by done. by apply exits_inv.
  - destruct (lock _ _ _ _ _) as [[r l] k]. case_decide; [by apply exits_inv|]. destruct Hs as [H1 H2 H3]. split; cbn.
    + intros q ph [[<- <-]|[Hq E]]%lookup_insert_Some Hm; [done|]. pose proof (H1 q ph E Hm). congruence.
    + intros q [= <-]. exists Locked. by rewrite lookup_insert_eq.
    + intros q ph j [[<- <-]|[Hq E]]%lookup_insert_Some Hw; [done|by apply (H3 q ph j)].
Qed.

(** A daemon has no writing end: [Daemon_run] has closed it. *)
Lemma daemon_no_writer r fork1 fork2 k fd o :
  pipe_answer r → main_fd (Daemon_run r fork1 fork2 true ∅).1.2 = Some (fd, o) → pipe_end k (write_end r) o = None.
Proof.
  intros Hr. unfold Daemon_run. destruct r as [[a b]|]; cbn [Pipe_new pipe_answer write_end] in *.
  - case_decide; [done|]. case_decide; [done|]. case_decide; [done|]. unfold closeWriteEnd. cbn. rewrite close_end_open by lia.
    intros [= <- <-]. unfold pipe_end. rewrite decide_False by set_solver. done.
  - case_decide; [done|]. case_decide; [done|]. case_decide; [done|]. unfold closeWriteEnd. cbn. intros [= <- <-]. unfold pipe_end.
    by rewrite decide_False by set_solver.
Qed.

Lemma pipe_end_lt k fd o j : pipe_end k fd o = Some j → j = k.
Proof. unfold pipe_end. case_decide; naive_solver. Qed.

Lemma run_daemon_inv p r f1 f2 s :
  sinv s → pipe_answer r → procs s !! p = Some Locked → procs s !! f2 = None → sinv (run_daemon p r f1 f2 s).
Proof.
  intros Hs Hr Hp Hf. unfold run_daemon. destruct (Daemon_run r f1 f2 true ∅) as [[? acts] o].
  set (n := match onfork_fd acts with Some fd => _ | None => _ end).
  assert (sinv (set_phase p (Initializing First n) (MkSystem (procs s) (holder s) (<[next s := None]> (pipes s)) (S (next s))))) as H1.
  { eapply inside_inv; [apply pipes_inv; [done|lia|]|exact Hp|done|done|].
    - intros q ph k E Hw. destruct (writer_main s Hs q ph k E Hw) as (_ & ? & _). rewrite lookup_insert_ne; [done|lia].
    - intros k Hk. cbn in *. assert (k = next s) as ->; [|split; [lia|by rewrite lookup_insert_eq]]. subst n.
      destruct (onfork_fd acts); [by eapply pipe_end_lt|done]. }
  case_decide; [|exact H1]. pose proof (daemon_no_writer r 0 0 (next s)) as Hw.
  destruct (Daemon_run r 0 0 true ∅) as [[? acts'] ?]. destruct (main_fd acts') as [[fd o']|] eqn:Em; [|exact H1].
  apply outside_inv; [exact H1| |done|]. { cbn. intros ph'. rewrite lookup_insert_ne by congruence. by rewrite Hf. }
  cbn. by apply (Hw fd).
Qed.

Lemma init_inv p r n errs s s' :
  sinv s → procs s !! p = Some (Initializing r n) → init_forwarder p r n errs s = Ret s' → sinv s'.
Proof.
  intros Hs Hp. unfold init_forwarder. case_decide.
  - destruct n as [|[k|]]; [done| |intros [= <-]; by apply exits_inv]. intros [= <-].
    apply (pipes_inv _ (exits p s)); [by apply exits_inv|done|]. cbn. intros q ph j [Hq E]%lookup_delete_Some Hw.
    rewrite lookup_insert_ne; [done|]. intros <-. apply Hq.
    pose proof (writer_main s Hs p _ k Hp eq_refl) as (? & _). pose proof (writer_main s Hs q ph k E Hw) as (? & _).
    by eapply (main_unique s p q).
  - intros [= <-]. destruct r.
    + eapply inside_inv; [done|exact Hp|done|done|]. intros k Hk. by apply (writer_main s Hs p (Initializing First n) k).
    + apply outside_inv; [done| |done|]. { intros ph' E. by simplify_eq. }
      destruct n as [|[k|]]; [done| |done]. destruct (writer_main s Hs p _ k Hp eq_refl) as [? _]. done.
Qed.

Lemma submain_inv d k w a exec s : sinv s → procs s !! d = Some (Watching k w) → sinv (submain d k a exec s).
Proof.
  intros Hs Hd.
  assert (∀ e s', sinv s' → procs s' = procs s → sinv (set_phase d (if e : bool then Starting else Initializing Fallen Indeterminate) s')) as Ha.
  { intros e s' Hs' E. apply outside_inv; [done| |by destruct e|by destruct e]. intros ph'. rewrite E, Hd. by intros [= <-]. }
  unfold submain. destruct a, k as [k|]; [|done|by apply Ha|by apply Ha]. case_decide; [|done].
  destruct (pipes s !! k) as [[v|]|] eqn:E; [|by apply Ha|by apply Ha].
  assert (sinv (MkSystem (procs s) (holder s) (<[k := None]> (pipes s)) (next s))) as Hp.
  { apply pipes_inv; [done|done|]. intros p ph j Hj Hw. rewrite lookup_insert_ne; [done|]. intros <-.
    destruct (writer_main s Hs p ph k Hj Hw) as (_ & _ & ?). congruence. }
  case_decide; [by apply (Ha false)|by apply Ha].
Qed.

Lemma sstep_inv a s s' : sinv s → sstep a s = Ret s' → sinv s'.
Proof.
  intros Hs. destruct a as [p|p o|p r f1 f2|p u sg t|d a e|p|p]; cbn.
  - destruct (procs s !! p) eqn:E; intros [= <-]; [done|]. apply outside_inv; try done. by rewrite E.
  - destruct (procs s !! p) as [[]|] eqn:E; intros [= <-]; try done. by apply take_lock_inv.
  - destruct (procs s !! p) as [[]|] eqn:E; [| |..]; destruct (procs s !! f2) eqn:E2; try case_decide; intros [= <-]; try done. by apply run_daemon_inv.
  - destruct (procs s !! p) as [[]|] eqn:E; try (intros [= <-]; done). by apply init_inv.
  - destruct (procs s !! d) as [[]|] eqn:E; intros [= <-]; try done. by eapply submain_inv.
  - intros [= <-]. by apply exits_inv.
  - destruct (procs s !! p) as [[| |? ?|? []|]|] eqn:E; intros [= <-]; try done. by apply exits_inv.
Qed.

Lemma start_sinv : sinv start.
Proof. split; cbn; intros *; rewrite ?lookup_empty; done. Qed.

Lemma srun_inv acts s s' : sinv s → srun acts s = Ret s' → sinv s'.
Proof.
  revert s. induction acts as [|a acts IH]; intros s Hs; cbn; [by intros [= <-]|].
  destruct (sstep a s) as [s1| |] eqn:E; cbind; [|done|done]. apply IH. by eapply sstep_inv.
Qed.

(** ** One forwarder at a time *)

(** No end point fails and [execl] succeeds. *)
Definition clean (a : saction) : Prop :=
  match a with Init _ u sg t => errors u sg t = 0 | Watch _ _ exec => exec = true | _ => True end.

Definition no_fallen (ph : phase) : Prop :=
  match ph with Initializing Fallen _ | Serving Fallen _ => False | _ => True end.

Definition nothing_said (s : System) : Prop :=
  (∀ p ph, procs s !! p = Some ph → no_fallen ph) ∧ ∀ k v, pipes s !! k = Some v → v = None.

Lemma exits_said p s : nothing_said s → nothing_said (exits p s).
Proof. intros [H1 H2]. split; [|done]. cbn. intros q ph [_ E]%lookup_delete_Some. by eapply H1. Qed.

Lemma set_phase_said p ph s : nothing_said s → no_fallen ph → nothing_said (set_phase p ph s).
Proof. intros [H1 H2] Hp. split; [|done]. cbn. intros q ph' [[_ <-]|[_ E]]%lookup_insert_Some; [done|by eapply H1]. Qed.

Lemma run_daemon_said p r f1 f2 s : nothing_said s → nothing_said (run_daemon p r f1 f2 s).
Proof.
  intros [H1 H2]. unfold run_daemon. destruct (Daemon_run r f1 f2 true ∅) as [[? acts] ?].
  match goal with |- context [<[p := Initializing First ?n]> _] => assert (nothing_said (set_phase p (Initializing First n) (MkSystem (procs s) (holder s) (<[next s := None]> (pipes s)) (S (next s))))) as H end.
  { apply set_phase_said; [|done]. split; [done|]. cbn. intros k v [[_ <-]|[_ E]]%lookup_insert_Some; [done|by eapply H2]. }
  case_decide; [|exact H]. destruct (Daemon_run r 0 0 true ∅) as [[? acts'] ?]. destruct (main_fd acts') as [[]|]; [|exact H].
  by apply set_phase_said.
Qed.

Lemma sstep_said a s s' : clean a → nothing_said s → sstep a s = Ret s' → nothing_said s'.
Proof.
  intros Hc Hs. destruct a as [p|p o|p r f1 f2|p u sg t|d a e|p|p]; cbn in *.
  - destruct (procs s !! p) eqn:E; intros [= <-]; [done|]. by apply set_phase_said.
  - destruct (procs s !! p) as [[]|] eqn:E; intros [= <-]; try done. unfold take_lock.
    destruct (lock _ _ _ _ _) as [[r l] k]. case_decide; [by apply exits_said|]. by apply (set_phase_said p Locked s).
  - destruct (procs s !! p) as [[]|] eqn:E; [| |..]; destruct (procs s !! f2) eqn:E2; try case_decide; intros [= <-]; try done. by apply run_daemon_said.
  - destruct (procs s !! p) as [[]|] eqn:E; try (intros [= <-]; done). unfold init_forwarder. rewrite decide_False by lia.
    intros [= <-]. apply set_phase_said; [done|]. by apply (proj1 Hs p _ E).
  - destruct (procs s !! d) as [[]|] eqn:E; intros [= <-]; try done. subst e. unfold submain.
    destruct a, k as [k|]; [|done|by apply set_phase_said|by apply set_phase_said]. case_decide; [|done].
    destruct (pipes s !! k) as [[v|]|] eqn:Ek; [by apply (proj2 Hs) in Ek|by apply set_phase_said|by apply set_phase_said].
  - intros [= <-]. by apply exits_said.
  - destruct (procs s !! p) as [[| |? ?|? []|]|] eqn:E; intros [= <-]; try done. by apply exits_said.
Qed.

Lemma srun_said acts s s' : Forall clean acts → nothing_said s → srun acts s = Ret s' → nothing_said s'.
Proof.
  revert s. induction acts as [|a acts IH]; intros s Hc Hs; cbn; [by intros [= <-]|]. inversion_clear Hc as [|? ? Ha Hc'].
  destruct (sstep a s) as [s1| |] eqn:E; cbind; [|done|done]. apply IH; [done|]. by eapply sstep_said.
Qed.

(** C19: however often the program is started and whatever becomes of its
    processes, the lock is held exactly while a process is past it, and by that
    process, so that there is at most one; as long as no end point fails and
    [execl] succeeds, at most one process serves. *)
Theorem one_master acts s :
  srun acts start = Ret s →
  (∀ p, holder s = Some p ↔ ∃ ph, procs s !! p = Some ph ∧ main_phase ph) ∧
  (∀ p q ph ph', procs s !! p = Some ph → procs s !! q = Some ph' → main_phase ph → main_phase ph' → p = q) ∧
  (Forall clean acts → ∀ p q r r' n n', procs s !! p = Some (Serving r n) → procs s !! q = Some (Serving r' n') → p = q).
Proof.
  intros E. pose proof (srun_inv acts start s start_sinv E) as Hs. split_and!.
  - intros p. split; [apply (holder_main s Hs)|]. intros (ph & Hp & Hm). by eapply main_holds.
  - intros p q ph ph' Hp Hq Hm Hm'. by eapply main_unique.
  - intros Hc p q r r' n n' Hp Hq.
    assert (nothing_said s) as [Hn _]. { eapply srun_said; [done| |exact E]. split; intros *; cbn; by rewrite lookup_empty. }
    pose proof (Hn p _ Hp). pose proof (Hn q _ Hq). destruct r, r'; try done. by eapply main_unique.
Qed.

(** A first process 1 with its daemon 3. *)
Definition sample_begin : list saction :=
  [Invoke 1; Lock_ 1 (Some 3); Fork 1 (Some (4, 5)) 2 3].
Definition sample_serving : list saction := sample_begin ++ [Init 1 (Some 6) (Some 7) (Some 8)].

Lemma one_master_witness :
  ∃ s, srun (sample_serving ++ [Invoke 9; Lock_ 9 (Some 3)]) start = Ret s ∧ holder s = Some 1 ∧ procs s !! 9 = None ∧
  ∀ p q r r' n n', procs s !! p = Some (Serving r n) → procs s !! q = Some (Serving r' n') → p = q.
Proof.
  destruct (srun (sample_serving ++ [Invoke 9; Lock_ 9 (Some 3)]) start) as [s| |] eqn:E; [|by vm_compute in E|by vm_compute in E].
  exists s. split; [done|]. assert (holder s = Some 1 ∧ procs s !! 9 = None) as [H1 H2].
  { vm_compute in E. injection E as <-. by vm_compute. }
  split; [done|]. split; [done|]. apply (one_master _ s E). repeat constructor.
Defined.

(** ** It is started again *)

Lemma has_writer_main s k : sinv s → has_writer k s → ∃ p ph, procs s !! p = Some ph ∧ main_phase ph ∧ writes ph = Some k.
Proof. intros Hs (p & ph & E & Hw). exists p, ph. destruct (writer_main s Hs p ph k E Hw) as [? _]. done. Qed.

Lemma take_lock_free p s : holder s = None → take_lock p (Some 3) s = MkSystem (<[p := Locked]> (procs s)) (Some p) (pipes s) (next s).
Proof. intros H. unfold take_lock. by rewrite H. Qed.

Lemma run_daemon_ok p c d s :
  0 < c → 0 < d →
  run_daemon p (Some (4, 5)) c d s =
    MkSystem (<[d := Watching (Some (next s)) None]> (<[p := Initializing First (Fd (Some (next s)))]> (procs s))) (holder s)
      (<[next s := None]> (pipes s)) (S (next s)).
Proof.
  intros Hc Hd. unfold run_daemon, Daemon_run. cbn [Pipe_new]. rewrite (decide_False (P := c = -1)), (decide_True (P := c ≠ 0)) by lia.
  cbn -[decide]. rewrite (decide_True (P := 0 < c ∧ 0 < d)) by lia. done.
Qed.

Lemma errors_none u sg t : errors (Some u) (Some sg) (Some t) = 0.
Proof. done. Qed.

(** C20: when the process that serves is killed, the daemon that watches it can
    go on: no process has the writing end of its pipe any more, the daemon's own
    having been closed by [Daemon::run], so that it sees the end, becomes the
    program again, takes the lock, makes another daemon
    and serves, with that daemon watching. *)
Theorem forwarder_revived acts s p d k w c d' :
  srun acts start = Ret s → procs s !! p = Some (Serving First (Fd (Some k))) → procs s !! d = Some (Watching (Some k) w) →
  procs s !! d' = None → 0 < c → 0 < d' →
  ∃ s', srun [Kill p; Watch d Ready true; Lock_ d (Some 3); Fork d (Some (4, 5)) c d'; Init d (Some 6) (Some 7) (Some 8)] s = Ret s' ∧
    procs s' !! d = Some (Serving First (Fd (Some (next s)))) ∧ procs s' !! d' = Some (Watching (Some (next s)) None) ∧
    procs s' !! p = None ∧ holder s' = Some d.
Proof.
  intros E Hp Hd Hd' Hc Hd0. pose proof (srun_inv acts start s start_sinv E) as Hs.
  destruct (writer_main s Hs p _ k Hp eq_refl) as (_ & _ & Hk). pose proof (main_holds s Hs p _ Hp I) as Hh.
  assert (p ≠ d) as Hpd by (intros ->; congruence). assert (d ≠ d') as Hdd by (intros ->; congruence).
  assert (p ≠ d') as Hpd' by (intros ->; congruence).
  cbn [srun sstep]. cbind. set (s1 := exits p s).
  assert (procs s1 !! d = Some (Watching (Some k) w)) as Hd1 by (cbn; by rewrite lookup_delete_ne).
  rewrite Hd1. cbind. unfold submain. rewrite decide_True.
  2: { right. intros Hw. destruct (has_writer_main s1 k (exits_inv p s Hs) Hw) as (q & ph & Hq & Hm & _).
       pose proof (main_holds s1 (exits_inv p s Hs) q ph Hq Hm) as Hx. cbn in Hx. by rewrite decide_True in Hx. }
  assert (pipes s1 !! k = Some None) as -> by exact Hk. cbn [procs set_phase]. rewrite lookup_insert_eq. cbind.
  rewrite take_lock_free by (cbn; by rewrite decide_True). cbn [procs set_phase]. rewrite lookup_insert_eq.
  rewrite (lookup_insert_ne _ d d') by done. rewrite (lookup_insert_ne _ d d') by done.
  assert (procs s1 !! d' = None) as -> by (cbn; by rewrite lookup_delete_ne).
  rewrite (decide_True (P := pipe_answer (Some (4, 5)))) by (cbn; lia). cbind.
  rewrite run_daemon_ok by done. cbn [procs holder pipes next set_phase]. rewrite (lookup_insert_ne _ d' d), lookup_insert_eq by done.
  unfold init_forwarder. rewrite errors_none. cbn [decide]. eexists. split; [reflexivity|]. cbn. split_and!.
  - by rewrite lookup_insert_eq.
  - by rewrite lookup_insert_ne, lookup_insert_eq.
  - by rewrite !lookup_insert_ne, lookup_delete_eq.
  - done.
Qed.

Lemma forwarder_revived_witness :
  ∃ s s', srun sample_serving start = Ret s ∧
    srun [Kill 1; Watch 3 Ready true; Lock_ 3 (Some 3); Fork 3 (Some (4, 5)) 10 11; Init 3 (Some 6) (Some 7) (Some 8)] s = Ret s' ∧
    procs s' !! 3 = Some (Serving First (Fd (Some 1%nat))) ∧ procs s' !! 11 = Some (Watching (Some 1%nat) None).
Proof.
  destruct (srun sample_serving start) as [s| |] eqn:E; [|by vm_compute in E|by vm_compute in E].
  assert (procs s !! 1 = Some (Serving First (Fd (Some 0%nat))) ∧ procs s !! 3 = Some (Watching (Some 0%nat) None) ∧ procs s !! 11 = None ∧ next s = 1%nat) as (H1 & H2 & H3 & H4).
  { vm_compute in E. injection E as <-. by vm_compute. }
  destruct (forwarder_revived _ s 1 3 0 None 10 11 E H1 H2 H3 ltac:(lia) ltac:(lia)) as (s' & E' & Ha & Hb & _).
  exists s, s'. by rewrite <- H4.
Defined.

(** The daemon that is told of a conflict does not quit: it goes on in [main]
    and may serve without the lock, beside another one. *)
Example conflict_daemon_serves :
  (λ s, (procs s !! 3, procs s !! 9, holder s)) <$>
  srun (sample_begin ++ [Init 1 None (Some 7) (Some 8); Watch 3 Ready true; Init 3 (Some 6) (Some 7) (Some 8);
    Invoke 9; Lock_ 9 (Some 3); Fork 9 (Some (4, 5)) 10 11; Init 9 (Some 6) (Some 7) (Some 8)]) start
  = Ret (Some (Serving Fallen Indeterminate), Some (Serving First (Fd (Some 1%nat))), Some 9).
Proof. vm_compute. reflexivity. Qed.

(** A signal during the daemon's wait counts as the end of the first process:
    the daemon starts the program, which finds the lock taken and ends, and
    nobody watches any more. *)
Example interrupted_daemon_gone :
  (λ s, map_to_list (procs s)) <$> srun (sample_serving ++ [Watch 3 Failed true; Lock_ 3 (Some 3)]) start
  = Ret [(1, Serving First (Fd (Some 0%nat)))].
Proof. vm_compute. reflexivity. Qed.

(** When no daemon could be made, an error is told to an indeterminate
    descriptor. *)
Lemma unforked_undefined p r f2 s u sg t :
  pipe_answer r → procs s !! p = Some Locked → procs s !! f2 = None → p ≠ f2 → errors u sg t ≠ 0 → srun [Fork p r (-1) f2; Init p u sg t] s = Undef.
Proof.
  intros Hr Hp Hf Hn He. cbn [srun sstep]. rewrite Hp, Hf, decide_True by done. cbind. unfold run_daemon, Daemon_run.
  destruct (Pipe_new r ∅) as [pi o]. rewrite (decide_True (P := -1 = -1)), (decide_False (P := 0 < -1 ∧ _)) by lia.
  cbn [onfork_fd procs]. rewrite lookup_insert_eq. unfold init_forwarder. by rewrite decide_True.
Qed.
