(* ===== verification/Export.v ===== *)
(** * socket/monitor/export/export.cpp: the forwarder in a Java program

    The library has one context with the forwarder and the thread its loop
    runs in.  The Java methods [start] and [stop] and the hooks of the library
    are operations on it, one after the other; what the calls of the virtual
    machine answer is part of the operation.  Assigning to a thread that can be
    joined, and destroying one, ends the program ([std::terminate]), which is
    [Undef] here. *)
From Stdlib Require Import ZArith Lia.
From stdpp Require Import base tactics numbers list gmap sets.
From S2P Require Import Prelude.
From S2P Require Import Forwarder.
From S2P Require Import Supervisor.

Open Scope Z_scope.

Definition EXPORT_SUCCESS : Z := 0.
Definition EXPORT_FAILURE : Z := 1.
Definition FORWARDER_DEFAULTPORT : Z := 23402.
Definition JNIVRESION : Z := 0x00010006.
Definition JNI_ERR : Z := -1.

(** [std::thread]: not a thread, one whose function runs, and one whose function
    has returned and which was not joined. *)
Inductive thread := NoThread | Running | Ended.
#[export] Instance thread_eq_dec : EqDecision thread.
Proof. solve_decision. Defined.
Definition joinable (t : thread) : bool := bool_decide (t ≠ NoThread).

(** [forwarder] is the port of the object, if there is one. *)
Record JniContext := MkContext { service : thread; forwarder : option Z; forwarder_port : Z; initialized : bool }.

Definition ctx : JniContext := MkContext NoThread None FORWARDER_DEFAULTPORT false.

(** The object given to [start]: null, one without the field, or the field's
    value. *)
Inductive jobject := Null | NoField | Field (v : Z).

(** [JniHelper::ClearException]: whether there was an exception, and whether
    there is one afterwards. *)
Definition ClearException (pending : bool) : bool * bool := if pending then (true, false) else (false, false).

(** [NativeConfig::load] *)
Definition load (o : jobject) (port : Z) : Z :=
  match o with
  | Null => port
  | NoField | Field _ =>
      let '(failed, _) := ClearException (match o with NoField => true | _ => false end) in
      match failed, o with false, Field v => v | _, _ => port end
  end.

(** [ctx.service = std::thread(...)] *)
Definition assign_thread (c : JniContext) : outcome JniContext :=
  if joinable (service c) then Undef else Ret (MkContext Running (forwarder c) (forwarder_port c) (initialized c)).

(** [jni::start]; [u], [sg] and [t] are the end points of [initialize]. *)
Definition start (o : jobject) (u sg t : option Z) (c : JniContext) : outcome (Z * JniContext) :=
  if initialized c then Ret (EXPORT_SUCCESS, c)
  else
    let port := load o (forwarder_port c) in
    let c := MkContext (service c) (Some port) port (initialized c) in
    if decide (errors u sg t ≠ 0) then Ret (EXPORT_FAILURE, c)
    else
      c ← assign_thread c;
      Ret (EXPORT_SUCCESS, MkContext (service c) (forwarder c) (forwarder_port c) true).

(** [jni::stop]: the loop is told to quit and the thread joined, which waits for
    its end. *)
Definition stop (c : JniContext) : Z * JniContext :=
  if initialized c && joinable (service c) then
    (EXPORT_SUCCESS, MkContext NoThread (forwarder c) (forwarder_port c) (initialized c))
  else (EXPORT_SUCCESS, c).

(** The destructor of [JniContext], with that of its thread. *)
Definition JniContext_destroy (c : JniContext) : outcome unit :=
  let '(_, c) := stop c in if joinable (service c) then Undef else Ret ().

(** [JNI_OnLoad]: the environment, the class by its reference, and whether the
    methods could be registered.  With the result, the references that are
    deleted. *)
Definition JNI_OnLoad (env : bool) (clz : option Z) (registered : bool) : Z * list Z :=
  if env then
    match clz with
    | None => (JNI_ERR, [])
    | Some r => ((if registered then JNIVRESION else JNI_ERR), [r])
    end
  else (JNI_ERR, []).

Definition JNI_OnUnload (c : JniContext) : JniContext := (stop c).2.

(** ** Runs *)
Inductive jop :=
| JStart (o : jobject) (u sg t : option Z)
| JStop
| JUnload
| JEnds.            (** the loop returns by itself, after an error of its wait *)

Definition jstep (o : jop) (c : JniContext) : outcome (option Z * JniContext) :=
  match o with
  | JStart o u sg t => '(r, c) ← start o u sg t c; Ret (Some r, c)
  | JStop => let '(r, c) := stop c in Ret (Some r, c)
  | JUnload => Ret (None, JNI_OnUnload c)
  | JEnds =>
      Ret (None, if decide (service c = Running) then MkContext Ended (forwarder c) (forwarder_port c) (initialized c) else c)
  end.

Fixpoint jrun (os : list jop) (c : JniContext) : outcome (list (option Z) * JniContext) :=
  match os with
  | [] => Ret ([], c)
  | o :: os => '(r, c) ← jstep o c; '(rs, c) ← jrun os c; Ret (r :: rs, c)
  end.

(** ** The service as its user sees it *)
Inductive service_state := NeverStarted (port : Z) | On (port : Z) (serving : bool) | Done.

Definition spec_step (o : jop) (a : service_state) : option Z * service_state :=
  match o, a with
  | JStart o u sg t, NeverStarted port =>
      if decide (errors u sg t = 0) then (Some EXPORT_SUCCESS, On (load o port) true) else (Some EXPORT_FAILURE, NeverStarted (load o port))
  | JStart _ _ _ _, a => (Some EXPORT_SUCCESS, a)
  | JStop, On _ _ => (Some EXPORT_SUCCESS, Done)
  | JStop, a => (Some EXPORT_SUCCESS, a)
  | JUnload, On _ _ => (None, Done)
  | JEnds, On port _ => (None, On port false)
  | _, a => (None, a)
  end.

Fixpoint spec_run (os : list jop) (a : service_state) : list (option Z) * service_state :=
  match os with
  | [] => ([], a)
  | o :: os => let '(r, a) := spec_step o a in let '(rs, a) := spec_run os a in (r :: rs, a)
  end.

Definition jsim (c : JniContext) (a : service_state) : Prop :=
  match a with
  | NeverStarted port => service c = NoThread ∧ initialized c = false ∧ forwarder_port c = port
  | On port serving => service c = (if serving then Running else Ended) ∧ initialized c = true ∧ forwarder c = Some port
  | Done => service c = NoThread ∧ initialized c = true
  end.

Lemma stop_sim c a : jsim c a → jsim (stop c).2 (match a with On _ _ => Done | _ => a end) ∧ (stop c).1 = EXPORT_SUCCESS.
Proof.
  destruct c as [t f p i]. unfold stop. destruct a as [q|q []|]; cbn; intros H; destruct_and!; simplify_eq; cbn; done.
Qed.

Lemma jstep_sim o c a :
  jsim c a → ∃ c', jstep o c = Ret ((spec_step o a).1, c') ∧ jsim c' (spec_step o a).2.
Proof.
  intros H. destruct o as [o u sg t| | |]; cbn [jstep spec_step].
  - destruct c as [th f p i]. unfold start. destruct a as [q|q b|]; cbn in H; destruct_and!; simplify_eq; cbn -[decide errors load]; [|eauto|eauto].
    destruct (decide (errors u sg t = 0)) as [E|E].
    + rewrite decide_False by lia. cbn. eauto.
    + rewrite decide_True by lia. cbn. eauto.
  - destruct (stop_sim c a H) as [Hs Hr]. destruct (stop c) as [r c']. cbn in *. subst r. exists c'. destruct a; done.
  - exists (JNI_OnUnload c). destruct (stop_sim c a H) as [Hs _]. destruct a; done.
  - eexists. split; [by destruct a|]. destruct c as [th f p i]. destruct a as [q|q []|]; cbn in H; destruct_and!; simplify_eq; done.
Qed.

(** The Java methods implement a service that is started at most once, on
    the port of the last configuration that could be read: in every order they
    answer what the service answers, the program is never terminated, not even
    by the destructor, and the thread runs exactly while the service is on. *)
Theorem export_refines os rs a :
  spec_run os (NeverStarted FORWARDER_DEFAULTPORT) = (rs, a) →
  ∃ c, jrun os ctx = Ret (rs, c) ∧ jsim c a ∧ JniContext_destroy c = Ret ().
Proof.
  assert (∀ c0 a0 rs a, jsim c0 a0 → spec_run os a0 = (rs, a) → ∃ c, jrun os c0 = Ret (rs, c) ∧ jsim c a) as H.
  { clear rs a. induction os as [|o os IH]; intros c0 a0 rs a Hs; cbn; [intros [= <- <-]; eauto|].
    destruct (jstep_sim o c0 a0 Hs) as (c1 & -> & H1). destruct (spec_step o a0) as [r a1]. cbind. cbn in H1.
    destruct (spec_run os a1) as [rs' a'] eqn:E. intros [= <- <-]. destruct (IH c1 a1 rs' a' H1 E) as (c & -> & Hc). cbind. eauto. }
  intros E. destruct (H ctx (NeverStarted FORWARDER_DEFAULTPORT) rs a ltac:(done) E) as (c & Hc & Hs).
  exists c. split; [done|]. split; [done|]. unfold JniContext_destroy. destruct (stop_sim c a Hs) as [Hd _].
  destruct (stop c) as [r c']. cbn in Hd. destruct a; destruct c'; cbn in Hd; destruct_and!; simplify_eq; done.
Qed.

Definition sample_calls : list jop :=
  [JStart (Field 40) None (Some 4) (Some 5); JStart NoField (Some 3) (Some 4) (Some 5); JStop; JStart Null (Some 3) (Some 4) (Some 5)].

Lemma export_refines_witness :
  ∃ c, jrun sample_calls ctx = Ret ([Some 1; Some 0; Some 0; Some 0], c) ∧ jsim c Done ∧ JniContext_destroy c = Ret ().
Proof. apply (export_refines sample_calls). reflexivity. Defined.

(** Once stopped, the service is not started again, though [start] answers that
    it is. *)
Lemma stopped_stays c os : jsim c Done → ∃ rs c', jrun os c = Ret (rs, c') ∧ service c' = NoThread ∧ Forall (λ r, r = None ∨ r = Some EXPORT_SUCCESS) rs.
Proof.
  revert c. induction os as [|o os IH]; intros c H; [exists [], c; cbn; destruct H; naive_solver|]. cbn.
  destruct (jstep_sim o c Done H) as (c1 & -> & H1). cbind.
  assert ((spec_step o Done).2 = Done) as E by (by destruct o). rewrite E in H1. destruct (IH c1 H1) as (rs & c' & -> & Ht & Hr).
  cbind. eexists _, c'. split; [reflexivity|]. split; [done|]. constructor; [|done]. destruct o; cbn; auto.
Qed.

(** The class's local reference is deleted on every path that has one. *)
Lemma on_load_result env clz reg :
  (JNI_OnLoad env clz reg).1 = JNIVRESION ↔ env = true ∧ clz ≠ None ∧ reg = true.
Proof. unfold JNI_OnLoad. destruct env, clz, reg; cbn; split; intros; destruct_and?; done. Qed.
