(* ===== verification/RunnerLife.v ===== *)
(** * socket/monitor/runner.h and state.h: how a runner is started and stopped

    [Runner::start] makes the thread and spins until it has stored [IDLE];
    [Runner::stop] notifies it and stores [TERMINATED]; the destructor joins
    the thread.  This puts the stores of the state and the thread that starts
    the runner around the steps of [TaskRunner]; again a list of actions is an
    interleaving, and every load and store of the state is an action. *)
From Stdlib Require Import ZArith Lia.
From stdpp Require Import base tactics numbers list sets.
From S2P Require Import Prelude.
From S2P Require Import TaskRunner.

Open Scope Z_scope.

Inductive State := NOTHINGNESS | INITIALIZED | TRANSFERRED | IDLE | WORK | TERMINATED.
#[export] Instance State_eq_dec : EqDecision State.
Proof. solve_decision. Defined.

Definition rank (st : State) : nat :=
  match st with NOTHINGNESS => 0 | INITIALIZED => 1 | TRANSFERRED => 2 | IDLE => 3 | WORK => 4 | TERMINATED => 5 end.
Definition initialized (st : State) : bool := bool_decide (rank INITIALIZED ≤ rank st)%nat.

(** Where the thread that calls [start] is. *)
Inductive place := Outside | Spinning | Back.
#[export] Instance place_eq_dec : EqDecision place.
Proof. solve_decision. Defined.

Record life := MkLife {
  state_ : State;
  made : bool;              (** [runner_] is a thread *)
  entered : bool;           (** the thread has stored its first state *)
  pend : option State;      (** what the thread is about to store *)
  stopping : nat;           (** calls of [stop] that have notified and not yet stored *)
  starter : place;
  rn : runner;
}.

Definition life_start : life := MkLife NOTHINGNESS false false None 0 Outside runner_start.

Inductive laction :=
| LStart                 (** [start] up to its loop *)
| LLook                  (** one round of the loop *)
| LStore                 (** [setstate] of the thread *)
| LTerminated            (** [setstate] of [stop] *)
| LAct (a : action).     (** a step of the runner, of a [post], or the first of [stop] *)

Definition lstart (s : life) : option life :=
  let '(MkLife st m en pe sp pl r) := s in
  match pl with
  | Outside => Some (if initialized st then MkLife st m en pe sp Back r else MkLife st true en (Some IDLE) sp Spinning r)
  | _ => None
  end.

Definition llook (s : life) : option life :=
  let '(MkLife st m en pe sp pl r) := s in
  match pl with
  | Spinning => Some (if decide (st = IDLE) then MkLife st m en pe sp Back r else s)
  | _ => None
  end.

Definition lstore (s : life) : option life :=
  let '(MkLife st m en pe sp pl r) := s in
  match pe with Some v => Some (MkLife v m true None sp pl r) | None => None end.

Definition lterminated (s : life) : option life :=
  let '(MkLife st m en pe sp pl r) := s in
  match sp with S sp => Some (MkLife TERMINATED m en pe sp pl r) | O => None end.

(** What [Run] stores after a step of its own. *)
Definition stores (a : action) : option State :=
  match a with Lock => Some WORK | Again => Some IDLE | _ => None end.

Definition own (a : action) : bool := match a with Post _ | Notify | Stop => false | _ => true end.

Definition lstep (a : laction) (s : life) : option (outcome life) :=
  match a with
  | LStart => Ret <$> lstart s
  | LLook => Ret <$> llook s
  | LStore => Ret <$> lstore s
  | LTerminated => Ret <$> lterminated s
  | LAct a =>
      let '(MkLife st m en pe sp pl r) := s in
      if own a && negb (m && bool_decide (pe = None)) then None
      else
        o ← step a r;
        Some (r ← o; Ret (MkLife st m en (if own a then stores a else pe) (match a with Stop => S sp | _ => sp end) pl r))
  end.

Fixpoint lexec (acts : list laction) (s : life) : option (outcome life) :=
  match acts with
  | [] => Some (Ret s)
  | a :: acts => match lstep a s with Some (Ret s') => lexec acts s' | o => o end
  end.

Inductive lreachable : life → Prop :=
| lreachable_start : lreachable life_start
| lreachable_step s a s' : lreachable s → lstep a s = Some (Ret s') → lreachable s'.

(** ** The invariant *)

(** What the state says of the thread's place when nobody stops it. *)
Definition shown (ph : phase) : State := match ph with Working _ => WORK | _ => IDLE end.

Record linv (s : life) : Prop := {
  l_runner : inv (rn s);
  l_stopping : (stopping s ≤ quits (rn s))%nat;
  l_unmade : made s = false → at_ (rn s) = Waiting ∧ pend s = None ∧ entered s = false ∧ starter s ≠ Spinning;
  l_outside : starter s = Outside → made s = false;
  l_fresh : made s = false → quits (rn s) = 0%nat → state_ s = NOTHINGNESS ∧ starter s = Outside;
  l_entering : made s = true → entered s = false → pend s = Some IDLE ∧ at_ (rn s) = Waiting ∧ state_ s ≠ IDLE ∧ starter s = Spinning;
  l_pend : ∀ v, pend s = Some v → v = shown (at_ (rn s)) ∧ at_ (rn s) ≠ Stopped;
  l_shown : made s = true → pend s = None → quits (rn s) = 0%nat → state_ s = shown (at_ (rn s));
}.

Ltac lopen H := destruct H as [?Hi ?Hsp ?Hu ?Hout ?Hf ?He ?Hp ?Hs]; cbn [state_ made entered pend stopping starter rn] in *.

Lemma step_quits a r r' : step a r = Some (Ret r') → quits r' = (match a with Stop => S (quits r) | _ => quits r end).
Proof.
  destruct r as [ts c p ph ra po q]. destruct a; cbn.
  - intros [= <-]. by destruct (fn t).
  - destruct p; [done|]. unfold notify. case_decide; [|done]. by intros [= <-].
  - unfold notify. case_decide; [|done]. by intros [= <-].
  - destruct ph; try done. unfold retrieve. case_decide; [done|]. by intros [= <-].
  - destruct ph; try done. destruct (take_front _ _) as [[]| |]; [|done|done]. by intros [= <-].
  - destruct ph as [| |[]|]; try done. destruct (task_run _); [|done|done]. by intros [= <-].
  - destruct ph as [| |[]|]; try done. by intros [= <-].
Qed.

(** A step that is not the thread's leaves its place alone. *)
Lemma step_foreign a r r' : own a = false → step a r = Some (Ret r') → at_ r' = at_ r.
Proof.
  destruct r as [ts c p ph ra po q]. destruct a; cbn; try done; intros _.
  - intros [= <-]. by destruct (fn t).
  - destruct p; [done|]. unfold notify. case_decide; [|done]. by intros [= <-].
  - unfold notify. case_decide; [|done]. by intros [= <-].
Qed.

(** The thread's own steps, and what it shows after them. *)
Lemma step_own a r r' : own a = true → step a r = Some (Ret r') →
  match stores a with
  | Some v => v = shown (at_ r') ∧ at_ r' ≠ Stopped
  | None => shown (at_ r') = shown (at_ r)
  end.
Proof.
  destruct r as [ts c p ph ra po q]. destruct a; cbn; try done; intros _.
  - destruct ph; try done. unfold retrieve. case_decide; [done|]. intros [= <-]. cbn. by case_decide.
  - destruct ph; try done. destruct (take_front _ _) as [[]| |]; [|done|done]. by intros [= <-].
  - destruct ph as [| |[]|]; try done. destruct (task_run _); [|done|done]. by intros [= <-].
  - destruct ph as [| |[]|]; try done. by intros [= <-].
Qed.

Lemma lact_inv a s o : linv s → lstep (LAct a) s = Some o → ∃ s', o = Ret s' ∧ linv s'.
Proof.
  intros H. destruct s as [st m en pe sp pl r]. lopen H. cbn [lstep].
  destruct (own a && negb (m && bool_decide (pe = None))) eqn:Eo; [done|].
  destruct (step a r) as [o'|] eqn:Er; [|done]. intros [= <-]. destruct (runner_step_inv a r o' Hi Er) as (r' & -> & Hi').
  cbind. eexists. split; [reflexivity|]. pose proof (step_quits a r r' Er) as Hq.
  destruct (own a) eqn:Ea; cbn in Eo.
  - destruct m; [|done]. cbn in Eo. apply negb_false_iff, bool_decide_eq_true in Eo as ->.
    assert (quits r' = quits r) as Hq' by (by destruct a). assert (match a with Stop => S sp | _ => sp end = sp) as -> by (by destruct a).
    assert (en = true) as ->. { destruct en; [done|]. by destruct He as [? _]. }
    pose proof (step_own a r r' Ea Er) as Ho. split; cbn [state_ made entered pend stopping starter rn]; try done; [lia| |].
    + intros v Hv. rewrite Hv in Ho. done.
    + intros _ Hn H0. rewrite Hn in Ho. rewrite Ho. apply Hs; [done|done|lia].
  - pose proof (step_foreign a r r' Ea Er) as Hx. split; cbn [state_ made entered pend stopping starter rn]; rewrite ?Hx; try done.
    + destruct a; lia.
    + intros Hm H0. apply Hf; [done|]. destruct a; lia.
    + intros Hm Hn H0. apply Hs; [done|done|]. destruct a; lia.
Qed.

(** Open the invariant of the state an action leads to. *)
Ltac lnext := eexists; split; [reflexivity|]; split; cbn [state_ made entered pend stopping starter rn]; try done.

Lemma lstart_inv s o : linv s → lstep LStart s = Some o → ∃ s', o = Ret s' ∧ linv s'.
Proof.
  intros H. destruct s as [st m en pe sp pl r]; lopen H; cbn [lstep lstart]. destruct pl; try done.
  specialize (Hout eq_refl) as ->. destruct (Hu eq_refl) as (Ha & -> & -> & _).
  destruct (initialized st) eqn:E; intros [= <-]; lnext.
  - intros _ H0. by destruct (Hf eq_refl H0) as [-> _].
  - intros _ _. split_and!; try done. by intros ->.
  - intros v [= <-]. by rewrite Ha.
Qed.

Lemma llook_inv s o : linv s → lstep LLook s = Some o → ∃ s', o = Ret s' ∧ linv s'.
Proof.
  intros H. destruct s as [st m en pe sp pl r]; lopen H; cbn [lstep llook]. destruct pl; try done.
  destruct m; [|by destruct (Hu eq_refl) as (_ & _ & _ & ?)].
  case_decide as Hst; intros [= <-]; lnext. intros _ Hen. by destruct (He eq_refl Hen) as (_ & _ & ? & _).
Qed.

Lemma lstore_inv s o : linv s → lstep LStore s = Some o → ∃ s', o = Ret s' ∧ linv s'.
Proof.
  intros H. destruct s as [st m en pe sp pl r]; lopen H; cbn [lstep lstore]. destruct pe as [v|]; [|done].
  destruct m; [|by destruct (Hu eq_refl) as (_ & ? & _)]. intros [= <-]. lnext. intros _ _ _. by apply Hp.
Qed.

Lemma lterminated_inv s o : linv s → lstep LTerminated s = Some o → ∃ s', o = Ret s' ∧ linv s'.
Proof.
  intros H. destruct s as [st m en pe sp pl r]; lopen H; cbn [lstep lterminated]. destruct sp as [|sp]; [done|].
  intros [= <-]. lnext; [lia|intros _ ?; lia| |intros _ _ ?; lia].
  intros Hm Hen. destruct (He Hm Hen) as (? & ? & _ & ?). done.
Qed.

Lemma life_reachable_inv s : lreachable s → linv s.
Proof.
  induction 1 as [|s a s' Hr IH E]; [split; cbn; try done; repeat split; done|].
  assert (∃ s1, Ret s' = Ret s1 ∧ linv s1) as (? & [= <-] & ?); [|done].
  destruct a; [by apply (lstart_inv s)|by apply (llook_inv s)|by apply (lstore_inv s)|by apply (lterminated_inv s)|by eapply lact_inv].
Qed.

(** ** Starting and joining *)

Lemma life_exec_app acts1 acts2 s s' : lexec acts1 s = Some (Ret s') → lexec (acts1 ++ acts2) s = lexec acts2 s'.
Proof.
  revert s. induction acts1 as [|a acts1 IH]; intros s H; cbn in *; [by simplify_eq|].
  destruct (lstep a s) as [[s1| |]|]; try done. by apply IH.
Qed.

(** Steps of the runner's thread, and rounds of the loop in [start]. *)
Definition progress_step (a : laction) : bool :=
  match a with LLook | LStore => true | LAct a => own a | _ => false end.

(** The tasks that are left are run, and the thread waits again. *)
Lemma lexec_tasks b st m en sp pl ts c p r po q :
  m = true → Forall (λ t, fn t = true) b →
  lexec (LAct <$> (replicate (length b) RunOne ++ [Again])) (MkLife st m en None sp pl (MkRunner ts c p (Working b) r po q))
  = Some (Ret (MkLife st m en (Some IDLE) sp pl (MkRunner ts c p Waiting (r ++ b) po q))).
Proof.
  intros ->. revert r. induction b as [|t b IH]; intros r Hb; cbn [replicate length app fmap list_fmap lexec]; [by rewrite app_nil_r|].
  apply Forall_cons in Hb as [Ht Hb]. cbn [lstep own andb negb step Run]. destruct (task_run_fn t Ht) as [es ->].
  rewrite bool_decide_true by done. cbn -[lexec]. rewrite IH by done. by rewrite <- app_assoc.
Qed.

Lemma inv_batch s : inv s → Forall (λ t, fn t = true) (batch (at_ s)).
Proof. intros (Hp & Hf & _). rewrite Hp, !Forall_app in Hf. tauto. Qed.

Definition finish (b : list Task) : list laction := LAct <$> (replicate (length b) RunOne ++ [Again]).

Lemma finish_progress b : Forall (λ a, progress_step a = true) (finish b).
Proof.
  unfold finish. rewrite Forall_fmap, Forall_app. split; [by apply Forall_replicate|by repeat constructor].
Qed.

(** From wherever it is, the thread gets back to its wait with [IDLE] stored,
    unless it has ended or has not yet taken what it was told of. *)
Lemma to_idle s :
  linv s → made s = true → pend s = None → (∃ b, at_ (rn s) = Working b) →
  ∃ s', lexec (finish (batch (at_ (rn s))) ++ [LStore]) s = Some (Ret s') ∧
    state_ s' = IDLE ∧ pend s' = None ∧ made s' = true ∧ entered s' = true ∧ starter s' = starter s ∧ at_ (rn s') = Waiting ∧ counter (rn s') = counter (rn s).
Proof.
  intros H Hm Hpe (b & Hb). pose proof (inv_batch _ (l_runner s H)) as Hf.
  destruct s as [st m en pe sp pl [ts c p ph r po q]]. cbn in *. subst. cbn in Hf |- *.
  rewrite (life_exec_app _ _ _ _ (lexec_tasks b st true en sp pl ts c p r po q eq_refl Hf)).
  cbn. eexists. split; [reflexivity|done].
Qed.

(** The store the thread is about to make. *)
Lemma settle_store s :
  linv s → made s = true →
  ∃ acts s', Forall (λ a, progress_step a = true) acts ∧ lexec acts s = Some (Ret s') ∧ linv s' ∧
    pend s' = None ∧ made s' = true ∧ entered s' = true ∧ starter s' = starter s ∧ rn s' = rn s.
Proof.
  intros H Hm. destruct (pend s) as [v|] eqn:Ep.
  - destruct s as [st m en pe sp pl r]. cbn in *. subst m pe.
    assert (lstep LStore (MkLife st true en (Some v) sp pl r) = Some (Ret (MkLife v true true None sp pl r))) as E by done.
    destruct (lstore_inv _ _ H E) as (s1 & [= <-] & H1). exists [LStore], (MkLife v true true None sp pl r).
    split; [by constructor|]. by split_and!.
  - exists [], s. split; [constructor|]. split; [done|]. split_and!; try done. destruct (entered s) eqn:Ee; [done|].
    destruct (l_entering s H Hm Ee) as [? _]. congruence.
Qed.

Lemma settle_idle s :
  linv s → made s = true → quits (rn s) = 0%nat →
  ∃ acts s', Forall (λ a, progress_step a = true) acts ∧ lexec acts s = Some (Ret s') ∧
    state_ s' = IDLE ∧ entered s' = true ∧ starter s' = starter s.
Proof.
  intros H Hm Hq. destruct (settle_store s H Hm) as (acts & s1 & Ha & E & H1 & Hp1 & Hm1 & He1 & Hs1 & Hr1).
  pose proof (l_shown s1 H1 Hm1 Hp1 ltac:(by rewrite Hr1)) as Hsh.
  destruct (at_ (rn s1)) as [|e|b|] eqn:Ea; [by exists acts, s1|by exists acts, s1| |by exists acts, s1].
  destruct (to_idle s1 H1 Hm1 Hp1 ltac:(eauto)) as (s2 & E2 & Hi & _ & _ & He2 & Hs2 & _).
  exists (acts ++ finish b ++ [LStore]), s2. rewrite Ea in E2. split_and!; [|by rewrite (life_exec_app _ _ _ _ E)|done|done|congruence].
  rewrite !Forall_app. split_and!; [done|apply finish_progress|by repeat constructor].
Qed.

(** C21: in every interleaving, [start] returns only when the thread has entered
    its loop, or when the runner had been stopped before; and as long as nobody
    stops the runner, a [start] that spins can return, by steps of the thread
    and of its own loop alone. *)
Theorem runner_starts s :
  lreachable s →
  (starter s = Back → (made s = true ∧ entered s = true) ∨ (made s = false ∧ (0 < quits (rn s))%nat)) ∧
  (starter s = Spinning → quits (rn s) = 0%nat →
    ∃ acts s', Forall (λ a, progress_step a = true) acts ∧ lexec acts s = Some (Ret s') ∧ starter s' = Back ∧ entered s' = true).
Proof.
  intros H%life_reachable_inv. split.
  - intros Hb. destruct (made s) eqn:Em.
    + left. split; [done|]. destruct (entered s) eqn:Ee; [done|]. destruct (l_entering s H Em Ee) as (_ & _ & _ & ?). congruence.
    + right. split; [done|]. destruct (quits (rn s)) eqn:Eq; [|lia]. destruct (l_fresh s H Em Eq). congruence.
  - intros Hsp Hq. destruct (made s) eqn:Em; [|by destruct (l_unmade s H Em) as (_ & _ & _ & ?)].
    destruct (settle_idle s H Em Hq) as (acts & s1 & Ha & E & Hi & He & Hst). rewrite Hsp in Hst.
    destruct s1 as [st m en pe sp pl r]. cbn in *. subst. exists (acts ++ [LLook]). eexists.
    split; [apply Forall_app; by repeat constructor|]. rewrite (life_exec_app _ _ _ _ E). cbn. by split.
Qed.

(** Two tasks were posted before the start, and the thread runs the first. *)
Definition sample_life : list laction :=
  [LAct (Post (sample_task 1)); LAct Notify; LAct (Post (sample_task 2)); LAct Notify; LStart; LStore; LAct Wake; LAct Lock; LStore; LLook; LAct RunOne].

Lemma life_exec_reachable acts s s' : lreachable s → lexec acts s = Some (Ret s') → lreachable s'.
Proof.
  revert s. induction acts as [|a acts IH]; intros s Hs H; cbn in H; [by simplify_eq|].
  destruct (lstep a s) as [[s1| |]|] eqn:E; try done. apply (IH s1); [by eapply lreachable_step|done].
Qed.

Lemma runner_starts_witness :
  ∃ s, lexec sample_life life_start = Some (Ret s) ∧ state_ s = WORK ∧
    ∃ acts s', Forall (λ a, progress_step a = true) acts ∧ lexec acts s = Some (Ret s') ∧ starter s' = Back ∧ entered s' = true.
Proof.
  destruct (lexec sample_life life_start) as [[s| |]|] eqn:E; [|by vm_compute in E..]. exists s. split; [done|].
  assert (state_ s = WORK ∧ starter s = Spinning ∧ quits (rn s) = 0%nat) as (H1 & H2 & H3) by (vm_compute in E; by injection E as <-).
  split; [done|]. by apply (runner_starts s (life_exec_reachable _ _ _ lreachable_start E)).
Defined.

(** The thread waits and has been told to quit. *)
Lemma wait_stops s :
  made s = true → pend s = None → at_ (rn s) = Waiting → kNotifyQuit ≤ counter (rn s) →
  ∃ s', lexec [LAct Wake] s = Some (Ret s') ∧ at_ (rn s') = Stopped.
Proof.
  destruct s as [st m en pe sp pl [ts c p ph r po q]]. cbn. intros -> -> -> Hc. unfold retrieve.
  rewrite (decide_False (P := c = 0)) by (unfold kNotifyQuit in Hc; lia). cbn. eexists. split; [reflexivity|]. cbn. by rewrite decide_True by lia.
Qed.

Lemma work_stops s b :
  linv s → made s = true → pend s = None → at_ (rn s) = Working b → kNotifyQuit ≤ counter (rn s) →
  ∃ s', lexec (finish b ++ [LStore] ++ [LAct Wake]) s = Some (Ret s') ∧ at_ (rn s') = Stopped.
Proof.
  intros H Hm Hp Ha Hc. destruct (to_idle s H Hm Hp ltac:(eauto)) as (s1 & E1 & _ & Hp1 & Hm1 & _ & _ & Ha1 & Hc1).
  rewrite Ha in E1. rewrite app_assoc, (life_exec_app _ _ _ _ E1). apply wait_stops; try done. by rewrite Hc1.
Qed.

(** Taking the tasks it was told of leaves the counter alone. *)
Lemma take_works s e :
  linv s → made s = true → pend s = None → at_ (rn s) = Taken e →
  ∃ s' b, lexec [LAct Lock; LStore] s = Some (Ret s') ∧ linv s' ∧ made s' = true ∧ pend s' = None ∧ at_ (rn s') = Working b ∧
    counter (rn s') = counter (rn s).
Proof.
  intros H Hm Hp Ha. destruct (lstep (LAct Lock) s) as [o|] eqn:E.
  - destruct (lact_inv Lock s o H E) as (s1 & -> & H1). destruct (lstep LStore s1) as [o|] eqn:E1.
    + destruct (lstore_inv s1 o H1 E1) as (s2 & -> & H2). cbn [lexec]. rewrite E, E1.
      destruct s as [st m en pe sp pl [ts c p ph r po q]]. cbn in *. subst. cbn in E. destruct (take_front _ _) as [[b ts']| |]; cbn in E; [|done|done].
      injection E as <-. cbn in E1. injection E1 as <-. cbn. by eexists _, b.
    + destruct s as [st m en pe sp pl [ts c p ph r po q]]. cbn in *. subst. cbn in E. destruct (take_front _ _) as [[b ts']| |]; cbn in E; [|done|done].
      injection E as <-. done.
  - destruct s as [st m en pe sp pl [ts c p ph r po q]]. cbn in *. subst. by destruct (take_front _ _) as [[b ts']| |].
Qed.

(** A runner that was told to stop can be joined: from every state its
    thread can end by steps of its own, after the tasks it has taken. *)
Theorem runner_joins s :
  lreachable s → made s = true → (0 < quits (rn s))%nat →
  ∃ acts s', Forall (λ a, progress_step a = true) acts ∧ lexec acts s = Some (Ret s') ∧ at_ (rn s') = Stopped.
Proof.
  intros H%life_reachable_inv Hm Hq.
  destruct (settle_store s H Hm) as (acts & s1 & Ha & E & H1 & Hp1 & Hm1 & _ & _ & Hr1). rewrite <- Hr1 in Hq.
  assert (∃ acts s2, Forall (λ a, progress_step a = true) acts ∧ lexec acts s1 = Some (Ret s2) ∧ at_ (rn s2) = Stopped) as (acts' & s2 & Ha' & E' & ?).
  2: { exists (acts ++ acts'), s2. by rewrite Forall_app, (life_exec_app _ _ _ _ E). }
  assert (at_ (rn s1) ≠ Stopped → kNotifyQuit ≤ counter (rn s1)) as Hc.
  { intros Hn. destruct (l_runner s1 H1) as (_ & _ & _ & _ & Hx). destruct (Hx Hn) as [_ ?]. unfold kNotifyQuit in *. nia. }
  destruct (at_ (rn s1)) as [|e|b|] eqn:Ea.
  - destruct (wait_stops s1) as (s2 & ? & ?); [done|done|done|by apply Hc|]. exists [LAct Wake], s2. by repeat constructor.
  - destruct (take_works s1 e) as (s2 & b & E2 & H2 & Hm2 & Hp2 & Ha2 & Hc2); [done..|].
    destruct (work_stops s2 b) as (s3 & E3 & ?); [done|done|done|done|rewrite Hc2; by apply Hc|].
    exists ([LAct Lock; LStore] ++ finish b ++ [LStore] ++ [LAct Wake]), s3. rewrite (life_exec_app _ _ _ _ E2), !Forall_app.
    split_and!; [by repeat constructor|apply finish_progress|by repeat constructor..|done|done].
  - destruct (work_stops s1 b) as (s3 & E3 & ?); [done..|by apply Hc|]. exists (finish b ++ [LStore] ++ [LAct Wake]), s3.
    rewrite !Forall_app. split_and!; [apply finish_progress|by repeat constructor..|done|done].
  - exists [], s1. by repeat constructor.
Qed.

Lemma runner_joins_witness :
  ∃ s, lexec (sample_life ++ [LAct Stop]) life_start = Some (Ret s) ∧
    ∃ acts s', Forall (λ a, progress_step a = true) acts ∧ lexec acts s = Some (Ret s') ∧ at_ (rn s') = Stopped.
Proof.
  destruct (lexec (sample_life ++ [LAct Stop]) life_start) as [[s| |]|] eqn:E; [|by vm_compute in E..]. exists s. split; [done|].
  apply (runner_joins s (life_exec_reachable _ _ _ lreachable_start E)); vm_compute in E; injection E as <-; [done|cbn; lia].
Defined.

(** A runner that is stopped while [start] spins may leave it spinning for good:
    the thread has ended and [TERMINATED] is stored. *)
Example stopped_start_spins :
  lexec [LStart; LStore; LAct Stop; LAct Wake; LTerminated; LLook] life_start
  = Some (Ret (MkLife TERMINATED true true None 0 Spinning (MkRunner [] 0 0 Stopped [] [] 1))).
Proof. reflexivity. Qed.

Lemma spins_forever acts s s' :
  state_ s = TERMINATED → starter s = Spinning → pend s = None → at_ (rn s) = Stopped →
  lexec acts s = Some (Ret s') → starter s' = Spinning.
Proof.
  revert s. induction acts as [|a acts IH]; intros s Hst Hsp Hp Ha; cbn; [by intros [= <-]|].
  destruct (lstep a s) as [[s1| |]|] eqn:E; try done. apply IH; clear IH; destruct s as [st m en pe sp pl r]; cbn in *; subst;
    destruct a as [| | | |a]; cbn in E; try done; try (by injection E as <-); try (destruct sp; [done|by injection E as <-]).
  all: destruct (own a) eqn:Eo; cbn in E.
  all: try (destruct r as [ts c p ph ra po q]; cbn in Ha; subst ph; destruct a; try done; by destruct m).
  all: destruct (step a r) as [[r'| |]|] eqn:Er; try done; cbn in E; injection E as <-; try done.
  cbn. by rewrite (step_foreign a r r' Eo Er).
Qed.
