(* ===== verification/Pty.v ===== *)
(** * pty/master_open.c, fork.c and script.c, and tty/utility.c: pseudo terminals

    [pty_fork] makes a child whose standard descriptors are the slave of a new
    pseudo terminal; [script] runs a shell in it and copies what it prints to
    the screen and to a file.  What system calls answer are arguments: an error
    number or a value.  The child's descriptors are a map from numbers to what
    they refer to; a terminal's settings are the words of flags of [termios]. *)
From Stdlib Require Import ZArith Lia.
From stdpp Require Import base tactics numbers list gmap sets.
From S2P Require Import Prelude.

Open Scope Z_scope.

Definition MAX_SNAME : Z := 1024.
Definition EOVERFLOW : Z := 75.
Definition STDIN_FILENO : Z := 0.
Definition STDOUT_FILENO : Z := 1.
Definition STDERR_FILENO : Z := 2.

(** ** [tty/utility.c] *)
Definition ISIG : Z := 0x1.
Definition ICANON : Z := 0x2.
Definition ECHO : Z := 0x8.
Definition IEXTEN : Z := 0x8000.
Definition IGNBRK : Z := 0x1.
Definition BRKINT : Z := 0x2.
Definition PARMRK : Z := 0x8.
Definition INPCK : Z := 0x10.
Definition ISTRIP : Z := 0x20.
Definition INLCR : Z := 0x40.
Definition IGNCR : Z := 0x80.
Definition ICRNL : Z := 0x100.
Definition IXON : Z := 0x400.
Definition OPOST : Z := 0x1.
Definition VTIME : Z := 5.
Definition VMIN : Z := 6.

Record termios := MkTermios { c_iflag : Z; c_oflag : Z; c_lflag : Z; c_cc : list Z }.

(** [x &= ~mask] on a word of flags. *)
Definition clear (x mask : Z) : Z := Z.land x (u32 (Z.lnot mask)).

(** Both functions: the terminal's settings, whether they could be read and
    changed, what [*pre] gets, and the result. *)
Definition tty_set (f : termios → outcome termios) (got set : bool) (tty : termios) : outcome (Z * option termios * termios) :=
  if got then
    t ← f tty;
    if set then Ret (0, Some tty, t) else Ret (-1, Some tty, tty)
  else Ret (-1, None, tty).

Definition char_break (t : termios) : outcome termios :=
  let l := Z.lor (clear (c_lflag t) (Z.lor ICANON ECHO)) ISIG in
  let i := clear (c_iflag t) ICRNL in
  cc ← store (c_cc t) VMIN 1;
  cc ← store cc VTIME 0;
  Ret (MkTermios i (c_oflag t) l cc).

Definition tty_set_char_break : bool → bool → termios → outcome (Z * option termios * termios) := tty_set char_break.

Definition raw_lflags : Z := Z.lor (Z.lor (Z.lor ICANON ISIG) IEXTEN) ECHO.
Definition raw_iflags : Z :=
  Z.lor (Z.lor (Z.lor (Z.lor (Z.lor (Z.lor (Z.lor (Z.lor BRKINT ICRNL) IGNBRK) IGNCR) INLCR) INPCK) ISTRIP) IXON) PARMRK.

Definition raw (t : termios) : outcome termios :=
  let l := clear (c_lflag t) raw_lflags in
  let i := clear (c_iflag t) raw_iflags in
  let o := clear (c_oflag t) OPOST in
  cc ← store (c_cc t) VMIN 1;
  cc ← store cc VTIME 0;
  Ret (MkTermios i o l cc).

Definition tty_set_raw : bool → bool → termios → outcome (Z * option termios * termios) := tty_set raw.

(** ** [pty_master_open] *)

(** The result, [errno], and the descriptors that are open. *)
Record opened_pty := MkOpened { rc : Z; errno : Z; fds : gset Z }.

(** [close] of an open descriptor: it is closed, and an error it reports is in [errno]. *)
Definition close (fd : Z) (ce : option Z) (e : Z) (o : gset Z) : Z * gset Z := (default e ce, o ∖ {[fd]}).

(** [FD_OP_CHECK] of a call that has failed: [close] may change [errno], which is put back. *)
Definition fd_op_fail (fd : Z) (ce : option Z) (errno : Z) (o : gset Z) : opened_pty :=
  let cache := errno in
  let '(errno, o) := close fd ce errno o in
  let errno := cache in
  MkOpened (-1) errno o.

(** A name that does not fit. *)
Definition too_long (fd : Z) (ce : option Z) (errno : Z) (o : gset Z) : opened_pty :=
  let '(errno, o) := close fd ce errno o in
  let errno := EOVERFLOW in
  MkOpened (-1) errno o.

(** [strncpy(dst, src, n)] with [strlen(src) < n]: the rest is filled with zeros. *)
Definition strncpy (dst src : list Z) (n : Z) : outcome (list Z) :=
  store_n dst 0 (src ++ replicate (Z.to_nat n - length src) 0).

Record pt_answers := PtAnswers { a_openpt : Z + Z; a_grant : option Z; a_unlock : option Z; a_name : Z + list Z; a_close : option Z }.

Definition pty_master_open (slave_name : list Z) (sn_len : Z) (a : pt_answers) (errno : Z) (o : gset Z) : outcome (opened_pty * list Z) :=
  match a_openpt a with
  | inl e => Ret (MkOpened (-1) e o, slave_name)
  | inr mfd =>
      let o := {[mfd]} ∪ o in
      match a_grant a, a_unlock a, a_name a with
      | Some e, _, _ | None, Some e, _ | None, None, inl e => Ret (fd_op_fail mfd (a_close a) e o, slave_name)
      | None, None, inr p =>
          if decide (zlen p < sn_len) then
            slave_name ← strncpy slave_name p sn_len;
            Ret (MkOpened mfd errno o, slave_name)
          else Ret (too_long mfd (a_close a) errno o, slave_name)
      end
  end.

(** ** [pty_fork] *)

(** The characters of the C string in a buffer. *)
Fixpoint c_str (m : list Z) : list Z :=
  match m with [] => [] | c :: m => if decide (c = 0) then [] else c :: c_str m end.

(** In the parent: [*mfd_ptr] is the result's descriptor. [slave_name] may be
    null; [fork] gives an error number or the child. *)
Definition pty_fork_parent (slave_name : option (list Z)) (sn_len : Z) (a : pt_answers) (fork : Z + Z) (errno0 : Z) (o : gset Z) :
    outcome (opened_pty * option Z * option (list Z)) :=
  '(r, sname) ← pty_master_open (replicate (Z.to_nat MAX_SNAME) 0) MAX_SNAME a errno0 o;
  if decide (rc r = -1) then Ret (r, None, slave_name)
  else
    let mfd := rc r in
    let child (slave_name : option (list Z)) :=
      match fork with
      | inl e => (fd_op_fail mfd (a_close a) e (fds r), None, slave_name)
      | inr pid => (MkOpened pid (errno r) (fds r), Some mfd, slave_name)
      end in
    match slave_name with
    | None => Ret (child None)
    | Some b =>
        if decide (zlen (c_str sname) < sn_len) then
          b ← strncpy b (c_str sname) sn_len;
          Ret (child (Some b))
        else Ret (too_long mfd (a_close a) (errno r) (fds r), None, Some b)
    end.

(** What a descriptor of the child refers to. *)
Inductive file := Master | Slave | Other (n : Z).

(** [dup2(fd, to)]: what [fd] refers to, also under the number [to]. *)
Definition dup2 (fd to : Z) (t : gmap Z file) : gmap Z file :=
  match t !! fd with Some f => <[to := f]> t | None => t end.

Record child_answers := ChildAnswers { a_setsid : bool; a_slave : option Z; a_ctty : bool; a_attr : bool; a_size : bool; a_dup : Z → bool }.

(** In the child: [None] is the exit after an error; [t] and [ws] are whether
    the pointers are not null. *)
Definition pty_fork_child (mfd : Z) (t ws : bool) (a : child_answers) (tab : gmap Z file) : option (gmap Z file) :=
  if negb (a_setsid a) then None
  else
    let tab := delete mfd tab in
    match a_slave a with
    | None => None
    | Some sfd =>
        let tab := <[sfd := Slave]> tab in
        if negb (a_ctty a) then None
        else if t && negb (a_attr a) then None
        else if ws && negb (a_size a) then None
        else if negb (a_dup a STDIN_FILENO) then None
        else
          let tab := dup2 sfd STDIN_FILENO tab in
          if negb (a_dup a STDOUT_FILENO) then None
          else
            let tab := dup2 sfd STDOUT_FILENO tab in
            if negb (a_dup a STDERR_FILENO) then None
            else
              let tab := dup2 sfd STDERR_FILENO tab in
              Some (if decide (STDERR_FILENO < sfd) then delete sfd tab else tab)
    end.

(** ** [script] *)
Definition BUF_SIZE : Z := 256.
Definition SIGWINCH : Z := 28.

(** What the user will type and the shell will print, and where it has gone;
    [sizes] are the window sizes that were announced. *)
Record Session := MkSession {
  typed : list Z; printed : list Z;                            (** still to come *)
  to_master : list Z; screen : list Z; typescript : list Z;    (** written *)
  sizes : list (Z * Z);
}.

(** [read(fd, buf, BUF_SIZE)] when [k] bytes are there: what it gives and what is left. *)
Definition read_buf (k : Z) (s : list Z) : list Z * list Z :=
  let n := Z.to_nat (Z.min k BUF_SIZE) in (take n s, drop n s).

(** [WRITE]: [write] accepts [w] bytes, or fails when it is negative; what was
    not accepted is reported and forgotten. *)
Definition WRITE (w : Z) (buf dst : list Z) : list Z := dst ++ take (Z.to_nat w) buf.

(** A round: what [select] says is ready, and how much of the writes is
    accepted.  A signal has its number and, if it can be found, the size. *)
Record ready_set := Ready { on_stdin : option Z; on_master : option Z; on_sig : option (Z * option (Z * Z)); w_master : Z; w_out : Z; w_script : Z }.

Inductive reason := InputEnd | OutputEnd | SelectError | BadSignal.
#[export] Instance reason_eq_dec : EqDecision reason.
Proof. solve_decision. Defined.

(** The three parts of a round; [Some] of a reason is the end of the program. *)
Definition from_stdin (r : ready_set) (s : Session) : option reason * Session :=
  match on_stdin r with
  | None => (None, s)
  | Some k =>
      let '(buf, rest) := read_buf k (typed s) in
      let s := MkSession rest (printed s) (to_master s) (screen s) (typescript s) (sizes s) in
      match buf with
      | [] => (Some InputEnd, s)
      | _ => (None, MkSession (typed s) (printed s) (WRITE (w_master r) buf (to_master s)) (screen s) (typescript s) (sizes s))
      end
  end.

Definition from_master (r : ready_set) (s : Session) : option reason * Session :=
  match on_master r with
  | None => (None, s)
  | Some k =>
      let '(buf, rest) := read_buf k (printed s) in
      let s := MkSession (typed s) rest (to_master s) (screen s) (typescript s) (sizes s) in
      match buf with
      | [] => (Some OutputEnd, s)
      | _ => (None, MkSession (typed s) (printed s) (to_master s) (WRITE (w_out r) buf (screen s)) (WRITE (w_script r) buf (typescript s)) (sizes s))
      end
  end.

Definition from_sig (r : ready_set) (s : Session) : option reason * Session :=
  match on_sig r with
  | None => (None, s)
  | Some (signo, ws) =>
      if decide (signo = SIGWINCH) then
        (None, match ws with Some z => MkSession (typed s) (printed s) (to_master s) (screen s) (typescript s) (sizes s ++ [z]) | None => s end)
      else (Some BadSignal, s)
  end.

Definition round (r : ready_set) (s : Session) : option reason * Session :=
  match from_stdin r s with
  | (Some e, s) => (Some e, s)
  | (None, s) => match from_master r s with (Some e, s) => (Some e, s) | (None, s) => from_sig r s end
  end.

(** The loop; a failed [select] is [None]. *)
Fixpoint script (rs : list (option ready_set)) (s : Session) : option reason * Session :=
  match rs with
  | [] => (None, s)
  | None :: _ => (Some SelectError, s)
  | Some r :: rs => match round r s with (Some e, s) => (Some e, s) | (None, s) => script rs s end
  end.

Definition session (typed printed : list Z) : Session := MkSession typed printed [] [] [] [].

(** ** The terminal's settings *)
Lemma clear_testbit x mask i : 0 ≤ x < 2 ^ 32 → 0 ≤ i → Z.testbit (clear x mask) i = Z.testbit x i && negb (Z.testbit mask i).
Proof.
  intros Hx Hi. unfold clear, u32. rewrite Z.land_spec. change 4294967296 with (2 ^ 32). destruct (decide (i < 32)).
  - rewrite Z.mod_pow2_bits_low, Z.lnot_spec by lia. done.
  - rewrite (Z.bits_above_log2 x i); [done|lia|]. destruct (decide (x = 0)) as [-> |]; [cbn; lia|]. apply Z.log2_lt_pow2; [lia|].
    eapply Z.lt_le_trans; [apply Hx|]. apply Z.pow_le_mono_r; lia.
Qed.

(** A terminal's words are of 32 bits and it has the two special characters. *)
Definition termios_ok (t : termios) : Prop :=
  0 ≤ c_iflag t < 2 ^ 32 ∧ 0 ≤ c_oflag t < 2 ^ 32 ∧ 0 ≤ c_lflag t < 2 ^ 32 ∧ 6 < zlen (c_cc t).

(** Raw mode switches off exactly the listed flags and leaves every other
    bit of the three words; a character is given at once; what [*pre] gets is
    the terminal as it was, so that setting it again restores it; and when a
    call fails the terminal is left alone. *)
Theorem raw_mode tty got set :
  termios_ok tty →
  ∃ r pre t, tty_set_raw got set tty = Ret (r, pre, t) ∧
    (r = 0 ↔ got = true ∧ set = true) ∧ (r ≠ 0 → t = tty) ∧ pre = (if got then Some tty else None) ∧
    (r = 0 → c_cc t !! 6%nat = Some 1 ∧ c_cc t !! 5%nat = Some 0 ∧
      ∀ i, 0 ≤ i →
        Z.testbit (c_lflag t) i = Z.testbit (c_lflag tty) i && negb (Z.testbit raw_lflags i) ∧
        Z.testbit (c_iflag t) i = Z.testbit (c_iflag tty) i && negb (Z.testbit raw_iflags i) ∧
        Z.testbit (c_oflag t) i = Z.testbit (c_oflag tty) i && negb (Z.testbit OPOST i)).
Proof.
  intros (Hi & Ho & Hl & Hc). unfold tty_set_raw, tty_set. destruct got; [|eexists (-1), None, tty; split; [reflexivity|]; split_and!; [split; [done|by intros [? ?]]|done..]].
  unfold raw, store, VMIN, VTIME. rewrite decide_True by lia. cbind. rewrite decide_True by (len). cbind.
  destruct set; [|eexists (-1), (Some tty), tty; split; [reflexivity|]; split_and!; [split; [done|by intros [? ?]]|done..]]. eexists 0, (Some tty), _. split; [reflexivity|]. split_and!; try done. intros _. cbn [c_cc c_lflag c_iflag c_oflag].
  split; [|split].
  - rewrite list_lookup_insert_ne by done. rewrite list_lookup_insert_eq by lia. done.
  - rewrite list_lookup_insert_eq by (len). done.
  - intros i Hp. by rewrite !clear_testbit by done.
Qed.

Definition sample_tty : termios := MkTermios 0x6502 0x5 0x8a3b (replicate 19 0).

Lemma raw_mode_witness : ∃ t, tty_set_raw true true sample_tty = Ret (0, Some sample_tty, t) ∧ c_cc t !! 6%nat = Some 1 ∧ Z.testbit (c_lflag t) 3 = false.
Proof.
  destruct (raw_mode sample_tty true true) as (r & pre & t & E & Hr & _ & -> & H).
  { unfold termios_ok. cbn. lia. }
  assert (r = 0) as -> by (apply Hr; done). exists t. split; [done|]. destruct H as (H1 & _ & H2); [done|]. split; [done|].
  destruct (H2 3) as (-> & _); [lia|]. reflexivity.
Defined.

(** ** What is copied *)

(** Whole writes: each accepts what it is given. *)
Definition whole (r : ready_set) : Prop := BUF_SIZE ≤ w_master r ∧ BUF_SIZE ≤ w_out r ∧ BUF_SIZE ≤ w_script r.

Lemma read_buf_app k s buf rest : read_buf k s = (buf, rest) → buf ++ rest = s ∧ (length buf ≤ 256)%nat.
Proof.
  unfold read_buf, BUF_SIZE. intros [= <- <-]. split; [apply take_drop|]. rewrite length_take. lia.
Qed.

Lemma WRITE_whole w buf dst : BUF_SIZE ≤ w → (length buf ≤ 256)%nat → WRITE w buf dst = dst ++ buf.
Proof. unfold WRITE, BUF_SIZE. intros Hw Hl. by rewrite take_ge by lia. Qed.

(** Nothing is lost or changed on the way, and the file is what the screen shows. *)
Definition copied (typed0 printed0 : list Z) (s : Session) : Prop :=
  to_master s ++ typed s = typed0 ∧ screen s ++ printed s = printed0 ∧ typescript s = screen s.

Lemma from_stdin_copied t0 p0 r s e s' :
  whole r → copied t0 p0 s → from_stdin r s = (e, s') → copied t0 p0 s' ∧ e ≠ Some OutputEnd.
Proof.
  intros (Hm & _ & _) (H1 & H2 & H3). unfold from_stdin. destruct (on_stdin r) as [k|]; [|intros [= <- <-]; by split].
  destruct (read_buf k (typed s)) as [buf rest] eqn:Er. destruct (read_buf_app _ _ _ _ Er) as [Hb Hl].
  destruct buf as [|c buf]; intros [= <- <-]; (split; [|done]); unfold copied; cbn -[WRITE app].
  - cbn in Hb. by subst rest.
  - rewrite WRITE_whole by done. by rewrite <- app_assoc, Hb.
Qed.

(** The master's end is reported only when nothing is left, if [select] tells
    of bytes that are there. *)
Definition truthful (r : ready_set) : Prop := ∀ k, on_master r = Some k → 0 < k.

Lemma from_master_copied t0 p0 r s e s' :
  whole r → truthful r → copied t0 p0 s → from_master r s = (e, s') → copied t0 p0 s' ∧ (e = Some OutputEnd → printed s' = []).
Proof.
  intros (_ & Ho & Hsc) Ht (H1 & H2 & H3). unfold from_master. destruct (on_master r) as [k|] eqn:Ek; [|intros [= <- <-]; by split].
  destruct (read_buf k (printed s)) as [buf rest] eqn:Er. destruct (read_buf_app _ _ _ _ Er) as [Hb Hl].
  destruct buf as [|c buf]; intros [= <- <-]; unfold copied; cbn -[WRITE app].
  - cbn in Hb. subst rest. split; [done|]. intros _. unfold read_buf in Er. injection Er as Et _. specialize (Ht k Ek).
    destruct (printed s) as [|x xs]; [done|]. destruct (Z.to_nat (Z.min k BUF_SIZE)) eqn:En; [unfold BUF_SIZE in En; lia|done].
  - rewrite !WRITE_whole by done. by rewrite <- app_assoc, Hb, H3.
Qed.

Lemma from_sig_copied t0 p0 r s e s' : copied t0 p0 s → from_sig r s = (e, s') → copied t0 p0 s' ∧ e ≠ Some OutputEnd.
Proof.
  intros Hc. unfold from_sig. destruct (on_sig r) as [[n [z|]]|]; [case_decide..|]; intros [= <- <-]; (split; [exact Hc|done]).
Qed.

Lemma round_copied t0 p0 r s e s' :
  whole r → truthful r → copied t0 p0 s → round r s = (e, s') → copied t0 p0 s' ∧ (e = Some OutputEnd → printed s' = []).
Proof.
  intros Hw Ht Hc. unfold round. destruct (from_stdin r s) as [e1 s1] eqn:E1. destruct (from_stdin_copied _ _ _ _ _ _ Hw Hc E1) as [H1 N1].
  destruct e1 as [e1|]; [intros [= <- <-]; by split|].
  destruct (from_master r s1) as [e2 s2] eqn:E2. destruct (from_master_copied _ _ _ _ _ _ Hw Ht H1 E2) as [H2 N2].
  destruct e2 as [e2|]; [intros [= <- <-]; by split|]. intros E3. destruct (from_sig_copied _ _ _ _ _ _ H2 E3) as [H3 N3]. by split.
Qed.

Lemma script_copied t0 p0 rs s e s' :
  (∀ r, Some r ∈ rs → whole r ∧ truthful r) → copied t0 p0 s → script rs s = (e, s') →
  copied t0 p0 s' ∧ (e = Some OutputEnd → printed s' = []).
Proof.
  revert s. induction rs as [|[r|] rs IH]; intros s Hr Hc; cbn; [intros [= <- <-]; by split| |intros [= <- <-]; by split].
  destruct (round r s) as [e1 s1] eqn:E. destruct (Hr r) as [Hw Ht]; [by left|].
  destruct (round_copied _ _ _ _ _ _ Hw Ht Hc E) as [H1 N1]. destruct e1 as [e1|]; [intros [= <- <-]; by split|].
  apply IH; [|done]. intros r' Hr'. apply Hr. by right.
Qed.

(** C27: as long as writes accept what they are given, what was typed goes to the
    shell and what the shell printed goes to the screen and, the same, to the
    file, each in order and without a gap, whatever is ready in which round;
    when the program ends because the shell's output has ended, the file has
    all of it. *)
Theorem script_records typed0 printed0 rs e s :
  (∀ r, Some r ∈ rs → whole r ∧ truthful r) → script rs (session typed0 printed0) = (e, s) →
  to_master s ++ typed s = typed0 ∧ screen s ++ printed s = printed0 ∧ typescript s = screen s ∧
  (e = Some OutputEnd → typescript s = printed0).
Proof.
  intros Hr E. destruct (script_copied typed0 printed0 rs (session typed0 printed0) e s Hr ltac:(unfold copied; by split_and!) E) as ((H1 & H2 & H3) & N).
  split_and!; try done. intros He. rewrite (N He), app_nil_r in H2. congruence.
Qed.

Definition sample_round (i o : option Z) : ready_set := Ready i o None 256 256 256.

Definition sample_rounds : list (option ready_set) :=
  Some <$> [sample_round (Some 3) None; sample_round None (Some 2); sample_round (Some 1) (Some 9); sample_round None (Some 1)].
Definition sample_session : Session := session [108; 115; 13; 10] [97; 98; 99; 100].

Lemma script_records_witness :
  ∃ s, script sample_rounds sample_session = (Some OutputEnd, s) ∧ typescript s = [97; 98; 99; 100].
Proof.
  assert (script sample_rounds sample_session = (Some OutputEnd, (script sample_rounds sample_session).2)) as E by (vm_compute; reflexivity).
  exists (script sample_rounds sample_session).2. split; [exact E|]. refine (proj2 (proj2 (proj2 (script_records _ _ _ _ _ _ E))) eq_refl).
  intros r Hr. unfold sample_rounds in Hr. rewrite list_elem_of_fmap in Hr. destruct Hr as (r' & [= ->] & Hr').
  repeat (apply elem_of_cons in Hr' as [-> |Hr']; [split; [unfold whole; by split_and!|unfold truthful; cbn; by (intros k [= <-]) || done]|]). inversion Hr'.
Defined.

(** The signal of the shell's end interrupts [select], which is an error: what
    the shell had printed and was not yet read is lost. *)
Example interrupted_loses :
  script [Some (sample_round None (Some 2)); None] (session [] [97; 98; 99; 100])
  = (Some SelectError, MkSession [] [99; 100] [] [97; 98] [97; 98] []).
Proof. vm_compute. reflexivity. Qed.

(** A write that accepts less loses the rest: the file is not what the screen shows. *)
Example partial_write_differs :
  let s := (script [Some (Ready None (Some 4) None 256 256 1)] (session [] [97; 98; 99; 100])).2 in
  screen s = [97; 98; 99; 100] ∧ typescript s = [97].
Proof. vm_compute. split; reflexivity. Qed.

(** ** The terminal and the child *)

Lemma strncpy_fits dst src n :
  zlen dst = n → zlen src < n → strncpy dst src n = Ret (src ++ replicate (Z.to_nat n - length src) 0).
Proof.
  intros Hd Hs. unfold strncpy, store_n. rewrite decide_True by (rewrite length_app, length_replicate; lia).
  rewrite drop_ge by (rewrite length_app, length_replicate; lia). by rewrite app_nil_r.
Qed.

Lemma c_str_pad p k : Forall (λ c, c ≠ 0) p → (0 < k)%nat → c_str (p ++ replicate k 0) = p.
Proof.
  intros Hp Hk. induction Hp as [|c p Hc Hp IH]; cbn; [by destruct k|]. rewrite decide_False by done. by rewrite IH.
Qed.

(** The error of the first call that fails, or of a name that does not fit. *)
Definition open_error (a : pt_answers) : option Z :=
  match a_openpt a, a_grant a, a_unlock a, a_name a with
  | inl e, _, _, _ => Some e
  | _, Some e, _, _ => Some e
  | _, _, Some e, _ => Some e
  | _, _, _, inl e => Some e
  | _, _, _, inr p => if decide (MAX_SNAME ≤ zlen p) then Some EOVERFLOW else None
  end.

Definition fork_error (sn_len : Z) (a : pt_answers) (fork : Z + Z) : option Z :=
  match open_error a, a_name a, fork with
  | Some e, _, _ => Some e
  | None, inr p, inl e => Some (if decide (sn_len ≤ zlen p) then EOVERFLOW else e)
  | None, inr p, inr _ => if decide (sn_len ≤ zlen p) then Some EOVERFLOW else None
  | None, inl e, _ => Some e
  end.

(** The terminal is opened, and its name is in the buffer, followed by a zero, or
    it is not, and nothing is left open. *)
Lemma master_open_cases a e0 o :
  (∀ mfd, a_openpt a = inr mfd → 0 ≤ mfd ∧ mfd ∉ o) → (∀ p, a_name a = inr p → Forall (λ c, c ≠ 0) p) →
  match open_error a with
  | Some e => ∃ b, pty_master_open (replicate (Z.to_nat MAX_SNAME) 0) MAX_SNAME a e0 o = Ret (MkOpened (-1) e o, b)
  | None => ∃ mfd p b, pty_master_open (replicate (Z.to_nat MAX_SNAME) 0) MAX_SNAME a e0 o = Ret (MkOpened mfd e0 ({[mfd]} ∪ o), b) ∧
      a_openpt a = inr mfd ∧ a_name a = inr p ∧ c_str b = p ∧ zlen p < MAX_SNAME
  end.
Proof.
  intros Ho Hn. unfold open_error, pty_master_open. destruct (a_openpt a) as [e|mfd]; [by eexists|].
  destruct (Ho mfd eq_refl) as [H0 Hm]. assert (({[mfd]} ∪ o) ∖ {[mfd]} = o) as Ho' by set_solver.
  unfold fd_op_fail, too_long, close. cbn [fst snd]. rewrite Ho'.
  destruct (a_grant a) as [e|]; [by eexists|]. destruct (a_unlock a) as [e|]; [by eexists|]. destruct (a_name a) as [en|p] eqn:En; [by eexists|].
  destruct (decide (MAX_SNAME ≤ zlen p)) as [Hp|Hp]; [rewrite decide_False by lia; by eexists|]. rewrite decide_True by lia.
  rewrite strncpy_fits by (rewrite ?length_replicate; (done || lia)). cbind. eexists mfd, p, _. split_and!; try done; [|lia].
  apply c_str_pad; [by apply Hn|lia].
Qed.

(** C39: [pty_fork] in the parent, whatever its calls answer.  When every call
    succeeds and the name fits it returns the child, the master is open and no
    other descriptor, and the caller's buffer has the slave's name.  Otherwise it
    returns -1, no descriptor is left open, and [errno] is that of the first call
    that failed, or [EOVERFLOW] for a name that does not fit, whatever [close]
    makes of [errno]. *)
Theorem pty_fork_owns a fork buf sn_len e0 o :
  zlen buf = sn_len → 0 < sn_len ≤ MAX_SNAME →
  (∀ mfd, a_openpt a = inr mfd → 0 ≤ mfd ∧ mfd ∉ o) → (∀ p, a_name a = inr p → Forall (λ c, c ≠ 0) p) →
  match fork_error sn_len a fork with
  | Some e => ∃ b, pty_fork_parent (Some buf) sn_len a fork e0 o = Ret (MkOpened (-1) e o, None, Some b) ∧ zlen b = sn_len
  | None => ∃ mfd pid b, pty_fork_parent (Some buf) sn_len a fork e0 o = Ret (MkOpened pid e0 ({[mfd]} ∪ o), Some mfd, Some b) ∧
      a_openpt a = inr mfd ∧ fork = inr pid ∧ a_name a = inr (c_str b) ∧ zlen b = sn_len
  end.
Proof.
  intros Hb Hsn Ho Hn. unfold pty_fork_parent, fork_error. pose proof (master_open_cases a e0 o Ho Hn) as H.
  destruct (open_error a) as [e|]; [destruct H as (b & ->); cbind; rewrite decide_True by done; by exists buf|].
  destruct H as (mfd & p & b & -> & Hop & Hna & Hc & Hp). cbind. destruct (Ho mfd Hop) as [H0 Hm]. cbn [rc fds errno]. rewrite decide_False by lia.
  rewrite Hc, Hna. assert (({[mfd]} ∪ o) ∖ {[mfd]} = o) as Ho' by set_solver. unfold fd_op_fail, too_long, close. cbn [fst snd]. rewrite Ho'.
  destruct (decide (sn_len ≤ zlen p)) as [Hl|Hl]; [rewrite decide_False by lia; destruct fork; by exists buf|]. rewrite decide_True by lia.
  rewrite strncpy_fits by (try done; lia). cbind. set (b' := p ++ _).
  assert (zlen b' = sn_len) as Hb' by (unfold b'; rewrite length_app, length_replicate; lia).
  destruct fork as [e|pid]; [by exists b'|]. exists mfd, pid, b'. split_and!; try done.
  unfold b'. rewrite c_str_pad; [done|by apply Hn|lia].
Qed.

(** The kernel has no pseudo terminal left to unlock, and [close] fails too. *)
Definition sample_pt (unlock : option Z) : pt_answers := PtAnswers (inr 3) None unlock (inr [47; 112; 48]) (Some 9).

Lemma pty_fork_owns_witness :
  (∃ b, pty_fork_parent (Some (replicate 8 1)) 8 (sample_pt None) (inr 42) 0 {[0; 1; 2]} = Ret (MkOpened 42 0 ({[3]} ∪ {[0; 1; 2]}), Some 3, Some b) ∧
    c_str b = [47; 112; 48]) ∧
  ∃ b, pty_fork_parent (Some (replicate 8 1)) 8 (sample_pt (Some 22)) (inr 42) 0 {[0; 1; 2]} = Ret (MkOpened (-1) 22 {[0; 1; 2]}, None, Some b).
Proof.
  assert (∀ u mfd, a_openpt (sample_pt u) = inr mfd → 0 ≤ mfd ∧ mfd ∉ ({[0; 1; 2]} : gset Z)) as H1 by (intros u mfd [= <-]; split; [done|by_eval]).
  assert (∀ u p, a_name (sample_pt u) = inr p → Forall (λ c, c ≠ 0) p) as H2 by (intros u p [= <-]; by repeat constructor).
  split.
  - destruct (pty_fork_owns (sample_pt None) (inr 42) (replicate 8 1) 8 0 {[0; 1; 2]} eq_refl ltac:(by split) (H1 None) (H2 None))
      as (mfd & pid & b & E & Em & Ep & En & _). injection Em as <-. injection Ep as <-. injection En as En. by exists b.
  - destruct (pty_fork_owns (sample_pt (Some 22)) (inr 42) (replicate 8 1) 8 0 {[0; 1; 2]} eq_refl ltac:(by split) (H1 _) (H2 _)) as (b & E & _). by exists b.
Defined.

(** In the child, on the only path that returns, the three standard
    descriptors are the slave; the master is closed and no other descriptor
    of the slave is left, unless it has one of their numbers. *)
Theorem pty_child_stdio mfd t ws a tab tab' sfd :
  pty_fork_child mfd t ws a tab = Some tab' → a_slave a = Some sfd → 0 ≤ sfd →
  (∀ fd, tab !! fd ≠ Some Slave) → (∀ fd, tab !! fd = Some Master → fd = mfd) → sfd ∉ dom (delete mfd tab) →
  (∀ fd, tab' !! fd = Some Slave ↔ fd = 0 ∨ fd = 1 ∨ fd = 2) ∧
  (∀ fd, tab' !! fd ≠ Some Master) ∧
  (∀ fd, 2 < fd → fd ≠ mfd → tab' !! fd = tab !! fd).
Proof.
  unfold pty_fork_child. intros E Hs H0 Hsl Hma Hfr. rewrite Hs in E. repeat (case_match; [done|]).
  assert (∀ to (m : gmap Z file), m !! sfd = Some Slave → dup2 sfd to m = <[to := Slave]> m ∧ dup2 sfd to m !! sfd = Some Slave) as Hd.
  { intros to m Hm. unfold dup2. rewrite Hm. split; [done|]. by destruct (decide (to = sfd)) as [-> |]; [rewrite lookup_insert_eq|rewrite lookup_insert_ne]. }
  set (m0 := <[sfd := Slave]> (delete mfd tab)) in *.
  destruct (Hd STDIN_FILENO m0) as [E1 L1]; [by apply lookup_insert_eq|].
  destruct (Hd STDOUT_FILENO _ L1) as [E2 L2]. destruct (Hd STDERR_FILENO _ L2) as [E3 L3]. rewrite E3, E2, E1 in E.
  apply not_elem_of_dom in Hfr. clear E1 E2 E3 L1 L2 L3 Hd. unfold STDIN_FILENO, STDOUT_FILENO, STDERR_FILENO in E.
  assert (∀ fd, tab' !! fd = if decide (fd = 0 ∨ fd = 1 ∨ fd = 2) then Some Slave else if decide (fd = sfd) then None else delete mfd tab !! fd) as Hl.
  { intros fd. injection E as <-. destruct (decide (fd = 0 ∨ fd = 1 ∨ fd = 2)) as [Hfd|Hfd].
    - case_decide; [rewrite lookup_delete_ne by lia|];
        destruct Hfd as [-> |[-> | ->]]; repeat first [rewrite lookup_insert_eq; done | rewrite lookup_insert_ne by lia].
    - destruct (decide (2 < sfd)) as [Ha|Ha], (decide (fd = sfd)) as [Hb|Hb]; subst.
      + apply lookup_delete_eq.
      + rewrite lookup_delete_ne by done. unfold m0. by rewrite !lookup_insert_ne by naive_solver lia.
      + lia.
      + unfold m0. by rewrite !lookup_insert_ne by naive_solver lia. }
  clear E. split_and!.
  - intros fd. rewrite Hl. repeat case_decide; [done|naive_solver|]. split; [|naive_solver]. intros [_ Hx]%lookup_delete_Some. by destruct (Hsl fd).
  - intros fd. rewrite Hl. repeat case_decide; [done|done|]. intros [Hx Hy]%lookup_delete_Some. by apply Hx, eq_sym, Hma.
  - intros fd Ha Hm. rewrite Hl, decide_False by lia. rewrite lookup_delete_ne by done. case_decide as Hb; [|done]. subst.
    by rewrite lookup_delete_ne in Hfr.
Qed.

Definition sample_tab : gmap Z file := {[0 := Other 0; 1 := Other 0; 2 := Other 0; 3 := Master; 7 := Other 9]}.
Definition sample_child : child_answers := ChildAnswers true (Some 3) true true true (λ _, true).

Lemma pty_child_stdio_witness :
  ∃ tab, pty_fork_child 3 true true sample_child sample_tab = Some tab ∧ (∀ fd, tab !! fd = Some Slave ↔ fd = 0 ∨ fd = 1 ∨ fd = 2).
Proof.
  eexists. split; [reflexivity|]. eapply (pty_child_stdio 3 true true sample_child sample_tab _ 3); [reflexivity|reflexivity|lia| | |].
  - intros fd. unfold sample_tab. rewrite !lookup_insert_Some, lookup_singleton_Some. naive_solver.
  - intros fd. unfold sample_tab. rewrite !lookup_insert_Some, lookup_singleton_Some. naive_solver.
  - apply not_elem_of_dom. apply lookup_delete_eq.
Defined.
