(* ===== verification/Raii.v ===== *)
(** * raii.h and class/naive_function.cpp: deferred calls and functions in a buffer

    [sun::Defer] runs a closure at the end of a scope; moving exchanges the
    closures of two objects.  [naive_function] holds a callable object, in a
    buffer of its own if it is small and on the heap otherwise (module
    [Callable]).  Closures and callables are numbers; the objects of a program
    are the entries of a map, and using one that does not exist is [Undef]. *)
From Stdlib Require Import ZArith Lia.
From stdpp Require Import base tactics numbers list gmap sets.
From S2P Require Import Prelude.

Open Scope Z_scope.

(** ** [Defer] *)

(** [objs] are the closures of the objects there are; what has been run and what
    was cancelled are in order. *)
Record scope := MkScope { objs : gmap nat (option Z); ran : list Z; cancelled : list Z }.

Definition set_obj (o : nat) (c : option Z) (s : scope) : scope := MkScope (<[o := c]> (objs s)) (ran s) (cancelled s).
Definition run_closure (c : option Z) (s : scope) : scope :=
  match c with Some k => MkScope (objs s) (ran s ++ [k]) (cancelled s) | None => s end.

(** [closure_.swap(defer.closure_)] *)
Definition swap (a b : nat) (s : scope) : outcome scope :=
  match objs s !! a, objs s !! b with
  | Some c, Some d => Ret (set_obj b c (set_obj a d s))
  | _, _ => Undef
  end.

Definition Defer_new (o : nat) (c : option Z) (s : scope) : outcome scope :=
  match objs s !! o with None => Ret (set_obj o c s) | Some _ => Undef end.

(** [Defer(Defer&&)] assigns to the new object. *)
Definition Defer_assign (o from : nat) (s : scope) : outcome scope := swap o from s.
Definition Defer_move (o from : nat) (s : scope) : outcome scope := s ← Defer_new o None s; Defer_assign o from s.

Definition Defer_destroy (o : nat) (s : scope) : outcome scope :=
  match objs s !! o with
  | Some c => let s := run_closure c s in Ret (MkScope (delete o (objs s)) (ran s) (cancelled s))
  | None => Undef
  end.

Definition cancel (o : nat) (s : scope) : outcome scope :=
  match objs s !! o with
  | Some c =>
      let s := set_obj o None s in
      Ret (MkScope (objs s) (ran s) (match c with Some k => cancelled s ++ [k] | None => cancelled s end))
  | None => Undef
  end.

(** [trigger] and [operator()]: the closure runs and is then given up. *)
Definition trigger (o : nat) (s : scope) : outcome scope :=
  match objs s !! o with Some c => Ret (set_obj o None (run_closure c s)) | None => Undef end.

Inductive defer_op :=
| DNew (o : nat) (c : option Z) | DMove (o from : nat) | DAssign (o from : nat) | DSwap (o o' : nat)
| DCancel (o : nat) | DTrigger (o : nat) | DDestroy (o : nat).

Definition dstep (op : defer_op) (s : scope) : outcome scope :=
  match op with
  | DNew o c => Defer_new o c s
  | DMove o from => Defer_move o from s
  | DAssign o from => Defer_assign o from s
  | DSwap o o' => swap o o' s
  | DCancel o => cancel o s
  | DTrigger o => trigger o s
  | DDestroy o => Defer_destroy o s
  end.

Fixpoint drun (ops : list defer_op) (s : scope) : outcome scope :=
  match ops with [] => Ret s | op :: ops => s ← dstep op s; drun ops s end.

(** The closures handed to objects, and those objects have. *)
Definition given (op : defer_op) : list Z := match op with DNew _ (Some c) => [c] | _ => [] end.
Definition held (m : gmap nat (option Z)) : list Z := omap (λ p, p.2) (map_to_list m).

Lemma held_insert m o c : m !! o = None → held (<[o := c]> m) ≡ₚ option_list c ++ held m.
Proof. intros H. unfold held. rewrite map_to_list_insert by done. cbn. by destruct c. Qed.

Lemma held_lookup m o c : m !! o = Some c → held m ≡ₚ option_list c ++ held (delete o m).
Proof.
  intros H. rewrite <- (held_insert (delete o m)) by apply lookup_delete_eq. by rewrite insert_delete_id.
Qed.

Lemma held_update m o c d : m !! o = Some c → held (<[o := d]> m) ≡ₚ option_list d ++ held (delete o m).
Proof. intros H. rewrite <- held_insert by apply lookup_delete_eq. by rewrite insert_delete_eq. Qed.

Definition accounted (l : list Z) (s : scope) : Prop := l ≡ₚ ran s ++ cancelled s ++ held (objs s).

Lemma held_swap m a b c d :
  m !! a = Some c → m !! b = Some d → held (<[b := c]> (<[a := d]> m)) ≡ₚ held m.
Proof.
  intros Ha Hb. destruct (decide (a = b)) as [-> |Hn].
  - simplify_eq. rewrite insert_insert_eq, insert_id; done.
  - rewrite (held_update _ b d) by (by rewrite lookup_insert_ne). rewrite delete_insert_ne by done.
    rewrite (held_update _ a c) by (by rewrite lookup_delete_ne). rewrite (held_lookup m b d Hb), (held_lookup (delete b m) a c) by (by rewrite lookup_delete_ne).
    solve_Permutation.
Qed.

Lemma swap_accounted l a b s s' : accounted l s → swap a b s = Ret s' → accounted l s'.
Proof.
  unfold accounted, swap. destruct (objs s !! a) as [c|] eqn:Ha; [|done]. destruct (objs s !! b) as [d|] eqn:Hb; [|done].
  intros Hl [= <-]. cbn. by rewrite held_swap.
Qed.

Lemma dstep_accounted l op s s' : accounted l s → dstep op s = Ret s' → accounted (l ++ given op) s'.
Proof.
  intros Hl. destruct op as [o c|o f|o f|o f|o|o|o]; cbn [dstep given]; rewrite ?app_nil_r.
  - unfold Defer_new. destruct (objs s !! o) eqn:E; [done|]. intros [= <-]. unfold accounted in *. cbn. rewrite held_insert by done.
    destruct c; cbn; rewrite Hl, ?app_nil_r; solve_Permutation.
  - unfold Defer_move, Defer_new. destruct (objs s !! o) eqn:E; [done|]. cbind. apply swap_accounted. unfold accounted in *. cbn.
    by rewrite held_insert.
  - apply swap_accounted, Hl.
  - apply swap_accounted, Hl.
  - unfold cancel. destruct (objs s !! o) as [c|] eqn:E; [|done]. intros [= <-]. unfold accounted in *. cbn.
    rewrite (held_update _ o c) by done. rewrite Hl, (held_lookup _ o c E). destruct c; cbn; solve_Permutation.
  - unfold trigger. destruct (objs s !! o) as [c|] eqn:E; [|done]. intros [= <-]. unfold accounted in *.
    destruct c as [k|]; cbn; rewrite (held_update _ o _) by done; rewrite Hl, (held_lookup _ o _ E); cbn; solve_Permutation.
  - unfold Defer_destroy. destruct (objs s !! o) as [c|] eqn:E; [|done]. intros [= <-]. unfold accounted in *.
    rewrite Hl, (held_lookup _ o _ E). destruct c as [k|]; cbn; solve_Permutation.
Qed.

Lemma drun_accounted l ops s s' : accounted l s → drun ops s = Ret s' → accounted (l ++ (ops ≫= given)) s'.
Proof.
  revert l s. induction ops as [|op ops IH]; intros l s Hl; cbn; [intros [= <-]; by rewrite app_nil_r|].
  destruct (dstep op s) as [s1| |] eqn:E; cbind; [|done|done]. intros E'. rewrite app_assoc. eapply IH; [|done]. by eapply dstep_accounted.
Qed.

(** However closures are moved, swapped, cancelled and triggered, each one
    handed to a [Defer] is accounted for once: it was run, or it was cancelled,
    or an object has it; so when all objects are destroyed every closure that
    was not cancelled has been run, exactly once. *)
Theorem defer_runs_once ops s :
  drun ops (MkScope ∅ [] []) = Ret s →
  ops ≫= given ≡ₚ ran s ++ cancelled s ++ held (objs s) ∧
  (objs s = ∅ → ops ≫= given ≡ₚ ran s ++ cancelled s) ∧
  (NoDup (ops ≫= given) → NoDup (ran s) ∧ ∀ c, c ∈ ran s → c ∉ cancelled s).
Proof.
  intros E. pose proof (drun_accounted [] ops (MkScope ∅ [] []) s (Permutation_refl []) E) as H. unfold accounted in H. cbn in H. split_and!.
  - done.
  - intros Hn. rewrite Hn in H. by rewrite H, app_nil_r.
  - rewrite H. intros (Hr & Hd & _)%NoDup_app. split; [done|]. intros c Hc Hx. apply (Hd c Hc), elem_of_app. by left.
Qed.

Definition sample_defer : list defer_op :=
  [DNew 0 (Some 7); DNew 1 (Some 8); DAssign 0 1; DMove 2 0; DTrigger 2; DNew 3 (Some 9); DCancel 3; DDestroy 0; DDestroy 1; DDestroy 2; DDestroy 3].

Lemma defer_runs_once_witness :
  ∃ s, drun sample_defer (MkScope ∅ [] []) = Ret s ∧ ran s = [8; 7] ∧ cancelled s = [9] ∧ [7; 8; 9] ≡ₚ ran s ++ cancelled s.
Proof.
  destruct (drun sample_defer (MkScope ∅ [] [])) as [s| |] eqn:E; [|by vm_compute in E..]. exists s. split; [done|].
  assert (ran s = [8; 7] ∧ cancelled s = [9] ∧ objs s = ∅) as (H1 & H2 & H3) by (vm_compute in E; by injection E as <-).
  split; [done|]. split; [done|]. by apply (defer_runs_once sample_defer s E).
Defined.

(** ** [naive_function] *)
Module Callable.

Definition BUFFER : Z := 16.

(** Where the callable is. *)
Inductive place := Null | InBuffer (c : Z) | OnHeap (p : nat) (c : Z).

(** [heap] are the blocks that are allocated, [fresh] the next one; [destroyed]
    are the callables whose destructors have run. *)
Record world := MkWorld { callable_ : place; heap : gset nat; fresh : nat; destroyed : list Z }.

Definition naive_function_new (h : gset nat) (n : nat) : world := MkWorld Null h n [].

(** [release_]: only what is on the heap is deleted. *)
Definition release_ (w : world) : outcome world :=
  match callable_ w with
  | OnHeap p c => if decide (p ∈ heap w) then Ret (MkWorld (callable_ w) (heap w ∖ {[p]}) (fresh w) (destroyed w ++ [c])) else Undef
  | _ => Ret w
  end.

(** [operator=]; [size] is that of the object with its table of functions. *)
Definition assign (c size : Z) (w : world) : outcome world :=
  w ← release_ w;
  if decide (size ≤ BUFFER) then Ret (MkWorld (InBuffer c) (heap w) (fresh w) (destroyed w))
  else Ret (MkWorld (OnHeap (fresh w) c) ({[fresh w]} ∪ heap w) (S (fresh w)) (destroyed w)).

(** [operator()]: the callable that is called; without one the assertion fails. *)
Definition invoke (w : world) : outcome Z :=
  match callable_ w with InBuffer c | OnHeap _ c => Ret c | Null => Undef end.

Definition destroy (w : world) : outcome world := release_ w.

Fixpoint assigns (l : list (Z * Z)) (w : world) : outcome world :=
  match l with [] => Ret w | (c, size) :: l => w ← assign c size w; assigns l w end.

(** The callable the next deletion destroys. *)
Definition dead (p : place) : list Z := match p with OnHeap _ c => [c] | _ => [] end.

(** The blocks of others are left alone, and the object's own is allocated. *)
Definition owns (h : gset nat) (w : world) : Prop :=
  (∀ p, p ∈ h → (p < fresh w)%nat) ∧
  match callable_ w with
  | OnHeap p _ => ¬ (p ∈ h) ∧ (p < fresh w)%nat ∧ heap w = {[p]} ∪ h
  | _ => heap w = h
  end.

Lemma release_owns h w :
  owns h w → ∃ d, release_ w = Ret (MkWorld (callable_ w) h (fresh w) (destroyed w ++ d)) ∧
    d = dead (callable_ w).
Proof.
  intros [Hf Hw]. destruct w as [[|c|p c] hp n d]; cbn in *.
  - subst. exists []. by rewrite app_nil_r.
  - subst. exists []. by rewrite app_nil_r.
  - destruct Hw as (Hp & Hn & ->). unfold release_. cbn. rewrite decide_True by set_solver. exists [c]. split; [|done]. do 2 f_equal. set_solver.
Qed.

Lemma assign_owns h c size w :
  owns h w → ∃ w', assign c size w = Ret w' ∧ owns h w' ∧ invoke w' = Ret c ∧
    destroyed w' = destroyed w ++ dead (callable_ w) ∧
    callable_ w' = (if decide (size ≤ BUFFER) then InBuffer c else OnHeap (fresh w) c).
Proof.
  intros Hw. destruct (release_owns h w Hw) as (d & E & Hd). unfold assign. rewrite E. cbind. cbn [fresh heap destroyed].
  destruct Hw as [Hf _]. case_decide; eexists; (split; [reflexivity|]); cbn; rewrite Hd; split_and!; try done.
  split; cbn; [intros p Hp; specialize (Hf p Hp); lia|]. split_and!; [intros Hx; specialize (Hf _ Hx); lia|lia|done].
Qed.

(** What is destroyed: the big callables that another one has replaced. *)
Fixpoint replaced (l : list (Z * Z)) : list Z :=
  match l with
  | (c, size) :: ((_ :: _) as l) => (if decide (size ≤ BUFFER) then [] else [c]) ++ replaced l
  | _ => []
  end.

Lemma assigns_owns h l c size w :
  owns h w → ∃ w', assigns (l ++ [(c, size)]) w = Ret w' ∧ owns h w' ∧ invoke w' = Ret c ∧
    destroyed w' = destroyed w ++ dead (callable_ w) ++ replaced (l ++ [(c, size)]) ∧
    dead (callable_ w') = if decide (size ≤ BUFFER) then [] else [c].
Proof.
  revert w. induction l as [|[c1 s1] l IH]; intros w Hw; cbn [app assigns].
  - destruct (assign_owns h c size w Hw) as (w' & -> & Ho & Hi & Hd & Hc). cbind. exists w'. split; [done|]. rewrite Hd, Hc.
    split_and!; try done; [cbn; by rewrite app_nil_r|by case_decide].
  - destruct (assign_owns h c1 s1 w Hw) as (w1 & -> & Ho1 & _ & Hd1 & Hc1). cbind.
    destruct (IH w1 Ho1) as (w' & -> & Ho & Hi & Hd & Hc). exists w'. split_and!; try done. rewrite Hd, Hd1, Hc1.
    assert (∃ y ys, l ++ [(c, size)] = y :: ys) as (y & ys & El) by (destruct l; cbn; eauto). rewrite El.
    change (replaced ((c1, s1) :: y :: ys)) with ((if decide (s1 ≤ BUFFER) then [] else [c1]) ++ replaced (y :: ys)).
    rewrite <- !app_assoc. by destruct (decide (s1 ≤ BUFFER)).
Qed.

(** After any assignments the call goes to the callable assigned last;
    whatever their sizes, every block on the heap is freed exactly once, the last
    one by the destructor, which leaves the heap as it was.  Only callables on
    the heap are destroyed: those in the buffer never are. *)
Theorem naive_function_heap h n l c size :
  (∀ p, p ∈ h → (p < n)%nat) →
  ∃ w w', assigns (l ++ [(c, size)]) (naive_function_new h n) = Ret w ∧ invoke w = Ret c ∧ destroy w = Ret w' ∧ heap w' = h ∧
    destroyed w' = replaced (l ++ [(c, size)]) ++ (if decide (size ≤ BUFFER) then [] else [c]).
Proof.
  intros Hn. destruct (assigns_owns h l c size (naive_function_new h n)) as (w & E & Ho & Hi & Hd & Hc); [by split|].
  destruct (release_owns h w Ho) as (d & Er & Hx). eexists w, _. split; [done|]. split; [done|]. unfold destroy. rewrite Er.
  split; [reflexivity|]. cbn. split; [done|]. rewrite Hd, Hx. by rewrite Hc.
Qed.

Lemma naive_function_heap_witness :
  ∃ w w', assigns [(1, 16); (2, 40); (3, 24); (4, 16)] (naive_function_new {[0%nat]} 1) = Ret w ∧ destroy w = Ret w' ∧ heap w' = {[0%nat]} ∧
    destroyed w' = [2; 3].
Proof.
  destruct (naive_function_heap {[0%nat]} 1 [(1, 16); (2, 40); (3, 24)] 4 16) as (w & w' & E & _ & Ed & Eh & Ex).
  { intros p ->%elem_of_singleton. lia. }
  exists w, w'. split_and!; try done.
Defined.

End Callable.
