(* ===== verification/Text.v ===== *)
(** * trivial/StringToVector.cpp, string/dump_strings.c and class/override-operator.cpp: texts

    [stringToVector] cuts a string at its spaces, in place; [dump_strings]
    prints strings into a buffer; the header of a log message names its file
    without the directory.  Texts in memory are the bytes of their objects; the
    strings of the last part, which are only read, are lists of characters. *)
From Stdlib Require Import ZArith Lia String.
From stdpp Require Import base tactics numbers list.
From S2P Require Import Prelude.
From S2P Require Import WeightCodec.
From S2P Require Import BinText.

Open Scope Z_scope.

(** ** [stringToVector] *)
Definition SPACE : Z := 32.

(** The loop: [s] is null or an index.  The fuel is the number of rounds. *)
Fixpoint split_loop (fuel : nat) (m : list Z) (s : option Z) : outcome (list Z * list Z) :=
  match s with
  | None => Ret ([], m)
  | Some i =>
      match fuel with
      | O => NoFuel
      | S fuel =>
          r ← strchr m i SPACE;
          match r with
          | Some j => m ← store m j 0; '(ps, m) ← split_loop fuel m (Some (j + 1)); Ret (i :: ps, m)
          | None => '(ps, m) ← split_loop fuel m None; Ret (i :: ps, m)
          end
      end
  end.

(** The pointers, the last of them null, and the string as it is left. *)
Definition stringToVector (m : list Z) : outcome (list (option Z) * list Z) :=
  '(ps, m) ← split_loop (S (length m)) m (Some 0); Ret ((Some <$> ps) ++ [None], m).

(** The words of a text, between single spaces. *)
Fixpoint fields (t : list Z) : list (list Z) :=
  match t with
  | [] => [[]]
  | c :: t =>
      match fields t with
      | f :: fs => if decide (c = SPACE) then [] :: f :: fs else (c :: f) :: fs
      | [] => [[c]]
      end
  end.

Fixpoint join_with (c : Z) (fs : list (list Z)) : list Z :=
  match fs with
  | [] => []
  | [f] => f
  | f :: fs => f ++ c :: join_with c fs
  end.

Definition word (f : list Z) : Prop := ¬ (SPACE ∈ f) ∧ Forall (λ c, c ≠ 0) f.

Lemma join_with_cons c f g fs : join_with c (f :: g :: fs) = f ++ c :: join_with c (g :: fs).
Proof. done. Qed.

Lemma fields_spec t : Forall (λ c, c ≠ 0) t →
  ∃ f fs, fields t = f :: fs ∧ join_with SPACE (f :: fs) = t ∧ Forall word (f :: fs).
Proof.
  induction 1 as [|c t Hc Ht IH]; [exists [], []; split_and!; [done|done|]; constructor; [|constructor]; split; [apply not_elem_of_nil|constructor]|].
  destruct IH as (f & fs & E & Hj & Hf). cbn [fields]. rewrite E. apply Forall_cons in Hf as [[Hf1 Hf2] Hfs]. case_decide as Hsp.
  - exists [], (f :: fs). subst c. split_and!; [done|by rewrite join_with_cons, Hj|].
    repeat (constructor; [split; (apply not_elem_of_nil || done || constructor)|]). done.
  - exists (c :: f), fs. split_and!; [done| |].
    + destruct fs as [|g fs]; cbn in *; congruence.
    + constructor; [|done]. split; [|by constructor]. apply not_elem_of_cons. split; congruence.
Qed.

(** Where the words begin. *)
Fixpoint starts (i : Z) (fs : list (list Z)) : list Z :=
  match fs with [] => [] | f :: fs => i :: starts (i + zlen f + 1) fs end.

Lemma split_loop_spec a f fs rest fuel :
  Forall word (f :: fs) → (length fs < fuel)%nat →
  split_loop fuel (a ++ join_with SPACE (f :: fs) ++ 0 :: rest) (Some (zlen a))
  = Ret (starts (zlen a) (f :: fs), a ++ join_with 0 (f :: fs) ++ 0 :: rest).
Proof.
  revert a f fuel. induction fs as [|g fs IH]; intros a f fuel [[Hf1 Hf2] Hfs]%Forall_cons Hl; destruct fuel as [|fuel]; try lia; cbn [split_loop].
  - cbn [join_with]. rewrite strchr_none by done. cbind. by destruct fuel.
  - rewrite !join_with_cons. rewrite <- app_assoc. cbn [app]. rewrite strchr_found by done. cbind.
    rewrite (app_assoc a f), store_app by len. cbind.
    replace ((a ++ f) ++ 0 :: join_with SPACE (g :: fs) ++ 0 :: rest) with ((a ++ f ++ [0]) ++ join_with SPACE (g :: fs) ++ 0 :: rest)
      by (by rewrite <- !app_assoc).
    change (starts (zlen a) (f :: g :: fs)) with (zlen a :: starts (zlen a + zlen f + 1) (g :: fs)).
    replace (zlen a + zlen f + 1) with (zlen (a ++ f ++ [0])) by len.
    rewrite IH; [|done|cbn in Hl; lia]. cbind. by rewrite <- !app_assoc.
Qed.

(** The string at an index. *)
Definition string_at (m : list Z) (i : Z) : outcome (list Z) := n ← strlen m i; load_n m i n.

Lemma starts_read a f fs rest :
  Forall word (f :: fs) →
  string_at (a ++ join_with 0 (f :: fs) ++ 0 :: rest) <$> starts (zlen a) (f :: fs) = Ret <$> f :: fs.
Proof.
  revert a f. induction fs as [|g fs IH]; intros a f [[_ Hf] Hfs]%Forall_cons.
  - cbn. f_equal. unfold string_at. rewrite strlen_app by done. cbind. by apply load_n_app.
  - rewrite join_with_cons, <- app_assoc. cbn [app].
    change (starts (zlen a) (f :: g :: fs)) with (zlen a :: starts (zlen a + zlen f + 1) (g :: fs)). rewrite !fmap_cons. f_equal.
    + unfold string_at. rewrite strlen_app by done. cbind. by apply load_n_app.
    + replace (a ++ f ++ 0 :: join_with 0 (g :: fs) ++ 0 :: rest) with ((a ++ f ++ [0]) ++ join_with 0 (g :: fs) ++ 0 :: rest)
        by (by rewrite <- !app_assoc).
      replace (zlen a + zlen f + 1) with (zlen (a ++ f ++ [0])) by len. by apply IH.
Qed.

(** The pointers of the vector are the words of the text, in order, up to a
    null pointer: read in the string as it is left, each is a word; put together
    with spaces they are the text; and only the spaces were overwritten. *)
Theorem stringToVector_words t rest :
  Forall (λ c, c ≠ 0) t →
  ∃ ps m, stringToVector (t ++ 0 :: rest) = Ret ((Some <$> ps) ++ [None], m) ∧
    string_at m <$> ps = Ret <$> fields t ∧ join_with SPACE (fields t) = t ∧ m = join_with 0 (fields t) ++ 0 :: rest ∧ length m = length (t ++ 0 :: rest).
Proof.
  intros Ht. destruct (fields_spec t Ht) as (f & fs & E & Hj & Hf). rewrite E.
  assert (∀ c fs f, (length fs ≤ length (join_with c (f :: fs)))%nat) as Hl.
  { intros c fs'. induction fs' as [|g fs' IH]; intros f'; [cbn; lia|]. rewrite join_with_cons, length_app. cbn [length]. specialize (IH g). lia. }
  assert (∀ c c' fs, length (join_with c fs) = length (join_with c' fs)) as Hs.
  { intros c c' fs'. induction fs' as [|g [|g' fs'] IH]; [done|done|]. rewrite !join_with_cons, !length_app. cbn [length] in *. by rewrite IH. }
  exists (starts 0 (f :: fs)), (join_with 0 (f :: fs) ++ 0 :: rest). split_and!; [|by apply (starts_read [])|done|done|].
  - unfold stringToVector. rewrite <- Hj at 1 2. rewrite (split_loop_spec [] f fs rest); [done|done|].
    rewrite length_app. cbn [length]. specialize (Hl SPACE fs f). lia.
  - rewrite !length_app. by rewrite (Hs 0 SPACE), Hj.
Qed.

Lemma stringToVector_words_witness :
  ∃ ps m, stringToVector ([97; 32; 98; 32; 32; 99] ++ [0]) = Ret ((Some <$> ps) ++ [None], m) ∧
    string_at m <$> ps = [Ret [97]; Ret [98]; Ret []; Ret [99]].
Proof.
  destruct (stringToVector_words [97; 32; 98; 32; 32; 99] []) as (ps & m & E & Hs & _).
  { repeat constructor; lia. }
  exists ps, m. by split.
Defined.

(** ** [dump_strings] *)
Definition DUMP_SIZE : Z := 512.

Definition quoted (a : list Z) : list Z := 34 :: a ++ [34; 44].

Fixpoint dump_loop (args : list (list Z)) (p : Z) (buf : list Z) : outcome (list Z) :=
  match args with
  | [] => Ret buf
  | a :: args =>
      if decide (DUMP_SIZE ≤ p) then Ret buf
      else '(p, buf) ← sprintf buf p (quoted a); dump_loop args p buf
  end.

Definition ARGS : list Z := [97; 114; 103; 115; 58].

(** [buf] is the static buffer with what it holds. *)
Definition dump_strings (args : list (list Z)) (buf : list Z) : outcome (list Z) :=
  '(p, buf) ← sprintf buf 0 ARGS; dump_loop args p buf.

Definition dumped (args : list (list Z)) : list Z := args ≫= quoted.

Lemma sprintf_over dn r s : zlen r ≤ zlen s → sprintf (dn ++ r) (zlen dn) s = Undef.
Proof.
  intros Hs. unfold sprintf, store_n. rewrite decide_False; [done|]. rewrite !length_app. cbn [length]. lia.
Qed.

Lemma dump_loop_spec args dn r :
  zlen (dn ++ 0 :: r) = DUMP_SIZE →
  dump_loop args (zlen dn) (dn ++ 0 :: r) =
    if decide (zlen (dumped args) ≤ zlen r)
    then Ret (dn ++ dumped args ++ 0 :: drop (length (dumped args)) r) else Undef.
Proof.
  revert dn r. induction args as [|a args IH]; intros dn r Hl; cbn [dump_loop].
  - rewrite decide_True by (cbn; lia). cbn. by rewrite drop_0.
  - rewrite length_app in Hl. cbn [length] in Hl. rewrite decide_False by lia.
    change (dumped (a :: args)) with (quoted a ++ dumped args).
    destruct (decide (zlen (quoted a) ≤ zlen r)) as [Hq|Hq].
    + rewrite sprintf_fits by (cbn [length]; lia). cbind. cbn [drop].
      rewrite IH by (rewrite !length_app; cbn [length]; rewrite length_drop; lia).
      rewrite length_drop, length_app. destruct (decide (zlen (dumped args) ≤ Z.of_nat (length r - length (quoted a)))).
      * rewrite decide_True by lia. by rewrite <- !app_assoc, drop_drop.
      * by rewrite decide_False by lia.
    + rewrite sprintf_over by (cbn [length]; lia). cbind. rewrite decide_False; [done|]. rewrite length_app. lia.
Qed.

(** C40: the strings are printed one after the other, each in quotes and with a
    comma, when the text with its terminator fits the buffer; when it does not,
    the buffer is overrun, since the test of the loop comes too late to stop it. *)
Theorem dump_strings_fits args buf :
  zlen buf = DUMP_SIZE → Forall (Forall (λ c, c ≠ 0)) args →
  if decide (zlen (ARGS ++ dumped args) < DUMP_SIZE)
  then ∃ m, dump_strings args buf = Ret m ∧ string_at m 0 = Ret (ARGS ++ dumped args)
  else dump_strings args buf = Undef.
Proof.
  intros Hb Ha. unfold dump_strings. change (sprintf buf 0 ARGS) with (sprintf ([] ++ buf) (zlen (@nil Z)) ARGS).
  rewrite sprintf_fits by (unfold DUMP_SIZE in Hb; cbn; lia). cbind.
  cbn [app]. rewrite dump_loop_spec by (rewrite length_app; cbn [length]; rewrite length_drop; unfold DUMP_SIZE in *; cbn; lia).
  rewrite length_drop, length_app. unfold DUMP_SIZE in *. change (length ARGS) with 5%nat.
  destruct (decide (Z.of_nat (5 + length (dumped args)) < 512)) as [H|H].
  - rewrite decide_True by lia. eexists. split; [reflexivity|]. unfold string_at. rewrite app_assoc.
    assert (Forall (λ c, c ≠ 0) (ARGS ++ dumped args)) as Hz.
    { apply Forall_app. split; [by repeat constructor|]. unfold dumped. apply Forall_bind. eapply Forall_impl; [exact Ha|]. intros a Hx. unfold quoted.
      constructor; [done|]. apply Forall_app. split; [done|]. by repeat constructor. }
    rewrite (strlen_cstr (ARGS ++ dumped args)) by done. cbind. by apply (load_n_app []).
  - by rewrite decide_False by lia.
Qed.

Lemma dump_strings_fits_witness :
  ∃ m, dump_strings [[97; 98]; []; [99]] (replicate 512 0) = Ret m ∧ string_at m 0 = Ret (ARGS ++ [34; 97; 98; 34; 44; 34; 34; 44; 34; 99; 34; 44]).
Proof. apply (dump_strings_fits [[97; 98]; []; [99]] (replicate 512 0)); [done|by repeat constructor]. Defined.

(** ** The header of a log message *)
Definition LOG_INFO : Z := 0.
Definition LOG_WARNING : Z := 1.
Definition LOG_ERROR : Z := 2.
Definition LOG_FATAL : Z := 3.

Definition GetNameForLogSeverity (severity : Z) : list Z :=
  if decide (severity = LOG_INFO) then bytes_of "INFO"
  else if decide (severity = LOG_WARNING) then bytes_of "WARNING"
  else if decide (severity = LOG_ERROR) then bytes_of "ERROR"
  else if decide (severity = LOG_FATAL) then bytes_of "FATAL"
  else bytes_of "UNKNOWN".

(** [strncmp(p, "../", 3) == 0] on a string. *)
Fixpoint StripDots (p : list Z) : list Z :=
  match p with
  | 46 :: 46 :: 47 :: p' => StripDots p'
  | _ => p
  end.

(** [strrchr(p, '/')]: the index of the last one. *)
Fixpoint strrchr (p : list Z) (c : Z) : option nat :=
  match p with
  | [] => None
  | x :: p => match strrchr p c with Some i => Some (S i) | None => if decide (x = c) then Some 0%nat else None end
  end.

Definition StripPath (p : list Z) : list Z :=
  match strrchr p 47 with Some i => drop (S i) p | None => p end.

(** The constructor: what it prints, and whether it aborts.  A string that is
    null is [None]; negating the least [int] is undefined. *)
Definition LogMessage_new (severity : Z) (file : list Z) (line : Z) (condition : option (list Z)) : outcome (list Z * bool) :=
  name ← (if decide (LOG_INFO ≤ severity) then Ret (GetNameForLogSeverity severity)
          else v ← int_result (- severity); Ret (bytes_of "VERBOSE" ++ fmt_d v));
  let where_ := if decide (LOG_INFO < severity) then StripDots file else StripPath file in
  let check := match condition with Some c => bytes_of "Check failed: " ++ c ++ bytes_of ". " | None => [] end in
  Ret (bytes_of "[" ++ name ++ bytes_of ":" ++ where_ ++ bytes_of "(" ++ fmt_d line ++ bytes_of ")]" ++ check, bool_decide (LOG_FATAL ≤ severity)).

(** The object's life with what is streamed into it: what has been printed and
    what the stream holds in the end.  The destructor ends the line in the
    stream, which is not printed any more; [None] is an abort. *)
Definition LogMessage_life (severity : Z) (file : list Z) (line : Z) (condition : option (list Z)) (streamed : list Z) : outcome (list Z * option (list Z)) :=
  '(out, aborts) ← LogMessage_new severity file line condition;
  Ret (out, if (aborts : bool) then None else Some (out ++ streamed ++ [10])).

(** [StripDots] takes away exactly the steps upwards at the beginning of a
    path, [StripPath] everything up to the last slash. *)
Theorem strip_paths p :
  (∃ k, p = List.concat (replicate k [46; 46; 47]) ++ StripDots p ∧ ∀ q, StripDots p ≠ [46; 46; 47] ++ q) ∧
  (∃ d, p = d ++ StripPath p ∧ (d = [] ∨ ∃ d', d = d' ++ [47]) ∧ ¬ 47 ∈ StripPath p).
Proof.
  split.
  - assert (∀ n p, (length p < n)%nat → ∃ k, p = List.concat (replicate k [46; 46; 47]) ++ StripDots p ∧ ∀ q, StripDots p ≠ [46; 46; 47] ++ q) as H; [|apply (H (S (length p)) p); lia].
    clear p. intros n. induction n as [|n IH]; intros p Hp; [lia|].
    destruct (decide (take 3 p = [46; 46; 47])) as [E|E].
    + destruct p as [|a [|b [|c p]]]; try done. cbn in E. simplify_eq. destruct (IH p) as (k & H1 & H2); [cbn in Hp; lia|].
      exists (S k). split; [|done]. cbn. by rewrite <- H1.
    + exists 0%nat. assert (StripDots p = p) as ->.
      { destruct p as [|a [|b [|c p]]]; [done| | |]; cbn in E |- *; repeat (case_match; try done). }
      split; [done|]. intros q ->. done.
  - unfold StripPath. assert (match strrchr p 47 with
      | Some i => p !! i = Some 47 ∧ ¬ 47 ∈ drop (S i) p
      | None => ¬ 47 ∈ p end) as H.
    { induction p as [|x p IH]; cbn; [apply not_elem_of_nil|]. destruct (strrchr p 47) as [i|]; [done|].
      case_decide; [split; [by subst|by rewrite drop_0]|]. apply not_elem_of_cons. split; congruence. }
    destruct (strrchr p 47) as [i|].
    + destruct H as [Hi Hn]. exists (take (S i) p). rewrite take_drop. split; [done|]. split; [|done]. right. exists (take i p).
      by apply take_S_r.
    + exists []. split; [done|]. split; [by left|done].
Qed.

(** What is streamed into a message is not printed. *)
Lemma streamed_lost severity file line condition streamed out s :
  LogMessage_life severity file line condition streamed = Ret (out, s) → ∃ ab, LogMessage_new severity file line condition = Ret (out, ab).
Proof. unfold LogMessage_life. destruct (LogMessage_new _ _ _ _) as [[o ab]| |]; cbind; [|done|done]. intros [= <- _]. eauto. Qed.

Example header_text :
  fst <$> LogMessage_new LOG_ERROR (bytes_of "../../a/b.cc") 12 (Some (bytes_of "x"))
  = Ret (bytes_of "[ERROR:a/b.cc(12)]Check failed: x. ").
Proof. reflexivity. Qed.
