(* ===== verification/Functional.v ===== *)
(** * functional/*.cpp and feature/cpp17-fold-expression.cpp: functions of functions

    A function of several arguments is a function of their list, with its
    number of arguments; what a template does at compile time, such as testing
    whether a call is possible, is a test here.  Fold expressions are folds,
    evaluated in the order the language gives. *)
From Stdlib Require Import ZArith Lia.
From stdpp Require Import base tactics numbers list.
From S2P Require Import Prelude.

Open Scope Z_scope.

(** ** [sun::for_each] and [compose] *)
Section compose.
Context {A B : Type}.

(** The elements are visited from the last to the first, each with its index:
    [I] runs up, and the element is that of [N-I-1]. *)
Definition for_each {T R} (t : list T) (op : T → nat → R → R) (s : R) : R :=
  foldl (λ s I, match t !! (length t - I - 1)%nat with Some x => op x (length t - I - 1)%nat s | None => s end) s (seq 0 (length t)).

(** The last operation takes the arguments, the others a result. *)
Inductive Op := Last (f : B → A) | Inner (f : A → A).

(** [compose(ops...)(args)]: [res] begins with the default value [d]. *)
Definition compose (d : A) (inner : list (A → A)) (last : B → A) (args : B) : A :=
  let ops := (Inner <$> inner) ++ [Last last] in
  for_each ops (λ op i res,
    if decide (i = length ops - 1)%nat then match op with Last f => f args | Inner _ => res end
    else match op with Inner f => f res | Last _ => res end) d.

End compose.
Arguments Op : clear implicits.

(** [operator|]: two operations, of which the right one takes the arguments. *)
Definition pipe {A B} (d : A) (l : A → A) (r : B → A) : B → A := compose d [l] r.

Lemma for_each_snoc {T R} (t : list T) (x : T) (op : T → nat → R → R) s :
  for_each (t ++ [x]) op s = for_each t op (op x (length t) s).
Proof.
  unfold for_each. rewrite length_app. cbn [length]. rewrite Nat.add_1_r. cbn [seq foldl].
  replace (S (length t) - 0 - 1)%nat with (length t) by lia. rewrite list_lookup_middle by done.
  rewrite <- seq_shift, foldl_fmap. generalize (op x (length t) s). clear s. intros s.
  assert (∀ l s, Forall (λ I, I < length t)%nat l →
    foldl (λ (b : R) (a : nat), match (t ++ [x]) !! (S (length t) - S a - 1)%nat with Some x0 => op x0 (S (length t) - S a - 1)%nat b | None => b end) s l =
    foldl (λ (s : R) (I : nat), match t !! (length t - I - 1)%nat with Some x0 => op x0 (length t - I - 1)%nat s | None => s end) s l) as H.
  { clear s. intros l. induction l as [|I l IH]; intros s Hl; [done|]. apply Forall_cons in Hl as [HI Hl]. cbn [foldl].
    replace (S (length t) - S I - 1)%nat with (length t - I - 1)%nat by lia. rewrite lookup_app_l by lia. by apply IH. }
  apply H. apply Forall_forall. intros I HI%elem_of_seq. lia.
Qed.

Lemma for_each_inner {A B} (l : list (A → A)) (n : nat) (args : B) s :
  (length l ≤ n)%nat →
  for_each (Inner <$> l : list (Op A B)) (λ op i res,
    if decide (i = n) then match op with Last f => f args | Inner _ => res end
    else match op with Inner f => f res | Last _ => res end) s = foldr (λ f x, f x) s l.
Proof.
  revert s. induction l as [|f l IH] using rev_ind; intros s Hl; [done|]. rewrite length_app in Hl. cbn [length] in Hl.
  rewrite fmap_app. cbn [fmap list_fmap]. rewrite for_each_snoc, length_fmap, decide_False by lia. rewrite IH by lia.
  by rewrite foldr_app.
Qed.

(** [compose(f1, ..., fn)] applies the last function to the arguments and
    then the others from right to left; so [f | g] is [f] after [g], and [|] is
    associative. *)
Theorem compose_right_to_left {A B} (d : A) inner (last : B → A) args :
  compose d inner last args = foldr (λ f x, f x) (last args) inner ∧
  (∀ f g, pipe d f (pipe d g last) args = pipe d (pipe d f g) last args) ∧
  (∀ f, pipe d f last args = f (last args)).
Proof.
  assert (∀ B inner (last : B → A) args, compose d inner last args = foldr (λ f x, f x) (last args) inner) as H.
  { clear. intros B inner last args. unfold compose. rewrite for_each_snoc, length_fmap, length_app, length_fmap. cbn [length].
    rewrite Nat.add_sub, decide_True by done. by apply for_each_inner. }
  split; [apply H|]. unfold pipe. split; [intros f g|intros f]; by rewrite ?H.
Qed.

(** The two programs of compose.cpp. *)
Example composed :
  compose 0 [λ x, x + 1; λ x, x + 2] (λ x, x + 3) 2 = 8 ∧ pipe 0 (λ x, 2 * x) (λ x, x + 3) 2 = 10.
Proof. split; reflexivity. Qed.

(** ** [curry] and [partial] *)
Section curry.
Context (arity : nat) (op : list Z → Z).

(** What a call gives: the result, or an object with the arguments so far. *)
Inductive called := Value (v : Z) | Curried (args : list Z).

(** [operator()(rest...)]: the operation is applied when it can be called with
    all the arguments. *)
Definition call (args rest : list Z) : called :=
  if decide (length (args ++ rest) = arity) then Value (op (args ++ rest)) else Curried (args ++ rest).

(** Calls one after the other; a result cannot be called. *)
Fixpoint calls (args : list Z) (cs : list (list Z)) : option called :=
  match cs with
  | [] => Some (Curried args)
  | c :: cs =>
      match call args c, cs with
      | Value v, [] => Some (Value v)
      | Value _, _ => None
      | Curried args, _ => calls args cs
      end
  end.

Definition partial (args rest : list Z) : Z := op (args ++ rest).

Lemma calls_all args cs :
  Forall (λ c, c ≠ []) cs → cs ≠ [] → length (args ++ mjoin cs) = arity → calls args cs = Some (Value (op (args ++ mjoin cs))).
Proof.
  revert args. induction cs as [|c cs IH]; intros args Hc Hn Hl; [done|]. apply Forall_cons in Hc as [Hc Hcs]. cbn [calls mjoin list_join] in *.
  unfold call. destruct cs as [|c' cs].
  - cbn in *. rewrite app_nil_r in *. by rewrite decide_True.
  - rewrite decide_False; [rewrite IH; [|done|done|]|]; [by rewrite <- app_assoc|by rewrite <- app_assoc|].
    apply Forall_cons in Hcs as [Hc' _]. cbn [mjoin list_join] in Hl. rewrite !length_app in *. destruct c'; [done|]. cbn [length app] in *. lia.
Qed.

(** However the arguments are given, in calls of one or more at a time, the
    curried function is called once, with all of them in order, when the last
    is there; in two calls it is the partial application. *)
Theorem curry_any_split cs :
  Forall (λ c, c ≠ []) cs → cs ≠ [] → length (mjoin cs) = arity →
  calls [] cs = Some (Value (op (mjoin cs))) ∧ (∀ a b, cs = [a; b] → calls [] cs = Some (Value (partial a b))).
Proof.
  intros Hc Hn Hl. rewrite (calls_all [] cs) by done. split; [done|]. intros a b ->. unfold partial. cbn. by rewrite app_nil_r.
Qed.

(** With too many arguments it can never be called. *)
Lemma curry_too_many args cs : (arity < length args)%nat → calls args cs = Some (Curried (args ++ mjoin cs)).
Proof.
  revert args. induction cs as [|c cs IH]; intros args Hl; cbn; [by rewrite app_nil_r|]. unfold call.
  rewrite decide_False by (rewrite length_app; lia). rewrite IH by (rewrite length_app; lia). by rewrite <- app_assoc.
Qed.
End curry.

Definition test (xs : list Z) : Z := foldr Z.add 0 xs.

Lemma curry_any_split_witness : calls 3 test [] [[1]; [2; 3]] = Some (Value 6).
Proof. apply (curry_any_split 3 test [[1]; [2; 3]]); [by repeat constructor|done|done]. Defined.

(** ** Fold expressions *)

(** [(args + ... + (1*2))] *)
Fixpoint sum (args : list Z) : outcome Z :=
  match args with [] => Ret (1 * 2) | a :: args => r ← sum args; int_result (a + r) end.

(** [((std::cout << args << ' ', trivial) = ... = 0)]: the right operand of an
    assignment is evaluated first. *)
Fixpoint reverse_print (args : list (list Z)) : list Z :=
  match args with [] => [] | a :: args => reverse_print args ++ a ++ [32] end.

(** [(std::cout << ... << args) << '\n'] *)
Definition printer (args : list (list Z)) : list Z := foldl (λ out a, out ++ a) [] args ++ [10].

(** [(v.push_back(args), ...)] *)
Fixpoint push_back_vec {A} (v : list A) (args : list A) : list A :=
  match args with [] => v | a :: args => push_back_vec (v ++ [a]) args end.

Definition CHAR_WIDTH : Z := 8.

(** One operand of the fold in [bswap_impl], for a type of [n] bytes. *)
Definition bswap_part (n : nat) (i : Z) (N : nat) : Z :=
  Z.shiftl (Z.land (Z.shiftr i (Z.of_nat N * CHAR_WIDTH)) 255) ((Z.of_nat n - 1 - Z.of_nat N) * CHAR_WIDTH).

Definition bswap (n : nat) (i : Z) : Z := wrap (Z.of_nat n * CHAR_WIDTH) (foldr (λ N acc, Z.lor (bswap_part n i N) acc) 0 (seq 0 n)).

(** The bytes of a number, the least first, and back. *)
Definition byte (i : Z) (N : nat) : Z := Z.land (Z.shiftr i (Z.of_nat N * CHAR_WIDTH)) 255.
Definition bytes (n : nat) (i : Z) : list Z := byte i <$> seq 0 n.
Definition value (l : list Z) : Z := foldr (λ b v, b + 256 * v) 0 l.

Lemma byte_range i N : 0 ≤ byte i N < 256.
Proof. unfold byte. change 255 with (Z.ones 8). rewrite Z.land_ones by lia. apply Z.mod_pos_bound. lia. Qed.

Lemma byte_shift i N : byte i (S N) = byte (i / 256) N.
Proof.
  unfold byte, CHAR_WIDTH. change 256 with (2 ^ 8). rewrite <- Z.shiftr_div_pow2, Z.shiftr_shiftr by lia. do 2 f_equal. lia.
Qed.

Lemma bytes_cons n i : bytes (S n) i = i mod 256 :: bytes n (i / 256).
Proof.
  unfold bytes. cbn [seq]. rewrite <- seq_shift, fmap_cons, <- list_fmap_compose. f_equal.
  - unfold byte. rewrite Z.shiftr_0_r. change 255 with (Z.ones 8). by rewrite Z.land_ones by lia.
  - apply list_fmap_ext. intros _ N _. apply byte_shift.
Qed.

Lemma bytes_length n i : length (bytes n i) = n.
Proof. unfold bytes. by rewrite length_fmap, length_seq. Qed.

Lemma bytes_range n i : Forall is_byte (bytes n i).
Proof. unfold bytes. apply Forall_fmap, Forall_true. intros N. apply byte_range. Qed.

Lemma le_value_bytes n i : 0 ≤ i < 256 ^ Z.of_nat n → value (bytes n i) = i.
Proof.
  revert i. induction n as [|n IH]; intros i Hi; [cbn in *; lia|]. rewrite bytes_cons. cbn [value foldr].
  rewrite Nat2Z.inj_succ, Z.pow_succ_r in Hi by lia. fold (value (bytes n (i / 256))).
  rewrite IH; [pose proof (Z.div_mod i 256); lia|]. split; [apply Z.div_pos; lia|apply Z.div_lt_upper_bound; lia].
Qed.

Lemma value_range l : Forall is_byte l → 0 ≤ value l < 256 ^ zlen l.
Proof.
  induction 1 as [|b l Hb Hl IH]; [cbn; lia|]. cbn [value foldr length]. fold (value l). rewrite Nat2Z.inj_succ, Z.pow_succ_r by lia.
  unfold is_byte in Hb. lia.
Qed.

Lemma bytes_value l : Forall is_byte l → bytes (length l) (value l) = l.
Proof.
  induction 1 as [|b l Hb Hl IH]; [done|]. cbn [length]. rewrite bytes_cons. cbn [value foldr]. fold (value l). unfold is_byte in Hb.
  f_equal; [mlia|]. replace ((b + 256 * value l) / 256) with (value l) by mlia. done.
Qed.

Lemma le_value_app l l' : value (l ++ l') = value l + 256 ^ zlen l * value l'.
Proof.
  induction l as [|b l IH]; [change (value l' = 0 + 1 * value l'); lia|]. cbn [app value foldr length]. fold (value (l ++ l')) (value l).
  rewrite IH, Nat2Z.inj_succ, Z.pow_succ_r by lia. lia.
Qed.

(** The operands from the [k]-th on put the bytes together in reverse. *)
Lemma bswap_fold n i m k :
  (k + m = n)%nat → foldr (λ N acc, Z.lor (bswap_part n i N) acc) 0 (seq k m) = value (rev (byte i <$> seq k m)).
Proof.
  revert k. induction m as [|m IH]; intros k Hk; [done|]. cbn [seq foldr fmap list_fmap rev]. rewrite IH by lia.
  set (l := byte i <$> seq (S k) m). assert (Forall is_byte (rev l)) as Hl.
  { apply Forall_rev. unfold l. apply Forall_fmap, Forall_true. intros N. apply byte_range. }
  pose proof (value_range _ Hl) as Hv. assert (length (rev l) = m) as Hm by (rewrite length_rev; unfold l; by rewrite length_fmap, length_seq).
  rewrite le_value_app, Hm in *. unfold bswap_part. fold (byte i k). rewrite Z.shiftl_mul_pow2 by (unfold CHAR_WIDTH; lia).
  replace ((Z.of_nat n - 1 - Z.of_nat k) * CHAR_WIDTH) with (8 * Z.of_nat m) by (unfold CHAR_WIDTH; lia).
  rewrite lor_disjoint; [|lia|by rewrite Z.pow_mul_r by lia]. rewrite Z.pow_mul_r by lia. change (2 ^ 8) with 256. cbn [value foldr]. lia.
Qed.

(** For an unsigned type of any number of bytes, [bswap] gives the value
    with the bytes in reverse order, which fits the type; twice it gives the value back. *)
Theorem bswap_reverses n i :
  0 ≤ i < 256 ^ Z.of_nat n →
  bytes n (bswap n i) = rev (bytes n i) ∧ 0 ≤ bswap n i < 256 ^ Z.of_nat n ∧ bswap n (bswap n i) = i.
Proof.
  assert (∀ i, bswap n i = value (rev (bytes n i)) ∧ 0 ≤ bswap n i < 256 ^ Z.of_nat n) as H.
  { clear i. intros i. unfold bswap. rewrite (bswap_fold n i n 0) by lia. fold (bytes n i).
    pose proof (value_range (rev (bytes n i)) ltac:(apply Forall_rev, bytes_range)) as Hv. rewrite length_rev, bytes_length in Hv.
    assert (wrap (Z.of_nat n * CHAR_WIDTH) (value (rev (bytes n i))) = value (rev (bytes n i))) as ->; [|done].
    unfold wrap, CHAR_WIDTH. rewrite Z.mul_comm, Z.pow_mul_r by lia. by apply Z.mod_small. }
  intros Hi. destruct (H i) as [E Hr]. assert (bytes n (bswap n i) = rev (bytes n i)) as Hb.
  { rewrite E. rewrite <- (bytes_length n i) at 1. rewrite <- (length_rev (bytes n i)). apply bytes_value, Forall_rev, bytes_range. }
  split; [done|]. split; [done|]. destruct (H (bswap n i)) as [-> _]. rewrite Hb, rev_involutive. by apply le_value_bytes.
Qed.

Lemma bswap_reverses_witness : bytes 2 (bswap 2 0x1234) = rev (bytes 2 0x1234) ∧ bswap 2 0x1234 = 0x3412 ∧ bswap 2 (bswap 2 0x1234) = 0x1234.
Proof. destruct (bswap_reverses 2 0x1234) as (H1 & _ & H2); [lia|]. split; [done|]. by split. Defined.

(** The other folds: a sum in [int], and three orders of printing. *)
Lemma sum_value args v : sum args = Ret v → v = foldr Z.add 2 args.
Proof.
  revert v. induction args as [|a args IH]; cbn; [by intros v [= <-]|]. intros v. destruct (sum args) as [r| |]; cbind; [|done|done].
  unfold int_result. case_decide; [|done]. intros [= <-]. f_equal. by apply IH.
Qed.

Lemma reverse_print_rev args : reverse_print args = rev args ≫= (λ a, a ++ [32]).
Proof. induction args as [|a args IH]; [done|]. cbn [reverse_print rev]. rewrite bind_app, IH. cbn. by rewrite app_nil_r. Qed.

Lemma push_back_app {A} (v args : list A) : push_back_vec v args = v ++ args.
Proof. revert v. induction args as [|a args IH]; intros v; cbn; [by rewrite app_nil_r|]. rewrite IH. by rewrite <- app_assoc. Qed.
