(* ===== verification/ThreadLocal.v ===== *)
(** * design_pattern/producer_and_consumer/1vs1/main.cpp: an object per thread

    [TrivialLocal::Get] gives each thread a mutex of its own, kept under a key
    of the thread, whose destructor deletes it when the thread ends.  The object
    [local] is shared by the threads, and with it the member [val_]: every
    access to it is a step, and a list of steps is an interleaving.  (An
    unsynchronised access is undefined in the language; the steps are what the
    accesses do one after the other.) *)
From Stdlib Require Import ZArith Lia.
From stdpp Require Import base tactics numbers list gmap sets.
From S2P Require Import Prelude.

Open Scope Z_scope.

(** Where a thread is in [Get]. *)
Inductive pc :=
| Loaded        (** [val_] was assigned the thread's value *)
| Fresh         (** the test has found it null *)
| Made          (** [val_] was assigned a new mutex *)
| Returning.    (** [return val_] *)

(** [specific] is what the key holds for each thread; [live] are the mutexes that
    are not deleted, [made] their number so far. *)
Record Locals := MkLocals {
  val_ : option nat;
  specific : gmap Z nat;
  live : gset nat;
  made : nat;
  places : gmap Z pc;
}.

Definition locals_start : Locals := MkLocals None ∅ ∅ 0 ∅.

Inductive taction := TGet (t : Z) | TTest (t : Z) | TNew (t : Z) | TSet (t : Z) | TReturn (t : Z) | TEnd (t : Z).

(** The value returned, if any; a step that the thread is not about to make is
    not possible ([None]). *)
Definition tstep (a : taction) (s : Locals) : option (outcome (option (option nat) * Locals)) :=
  let '(MkLocals v sp lv n ps) := s in
  match a with
  | TGet t =>
      match ps !! t with
      | None => Some (Ret (None, MkLocals (sp !! t) sp lv n (<[t := Loaded]> ps)))
      | _ => None
      end
  | TTest t =>
      match ps !! t with
      | Some Loaded => Some (Ret (None, MkLocals v sp lv n (<[t := match v with Some _ => Returning | None => Fresh end]> ps)))
      | _ => None
      end
  | TNew t =>
      match ps !! t with
      | Some Fresh => Some (Ret (None, MkLocals (Some n) sp ({[n]} ∪ lv) (S n) (<[t := Made]> ps)))
      | _ => None
      end
  | TSet t =>
      match ps !! t with
      | Some Made => Some (Ret (None, MkLocals v (match v with Some p => <[t := p]> sp | None => delete t sp end) lv n (<[t := Returning]> ps)))
      | _ => None
      end
  | TReturn t =>
      match ps !! t with
      | Some Returning => Some (Ret (Some v, MkLocals v sp lv n (delete t ps)))
      | _ => None
      end
  | TEnd t =>
      match ps !! t with
      | None =>
          match sp !! t with
          | None => Some (Ret (None, s))
          | Some p => Some (if decide (p ∈ lv) then Ret (None, MkLocals v (delete t sp) (lv ∖ {[p]}) n ps) else Undef)
          end
      | _ => None
      end
  end.

Fixpoint texec (acts : list taction) (s : Locals) : option (outcome (list (option nat) * Locals)) :=
  match acts with
  | [] => Some (Ret ([], s))
  | a :: acts =>
      match tstep a s with
      | Some (Ret (r, s)) =>
          match texec acts s with
          | Some (Ret (rs, s)) => Some (Ret (match r with Some v => v :: rs | None => rs end, s))
          | o => o
          end
      | Some Undef => Some Undef
      | Some NoFuel => Some NoFuel
      | None => None
      end
  end.

(** ** Without interleaving *)
Inductive local_op := Get (t : Z) | End_ (t : Z).

(** The steps of a whole call: those after the test depend on what it finds. *)
Definition steps (o : local_op) (s : Locals) : list taction :=
  match o with
  | Get t => match specific s !! t with Some _ => [TGet t; TTest t; TReturn t] | None => [TGet t; TTest t; TNew t; TSet t; TReturn t] end
  | End_ t => [TEnd t]
  end.

Fixpoint run_calls (os : list local_op) (s : Locals) : option (outcome (list (option nat) * Locals)) :=
  match os with
  | [] => Some (Ret ([], s))
  | o :: os =>
      match texec (steps o s) s with
      | Some (Ret (rs, s)) =>
          match run_calls os s with
          | Some (Ret (rs', s)) => Some (Ret (rs ++ rs', s))
          | o => o
          end
      | o => o
      end
  end.

(** A map from threads to their mutexes. *)
Definition spec_call (o : local_op) (a : gmap Z nat * nat) : list (option nat) * (gmap Z nat * nat) :=
  let '(m, n) := a in
  match o with
  | Get t => match m !! t with Some p => ([Some p], a) | None => ([Some n], (<[t := n]> m, S n)) end
  | End_ t => ([], (delete t m, n))
  end.

Fixpoint spec_calls (os : list local_op) (a : gmap Z nat * nat) : list (option nat) * (gmap Z nat * nat) :=
  match os with
  | [] => ([], a)
  | o :: os => let '(rs, a) := spec_call o a in let '(rs', a) := spec_calls os a in (rs ++ rs', a)
  end.

(** Every thread has a mutex of its own, and the mutexes that are live are those. *)
Record tsim (s : Locals) (a : gmap Z nat * nat) : Prop := {
  t_specific : specific s = a.1;
  t_made : made s = a.2;
  t_places : places s = ∅;
  t_bound : ∀ t p, a.1 !! t = Some p → (p < a.2)%nat;
  t_own : ∀ t t' p, a.1 !! t = Some p → a.1 !! t' = Some p → t = t';
  t_live : ∀ p, p ∈ live s ↔ ∃ t, a.1 !! t = Some p;
}.

Lemma local_call_sim o s a :
  tsim s a → ∃ s', texec (steps o s) s = Some (Ret ((spec_call o a).1, s')) ∧ tsim s' (spec_call o a).2.
Proof.
  intros [Hsp Hn Hpl Hb Ho Hl]. destruct s as [v sp lv n ps], a as [m k]. cbn in *. subst. destruct o as [t|t]; cbn [steps spec_call specific].
  - destruct (m !! t) as [p|] eqn:E.
    + eexists. split.
      * cbn [texec tstep places]. rewrite lookup_empty. cbn [texec tstep]. rewrite lookup_insert_eq, E. cbn [texec tstep]. rewrite lookup_insert_eq. reflexivity.
      * split; cbn; try done. by rewrite insert_insert_eq, delete_insert_id.
    + eexists. split.
      * cbn [texec tstep places]. rewrite lookup_empty. cbn [texec tstep]. rewrite lookup_insert_eq, E. cbn [texec tstep].
        rewrite lookup_insert_eq. cbn [texec tstep]. rewrite lookup_insert_eq. cbn [texec tstep]. rewrite lookup_insert_eq. reflexivity.
      * split; cbn; try done.
        -- by rewrite !insert_insert_eq, delete_insert_id.
        -- intros t' p [[<- <-]|[? H]]%lookup_insert_Some; [lia|]. specialize (Hb t' p H). lia.
        -- intros t1 t2 p [[<- <-]|[? H1]]%lookup_insert_Some [[<- H2]|[? H2]]%lookup_insert_Some; [done| | |by eapply Ho].
           ++ specialize (Hb t2 k H2). lia.
           ++ subst. specialize (Hb t1 p H1). lia.
        -- intros p. rewrite elem_of_union, elem_of_singleton, Hl. split.
           ++ intros [-> |(t' & H)]; [exists t; by rewrite lookup_insert_eq|]. exists t'. rewrite lookup_insert_ne; [done|]. congruence.
           ++ intros (t' & [[<- <-]|[? H]]%lookup_insert_Some); [by left|right; by exists t'].
  - cbn [texec tstep]. rewrite lookup_empty. destruct (m !! t) as [p|] eqn:E.
    + rewrite decide_True by (apply Hl; by exists t). eexists. split; [reflexivity|]. split; cbn; try done.
      * intros t' p' [? H]%lookup_delete_Some. by eapply Hb.
      * intros t1 t2 p' [? H1]%lookup_delete_Some [? H2]%lookup_delete_Some. by eapply Ho.
      * intros p'. rewrite elem_of_difference, elem_of_singleton, Hl. split.
        -- intros [(t' & H) Hne]. exists t'. rewrite lookup_delete_ne; [done|]. congruence.
        -- intros (t' & [Hne H]%lookup_delete_Some). split; [by exists t'|]. intros ->. by apply Hne, (Ho t t' p).
    + eexists. split; [reflexivity|]. rewrite delete_id by done. by split.
Qed.

(** When calls of [Get] and the ends of threads do not overlap, each thread
    gets a mutex of its own, the same at every call; no mutex is deleted twice,
    and those that are live are exactly those of the threads that are. *)
Theorem local_refines os rs a :
  spec_calls os (∅, 0%nat) = (rs, a) → ∃ s, run_calls os locals_start = Some (Ret (rs, s)) ∧ tsim s a.
Proof.
  assert (∀ s0 a0 rs a, tsim s0 a0 → spec_calls os a0 = (rs, a) → ∃ s, run_calls os s0 = Some (Ret (rs, s)) ∧ tsim s a) as H.
  { clear rs a. induction os as [|o os IH]; intros s0 a0 rs a Hs; cbn; [intros [= <- <-]; eauto|].
    destruct (local_call_sim o s0 a0 Hs) as (s1 & -> & H1). destruct (spec_call o a0) as [r a1]. cbn in H1.
    destruct (spec_calls os a1) as [rs' a'] eqn:E. intros [= <- <-]. destruct (IH s1 a1 rs' a' H1 E) as (s & -> & Hs'). eauto. }
  apply H. split; cbn; try done; intros *; rewrite ?lookup_empty; try done. split; [set_solver|]. intros [t Ht]. by rewrite lookup_empty in Ht.
Qed.

Lemma local_refines_witness :
  ∃ s, run_calls [Get 1; Get 2; Get 1; End_ 1; Get 3] locals_start = Some (Ret ([Some 0%nat; Some 1%nat; Some 0%nat; Some 2%nat], s)) ∧
    tsim s ({[2 := 1%nat; 3 := 2%nat]}, 3%nat).
Proof. apply (local_refines [Get 1; Get 2; Get 1; End_ 1; Get 3]). vm_compute. reflexivity. Defined.

(** ** Two calls at once *)

(** The second thread tests [val_] after the first has stored its mutex there,
    and is given it. *)
Example other_thread's_mutex :
  fst <$> texec [TGet 1; TTest 1; TGet 2; TNew 1; TTest 2; TReturn 2] locals_start ≫= (λ o, match o with Ret r => Some r | _ => None end)
  = Some [Some 0%nat].
Proof. vm_compute. reflexivity. Qed.

(** Both make a mutex and both keep the second one: it is deleted twice. *)
Example mutex_deleted_twice :
  texec [TGet 1; TGet 2; TTest 1; TTest 2; TNew 1; TNew 2; TSet 1; TSet 2; TReturn 1; TReturn 2; TEnd 1; TEnd 2] locals_start = Some Undef.
Proof. vm_compute. reflexivity. Qed.
