(* ===== verification/Loops.v ===== *)
(** * Loops over events and how they end: [Poll::loop], [Collector::Produce], [Terminator]

    The loop of socket/monitor/sock.cpp and that of socket/collector.h wait for
    events, handle them one after the other, and end when the descriptor of a
    terminator is among them: a pipe into which [quit] has written a byte.  What
    an event does is a parameter of the loop; it is instantiated with the
    forwarder's callbacks and with the collector's handlers.  The constructor
    and the destructor of the collector, and the helpers of socket/tool.h that
    they use, are here too. *)
From Stdlib Require Import ZArith Lia.
From stdpp Require Import base tactics numbers list gmap sets.
From S2P Require Import Prelude.
From S2P Require Import Poll.
From S2P Require Import Forwarder.
From S2P Require Import Collector.
From S2P Require Import Reconnect.

Open Scope Z_scope.

(** ** [Terminator]: a pipe of bytes that nobody blocks on *)
Module Terminator.

(** [pending] is the number of bytes in it; a pipe holds so many. *)
Definition PIPE_SIZE : Z := 65536.

Definition trigger (pending : Z) : Z := if decide (pending < PIPE_SIZE) then pending + 1 else pending.
Definition cleanup (pending : Z) : Z := if decide (0 < pending) then pending - 1 else pending.
Definition readable (pending : Z) : bool := bool_decide (0 < pending).

Lemma trigger_readable p : 0 ≤ p → readable (trigger p) = true ∧ 0 < trigger p.
Proof. intros H. unfold readable, trigger, PIPE_SIZE. case_decide; rewrite bool_decide_eq_true; lia. Qed.

(** One [cleanup] does not undo two calls of [trigger]. *)
Lemma cleanup_leaves p : 1 < p → readable (cleanup p) = true.
Proof. intros H. unfold cleanup, readable. rewrite decide_True by lia. apply bool_decide_eq_true. lia. Qed.

End Terminator.

(** ** The loop *)
Section loop.
Context {E S : Type} (is_term : E → bool) (handle : E → S → outcome S).

(** What a wait gives: an interruption, after which it is repeated, another
    error, or events. *)
Inductive wait := Interrupted | WaitFailed | Reported (l : list E).

Inductive ending := Waiting | Quitted | Broken.

(** The events of one wait: those after the terminator's are not handled. *)
Fixpoint handle_all (l : list E) (s : S) : outcome (bool * S) :=
  match l with
  | [] => Ret (false, s)
  | e :: l => if is_term e then Ret (true, s) else s ← handle e s; handle_all l s
  end.

Fixpoint event_loop (ws : list wait) (s : S) : outcome (ending * S) :=
  match ws with
  | [] => Ret (Waiting, s)
  | Interrupted :: ws => event_loop ws s
  | WaitFailed :: _ => Ret (Broken, s)
  | Reported l :: ws =>
      '(q, s) ← handle_all l s;
      if (q : bool) then Ret (Quitted, s) else event_loop ws s
  end.

(** The events that are handled, in order, and how the loop ends. *)
Fixpoint until_term (l : list E) : list E * bool :=
  match l with
  | [] => ([], false)
  | e :: l => if is_term e then ([], true) else let '(r, q) := until_term l in (e :: r, q)
  end.

Fixpoint handled (ws : list wait) : list E * ending :=
  match ws with
  | [] => ([], Waiting)
  | Interrupted :: ws => handled ws
  | WaitFailed :: _ => ([], Broken)
  | Reported l :: ws =>
      let '(r, q) := until_term l in
      if q then (r, Quitted) else let '(r', e) := handled ws in (r ++ r', e)
  end.

Fixpoint handle_seq (l : list E) (s : S) : outcome S :=
  match l with [] => Ret s | e :: l => s ← handle e s; handle_seq l s end.

Lemma handle_seq_app l l' s : handle_seq (l ++ l') s = (s ← handle_seq l s; handle_seq l' s).
Proof. revert s. induction l as [|e l IH]; intros s; [done|]. cbn. destruct (handle e s) as [s1| |]; cbind; [apply IH|done|done]. Qed.

Lemma handle_all_seq l s :
  handle_all l s = (s ← handle_seq (until_term l).1 s; Ret ((until_term l).2, s)).
Proof.
  revert s. induction l as [|e l IH]; intros s; cbn; [done|]. destruct (is_term e); [done|]. destruct (until_term l) as [r q]. cbn in *.
  destruct (handle e s) as [s1| |]; cbind; [apply IH|done|done].
Qed.

Lemma event_loop_seq ws s : event_loop ws s = (s ← handle_seq (handled ws).1 s; Ret ((handled ws).2, s)).
Proof.
  revert s. induction ws as [|[| |l] ws IH]; intros s; cbn [event_loop handled]; [done|apply IH|done|].
  rewrite handle_all_seq. destruct (until_term l) as [r q]. cbn [fst snd]. destruct q.
  - cbn [fst snd]. by destruct (handle_seq r s).
  - destruct (handled ws) as [r' e]. cbn [fst snd] in *. rewrite handle_seq_app. destruct (handle_seq r s) as [s1| |]; cbind; [apply IH|done|done].
Qed.

(** A wait that is told of a written terminator reports it. *)
Definition honest (pending : Z) (w : wait) : Prop :=
  match w with Reported l => existsb is_term l = Terminator.readable pending | _ => True end.

Definition answered (w : wait) : Prop := match w with Interrupted => False | _ => True end.

Lemma until_term_found l : existsb is_term l = true → (until_term l).2 = true.
Proof. induction l as [|e l IH]; cbn; [done|]. destruct (is_term e); [done|]. cbn. destruct (until_term l). cbn in *. auto. Qed.

Lemma until_term_absent l : existsb is_term l = false → until_term l = (l, false).
Proof. induction l as [|e l IH]; cbn; [done|]. destruct (is_term e); [done|]. cbn. intros H. by rewrite IH. Qed.

Lemma handled_quits p ws : 0 < p → Forall (honest p) ws → Exists answered ws → (handled ws).2 ≠ Waiting.
Proof.
  intros Hp Hh He. induction ws as [|[| |l] ws IH]; [by apply Exists_nil in He| |done|].
  - apply Forall_cons in Hh as [_ Hh]. apply Exists_cons in He as [[]|He]. by apply IH.
  - apply Forall_cons in Hh as [Hl Hh]. cbn in Hl |- *. unfold Terminator.readable in Hl. rewrite bool_decide_true in Hl by done.
    pose proof (until_term_found l Hl) as Hu. destruct (until_term l) as [r q]. cbn in Hu. by subst q.
Qed.

Lemma handled_goes_on ws :
  Forall (honest 0) ws → Forall (λ w, w ≠ WaitFailed) ws → (handled ws).2 = Waiting.
Proof.
  intros Hh Hf. induction ws as [|[| |l] ws IH]; [done| | |]; apply Forall_cons in Hh as [Hl Hh]; apply Forall_cons in Hf as [Hw Hf]; cbn.
  - by apply IH.
  - done.
  - cbn in Hl. rewrite until_term_absent by done. specialize (IH Hh Hf). destruct (handled ws). done.
Qed.

End loop.
Arguments wait : clear implicits.

(** ** [Poll::loop] of the forwarder *)

(** An event with what the calls of its callback find. *)
Record pevent := PEvent { p_fd : Z; p_rdhup : bool; p_readable : bool; p_input : input }.

Definition forwarder_loop (term : Z) : list (wait pevent) → Forwarder → outcome (ending * Forwarder) :=
  event_loop (λ e, bool_decide (p_fd e = term)) (λ e, fstep (p_fd e) (p_rdhup e) (p_readable e) (p_input e)).

(** Every event of the list is one the forwarder can be given, and none is the
    departure of a follower. *)
Fixpoint events_fine (l : list pevent) (s : Forwarder) : Prop :=
  match l with
  | [] => True
  | e :: l => alive s = true ∧ input_ok (p_input e) s ∧ ¬ quits (p_fd e) (p_rdhup e) s ∧
      match fstep (p_fd e) (p_rdhup e) (p_readable e) (p_input e) s with Ret s => events_fine l s | _ => True end
  end.

Lemma handle_seq_fine l s :
  fwd_inv s → hooks s → events_fine l s →
  ∃ s', handle_seq (λ e, fstep (p_fd e) (p_rdhup e) (p_readable e) (p_input e)) l s = Ret s' ∧ fwd_inv s' ∧ hooks s'.
Proof.
  revert s. induction l as [|e l IH]; intros s Hs Hh; cbn; [eauto|]. intros (Ha & Hi & Hq & Hr).
  destruct (fstep_inv (p_fd e) (p_rdhup e) (p_readable e) (p_input e) s Hs Hh Hi Hq) as (s1 & E & H1). rewrite E in Hr |- *. cbind.
  apply IH; [done|by eapply fstep_hooks|done].
Qed.

(** C22: [quit] ends the forwarder's loop: once the terminator is written, the
    first wait that is not interrupted is the last; until then the loop goes on
    unless a wait fails.  In every case the callbacks were run for exactly the
    events before the terminator's, in order, and none of them is undefined
    while no waiting follower leaves. *)
Theorem forwarder_loop_quits u sg t term p ws :
  NoDup [u; sg; t] → 0 ≤ u → 0 ≤ sg → 0 ≤ t → 0 ≤ p →
  let is_term := λ e, bool_decide (p_fd e = term) in
  events_fine (handled is_term ws).1 (forwarder_start u sg t) →
  ∃ s, forwarder_loop term ws (forwarder_start u sg t) = Ret ((handled is_term ws).2, s) ∧ fwd_inv s ∧
    handle_seq (λ e, fstep (p_fd e) (p_rdhup e) (p_readable e) (p_input e)) (handled is_term ws).1 (forwarder_start u sg t) = Ret s ∧
    (Forall (honest is_term (Terminator.trigger p)) ws → Exists answered ws → (handled is_term ws).2 ≠ Waiting) ∧
    (Forall (honest is_term 0) ws → Forall (λ w, w ≠ WaitFailed) ws → (handled is_term ws).2 = Waiting).
Proof.
  intros Hn Hu Hsg Ht Hp is_term Hf. destruct (start_inv u sg t Hn Hu Hsg Ht) as [Hs Hh].
  destruct (handle_seq_fine _ _ Hs Hh Hf) as (s & E & Hi & _). exists s. split_and!; [|done|done| |].
  - unfold forwarder_loop. rewrite event_loop_seq. fold is_term. by rewrite E.
  - intros Hho He. destruct (Terminator.trigger_readable p Hp) as [_ Hq]. by eapply handled_quits.
  - apply handled_goes_on.
Qed.

Definition sample_input : input := Input (-1) 0 None 0 true [].
Definition sample_waits : list (wait pevent) :=
  [Interrupted; Reported [PEvent 4 false true sample_input; PEvent 9 false true sample_input; PEvent 4 false true sample_input]].

Lemma forwarder_loop_quits_witness :
  ∃ s, forwarder_loop 9 sample_waits (forwarder_start 3 4 5) = Ret (Quitted, s) ∧ fwd_inv s.
Proof.
  destruct (forwarder_loop_quits 3 4 5 9 0 sample_waits) as (s & E & Hi & _); [|lia..| |].
  - repeat constructor; set_solver.
  - assert (alive (forwarder_start 3 4 5) = true) as Ha by done. assert (input_ok sample_input (forwarder_start 3 4 5)) as Hin.
    { split; [by left|]. done. }
    cbn [handled sample_waits until_term p_fd]. rewrite (bool_decide_false (4 = 9)), (bool_decide_true (9 = 9)) by lia.
    cbn [fst]. split_and!; [done|done|by intros (? & _)|]. by destruct (fstep _ _ _ _ _).
  - exists s. split; [exact E|done].
Defined.

(** The loop's entry owns the reading end of the terminator's pipe, as the pipe
    does: the entry's destruction closes it, and the pipe's closes it again,
    with whatever has the number by then. *)
Lemma terminator_closed_twice {K} (k : K) term (p : Poll K) :
  owns p → 0 ≤ term → term ∈ Poll.opened p → entry_map p !! term = None →
  let p' := erase_entry term (registerEntry term k None p) in
  ¬ term ∈ Poll.opened p' ∧ ¬ term ∈ Poll.opened (Close term (open_fd term p')).
Proof.
  intros Ho H0 Ht Hn. destruct (register_owns term k None p Ho H0 Ht Hn) as [E Ho1].
  destruct (erase_owns (registerEntry term k None p) term (MkEntry term (Some k) (Some None) (Some term))) as [E2 _]; [done|by rewrite E; cbn; rewrite lookup_insert_eq|].
  cbn zeta. rewrite E2. cbn. split; [set_solver|]. unfold Close. cbn. rewrite decide_True by (split; [lia|set_solver]). cbn. set_solver.
Qed.

(** ** The collector *)

(** [FdHelper::Close] of one descriptor; one that nothing was stored in is
    [None], and using it is undefined. *)
Definition Close1 (fd : option Z) (o : gset Z) : outcome (gset Z) :=
  match fd with None => Undef | Some fd => Ret (if decide (fd ≠ -1) then o ∖ {[fd]} else o) end.
Definition Close3 (a b c : option Z) (o : gset Z) : outcome (gset Z) :=
  o ← Close1 a o; o ← Close1 b o; Close1 c o.

(** [FdHelper::SetNonblock]: [fcntl(fd, F_GETFL, &flags)] ignores its argument,
    so that the local [flags], declared without a value, is read while it has
    none, whatever flags the descriptor has. *)
Definition O_NONBLOCK : Z := 2048.
Definition F_GETFL (current : Z) (argument : option Z) : Z * option Z := (current, argument).
Definition SetNonblock (current : Z) : outcome Z :=
  let '(_, flags) := F_GETFL current None in
  match flags with None => Undef | Some f => Ret (Z.lor f O_NONBLOCK) end.

(** The object after its constructor; [timer_fd_] is not initialized at first. *)
Record CollectorFds := MkFds { c_fd : Z; c_epoll : Z; c_timer : option Z; c_pair : Z * Z; c_state : State }.

(** What the calls of the constructor find. *)
Record ctor := Ctor { k_connect : tries; k_epoll : option Z; k_timer : option Z; k_pair : option (Z * Z) }.

Definition Collector_new (k : ctor) (o : gset Z) : CollectorFds * gset Z :=
  let '(ok, l) := Connect (k_connect k) (MkLink (-1) 0 false [] ∅ o 0 UNINITIALIZED ∅) in
  let o := opened l in
  let failed := MkFds (fd_ l) (-1) None (-1, -1) UNINITIALIZED in
  if ok then
    match k_epoll k with
    | None => (failed, o)
    | Some e =>
        let o := {[e]} ∪ o in
        match k_timer k with
        | None => (MkFds (fd_ l) e (Some (-1)) (-1, -1) UNINITIALIZED, o)
        | Some t =>
            let o := {[t]} ∪ o in
            match k_pair k with
            | None => (MkFds (fd_ l) e (Some t) (-1, -1) READY, o)
            | Some (a, b) => (MkFds (fd_ l) e (Some t) (a, b) READY, {[a; b]} ∪ o)
            end
        end
    end
  else (failed, o).

(** [~Collector], after [quit]. *)
Definition Collector_destroy (c : CollectorFds) (o : gset Z) : outcome (gset Z) :=
  Close3 (Some (c_fd c)) (Some (c_epoll c)) (c_timer c) o.

Definition Ready (c : CollectorFds) : bool := bool_decide (c_state c ≠ UNINITIALIZED).

(** [Produce] after [OnConnect]: an event whose descriptor no handler has does
    nothing; the terminator's stores [DONE]. *)
Inductive cevent := CTerm | CEvent (e : levent).
Definition is_cterm (e : cevent) : bool := match e with CTerm => true | _ => false end.
Definition chandle (e : cevent) (s : Link) : outcome Link :=
  match e with CTerm => Ret s | CEvent e => Ret (default s (lstep e s)) end.

Definition Produce (ws : list (wait cevent)) (s : Link) : outcome (ending * Link) :=
  '(e, s) ← event_loop is_cterm chandle ws (OnConnect s);
  match e with
  | Quitted => let '(MkLink f t a h w op r _ so) := s in Ret (e, MkLink f t a h w op r DONE so)
  | _ => Ret (e, s)
  end.

(** [Produce] always returns what its events lead to, and the state is [DONE]
    exactly when the terminator was seen. *)
Lemma produce_done ws s :
  ∃ s' e, Produce ws s = Ret (e, s') ∧ e = (handled is_cterm ws).2 ∧ (e = Quitted → link_state s' = DONE) ∧
    (0 < Terminator.trigger 0 → Forall (honest is_cterm 1) ws → Exists answered ws → e ≠ Waiting).
Proof.
  unfold Produce. rewrite event_loop_seq. assert (∀ l s, ∃ s', handle_seq chandle l s = Ret s') as H.
  { intros l. induction l as [|[|e] l IH]; intros s0; cbn; [eauto|apply IH|apply IH]. }
  destruct (H (handled is_cterm ws).1 (OnConnect s)) as (s1 & ->). cbind.
  assert (Forall (honest is_cterm 1) ws → Exists answered ws → (handled is_cterm ws).2 ≠ Waiting) as Hq by (apply handled_quits; lia).
  destruct (handled is_cterm ws) as [r e]. cbn [snd] in *. destruct e; [by eexists _, _|destruct s1; by eexists _, _|by eexists _, _].
Qed.

(** A collector that is ready closes what it has opened when it is destroyed, but
    for the two ends of its socket pair. *)
Lemma collector_leaks_pair fd e t a b o :
  NoDup [fd; e; t; a; b] → Forall (λ x, 0 ≤ x ∧ ¬ x ∈ o) [fd; e; t; a; b] →
  let '(c, o') := Collector_new (Ctor (Tries (Some fd) true true) (Some e) (Some t) (Some (a, b))) o in
  Ready c = true ∧ Collector_destroy c o' = Ret ({[a; b]} ∪ o).
Proof.
  rewrite !NoDup_cons, !Forall_cons, !not_elem_of_cons. intros Hd Hf. cbn [Collector_new Connect fd_ t_socket t_sockopt t_connect k_connect].
  unfold Collector_new, Connect. cbn -[union difference singleton]. split; [done|].
  unfold Collector_destroy, Close3, Close1. cbn [c_fd c_epoll c_timer fd_ opened]. cbind.
  rewrite (decide_True (P := fd ≠ -1)), (decide_True (P := e ≠ -1)), (decide_True (P := t ≠ -1)) by lia. cbind. f_equal.
  apply set_eq. intros x. rewrite !elem_of_difference, !elem_of_union, !elem_of_singleton.
  split; [tauto|]. intros H. assert (x ≠ fd ∧ x ≠ e ∧ x ≠ t) as Hx; [|tauto].
  destruct H as [[-> | ->]|H]; split_and!; intros ->; tauto.
Qed.

(** One that could not connect closes an indeterminate descriptor. *)
Lemma unconnected_closes_garbage k o :
  (Connect (k_connect k) (MkLink (-1) 0 false [] ∅ o 0 UNINITIALIZED ∅)).1 = false →
  let '(c, o') := Collector_new k o in Ready c = false ∧ Collector_destroy c o' = Undef.
Proof.
  unfold Collector_new. destruct (Connect _ _) as [ok l]. cbn [fst]. intros ->. split; [done|].
  unfold Collector_destroy, Close3, Close1. cbn. done.
Qed.
