(* ===== verification/Macros.v ===== *)
(** * macro.h and socket/monitor/export/export.h: macros over their arguments

    The macros that count their arguments and repeat a pattern for each, as
    functions on lists of tokens.  An argument is a token; a call with no
    argument at all has one, the empty token, as in the preprocessor.  A macro
    that was not defined for a number of arguments does not expand: [None]. *)
From Stdlib Require Import ZArith Lia String.
From stdpp Require Import base tactics numbers list.
From S2P Require Import Prelude.

Open Scope Z_scope.

Definition token := string.

(** The arguments the preprocessor sees. *)
Definition va_args (l : list token) : list token := match l with [] => [""%string] | _ => l end.

(** ** [ARGS_LEN] *)

(** [_ARGS_17(_0, ..., _16, ...)]: its seventeenth argument, and it has to have
    one more at least. *)
Definition _ARGS_17 {A} (l : list A) : option A := if decide (17 < length l)%nat then l !! 16%nat else None.

(** The arguments, then 16 down to 0; an argument is a token, a number a length. *)
Definition ARGS_LEN (l : list token) : option (token + nat) :=
  _ARGS_17 ((inl <$> va_args l) ++ (inr <$> [16; 15; 14; 13; 12; 11; 10; 9; 8; 7; 6; 5; 4; 3; 2; 1; 0]%nat)).

(** ** [ARGLIST], [ARGREPEAT], [ARGCONCAT] *)

(** [__ARGLIST_1] to [__ARGLIST_9]: each item is the type and the name. *)
Fixpoint __ARGLIST (n : nat) (t : token) (l : list token) : option (list (list token)) :=
  match n, l with
  | 1%nat, [x] => Some [[t; x]]
  | S n, x :: l => r ← __ARGLIST n t l; Some ([t; x] :: r)
  | _, _ => None
  end.

(** A macro with a number pasted to its name, for one to nine. *)
Definition by_length {A} (f : nat → option A) (n : option (token + nat)) : option A :=
  match n with
  | Some (inr n) => if decide (1 ≤ n ≤ 9)%nat then f n else None
  | _ => None
  end.

Definition ARGLIST (t : token) (l : list token) : option (list (list token)) :=
  by_length (λ n, __ARGLIST n t (va_args l)) (ARGS_LEN l).

(** [__ARGREPEAT_1(s, x)] is [x s], and [__ARGREPEAT_2(s, x)] is [x s x]. *)
Fixpoint __ARGREPEAT (n : nat) (s x : token) : list token :=
  match n with
  | 0%nat => []
  | 1%nat => [x; s]
  | 2%nat => [x; s; x]
  | S n => [x; s] ++ __ARGREPEAT n s x
  end.

Definition ARGREPEAT (s x : token) (l : list token) : option (list token) :=
  by_length (λ n, Some (__ARGREPEAT n s x)) (ARGS_LEN l).

(** [__ARGCONCAT_1(s, x)] is [x s], and [__ARGCONCAT_2(s, x, y)] is [x s y]. *)
Fixpoint __ARGCONCAT (n : nat) (s : token) (l : list token) : option (list token) :=
  match n, l with
  | 1%nat, [x] => Some [x; s]
  | 2%nat, [x; y] => Some [x; s; y]
  | S n, x :: l => r ← __ARGCONCAT n s l; Some ([x; s] ++ r)
  | _, _ => None
  end.

Definition ARGCONCAT (s : token) (l : list token) : option (list token) :=
  by_length (λ n, __ARGCONCAT n s (va_args l)) (ARGS_LEN l).

(** ** [JSIGLIST] *)
Definition JSIG (t : token) : option string :=
  match t with
  | "PARAMLEFT" => Some "("
  | "PARAMRIGHT" => Some ")"
  | "VOID" => Some "V"
  | "INT" => Some "I"
  | "STRING" => Some "Ljava/lang/String;"
  | "OBJECT" => Some "Ljava/lang/Object;"
  | _ => None
  end%string.

(** [_JSIGLIST_0] to [_JSIGLIST_4]: string literals one after the other. *)
Fixpoint _JSIGLIST (n : nat) (l : list token) : option string :=
  match n, l with
  | 0%nat, [x] => Some ""%string
  | 1%nat, [x] => JSIG x
  | S n, x :: l => a ← JSIG x; b ← _JSIGLIST n l; Some (a ++ b)%string
  | _, _ => None
  end.

Definition JSIGLIST (l : list token) : option string :=
  match ARGS_LEN l with
  | Some (inr n) => if decide (n ≤ 4)%nat then _JSIGLIST n (va_args l) else None
  | _ => None
  end.

(** The signatures of the two native methods. *)
Definition sig_start : option string := JSIGLIST ["PARAMLEFT"; "OBJECT"; "PARAMRIGHT"; "INT"]%string.
Definition sig_stop : option string := JSIGLIST ["PARAMLEFT"; "PARAMRIGHT"; "INT"]%string.

(** ** Properties *)

(** Sixteen arguments at most are counted; with more, the answer is one of them. *)
Lemma args_len_small l : (length (va_args l) ≤ 16)%nat → ARGS_LEN l = Some (inr (length (va_args l))).
Proof.
  intros Hl. unfold ARGS_LEN, _ARGS_17. assert (0 < length (va_args l))%nat as H0 by (destruct l; cbn; lia).
  rewrite length_app, !length_fmap, decide_True by (cbn [length]; lia). rewrite lookup_app_r by (rewrite length_fmap; lia). rewrite length_fmap.
  generalize dependent (length (va_args l)). intros n Hn H0. do 17 (destruct n as [|n]; [first [lia|done]|]). lia.
Qed.

Lemma args_len_large l : (16 < length l)%nat → ∃ x, x ∈ l ∧ ARGS_LEN l = Some (inl x).
Proof.
  intros Hl. destruct (lookup_lt_is_Some_2 l 16%nat) as [x Hx]; [lia|]. exists x. split; [by eapply list_elem_of_lookup_2|].
  unfold ARGS_LEN, _ARGS_17. assert (va_args l = l) as -> by (destruct l; [cbn in Hl; lia|done]).
  rewrite length_app, !length_fmap, decide_True by (cbn [length]; lia). rewrite lookup_app_l by (rewrite length_fmap; lia).
  by rewrite list_lookup_fmap, Hx.
Qed.

Lemma arglist_items n t l : (0 < n)%nat → length l = n → __ARGLIST n t l = Some ((λ x, [t; x]) <$> l).
Proof.
  revert l. induction n as [|n IH]; intros l Hn Hl; [lia|]. destruct l as [|x l]; [done|]. cbn in Hl. destruct n as [|n].
  - destruct l; done.
  - change (__ARGLIST (S (S n)) t (x :: l)) with (r ← __ARGLIST (S n) t l; Some ([t; x] :: r)). by rewrite IH by lia.
Qed.

(** The items with the separator between them. *)
Fixpoint separated (s : token) (l : list token) : list token :=
  match l with [] => [] | [x] => [x] | x :: l => x :: s :: separated s l end.

Lemma argconcat_items n s l : (1 < n)%nat → length l = n → __ARGCONCAT n s l = Some (separated s l).
Proof.
  revert l. induction n as [|n IH]; intros l Hn Hl; [lia|]. destruct l as [|x l]; [done|]. cbn in Hl. destruct n as [|[|n]]; [lia| |].
  - destruct l as [|y [|]]; done.
  - change (__ARGCONCAT (S (S (S n))) s (x :: l)) with (r ← __ARGCONCAT (S (S n)) s l; Some ([x; s] ++ r)). rewrite IH by lia.
    destruct l as [|y l]; [done|]. done.
Qed.

Lemma argrepeat_items n s x : (1 < n)%nat → __ARGREPEAT n s x = separated s (replicate n x).
Proof.
  induction n as [|n IH]; intros Hn; [lia|]. destruct n as [|[|n]]; [lia|done|].
  change (__ARGREPEAT (S (S (S n))) s x) with ([x; s] ++ __ARGREPEAT (S (S n)) s x). by rewrite IH by lia.
Qed.

(** For one to nine arguments [ARGLIST] is a list of parameters, each with the
    type; for two to nine [ARGCONCAT] and [ARGREPEAT] put the separator between
    the items; for ten or more none of them expands. *)
Theorem argument_macros t s x l :
  (1 ≤ length l ≤ 9)%nat →
  ARGLIST t l = Some ((λ y, [t; y]) <$> l) ∧
  (1 < length l → ARGCONCAT s l = Some (separated s l) ∧ ARGREPEAT s x l = Some (separated s (replicate (length l) x)))%nat.
Proof.
  intros Hl. assert (va_args l = l) as Hv by (destruct l; [cbn in Hl; lia|done]).
  unfold ARGLIST, ARGCONCAT, ARGREPEAT. rewrite args_len_small by (rewrite Hv; lia). rewrite Hv. cbn [by_length]. rewrite !decide_True by lia.
  split; [apply arglist_items; [lia|done]|]. intros H1. split; [by apply argconcat_items|]. by rewrite argrepeat_items.
Qed.

(** With one item the separator comes after it. *)
Example one_item_separator :
  (ARGCONCAT ";" ["a"] = Some ["a"; ";"] ∧ ARGREPEAT ";" "a" ["b"] = Some ["a"; ";"])%string.
Proof. split; reflexivity. Qed.

(** The signatures Java expects for [int start(Object)] and [int stop()]. *)
Example native_signatures : sig_start = Some "(Ljava/lang/Object;)I"%string ∧ sig_stop = Some "()I"%string.
Proof. split; reflexivity. Qed.
