(* ===== verification/Stdio.v ===== *)
(** * Buffered standard input, as the C library reads it

    A [FILE] over a descriptor: the bytes the library has read ahead, what each
    of the next calls of [read(2)] will return, and whether the other end is
    closed.  [poll] sees the descriptor only, which is what the programs that
    combine [poll] with [fgets] (io/read-stdin.c, tests/test_listener_client.cpp)
    depend on. *)
From Stdlib Require Import ZArith Lia.
From stdpp Require Import base tactics numbers list.
From S2P Require Import Prelude.

Open Scope Z_scope.

Definition NL : Z := 10.

Record FILE := MkFile { buffered : list Z; chunks : list (list Z); closed : bool }.

Definition POLLIN : Z := 1.
Definition POLLHUP : Z := 16.

(** What [poll] reports of a pipe: [POLLIN] for bytes, [POLLHUP] once the other
    end is closed, and both while bytes are left; 0 is a [poll] that blocks. *)
Definition revents (f : FILE) : Z :=
  Z.lor (if decide (chunks f = []) then 0 else POLLIN) (if closed f then POLLHUP else 0).

(** Of the bytes [s], those up to a newline and at most [n]; [true] when that is
    a whole answer, [false] when more is needed. *)
Fixpoint take_line (n : nat) (s : list Z) : list Z * list Z * bool :=
  match n, s with
  | O, _ => ([], s, true)
  | S _, [] => ([], [], false)
  | S n, c :: s =>
      if decide (c = NL) then ([c], s, true)
      else let '(l, r, d) := take_line n s in (c :: l, r, d)
  end.

Inductive line := Line (s : list Z) (f : FILE) | Null (f : FILE) | Blocks.

(** [fgets(buf, n + 1, f)], with [acc] read so far. *)
Fixpoint fgets_loop (n : nat) (acc buf : list Z) (cs : list (list Z)) (e : bool) : line :=
  let '(l, r, d) := take_line n buf in
  if d : bool then Line (acc ++ l) (MkFile r cs e)
  else
    match cs with
    | c :: cs => fgets_loop (n - length l) (acc ++ l) c cs e
    | [] =>
        if e then match acc ++ l with [] => Null (MkFile [] [] e) | s => Line s (MkFile [] [] e) end
        else Blocks
    end.

Definition fgets (n : nat) (f : FILE) : line := fgets_loop n [] (buffered f) (chunks f) (closed f).

(** ** io/read-stdin.c *)

(** What the program prints of a round: the bytes left, and the line in [buf],
    which [%s] prints up to its first zero byte; no line in the last round. *)
Record printed := Printed { left_bytes : Z; input : list Z }.

Inductive ending := Quit (f : FILE) | Waits (f : FILE) | Reads (f : FILE).

Definition NREAD (f : FILE) : Z := zlen (concat (chunks f)).

(** One iteration of the loop; it ends at the [break], or where [poll] or
    [fgets] waits. *)
Definition read_stdin_body (x : FILE * list printed) : outcome (FILE * list printed + ending * list printed) :=
  let '(f, out) := x in
  if decide (revents f = 0) then Ret (inr (Waits f, out))
  else if decide (Z.land (revents f) POLLIN ≠ 0) then
    match fgets 63 f with
    | Line s f' =>
        if decide (head s = Some 0) then Ret (inr (Quit f', out ++ [Printed (NREAD f) []]))
        else Ret (inl (f', out ++ [Printed (NREAD f) s]))
    | Null f' => Ret (inr (Quit f', out ++ [Printed (NREAD f) []]))
    | Blocks => Ret (inr (Reads f, out ++ [Printed (NREAD f) []]))
    end
  else Ret (inl (f, out)).

Definition read_stdin_main (fuel : nat) (f : FILE) : outcome (ending * list printed) :=
  while_fuel fuel read_stdin_body (f, []).

(** Everything that is still to be read. *)
Definition pending (f : FILE) : list Z := buffered f ++ concat (chunks f).

(** ** Lemmas *)
Lemma take_line_app n s l r d : take_line n s = (l, r, d) → s = l ++ r ∧ (length l ≤ n)%nat ∧ (d = false → r = [] ∧ (length l < n)%nat).
Proof.
  revert s l r d. induction n as [|n IH]; intros [|c s] l r d; cbn [take_line]; try (intros [= <- <- <-]; cbn; split_and!; [done|lia|done]).
  - intros [= <- <- <-]. cbn. split_and!; [done|lia|]. split; [done|lia].
  - case_decide; [intros [= <- <- <-]; cbn; split_and!; [done|lia|done]|].
    destruct (take_line n s) as [[l' r'] d'] eqn:E. intros [= <- <- <-].
    destruct (IH _ _ _ _ E) as (-> & Hl & Hd). cbn [length app]. split_and!; [done|lia|].
    intros H'. destruct (Hd H'). split; [done|lia].
Qed.

(** Nothing is lost, nothing is read twice, and the buffer is big enough. *)
Lemma fgets_keeps n f s f' : fgets n f = Line s f' → pending f = s ++ pending f' ∧ (length s ≤ n)%nat ∧ closed f' = closed f.
Proof.
  unfold fgets, pending. destruct f as [buf cs e]. cbn [buffered chunks closed].
  enough (∀ acc k, (length acc + k = n)%nat → fgets_loop k acc buf cs e = Line s f' →
    acc ++ buf ++ concat cs = s ++ buffered f' ++ concat (chunks f') ∧ (length s ≤ n)%nat ∧ closed f' = e) as H
    by (intros E; by apply (H [] n)).
  revert buf. induction cs as [|c cs IH]; intros buf acc k Hk; cbn [fgets_loop];
    destruct (take_line k buf) as [[l r] d] eqn:E; destruct (take_line_app _ _ _ _ _ E) as (-> & Hl & Hd); destruct d.
  - intros [= <- <-]. cbn. rewrite length_app, <- !app_assoc. split_and!; [done|lia|done].
  - destruct (Hd eq_refl) as [-> Hl']. destruct e; [|done]. rewrite app_nil_r. cbn [concat]. rewrite app_nil_r.
    destruct (acc ++ l) as [|x a] eqn:Ea; [done|]. intros [= <- <-]. cbn. rewrite app_nil_r.
    apply (f_equal length) in Ea. rewrite length_app in Ea. cbn in Ea. split_and!; [done|lia|done].
  - intros [= <- <-]. cbn. rewrite length_app, <- !app_assoc. split_and!; [done|lia|done].
  - destruct (Hd eq_refl) as [-> Hl']. rewrite app_nil_r. intros H.
    destruct (IH c (acc ++ l) (k - length l)%nat ltac:(rewrite length_app; lia) H) as (E' & ? & ?).
    cbn [concat]. rewrite <- E', <- !app_assoc. by split_and!.
Qed.

(** A line without its newline. *)
Definition plain (s : list Z) : Prop := NL ∉ s.

Lemma take_line_plain n s r : plain s → (length s < n)%nat → take_line n (s ++ NL :: r) = (s ++ [NL], r, true).
Proof.
  revert n. induction s as [|c s IH]; intros n Hs Hn; (destruct n as [|n]; [cbn in Hn; lia|]); cbn [app take_line].
  - by rewrite decide_True.
  - apply not_elem_of_cons in Hs as [? Hs]. rewrite decide_False by done. rewrite IH; [done|done|cbn in Hn; lia].
Qed.

(** A line that comes alone is read whole and leaves nothing behind. *)
Lemma fgets_alone n s e : plain s → (length s < n)%nat →
  fgets n (MkFile [] [s ++ [NL]] e) = Line (s ++ [NL]) (MkFile [] [] e).
Proof.
  intros Hs Hn. unfold fgets. cbn [buffered chunks closed fgets_loop]. destruct n as [|n]; [lia|]. cbn [take_line length].
  rewrite Nat.sub_0_r. cbn [fgets_loop]. cbn [app]. by rewrite (take_line_plain (S n) s []).
Qed.

(** Two lines that come together: the second stays in the library's buffer,
    where [poll] does not see it. *)
Lemma second_line_hidden n s t : plain s → (length s < n)%nat →
  ∃ f, fgets n (MkFile [] [s ++ NL :: t ++ [NL]] false) = Line (s ++ [NL]) f ∧ pending f = t ++ [NL] ∧ revents f = 0.
Proof.
  intros Hs Hn. unfold fgets. cbn [buffered chunks closed fgets_loop]. destruct n as [|n]; [lia|]. cbn [take_line length].
  rewrite Nat.sub_0_r. cbn [fgets_loop]. cbn [app]. rewrite (take_line_plain (S n) s) by done.
  eexists. split; [done|]. unfold pending. cbn. by rewrite app_nil_r.
Qed.

(** ** Properties of io/read-stdin.c *)
Lemma fgets_progress n f s f' : fgets (S n) f = Line s f' → s ≠ [].
Proof.
  unfold fgets. destruct f as [buf cs e]. cbn [buffered chunks closed].
  enough (∀ acc k, acc ≠ [] ∨ (0 < k)%nat → fgets_loop k acc buf cs e = Line s f' → s ≠ []) as H
    by (intros E; apply (H [] (S n)); [right; lia|done]).
  revert buf. induction cs as [|c cs IH]; intros buf acc k Hk; cbn [fgets_loop];
    destruct (take_line k buf) as [[l r] d] eqn:E; destruct (take_line_app _ _ _ _ _ E) as (-> & Hl & Hd);
    (destruct d; [intros [= <- <-] [-> ->]%app_eq_nil; destruct Hk as [Hk|Hk]; [done|]; destruct k; [lia|]|]).
  - destruct r as [|c r]; [done|]. cbn in E. case_decide; [done|]. by destruct (take_line k r) as [[??]?].
  - destruct e; [|done]. destruct (acc ++ l) as [|x a]; [done|]. by intros [= <- <-].
  - destruct r as [|c' r]; [done|]. cbn in E. case_decide; [done|]. by destruct (take_line k r) as [[??]?].
  - destruct (Hd eq_refl) as [-> Hl']. apply IH. right. lia.
Qed.

Definition ending_file (x : ending) : FILE := match x with Quit f | Waits f | Reads f => f end.

Lemma fgets_open n f : closed f = false → (∃ s f', fgets n f = Line s f') ∨ fgets n f = Blocks.
Proof.
  unfold fgets. destruct f as [buf cs e]. cbn [buffered chunks closed]. intros ->.
  generalize (@nil Z). revert n buf. induction cs as [|c cs IH]; intros n buf acc; cbn [fgets_loop];
    destruct (take_line n buf) as [[l r] []]; eauto.
Qed.

(** The rest of the loop, from what was printed so far. *)
Lemma read_stdin_loop k f out :
  closed f = false → (length (pending f) < k)%nat →
  ∃ x out' lost, while_fuel k read_stdin_body (f, out) = Ret (x, out ++ out') ∧
    pending f = concat (map input out') ++ lost ++ pending (ending_file x) ∧
    Forall (λ p, (length (input p) ≤ 63)%nat) out' ∧
    (lost = [] ∨ head lost = Some 0 ∧ x = Quit (ending_file x)).
Proof.
  revert f out. induction k as [|k IH]; intros f out Hc Hk; [lia|]. rewrite while_fuel_S. unfold read_stdin_body at 2. cbv beta iota.
  destruct (decide (revents f = 0)) as [H0|H0]; [by exists (Waits f), [], []; rewrite app_nil_r; split_and!; [..|left]|]. unfold revents in *. rewrite Hc in *.
  destruct (decide (chunks f = [])) as [|_]; [done|]. rewrite decide_True by done.
  destruct (fgets_open 63 f Hc) as [(s & f' & E)| ->];
    [|by exists (Reads f), [Printed (NREAD f) []], []; cbn; split_and!; [..|repeat constructor; cbn; lia|left]]. rewrite E.
  pose proof (fgets_progress 62 f s f' E) as Hs. destruct (fgets_keeps _ _ _ _ E) as (Hp & Hl & Hc').
  destruct (decide (head s = Some 0)) as [Hz|Hz]; cbn [mbind outcome_bind].
  - exists (Quit f'), [Printed (NREAD f) []], s. cbn. split_and!; [done..|repeat constructor; cbn; lia|by right].
  - destruct (IH f' (out ++ [Printed (NREAD f) s])) as (x & out' & lost & -> & Hp' & Hf & Hlost); [congruence| |].
    { rewrite Hp, length_app in Hk. destruct s; [done|]. cbn in Hk. lia. }
    exists x, (Printed (NREAD f) s :: out'), lost. rewrite <- app_assoc. cbn [map concat input app].
    rewrite Hp, Hp', <- !app_assoc. split_and!; [done..|by constructor|done].
Qed.

(** As long as the writer keeps its end open, io/read-stdin.c comes to rest: it
    has printed the input in order, in lines of at most 63 bytes, without a
    byte lost or twice, up to what is still in the library's buffer and in the
    pipe; only a line that begins with a zero byte is dropped, and ends the
    program. *)
Theorem read_stdin_prints f :
  closed f = false →
  ∃ x out lost, read_stdin_main (S (length (pending f))) f = Ret (x, out) ∧
    pending f = concat (map input out) ++ lost ++ pending (ending_file x) ∧
    Forall (λ p, (length (input p) ≤ 63)%nat) out ∧
    (lost = [] ∨ head lost = Some 0 ∧ x = Quit (ending_file x)).
Proof. intros Hc. apply (read_stdin_loop (S (length (pending f))) f [] Hc). lia. Qed.

Lemma read_stdin_prints_witness :
  let f := MkFile [] [[104; 105; 10; 104]; [111; 10]] false in
  ∃ x out lost, read_stdin_main (S (length (pending f))) f = Ret (x, out) ∧
    pending f = concat (map input out) ++ lost ++ pending (ending_file x) ∧
    Forall (λ p, (length (input p) ≤ 63)%nat) out ∧
    (lost = [] ∨ head lost = Some 0 ∧ x = Quit (ending_file x)).
Proof. apply (read_stdin_prints (MkFile [] [[104; 105; 10; 104]; [111; 10]] false)). reflexivity. Defined.

(** Once the writer of a pipe has closed its end and everything is read, [poll]
    reports only [POLLHUP]: the program spins. *)
Lemma read_stdin_spins fuel buf : read_stdin_main fuel (MkFile buf [] true) = NoFuel.
Proof.
  unfold read_stdin_main. generalize (@nil printed). induction fuel as [|fuel IH]; intros out; [done|].
  cbn [while_fuel]. unfold read_stdin_body at 1. exact (IH out).
Qed.
