(* ===== verification/ListenerClient.v ===== *)
(** * socket/monitor/tests/test_listener_client.cpp: a peer of the listener

    The program reads requests from its input and messages from the listener:
    it sends what it can parse, prints the responses and sends every ping back
    as a pong.  Below it is joined with [Listener]: the bytes of each are the
    input of the other.  Frames and messages are those of [Message], the input
    is that of [Stdio]. *)
From Stdlib Require Import ZArith Lia.
From stdpp Require Import base tactics numbers list gmap sets.
From S2P Require Import Prelude.
From S2P Require Import NameCodec.
From S2P Require Import WeightCodec.
From S2P Require Import Message.
From S2P Require Import TaskRunner.
From S2P Require Import TimerRunner.
From S2P Require Import Listener.
From S2P Require Import Stdio.

Open Scope Z_scope.

(** ** The input *)

Definition scan_sign (s : list Z) : Z * list Z :=
  match s with
  | c :: s' => if decide (c = 45) then (-1, s') else if decide (c = 43) then (1, s') else (1, s)
  | [] => (1, [])
  end.

(** [%d]: blanks, a sign, digits; [None] when there is none, undefined when the
    value is no [int]. *)
Definition scan_d (s : list Z) : outcome (option (Z * list Z)) :=
  let '(sign, s) := scan_sign (skip_spaces s) in
  let '(d, r) := span_digits s in
  if decide (d = []) then Ret None
  else v ← int_result (sign * digits_value 0 d); Ret (Some (v, r)).

(** [sscanf(buf, "%d %d", &a1, &a2) == 2]: the result and the two targets. *)
Definition parseInput (buf : list Z) (a1 a2 : Z) : outcome (bool * Z * Z) :=
  x ← scan_d buf;
  match x with
  | None => Ret (false, a1, a2)
  | Some (a1, r) =>
      y ← scan_d (skip_spaces r);
      match y with
      | None => Ret (false, a1, a2)
      | Some (a2, _) => Ret (true, a1, a2)
      end
  end.

(** [unsigned(c)] of a [char], which is signed. *)
Definition char_unsigned (c : Z) : Z := u32 (s8 c).

(** [v2s]: every byte is printed into a buffer of 8 bytes first. *)
Fixpoint v2s (v : list Z) : outcome (list Z) :=
  match v with
  | [] => Ret []
  | c :: v =>
      '(_, buf) ← sprintf (replicate 8 0) 0 (fmt_x (char_unsigned c) ++ [44]);
      t ← c_string buf;
      r ← v2s v;
      Ret (t ++ r)
  end.

(** ** The program *)
Inductive clog :=
| Requested (a b : Z) | InvalidInput | StdinError | ServerGone
| Responded (r1 r2 : list Z) | UnpackFailed | PingSeen | UnknownMessage.

(** [inbox]: the bytes the listener sends, [outbox]: those sent to it. *)
Record client := MkClient { stdin_ : FILE; inbox : list Z; outbox : list Z; logs : list clog; running : bool }.

Inductive branch := Goes (c : client) | Continues (c : client) | BlocksIn.

Definition say (x : clog) (c : client) : client :=
  let '(MkClient f i o l r) := c in MkClient f i o (l ++ [x]) r.
Definition leave (c : client) : client := let '(MkClient f i o l _) := c in MkClient f i o l false.

(** The first branch: a line of the input. *)
Definition on_stdin (c : client) : outcome branch :=
  let '(MkClient f i o l r) := c in
  match fgets 63 f with
  | Blocks => Ret BlocksIn
  | Null f => Ret (Continues (leave (say StdinError (MkClient f i o l r))))
  | Line s f =>
      '(ok, a, b) ← parseInput s 0 0;
      if ok : bool then Ret (Goes (say (Requested a b) (MkClient f i (o ++ raw_write (Raw MSGREQUEST (MsgRequest_pack (a, b)))) l r)))
      else Ret (Continues (say InvalidInput (MkClient f i o l r)))
  end.

(** The second: a message of the listener. *)
Definition on_socket (c : client) : outcome client :=
  let '(MkClient f i o l r) := c in
  let '(ok, raw, i) := raw_read (Raw MSGNOTHING []) i in
  let c := MkClient f i o l r in
  if ok : bool then
    if decide (type raw = MSGRESPONSE) then
      '(ok, _, res) ← unpack (A := MsgResponse) (payload raw) (MkUnpacker 0 (zlen (payload raw))) fresh;
      if ok : bool then t ← v2s (elems res.2); Ret (say (Responded (chars res.1) t) c)
      else Ret (say UnpackFailed c)
    else if decide (type raw = MSGPING) then
      Ret (say PingSeen (MkClient f i (o ++ raw_write (Raw MSGPONG (payload raw))) l r))
    else Ret (say UnknownMessage c)
  else Ret (leave (say ServerGone c)).

(** One iteration, after a [poll] that reports [r0] and [r1]; [None] blocks. *)
Definition client_round (r0 r1 : Z) (c : client) : outcome (option client) :=
  x ← (if decide (r0 = POLLIN) then on_stdin c else Ret (Goes c));
  match x with
  | BlocksIn => Ret None
  | Continues c => Ret (Some c)
  | Goes c => if decide (r1 = POLLIN) then c ← on_socket c; Ret (Some c) else Ret (Some c)
  end.

(** ** The two together *)





Section session.
Context (dbl : Z → MsgHeartbeat) (undbl : MsgHeartbeat → Z).
Abbreviation lexec := (lexec dbl undbl).







End session.








(** ** Lemmas: the program *)








(** ** The two together *)
Section refinement.
Context (dbl : Z → MsgHeartbeat) (undbl : MsgHeartbeat → Z).
Context (dbl_bytes : ∀ t, length (dbytes (dbl t)) = 8%nat).








End refinement.


(** ** What goes wrong *)

(** A response with a byte of 128 or more overruns the buffer of [v2s]. *)
Lemma v2s_overruns c v : 128 ≤ c < 256 → v2s (c :: v) = Undef.
Proof.
  intros Hc. cbn [v2s].
  assert (Forall (λ c, sprintf (replicate 8 0) 0 (fmt_x (char_unsigned c) ++ [44]) = Undef) (seqZ 128 128)) as Hall
    by (apply (bool_decide_unpack _); vm_compute; exact I).
  rewrite Forall_forall in Hall. rewrite Hall by (apply elem_of_seqZ; lia). done.
Qed.

(** Input from a pipe whose writer has gone is never read: [poll] reports
    [POLLIN | POLLHUP], which the program compares with [POLLIN]. *)
Lemma hangup_ignored c s cs buf :
  stdin_ c = MkFile buf (s :: cs) true → client_round (revents (stdin_ c)) 0 c = Ret (Some c).
Proof. intros ->. done. Qed.

(** A line that is no request makes the round skip the listener's message. *)
Lemma invalid_skips_socket f i o l s :
  fgets 63 f = Line s f → parseInput s 0 0 = Ret (false, 0, 0) →
  client_round POLLIN POLLIN (MkClient f i o l true) = Ret (Some (MkClient f i o (l ++ [InvalidInput]) true)).
Proof. intros E P. unfold client_round, on_stdin. rewrite decide_True, E, P by done. done. Qed.
