(* ===== verification/Preproc.v ===== *)
(** * macro.h: the recursive macros, and the preprocessor that expands them

    [MAP] calls itself for each of its arguments, which the preprocessor forbids
    within one scan; [EVAL] scans its arguments over and over.  Whether that
    works depends on how macros are expanded, which is modelled here as gcc does
    it: a macro's replacement is scanned with the macro disabled until the scan
    has passed its end ([Pop]); a name that is met while its macro is disabled
    is painted, and never expanded again; arguments are expanded on their own
    before they are substituted, unless they are operands of a paste.

    The table below has the lines of macro.h; trivial/seq_macro.c is run on it. *)
From Stdlib Require Import ZArith Lia String.
From stdpp Require Import base tactics numbers list strings.

(** ** Tokens *)
Inductive tok := W (s : string) | LP | RP | Comma | Punct (s : string).

#[export] Instance tok_eq_dec : EqDecision tok.
Proof. solve_decision. Defined.

(** A token and whether it is painted. *)
Definition tk : Type := tok * bool.

Definition new (t : tok) : tk := (t, false).

(** What is scanned: tokens, and the ends of replacements. *)
Inductive item := Tk (t : tk) | Pop (m : string).

(** ** Macros *)

(** A replacement: tokens, and pastes of two. *)
Inductive body_item := B (t : tok) | Paste (l r : tok).

Inductive macro :=
| Obj (body : list body_item)
| Fun (params : list string) (variadic : bool) (body : list body_item).

Definition table := list (string * macro).

Fixpoint find (x : string) (ms : table) : option macro :=
  match ms with
  | [] => None
  | (y, m) :: ms => if decide (x = y) then Some m else find x ms
  end.

(** ** Arguments *)

(** The next token opens the arguments: what is disabled then, and the rest. *)
Fixpoint skip_open (D : list string) (s : list item) : option (list string * list item) :=
  match s with
  | Pop m :: s => skip_open (filter (.≠ m) D) s
  | Tk (LP, _) :: s => Some (D, s)
  | _ => None
  end.

(** A token of an argument: a disabled name is painted. *)
Definition read_tk (D : list string) (t : tk) : tk :=
  match t with
  | (W x, false) => (W x, bool_decide (x ∈ D))
  | t => t
  end.

(** Arguments up to the matching parenthesis, at a depth: the one under way, the
    ones before it in reverse. *)
Fixpoint collect (D : list string) (depth : nat) (cur : list tk) (args : list (list tk)) (s : list item) :
    option (list (list tk) * list string * list item) :=
  match s with
  | [] => None
  | Pop m :: s => collect (filter (.≠ m) D) depth cur args s
  | Tk (LP, p) :: s => collect D (S depth) (cur ++ [(LP, p)]) args s
  | Tk (RP, p) :: s =>
      match depth with
      | O => Some (args ++ [cur], D, s)
      | S depth => collect D depth (cur ++ [(RP, p)]) args s
      end
  | Tk (Comma, p) :: s =>
      match depth with
      | O => collect D O [] (args ++ [cur]) s
      | S _ => collect D depth (cur ++ [(Comma, p)]) args s
      end
  | Tk t :: s => collect D depth (cur ++ [read_tk D t]) args s
  end.

(** The arguments beyond the named ones, with their commas. *)
Fixpoint join (args : list (list tk)) : list tk :=
  match args with
  | [] => []
  | [a] => a
  | a :: args => a ++ new Comma :: join args
  end.

(** Names and their arguments, or a wrong number of arguments. *)
Definition bind_args (params : list string) (variadic : bool) (args : list (list tk)) (va : list (list tk) → list tk) :
    option (list (string * list tk)) :=
  if variadic then
    if decide (length params ≤ length args) then Some (zip params args ++ [("__VA_ARGS__"%string, va (drop (length params) args))])
    else None
  else if decide (length params = length args) then Some (zip params args)
  else if decide (params = [] ∧ args = [[]]) then Some []
  else None.

(** ** Substitution *)
Fixpoint lookup_arg {A} (x : string) (b : list (string * A)) : option A :=
  match b with
  | [] => None
  | (y, a) :: b => if decide (x = y) then Some a else lookup_arg x b
  end.

Definition value (b : list (string * list tk)) (t : tok) : list tk :=
  match t with
  | W x => match lookup_arg x b with Some a => a | None => [new t] end
  | t => [new t]
  end.

(** [l ## r]: the last token of one and the first of the other become one. *)
Definition paste (l r : list tk) : option (list tk) :=
  match last l, r with
  | None, _ => Some r
  | _, [] => Some l
  | Some (W a, _), (W b, _) :: r => Some (take (length l - 1) l ++ new (W (a ++ b)) :: r)
  | _, _ => None
  end.

(** A replacement: operands of a paste are not expanded before. *)
Fixpoint subst (raw full : list (string * list tk)) (body : list body_item) : option (list tk) :=
  match body with
  | [] => Some []
  | B t :: body => r ← subst raw full body; Some (value full t ++ r)
  | Paste a b :: body => p ← paste (value raw a) (value raw b); r ← subst raw full body; Some (p ++ r)
  end.

(** ** Expansion *)
Section expand.
Context (ms : table).

(** All of a list, or nothing. *)
Fixpoint all {A B} (f : A → option B) (l : list A) : option (list B) :=
  match l with
  | [] => Some []
  | a :: l => b ← f a; r ← all f l; Some (b :: r)
  end.

(** One scan.  [None]: a malformed call, an impossible paste, or no fuel. *)
Fixpoint expand (fuel : nat) (D : list string) (s : list item) : option (list tk) :=
  match fuel with
  | O => None
  | S fuel =>
      match s with
      | [] => Some []
      | Pop m :: s => expand fuel (filter (.≠ m) D) s
      | Tk (W x, false) :: s =>
          match find x ms with
          | None => r ← expand fuel D s; Some (new (W x) :: r)
          | Some m =>
              if decide (x ∈ D) then r ← expand fuel D s; Some ((W x, true) :: r)
              else
                match m with
                | Obj body => b ← subst [] [] body; expand fuel (x :: D) (map Tk b ++ Pop x :: s)
                | Fun params variadic body =>
                    match skip_open D s with
                    | None => r ← expand fuel D s; Some (new (W x) :: r)
                    | Some (D', s') =>
                        '(args, D'', s'') ← collect D' O [] [] s';
                        raw ← bind_args params variadic args join;
                        full ← all (λ p, a ← expand fuel D'' (map Tk p.2); Some (p.1, a)) raw;
                        b ← subst raw full body;
                        expand fuel (x :: D'') (map Tk b ++ Pop x :: s'')
                    end
                end
          end
      | Tk t :: s => r ← expand fuel D s; Some (t :: r)
      end
  end.
End expand.

(** ** The macros of macro.h *)
Definition w (s : string) : body_item := B (W s).
Definition lp : body_item := B LP.
Definition rp : body_item := B RP.
Definition va : body_item := w "__VA_ARGS__".

(** [_EVALn(...)]: [_EVALm(_EVALm(__VA_ARGS__))] *)
Definition twice (m : string) : macro := Fun [] true [w m; lp; w m; lp; va; rp; rp].

Definition macro_h : table := [
  ("_CAT", Fun ["x"; "y"] false [Paste (W "x") (W "y")]);
  ("_FIRST", Fun ["_1"] true [w "_1"]);
  ("_SECOND", Fun ["_1"; "_2"] true [w "_2"]);
  ("_IS_PROBE", Fun [] true [w "_SECOND"; lp; va; B Comma; w "0"; rp]);
  ("_PROBE", Fun [] false [B (Punct "~"); B Comma; w "1"]);
  ("_NOT", Fun ["x"] false [w "_IS_PROBE"; lp; w "_CAT"; lp; w "_NOT_"; B Comma; w "x"; rp; rp]);
  ("_NOT_0", Obj [w "_PROBE"; lp; rp]);
  ("_BOOL", Fun ["x"] false [w "_NOT"; lp; w "_NOT"; lp; w "x"; rp; rp]);
  ("_IF_ELSE", Fun ["x"] false [w "__IF_ELSE"; lp; w "_BOOL"; lp; w "x"; rp; rp]);
  ("__IF_ELSE", Fun ["x"] false [w "_CAT"; lp; w "_IF_"; B Comma; w "x"; rp]);
  ("_IF_1", Fun [] true [va; w "_IF_1_ELSE"]);
  ("_IF_0", Fun [] true [w "_IF_0_ELSE"]);
  ("_IF_1_ELSE", Fun [] true []);
  ("_IF_0_ELSE", Fun [] true [va]);
  ("EVAL", Fun [] true [w "_EVAL1024"; lp; va; rp]);
  ("_EVAL1024", twice "_EVAL512"); ("_EVAL512", twice "_EVAL256"); ("_EVAL256", twice "_EVAL128");
  ("_EVAL128", twice "_EVAL64"); ("_EVAL64", twice "_EVAL32"); ("_EVAL32", twice "_EVAL16");
  ("_EVAL16", twice "_EVAL8"); ("_EVAL8", twice "_EVAL4"); ("_EVAL4", twice "_EVAL2"); ("_EVAL2", twice "_EVAL1");
  ("_EVAL1", Fun [] true [va]);
  ("_EMPTY", Fun [] false []);
  ("_DEFER1", Fun ["x"] false [w "x"; w "_EMPTY"; lp; rp]);
  ("_DEFER2", Fun ["x"] false [w "x"; w "_EMPTY"; w "_EMPTY"; lp; rp; lp; rp]);
  ("_HAS_ARGS", Fun [] true [w "_BOOL"; lp; w "_FIRST"; lp; w "_END_OF_ARGS"; va; rp; lp; rp; rp]);
  ("_END_OF_ARGS", Fun [] false [w "0"]);
  ("MAP", Fun ["op"; "x"] true [w "op"; lp; w "x"; rp; w "_IF_ELSE"; lp; w "_HAS_ARGS"; lp; va; rp; rp;
     lp; w "_DEFER2"; lp; w "_MAP"; rp; lp; rp; lp; w "op"; B Comma; va; rp; rp; lp; rp]);
  ("_MAP", Fun [] false [w "MAP"])
]%string.

(** A source line scanned from the beginning. *)
Definition scan (ms : table) (fuel : nat) (s : list tok) : option (list tok) :=
  r ← expand ms fuel [] (map (λ t, Tk (new t)) s); Some (map fst r).

Lemma filter_head (x : string) D : x ∉ D → filter (.≠ x) (x :: D) = D.
Proof.
  intros Hx. rewrite filter_cons_False by (intros ?; done). induction D as [|y D IH]; [done|].
  apply not_elem_of_cons in Hx as [? Hx]. rewrite filter_cons_True by done. f_equal. auto.
Qed.

(** ** Rules of expansion

    [Exp]: with enough fuel, a scan of [s] gives [r]. *)
Section rules.
Context (ms : table).

Definition Exp (D : list string) (s : list item) (r : list tk) : Prop :=
  ∃ n, ∀ m, n ≤ m → expand ms m D s = Some r.

Lemma Exp_nil D : Exp D [] [].
Proof. exists 1. intros [|m] Hm; [lia|done]. Qed.

Lemma Exp_pop D m s r : Exp (filter (.≠ m) D) s r → Exp D (Pop m :: s) r.
Proof. intros [n H]. exists (S n). intros [|k] Hk; [lia|]. apply H. lia. Qed.

(** A token that stays: punctuation, a painted name, a name of no macro. *)
Definition inert (t : tk) : Prop := match t with (W x, false) => find x ms = None | _ => True end.

Lemma Exp_inert D t s r : inert t → Exp D s r → Exp D (Tk t :: s) (t :: r).
Proof.
  intros Ht [n H]. exists (S n). intros [|k] Hk; [lia|]. cbn [expand]. specialize (H k ltac:(lia)).
  destruct t as [[x| | | |] []]; cbn in Ht; try rewrite Ht; by rewrite H.
Qed.

Lemma Exp_inert_list D t s r : Forall inert t → Exp D s r → Exp D (map Tk t ++ s) (t ++ r).
Proof. induction 1; [done|]. intros. cbn. apply Exp_inert; auto. Qed.

Lemma Exp_alone D t r : Exp D (map Tk t ++ []) (r ++ []) → Exp D (map Tk t) r.
Proof. by rewrite !app_nil_r. Qed.

(** A macro with parameters, and no arguments after its name. *)
Lemma Exp_no_call D x ps v b s r :
  find x ms = Some (Fun ps v b) → x ∉ D → skip_open D s = None → Exp D s r → Exp D (Tk (new (W x)) :: s) (new (W x) :: r).
Proof.
  intros Hf Hx Ho [n H]. exists (S n). intros [|k] Hk; [lia|]. cbn [expand new]. rewrite Hf, decide_False, Ho by done.
  by rewrite H by lia.
Qed.

Lemma Exp_obj D x b b' s r :
  find x ms = Some (Obj b) → x ∉ D → subst [] [] b = Some b' → Exp (x :: D) (map Tk b' ++ Pop x :: s) r →
  Exp D (Tk (new (W x)) :: s) r.
Proof.
  intros Hf Hx Hs [n H]. exists (S n). intros [|k] Hk; [lia|]. cbn [expand new]. rewrite Hf, decide_False, Hs by done.
  apply H. lia.
Qed.

(** The arguments of a call, expanded on their own. *)
Definition args_expand (D : list string) : list (string * list tk) → list (string * list tk) → Prop :=
  Forall2 (λ p q, q.1 = p.1 ∧ Exp D (map Tk p.2) q.2).

Lemma all_expand D raw full : args_expand D raw full →
  ∃ n, ∀ m, n ≤ m → all (λ p, a ← expand ms m D (map Tk p.2); Some (p.1, a)) raw = Some full.
Proof.
  induction 1 as [|p [y a] raw full [Hn [n1 H1]] Hr [n2 H2]]; [by exists 0|]. exists (n1 + n2). intros m Hm. cbn [all].
  cbn in Hn, H1. rewrite H1 by lia. cbn. rewrite H2 by lia. cbn. by subst.
Qed.

Lemma Exp_call D x ps v b s D' s' args D'' s'' raw full b' r :
  find x ms = Some (Fun ps v b) → x ∉ D → skip_open D s = Some (D', s') →
  collect D' 0 [] [] s' = Some (args, D'', s'') → bind_args ps v args join = Some raw →
  args_expand D'' raw full → subst raw full b = Some b' →
  Exp (x :: D'') (map Tk b' ++ Pop x :: s'') r → Exp D (Tk (new (W x)) :: s) r.
Proof.
  intros Hf Hx Ho Hc Hb Ha Hs [n H]. destruct (all_expand _ _ _ Ha) as [n' H']. exists (S (n + n')).
  intros [|k] Hk; [lia|]. cbn [expand new]. rewrite Hf, decide_False, Ho by done. cbn. rewrite Hc. cbn. rewrite Hb. cbn.
  rewrite H' by lia. cbn. rewrite Hs. cbn. apply H. lia.
Qed.

(** The scan passes the end of a replacement. *)
Lemma Exp_leave D x s r : x ∉ D → Exp D s r → Exp (x :: D) (Pop x :: s) r.
Proof.
  intros Hx H. apply Exp_pop. by rewrite filter_head.
Qed.
End rules.

(** ** Arguments *)

(** Parentheses match, from a depth on; commas are new. *)
Fixpoint balanced (d : nat) (t : list tk) : bool :=
  match t with
  | [] => bool_decide (d = 0)
  | (LP, _) :: t => balanced (S d) t
  | (RP, _) :: t => match d with O => false | S d => balanced d t end
  | (Comma, p) :: t => (bool_decide (d ≠ 0) || negb p) && balanced d t
  | _ :: t => balanced d t
  end.

(** No name of [t] is disabled. *)
Definition allowed (D : list string) (t : tk) : Prop := match t with (W x, false) => x ∉ D | _ => True end.

Lemma read_allowed D t : allowed D t → read_tk D t = t.
Proof. destruct t as [[x| | | |] []]; cbn; try done. intros. by rewrite bool_decide_false. Qed.

Lemma join_snoc_app args cur u : join (args ++ [cur ++ u]) = join (args ++ [cur]) ++ u.
Proof.
  induction args as [|a args IH]; [done|]. cbn [app]. destruct args as [|a' args].
  - cbn. by rewrite <- app_assoc.
  - cbn [app join] in *. rewrite IH. by rewrite <- app_assoc.
Qed.

Lemma join_snoc_new args cur : join ((args ++ [cur]) ++ [[]]) = join (args ++ [cur]) ++ [new Comma].
Proof.
  induction args as [|a args IH]; [done|]. cbn [app]. destruct args as [|a' args].
  - cbn. by rewrite <- app_assoc.
  - cbn [app join] in *. rewrite IH. by rewrite <- app_assoc.
Qed.

(** A balanced text is collected whole, whatever commas it has. *)
Lemma collect_all D d t cur args s :
  balanced d t = true → Forall (allowed D) t →
  ∃ args', collect D d cur args (map Tk t ++ Tk (new RP) :: s) = Some (args', D, s) ∧
    join args' = join (args ++ [cur]) ++ t ∧ args' ≠ [].
Proof.
  intros Hb Ht. revert d cur args Hb. induction Ht as [|[x p] t Hx Ht IH]; intros d cur args Hb; cbn [map app collect].
  - cbn in Hb. apply bool_decide_eq_true in Hb as ->. eexists. split; [done|]. rewrite app_nil_r. split; [done|]. by destruct args.
  - assert (∀ d' c, balanced d' t = true → ∃ args', collect D d' (cur ++ [c]) args (map Tk t ++ Tk (new RP) :: s) = Some (args', D, s) ∧
      join args' = join (args ++ [cur]) ++ c :: t ∧ args' ≠ []) as Hgo.
    { intros d' c Hd. destruct (IH d' (cur ++ [c]) args Hd) as (a' & -> & Hj & Hn). exists a'. split; [done|].
      by rewrite Hj, join_snoc_app, <- app_assoc. }
    destruct x; cbn [balanced] in Hb; try rewrite read_allowed by done; try (by apply Hgo).
    + destruct d; [done|]. by apply Hgo.
    + apply andb_true_iff in Hb as [Hp Hb]. destruct d; [|by apply Hgo]. destruct p; [done|].
      destruct (IH 0 [] (args ++ [cur]) Hb) as (a' & -> & Hj & Hn). exists a'. split; [done|].
      rewrite Hj, join_snoc_new, <- app_assoc. done.
Qed.

Lemma balanced_app d k t u : balanced d t = true → balanced (d + k) (t ++ u) = balanced k u.
Proof.
  revert d. induction t as [|[x p] t IH]; intros d; cbn [balanced app]; [by intros ->%bool_decide_eq_true|].
  destruct x; auto; [intros; by apply (IH (S d))|destruct d; [done|apply IH]|]. intros [Hp Hb]%andb_true_iff.
  rewrite IH by done. destruct d; [|by rewrite bool_decide_true by lia]. destruct p; [done|]. by rewrite orb_true_r.
Qed.

(** Below the top, a balanced text is part of the argument under way. *)
Lemma collect_nested D d e t cur args s :
  balanced e t = true → Forall (allowed D) t →
  collect D (e + S d) cur args (map Tk t ++ s) = collect D (S d) (cur ++ t) args s.
Proof.
  intros Hb Ht. revert e cur Hb. induction Ht as [|[x p] t Hx Ht IH]; intros e cur Hb; cbn [map app].
  - cbn in Hb. apply bool_decide_eq_true in Hb as ->. by rewrite app_nil_r.
  - assert (∀ c e, balanced e t = true → collect D (e + S d) (cur ++ [c]) args (map Tk t ++ s) = collect D (S d) (cur ++ c :: t) args s) as Hgo.
    { intros c e' He. rewrite IH by done. by rewrite <- app_assoc. }
    destruct x; cbn [balanced] in Hb; cbn [collect].
    + rewrite read_allowed by done. by apply Hgo.
    + by apply (Hgo (LP, p) (S e)).
    + destruct e; [done|]. by apply Hgo.
    + apply andb_true_iff in Hb as [_ Hb]. rewrite Nat.add_succ_r, <- Nat.add_succ_r. by apply Hgo.
    + rewrite read_allowed by done. by apply Hgo.
Qed.

Lemma args_cons ms D x a a' raw full :
  Exp ms D (map Tk a) a' → args_expand ms D raw full → args_expand ms D ((x, a) :: raw) ((x, a') :: full).
Proof. intros. constructor; [by split|done]. Qed.

(** ** [MAP] *)

(** One word as an argument, and words between commas. *)
Definition wd (a : string) : tk := new (W a).
Definition words (l : list string) : list tk := join (map (λ a, [wd a]) l).

(** The call that a scan of [MAP] leaves for the next one. *)
Definition pending (op : string) (l : list string) : list tk :=
  match l with
  | [] => []
  | _ => [wd "_MAP"; new LP; new RP; new LP; wd op; new Comma] ++ words l ++ [new RP]
  end.

(** The macros a step of [MAP] uses. *)
Definition family : list string :=
  ["_CAT"; "_FIRST"; "_SECOND"; "_IS_PROBE"; "_PROBE"; "_NOT"; "_NOT_0"; "_BOOL"; "_IF_ELSE"; "__IF_ELSE"; "_IF_1"; "_IF_0";
   "_IF_1_ELSE"; "_IF_0_ELSE"; "_EMPTY"; "_DEFER2"; "_HAS_ARGS"; "_END_OF_ARGS"; "MAP"; "_MAP"]%string.

(** Those of its test whether arguments are left. *)
Definition tests : list string :=
  ["_HAS_ARGS"; "_BOOL"; "_NOT"; "_IS_PROBE"; "_CAT"; "_SECOND"; "_NOT_0"; "_PROBE"; "_FIRST"; "_END_OF_ARGS"]%string.

Lemma words_cons a b l : words (a :: b :: l) = wd a :: new Comma :: words (b :: l).
Proof. done. Qed.

Section map.
Context (ms : table) (Hms : ∀ x m, find x macro_h = Some m → find x ms = Some m).

(** [D]: names of macro.h only, none of them [names]. *)
Definition off (names D : list string) : Prop :=
  Forall (.∉ D) names ∧ Forall (λ x, find x macro_h ≠ None) D.

Lemma off_cons names x D : off names D → x ∉ names → find x macro_h ≠ None → off names (x :: D).
Proof.
  intros [H1 H2] Hx Hf. split; [|by constructor]. rewrite Forall_forall in *. intros y Hy [-> |Hin]%elem_of_cons; [done|].
  by apply (H1 y).
Qed.

Lemma word_off D a : Forall (λ x, find x macro_h ≠ None) D → find a ms = None → a ∉ D.
Proof.
  intros HD Ha Hin. rewrite Forall_forall in HD. specialize (HD a Hin). destruct (find a macro_h) eqn:E; [|done].
  by rewrite (Hms _ _ E) in Ha.
Qed.

(** Words the macros of the family produce and that are no macros. *)
Definition leaves : list string := ["0"; "1"; "_NOT_"; "_NOT_1"; "_NOT__END_OF_ARGS"; "_IF_"]%string.
Context (Hleaf : Forall (λ x, find x ms = None) leaves).

Lemma leaf x : x ∈ leaves → find x ms = None.
Proof. rewrite Forall_forall in Hleaf. auto. Qed.

Lemma off_in names D x : off names D → x ∈ names → x ∉ D.
Proof. intros [H _]. rewrite Forall_forall in H. auto. Qed.

Lemma off_sub names names' D : off names D → Forall (.∈ names) names' → off names' D.
Proof.
  intros [H1 H2] Hs. split; [|done]. eapply Forall_impl; [exact Hs|]. cbn. intros x Hx. by eapply off_in.
Qed.

Lemma word_allowed names D a : off names D → find a ms = None → a ∉ D.
Proof. intros [_ H]. by apply word_off. Qed.

Ltac member := apply (bool_decide_unpack _); vm_compute; exact I.

(** A word that is no macro is none of those of macro.h. *)
Ltac by_table := intros ->; match goal with H : find ?x ms = None |- _ => by rewrite (Hms x _ eq_refl) in H end.

(** [x ∉ l1 :: ... :: D] *)
Ltac fresh_name :=
  repeat (apply not_elem_of_cons; split; [discriminate || by_table|]);
  first [ done | eapply off_in; [eassumption|member] | eapply word_allowed; [eassumption|eassumption]
        | eapply word_allowed; [eassumption|apply leaf; member] ].

(** [off names' (l1 :: ... :: D)] *)
Ltac offs := repeat (apply off_cons; [|intros ?%(bool_decide_pack _); done|done]); eapply off_sub; [eassumption|member].

Ltac is_inert := first [ exact I | eassumption | apply leaf; member ].

Ltac collects :=
  repeat (first [ progress cbn [collect new wd] | rewrite read_allowed by (cbn; fresh_name || exact I) ]); cbn [app]; reflexivity.

Ltac opens := cbn [skip_open new wd]; rewrite ?filter_head by fresh_name; reflexivity.

Ltac computes := vm_compute; reflexivity.

Ltac pp :=
  cbn [map app new wd];
  lazymatch goal with
  | |- Exp _ _ [] _ => apply Exp_nil
  | |- Exp _ _ (Pop _ :: _) _ => apply Exp_leave; [fresh_name|pp]
  | |- Exp _ _ (Tk ?t :: _) _ =>
      first [ apply Exp_inert; [is_inert|pp]
            | eapply Exp_no_call; [apply Hms; reflexivity|fresh_name|reflexivity|pp]
            | eapply Exp_obj; [apply Hms; reflexivity|fresh_name|computes|pp]
            | eapply Exp_call; [apply Hms; reflexivity|fresh_name|opens|collects|computes|pp_args|computes|pp] ]
  | |- _ => idtac
  end
with pp_args :=
  lazymatch goal with
  | |- args_expand _ _ [] _ => apply Forall2_nil_2
  | |- args_expand _ _ (_ :: _) _ => eapply args_cons; [pp|pp_args]
  end.

Definition plain (a : string) : Prop := find a ms = None.

Lemma words_inert l : Forall plain l → Forall (inert ms) (words l).
Proof.
  induction 1 as [|a l Ha Hl IH]; [constructor|]. destruct l as [|b l]; [by repeat constructor|].
  rewrite words_cons. by repeat constructor.
Qed.

Lemma words_allowed names D l : off names D → Forall plain l → Forall (allowed D) (words l).
Proof.
  intros Hoff. induction 1 as [|a l Ha Hl IH]; [constructor|]. destruct l as [|b l].
  - repeat constructor. by eapply word_allowed.
  - rewrite words_cons. repeat constructor; [by eapply word_allowed|done].
Qed.

Lemma words_balanced l : balanced 0 (words l) = true.
Proof. induction l as [|a [|b l] IH]; [done..|]. by rewrite words_cons. Qed.

(** Words at the top are arguments of their own. *)
Lemma collect_words names D cur args a l s : off names D → Forall plain (a :: l) →
  collect D 0 cur args (map Tk (words (a :: l)) ++ Tk (new RP) :: s) = Some (args ++ (cur ++ [wd a]) :: map (λ a, [wd a]) l, D, s).
Proof.
  intros Hoff. revert cur args a. induction l as [|b l IH]; intros cur args a Hl; apply Forall_cons in Hl as [Ha Hl].
  - cbn [words map join app collect wd new]. rewrite read_allowed by (by eapply word_allowed). done.
  - rewrite words_cons. cbn [map app collect wd new]. rewrite read_allowed by (by eapply word_allowed).
    rewrite IH by done. by rewrite <- app_assoc.
Qed.

Lemma first_args D a l : off ["_FIRST"; "_END_OF_ARGS"]%string D → Forall plain (a :: l) →
  Exp ms D (map Tk ([wd "_FIRST"; new LP; wd "_END_OF_ARGS"] ++ words (a :: l) ++ [new RP; new LP; new RP]))
    [wd "_END_OF_ARGS"; wd a; new LP; new RP].
Proof.
  intros Hoff Hl. pose proof Hl as [Ha _]%Forall_cons. unfold plain in Ha. rewrite !map_app. cbn [map app].
  eapply Exp_call with (raw := [("_1"%string, [wd "_END_OF_ARGS"; wd a]); ("__VA_ARGS__"%string, words l)])
    (full := [("_1"%string, [wd "_END_OF_ARGS"; wd a]); ("__VA_ARGS__"%string, words l)]);
    [apply Hms; reflexivity|fresh_name|opens| | | |computes|].
  - cbn [collect wd new]. rewrite read_allowed by (cbn; fresh_name). by eapply collect_words.
  - done.
  - eapply args_cons; [pp|]. eapply args_cons; [|constructor].
    apply Exp_alone, Exp_inert_list; [|apply Exp_nil].
    apply words_inert. by apply Forall_cons in Hl as [_ Hl].
  - pp.
Qed.

Lemma has_args_cons D a l : off tests D → Forall plain (a :: l) →
  Exp ms D (map Tk ([wd "_HAS_ARGS"; new LP] ++ words (a :: l) ++ [new RP])) [wd "1"].
Proof.
  intros Hoff Hl. pose proof Hl as [Ha _]%Forall_cons. unfold plain in Ha. rewrite !map_app. cbn [map app].
  eapply Exp_call with (raw := [("__VA_ARGS__"%string, words (a :: l))]) (full := [("__VA_ARGS__"%string, words (a :: l))])
    (b' := [wd "_BOOL"; new LP; wd "_FIRST"; new LP; wd "_END_OF_ARGS"] ++ words (a :: l) ++ [new RP; new LP; new RP; new RP]);
    [apply Hms; reflexivity|fresh_name|opens|by apply (collect_words tests)|done| |done|].
  - eapply args_cons; [|constructor].
    apply Exp_alone, Exp_inert_list; [|apply Exp_nil]. by apply words_inert.
  - rewrite !map_app. cbn [map app]. rewrite <- app_assoc. cbn [app].
    eapply Exp_call with (raw := [("x"%string, [wd "_FIRST"; new LP; wd "_END_OF_ARGS"] ++ words (a :: l) ++ [new RP; new LP; new RP])])
      (full := [("x"%string, [wd "_END_OF_ARGS"; wd a; new LP; new RP])]);
      [apply Hms; reflexivity|fresh_name|opens| | | |computes|].
    + cbn [collect wd new]. rewrite !read_allowed by (cbn; fresh_name). cbn [app].
      rewrite (collect_nested _ 0 0) by (apply words_balanced || (apply (words_allowed []); [offs|done])). cbn [collect app new]. rewrite <- !app_assoc. reflexivity.
    + done.
    + eapply args_cons; [|constructor]. apply first_args; [offs|done].
    + pp.
Qed.

Lemma has_args_nil D : off tests D → Exp ms D (map Tk [wd "_HAS_ARGS"; new LP; new RP]) [wd "0"].
Proof. intros Hoff. pp. Qed.

(** ** One element of [MAP]

    The operation may be a function or a macro of the user's; [out a] is what
    its call on the word [a] becomes. *)
Context (op : string) (out : string → list tk).
Context (op_idle : ∀ D s r, off [] D → skip_open D s = None → Exp ms D s r → Exp ms D (Tk (wd op) :: s) (wd op :: r)).
Context (op_call : ∀ D a s r, off [] D → plain a → Exp ms D s r → Exp ms D (map Tk [wd op; new LP; wd a; new RP] ++ s) (out a ++ r)).
Context (op_new : find op macro_h = None).

Lemma op_allowed D : off [] D → op ∉ D.
Proof. intros [_ H] Hin. rewrite Forall_forall in H. by apply (H op). Qed.

Ltac plain_off := first [eassumption | offs].

Definition call_text (l : list string) : list tk := [new LP; wd op; new Comma] ++ words l ++ [new RP].

Lemma call_text_stays D l s r : off [] D → Forall plain l → Exp ms D s r → Exp ms D (map Tk (call_text l) ++ s) (call_text l ++ r).
Proof.
  intros Hoff Hl H. unfold call_text. rewrite !map_app, <- !app_assoc. cbn [map app].
  apply Exp_inert; [done|]. apply op_idle; [done|done|]. apply Exp_inert; [done|].
  apply Exp_inert_list; [by apply words_inert|]. by apply Exp_inert.
Qed.

Lemma deferred D l : off family D → Forall plain l →
  Exp ms ("MAP"%string :: D) (map Tk ([wd "_DEFER2"; new LP; wd "_MAP"; new RP; new LP; new RP] ++ call_text l))
    ([wd "_MAP"; wd "_EMPTY"; new LP; new RP; new LP; new RP] ++ call_text l).
Proof.
  intros Hoff Hl. rewrite map_app. cbn [map app].
  eapply Exp_call; [apply Hms; reflexivity|fresh_name|opens|collects|computes|pp_args|computes|]. cbn [map app].
  eapply Exp_no_call; [apply Hms; reflexivity|fresh_name|reflexivity|].
  eapply Exp_no_call; [apply Hms; reflexivity|fresh_name|reflexivity|].
  eapply Exp_call; [apply Hms; reflexivity|fresh_name|opens|collects|computes|pp_args|computes|]. cbn [map app].
  apply Exp_leave; [fresh_name|]. do 2 (apply Exp_inert; [done|]). apply Exp_leave; [fresh_name|]. do 2 (apply Exp_inert; [done|]).
  apply Exp_alone, call_text_stays; [offs|done|apply Exp_nil].
Qed.

(** The replacement of [MAP(op, x, l)]. *)
Definition map_text (x : string) (l : list string) : list tk :=
  [wd op; new LP; wd x; new RP] ++ [wd "_IF_ELSE"; new LP; wd "_HAS_ARGS"; new LP] ++ words l ++ [new RP; new RP; new LP] ++
  [wd "_DEFER2"; new LP; wd "_MAP"; new RP; new LP; new RP] ++ call_text l ++ [new RP; new LP; new RP].

Lemma balanced_call l : balanced 0 (call_text l) = true.
Proof.
  unfold call_text. cbn [app balanced wd new]. cbn. change 1 with (0 + 1) at 1. rewrite (balanced_app 0 1) by apply words_balanced. done.
Qed.

Lemma call_allowed D l : off [] D → Forall plain l → Forall (allowed D) (call_text l).
Proof.
  intros Hoff Hl. unfold call_text. apply Forall_app. split; [|apply Forall_app; split; [by eapply words_allowed|by repeat constructor]].
  repeat constructor. by apply op_allowed.
Qed.

(** The branch is taken: [_IF_1] or [_IF_0] is left for the parentheses that follow. *)
Lemma chosen D b t l s r :
  off family D → Forall plain l →
  Exp ms ("MAP"%string :: D) (map Tk ([wd "_HAS_ARGS"; new LP] ++ words l ++ [new RP])) [wd b] → b ∈ ["0"; "1"]%string →
  Exp ms ("_CAT" :: "__IF_ELSE" :: "_IF_ELSE" :: "MAP" :: D)%string
    (Tk (wd ("_IF_" ++ b)%string) :: Pop "_CAT" :: Pop "__IF_ELSE" :: Pop "_IF_ELSE" :: map Tk t ++ s) r →
  Exp ms ("MAP"%string :: D) (map Tk ([wd "_IF_ELSE"; new LP; wd "_HAS_ARGS"; new LP] ++ words l ++ [new RP; new RP] ++ t) ++ s) r.
Proof.
  intros Hoff Hl Hh Hb H. rewrite !map_app, <- !app_assoc. cbn [map app].
  eapply Exp_call with (raw := [("x"%string, [wd "_HAS_ARGS"; new LP] ++ words l ++ [new RP])]) (full := [("x"%string, [wd b])]);
    [apply Hms; reflexivity|fresh_name|opens| | |eapply args_cons; [exact Hh|constructor]|computes|].
  - cbn [collect wd new]. rewrite read_allowed by (cbn; fresh_name). cbn [app].
    rewrite (collect_nested _ 0 0) by (apply words_balanced || (apply (words_allowed []); [offs|done])). cbn [collect app new].
    rewrite <- ?app_assoc. reflexivity.
  - done.
  - rewrite !elem_of_cons, elem_of_nil in Hb. destruct Hb as [-> |[-> |[]]]; cbn [map app new];
    (eapply Exp_call; [apply Hms; reflexivity|fresh_name|opens|collects|computes|pp_args|computes|]); cbn [map app];
    (eapply Exp_call; [apply Hms; reflexivity|fresh_name|opens|collects|computes|pp_args|computes|]); exact H.
Qed.
(** A call of a macro whose arguments are all variable. *)
Lemma Exp_va D x b s D' t s' t' b' r :
  find x ms = Some (Fun [] true b) → x ∉ D → skip_open D s = Some (D', map Tk t ++ Tk (new RP) :: s') →
  balanced 0 t = true → Forall (allowed D') t → Exp ms D' (map Tk t) t' →
  subst [("__VA_ARGS__"%string, t)] [("__VA_ARGS__"%string, t')] b = Some b' →
  Exp ms (x :: D') (map Tk b' ++ Pop x :: s') r → Exp ms D (Tk (wd x) :: s) r.
Proof.
  intros Hf Hx Ho Hb Ha He Hs H. destruct (collect_all D' 0 t [] [] s' Hb Ha) as (args & Hc & Hj & Hn). cbn [app join] in Hj.
  eapply Exp_call with (raw := [("__VA_ARGS__"%string, t)]) (full := [("__VA_ARGS__"%string, t')]); try done.
  - cbn. rewrite drop_0. by rewrite Hj.
  - eapply args_cons; [done|constructor].
Qed.

Definition branch_text (l : list string) : list tk := [wd "_DEFER2"; new LP; wd "_MAP"; new RP; new LP; new RP] ++ call_text l.

Lemma balanced_branch l : balanced 0 (branch_text l) = true.
Proof. unfold branch_text. cbn [app balanced wd new]. apply balanced_call. Qed.

Lemma branch_allowed D l : off family D → Forall plain l → Forall (allowed ("MAP"%string :: D)) (branch_text l).
Proof.
  intros Hoff Hl. apply Forall_app. split; [|by apply call_allowed; [offs|]].
  repeat (apply Forall_cons; split; [cbn; first [exact I|fresh_name]|]). by apply Forall_nil.
Qed.

Lemma map_body D x l s r :
  off family D → Forall plain (x :: l) → Exp ms D s r →
  Exp ms ("MAP"%string :: D) (map Tk (map_text x l) ++ Pop "MAP" :: s) (out x ++ pending op l ++ r).
Proof.
  intros Hoff Hl H. apply Forall_cons in Hl as [Hx Hl]. unfold map_text. rewrite map_app, <- app_assoc. apply op_call; [offs|done|].
  pose proof (balanced_branch l) as Hbal. pose proof (branch_allowed D l Hoff Hl) as Hall. pose proof (deferred D l Hoff Hl) as Hd.
  fold (branch_text l) in Hd.
  assert (∀ a t, [wd "_IF_ELSE"; new LP; wd "_HAS_ARGS"; new LP] ++ a ++ [new RP; new RP; new LP] ++
    [wd "_DEFER2"; new LP; wd "_MAP"; new RP; new LP; new RP] ++ t ++ [new RP; new LP; new RP] =
    [wd "_IF_ELSE"; new LP; wd "_HAS_ARGS"; new LP] ++ a ++ [new RP; new RP] ++
    (new LP :: ([wd "_DEFER2"; new LP; wd "_MAP"; new RP; new LP; new RP] ++ t) ++ [new RP; new LP; new RP])) as -> by done.
  fold (branch_text l). destruct l as [|a l].
  - apply (chosen D "0"); [done|done|apply has_args_nil; offs|member|].
    cbn [map]. rewrite map_app. cbn [app]. rewrite <- app_assoc. cbn [map app].
    eapply Exp_va; [apply Hms; reflexivity|fresh_name|opens|done|done|exact Hd|computes|]. cbn [map app].
    eapply Exp_va with (t := []) (t' := []); [apply Hms; reflexivity|fresh_name|opens|done|constructor|apply Exp_nil|computes|].
    cbn [map app]. do 2 (apply Exp_leave; [fresh_name|]). done.
  - apply (chosen D "1"); [done|done|apply has_args_cons; [offs|done]|member|].
    cbn [map]. rewrite map_app. cbn [app]. rewrite <- app_assoc. cbn [map app].
    eapply Exp_va with (b' := [wd "_MAP"; wd "_EMPTY"; new LP; new RP; new LP; new RP] ++ call_text (a :: l) ++ [wd "_IF_1_ELSE"]);
      [apply Hms; reflexivity|fresh_name|opens|done|done|exact Hd|by rewrite app_assoc|].
    rewrite !map_app, <- !app_assoc. cbn [map app].
    eapply Exp_no_call; [apply Hms; reflexivity|fresh_name|reflexivity|].
    eapply Exp_call; [apply Hms; reflexivity|fresh_name|opens|collects|computes|pp_args|computes|]. cbn [map app].
    apply Exp_leave; [fresh_name|]. do 2 (apply Exp_inert; [done|]).
    apply (call_text_stays _ (a :: l)); [offs|done|].
    eapply Exp_va with (t := []) (t' := []); [apply Hms; reflexivity|fresh_name|opens|done|constructor|apply Exp_nil|computes|].
    cbn [map app]. do 2 (apply Exp_leave; [fresh_name|]). done.
Qed.

(** [MAP] with its arguments, wherever the parenthesis is found. *)
Lemma map_starts D' s0 D x l s r :
  "MAP"%string ∉ D' → off family D → Forall plain (x :: l) →
  skip_open D' s0 = Some (D, Tk (wd op) :: Tk (new Comma) :: map Tk (words (x :: l)) ++ Tk (new RP) :: s) →
  Exp ms D s r → Exp ms D' (Tk (wd "MAP") :: s0) (out x ++ pending op l ++ r).
Proof.
  intros HM Hoff Hl Ho H. pose proof Hl as [Hx Hl']%Forall_cons.
  eapply Exp_call with (args := [wd op] :: [wd x] :: map (λ a, [wd a]) l)
    (raw := [("op"%string, [wd op]); ("x"%string, [wd x]); ("__VA_ARGS__"%string, words l)])
    (full := [("op"%string, [wd op]); ("x"%string, [wd x]); ("__VA_ARGS__"%string, words l)]) (b' := map_text x l);
    [apply Hms; reflexivity|done|exact Ho| |done| | |by apply map_body].
  - cbn [collect wd new]. rewrite read_allowed by (apply op_allowed; offs). by apply (collect_words family).
  - repeat eapply args_cons; [| | |constructor].
    + apply op_idle; [offs|done|apply Exp_nil].
    + apply Exp_inert; [done|apply Exp_nil].
    + apply Exp_alone, Exp_inert_list; [by apply words_inert|apply Exp_nil].
  - unfold map_text, call_text. rewrite <- !app_assoc. reflexivity.
Qed.

Lemma pending_step D x l s r :
  off family D → Forall plain (x :: l) → Exp ms D s r →
  Exp ms D (map Tk (pending op (x :: l)) ++ s) (out x ++ pending op l ++ r).
Proof.
  intros Hoff Hl H. cbn [pending]. rewrite !map_app, <- !app_assoc. cbn [map app].
  eapply Exp_call; [apply Hms; reflexivity|fresh_name|opens|collects|computes|pp_args|computes|]. cbn [map app].
  eapply map_starts; [fresh_name|exact Hoff|exact Hl|opens|done].
Qed.

(** ** Scans *)
Context (out_ok : ∀ a, plain a → Forall (inert ms) (out a) ∧ balanced 0 (out a) = true).

(** What is done, and the words still to do. *)
Definition st (p : list tk * list string) : list tk := p.1 ++ pending op p.2.

Definition adv (p : list tk * list string) : list tk * list string :=
  match p.2 with [] => p | x :: l => (p.1 ++ out x, l) end.

Definition sound (p : list tk * list string) : Prop :=
  Forall (inert ms) p.1 ∧ balanced 0 p.1 = true ∧ Forall plain p.2.

Lemma adv_sound p : sound p → sound (adv p).
Proof.
  destruct p as [o [|x l]]; [done|]. intros (H1 & H2 & [Hx Hl]%Forall_cons). destruct (out_ok x Hx) as [Ho Hb].
  split_and!; cbn [adv fst snd] in *; [by apply Forall_app|by rewrite (balanced_app 0 0)|done].
Qed.

Lemma adv_n_sound n p : sound p → sound (Nat.iter n adv p).
Proof. intros H. induction n as [|n IH]; [done|]. by apply adv_sound. Qed.

Lemma st_step D p s r : off family D → sound p → Exp ms D s r → Exp ms D (map Tk (st p) ++ s) (st (adv p) ++ r).
Proof.
  intros Hoff (H1 & H2 & H3) H. destruct p as [o [|x l]]; unfold st, adv; cbn [fst snd] in *; rewrite map_app, <- !app_assoc.
  - by apply Exp_inert_list.
  - apply Exp_inert_list; [done|]. by apply pending_step.
Qed.

Lemma st_balanced p : sound p → balanced 0 (st p) = true.
Proof.
  intros (_ & H2 & _). unfold st. rewrite (balanced_app 0 0) by done. destruct p.2; [done|]. apply balanced_call.
Qed.

Lemma inert_allowed D t : off [] D → Forall (inert ms) t → Forall (allowed D) t.
Proof. intros Hoff Ht. eapply Forall_impl; [exact Ht|]. intros [[x| | | |] []]; try done. cbn. by eapply word_allowed. Qed.

Lemma st_allowed D p : off family D → sound p → Forall (allowed D) (st p).
Proof.
  intros Hoff (H1 & _ & H3). apply Forall_app. split; [by apply inert_allowed; [offs|]|].
  destruct p as [o [|x l]]; [constructor|]. cbn [snd pending] in *.
  repeat (apply Forall_cons; split; [cbn; first [exact I|fresh_name|apply op_allowed; offs]|]).
  apply Forall_app. split; [by eapply words_allowed|by repeat constructor].
Qed.

(** ** [EVAL] *)

(** How often a level scans, after its arguments were expanded. *)
Fixpoint scans (n : nat) : nat := match n with O => 1 | S n => 2 * scans n + 1 end.

(** Names of levels, the lowest last. *)
Fixpoint chain (e : string) (l : list string) : Prop :=
  match l with
  | [] => find e macro_h = Some (Fun [] true [va]) ∧ e ∉ family
  | e' :: l => find e macro_h = Some (twice e') ∧ (e ∉ (e' :: l)) ∧ (e ∉ family) ∧ chain e' l
  end.

Lemma chain_name e l : chain e l → e ≠ "__VA_ARGS__"%string.
Proof. destruct l; cbn [chain]; intros [He _] ->; done. Qed.

Lemma subst_twice e' raw t : e' ≠ "__VA_ARGS__"%string →
  subst raw [("__VA_ARGS__"%string, t)] [w e'; lp; w e'; lp; va; rp; rp] =
    Some ([wd e'; new LP] ++ ([wd e'; new LP] ++ t ++ [new RP]) ++ [new RP]).
Proof.
  intros He. unfold w, lp, va, rp, w. cbn [subst value lookup_arg mbind option_bind]. rewrite !decide_False by done.
  rewrite decide_True by done. by rewrite <- !app_assoc.
Qed.

Lemma level e l D t p s r :
  chain e l → off (e :: l ++ family) D → balanced 0 t = true → Forall (allowed D) t → sound p →
  Exp ms D (map Tk t) (st p) → Exp ms D s r →
  Exp ms D (map Tk ([wd e; new LP] ++ t ++ [new RP]) ++ s) (st (Nat.iter (scans (length l)) adv p) ++ r).
Proof.
  revert e D t p s r. induction l as [|e' l IH]; intros e D t p s r He Hoff Hb Ha Hp Ht H.
  - destruct He as [He Hf]. rewrite !map_app, <- !app_assoc. cbn [map app].
    eapply Exp_va with (b' := st p); [by apply Hms|eapply off_in; [exact Hoff|left]|reflexivity|done|done|exact Ht| |].
    + cbn. by rewrite app_nil_r.
    + apply st_step; [|done|]; [|apply Exp_leave; [eapply off_in; [exact Hoff|left]|done]].
      apply off_cons; [|done|by rewrite He]. eapply off_sub; [exact Hoff|]. apply Forall_forall. intros y Hy. by right.
  - destruct He as (He & Hnl & Hf & Hc). assert (off (e' :: l ++ family) (e :: D)) as Hoff'.
    { apply off_cons; [|rewrite app_comm_cons, elem_of_app; tauto|by rewrite He].
      eapply off_sub; [exact Hoff|]. apply Forall_forall. intros y Hy. by right. }
    assert (off family (e :: D)) as Hfam.
    { eapply off_sub; [exact Hoff'|]. apply Forall_forall. intros y Hy. right. apply elem_of_app. by right. }
    rewrite !map_app, <- !app_assoc. cbn [map app].
    eapply Exp_va with (b' := [wd e'; new LP] ++ ([wd e'; new LP] ++ st p ++ [new RP]) ++ [new RP]);
      [by apply Hms|eapply off_in; [exact Hoff|left]|reflexivity|done|done|exact Ht| |].
    + apply subst_twice. by eapply chain_name.
    + replace (Nat.iter (scans (length (e' :: l))) adv p) with (Nat.iter (scans (length l)) adv (Nat.iter (scans (length l)) adv (adv p))).
      2: { rewrite <- Nat.iter_add, <- Nat.iter_succ_r. f_equal. cbn [length scans]. lia. }
      apply IH; [done|done| | | | |].
      * cbn [app balanced wd new]. change 1 with (0 + 1). rewrite (balanced_app 0 1) by (by apply st_balanced). done.
      * apply Forall_app. split; [|apply Forall_app; split; [by apply st_allowed|by repeat constructor]].
        repeat constructor. eapply off_in; [exact Hoff'|left].
      * by apply adv_n_sound, adv_sound.
      * apply Exp_alone. apply IH; [done|done|by apply st_balanced|by apply st_allowed|by apply adv_sound| |apply Exp_nil].
        apply Exp_alone, st_step; [done|done|apply Exp_nil].
      * apply Exp_leave; [eapply off_in; [exact Hoff|left]|done].
Qed.

Definition levels : list string :=
  ["_EVAL512"; "_EVAL256"; "_EVAL128"; "_EVAL64"; "_EVAL32"; "_EVAL16"; "_EVAL8"; "_EVAL4"; "_EVAL2"; "_EVAL1"]%string.

Lemma levels_chain : chain "_EVAL1024" levels.
Proof. cbn [chain levels]. split_and!; try reflexivity; (intros ?%(bool_decide_pack _); done). Qed.

(** What [EVAL(MAP(op, l))] becomes: [EVAL] makes 2049 scans. *)
Lemma eval_map x l s r :
  Forall plain (x :: l) → Exp ms [] s r →
  Exp ms [] (map Tk ([wd "EVAL"; new LP; wd "MAP"] ++ call_text (x :: l) ++ [new RP]) ++ s)
    (st (Nat.iter 2049 adv ([], x :: l)) ++ r).
Proof.
  intros Hl Hs. assert (∀ names D, Forall (λ x, find x macro_h ≠ None) D → Forall (.∉ D) names → off names D) as Hmk by done.
  assert (off family []) as Hoff by (apply Hmk; [constructor|]; apply Forall_forall; intros; apply not_elem_of_nil).
  assert (off ("EVAL"%string :: "_EVAL1024"%string :: levels ++ family) []) as Hoff'
    by (apply Hmk; [constructor|]; apply Forall_forall; intros; apply not_elem_of_nil).
  set (p := adv ([], x :: l)).
  assert (sound p) as Hp by (apply adv_sound; by split_and!).
  rewrite !map_app, <- !app_assoc. cbn [map app].
  eapply Exp_va with (t := wd "MAP" :: call_text (x :: l)) (t' := st p) (b' := [wd "_EVAL1024"; new LP] ++ st p ++ [new RP]);
    [apply Hms; reflexivity|apply not_elem_of_nil| | | | |reflexivity|].
  - cbn [skip_open map app]. unfold call_text. by rewrite !map_app, <- !app_assoc.
  - cbn [balanced wd new]. apply balanced_call.
  - apply Forall_cons. split; [apply not_elem_of_nil|]. apply call_allowed; [|done]. eapply off_sub; [exact Hoff|constructor].
  - rewrite <- (app_nil_r (st p)). change (st p) with (out x ++ pending op l). rewrite <- app_assoc. cbn [map].
    eapply (map_starts [] _ []); [apply not_elem_of_nil|done|exact Hl| |apply Exp_nil].
    cbn [map call_text app skip_open new]. by rewrite map_app.
  - replace (Nat.iter 2049 adv ([], x :: l)) with (Nat.iter (scans (length levels)) adv (adv p)).
    2: { unfold p. rewrite <- !Nat.iter_succ_r. reflexivity. }
    assert (off ("_EVAL1024"%string :: levels ++ family) ["EVAL"%string]) as Hoff2.
    { apply off_cons; [|intros ?%(bool_decide_pack _); done|done]. eapply off_sub; [exact Hoff'|]. apply Forall_forall. intros y Hy. by right. }
    assert (off family ["EVAL"%string]) as Hoff3 by (apply off_cons; [done|intros ?%(bool_decide_pack _); done|done]).
    apply level; [apply levels_chain|done|by apply st_balanced|by apply st_allowed|by apply adv_sound| |].
    + apply Exp_alone, st_step; [done|done|apply Exp_nil].
    + by apply Exp_leave; [apply not_elem_of_nil|].
Qed.
End map.

Lemma iter_adv out n p : Nat.iter n (adv out) p = (p.1 ++ concat (map out (take n p.2)), drop n p.2).
Proof.
  revert p. induction n as [|n IH]; intros [o l]; [cbn; by rewrite app_nil_r|]. rewrite Nat.iter_succ_r, IH.
  destruct l as [|a l]; cbn [adv fst snd take drop map concat]; [by rewrite take_nil, drop_nil|]. by rewrite <- app_assoc.
Qed.

(** ** What may be mapped *)

(** A table with the macros of macro.h and others, that leaves their words alone. *)
Record extends (ms : table) : Prop := {
  extends_macros x m : find x macro_h = Some m → find x ms = Some m;
  extends_words : Forall (λ x, find x ms = None) leaves;
}.

(** [op] can be mapped over words, and its call on [a] becomes [out a]. *)
Class Operation (ms : table) (op : string) (out : string → list tk) : Prop := {
  op_idle D s r : off [] D → skip_open D s = None → Exp ms D s r → Exp ms D (Tk (wd op) :: s) (wd op :: r);
  op_call D a s r : off [] D → plain ms a → Exp ms D s r →
    Exp ms D (map Tk [wd op; new LP; wd a; new RP] ++ s) (out a ++ r);
  op_new : find op macro_h = None;
  out_ok a : plain ms a → Forall (inert ms) (out a) ∧ balanced 0 (out a) = true;
}.

(** A function. *)
Lemma function_operation ms f :
  extends ms → find f ms = None → Operation ms f (λ a, [wd f; new LP; wd a; new RP]).
Proof.
  intros He Hf. split.
  - intros. by apply Exp_inert.
  - intros D a s r _ Ha H. apply Exp_inert_list; [|done]. repeat constructor; done.
  - destruct (find f macro_h) eqn:E; [|done]. by rewrite (extends_macros _ He _ _ E) in Hf.
  - intros a Ha. split; [repeat constructor; done|done].
Qed.

(** A macro like [FOO(x)] of trivial/seq_macro.c: [f(x),]. *)
Definition listing (f : string) : macro := Fun ["x"%string] false [w f; lp; w "x"; rp; B Comma].

Lemma macro_operation ms m f :
  extends ms → find m ms = Some (listing f) → find m macro_h = None → find f ms = None → f ≠ "x"%string →
  Operation ms m (λ a, [wd f; new LP; wd a; new RP; new Comma]).
Proof.
  intros He Hm Hn Hf Hx. split.
  - intros D s r [_ Hoff] Ho H. eapply Exp_no_call; [exact Hm| |exact Ho|done].
    intros Hin. rewrite Forall_forall in Hoff. by apply (Hoff m).
  - intros D a s r [_ Hoff] Ha H. cbn [map app].
    assert (a ∉ D) as HaD by (eapply word_off; [by apply extends_macros|done|done]).
    assert (m ∉ D) as HmD by (intros Hin; rewrite Forall_forall in Hoff; by apply (Hoff m)).
    eapply Exp_call with (full := [("x"%string, [wd a])]) (b' := [wd f; new LP; wd a; new RP; new Comma]); [exact Hm|done|reflexivity| | | | |].
    + cbn [collect wd new]. rewrite read_allowed by done. reflexivity.
    + reflexivity.
    + eapply args_cons; [apply Exp_inert; [done|apply Exp_nil]|constructor].
    + unfold w, lp, rp, w. cbn [subst value lookup_arg mbind option_bind]. rewrite decide_False by done. reflexivity.
    + apply (Exp_inert_list _ _ [wd f; new LP; wd a; new RP; new Comma]); [repeat constructor; done|]. by apply Exp_leave.
  - done.
  - intros a Ha. split; [repeat constructor; done|done].
Qed.

(** ** Properties *)

(** C23: the recursive macros of macro.h work, and how far: whatever can be mapped, a
    function or a macro that lists its calls, [EVAL(MAP(op, a1, ..., an))]
    becomes the calls of [op] on the words in order, for up to 2049 of them; of
    more, the rest stays as a call of [MAP] that is never expanded.  Scanning
    ends, and needs no fuel beyond some bound. *)
Theorem eval_map_expands ms op out x l :
  extends ms → Operation ms op out → Forall (plain ms) (x :: l) →
  ∃ n, ∀ m, n ≤ m →
    expand ms m [] (map Tk ([wd "EVAL"; new LP; wd "MAP"] ++ call_text op (x :: l) ++ [new RP])) =
      Some (concat (map out (take 2049 (x :: l))) ++ pending op (drop 2049 (x :: l))).
Proof.
  intros He Hop Hl. pose proof (eval_map ms (extends_macros _ He) (extends_words _ He) op out op_idle op_call op_new out_ok x l [] [] Hl (Exp_nil _ _)) as H.
  rewrite iter_adv in H. unfold st in H. cbn [fst snd app] in H. rewrite !app_nil_r in H. exact H.
Qed.

Definition seq_macro_table : table := ("FOO"%string, listing "foo") :: macro_h.

Lemma seq_macro_extends : extends seq_macro_table.
Proof.
  split; [|repeat constructor]. intros x m E. unfold seq_macro_table. cbn [find]. rewrite decide_False; [done|]. intros ->. discriminate E.
Qed.

(** [EVAL(MAP(FOO, 1, 2, 3, 4))] *)
Lemma eval_map_expands_witness :
  ∃ n, ∀ m, n ≤ m →
    expand seq_macro_table m [] (map Tk ([wd "EVAL"; new LP; wd "MAP"] ++ call_text "FOO" ["1"; "2"; "3"; "4"]%string ++ [new RP])) =
      Some (concat (map (λ a, [wd "foo"; new LP; wd a; new RP; new Comma]) (take 2049 ["1"; "2"; "3"; "4"]%string)) ++
        pending "FOO" (drop 2049 ["1"; "2"; "3"; "4"]%string)).
Proof.
  apply (eval_map_expands seq_macro_table "FOO" (λ a, [wd "foo"; new LP; wd a; new RP; new Comma]) "1" ["2"; "3"; "4"]%string).
  - exact seq_macro_extends.
  - apply macro_operation; [exact seq_macro_extends|reflexivity|reflexivity|reflexivity|discriminate].
  - repeat constructor.
Defined.

(** The lines of trivial/seq_macro.c. *)
Definition seq_macro_main : list (list tok) :=
  [[W "_BOOL"; LP; W "0"; RP; Comma; W "_BOOL"; LP; W "123"; RP];
   [W "_IF_ELSE"; LP; W "12"; RP; LP; W "LOGINFO"; LP; W "yes"; RP; Punct ";"; RP; LP; W "LOGINFO"; LP; W "no"; RP; RP];
   [W "EVAL"; LP; W "MAP"; LP; W "FOO"; Comma; W "1"; Comma; W "2"; Comma; W "3"; Comma; W "4"; RP; RP; W "0"; Punct ";"]]%string.

Lemma seq_macro_expands :
  map (scan seq_macro_table 100) seq_macro_main =
    [Some [W "0"; Comma; W "1"];
     Some [W "LOGINFO"; LP; W "yes"; RP; Punct ";"];
     Some (concat (map (λ a, [W "foo"; LP; W a; RP; Comma]) ["1"; "2"; "3"; "4"]%string) ++ [W "0"; Punct ";"])].
Proof. vm_compute. reflexivity. Qed.

(** Without [EVAL], only the first call is made. *)
Lemma map_alone :
  scan macro_h 100 [W "MAP"; LP; W "f"; Comma; W "a"; Comma; W "b"; RP]%string =
    Some [W "f"; LP; W "a"; RP; W "_MAP"; LP; RP; LP; W "f"; Comma; W "b"; RP]%string.
Proof. vm_compute. reflexivity. Qed.

(** An argument in parentheses is taken for the arguments of [_END_OF_ARGS]. *)
Lemma parenthesised_argument_fails :
  scan macro_h 100 [W "MAP"; LP; W "f"; Comma; W "a"; Comma; LP; W "b"; RP; RP]%string = None.
Proof. vm_compute. reflexivity. Qed.
