(* ===== verification/Forks.v ===== *)
(** * Programs that fork: process/, system/, signal/ and io/is-openable.c

    A program is the tree of its calls; a system is the table of its processes,
    each with the lines its library has not written yet, which a [fork] copies.
    A dead process stays in the table as a zombie until its parent waits for it
    or dies; the first process and the orphans belong to process 1, which waits
    for everybody.  Every interleaving is a run, and a [fork] may fail. *)
From Stdlib Require Import ZArith Lia String.
From stdpp Require Import base tactics numbers list strings relations.
From S2P Require Import Prelude.

Open Scope Z_scope.

(** A line that is printed: its text and its numbers. *)
Record line := Line { text : string; args : list Z }.

#[export] Instance line_eq_dec : EqDecision line.
Proof. solve_decision. Defined.

(** What [open] does: it may wait for ever. *)
Inductive opening := Opens | Fails | Hangs.

Inductive prog :=
| Fork (k : Z → prog)
| Log (m : Z → line) (k : prog)          (** printed with the process's number *)
| Flush (k : prog)
| Exit (code : Z)                        (** writes what is left *)
| _Exit (code : Z)                       (** does not *)
| Wait (child : Z) (k : Z → Z → prog)    (** [waitpid(child, &status, 0)]; -1 is [wait] *)
| Sleep (k : prog)
| Pause
| Open (o : opening) (k : Z → prog).     (** [open] under an alarm *)

Definition SIGALRM : Z := 14.

Inductive status := Runs (p : prog) | Zombie (st : Z).

Record proc := Proc { pid : Z; ppid : Z; stat : status; buf : list line }.

Record sys := Sys { procs : list proc; next : Z; written : list line }.

(** What a parent sees of an exit. *)
Definition exited (code : Z) : Z := Z.land code 255 * 256.

(** ** The end of a process *)
Definition is_zombie (p : proc) : bool := match stat p with Zombie _ => true | Runs _ => false end.

(** The children of [i] pass to process 1, which waits for the dead ones. *)
Definition adopted (i : Z) (ps : list proc) : list proc :=
  filter (λ p, ¬ (ppid p = 1 ∧ is_zombie p = true))
    (map (λ p, if decide (ppid p = i) then Proc (pid p) 1 (stat p) (buf p) else p) ps).

(** [pre] and [post]: the other processes. *)
Definition die (st : Z) (p : proc) (pre post : list proc) : list proc :=
  let me := if decide (ppid p = 1) then [] else [Proc (pid p) (ppid p) (Zombie st) []] in
  adopted (pid p) pre ++ me ++ adopted (pid p) post.

(** The children a [waitpid] may take, and the one it takes. *)
Definition is_child (i child : Z) (q : proc) : Prop := ppid q = i ∧ (child = -1 ∨ pid q = child).
#[local] Instance is_child_dec i child q : Decision (is_child i child q).
Proof. unfold is_child. apply _. Defined.

Fixpoint reap (i child : Z) (ps : list proc) : option (Z * Z * list proc) :=
  match ps with
  | [] => None
  | q :: ps =>
      match stat q with
      | Zombie st => if decide (is_child i child q) then Some (pid q, st, ps) else
          '(c, st, ps) ← reap i child ps; Some (c, st, q :: ps)
      | Runs _ => '(c, st, ps) ← reap i child ps; Some (c, st, q :: ps)
      end
  end.

(** ** Steps *)

(** The next step of the process [p]: what may happen. *)
Definition proc_steps (s : sys) (pre : list proc) (p : proc) (post : list proc) : list sys :=
  let continue q b := Sys (pre ++ Proc (pid p) (ppid p) (Runs q) b :: post) (next s) (written s) in
  match stat p with
  | Zombie _ => []
  | Runs (Fork k) =>
      [Sys (pre ++ Proc (pid p) (ppid p) (Runs (k (next s))) (buf p) :: post ++ [Proc (next s) (pid p) (Runs (k 0)) (buf p)])
         (next s + 1) (written s);
       continue (k (-1)) (buf p)]
  | Runs (Log m k) => [continue k (buf p ++ [m (pid p)])]
  | Runs (Flush k) => [Sys (pre ++ Proc (pid p) (ppid p) (Runs k) [] :: post) (next s) (written s ++ buf p)]
  | Runs (Exit c) => [Sys (die (exited c) p pre post) (next s) (written s ++ buf p)]
  | Runs (_Exit c) => [Sys (die (exited c) p pre post) (next s) (written s)]
  | Runs (Wait child k) =>
      match reap (pid p) child pre, reap (pid p) child post with
      | Some (c, st, pre), _ => [Sys (pre ++ Proc (pid p) (ppid p) (Runs (k c st)) (buf p) :: post) (next s) (written s)]
      | None, Some (c, st, post) => [Sys (pre ++ Proc (pid p) (ppid p) (Runs (k c st)) (buf p) :: post) (next s) (written s)]
      | None, None =>
          if decide (Exists (is_child (pid p) child) (pre ++ post)) then []
          else [continue (k (-1) (-1)) (buf p)]
      end
  | Runs (Sleep k) => [continue k (buf p)]
  | Runs Pause => []
  | Runs (Open Opens k) => [continue (k 3) (buf p)]
  | Runs (Open Fails k) => [continue (k (-1)) (buf p)]
  | Runs (Open Hangs k) => [Sys (die SIGALRM p pre post) (next s) (written s)]
  end.

(** The steps of every process of the table. *)
Fixpoint table_steps (s : sys) (pre ps : list proc) : list sys :=
  match ps with
  | [] => []
  | p :: ps => proc_steps s pre p ps ++ table_steps s (pre ++ [p]) ps
  end.

Definition succs (s : sys) : list sys := table_steps s [] (procs s).

Definition sstep (s s' : sys) : Prop := s' ∈ succs s.

(** A program started as the process 100. *)
Definition start (p : prog) : sys := Sys [Proc 100 1 (Runs p) []] 101 [].

(** ** Every run, to its end

    [runs_ok P n s]: no run is longer than [n] steps, and every state in which a
    run ends satisfies [P]. *)
Fixpoint runs_ok (P : sys → bool) (n : nat) (s : sys) : bool :=
  match succs s with
  | [] => P s
  | l => match n with O => false | S n => forallb (runs_ok P n) l end
  end.

Lemma runs_ok_sound P n s k s' :
  runs_ok P n s = true → nsteps sstep k s s' → (k ≤ n)%nat ∧ (succs s' = [] → P s' = true).
Proof.
  intros Hr Hs. revert n Hr. induction Hs as [s|k s s1 s' H1 Hs IH]; intros n Hr.
  - split; [lia|]. intros E. destruct n; cbn in Hr; by rewrite E in Hr.
  - unfold sstep in H1. destruct n as [|n]; cbn [runs_ok] in Hr; destruct (succs s) as [|a l] eqn:E; try (by apply elem_of_nil in H1); try done.
    rewrite forallb_forall in Hr. destruct (IH n) as [Hk HP]; [by apply Hr, list_elem_of_In|]. split; [lia|done].
Qed.

(** One run: the first process that can goes on, until none can. *)
Fixpoint first_run (n : nat) (s : sys) : nat * sys :=
  match n, succs s with
  | S n, s' :: _ => let '(k, r) := first_run n s' in (S k, r)
  | _, _ => (0%nat, s)
  end.

Lemma first_run_steps n s : nsteps sstep (first_run n s).1 s (first_run n s).2.
Proof.
  revert s. induction n as [|n IH]; intros s; cbn [first_run]; [constructor|]. destruct (succs s) as [|s' l] eqn:E; [constructor|].
  destruct (first_run n s') as [k r] eqn:Er. specialize (IH s'). rewrite Er in IH. econstructor; [|exact IH]. unfold sstep. rewrite E. by left.
Qed.

(** ** The programs *)
Definition says (t : string) (l : list Z) (k : prog) : prog := Log (λ _, Line t l) k.
Definition says_pid (t : string) (k : prog) : prog := Log (λ i, Line t [i]) k.

(** process/how-many-spawns.c: [fork(); fork() && fork() || fork(); fork();] *)
Definition how_many_spawns : prog :=
  let rest := Fork (λ _, says "done" [] (Exit 0)) in
  Fork (λ _, Fork (λ a,
    if decide (a ≠ 0) then Fork (λ b, if decide (b ≠ 0) then rest else Fork (λ _, rest))
    else Fork (λ _, rest))).

(** process/fork.c, with [n] rounds. *)
Fixpoint fork_loop (n : nat) : prog :=
  match n with
  | O => Pause
  | S n => Fork (λ _, says_pid "" (Flush (fork_loop n)))
  end.
Definition fork_main : prog := fork_loop 5.

(** process/fork-bomb.c *)
Definition fork_bomb : prog :=
  Fork (λ pid, if decide (pid = 0) then says "I am child" [] (Exit 0) else says "I am parent" [] (Exit 0)).

(** process/zombie.c *)
Definition zombie_main : prog :=
  Fork (λ child,
    if decide (child = -1) then says "fork: %m" [] (Exit 1)
    else if decide (child = 0) then says_pid "(CHILD)pid: %d" (Exit 0)
    else says "(PARENT)child pid: %d" [child] Pause).

(** signal/waitpid.c *)
Definition waitpid_main : prog :=
  let foo_bar := says "@foo" [13] (says "@bar yes" [] (Exit 0)) in
  Fork (λ pid,
    if decide (pid = -1) then says "fork: %m" [] (Exit 1)
    else if decide (pid = 0) then says_pid "subprocess: %ld" (Exit 15)
    else Wait (-1) (λ _ status, says "child terminate status: %#x" [status] foo_bar)).

(** system/fork_dont_care.c ([perror] writes to another stream) *)
Definition x_fork (k : Z → prog) : prog := Fork (λ pid, if decide (pid = -1) then Exit 1 else k pid).

Definition fork_dont_care (k : Z → prog) : prog :=
  x_fork (λ pid,
    if decide (pid ≠ 0) then says "parent, directly return" [] (k pid)
    else x_fork (λ pid,
      if decide (pid ≠ 0) then says "child, exit" [] (Exit 0)
      else says "grandchild, return" [] (k 0))).

Definition dont_care_main : prog :=
  fork_dont_care (λ pid,
    if decide (pid ≠ 0) then
      says "I am parent" [] (Sleep (Wait pid (λ _ status, says "child quit:%d,%d" [pid; status] (Exit 0))))
    else says "I am grandchild" [] (Exit 0)).

(** io/is-openable.c; [k] gets the result. *)
Definition is_openable (o : opening) (k : Z → prog) : prog :=
  Fork (λ pid,
    if decide (pid = -1) then k (-1)
    else if decide (pid = 0) then Open o (λ fd, if decide (fd = -1) then _Exit 1 else _Exit 0)
    else Wait pid (λ _ status, k status)).

(** ** How many lines and how many processes *)

(** The lines a process and its descendants write, from a buffer of [b] lines,
    and the forks they make, when every fork succeeds. *)
Fixpoint lines (p : prog) (b : nat) : nat :=
  match p with
  | Fork k => lines (k 1) b + lines (k 0) b
  | Log _ k => lines k (S b)
  | Flush k => b + lines k 0
  | Exit _ => b
  | _Exit _ | Pause => 0
  | Wait _ k => lines (k 0 0) b
  | Sleep k => lines k b
  | Open _ k => lines (k 3) b
  end.

Fixpoint forks (p : prog) : nat :=
  match p with
  | Fork k => S (forks (k 1) + forks (k 0))
  | Log _ k | Flush k | Sleep k => forks k
  | Exit _ | _Exit _ | Pause => 0
  | Wait _ k => forks (k 0 0)
  | Open _ k => forks (k 3)
  end.

(** The steps they make at most. *)
Fixpoint steps (p : prog) : nat :=
  match p with
  | Fork k => S (steps (k 1) + steps (k 0))
  | Log _ k | Flush k | Sleep k => S (steps k)
  | Exit _ | _Exit _ => 1
  | Pause => 0
  | Wait _ k => S (steps (k 0 0))
  | Open _ k => S (steps (k 3))
  end.

(** A program that only asks of a fork whether it is the child, and whose lines
    all satisfy [L]. *)
Inductive uniform (L : line → Prop) : prog → Prop :=
| uniform_fork k q : (∀ c, c ≠ 0 → k c = q) → uniform L q → uniform L (k 0) → uniform L (Fork k)
| uniform_log m k : (∀ i, L (m i)) → uniform L k → uniform L (Log m k)
| uniform_flush k : uniform L k → uniform L (Flush k)
| uniform_exit c : uniform L (Exit c)
| uniform_sleep k : uniform L k → uniform L (Sleep k)
| uniform_pause : uniform L Pause.

(** Lines, forks and steps to come of a process, and of a table. *)
Definition to_write (p : proc) : nat := match stat p with Runs q => lines q (length (buf p)) | Zombie _ => 0 end.
Definition to_fork (p : proc) : nat := match stat p with Runs q => forks q | Zombie _ => 0 end.
Definition to_step (p : proc) : nat := match stat p with Runs q => steps q | Zombie _ => 0 end.
Definition uniform_proc (L : line → Prop) (p : proc) : Prop :=
  Forall L (buf p) ∧ match stat p with Runs q => uniform L q | Zombie _ => True end.

Definition total (f : proc → nat) (ps : list proc) : nat := sum_list_with f ps.

Lemma processes_app f a b : total f (a ++ b) = (total f a + total f b)%nat.
Proof. apply sum_list_with_app. Qed.

(** Adoption changes neither. *)
Lemma adopted_total f i ps :
  (∀ p j, f (Proc (pid p) j (stat p) (buf p)) = f p) → (∀ p, is_zombie p = true → f p = 0%nat) →
  total f (adopted i ps) = total f ps.
Proof.
  intros Hj Hz. unfold adopted, total. induction ps as [|p ps IH]; [done|]. cbn [map sum_list_with].
  set (q := if decide (ppid p = i) then _ else p). assert (f q = f p) as Hq by (unfold q; case_decide; [apply Hj|done]).
  rewrite filter_cons. destruct (decide (¬ (ppid q = 1 ∧ is_zombie q = true))) as [_|Hn]; cbn [sum_list_with]; [by rewrite IH, Hq|].
  rewrite IH. assert (is_zombie q = true) as Hzq by (destruct (is_zombie q); [done|]; exfalso; apply Hn; by intros [_ ?]).
  apply Hz in Hzq. lia.
Qed.

Lemma adopted_uniform L i ps : Forall (uniform_proc L) ps → Forall (uniform_proc L) (adopted i ps).
Proof.
  intros H. apply Forall_forall. intros p [_ Hp]%list_elem_of_filter. revert p Hp. apply Forall_forall, Forall_map.
  eapply Forall_impl; [exact H|]. intros p Hp. cbn. by case_decide.
Qed.

Lemma die_total f st p pre post :
  (∀ p j, f (Proc (pid p) j (stat p) (buf p)) = f p) → (∀ p, is_zombie p = true → f p = 0%nat) →
  total f (die st p pre post) = (total f pre + total f post)%nat.
Proof.
  intros Hj Hz. unfold die. rewrite !processes_app, !adopted_total by done.
  assert (total f (if decide (ppid p = 1) then [] else [Proc (pid p) (ppid p) (Zombie st) []]) = 0%nat) as ->; [|lia].
  case_decide; [done|]. cbn. by rewrite Hz.
Qed.

(** What never grows, and stays as long as no fork fails. *)
Definition promised (s : sys) : Z := next s + Z.of_nat (total to_fork (procs s)).
Definition lines_of (s : sys) : nat := (length (written s) + total to_write (procs s))%nat.

Definition loses (s s' : sys) : Prop :=
  (promised s' = promised s ∧ lines_of s' = lines_of s) ∨ (promised s' < promised s ∧ (lines_of s' ≤ lines_of s)%nat).

(** What a table of such programs keeps. *)
Definition kept (L : line → Prop) (s : sys) : Prop := 0 < next s ∧ Forall (uniform_proc L) (procs s) ∧ Forall L (written s).

Lemma counted f : f = to_write ∨ f = to_fork ∨ f = to_step →
  (∀ p j, f (Proc (pid p) j (stat p) (buf p)) = f p) ∧ (∀ p, is_zombie p = true → f p = 0%nat).
Proof. intros [-> |[-> | ->]]; split; try done; intros q; unfold is_zombie, to_write, to_fork, to_step; by destruct (stat q). Qed.

Lemma die_uniform L st p pre post :
  Forall (uniform_proc L) pre → Forall (uniform_proc L) post → Forall (uniform_proc L) (die st p pre post).
Proof.
  intros H1 H2. unfold die. apply Forall_app. split; [by apply adopted_uniform|].
  apply Forall_app. split; [by case_decide; repeat constructor|by apply adopted_uniform].
Qed.

(** The first of the steps a process may make loses nothing. *)
Lemma proc_step_loses L s pre p post s' :
  procs s = pre ++ p :: post → kept L s → s' ∈ proc_steps s pre p post →
  kept L s' ∧ loses s s' ∧ (total to_step (procs s') < total to_step (procs s))%nat ∧
  (head (proc_steps s pre p post) = Some s' → promised s' = promised s).
Proof.
  intros Hs (Hn & Hu & Hwr) Hin. rewrite Hs in Hu. apply Forall_app in Hu as [Hpre [Hp Hpost]%Forall_cons].
  assert (∀ f, total f (procs s) = (total f pre + (f p + total f post))%nat) as Htot by (intros f; by rewrite Hs, processes_app).
  destruct (counted to_write ltac:(auto)) as [Hw1 Hw2]. destruct (counted to_fork ltac:(auto)) as [Hf1 Hf2].
  destruct (counted to_step ltac:(auto)) as [Hs1 Hs2].
  unfold proc_steps in *. unfold loses, promised, lines_of, kept. rewrite !Htot.
  assert (∀ q b, uniform L q → Forall L b → Forall (uniform_proc L) (pre ++ Proc (pid p) (ppid p) (Runs q) b :: post)) as Hput
    by (intros q b Hq Hb; apply Forall_app; split; [done|by constructor]).
  destruct Hp as [Hb Hq]. destruct (stat p) as [q|] eqn:Est; [|by apply elem_of_nil in Hin].
  assert (to_write p = lines q (length (buf p)) ∧ to_fork p = forks q ∧ to_step p = steps q) as (-> & -> & ->)
    by (unfold to_write, to_fork, to_step; by rewrite Est). clear Est Htot.
  destruct Hq as [k q Hk Hq H0|m k Hm Hk|k Hk|c|k Hk|]; cbn [lines forks steps];
    repeat (apply elem_of_cons in Hin as [-> |Hin]); try (by apply elem_of_nil in Hin); cbn [procs written next head];
    rewrite ?processes_app, ?die_total by done; rewrite ?length_app; cbn [total sum_list_with].
  all: rewrite ?processes_app; unfold total; cbn [sum_list_with].
  - rewrite (Hk 1), (Hk (next s)) by lia. unfold to_fork, to_write, to_step; cbn [stat buf]. split_and!; try (intros _); try lia; try done.
    + apply Forall_app. split; [done|]. constructor; [done|]. apply Forall_app. by split; [|repeat constructor].
  - rewrite (Hk 1), (Hk (-1)) by lia. unfold to_fork, to_write, to_step; cbn [stat buf]. split_and!; try lia; try done; [by apply Hput|].
    intros E. apply (f_equal (λ x, default 0 (next <$> x))) in E. cbn in E. lia.
  - unfold to_fork, to_write, to_step; cbn [stat buf]. rewrite length_app. cbn [length]. rewrite Nat.add_1_r. split_and!; try (intros _); try lia; try done.
    apply Hput; [done|]. apply Forall_app. by repeat constructor.
  - unfold to_fork, to_write, to_step; cbn [stat buf length]. split_and!; try (intros _); try lia; [by apply Hput|by apply Forall_app].
  - split_and!; try (intros _); try lia; [by apply die_uniform|by apply Forall_app].
  - unfold to_fork, to_write, to_step; cbn [stat buf length]. split_and!; try (intros _); try lia; [by apply Hput|done].
Qed.

Lemma table_steps_split s pre ps s' : s' ∈ table_steps s pre ps → ∃ a p b, pre ++ ps = a ++ p :: b ∧ s' ∈ proc_steps s a p b.
Proof.
  revert pre. induction ps as [|p ps IH]; intros pre; cbn [table_steps]; [by intros ?%elem_of_nil|].
  intros [H|H]%elem_of_app; [by exists pre, p, ps|]. destruct (IH _ H) as (a & q & b & E & Hin). exists a, q, b. by rewrite <- E, <- app_assoc.
Qed.

Lemma table_steps_in s pre ps a p b s' :
  ps = a ++ p :: b → s' ∈ proc_steps s (pre ++ a) p b → s' ∈ table_steps s pre ps.
Proof.
  revert pre ps. induction a as [|q a IH]; intros pre ps ->; cbn [app table_steps].
  - rewrite app_nil_r. intros H. apply elem_of_app. by left.
  - intros H. apply elem_of_app. right. by apply IH; [|rewrite <- app_assoc].
Qed.

Lemma table_steps_head s pre ps s' :
  head (table_steps s pre ps) = Some s' → ∃ a p b, pre ++ ps = a ++ p :: b ∧ head (proc_steps s a p b) = Some s'.
Proof.
  revert pre. induction ps as [|p ps IH]; intros pre; cbn [table_steps]; [done|].
  destruct (proc_steps s pre p ps) as [|x l] eqn:E; cbn [app head].
  - intros H. destruct (IH _ H) as (a & q & b & E' & Hin). exists a, q, b. by rewrite <- E', <- app_assoc.
  - intros [= <-]. exists pre, p, ps. by rewrite E.
Qed.

Lemma loses_trans s1 s2 s3 : loses s1 s2 → loses s2 s3 → loses s1 s3.
Proof. unfold loses. intros [[??]|[??]] [[??]|[??]]; (left; split; lia) || (right; split; lia). Qed.

Lemma sstep_loses L s s' :
  kept L s → sstep s s' → kept L s' ∧ loses s s' ∧ (total to_step (procs s') < total to_step (procs s))%nat.
Proof.
  intros Hk H1. destruct (table_steps_split _ _ _ _ H1) as (a & p & b & E & Hin). cbn in E.
  destruct (proc_step_loses L s a p b s' E Hk Hin) as (? & ? & ? & _). done.
Qed.

Lemma run_loses L k s s' :
  nsteps sstep k s s' → kept L s → kept L s' ∧ loses s s' ∧ (k + total to_step (procs s') ≤ total to_step (procs s))%nat.
Proof.
  induction 1 as [s|k s s1 s' H1 Hs IH]; intros Hk; [split; [done|]; split; [by left|lia]|].
  destruct (sstep_loses L s s1 Hk H1) as (Hk1 & Hl1 & Ht1). destruct (IH Hk1) as (? & ? & ?).
  split; [done|]. split; [by eapply loses_trans|lia].
Qed.

(** A run to the end in which no fork fails. *)
Lemma first_run_keeps L n s :
  kept L s → (total to_step (procs s) ≤ n)%nat →
  succs (first_run n s).2 = [] ∧ promised (first_run n s).2 = promised s.
Proof.
  revert s. induction n as [|n IH]; intros s Hk Hn; cbn [first_run].
  - destruct (succs s) as [|s' l] eqn:E; [done|]. destruct (sstep_loses L s s' Hk) as (_ & _ & Ht); [|lia]. unfold sstep. rewrite E. by left.
  - destruct (succs s) as [|s' l] eqn:E; [done|]. assert (sstep s s') as H1 by (unfold sstep; rewrite E; by left).
    destruct (sstep_loses L s s' Hk H1) as (Hk1 & _ & Ht). destruct (IH s' Hk1 ltac:(lia)) as [IH1 IH2].
    destruct (first_run n s') as [j r]. cbn in *. split; [done|]. rewrite IH2.
    destruct (table_steps_head s [] (procs s) s') as (a & p & b & Eh & Hh); [unfold succs in E; by rewrite E|]. cbn in Eh.
    destruct (proc_step_loses L s a p b s' Eh Hk) as (_ & _ & _ & Hp); [by apply head_Some_elem_of|]. by apply Hp.
Qed.

(** A process of such a program that cannot go on has paused or is dead. *)
Lemma stuck_pauses L s p : Forall (uniform_proc L) (procs s) → succs s = [] → p ∈ procs s → stat p = Runs Pause ∨ is_zombie p = true.
Proof.
  intros Hu Hs Hp. rewrite Forall_forall in Hu. destruct (Hu p Hp) as [_ Hq].
  apply list_elem_of_split in Hp as (a & b & E). assert (proc_steps s a p b = []) as Hno.
  { destruct (proc_steps s a p b) as [|x l] eqn:Ep; [done|]. assert (x ∈ succs s) as Hx.
    { eapply (table_steps_in _ []); [exact E|]. rewrite app_nil_l, Ep. by left. }
    rewrite Hs in Hx. by apply elem_of_nil in Hx. }
  unfold proc_steps in Hno. unfold is_zombie. destruct (stat p) as [q|]; [left|by right]. by destruct Hq.
Qed.

Lemma stuck_total L s f :
  Forall (uniform_proc L) (procs s) → succs s = [] → (∀ p, stat p = Runs Pause ∨ is_zombie p = true → f p = 0%nat) →
  total f (procs s) = 0%nat.
Proof.
  intros Hu Hs Hf. assert (∀ p, p ∈ procs s → f p = 0%nat) as H by (intros p Hp; by apply Hf, (stuck_pauses L s)).
  clear Hu Hs. unfold total. induction (procs s) as [|p ps IH]; [done|]. cbn [sum_list_with]. rewrite (H p) by left. apply IH.
  intros q Hq. apply H. by right.
Qed.

Lemma start_kept L p : uniform L p → kept L (start p).
Proof. intros H. split_and!; [done| |constructor]. by repeat constructor. Qed.

(** However its processes are interleaved, such a program makes at most [steps]
    steps; it never writes more lines than the count [lines] of its text, and
    exactly that many when none of its forks failed: the lines a process has not
    written when it forks are written twice. *)
Lemma forked_lines L p k s :
  uniform L p → nsteps sstep k (start p) s →
  (k ≤ steps p)%nat ∧
  (succs s = [] → Forall L (written s) ∧ (length (written s) ≤ lines p 0)%nat ∧ next s ≤ 101 + Z.of_nat (forks p) ∧
    (next s = 101 + Z.of_nat (forks p) → length (written s) = lines p 0)).
Proof.
  intros Hp Hs. destruct (run_loses L k _ _ Hs (start_kept L p Hp)) as ((_ & Hu & HL) & Hl & Hk). split.
  { assert (total to_step (procs (start p)) = steps p) as E by (cbn; unfold to_step; cbn; lia). lia. }
  intros He. split; [done|]. assert (total to_fork (procs s) = 0%nat ∧ total to_write (procs s) = 0%nat) as [Hf Hw].
  { split; apply (stuck_total L); try done; intros q; unfold to_fork, to_write, is_zombie; (destruct (stat q); [by intros [[= ->]|?]|done]). }
  unfold loses, promised, lines_of in Hl. rewrite Hf, Hw in Hl. cbn in Hl. unfold to_fork, to_write in Hl. cbn in Hl. lia.
Qed.

(** There is such a run. *)
Lemma forked_ends L p :
  uniform L p → ∃ k s, nsteps sstep k (start p) s ∧ succs s = [] ∧ next s = 101 + Z.of_nat (forks p).
Proof.
  intros Hp. destruct (first_run_keeps L (steps p) (start p) (start_kept L p Hp)) as [H1 H2]; [cbn; unfold to_step; cbn; lia|].
  eexists _, _. split; [apply first_run_steps|]. split; [done|].
  destruct (run_loses L _ _ _ (first_run_steps (steps p) (start p)) (start_kept L p Hp)) as ((_ & Hu & _) & _ & _).
  unfold promised in H2. rewrite (stuck_total L (first_run (steps p) (start p)).2 to_fork Hu H1) in H2.
  - unfold total, to_fork in H2. cbn in H2. lia.
  - intros q. unfold to_fork, is_zombie. destruct (stat q); [by intros [[= ->]|?]|done].
Qed.

(** process/how-many-spawns.c asks how many lines it prints: 20, of 20 processes. *)
Definition done_line (l : line) : Prop := l = Line "done" [].
Definition pid_line (l : line) : Prop := ∃ i, l = Line "" [i].

Lemma how_many_spawns_uniform : uniform done_line how_many_spawns.
Proof.
  assert (uniform done_line (Fork (λ _, says "done" [] (Exit 0)))) as Hr by (eapply uniform_fork; [by intros|repeat constructor..]).
  eapply uniform_fork; [by intros| |]; (eapply uniform_fork; [intros c Hc; by rewrite decide_True| |]).
  1,3: eapply uniform_fork; [intros c Hc; by rewrite decide_True|done|]; rewrite decide_False by tauto; (eapply uniform_fork; [by intros|done|done]).
  all: rewrite decide_False by tauto; (eapply uniform_fork; [by intros|done|done]).
Qed.

Lemma how_many_spawns_count : lines how_many_spawns 0 = 20%nat ∧ forks how_many_spawns = 19%nat ∧ steps how_many_spawns = 59%nat.
Proof. split_and!; reflexivity. Qed.

Lemma fork_loop_uniform n : uniform pid_line (fork_loop n).
Proof. induction n as [|n IH]; [constructor|]. eapply uniform_fork; [by intros|..]; repeat constructor; try done; intros i; by exists i. Qed.

Lemma fork_loop_count n : lines (fork_loop n) 0 = (2 ^ S n - 2)%nat ∧ forks (fork_loop n) = (2 ^ n - 1)%nat ∧ steps (fork_loop n) = (5 * (2 ^ n - 1))%nat.
Proof.
  induction n as [|n (IHl & IHf & IHs)]; [done|]. cbn [fork_loop lines forks steps says_pid]. rewrite IHl, IHf, IHs.
  pose proof (Nat.pow_nonzero 2 n ltac:(lia)). rewrite !Nat.pow_succ_r'. lia.
Qed.

(** The same without the [fflush], ended by an exit: what it is there for. *)
Fixpoint unflushed (n : nat) : prog := match n with O => Exit 0 | S n => Fork (λ _, says_pid "" (unflushed n)) end.

Lemma unflushed_count n b : lines (unflushed n) b = ((b + n) * 2 ^ n)%nat.
Proof.
  revert b. induction n as [|n IH]; intros b; [cbn; lia|]. cbn [unflushed lines says_pid]. rewrite IH, Nat.pow_succ_r'. lia.
Qed.

(** C24: how many lines the two programs print, over all interleavings of their
    processes and whichever forks fail.  Every run of process/how-many-spawns.c
    ends, after at most 59 steps; it has then printed nothing but lines "done",
    at most 20, of at most 20 processes, and exactly 20 when there are 20
    processes.  Every run of process/fork.c with [n] rounds ends after at most
    5 (2^n - 1) steps, and it has printed a number on each line, at most
    2^(n+1) - 2 of them, with at most 2^n processes, and exactly as many when
    there are so many processes.  Both have a run in which no fork fails. *)
Theorem fork_programs_count n k s :
  (nsteps sstep k (start how_many_spawns) s → (k ≤ 59)%nat ∧
    (succs s = [] → Forall (λ l, l = Line "done" []) (written s) ∧ (length (written s) ≤ 20)%nat ∧ next s ≤ 120 ∧
      (next s = 120 → length (written s) = 20%nat))) ∧
  (nsteps sstep k (start (fork_loop n)) s → (k ≤ 5 * (2 ^ n - 1))%nat ∧
    (succs s = [] → Forall (λ l, ∃ i, l = Line "" [i]) (written s) ∧ (length (written s) ≤ 2 ^ S n - 2)%nat ∧ next s ≤ 100 + 2 ^ Z.of_nat n ∧
      (next s = 100 + 2 ^ Z.of_nat n → length (written s) = (2 ^ S n - 2)%nat))) ∧
  (∃ k s, nsteps sstep k (start how_many_spawns) s ∧ succs s = [] ∧ next s = 120) ∧
  (∃ k s, nsteps sstep k (start (fork_loop n)) s ∧ succs s = [] ∧ next s = 100 + 2 ^ Z.of_nat n).
Proof.
  destruct how_many_spawns_count as (E1 & E2 & E3). destruct (fork_loop_count n) as (F1 & F2 & F3).
  assert (101 + Z.of_nat (forks (fork_loop n)) = 100 + 2 ^ Z.of_nat n) as F4.
  { rewrite F2. pose proof (Nat.pow_nonzero 2 n ltac:(lia)). rewrite Nat2Z.inj_sub, Nat2Z.inj_pow by lia. lia. }
  split_and!.
  - intros Hs. pose proof (forked_lines _ _ k s how_many_spawns_uniform Hs) as H. by rewrite E1, E2, E3 in H.
  - intros Hs. pose proof (forked_lines _ _ k s (fork_loop_uniform n) Hs) as H. by rewrite F4, F1, F3 in H.
  - destruct (forked_ends _ _ how_many_spawns_uniform) as (k' & s' & H). rewrite E2 in H. by exists k', s'.
  - destruct (forked_ends _ _ (fork_loop_uniform n)) as (k' & s' & H). rewrite F4 in H. by exists k', s'.
Qed.

Lemma fork_programs_count_witness :
  let s := (first_run 30 (start (fork_loop 2))).2 in
  (length (written s) ≤ 6)%nat ∧ next s ≤ 104 ∧ (next s = 104 → length (written s) = 6%nat).
Proof.
  destruct (fork_programs_count 2 (first_run 30 (start (fork_loop 2))).1 (first_run 30 (start (fork_loop 2))).2) as (_ & H & _).
  destruct (H (first_run_steps _ _)) as (_ & H1). destruct (H1 ltac:(vm_compute; reflexivity)) as (_ & H2). exact H2.
Defined.

(** What every run of the small programs comes to. *)
Definition no_process (s : sys) : bool := match procs s with [] => true | _ => false end.
Definition wrote (l : list line) (s : sys) : bool := bool_decide (written s = l).

(** System/fork_dont_care.c asks whether its grandchild can become a zombie that
    stays: in no run.  Every run ends after at most 20 steps with no process
    left, and the parent, unless it could not fork at all, has seen its child
    quit, with status 0 or, when the child could not fork, 256. *)
Theorem dont_care_no_zombie k s :
  nsteps sstep k (start dont_care_main) s →
  (k ≤ 20)%nat ∧
  (succs s = [] → procs s = [] ∧
    (written s = [] ∨ ∃ st, (st = 0 ∨ st = 256) ∧ Line "child quit:%d,%d" [101; st] ∈ written s)).
Proof.
  intros Hs. destruct (runs_ok_sound (λ s, no_process s && (bool_decide (written s = []) ||
    bool_decide (Line "child quit:%d,%d" [101; 0] ∈ written s) || bool_decide (Line "child quit:%d,%d" [101; 256] ∈ written s)))
    20 (start dont_care_main) k s) as [Hk HP]; [vm_compute; reflexivity|done|].
  split; [done|]. intros He. specialize (HP He). apply andb_true_iff in HP as [Hp Hw]. unfold no_process in Hp.
  split; [by destruct (procs s)|]. apply orb_true_iff in Hw as [[Hw|Hw]%orb_true_iff|Hw]; apply bool_decide_eq_true in Hw; eauto.
Qed.

Lemma dont_care_no_zombie_witness :
  let k := (first_run 30 (start dont_care_main)).1 in
  let s := (first_run 30 (start dont_care_main)).2 in
  (k ≤ 20)%nat ∧ (succs s = [] → procs s = [] ∧
    (written s = [] ∨ ∃ st, (st = 0 ∨ st = 256) ∧ Line "child quit:%d,%d" [101; st] ∈ written s)).
Proof. apply (dont_care_no_zombie (first_run 30 (start dont_care_main)).1 (first_run 30 (start dont_care_main)).2). apply first_run_steps. Defined.

(** io/is-openable.c tells whether a file can be opened without ever waiting for
    it: in every run it returns, with 0 exactly when the [open] of its child
    succeeds, 256 when it fails and the alarm's number when it hangs (or -1 when
    there is no child), and it leaves no process behind. *)
Theorem is_openable_answers o k s :
  nsteps sstep k (start (is_openable o (λ r, says "result" [r] (Exit 0)))) s →
  (k ≤ 7)%nat ∧
  (succs s = [] → procs s = [] ∧
    (written s = [Line "result" [-1]] ∨
     written s = [Line "result" [match o with Opens => 0 | Fails => 256 | Hangs => SIGALRM end]])).
Proof.
  intros Hs. destruct (runs_ok_sound (λ s, no_process s && (wrote [Line "result" [-1]] s ||
    wrote [Line "result" [match o with Opens => 0 | Fails => 256 | Hangs => SIGALRM end]] s))
    7 (start (is_openable o (λ r, says "result" [r] (Exit 0)))) k s) as [Hk HP]; [destruct o; vm_compute; reflexivity|done|].
  split; [done|]. intros He. specialize (HP He). apply andb_true_iff in HP as [Hp Hw]. unfold no_process in Hp.
  split; [by destruct (procs s)|]. apply orb_true_iff in Hw as [Hw|Hw]; apply bool_decide_eq_true in Hw; eauto.
Qed.

Lemma is_openable_answers_witness :
  let k := (first_run 30 (start (is_openable Hangs (λ r, says "result" [r] (Exit 0))))).1 in
  let s := (first_run 30 (start (is_openable Hangs (λ r, says "result" [r] (Exit 0))))).2 in
  (k ≤ 7)%nat ∧ (succs s = [] → procs s = [] ∧ (written s = [Line "result" [-1]] ∨ written s = [Line "result" [SIGALRM]])).
Proof.
  apply (is_openable_answers Hangs (first_run 30 (start (is_openable Hangs (λ r, says "result" [r] (Exit 0))))).1
    (first_run 30 (start (is_openable Hangs (λ r, says "result" [r] (Exit 0))))).2). apply first_run_steps.
Defined.

(** process/zombie.c: every run ends with the parent waiting for a signal and,
    if there is a child, the child dead and still in the table. *)
Lemma zombie_stays k s :
  nsteps sstep k (start zombie_main) s → succs s = [] →
  procs s = [] ∨ ∃ p c, procs s = [p; c] ∧ stat p = Runs Pause ∧ ppid c = pid p ∧ stat c = Zombie 0.
Proof.
  intros Hs He. destruct (runs_ok_sound (λ s, match procs s with
    | [] => true
    | [Proc i _ (Runs Pause) _; Proc _ j (Zombie 0) _] => bool_decide (j = i)
    | _ => false end) 10 (start zombie_main) k s) as [_ HP]; [vm_compute; reflexivity|done|].
  specialize (HP He). destruct (procs s) as [|[i ? [[]|] ?] [|[? j [|[]] ?] []]]; try done; [by left|right].
  apply bool_decide_eq_true in HP. eexists _, _. by split_and!.
Qed.

(** signal/waitpid.c: the parent sees the exit status 15 of its child, in every
    run in which it has one. *)
Lemma waitpid_sees k s :
  nsteps sstep k (start waitpid_main) s → succs s = [] →
  procs s = [] ∧ (written s = [Line "fork: %m" []] ∨
    written s = [Line "subprocess: %ld" [101]; Line "child terminate status: %#x" [0xf00]; Line "@foo" [13]; Line "@bar yes" []]).
Proof.
  intros Hs He. destruct (runs_ok_sound (λ s, no_process s && (wrote [Line "fork: %m" []] s ||
    wrote [Line "subprocess: %ld" [101]; Line "child terminate status: %#x" [0xf00]; Line "@foo" [13]; Line "@bar yes" []] s))
    20 (start waitpid_main) k s) as [_ HP]; [vm_compute; reflexivity|done|].
  specialize (HP He). apply andb_true_iff in HP as [Hp Hw]. unfold no_process in Hp.
  split; [by destruct (procs s)|]. apply orb_true_iff in Hw as [Hw|Hw]; apply bool_decide_eq_true in Hw; eauto.
Qed.

(** process/fork-bomb.c leaves nothing behind either. *)
Lemma fork_bomb_ends k s : nsteps sstep k (start fork_bomb) s → (k ≤ 5)%nat ∧ (succs s = [] → procs s = []).
Proof.
  intros Hs. destruct (runs_ok_sound no_process 5 (start fork_bomb) k s) as [Hk HP]; [vm_compute; reflexivity|done|].
  split; [done|]. intros He. specialize (HP He). unfold no_process in HP. by destruct (procs s).
Qed.
