(* ===== verification/Signals.v ===== *)
(** * io/sigio.c, io/sigio-refine.c and trivial/read_val.c: what a handler and
    other threads change under a loop

    Each program is a loop that shares one cell with something else: a flag with
    a signal handler, a queue of signals with the kernel, a word with two other
    threads.  A run is a list of steps of the loop and of the others. *)
From Stdlib Require Import ZArith Lia.
From stdpp Require Import base tactics numbers list relations.
From S2P Require Import Prelude.

Open Scope Z_scope.

(** '#' *)
Definition HASH : Z := 35.

(** ** io/sigio.c *)
Module Sigio.

(** Where the loop is: before its test of [got_sigio]; in the inner loop, with
    the result of the last [read] still to be looked at; after the inner loop,
    before the flag is cleared; at its end. *)
Inductive place := Test | Reading | Drained | Ended.

#[export] Instance place_eq_dec : EqDecision place.
Proof. solve_decision. Defined.

(** [raced]: something arrived after the last [read] and before the flag was
    cleared; [printed] and [dropped]: the bytes read; [came]: all that came. *)
Record state := St {
  kernel : list Z; got_sigio : bool; done : bool; at_ : place; cnt : Z;
  printed : list (Z * Z); dropped : list Z; came : list Z; raced : bool }.

Definition init : state := St [] false false Test 0 [] [] [] false.

(** The handler: bytes come, and the signal with them. *)
Definition arrive (bs : list Z) (s : state) : state :=
  St (kernel s ++ bs) true (done s) (at_ s) (cnt s) (printed s) (dropped s) (came s ++ bs)
    (raced s || bool_decide (at_ s = Drained)).

(** A step of the loop.  The inner loop's condition reads before it looks at
    [done]: the byte after a '#' is taken and not printed. *)
Definition step (s : state) : state :=
  match at_ s with
  | Test =>
      if got_sigio s then St (kernel s) true (done s) Reading (cnt s) (printed s) (dropped s) (came s) (raced s)
      else St (kernel s) false (done s) Test (cnt s + 1) (printed s) (dropped s) (came s) (raced s)
  | Reading =>
      match kernel s with
      | [] => St [] (got_sigio s) (done s) Drained (cnt s) (printed s) (dropped s) (came s) (raced s)
      | ch :: k =>
          if done s then St k (got_sigio s) true Drained (cnt s) (printed s) (dropped s ++ [ch]) (came s) (raced s)
          else St k (got_sigio s) (bool_decide (ch = HASH)) Reading (cnt s) (printed s ++ [(cnt s, ch)]) (dropped s) (came s) (raced s)
      end
  | Drained =>
      St (kernel s) false (done s) (if done s then Ended else Test) (if done s then cnt s else cnt s + 1)
        (printed s) (dropped s) (came s) (raced s)
  | Ended => s
  end.

Inductive next (s : state) : state → Prop :=
| next_arrive bs : bs ≠ [] → next s (arrive bs s)
| next_step : next s (step s).

Definition reachable (s : state) : Prop := rtc next init s.

(** The bytes in the order they came, and a flag for those that wait. *)
Record inv (s : state) : Prop := {
  inv_order : came s = map snd (printed s) ++ dropped s ++ kernel s;
  inv_dropped : dropped s = [] ∨ (∃ c, dropped s = [c]) ∧ done s = true ∧ (at_ s = Drained ∨ at_ s = Ended);
  inv_done : done s = true → ∃ l, map snd (printed s) = l ++ [HASH] ∧ Forall (.≠ HASH) l;
  inv_done_at : done s = true → at_ s ≠ Test;
  inv_more : done s = false → Forall (.≠ HASH) (map snd (printed s));
  inv_more_at : done s = false → at_ s ≠ Ended;
  inv_got : at_ s = Reading ∨ at_ s = Drained → got_sigio s = true;
  inv_drained : at_ s = Drained → done s = false → raced s = false → kernel s = [];
  inv_flag : at_ s = Test → raced s = false → kernel s ≠ [] → got_sigio s = true;
}.

Lemma inv_init : inv init.
Proof. by split; cbn; try done; try (by left); intros []. Qed.

Lemma inv_arrive bs s : inv s → inv (arrive bs s).
Proof.
  intros [Ho Hd Hdn Hda Hm Hma Hg Hdr Hf]. destruct s as [k g d a c p dr cm r]; cbn in *. split; cbn; try done.
  - by rewrite Ho, <- !app_assoc.
  - intros -> -> [-> ?%bool_decide_eq_false]%orb_false_iff. done.
Qed.

Ltac finish :=
  try done; try (by left); intros; destruct_or?; destruct_and?; try done; simplify_eq; try congruence; try tauto;
  try (right; split_and!; by eauto).

Lemma inv_step s : inv s → inv (step s).
Proof.
  intros [Ho Hd Hdn Hda Hm Hma Hg Hdr Hf]. destruct s as [k g d a c p dr cm r]; cbn in *. unfold step; cbn. destruct a.
  - assert (d = false ∧ dr = []) as [-> ->].
    { destruct d; [by destruct (Hda eq_refl)|]. by destruct Hd as [|(_ & ? & _)]. }
    destruct g; split; cbn; finish.
  - assert (dr = []) as -> by (destruct Hd as [|(_ & _ & [?|?])]; done). clear Hd. destruct k as [|ch k]; [split; cbn; finish|].
    destruct d; split; cbn; finish.
    + rewrite map_app. cbn. by rewrite <- app_assoc.
    + apply bool_decide_eq_true in H as ->. exists (map snd p). rewrite map_app. auto.
    + apply bool_decide_eq_false in H. rewrite map_app. apply Forall_app. split; [auto|by repeat constructor].
  - destruct d; split; cbn; finish.
  - split; cbn; finish.
Qed.

Lemma reachable_inv s : reachable s → inv s.
Proof.
  revert s. apply rtc_ind_r; [apply inv_init|]. intros y z _ [bs Hbs|] Hy; [by apply inv_arrive|by apply inv_step].
Qed.

(** Keys are printed in the order they were typed, none twice, up to the first
    '#' and none beyond it; the byte after it is the only one the program takes
    and does not print; and a key that waits is announced by the flag when the
    loop tests it, unless it came between the last [read] and the clearing of
    the flag. *)
Theorem sigio_prints s :
  reachable s →
  came s = map snd (printed s) ++ dropped s ++ kernel s ∧ (length (dropped s) ≤ 1)%nat ∧
  (∃ l, Forall (.≠ HASH) l ∧ (map snd (printed s) = l ∧ at_ s ≠ Ended ∨ map snd (printed s) = l ++ [HASH])) ∧
  (at_ s = Test → raced s = false → kernel s ≠ [] → got_sigio s = true).
Proof.
  intros [Ho Hd Hdn Hda Hm Hma Hg Hdr Hf]%reachable_inv. split_and!; try done.
  - destruct Hd as [-> |[[c ->] _]]; cbn; lia.
  - destruct (done s); [destruct Hdn as (l & -> & ?); eauto|]. exists (map snd (printed s)). auto.
Qed.

(** [arrive], then [n] steps of the loop. *)
Definition then_steps (n : nat) (s : state) : state := Nat.iter n step s.

Lemma then_steps_rtc n s : rtc next s (then_steps n s).
Proof. induction n as [|n IH]; [constructor|]. eapply rtc_r; [exact IH|]. apply next_step. Qed.

(** "a#b" typed at once. *)
Lemma sigio_prints_witness :
  let s := then_steps 6 (arrive [97; 35; 98] init) in
  came s = map snd (printed s) ++ dropped s ++ kernel s ∧ (length (dropped s) ≤ 1)%nat ∧
  (∃ l, Forall (.≠ HASH) l ∧ (map snd (printed s) = l ∧ at_ s ≠ Ended ∨ map snd (printed s) = l ++ [HASH])) ∧
  (at_ s = Test → raced s = false → kernel s ≠ [] → got_sigio s = true).
Proof.
  apply (sigio_prints (then_steps 6 (arrive [97; 35; 98] init))).
  eapply rtc_l; [apply (next_arrive _ [97; 35; 98]); discriminate|apply then_steps_rtc].
Defined.

(** The lost key: a '#' that comes in that moment is not read, however long the
    loop goes on, until something else comes. *)
Definition lost : state := arrive [HASH] (then_steps 3 (arrive [97] init)).

Lemma lost_reachable : reachable lost.
Proof.
  eapply rtc_r; [|apply (next_arrive _ [HASH]); discriminate].
  eapply rtc_l; [apply (next_arrive _ [97]); discriminate|apply then_steps_rtc].
Qed.

Lemma lost_stays n : kernel (then_steps (S n) lost) = [HASH] ∧ got_sigio (then_steps (S n) lost) = false ∧ at_ (then_steps (S n) lost) = Test.
Proof.
  induction n as [|n IH]; [done|]. destruct IH as (Hk & Hg & Ha). change (then_steps (S (S n)) lost) with (step (then_steps (S n) lost)).
  revert Hk Hg Ha. generalize (then_steps (S n) lost). intros s Hk Hg Ha. unfold step. rewrite Ha, Hg. done.
Qed.

(** From a loop that sees the flag, a '#' that has come ends the program. *)
Lemma sigio_ends s pre post :
  at_ s = Reading → done s = false → kernel s = pre ++ HASH :: post → Forall (.≠ HASH) pre →
  ∃ n, at_ (then_steps n s) = Ended.
Proof.
  revert s. induction pre as [|ch pre IH]; intros s Ha Hd Hk Hp.
  - exists 3%nat. destruct s as [k g d a c p dr cm r]. cbn in *. subst. by destruct post.
  - apply Forall_cons in Hp as [Hc Hp]. destruct (IH (step s)) as [n Hn].
    + unfold step. by rewrite Ha, Hk, Hd.
    + unfold step. rewrite Ha, Hk, Hd. cbn. by rewrite bool_decide_false.
    + unfold step. by rewrite Ha, Hk, Hd.
    + done.
    + exists (S n). unfold then_steps in *. by rewrite Nat.iter_succ_r.
Qed.
End Sigio.

(** ** io/sigio-refine.c *)
Module Refine.

(** [queue]: the signals that wait, one for each arrival. *)
Record state := St { kernel : list Z; queue : nat; done : bool; printed : list Z }.

Definition init : state := St [] 0 false [].

Definition arrive (bs : list Z) (s : state) : state := St (kernel s ++ bs) (S (queue s)) (done s) (printed s).

(** One round: a signal, then one byte; [None] waits for a signal, or is the end. *)
Definition round (s : state) : option state :=
  if done s then None
  else
    match queue s with
    | O => None
    | S q =>
        match kernel s with
        | [] => Some (St [] q false (printed s))
        | ch :: k => Some (St k q (bool_decide (ch = HASH)) (printed s ++ [ch]))
        end
    end.

(** Rounds until the program waits or ends. *)
Fixpoint rounds (n : nat) (s : state) : state :=
  match n with
  | O => s
  | S n => match round s with Some s => rounds n s | None => s end
  end.

(** Keys that come one at a time are all read, up to the first '#': when the
    program waits, it has printed everything that came, and when it ends, the
    '#' is the last thing printed. *)
Theorem refine_reads keys :
  let s := foldl (λ s c, arrive [c] s) init keys in
  let s' := rounds (length keys) s in
  round s' = None ∧ keys = printed s' ++ kernel s' ∧
  (done s' = false → printed s' = keys) ∧ (done s' = true → last (printed s') = Some HASH).
Proof.
  cbn zeta. set (s := foldl _ _ _).
  assert (s = St keys (length keys) false []) as ->.
  { unfold s. enough (∀ s, foldl (λ s c, arrive [c] s) s keys = St (kernel s ++ keys) (queue s + length keys) (done s) (printed s)) as ->
      by done. clear. induction keys as [|c keys IH]; intros [k q d p]; cbn; [by rewrite app_nil_r, Nat.add_0_r|].
    rewrite IH. cbn. rewrite <- app_assoc. f_equal. lia. }
  enough (∀ ks p, (∀ c, last p = Some c → c ≠ HASH) → let s' := rounds (length ks) (St ks (length ks) false p) in
    round s' = None ∧ p ++ ks = printed s' ++ kernel s' ∧ (done s' = false → printed s' = p ++ ks) ∧
    (done s' = true → last (printed s') = Some HASH)) as H by (by apply (H keys [])).
  clear. induction ks as [|c ks IH]; intros p Hp; cbn.
  - rewrite app_nil_r. by split_and!.
  - destruct (decide (c = HASH)) as [-> |Hc].
    + rewrite bool_decide_true by done. assert (∀ n, rounds n (St ks (length ks) true (p ++ [HASH])) = St ks (length ks) true (p ++ [HASH])) as ->
        by (by intros []). cbn. rewrite <- app_assoc. split_and!; try done. by rewrite last_snoc.
    + rewrite bool_decide_false by done. destruct (IH (p ++ [c])) as (H1 & H2 & H3 & H4).
      { intros c'. rewrite last_snoc. by intros [= <-]. }
      rewrite <- app_assoc in *. by split_and!.
Qed.

(** Two keys that come together, as when text is pasted: the second waits. *)
Lemma second_key_waits : rounds 5 (arrive [97; HASH] init) = St [HASH] 0 false [97].
Proof. done. Qed.
End Refine.

(** ** trivial/read_val.c: a word that two threads write *)
Module ReadVal.

Definition V1 : Z := 0x1122334455667788.
Definition V2 : Z := 0x5566778811223344.

(** The word is made of cells; a store writes them in turn, at once when there is
    one.  A thread: the cells it has still to write of its value. *)
Record state := St { word : list Z; t1 : list (nat * Z); t2 : list (nat * Z); q : bool; seen : list Z }.

Section cells.
Context (split : Z → list Z) (glue : list Z → Z).

Definition store_of (v : Z) : list (nat * Z) := imap (λ i c, (i, c)) (split v).
Definition init : state := St (split V1) [] [] false [].

(** One cell of a store; a finished store is begun anew until [q] is set. *)
Definition write_cell (v : Z) (w : list Z) (t : list (nat * Z)) (q : bool) : list Z * list (nat * Z) :=
  match t with
  | (i, c) :: t => (<[i := c]> w, t)
  | [] => (w, if q then [] else store_of v)
  end.

Inductive action := Set1 | Set2 | Look | Interrupt.

Definition act (a : action) (s : state) : state :=
  let '(St w a1 a2 q l) := s in
  match a with
  | Set1 => let '(w, a1) := write_cell V1 w a1 q in St w a1 a2 q l
  | Set2 => let '(w, a2) := write_cell V2 w a2 q in St w a1 a2 q l
  | Look => if q then s else let b := glue w in
      if decide (b = V1 ∨ b = V2) then s else St w a1 a2 true (l ++ [b])
  | Interrupt => St w a1 a2 true l
  end.

Definition run (acts : list action) : state := foldl (λ s a, act a s) init acts.
End cells.

(** The word is one of the two values, and so is what a thread is about to store. *)
Definition whole (s : state) : Prop :=
  (word s = [V1] ∨ word s = [V2]) ∧ (t1 s = [] ∨ t1 s = [(0%nat, V1)]) ∧ (t2 s = [] ∨ t2 s = [(0%nat, V2)]) ∧ seen s = [].

Abbreviation act_whole := (act (λ v, [v]) (λ w, w !!! 0%nat)).

Lemma whole_act a s : whole s → whole (act_whole a s).
Proof.
  destruct s as [w a1 a2 q l]. unfold whole. cbn. intros (Hw & H1 & H2 & ->). destruct a; cbn.
  - destruct H1 as [-> | ->]; cbn; [destruct q; cbn; auto|]. destruct Hw as [-> | ->]; cbn; auto.
  - destruct H2 as [-> | ->]; cbn; [destruct q; cbn; auto|]. destruct Hw as [-> | ->]; cbn; auto.
  - destruct q; cbn; [auto|]. destruct Hw as [-> | ->]; cbn; rewrite decide_True by auto; cbn; auto.
  - auto.
Qed.

(** A word that is stored at once is never seen torn: only a signal ends it. *)
Theorem whole_word_never_torn acts :
  seen (run (λ v, [v]) (λ w, w !!! 0%nat) acts) = [] ∧
  (Interrupt ∉ acts → q (run (λ v, [v]) (λ w, w !!! 0%nat) acts) = false).
Proof.
  unfold run. set (s := init _). assert (whole s ∧ q s = false) as [Hs Hq] by (by split; [split_and!; auto|]). clearbody s.
  revert s Hs Hq. induction acts as [|a acts IH]; intros s Hs Hq; cbn [foldl].
  - split; [apply Hs|done].
  - assert (seen (foldl (λ s a, act_whole a s) (act_whole a s) acts) = []) as Hseen.
    { pose proof (whole_act a s Hs) as H. revert H. generalize (act_whole a s). clear. induction acts as [|b acts IH]; intros s Hs; [apply Hs|].
      cbn [foldl]. by apply IH, whole_act. }
    split; [exact Hseen|]. intros [Ha Hin]%not_elem_of_cons. apply IH; [by apply whole_act| |done].
    destruct s as [w a1 a2 q l]. cbn in *. subst q. destruct Hs as (Hw & _). cbn in Hw. destruct a; cbn; try done.
    + by destruct a1 as [|[]].
    + by destruct a2 as [|[]].
    + destruct Hw as [-> | ->]; cbn; by rewrite decide_True by auto.
Qed.

(** In two halves, as on a machine of 32 bits, it is. *)
Definition halves (v : Z) : list Z := [v mod 2 ^ 32; v / 2 ^ 32].
Definition join_halves (w : list Z) : Z := w !!! 0%nat + 2 ^ 32 * w !!! 1%nat.

Lemma halves_torn : seen (run halves join_halves [Set2; Set2; Look]) = [0x1122334411223344].
Proof. vm_compute. reflexivity. Qed.
End ReadVal.
