(* ===== verification/Layout.v ===== *)
(** * class/align.c, gcc/packed.c, class/dynamic-cast.cpp, class/virtual-table.cpp,
    class/diamond-problem.cpp and class/union-dump.cpp: how objects are laid out

    These programs print sizes and offsets.  The rules are those of the x86-64
    ABI, with [#pragma pack] and [packed], and of the C++ ABI for pointers to
    virtual tables, bases and virtual bases; the theorems are what a program may
    rely on, whatever the members. *)
From Stdlib Require Import ZArith Lia.
From stdpp Require Import base tactics numbers list.
From S2P Require Import Prelude.

Open Scope Z_scope.

(** What a type needs.  [dsize]: the bytes its members take, without the padding
    at its end, into which the members of a derived class may go. *)
Record layout := MkLayout { size : Z; align : Z; dsize : Z }.

Definition scalar (n : Z) : layout := MkLayout n n n.
Definition char_ : layout := scalar 1.
Definition short_ : layout := scalar 2.
Definition int_ : layout := scalar 4.
Definition float_ : layout := scalar 4.
Definition double_ : layout := scalar 8.
Definition pointer : layout := scalar 8.
Definition array (t : layout) (n : Z) : layout := MkLayout (n * size t) (align t) (n * size t).

(** The least multiple of [a] that is not below [o]. *)
Definition round_up (o a : Z) : Z := (o + a - 1) / a * a.

(** [#pragma pack(cap)]: no member is aligned more. *)
Definition capped (cap : Z) (t : layout) : Z := Z.min cap (align t).

(** Offsets of members from the offset [o] on, and where the last one ends. *)
Fixpoint place (cap o : Z) (fs : list layout) : list Z * Z :=
  match fs with
  | [] => ([], o)
  | t :: fs =>
      let o := round_up o (capped cap t) in
      let '(os, e) := place cap (o + size t) fs in (o :: os, e)
  end.

Definition max_align (cap a : Z) (fs : list layout) : Z := foldr (λ t, Z.max (capped cap t)) a fs.

(** A struct whose first [o] bytes, aligned to [a], are taken: offsets and layout. *)
Definition extend (cap o a : Z) (fs : list layout) : list Z * layout :=
  let '(os, e) := place cap o fs in
  let a := max_align cap a fs in
  (os, MkLayout (round_up (Z.max 1 e) a) a e).

Definition struct (cap : Z) (fs : list layout) : list Z * layout := extend cap 0 1 fs.
Definition unpacked : Z := 16.

(** A class that has a table for its virtual functions, and one derived from it:
    its members go on where those of the base end. *)
Definition with_vptr (fs : list layout) : list Z * layout := extend unpacked 8 8 fs.
Definition derived (b : layout) (fs : list layout) : list Z * layout := extend unpacked (dsize b) (align b) fs.

(** A virtual base comes after everything else, once. *)
Definition with_vbase (own : layout) (b : layout) : Z * layout :=
  let o := round_up (dsize own) (align b) in
  let a := Z.max (align own) (align b) in
  (o, MkLayout (round_up (o + dsize b) a) a (o + dsize b)).

(** ** The structs *)
Definition A := struct unpacked [pointer; short_; short_].
Definition S1 := struct unpacked [char_; char_; double_].
Definition S2 := struct 8 [char_; double_; short_; array char_ 9; int_].
Definition S3 := struct 8 [char_; S2.2; array char_ 10; int_].
Definition S4_8 := struct 8 [int_; double_; pointer; char_; pointer].
Definition S4_4 := struct 4 [int_; double_; pointer; char_; pointer].
Definition slave_data_t := struct 1 [scalar 8; char_; int_; short_].

(** class/dynamic-cast.cpp *)
Definition Base := with_vptr [char_].
Definition DA := derived Base.2 [float_].
Definition DB := derived Base.2 [int_].

(** class/virtual-table.cpp: no members at all *)
Definition VBase := with_vptr [].
Definition Child := derived VBase.2 [].
Definition Grandchild := derived Child.2 [].

(** class/diamond-problem.cpp: two classes with a virtual base, and one derived
    from both, whose own part is those of the two *)
Definition DBase := struct unpacked [scalar 4].
Definition own_A : layout := (with_vptr []).2.
Definition diamond_A := with_vbase own_A DBase.2.
Definition own_C := (extend unpacked 0 1 [own_A; own_A]).2.
Definition diamond_C := with_vbase own_C DBase.2.

(** ** Lemmas *)
Definition sane (t : layout) : Prop := 0 < size t ∧ 0 < align t ∧ 0 ≤ dsize t ≤ size t.

Lemma round_up_spec o a : 0 < a → o ≤ round_up o a < o + a ∧ (a | round_up o a).
Proof. intros Ha. unfold round_up. split; [mlia|]. apply Z.divide_factor_r. Qed.

Lemma round_up_id o a : 0 < a → (a | o) → round_up o a = o.
Proof.
  intros Ha [k ->]. destruct (round_up_spec (k * a) a Ha) as [H [j Hj]]. rewrite Hj in *. assert (j = k) by nia. by subst.
Qed.

(** Where members lie: aligned, in order, without overlap, with no more padding
    than alignment asks for. *)
Fixpoint laid_out (cap o : Z) (fs : list layout) (os : list Z) (e : Z) : Prop :=
  match fs, os with
  | [], [] => e = o
  | t :: fs, p :: os => o ≤ p < o + capped cap t ∧ (capped cap t | p) ∧ laid_out cap (p + size t) fs os e
  | _, _ => False
  end.

Lemma place_laid_out cap o fs : 0 < cap → Forall sane fs → laid_out cap o fs (place cap o fs).1 (place cap o fs).2.
Proof.
  intros Hc Hf. revert o. induction Hf as [|t fs (Hs & Ha & _) Hf IH]; intros o; cbn [place]; [done|].
  destruct (round_up_spec o (capped cap t)) as [H1 H2]; [unfold capped; lia|].
  specialize (IH (round_up o (capped cap t) + size t)). destruct (place cap _ fs) as [os e]. cbn [laid_out fst snd]. by destruct_and?.
Qed.

Lemma place_end cap o fs : 0 < cap → Forall sane fs → o ≤ (place cap o fs).2.
Proof.
  intros Hc Hf. revert o. induction Hf as [|t fs (Hs & Ha & _) Hf IH]; intros o; cbn [place]; [done|].
  destruct (round_up_spec o (capped cap t)) as [H1 H2]; [unfold capped; lia|].
  specialize (IH (round_up o (capped cap t) + size t)). destruct (place cap _ fs) as [os e]. cbn in *. lia.
Qed.

Lemma max_align_ge cap a fs : a ≤ max_align cap a fs ∧ Forall (λ t, capped cap t ≤ max_align cap a fs) fs.
Proof.
  unfold max_align in *. induction fs as [|t fs [IH1 IH2]]; cbn [foldr]; [split; [done|constructor]|]. split; [lia|]. constructor; [lia|].
  eapply Forall_impl; [exact IH2|]. cbn. lia.
Qed.

(** ** Properties *)

(** A struct, packed or not, with or without something before its members: its
    members are aligned as far as the packing allows, in order, do not overlap,
    and no more padding lies between them than alignment asks for; they end
    inside the struct, whose size is a multiple of its alignment and leaves less
    padding than that at the end. *)
Theorem struct_sound cap o a fs :
  0 < cap → 0 ≤ o → 0 < a → Forall sane fs → (0 < o ∨ fs ≠ []) →
  let '(os, l) := extend cap o a fs in
  laid_out cap o fs os (dsize l) ∧ dsize l ≤ size l < dsize l + align l ∧ (align l | size l) ∧
  a ≤ align l ∧ Forall (λ t, capped cap t ≤ align l) fs ∧ sane l.
Proof.
  intros Hc Ho Ha Hf Hn. unfold extend. pose proof (place_laid_out cap o fs Hc Hf) as Hl. pose proof (place_end cap o fs Hc Hf) as He.
  destruct (place cap o fs) as [os e] eqn:E. cbn [fst snd] in *. destruct (max_align_ge cap a fs) as [Hm1 Hm2].
  assert (0 < e) as He1.
  { destruct Hn as [|Hn]; [lia|]. destruct fs as [|t fs]; [done|]. apply Forall_cons in Hf as [(Hs & Hat & _) Hf].
    cbn [place] in E. pose proof (place_end cap (round_up o (capped cap t) + size t) fs Hc Hf) as He'.
    destruct (round_up_spec o (capped cap t)) as [H1 _]; [unfold capped; lia|].
    destruct (place cap (round_up o (capped cap t) + size t) fs) as [os' e']. injection E as <- <-. cbn in He'. lia. }
  replace (Z.max 1 e) with e by lia. destruct (round_up_spec e (max_align cap a fs)) as [H1 H2]; [lia|].
  cbn [size align dsize]. split_and!; try done; try lia. unfold sane; cbn. lia.
Qed.

(** [S4_4] *)
Lemma struct_sound_witness :
  let '(os, l) := extend 4 0 1 [int_; double_; pointer; char_; pointer] in
  laid_out 4 0 [int_; double_; pointer; char_; pointer] os (dsize l) ∧ dsize l ≤ size l < dsize l + align l ∧ (align l | size l) ∧
  1 ≤ align l ∧ Forall (λ t, capped 4 t ≤ align l) [int_; double_; pointer; char_; pointer] ∧ sane l.
Proof.
  apply (struct_sound 4 0 1 [int_; double_; pointer; char_; pointer]); [lia|lia|lia| |right; discriminate].
  repeat constructor; cbn; lia.
Defined.

(** Members of a struct packed to one byte follow each other without padding. *)
Lemma packed_tight o fs : Forall sane fs → (place 1 o fs).2 = o + foldr (λ t, Z.add (size t)) 0 fs.
Proof.
  intros Hf. revert o. induction Hf as [|t fs (Hs & Ha & _) Hf IH]; intros o; cbn [place foldr]; [cbn; lia|].
  unfold capped. rewrite Z.min_l by lia. rewrite round_up_id by (lia || apply Z.divide_1_l).
  specialize (IH (o + size t)). destruct (place 1 (o + size t) fs) as [os e]. cbn in *. lia.
Qed.

(** What class/align.c and gcc/packed.c print: the size, then the offsets. *)
Lemma align_prints :
  map (λ s, (size s.2, s.1)) [A; S1; S2; S3; S4_8; S4_4; slave_data_t] =
    [(16, [0; 8; 10]); (16, [0; 1; 8]); (32, [0; 8; 16; 18; 28]); (56, [0; 8; 40; 52]);
     (40, [0; 8; 16; 24; 32]); (32, [0; 4; 12; 20; 24]); (15, [0; 8; 9; 13])].
Proof. vm_compute. reflexivity. Qed.

(** class/dynamic-cast.cpp: the members of the derived classes lie in the padding
    of the base, so that all three have the same size. *)
Lemma derived_prints : map (λ s, (size s.2, s.1)) [Base; DA; DB] = [(16, [8]); (16, [12]); (16, [12])].
Proof. vm_compute. reflexivity. Qed.

Lemma virtual_table_prints : map (λ s, size s.2) [VBase; Child; Grandchild] = [8; 8; 8].
Proof. vm_compute. reflexivity. Qed.

(** class/diamond-problem.cpp: one base in the middle of each; 4, 16, 16 and 24. *)
Lemma diamond_prints :
  (size DBase.2, (diamond_A.1, size diamond_A.2), (diamond_C.1, size diamond_C.2)) = (4, (8, 16), (16, 24)).
Proof. vm_compute. reflexivity. Qed.

(** ** class/union-dump.cpp: a union and the tag of its member *)
Module Union.

Inductive Type_ := S8 | S32 | F32 | F64 | NONE.

(** The bytes of the union; [None] is a byte that was never written. *)
Record A := MkA { u_ : list (option Z); t_ : Type_ }.

Definition width (t : Type_) : nat := match t with S8 => 1 | S32 => 4 | F32 => 4 | F64 => 8 | NONE => 0 end.

(** [A(Type t)] clears the union, [A(Type t, void *ptr)] sets the member. *)
Definition A_new (t : Type_) : A := MkA (replicate 8 (Some 0)) t.
Definition put (n : nat) (bs : list Z) (u : list (option Z)) : list (option Z) := map Some (take n bs) ++ drop n u.
Definition A_from (t : Type_) (bs : list Z) : A := MkA (put (width t) bs (replicate 8 None)) t.

(** [getChar() = ...] and its like: the bytes of a member, whatever the tag is. *)
Definition set (t : Type_) (bs : list Z) (a : A) : A := MkA (put (width t) bs (u_ a)) (t_ a).

(** [operator<<]: the bytes of the member of the tag, or nothing. *)
Fixpoint read_all (l : list (option Z)) : outcome (list Z) :=
  match l with
  | [] => Ret []
  | Some b :: l => r ← read_all l; Ret (b :: r)
  | None :: _ => Undef
  end.
Definition dump (a : A) : outcome (list Z) := read_all (take (width (t_ a)) (u_ a)).

Lemma read_all_some l : read_all (map Some l) = Ret l.
Proof. induction l as [|b l IH]; [done|]. cbn. by rewrite IH. Qed.

(** A value that was set through the member of the tag, or given to the
    constructor with it, is what is printed. *)
Theorem dump_set t bs :
  length bs = width t → dump (set t bs (A_new t)) = Ret bs ∧ dump (A_from t bs) = Ret bs.
Proof.
  intros Hl. unfold dump, set, A_from, A_new, put. cbn [u_ t_]. rewrite <- Hl, firstn_all, !take_app_length' by (by rewrite length_map).
  by rewrite read_all_some.
Qed.

Lemma dump_set_witness :
  dump (set S32 [56; 1; 0; 0] (A_new S32)) = Ret [56; 1; 0; 0] ∧ dump (A_from S32 [56; 1; 0; 0]) = Ret [56; 1; 0; 0].
Proof. apply (dump_set S32 [56; 1; 0; 0]). reflexivity. Defined.

(** A member that is wider than the one set reads bytes that were never written. *)
Lemma wider_undefined bs : length bs = 4%nat → dump (MkA (u_ (A_from S32 bs)) F64) = Undef.
Proof. intros H. destruct bs as [|? [|? [|? [|? [|]]]]]; done. Qed.

Definition A_layout : list Z * layout := struct unpacked [MkLayout 8 8 8; char_].
Lemma A_size : size A_layout.2 = 16.
Proof. reflexivity. Qed.
End Union.
