(* ===== verification/Dispatch.v ===== *)
(** * class/virtual-table.cpp, virtual-override.cpp, virtual-dispatcher.cpp,
    override.cpp, lockguard.cpp: which function a call reaches

    A class is its functions, each with its name, the types of its parameters
    and whether it says [virtual]; a class with its bases is a list, the most
    derived first.  The compiler's way is a table of functions per class, with
    a slot for each that is virtual; the language's is the most derived function
    that overrides the one that was found at compile time.  They agree. *)
From Stdlib Require Import ZArith Lia String.
From stdpp Require Import base tactics numbers list strings.
From S2P Require Import Prelude.

Open Scope Z_scope.

(** A name and the types of the parameters. *)
Definition sig : Type := string * list string.

Record method := Method { msig : sig; virtual : bool; body : string }.

(** A class: its functions; with its bases: the most derived first. *)
Definition cls := list method.
Definition chain := list cls.

(** ** The language *)
Fixpoint own (f : sig) (c : cls) : option method :=
  match c with
  | [] => None
  | m :: c => if decide (msig m = f) then Some m else own f c
  end.

(** The most derived function with a signature. *)
Fixpoint most_derived (f : sig) (ch : chain) : option string :=
  match ch with
  | [] => None
  | c :: ch => match own f c with Some m => Some (body m) | None => most_derived f ch end
  end.

(** A signature is virtual from the first class on that says so. *)
Fixpoint is_virtual (f : sig) (ch : chain) : bool :=
  match ch with
  | [] => false
  | c :: ch => is_virtual f ch || match own f c with Some m => virtual m | None => false end
  end.

(** A call of the signature [f] on an object of the class [dyn ++ st], by a
    pointer to its base [st]. *)
Definition call (f : sig) (dyn st : chain) : option string :=
  if is_virtual f st then most_derived f (dyn ++ st) else most_derived f st.

(** Names hide: the functions of a name are those of the most derived class that
    has one. *)
Fixpoint visible (x : string) (ch : chain) : list sig :=
  match ch with
  | [] => []
  | c :: ch =>
      match filter (λ f, f.1 = x) (map msig c) with
      | [] => visible x ch
      | l => l
      end
  end.

(** ** Tables *)
Definition slot : Type := sig * string.

(** A function of a derived class: into the slot it overrides, or into a new one
    if it is virtual. *)
Fixpoint override (m : method) (t : list slot) : option (list slot) :=
  match t with
  | [] => None
  | (f, b) :: t => if decide (f = msig m) then Some ((f, body m) :: t) else r ← override m t; Some ((f, b) :: r)
  end.

Definition add_method (t : list slot) (m : method) : list slot :=
  match override m t with
  | Some t => t
  | None => if virtual m then t ++ [(msig m, body m)] else t
  end.

Fixpoint vtable (ch : chain) : list slot :=
  match ch with
  | [] => []
  | c :: ch => foldl add_method (vtable ch) c
  end.

(** The number of a slot. *)
Fixpoint slot_of (f : sig) (t : list slot) : option nat :=
  match t with
  | [] => None
  | (g, _) :: t => if decide (g = f) then Some O else S <$> slot_of f t
  end.

(** The compiled call: the slot's number is that of the pointer's class, the
    table is the object's. *)
Definition call_compiled (f : sig) (dyn st : chain) : option string :=
  match slot_of f (vtable st) with
  | Some i => snd <$> vtable (dyn ++ st) !! i
  | None => most_derived f st
  end.

(** ** Lemmas *)
Definition distinct (c : cls) : Prop := NoDup (map msig c).

Definition sigs (t : list slot) : list sig := map fst t.

Lemma override_sigs m t t' : override m t = Some t' → sigs t' = sigs t ∧ msig m ∈ sigs t.
Proof.
  unfold sigs. revert t'. induction t as [|[f b] t IH]; intros t'; cbn; [done|]. case_decide as E.
  - intros [= <-]. cbn. split; [done|]. subst. by left.
  - destruct (override m t) as [r|] eqn:Er; [|done]. cbn. intros [= <-]. destruct (IH r eq_refl) as [H1 H2]. cbn. rewrite H1. split; [done|by right].
Qed.

Lemma override_none m t : override m t = None → msig m ∉ sigs t.
Proof.
  induction t as [|[f b] t IH]; cbn; [intros _; apply not_elem_of_nil|]. case_decide as E; [done|].
  destruct (override m t) eqn:Er; [done|]. intros _. apply not_elem_of_cons. split; [congruence|auto].
Qed.

(** A slot keeps its number and its signature in every derived class. *)
Lemma add_method_prefix m t : ∃ l, sigs (add_method t m) = sigs t ++ l.
Proof.
  unfold add_method. destruct (override m t) as [r|] eqn:E; [exists []; rewrite app_nil_r; by apply (override_sigs m)|].
  destruct (virtual m); [exists [msig m]; unfold sigs; by rewrite map_app|exists []; by rewrite app_nil_r].
Qed.

Lemma add_methods_prefix c t : ∃ l, sigs (foldl add_method t c) = sigs t ++ l.
Proof.
  revert t. induction c as [|m c IH]; intros t; cbn [foldl]; [exists []; by rewrite app_nil_r|].
  destruct (IH (add_method t m)) as [l ->]. destruct (add_method_prefix m t) as [l' ->]. exists (l' ++ l). by rewrite app_assoc.
Qed.

Lemma vtable_prefix dyn st : ∃ l, sigs (vtable (dyn ++ st)) = sigs (vtable st) ++ l.
Proof.
  induction dyn as [|c dyn [l IH]]; [exists []; by rewrite app_nil_r|]. cbn [app vtable].
  destruct (add_methods_prefix c (vtable (dyn ++ st))) as [l' ->]. rewrite IH. exists (l ++ l'). by rewrite <- app_assoc.
Qed.

(** What a table has for a signature. *)
Fixpoint entry (f : sig) (t : list slot) : option string :=
  match t with
  | [] => None
  | (g, b) :: t => if decide (g = f) then Some b else entry f t
  end.

Lemma entry_override m t t' f : override m t = Some t' → entry f t' = if decide (msig m = f) then Some (body m) else entry f t.
Proof.
  revert t'. induction t as [|[g b] t IH]; intros t'; cbn [override entry]; [done|].
  destruct (decide (g = msig m)) as [E|E].
  - intros [= <-]. cbn. subst g. by case_decide.
  - destruct (override m t) as [r|] eqn:Er; [|done]. cbn. intros [= <-]. cbn. rewrite (IH r eq_refl). repeat case_decide; congruence.
Qed.

Lemma entry_app f t u : entry f (t ++ u) = match entry f t with Some b => Some b | None => entry f u end.
Proof. induction t as [|[g b] t IH]; cbn; [done|]. by case_decide. Qed.

Lemma entry_none f t : f ∉ sigs t → entry f t = None.
Proof.
  induction t as [|[g b] t IH]; cbn; [done|]. intros [? ?]%not_elem_of_cons. rewrite decide_False by congruence. auto.
Qed.

Lemma entry_some f t : f ∈ sigs t → entry f t ≠ None.
Proof.
  induction t as [|[g b] t IH]; cbn; [by intros ?%elem_of_nil|]. intros H. case_decide; [done|].
  apply elem_of_cons in H as [?|?]; [congruence|auto].
Qed.

Lemma entry_add m t f :
  entry f (add_method t m) =
    if decide (msig m = f) then (if decide (f ∈ sigs t) then Some (body m) else if virtual m then Some (body m) else None)
    else entry f t.
Proof.
  unfold add_method. destruct (override m t) as [r|] eqn:E.
  - rewrite (entry_override m t r f E). case_decide as Hf; [|done]. rewrite decide_True; [done|]. subst. by eapply override_sigs.
  - pose proof (override_none _ _ E) as Hn. case_decide as Hf.
    + subst. rewrite (decide_False (P := msig m ∈ sigs t)) by done. destruct (virtual m); [|by apply entry_none].
      rewrite entry_app, entry_none by done. cbn. by rewrite decide_True.
    + destruct (virtual m); [|done]. rewrite entry_app. cbn. rewrite decide_False by done. by destruct (entry f t).
Qed.

Lemma own_none f c : f ∉ map msig c → own f c = None.
Proof.
  induction c as [|m c IH]; cbn; [done|]. intros [? ?]%not_elem_of_cons. rewrite decide_False by congruence. auto.
Qed.

Lemma sigs_entry f t : f ∈ sigs t ↔ entry f t ≠ None.
Proof.
  split; [apply entry_some|]. intros H. destruct (decide (f ∈ sigs t)); [done|]. by rewrite entry_none in H.
Qed.

(** A class's own functions, over the table of its base. *)
Lemma entry_class c t f : distinct c →
  entry f (foldl add_method t c) =
    match own f c with
    | Some m => if decide (f ∈ sigs t) then Some (body m) else if virtual m then Some (body m) else None
    | None => entry f t
    end.
Proof.
  unfold distinct. revert t. induction c as [|m c IH]; intros t Hd; [done|]. cbn [foldl own map] in *. apply NoDup_cons in Hd as [Hm Hd].
  rewrite IH by done. destruct (decide (msig m = f)) as [<- |Hf].
  - rewrite own_none by done. rewrite entry_add, decide_True by done. done.
  - rewrite entry_add, decide_False by done. destruct (own f c); [|done].
    assert (f ∈ sigs (add_method t m) ↔ f ∈ sigs t) as Hiff by (rewrite !sigs_entry, entry_add, decide_False by done; done).
    by rewrite (decide_ext _ _ _ _ Hiff).
Qed.

Lemma entry_vtable ch f : Forall distinct ch → entry f (vtable ch) = if is_virtual f ch then most_derived f ch else None.
Proof.
  induction 1 as [|c ch Hc Hch IH]; [done|]. cbn [vtable is_virtual most_derived]. rewrite entry_class by done.
  assert (is_virtual f ch = true → most_derived f ch ≠ None) as Hmd.
  { clear. induction ch as [|c ch IH]; cbn; [done|]. destruct (own f c); [done|]. rewrite orb_false_r. done. }
  destruct (own f c) as [m|]; [|by rewrite orb_false_r].
  destruct (is_virtual f ch) eqn:Ev; cbn.
  - rewrite decide_True; [done|]. apply sigs_entry. rewrite IH. auto.
  - rewrite decide_False; [done|]. rewrite sigs_entry, IH. auto.
Qed.

Lemma slot_entry f t i : slot_of f t = Some i → entry f t = snd <$> t !! i ∧ sigs t !! i = Some f.
Proof.
  revert i. induction t as [|[g b] t IH]; intros i; cbn; [done|]. case_decide as E; [intros [= <-]; cbn; by subst|].
  destruct (slot_of f t) as [j|]; [|done]. cbn. intros [= <-]. cbn. by apply IH.
Qed.

Lemma slot_none f t : slot_of f t = None → f ∉ sigs t.
Proof.
  induction t as [|[g b] t IH]; cbn; [intros _; apply not_elem_of_nil|]. case_decide; [done|].
  destruct (slot_of f t); [done|]. intros _. apply not_elem_of_cons. split; [congruence|auto].
Qed.

(** The slot of a signature is the first that has it. *)
Lemma slot_app f t u i : sigs u = sigs t ++ drop (length t) (sigs u) → slot_of f t = Some i → slot_of f u = Some i.
Proof.
  revert u i. induction t as [|[g b] t IH]; intros [|[g' b'] u] i; cbn; try done. intros [= -> E]. case_decide; [done|].
  destruct (slot_of f t) as [j|] eqn:Ej; [|done]. intros [= <-]. by rewrite (IH u j E eq_refl).
Qed.

(** ** Properties *)

(** The tables implement the language: for every class with its bases, every
    pointer to one of these and every signature, the function in the object's
    table, at the slot the pointer's class has for the signature, is the most
    derived one that overrides it; a function that is not virtual is that of
    the pointer's class. *)
Theorem vtable_dispatches f dyn st :
  Forall distinct (dyn ++ st) → call_compiled f dyn st = call f dyn st.
Proof.
  intros Hd. assert (Forall distinct st) as Hst by (by apply Forall_app in Hd as [_ ?]).
  unfold call_compiled, call. pose proof (entry_vtable st f Hst) as He. destruct (slot_of f (vtable st)) as [i|] eqn:Es.
  - assert (is_virtual f st = true) as Hv.
    { destruct (is_virtual f st); [done|]. destruct (slot_entry _ _ _ Es) as [_ Hi]. apply list_elem_of_lookup_2 in Hi.
      by apply sigs_entry in Hi. }
    rewrite Hv. destruct (vtable_prefix dyn st) as [l Hl].
    assert (slot_of f (vtable (dyn ++ st)) = Some i) as Es'.
    { eapply slot_app; [|exact Es]. rewrite Hl at 1. rewrite Hl. unfold sigs. by rewrite drop_app_length' by (by rewrite length_map). }
    destruct (slot_entry _ _ _ Es') as [<- _]. rewrite entry_vtable by done.
    assert (is_virtual f (dyn ++ st) = true) as ->; [|done]. clear -Hv. induction dyn as [|c dyn IH]; [done|]. cbn. by rewrite IH.
  - apply slot_none in Es. rewrite sigs_entry in Es. rewrite He in Es. destruct (is_virtual f st) eqn:Hv; [|done].
    exfalso. apply Es. clear -Hv. induction st as [|c st IH]; cbn in *; [done|]. destruct (own f c); [done|]. rewrite orb_false_r in Hv. auto.
Qed.

(** The destructor, declared or implicit.  [delete] of a pointer to a base runs
    the destructor by the same rule; it is undefined when that of the base is
    not virtual and the object is of a derived class. *)
Definition dtor : sig := ("~", [])%string.
Definition delete (dyn st : chain) : outcome (option string) :=
  if is_virtual dtor st then Ret (call dtor dyn st)
  else match dyn with [] => Ret (call dtor dyn st) | _ => Undef end.

(** ** class/virtual-override.cpp *)
Module VirtualOverride.
Definition get : sig := ("get", [])%string.
Definition equal_base : sig := ("equal", ["Base*"])%string.
Definition equal_derived : sig := ("equal", ["Derived*"])%string.
Definition print : sig := ("print", ["int"; "std::ostream&"])%string.

Definition Base : cls := [Method get true "Base::get"; Method equal_base true "Base::equal"; Method print true "Base::print"; Method dtor false "Base::~Base"].
Definition Derived : cls := [Method get false "Derived::get"; Method equal_derived false "Derived::equal"; Method print false "Derived::print";
  Method dtor false "Derived::~Derived"].

(** What a function does: [print] its text, [equal] its result. *)
Definition run_print (b : string) (n : Z) : list Z := if decide (b = "Derived::print"%string) then [n; n] else [n].
Definition run_equal (b : string) (i j : Z) : bool := if decide (b = "Derived::equal"%string) then false else bool_decide (i = j).

(** [MAIN]: [ptr] is a [Base *] to a [Derived]; the object's [i] are all 0.  The
    functions a call may mean are those that are [visible]. *)
Definition main : option (list Z * list Z * bool * bool) :=
  p1 ← call print [Derived] [Base];
  p2 ← call print [] [Derived; Base];
  f1 ← head (visible "equal" [Base]);
  e1 ← call f1 [Derived] [Base];
  f2 ← head (visible "equal" [Derived; Base]);
  e2 ← call f2 [] [Derived; Base];
  Some (run_print p1 1, run_print p2 1, run_equal e1 0 0, run_equal e2 0 0).

(** The derived [equal] overrides nothing, and hides the other one. *)
Lemma override_prints : main = Some ([1; 1], [1; 1], true, false).
Proof. vm_compute. reflexivity. Qed.

(** Neither class says that its destructor is virtual. *)
Lemma delete_undefined : delete [Derived] [Base] = Undef.
Proof. vm_compute. reflexivity. Qed.

Lemma vtable_slots : vtable [Derived; Base] = [(get, "Derived::get"); (equal_base, "Base::equal"); (print, "Derived::print")]%string.
Proof. vm_compute. reflexivity. Qed.

Lemma vtable_dispatches_witness : call_compiled equal_base [Derived] [Base] = call equal_base [Derived] [Base].
Proof.
  apply (vtable_dispatches equal_base [Derived] [Base]). apply Forall_cons. split; [|apply Forall_cons; split; [|by apply Forall_nil]];
    apply (bool_decide_unpack _); vm_compute; exact I.
Defined.
End VirtualOverride.

(** ** class/virtual-table.cpp: what the tables of the three classes have *)
Module VirtualTable.
Definition Base : cls := [Method ("a", [])%string true "Base::a"].
Definition Child : cls := [Method ("b", ["int&"])%string true "Child::b"].
Definition Grandchild : cls := [Method ("c", ["float&"])%string false "Grandchild::c"].

Lemma tables_share :
  vtable [Child; Base] = vtable [Base] ++ [(("b", ["int&"]), "Child::b")]%string ∧
  vtable [Grandchild; Child; Base] = vtable [Child; Base].
Proof. split; vm_compute; reflexivity. Qed.
End VirtualTable.

(** ** class/override.cpp: an interface, and a pointer to one of its functions *)
Module Override.
Definition call_sig : sig := ("call", ["void*"; "..."])%string.
Definition Interface : cls := [Method call_sig true "pure"].
Definition A : cls := [Method call_sig false "A::call"; Method ("Foo", ["void*"])%string false "A::Foo"].
Definition B : cls := [Method call_sig false "B::call"].

(** [b.call(...)], then [(a.*functor_ptr)(...)], which goes by the table. *)
Definition main : list (option string) := [call call_sig [] [B; Interface]; call_compiled call_sig [] [A; Interface]].
Lemma functor_calls : main = [Some "B::call"; Some "A::call"]%string.
Proof. vm_compute. reflexivity. Qed.
End Override.

(** ** class/virtual-dispatcher.cpp *)
Module Dispatcher.
Definition foo : sig := ("foo", [])%string.
Definition A : cls := [Method dtor true "A::~A"; Method foo true "pure"].
Definition B : cls := [Method foo false "integer: "; Method dtor false "B::~B"].
Definition C : cls := [Method foo false "float: "; Method dtor false "C::~C"].

(** An object below an [A *]: the names of its classes, those that are derived
    of [A], and what it holds, as it is printed. *)
Record object := Obj { names : list string; below : chain; held : string }.
Definition new_B (x : string) : object := Obj ["B"; "A"]%string [B] x.
Definition new_C (x : string) : object := Obj ["C"; "A"]%string [C] x.

(** [dynamic_cast<T *>(a)] is not null. *)
Definition dynamic_cast (t : string) (o : object) : bool := bool_decide (t ∈ names o).

(** The body of the loop: the text, and the destructor that [delete] runs. *)
Definition visit (o : object) : outcome (list string * option string) :=
  let out :=
    (if dynamic_cast "B" o then ["class B"%string] else if dynamic_cast "C" o then ["class C"%string] else []) ++
    match call_compiled foo (below o) [A] with Some b => [(b ++ held o)%string] | None => [] end in
  d ← delete (below o) [A]; Ret (out, d).

Definition main : list (outcome (list string * option string)) := map visit [new_B "2"; new_C "0.2"].
Lemma dispatcher_prints :
  main = [Ret (["class B"; "integer: 2"], Some "B::~B"); Ret (["class C"; "float: 0.2"], Some "C::~C")]%string.
Proof. vm_compute. reflexivity. Qed.
End Dispatcher.

(** ** class/lockguard.cpp *)
Module LockGuard.
Inductive event := Locked | Unlocked | Critical.

Definition lock_sig : sig := ("lock", [])%string.
Definition unlock_sig : sig := ("unlock", [])%string.
Definition TrivialLock : cls := [Method lock_sig true "trivial::Lock::lock"; Method unlock_sig true "trivial::Lock::unlock"].
Definition Lock : cls := [Method lock_sig false "Lock::lock"; Method unlock_sig false "Lock::unlock"].

(** The lock's [state_] and what was logged; [taken]: the result of [lockMutex]. *)
Record state := St { state_ : bool; log : list event }.

Definition run (taken : bool) (b : option string) (s : state) : state :=
  if decide (b = Some "Lock::lock"%string) then St taken (log s ++ [Locked])
  else if decide (b = Some "Lock::unlock"%string) then (if state_ s then St true (log s ++ [Unlocked]) else s)
  else s.

(** [criticalWork]: the guard holds a reference to the base. *)
Definition criticalWork (taken : bool) (s : state) : state :=
  let s := run taken (call_compiled lock_sig [Lock] [TrivialLock]) (St false (log s)) in
  let s := St (state_ s) (log s ++ [Critical]) in
  run taken (call_compiled unlock_sig [Lock] [TrivialLock]) s.

(** The guard locks before and unlocks after, through the base's virtual
    functions; a mutex that could not be taken is not released. *)
Lemma guarded taken s : log (criticalWork taken s) = log s ++ [Locked; Critical] ++ (if taken then [Unlocked] else []).
Proof.
  unfold criticalWork. assert (call_compiled lock_sig [Lock] [TrivialLock] = Some "Lock::lock"%string) as -> by (vm_compute; reflexivity).
  assert (call_compiled unlock_sig [Lock] [TrivialLock] = Some "Lock::unlock"%string) as -> by (vm_compute; reflexivity).
  unfold run. destruct taken; repeat case_decide; try congruence; cbn [log state_]; rewrite <- ?app_assoc; reflexivity.
Qed.
End LockGuard.
