(* ===== verification/Ucontext.v ===== *)
(** * coroutine/ucontext.c, coroutine/task-switch.c: contexts that are swapped

    A context is a thread of control that was put aside: where it is in its
    function and the context that goes on when the function returns.  The two
    programs are state machines over it, one step per statement; in
    task-switch.c a signal may come between any two of them. *)
From Stdlib Require Import ZArith Lia String.
From stdpp Require Import base tactics numbers list gmap relations.
From S2P Require Import Prelude.

Open Scope Z_scope.

(** ** Contexts *)
Section contexts.
Context {F : Type}.

(** [frame]: the function, its place and its variables. *)
Record thread := Thread { frame : F; returns_to : option nat }.

(** [uc_link] is what [makecontext] finds there. *)
Record ucontext := MkUc { saved : thread; uc_link : option nat }.

Record machine := Machine { uc : gmap nat ucontext; running : thread }.

Definition link_of (i : nat) (m : machine) : option nat := match uc m !! i with Some u => uc_link u | None => None end.

Definition getcontext (i : nat) (f : F) (m : machine) : machine :=
  Machine (<[i := MkUc (Thread f (returns_to (running m))) (link_of i m)]> (uc m)) (running m).

Definition set_link (i j : nat) (m : machine) : outcome machine :=
  match uc m !! i with
  | Some u => Ret (Machine (<[i := MkUc (saved u) (Some j)]> (uc m)) (running m))
  | None => Undef
  end.

(** The context must come from [getcontext]. *)
Definition makecontext (i : nat) (f : F) (m : machine) : outcome machine :=
  match uc m !! i with
  | Some u => Ret (Machine (<[i := MkUc (Thread f (uc_link u)) (uc_link u)]> (uc m)) (running m))
  | None => Undef
  end.

Definition setcontext (j : nat) (m : machine) : outcome machine :=
  match uc m !! j with Some u => Ret (Machine (uc m) (saved u)) | None => Undef end.

(** The running thread, which goes on with [f], is put into [i]. *)
Definition swapcontext (i j : nat) (f : F) (m : machine) : outcome machine :=
  setcontext j (Machine (<[i := MkUc (Thread f (returns_to (running m))) (link_of i m)]> (uc m)) (running m)).

(** A function returns: [None] is the end of the program. *)
Definition returns (m : machine) : outcome (option machine) :=
  match returns_to (running m) with
  | Some j => m ← setcontext j m; Ret (Some m)
  | None => Ret None
  end.

Definition goes_to (f : F) (m : machine) : machine := Machine (uc m) (Thread f (returns_to (running m))).
End contexts.
Arguments thread : clear implicits.
Arguments ucontext : clear implicits.
Arguments machine : clear implicits.

(** ** coroutine/ucontext.c *)
Module Yield.
Inductive frame := Foo (pc : nat) | Main (pc : nat).
Inductive says := FooStart | FooYield | FooEnd | MainStart | MainResume | MainEnd.

Definition step (m : machine frame) : outcome (option (machine frame) * list says) :=
  match Ucontext.frame (running m) with
  | Main 0 =>
      let m := getcontext 1 (Main 0) m in
      m ← set_link 1 0 m; m ← makecontext 1 (Foo 0) m; Ret (Some (goes_to (Main 1) m), [MainStart])
  | Main 1 => m ← swapcontext 0 1 (Main 2) m; Ret (Some m, [])
  | Main 2 => Ret (Some (goes_to (Main 3) m), [MainResume])
  | Main 3 => m ← swapcontext 0 1 (Main 4) m; Ret (Some m, [])
  | Main 4 => Ret (Some (goes_to (Main 5) m), [MainEnd])
  | Main _ => o ← returns m; Ret (o, [])
  | Foo 0 => Ret (Some (goes_to (Foo 1) m), [FooStart; FooYield])
  | Foo 1 => m ← swapcontext 1 0 (Foo 2) m; Ret (Some m, [])
  | Foo 2 => Ret (Some (goes_to (Foo 3) m), [FooEnd])
  | Foo _ => o ← returns m; Ret (o, [])
  end.

Fixpoint run (n : nat) (m : machine frame) : outcome (list says) :=
  match n with
  | O => NoFuel
  | S n => '(o, l) ← step m; match o with Some m => r ← run n m; Ret (l ++ r) | None => Ret l end
  end.

Definition start : machine frame := Machine ∅ (Thread (Main 0) None).

(** The two functions take turns, and the end of [foo] resumes [main]. *)
Lemma yield_prints : run 12 start = Ret [MainStart; FooStart; FooYield; MainResume; FooEnd; MainEnd].
Proof. vm_compute. reflexivity. Qed.
End Yield.

(** ** coroutine/task-switch.c *)
Module TaskSwitch.

(** The places in [fn]: the count, the test of [expired], the count of the
    switches, the message, the reset and the switch. *)
Inductive place := Top | Test | Count | Say | Reset | Swap.
Inductive frame := Fn (n : Z) (m : Z) (pc : place) | Main (started : bool).
Inductive output := Dot | Switching (n : Z) | Newline.

Record state := St { mach : machine frame; expired : bool; switches : Z; out : list output; ended : bool }.

Definition handler (s : state) : state := St (mach s) true (switches s) (out s) (ended s).

(** [SETUCONTEXT(n)] *)
Definition SETUCONTEXT (n : Z) (m : machine frame) : outcome (machine frame) :=
  let m := getcontext (Z.to_nat n) (Main false) m in
  m ← set_link (Z.to_nat n) 0 m;
  makecontext (Z.to_nat n) (Fn n 0 Top) m.

Definition on_mach (m : machine frame) (s : state) : state := St m (expired s) (switches s) (out s) (ended s).
Definition print (x : output) (s : state) : state := St (mach s) (expired s) (switches s) (out s ++ [x]) (ended s).
Definition to_place (n m : Z) (pc : place) (s : state) : state := on_mach (goes_to (Fn n m pc) (mach s)) s.

(** A statement of the running function. *)
Definition step (s : state) : outcome state :=
  if ended s then Ret s
  else
    match Ucontext.frame (running (mach s)) with
    | Main false =>
        m ← SETUCONTEXT 1 (mach s); m ← SETUCONTEXT 2 m;
        m ← swapcontext 0 1 (Main true) m; Ret (on_mach m s)
    | Main true => Ret (St (mach s) (expired s) (switches s) (out s ++ [Newline]) true)
    | Fn n m Top =>
        if decide ((m + 1) `rem` 1000000 = 0) then Ret (to_place n 0 Test (print Dot s))
        else Ret (to_place n (m + 1) Test s)
    | Fn n m Test => Ret (to_place n m (if expired s then Count else Top) s)
    | Fn n m Count =>
        let s := St (mach s) (expired s) (switches s + 1) (out s) (ended s) in
        if decide (switches s = 20) then
          o ← returns (mach s);
          match o with Some m => Ret (on_mach m s) | None => Ret (St (mach s) (expired s) (switches s) (out s) true) end
        else Ret (to_place n m Say s)
    | Fn n m Say => Ret (to_place n m Reset (print (Switching n) s))
    | Fn n m Reset => Ret (to_place n m Swap (St (mach s) false (switches s) (out s) (ended s)))
    | Fn n m Swap => k ← swapcontext (Z.to_nat n) (Z.to_nat (3 - n)) (Fn n m Top) (mach s); Ret (on_mach k s)
    end.

Definition init : state := St (Machine ∅ (Thread (Main false) None)) false 0 [] false.

(** The timer's signal comes between any two statements. *)
Inductive next (s : state) : state → Prop :=
| next_step s' : step s = Ret s' → next s s'
| next_signal : next s (handler s).

Definition reachable (s : state) : Prop := rtc next init s.

Fixpoint switchings (l : list output) : list Z :=
  match l with
  | [] => []
  | Switching n :: l => n :: switchings l
  | _ :: l => switchings l
  end.

(** The tasks, in turn. *)
Definition turn (k : nat) : Z := if Nat.even k then 1 else 2.
Definition turns (k : nat) : list Z := map turn (seq 0 k).

(** ** Its invariant *)
Definition uc_saved (i : nat) (t : thread frame) (s : state) : Prop := saved <$> uc (mach s) !! i = Some t.

(** [k] messages were printed.  Task [t] is at [pc]; the other one waits to go
    on at the top, and so does [main]. *)
Record task_at (k : nat) (n m : Z) (pc : place) (s : state) : Prop := {
  at_frame : running (mach s) = Thread (Fn n m pc) (Some 0%nat);
  at_main : uc_saved 0 (Thread (Main true) None) s;
  at_other : ∃ m', uc_saved (Z.to_nat (3 - n)) (Thread (Fn (3 - n) m' Top) (Some 0%nat)) s;
  at_said : switchings (out s) = turns k;
  at_open : Newline ∉ out s;
  at_ended : ended s = false;
}.

(** How far the counts are at a place of task [n]. *)
Definition counted (k : nat) (n : Z) (pc : place) (sw : Z) : Prop :=
  match pc with
  | Top | Test | Count => n = turn k ∧ sw = Z.of_nat k ∧ (k ≤ 19)%nat
  | Say => n = turn k ∧ sw = Z.of_nat (S k) ∧ (S k ≤ 19)%nat
  | Reset | Swap => (1 ≤ k ≤ 19)%nat ∧ n = turn (k - 1) ∧ sw = Z.of_nat k
  end.

Inductive inv (s : state) : Prop :=
| inv_start : mach s = mach init → switches s = 0 → out s = [] → ended s = false → inv s
| inv_task k n m pc : task_at k n m pc s → counted k n pc (switches s) → inv s
| inv_back : Ucontext.frame (running (mach s)) = Main true → switchings (out s) = turns 19 → Newline ∉ out s → ended s = false → inv s
| inv_end o : out s = o ++ [Newline] → switchings o = turns 19 → Newline ∉ o → ended s = true → inv s.

Lemma turn_S k : turn (S k) = 3 - turn k.
Proof. unfold turn. rewrite Nat.even_succ, <- Nat.negb_even. by destruct (Nat.even k). Qed.

Lemma turn_cases k : turn k = 1 ∨ turn k = 2.
Proof. unfold turn. destruct (Nat.even k); auto. Qed.

Lemma turns_S k : turns (S k) = turns k ++ [turn k].
Proof. unfold turns. by rewrite seq_S, map_app. Qed.

Lemma switchings_app a b : switchings (a ++ b) = switchings a ++ switchings b.
Proof. induction a as [|[] a IH]; cbn; by rewrite ?IH. Qed.

Lemma open_snoc o x : Newline ∉ o → x ≠ Newline → Newline ∉ o ++ [x].
Proof. set_solver. Qed.

(** A step inside the function. *)
Lemma to_place_at k n m pc m' pc' s : task_at k n m pc s → task_at k n m' pc' (to_place n m' pc' s).
Proof. intros [Hf Hm Ho Hs Hn He]. split; try done. cbn. by rewrite Hf. Qed.

Lemma print_at k k' n m pc x s :
  task_at k n m pc s → x ≠ Newline → turns k' = turns k ++ switchings [x] → task_at k' n m pc (print x s).
Proof. intros [Hf Hm Ho Hs Hn He] Hx Hk. split; try done; cbn; [|by apply open_snoc]. by rewrite switchings_app, Hs, Hk. Qed.

Lemma flags_at k n m pc s e w : task_at k n m pc s → task_at k n m pc (St (mach s) e w (out s) (ended s)).
Proof. intros [Hf Hm Ho Hs Hn He]. by split. Qed.

(** The switch. *)
Lemma swap_at k n m s :
  task_at k n m Swap s → n = 1 ∨ n = 2 →
  ∃ j m', swapcontext (Z.to_nat n) (Z.to_nat (3 - n)) (Fn n m Top) (mach s) = Ret j ∧ task_at k (3 - n) m' Top (on_mach j s).
Proof.
  intros [Hf Hm [m' Ho] Hs Hn He] Hc. unfold uc_saved in *. unfold swapcontext, setcontext. cbn [uc].
  assert (Z.to_nat n ≠ Z.to_nat (3 - n) ∧ Z.to_nat n ≠ 0%nat) as [Hne H0] by lia.
  rewrite lookup_insert_ne by done. destruct (uc (mach s) !! Z.to_nat (3 - n)) as [u|] eqn:Eu; [|done].
  apply (inj Some) in Ho. eexists _, m'. split; [reflexivity|]. split; cbn; try done.
  - unfold uc_saved. cbn. by rewrite lookup_insert_ne by done.
  - exists m. unfold uc_saved. cbn. replace (3 - (3 - n)) with n by lia. rewrite lookup_insert_eq. cbn. by rewrite Hf.
Qed.

(** Steps that are left when the signal comes before each. *)
Definition rank (pc : place) : Z := match pc with Say => 11 | Reset => 10 | Swap => 9 | Top => 8 | Test => 7 | Count => 6 end.
Definition left (s : state) : Z :=
  if ended s then 0
  else
    match Ucontext.frame (running (mach s)) with
    | Main false => 200
    | Main true => 1
    | Fn _ _ pc => 6 * (20 - switches s) + rank pc
    end.

Lemma left_at k n m pc s : task_at k n m pc s → left s = 6 * (20 - switches s) + rank pc.
Proof. intros [Hf _ _ _ _ He]. unfold left. by rewrite He, Hf. Qed.

Definition steps_well (s : state) : Prop :=
  ∃ s', step s = Ret s' ∧ inv s' ∧ (expired s = true → ended s = false → 0 ≤ left s' < left s).

(** A task that goes on at another place. *)
Lemma goes_on k n m pc s k' n' m' pc' s' :
  task_at k n m pc s → task_at k' n' m' pc' s' → step s = Ret s' →
  counted k' n' pc' (switches s') →
  (expired s = true → 6 * (20 - switches s') + rank pc' < 6 * (20 - switches s) + rank pc) → steps_well s.
Proof.
  intros Ht Ht' Hs Hc Hl. exists s'. split; [done|]. split; [by eapply inv_task|]. intros He _.
  rewrite (left_at _ _ _ _ _ Ht), (left_at _ _ _ _ _ Ht'). split; [|by apply Hl].
  assert (0 < rank pc') by (by destruct pc'). assert (switches s' ≤ 20); [|lia]. destruct pc'; cbn in Hc; lia.
Qed.

Lemma step_task s k n m pc : task_at k n m pc s → counted k n pc (switches s) → steps_well s.
Proof.
  intros Ht Hc. pose proof (at_frame _ _ _ _ _ Ht) as Hf. pose proof (at_ended _ _ _ _ _ Ht) as He.
  destruct pc; cbn in Hc.
  - destruct (decide ((m + 1) `rem` 1000000 = 0)) as [Hm|Hm].
    + eapply (goes_on _ _ _ _ s k n 0 Test (to_place n 0 Test (print Dot s))); [done| | |done|cbn; lia];
        [|unfold step; rewrite He, Hf; cbn [Ucontext.frame mach expired switches out ended]; by rewrite decide_True].
      eapply to_place_at, print_at; [done..|]. cbn. by rewrite app_nil_r.
    + eapply (goes_on _ _ _ _ s k n (m + 1) Test (to_place n (m + 1) Test s)); [done| | |done|cbn; lia];
        [|unfold step; rewrite He, Hf; cbn [Ucontext.frame mach expired switches out ended]; by rewrite decide_False]. by eapply to_place_at.
  - eapply (goes_on _ _ _ _ s k n m (if expired s then Count else Top) (to_place n m (if expired s then Count else Top) s)); [done|by eapply to_place_at| |by destruct (expired s)|intros ->; cbn; lia].
    unfold step. by rewrite He, Hf.
  - destruct (decide (switches s + 1 = 20)) as [H20|H20].
    + destruct Ht as [_ Hm _ Hs Hn _]. unfold uc_saved in Hm. destruct (uc (mach s) !! 0%nat) as [u|] eqn:Eu; [|done].
      apply (inj Some) in Hm. unfold steps_well, step. rewrite He, Hf. cbn [Ucontext.frame mach expired switches out ended].
      rewrite decide_True by done. unfold returns. rewrite Hf. cbn [returns_to]. unfold setcontext. rewrite Eu. cbn [mbind outcome_bind].
      eexists. split; [reflexivity|]. assert (k = 19%nat) as -> by lia. split.
      * apply inv_back; cbn; [by rewrite Hm|done..].
      * intros _ _. unfold left. cbn. rewrite He, Hm, Hf. cbn. lia.
    + eapply (goes_on _ _ _ _ s k n m Say (to_place n m Say (St (mach s) (expired s) (switches s + 1) (out s) (ended s)))); [done|by eapply to_place_at, flags_at| |cbn; lia|cbn; lia].
      unfold step. rewrite He, Hf. cbn [Ucontext.frame mach expired switches out ended]. by rewrite decide_False.
  - eapply (goes_on _ _ _ _ s (S k) n m Reset (to_place n m Reset (print (Switching n) s))); [done|eapply to_place_at, print_at; [done..|]| |cbn|cbn; lia].
    + destruct Hc as [-> _]. apply turns_S.
    + unfold step. by rewrite He, Hf.
    + replace (k - 0)%nat with k by lia. lia.
  - eapply (goes_on _ _ _ _ s k n m Swap (to_place n m Swap (St (mach s) false (switches s) (out s) (ended s)))); [done|by eapply to_place_at, flags_at| |done|cbn; lia]. unfold step. by rewrite He, Hf.
  - destruct Hc as (Hk & -> & Hw). destruct (swap_at k (turn (k - 1)) m s Ht (turn_cases _)) as (j & m' & Ej & Ht').
    eapply (goes_on _ _ _ _ s k _ m' Top (on_mach j s)); [done|exact Ht'| | |cbn; lia].
    + unfold step. rewrite He, Hf. cbn [Ucontext.frame mach expired switches out ended]. by rewrite Ej.
    + cbn. rewrite <- turn_S. replace (S (k - 1)) with k by lia. lia.
Qed.

Lemma step_well s : inv s → steps_well s.
Proof.
  intros [Hm Hw Ho He|k n m pc Ht Hc|Hf Hs Hn He|o Ho Hs Hn He].
  - unfold steps_well, step. rewrite He, Hm. eexists. split; [reflexivity|]. split.
    + apply (inv_task _ 0 1 0 Top); [|cbn; lia]. split; cbn; rewrite ?Ho; try done; [|set_solver].
      exists 0. reflexivity.
    + intros _ _. unfold left. cbn. rewrite He, Hm, Hw. cbn. lia.
  - by eapply step_task.
  - unfold steps_well, step. rewrite He, Hf. eexists. split; [reflexivity|]. split; [by eapply inv_end|].
    intros _ _. unfold left. cbn. rewrite He, Hf. lia.
  - unfold steps_well, step. rewrite He. exists s. split; [done|]. split; [by eapply inv_end|congruence].
Qed.

Lemma signal_inv s : inv s → inv (handler s).
Proof.
  intros [Hm Hw Ho He|k n m pc Ht Hc|Hf Hs Hn He|o Ho Hs Hn He];
    [by apply inv_start|eapply inv_task; [by apply flags_at|done]|by apply inv_back|by eapply inv_end].
Qed.

Lemma task_switch_inv s : reachable s → inv s.
Proof.
  intros H. refine (rtc_ind_r (R := next) inv init _ _ s H); [by apply inv_start|]. intros s1 s2 _ Hn Hi. destruct Hn as [s2 Hs|].
  - destruct (step_well s1 Hi) as (s' & E & Hi' & _). rewrite E in Hs. by injection Hs as <-.
  - by apply signal_inv.
Qed.

(** The driver in which a signal comes before every statement. *)
Fixpoint drive (n : nat) (s : state) : outcome state :=
  match n with O => Ret s | S n => s ← step (handler s); drive n s end.

Lemma drive_ends n s : inv s → left s ≤ Z.of_nat n → ∃ s', drive n s = Ret s' ∧ inv s' ∧ ended s' = true.
Proof.
  revert s. induction n as [|n IH]; intros s Hi Hl.
  - exists s. split; [done|]. split; [done|]. destruct (ended s) eqn:He; [done|]. destruct (step_well (handler s) (signal_inv s Hi)) as (s' & _ & _ & Hx).
    specialize (Hx eq_refl He). change (left (handler s)) with (left s) in Hx. lia.
  - cbn [drive]. destruct (step_well (handler s) (signal_inv s Hi)) as (s' & E & Hi' & Hx). rewrite E. cbn [mbind outcome_bind].
    apply IH; [done|]. destruct (ended s) eqn:He.
    + unfold step in E. cbn [handler ended] in E. rewrite He in E. injection E as <-. unfold left. cbn. rewrite He. lia.
    + specialize (Hx eq_refl He). change (left (handler s)) with (left s) in Hx. lia.
Qed.

Lemma left_bound s : inv s → left s ≤ 200.
Proof.
  intros [Hm Hw Ho He|k n m pc Ht Hc|Hf Hs Hn He|o Ho Hs Hn He]; unfold left.
  - by rewrite He, Hm.
  - rewrite (at_ended _ _ _ _ _ Ht), (at_frame _ _ _ _ _ Ht). cbn. destruct pc; cbn in *; lia.
  - by rewrite He, Hf.
  - by rewrite He.
Qed.

Lemma inv_turns s : inv s → ∃ k, (k ≤ 19)%nat ∧ switchings (out s) = turns k ∧
  (ended s = true → k = 19%nat ∧ last (out s) = Some Newline).
Proof.
  intros [Hm Hw Ho He|k n m pc Ht Hc|Hf Hs Hn He|o Ho Hs Hn He].
  - exists 0%nat. rewrite Ho, He. split; [lia|done].
  - exists k. rewrite (at_said _ _ _ _ _ Ht), (at_ended _ _ _ _ _ Ht). split; [destruct pc; cbn in Hc; lia|done].
  - exists 19%nat. rewrite He. split; [lia|done].
  - exists 19%nat. rewrite Ho, last_snoc, switchings_app, app_nil_r. split; [lia|done].
Qed.

(** ** Properties *)

(** C25: wherever the timer's signals come, no context is used that is not there, and
    the two tasks take turns: each says that it switches, 19 times in all.  The
    twentieth expiry returns to [main], which prints the last line; and from
    every state the program ends within 200 statements if a signal comes before
    each of them. *)
Theorem task_switch_turns s :
  reachable s →
  (∃ s', step s = Ret s') ∧
  (∃ k, (k ≤ 19)%nat ∧ switchings (out s) = turns k ∧ (ended s = true → k = 19%nat ∧ last (out s) = Some Newline)) ∧
  (∃ s', drive 200 s = Ret s' ∧ ended s' = true).
Proof.
  intros H%task_switch_inv. split; [destruct (step_well s H) as (s' & E & _); eauto|]. split; [by apply inv_turns|].
  destruct (drive_ends 200 s H) as (s' & E & _ & He); [by apply left_bound|eauto].
Qed.

(** Two statements, a signal, and the next two. *)
Definition sample : outcome state := s ← step init; s ← step s; s ← step (handler s); step s.

Lemma task_switch_turns_witness :
  ∃ s, sample = Ret s ∧ (∃ s', step s = Ret s') ∧
  (∃ k, (k ≤ 19)%nat ∧ switchings (out s) = turns k ∧ (ended s = true → k = 19%nat ∧ last (out s) = Some Newline)) ∧
  (∃ s', drive 200 s = Ret s' ∧ ended s' = true).
Proof.
  eexists. split; [vm_compute; reflexivity|]. apply task_switch_turns.
  eapply rtc_l; [apply next_step; vm_compute; reflexivity|]. eapply rtc_l; [apply next_step; vm_compute; reflexivity|].
  eapply rtc_l; [apply next_signal|]. eapply rtc_l; [apply next_step; vm_compute; reflexivity|].
  eapply rtc_l; [apply next_step; vm_compute; reflexivity|]. apply rtc_refl.
Defined.

(** Without the timer the first task spins. *)
Lemma no_timer_spins n :
  ∃ s, Nat.iter n (λ o, s ← o; step s) (step init) = Ret s ∧ switchings (out s) = [] ∧ ended s = false.
Proof.
  assert (∃ s m pc, Nat.iter n (λ o, s ← o; step s) (step init) = Ret s ∧ task_at 0 1 m pc s ∧ expired s = false ∧ (pc = Top ∨ pc = Test)) as (s & m & pc & E & Ht & _ & _).
  { induction n as [|n (s & m & pc & E & Ht & He & Hpc)].
    - eexists _, 0, Top. split; [reflexivity|]. split; [|by auto]. split; cbn; try done; [|set_solver]. by exists 0.
    - rewrite Nat.iter_succ, E. cbn [mbind outcome_bind].
      pose proof (at_frame _ _ _ _ _ Ht) as Hf. pose proof (at_ended _ _ _ _ _ Ht) as Hen. unfold step. rewrite Hen, Hf. destruct Hpc as [-> | ->]; cbn [Ucontext.frame].
      + destruct (decide _).
        * eexists _, 0, Test. split; [reflexivity|]. split; [|by auto]. eapply to_place_at, print_at; [done..|]. done.
        * eexists _, (m + 1), Test. split; [reflexivity|]. split; [|by auto]. by eapply to_place_at.
      + rewrite He. eexists _, m, Top. split; [reflexivity|]. split; [|by auto]. by eapply to_place_at. }
  exists s. split; [done|]. split; [apply (at_said _ _ _ _ _ Ht)|apply (at_ended _ _ _ _ _ Ht)].
Qed.
End TaskSwitch.
