(* ===== verification/Datagrams.v ===== *)
(** * multicast/, io/msghdr-client.c, io/msghdr-server.c: datagrams

    The sockets of all programs are one table; what a call answers is an
    argument ([true]: it succeeds), and a call on a descriptor that is not open
    fails whatever that says.  A datagram for a group sets out to the sockets
    bound to its port that have joined, on the sender's host and on hosts its
    time to live lets it reach ([scope]); whether it goes to others on that port
    too is the kernel's affair ([also]).  What is under way may arrive, in any
    order, be lost or be doubled: that is part of a run. *)
From Stdlib Require Import ZArith Lia.
From stdpp Require Import base tactics numbers list gmap sets.
From S2P Require Import Prelude.

Open Scope Z_scope.

(** ** Sockets *)
Record dgram := Dgram { data : list Z; src_ip : Z; src_port : Z }.

Record sock := Sock { ip : Z; port : option Z; groups : list Z; loop : bool; queue : list dgram }.

(** [flight]: the datagrams under way and where each goes; [bad]: the
    descriptors that were closed without being open. *)
Record net := Net { socks : gmap Z sock; fresh : Z; flight : list (Z * dgram); bad : list Z }.

Definition socket (addr : Z) (ok : bool) (n : net) : Z * net :=
  if ok then (fresh n, Net (<[fresh n := Sock addr None [] true []]> (socks n)) (fresh n + 1) (flight n) (bad n)) else (-1, n).

Definition close (fd : Z) (n : net) : net :=
  match socks n !! fd with
  | Some _ => Net (base.delete fd (socks n)) (fresh n) (flight n) (bad n)
  | None => Net (socks n) (fresh n) (flight n) (bad n ++ [fd])
  end.

(** A call that changes a socket: [setsockopt], [bind]. *)
Definition change (fd : Z) (f : sock → sock) (ok : bool) (n : net) : bool * net :=
  match socks n !! fd with
  | Some s => if ok then (true, Net (<[fd := f s]> (socks n)) (fresh n) (flight n) (bad n)) else (false, n)
  | None => (false, n)
  end.

Definition same (s : sock) : sock := s.
Definition set_loop (b : bool) (s : sock) : sock := Sock (ip s) (port s) (groups s) b (queue s).
Definition join (g : Z) (s : sock) : sock := Sock (ip s) (port s) (g :: groups s) (loop s) (queue s).
Definition bind_to (p : Z) (s : sock) : sock := Sock (ip s) (Some p) (groups s) (loop s) (queue s).
Definition enqueue (d : dgram) (s : sock) : sock := Sock (ip s) (port s) (groups s) (loop s) (queue s ++ [d]).
Definition dequeue (s : sock) : sock := Sock (ip s) (port s) (groups s) (loop s) (tail (queue s)).

(** What the network does with the [i]-th of the datagrams under way. *)
Inductive net_event := NDeliver (i : nat) | NDrop (i : nat) | NDouble (i : nat).

Definition net_step (e : net_event) (n : net) : net :=
  match e with
  | NDeliver i =>
      match flight n !! i with
      | Some (fd, d) => Net (alter (enqueue d) fd (socks n)) (fresh n) (base.delete i (flight n)) (bad n)
      | None => n
      end
  | NDrop i => match flight n !! i with Some _ => Net (socks n) (fresh n) (base.delete i (flight n)) (bad n) | None => n end
  | NDouble i => Net (socks n) (fresh n) (match flight n !! i with Some x => flight n ++ [x] | None => flight n end) (bad n)
  end.
Definition net_steps (es : list net_event) (n : net) : net := foldl (flip net_step) n es.

Section kernel.
Context (scope : Z → Z → bool) (also : sock → bool).

(** Whether a datagram of [s0] for a group may reach [s]: its own host gets it
    when [s0] loops it back. *)
Definition reaches (s0 : sock) (g p : Z) (s : sock) : bool :=
  bool_decide (port s = Some p) && (bool_decide (g ∈ groups s) || also s) &&
  (if decide (ip s = ip s0) then loop s0 else scope (ip s0) (ip s)).

Definition sets_out (s0 : sock) (bs : list Z) (g p : Z) (m : gmap Z sock) : list (Z * dgram) :=
  (λ x, (x.1, Dgram bs (ip s0) (default 0 (port s0)))) <$> filter (λ x, reaches s0 g p x.2 = true) (map_to_list m).

(** [sendto] a group: -1, or the length. *)
Definition sendto (fd : Z) (bs : list Z) (g p : Z) (ok : bool) (n : net) : Z * net :=
  match socks n !! fd with
  | Some s0 => if ok then (zlen bs, Net (socks n) (fresh n) (flight n ++ sets_out s0 bs g p (socks n)) (bad n)) else (-1, n)
  | None => (-1, n)
  end.

(** ** multicast/common.h, common.c *)

(** [SETSOCKOPT]: a failure closes the socket and returns. *)
Definition SETSOCKOPT {R} (fd : Z) (f : sock → sock) (ok : bool) (code : R) (n : net) (k : net → outcome (net * R)) :
    outcome (net * R) :=
  let '(r, n) := change fd f ok n in if r then k n else Ret (close fd n, code).

Definition GROUP_IP : Z := 0xe4432b5b.
Definition GROUP_PORT : Z := 15847.

Definition sock_join_group (fd g : Z) (ok : bool) (n : net) : outcome (net * bool) :=
  SETSOCKOPT fd (join g) ok false n (λ n, Ret (n, true)).

(** The address of an interface; a request that fails leaves the zeros. *)
Definition my_ip (fd addr : Z) (ok : bool) (n : net) : Z :=
  match socks n !! fd with Some _ => if ok then addr else 0 | None => 0 end.

(** ** multicast/sender.c *)
Inductive said :=
| BindFailed | Sends | SendFailed (len : Z) | Loopback (bs : list Z) (addr p : Z) | Eth0 (addr : Z)
| Waiting | Received (count : Z) (bs : list Z) (addr p : Z).

(** What the calls answer. *)
Record answers := Answers {
  a_socket : bool; a_addr : bool; a_port : bool; a_loop : bool; a_bind : bool; a_join : bool; a_send : bool; a_poll : bool; a_recv : bool;
  a_ioctl : bool }.
Definition all_well : answers := Answers true true true true true true true true true true.

(** "Hi, there!" *)
Definition greeting : list Z := [72; 105; 44; 32; 116; 104; 101; 114; 101; 33].

(** [recvfrom] into a buffer of 1024 bytes. *)
Definition received (d : dgram) : list Z := take 1024 (data d).

(** After the [sendto]: a message may be there within the second. *)
Definition read_loopback (fd : Z) (a : answers) (n : net) : outcome (net * list said) :=
  match socks n !! fd with
  | Some s =>
      match queue s with
      | d :: _ =>
          if a_poll a then
            if a_recv a then Ret (snd (change fd dequeue true n), [Loopback (received d) (src_ip d) (src_port d)]) else Undef
          else Ret (n, [])
      | [] => Ret (n, [])
      end
  | None => Ret (n, [])
  end.

(** Up to the wait: the descriptor, or what was said and the code to return. *)
Definition sender_start (addr : Z) (a : answers) (n : net) : outcome (net * (Z + list said * Z)) :=
  let '(fd, n) := socket addr (a_socket a) n in
  SETSOCKOPT fd same (a_addr a) (inr ([], -1)) n (λ n,
  SETSOCKOPT fd same (a_port a) (inr ([], -1)) n (λ n,
  SETSOCKOPT fd (set_loop true) (a_loop a) (inr ([], -1)) n (λ n,
  let '(r, n) := change fd (bind_to GROUP_PORT) (a_bind a) n in
  if negb r then Ret (close fd n, inr ([BindFailed], -1))
  else
    '(n, _) ← sock_join_group fd GROUP_IP (a_join a) n;
    let '(len, n) := sendto fd greeting GROUP_IP GROUP_PORT (a_send a) n in
    if decide (len ≠ zlen greeting) then Ret (n, inr ([Sends; SendFailed len], -1)) else Ret (n, inl fd)))).

(** After it. *)
Definition sender_finish (addr fd : Z) (a : answers) (n : net) : outcome (net * (list said * Z)) :=
  '(n, l) ← read_loopback fd a n;
  Ret (close fd n, ([Sends] ++ l ++ [Eth0 (my_ip fd addr (a_ioctl a) n)], 0)).

(** [es] is what the network does meanwhile. *)
Definition sender_main (addr : Z) (a : answers) (es : list net_event) (n : net) : outcome (net * (list said * Z)) :=
  '(n, r) ← sender_start addr a n;
  match r with
  | inl fd => sender_finish addr fd a (net_steps es n)
  | inr out => Ret (n, out)
  end.

(** ** multicast/receiver.c *)

(** Up to the loop: the descriptor, or the code to return. *)
Definition receiver_start (addr : Z) (a : answers) (n : net) : outcome (net * (Z + list said * Z)) :=
  let '(fd, n) := socket addr (a_socket a) n in
  if decide (fd = -1) then Ret (n, inr ([], -1))
  else
    SETSOCKOPT fd same (a_addr a) (inr ([], -1)) n (λ n,
    SETSOCKOPT fd same (a_port a) (inr ([], -1)) n (λ n,
    let '(r, n) := change fd (bind_to GROUP_PORT) (a_bind a) n in
    if negb r then Ret (close fd n, inr ([BindFailed], -1))
    else '(n, _) ← sock_join_group fd GROUP_IP (a_join a) n; Ret (n, inl fd))).

(** The loop over what is queued: the count, what is printed, the rest and
    whether it ended. *)
Fixpoint receive (q : list dgram) (count : Z) : outcome (list said * Z * list dgram * bool) :=
  match q with
  | [] => Ret ([], count, [], false)
  | d :: q =>
      if decide (received d = []) then Ret ([], count, q, true)
      else
        count ← int_result (count + 1);
        '(l, count', r, e) ← receive q count;
        Ret (Received count (received d) (src_ip d) (src_port d) :: l, count', r, e)
  end.

(** Until it waits or ends; at the end the socket is closed. *)
Definition receiver_loop (fd count : Z) (n : net) : outcome (net * list said * Z * bool) :=
  match socks n !! fd with
  | None => Ret (close fd n, [], count, true)
  | Some s =>
      '(l, count, r, e) ← receive (queue s) count;
      let n := Net (<[fd := Sock (ip s) (port s) (groups s) (loop s) r]> (socks n)) (fresh n) (flight n) (bad n) in
      Ret (if e : bool then close fd n else n, l, count, e)
  end.

(** ** A receiver and senders at the same time

    The descriptors on which senders wait, with their addresses; the receiver's
    descriptor, its count, what it has printed and whether its loop has ended. *)
Record world := World { wnet : net; senders : gmap Z Z; rfd : Z; count : Z; printed : list said; ended : bool }.

Inductive waction :=
| AStart (addr : Z) (a : answers)      (** a sender begins, up to its wait *)
| AFinish (fd : Z) (a : answers)       (** a sender that waits goes on *)
| ANet (e : net_event)
| ARead.                               (** the receiver takes what is there *)

Definition wstep (x : waction) (w : world) : outcome world :=
  match x with
  | AStart addr a =>
      '(n, r) ← sender_start addr a (wnet w);
      Ret (World n (match r with inl fd => <[fd := addr]> (senders w) | inr _ => senders w end) (rfd w) (count w) (printed w) (ended w))
  | AFinish fd a =>
      match senders w !! fd with
      | Some addr =>
          '(n, _) ← sender_finish addr fd a (wnet w);
          Ret (World n (base.delete fd (senders w)) (rfd w) (count w) (printed w) (ended w))
      | None => Ret w
      end
  | ANet e => Ret (World (net_step e (wnet w)) (senders w) (rfd w) (count w) (printed w) (ended w))
  | ARead =>
      if ended w then Ret w
      else
        '(n, l, c, e) ← receiver_loop (rfd w) (count w) (wnet w);
        Ret (World n (senders w) (rfd w) c (printed w ++ l) e)
  end.

Fixpoint wrun (l : list waction) (w : world) : outcome world :=
  match l with [] => Ret w | x :: l => w ← wstep x w; wrun l w end.

(** ** What the network did *)

(** What it brought to the receiver, in the order of arrival. *)
Definition arrives (x : waction) (w : world) : list dgram :=
  match x with
  | ANet (NDeliver i) =>
      match flight (wnet w) !! i with Some (fd, d) => if decide (fd = rfd w) then [d] else [] | None => [] end
  | _ => []
  end.
Fixpoint arrived (l : list waction) (w : world) : list dgram :=
  match l with
  | [] => []
  | x :: l => arrives x w ++ match wstep x w with Ret w => arrived l w | _ => [] end
  end.

(** The senders that come as far as their [sendto]. *)
Definition sends (a : answers) : bool := a_socket a && a_addr a && a_port a && a_loop a && a_bind a && a_join a && a_send a.

(** What they send to a receiver at [ra]. *)
Definition sent_by (ra : Z) (x : waction) : list dgram :=
  match x with
  | AStart addr a => if sends a && (bool_decide (ra = addr) || scope addr ra) then [Dgram greeting addr GROUP_PORT] else []
  | _ => []
  end.

(** Neither lost nor doubled. *)
Definition faithful (x : waction) : bool := match x with ANet (NDrop _) | ANet (NDouble _) => false | _ => true end.

(** Every [recvfrom] of a sender that has something to read succeeds. *)
Definition reads_well (x : waction) : bool := match x with AFinish _ a => a_recv a | _ => true end.

Definition under_way (fd : Z) (n : net) : list dgram := (filter (λ x, x.1 = fd) (flight n)).*2.

(** ** Lemmas: a socket of one's own *)
Definition unused (n : net) : Prop := 0 ≤ fresh n ∧ ∀ fd, fd < 0 ∨ fresh n ≤ fd → socks n !! fd = None.

Definition with_sock (s : sock) (n : net) : net := Net (<[fresh n := s]> (socks n)) (fresh n + 1) (flight n) (bad n).
Definition bumped (n : net) : net := Net (socks n) (fresh n + 1) (flight n) (bad n).

Lemma change_own f ok s n :
  change (fresh n) f ok (with_sock s n) = if ok then (true, with_sock (f s) n) else (false, with_sock s n).
Proof. unfold change, with_sock. cbn. rewrite lookup_insert_eq. destruct ok; [|done]. by rewrite insert_insert_eq. Qed.

Lemma close_own s n : unused n → close (fresh n) (with_sock s n) = bumped n.
Proof.
  intros [_ Hu]. unfold close, with_sock, bumped. cbn. rewrite lookup_insert_eq, delete_insert_id by (apply Hu; lia). done.
Qed.

Lemma bumped_unused n : unused n → unused (bumped n).
Proof. intros [H0 Hu]. split; cbn; [lia|]. intros fd Hfd. apply Hu. lia. Qed.

Lemma with_unused s n : unused n → unused (with_sock s n).
Proof. intros [H0 Hu]. split; cbn; [lia|]. intros fd Hfd. rewrite lookup_insert_ne by lia. apply Hu. lia. Qed.

(** The option is set, or the socket is closed. *)
Lemma setsockopt_own {R} f ok (code : R) s n k : unused n →
  SETSOCKOPT (fresh n) f ok code (with_sock s n) k = if ok then k (with_sock (f s) n) else Ret (bumped n, code).
Proof. intros Hu. unfold SETSOCKOPT. rewrite change_own. destruct ok; [done|]. by rewrite close_own. Qed.

Ltac own := rewrite setsockopt_own by done; cbv beta iota.

(** The socket of a sender before its [sendto], and what becomes of it. *)
Definition sending (addr : Z) : sock := Sock addr (Some GROUP_PORT) [GROUP_IP] true [].

Definition announced (addr : Z) (n : net) : net :=
  let m := with_sock (sending addr) n in
  Net (socks m) (fresh m) (flight m ++ sets_out (sending addr) greeting GROUP_IP GROUP_PORT (socks m)) (bad m).

(** What a sender leaves behind: nothing, when it gives up before the [sendto];
    its socket, when the [sendto] fails. *)
Lemma sender_start_net addr a n :
  unused n →
  ∃ n' r, sender_start addr a n = Ret (n', r) ∧
    if sends a then n' = announced addr n ∧ r = inl (fresh n)
    else (∃ out, r = inr out) ∧ (n' = bumped n ∨ n' = Net (socks n) (fresh n) (flight n) (bad n ++ [-1]) ∨ n' = with_sock (sending addr) n).
Proof.
  intros Hu. unfold sender_start, sends, socket. destruct (a_socket a); cbn [andb].
  2: { eexists _, _. split; [unfold SETSOCKOPT, change, close; destruct Hu as [_ Hu]; rewrite !(Hu (-1)) by lia; reflexivity|]. eauto. }
  change (Net (<[fresh n := ?s]> (socks n)) (fresh n + 1) (flight n) (bad n)) with (with_sock s n).
  rewrite setsockopt_own by done. destruct (a_addr a); cbn [andb]; [|by eauto 10].
  rewrite setsockopt_own by done. destruct (a_port a); cbn [andb]; [|by eauto 10].
  rewrite setsockopt_own by done. destruct (a_loop a); cbn [andb]; [|by eauto 10].
  rewrite change_own. destruct (a_bind a); cbn [andb negb]; [|rewrite close_own by done; by eauto 10].
  unfold sock_join_group. rewrite setsockopt_own by done. destruct (a_join a); cbn [andb mbind outcome_bind].
  2: { unfold sendto, bumped. cbn [socks]. destruct Hu as [_ Hu]. rewrite (Hu (fresh n)) by lia. eauto 10. }
  change (join GROUP_IP _) with (sending addr). unfold sendto. unfold with_sock at 1. cbn [socks]. rewrite lookup_insert_eq.
  destruct (a_send a); [|by eauto 10]. rewrite decide_False by tauto. by eexists _, _.
Qed.

(** What sets out to one socket. *)
Lemma filter_key {A} (l : list (Z * A)) fd x : NoDup l.*1 → (fd, x) ∈ l → filter (λ y, y.1 = fd) l = [(fd, x)].
Proof.
  induction l as [|[k y] l IH]; [by intros _ ?%elem_of_nil|]. rewrite fmap_cons. intros [Hk Hl]%NoDup_cons [[= <- <-]|Hin]%elem_of_cons.
  - rewrite filter_cons_True by done. f_equal. clear IH Hl. induction l as [|[k y] l IH]; [done|]. rewrite fmap_cons in Hk.
    rewrite filter_cons_False by set_solver. apply IH. set_solver.
  - rewrite filter_cons_False; [by apply IH|]. cbn. intros ->. apply Hk. by eapply (list_elem_of_fmap_2 fst l (fd, x)).
Qed.

Lemma filter_key_fmap {A} (P : Z * A → Prop) `{∀ x, Decision (P x)} (d : dgram) (l : list (Z * A)) fd :
  filter (λ y, y.1 = fd) ((λ x, (x.1, d)) <$> filter P l) = (λ x, (x.1, d)) <$> filter P (filter (λ y, y.1 = fd) l).
Proof.
  induction l as [|x l IH]; [done|]. destruct (decide (P x)) as [Hp|Hp], (decide (x.1 = fd)) as [Hk|Hk].
  - rewrite filter_cons_True, fmap_cons, filter_cons_True, IH by done. by rewrite filter_cons_True, filter_cons_True by done.
  - rewrite filter_cons_True, fmap_cons, filter_cons_False, IH by done. by rewrite filter_cons_False by done.
  - rewrite filter_cons_False, IH by done. by rewrite filter_cons_True, filter_cons_False by done.
  - rewrite filter_cons_False, IH by done. by rewrite filter_cons_False by done.
Qed.

Lemma sets_out_to s0 bs g p m fd s :
  m !! fd = Some s →
  (filter (λ x, x.1 = fd) (sets_out s0 bs g p m)).*2 = if reaches s0 g p s then [Dgram bs (ip s0) (default 0 (port s0))] else [].
Proof.
  intros Hm. unfold sets_out. rewrite filter_key_fmap.
  rewrite (filter_key (map_to_list m) fd s); [|apply NoDup_fst_map_to_list|by apply elem_of_map_to_list].
  destruct (reaches s0 g p s) eqn:E; [rewrite filter_cons_True by done|rewrite filter_cons_False by (cbn; congruence)]; done.
Qed.

Lemma under_way_app fd s f l l' b : under_way fd (Net s f (l ++ l') b) = under_way fd (Net s f l b) ++ (filter (λ x, x.1 = fd) l').*2.
Proof. unfold under_way. cbn. by rewrite filter_app, fmap_app. Qed.

(** ** Lemmas: a receiver *)
Definition receiving (addr : Z) (q : list dgram) : sock := Sock addr (Some GROUP_PORT) [GROUP_IP] true q.

Lemma announced_reaches addr ra fd q n :
  unused n → socks n !! fd = Some (receiving ra q) →
  under_way fd (announced addr n) =
    under_way fd n ++ if bool_decide (ra = addr) || scope addr ra then [Dgram greeting addr GROUP_PORT] else [].
Proof.
  intros [_ Hu] Hfd. unfold announced. rewrite under_way_app. f_equal. rewrite (sets_out_to _ _ _ _ _ fd (receiving ra q)).
  - unfold reaches. cbn. rewrite !bool_decide_true by (by rewrite ?list_elem_of_singleton). cbn.
    case_decide; [by rewrite bool_decide_true|by rewrite bool_decide_false].
  - cbn. rewrite lookup_insert_ne; [done|]. intros <-. by rewrite Hu in Hfd by lia.
Qed.

(** The lines for messages that are not empty. *)
Definition numbered (c : Z) (q : list dgram) : list said :=
  imap (λ i d, Received (c + Z.of_nat i + 1) (received d) (src_ip d) (src_port d)) q.

Lemma receive_all q c :
  Forall (λ d, received d ≠ []) q → 0 ≤ c → c + zlen q ≤ 2147483647 →
  receive q c = Ret (numbered c q, c + zlen q, [], false).
Proof.
  intros Hq. revert c. induction Hq as [|d q Hd Hq IH]; intros c Hc Hl; cbn [receive].
  - cbn. by rewrite Z.add_0_r.
  - rewrite decide_False by done. cbn [length] in Hl. rewrite int_result_small by lia. cbind. rewrite IH by lia. cbind.
    unfold numbered. cbn [imap]. rewrite Z.add_0_r.
    replace (c + 1 + zlen q) with (c + zlen (d :: q)) by (cbn [length]; lia). do 5 f_equal.
    apply imap_ext. intros i d' _. cbn. f_equal. lia.
Qed.

Lemma numbered_app a b : numbered 0 (a ++ b) = numbered 0 a ++ numbered (zlen a) b.
Proof. unfold numbered. rewrite imap_app. f_equal. apply imap_ext. intros i d _. cbn. f_equal. lia. Qed.

(** What holds of the receiver: [got] has arrived, [sent] was sent to it; a
    network that has been [true] to them has lost and doubled nothing. *)
Record winv (ra : Z) (tr : bool) (got sent : list dgram) (w : world) : Prop := {
  inv_unused : unused (wnet w);
  inv_rfd : 0 ≤ rfd w < fresh (wnet w);
  inv_queue : ∃ seen q, socks (wnet w) !! rfd w = Some (receiving ra q) ∧ got = seen ++ q ∧ printed w = numbered 0 seen ∧ count w = zlen seen;
  inv_ended : ended w = false;
  inv_senders : ∀ fd addr, senders w !! fd = Some addr → fd ≠ rfd w ∧ fd < fresh (wnet w);
  inv_origin : ∀ d, d ∈ got ++ under_way (rfd w) (wnet w) → d ∈ sent;
  inv_all : tr = true → got ++ under_way (rfd w) (wnet w) ≡ₚ sent;
}.

(** Everything but the queue, the senders and what is under way stays. *)
Lemma sender_start_inv ra tr got sent w addr a :
  winv ra tr got sent w → ∃ w', wstep (AStart addr a) w = Ret w' ∧ winv ra tr got (sent ++ sent_by ra (AStart addr a)) w'.
Proof.
  intros [H1 H2 (seen & q & Hq & Hrest) H4 H5 H6 H7]. cbn [wstep sent_by].
  destruct (sender_start_net addr a (wnet w) H1) as (n' & r & -> & Hn). cbind. eexists. split; [done|].
  assert (∀ s, <[fresh (wnet w) := s]> (socks (wnet w)) !! rfd w = Some (receiving ra q)) as Hrfd by (intros s; by rewrite lookup_insert_ne by lia).
  destruct (sends a); cbn [andb].
  - destruct Hn as (-> & ->). pose proof (announced_reaches addr ra _ q _ H1 Hq) as Hu.
    split; cbn [wnet rfd senders count printed ended]; try done.
    + by apply (with_unused _ _ H1).
    + cbn. lia.
    + exists seen, q. split; [apply Hrfd|done].
    + intros fd ad. cbn. intros [[<- <-]|[_ Hs]]%lookup_insert_Some; [lia|]. apply H5 in Hs. lia.
    + intros d. rewrite Hu, app_assoc. intros [?|?]%elem_of_app; apply elem_of_app; [left; by apply H6|by right].
    + intros Ht. rewrite Hu, app_assoc. by rewrite H7.
  - rewrite app_nil_r. destruct Hn as ([out ->] & Hn). assert (fresh (wnet w) ≤ fresh n' ∧ flight n' = flight (wnet w) ∧ unused n' ∧ socks n' !! rfd w = Some (receiving ra q)) as (Hfr & Hfl & Hun & Hso).
    { destruct Hn as [-> |[-> | ->]]; cbn; (split_and!; [lia|done| |]); [by apply bumped_unused|done|done|done|by apply with_unused|apply Hrfd]. }
    assert (under_way (rfd w) n' = under_way (rfd w) (wnet w)) as Hu by (unfold under_way; by rewrite Hfl).
    split; cbn [wnet rfd senders count printed ended]; try rewrite Hu; try done; [lia|by exists seen, q|].
    intros fd ad Hs. apply H5 in Hs. lia.
Qed.

Lemma finish_net addr fd a n :
  a_recv a = true → unused n → ∃ n' out, sender_finish addr fd a n = Ret (n', out) ∧
    fresh n' = fresh n ∧ flight n' = flight n ∧ unused n' ∧ ∀ k, k ≠ fd → socks n' !! k = socks n !! k.
Proof.
  intros Hr [H0 Hu]. unfold sender_finish, read_loopback.
  assert (∀ m, fresh m = fresh n → flight m = flight n → (∀ k, k ≠ fd → socks m !! k = socks n !! k) → (fd < 0 ∨ fresh n ≤ fd → socks m !! fd = None) →
    fresh (close fd m) = fresh n ∧ flight (close fd m) = flight n ∧ unused (close fd m) ∧ ∀ k, k ≠ fd → socks (close fd m) !! k = socks n !! k) as Hc.
  { intros m Ef El Ek En. unfold close. destruct (socks m !! fd) eqn:E; (split_and!; [done|done| |]).
    - split; cbn; [lia|]. intros k Hk. destruct (decide (k = fd)) as [-> |]; [by rewrite lookup_delete_eq|]. rewrite lookup_delete_ne, Ek by done. apply Hu. lia.
    - intros k Hk. cbn. by rewrite lookup_delete_ne, Ek by done.
    - split; cbn; [lia|]. intros k Hk. destruct (decide (k = fd)) as [-> |]; [done|]. rewrite Ek by done. apply Hu. lia.
    - done. }
  assert (∃ m l, read_loopback fd a n = Ret (m, l) ∧ fresh m = fresh n ∧ flight m = flight n ∧ (∀ k, k ≠ fd → socks m !! k = socks n !! k) ∧
    (fd < 0 ∨ fresh n ≤ fd → socks m !! fd = None)) as (m & l & Em & M1 & M2 & M3 & M4).
  { unfold read_loopback. destruct (socks n !! fd) as [s|] eqn:E; [|by eexists _, _]. assert (¬ (fd < 0 ∨ fresh n ≤ fd)) as Hno by (intros Hf; by rewrite Hu in E).
    destruct (queue s); [by eexists _, _|]. destruct (a_poll a); [|by eexists _, _]. rewrite Hr. eexists _, _. split; [done|]. unfold change. rewrite E. cbn.
    split_and!; [done..| |done]. intros k Hk. by rewrite lookup_insert_ne. }
  unfold read_loopback in Em. rewrite Em. cbind. eexists _, _. split; [done|]. by apply Hc.
Qed.

Lemma sender_finish_inv ra tr got sent w fd a :
  winv ra tr got sent w → a_recv a = true → ∃ w', wstep (AFinish fd a) w = Ret w' ∧ winv ra tr got sent w'.
Proof.
  intros Hw Hr. destruct Hw as [H1 H2 (seen & q & Hq & Hrest) H4 H5 H6 H7] eqn:Ew. cbn [wstep]. destruct (senders w !! fd) as [addr|] eqn:E; [|by exists w].
  destruct (finish_net addr fd a (wnet w) Hr H1) as (n' & out & -> & F1 & F2 & F3 & F4). cbind. eexists. split; [done|].
  assert (under_way (rfd w) n' = under_way (rfd w) (wnet w)) as Hu by (unfold under_way; by rewrite F2).
  destruct (H5 fd addr E) as [Hne _].
  split; cbn [wnet rfd senders count printed ended]; try rewrite Hu; try rewrite F1; try done.
  - exists seen, q. split; [|done]. rewrite F4; [done|]. congruence.
  - intros k ad [_ Hk]%lookup_delete_Some. by eapply H5.
Qed.

Lemma under_way_delete fd n i k d s f b :
  flight n !! i = Some (k, d) →
  under_way fd n ≡ₚ (if decide (k = fd) then [d] else []) ++ under_way fd (Net s f (base.delete i (flight n)) b).
Proof.
  intros E. unfold under_way. cbn. rewrite (delete_Permutation _ _ _ E) at 1. case_decide.
  - by rewrite filter_cons_True by done.
  - by rewrite filter_cons_False by done.
Qed.

Lemma net_inv ra tr got sent w e :
  winv ra tr got sent w → winv ra (tr && faithful (ANet e)) (got ++ arrives (ANet e) w) sent
    (World (net_step e (wnet w)) (senders w) (rfd w) (count w) (printed w) (ended w)).
Proof.
  intros [H1 H2 (seen & q & Hq & -> & Hrest) H4 H5 H6 H7]. destruct e as [i|i|i]; cbn [faithful arrives net_step]; rewrite ?andb_true_r, ?andb_false_r, ?app_nil_r.
  - destruct (flight (wnet w) !! i) as [[fd d]|] eqn:E; [|rewrite app_nil_r; split; cbn [wnet rfd senders count printed ended]; try done; by exists seen, q].
    pose proof (under_way_delete (rfd w) (wnet w) i fd d (alter (enqueue d) fd (socks (wnet w))) (fresh (wnet w)) (bad (wnet w)) E) as Hu.
    split; cbn [wnet rfd senders count printed ended fresh]; try done.
    + destruct H1 as [H0 Hun]. split; [done|]. cbn. intros k Hk. destruct (decide (k = fd)) as [-> |]; [by rewrite lookup_alter_eq, Hun|]. rewrite lookup_alter_ne by done. by apply Hun.
    + exists seen. cbn [socks]. case_decide as Hd.
      * subst fd. exists (q ++ [d]). rewrite lookup_alter_eq, Hq. by rewrite app_assoc.
      * exists q. rewrite lookup_alter_ne by done. by rewrite app_nil_r.
    + intros x Hx. apply H6. rewrite Hu, app_assoc. done.
    + intros Ht. rewrite <- (H7 Ht), Hu. by rewrite <- !app_assoc.
  - destruct (flight (wnet w) !! i) as [[fd d]|] eqn:E; [|split; cbn [wnet rfd senders count printed ended]; try done; by exists seen, q].
    split; cbn [wnet rfd senders count printed ended fresh socks]; try done; [by exists seen, q|]. intros x Hx. apply H6. revert Hx. rewrite !elem_of_app. intros [?|Hx]; [by left|right].
    rewrite (under_way_delete _ _ _ _ _ (socks (wnet w)) (fresh (wnet w)) (bad (wnet w)) E). apply elem_of_app. by right.
  - split; cbn [wnet rfd senders count printed ended fresh socks]; try done; [by exists seen, q|]. intros x Hx. apply H6. revert Hx. rewrite !elem_of_app. intros [?|Hx]; [by left|right].
    destruct (flight (wnet w) !! i) as [[fd d]|] eqn:E; [|done]. rewrite under_way_app in Hx. apply elem_of_app in Hx as [Hx|Hx]; [done|].
    destruct (decide (fd = rfd w)) as [-> |Hne]; [|rewrite filter_cons_False in Hx by done; by apply elem_of_nil in Hx]. rewrite filter_cons_True in Hx by done.
    apply list_elem_of_singleton in Hx as ->. apply (list_elem_of_fmap_2 snd _ (rfd w, d)), list_elem_of_filter. split; [done|]. by eapply list_elem_of_lookup_2.
Qed.

Lemma reading_inv ra tr got sent w :
  winv ra tr got sent w → Forall (λ d, received d ≠ []) sent → zlen got ≤ 2147483647 →
  ∃ w', wstep ARead w = Ret w' ∧ winv ra tr got sent w' ∧ printed w' = numbered 0 got.
Proof.
  intros [H1 H2 (seen & q & Hq & -> & Hp & Hc) H4 H5 H6 H7] Hs Hl. cbn [wstep]. rewrite H4. unfold receiver_loop. rewrite Hq. cbn [queue receiving ip port groups loop].
  rewrite length_app in Hl. rewrite receive_all; [|rewrite Forall_forall in *; intros d Hd; apply Hs, H6; set_solver|rewrite Hc; lia|rewrite Hc; lia].
  cbind. eexists. split; [done|]. cbn [printed]. rewrite Hp, Hc, <- numbered_app. split; [|done].
  split; cbn [wnet rfd senders count printed ended fresh socks flight]; try done.
  - destruct H1 as [H0 Hun]. split; [done|]. cbn. intros k Hk. rewrite lookup_insert_ne by lia. by apply Hun.
  - exists (seen ++ q), []. rewrite lookup_insert_eq, app_nil_r. split_and!; [done..|]. rewrite length_app. lia.
Qed.

Lemma sent_received ra acts : Forall (λ d, received d ≠ []) (acts ≫= sent_by ra).
Proof.
  induction acts as [|x acts IH]; [constructor|]. cbn. apply Forall_app. split; [|done].
  destruct x as [addr a| | |]; cbn; try constructor. destruct (sends a && _); by repeat constructor.
Qed.

Lemma arrives_one x w : (length (arrives x w) ≤ 1)%nat.
Proof. unfold arrives. repeat case_match; cbn; lia. Qed.

Lemma world_step_inv ra tr got sent w x :
  winv ra tr got sent w → Forall (λ d, received d ≠ []) sent → zlen got ≤ 2147483647 → reads_well x = true →
  ∃ w', wstep x w = Ret w' ∧ winv ra (tr && faithful x) (got ++ arrives x w) (sent ++ sent_by ra x) w'.
Proof.
  intros Hw Hs Hl Hr. destruct x as [addr a|fd a|e|].
  - cbn [faithful arrives]. rewrite andb_true_r, app_nil_r. by apply sender_start_inv.
  - cbn [faithful arrives sent_by]. rewrite andb_true_r, !app_nil_r. by apply sender_finish_inv.
  - cbn [sent_by]. rewrite app_nil_r. eexists. split; [done|]. by apply net_inv.
  - cbn [faithful arrives sent_by]. rewrite andb_true_r, !app_nil_r. destruct (reading_inv ra tr got sent w Hw Hs Hl) as (w' & ? & ? & _). by exists w'.
Qed.

Lemma world_run_inv ra acts tr got sent w :
  winv ra tr got sent w → Forall (λ d, received d ≠ []) sent → zlen got + zlen acts ≤ 2147483647 → forallb reads_well acts = true →
  ∃ w', wrun acts w = Ret w' ∧ winv ra (tr && forallb faithful acts) (got ++ arrived acts w) (sent ++ acts ≫= sent_by ra) w'.
Proof.
  revert tr got sent w. induction acts as [|x acts IH]; intros tr got sent w Hw Hs Hl Hr; cbn [wrun arrived forallb].
  - exists w. cbn. by rewrite !app_nil_r, andb_true_r.
  - apply andb_true_iff in Hr as [Hr1 Hr2]. cbn [length] in Hl.
    destruct (world_step_inv ra tr got sent w x Hw Hs ltac:(lia) Hr1) as (w1 & -> & Hw1). cbind. pose proof (arrives_one x w).
    destruct (IH _ _ _ w1 Hw1) as (w' & E & Hw'); [|rewrite length_app; lia|done|].
    + apply Forall_app. split; [done|]. pose proof (sent_received ra [x]) as Hx. cbn in Hx. by rewrite app_nil_r in Hx.
    + exists w'. split; [done|]. by rewrite !app_assoc, andb_assoc, <- (app_assoc sent) in *.
Qed.

Lemma receiver_starts ra n :
  unused n → receiver_start ra all_well n = Ret (with_sock (receiving ra []) n, inl (fresh n)).
Proof.
  intros Hu. unfold receiver_start, socket. cbn [all_well a_socket a_addr a_port a_bind a_join].
  rewrite decide_False by (destruct Hu; lia). change (Net (<[fresh n := ?s]> (socks n)) (fresh n + 1) (flight n) (bad n)) with (with_sock s n).
  do 2 own. rewrite change_own. cbn [negb]. unfold sock_join_group. by own.
Qed.

Lemma wstep_rfd x w w' : wstep x w = Ret w' → rfd w' = rfd w.
Proof.
  destruct x as [addr a|fd a|e|]; cbn [wstep].
  - destruct (sender_start _ _ _) as [[n r]| |]; cbind; [by intros [= <-]|done|done].
  - destruct (senders w !! fd); [|by intros [= <-]]. destruct (sender_finish _ _ _ _) as [[n r]| |]; cbind; [by intros [= <-]|done|done].
  - by intros [= <-].
  - destruct (ended w); [by intros [= <-]|]. destruct (receiver_loop _ _ _) as [[[[n l] c] e]| |]; cbind; [by intros [= <-]|done|done].
Qed.

Lemma wrun_snoc acts x w w1 w' : wrun acts w = Ret w1 → wstep x w1 = Ret w' → wrun (acts ++ [x]) w = Ret w' ∧ rfd w' = rfd w.
Proof.
  revert w. induction acts as [|y acts IH]; intros w E1 E; cbn [wrun app] in *.
  - injection E1 as ->. rewrite E. split; [done|]. by eapply wstep_rfd.
  - destruct (wstep y w) as [w2| |] eqn:Ey; cbind; cbn in E1; [|done|done]. rewrite <- (wstep_rfd _ _ _ Ey). by apply IH.
Qed.

Lemma arrived_length acts w : zlen (arrived acts w) ≤ zlen acts.
Proof.
  revert w. induction acts as [|x acts IH]; intros w; cbn [arrived]; [done|]. rewrite length_app. pose proof (arrives_one x w). cbn [length].
  destruct (wstep x w) as [w'| |]; [specialize (IH w')|..]; cbn [length]; lia.
Qed.

Lemma sent_origin ra acts d :
  d ∈ acts ≫= sent_by ra → ∃ addr a, AStart addr a ∈ acts ∧ sends a = true ∧ (ra = addr ∨ scope addr ra = true) ∧ d = Dgram greeting addr GROUP_PORT.
Proof.
  intros (x & Hx & Hin)%list_elem_of_bind. destruct x as [addr a| | |]; cbn in Hx; try by apply elem_of_nil in Hx.
  destruct (sends a) eqn:Es; cbn in Hx; [|by apply elem_of_nil in Hx]. destruct (bool_decide (ra = addr) || scope addr ra) eqn:Er; [|by apply elem_of_nil in Hx].
  apply list_elem_of_singleton in Hx. apply orb_true_iff in Er. rewrite bool_decide_eq_true in Er. by exists addr, a.
Qed.

Lemma receiver_begins ra n : unused n → flight n = [] → winv ra true [] [] (World (with_sock (receiving ra []) n) ∅ (fresh n) 0 [] false).
Proof.
  intros Hu Hfl. split; cbn [wnet rfd senders count printed ended]; try done; try (unfold under_way, with_sock; cbn [flight]; by rewrite Hfl).
  - by apply with_unused.
  - destruct Hu. cbn. lia.
  - exists [], []. cbn. by rewrite lookup_insert_eq.
Qed.

(** ** Properties *)

(** C26: a receiver prints what reaches it.  Whatever senders begin and go on, on
    whatever hosts, with whatever answers of their calls, and whatever the network
    loses, doubles and delays: the receiver has printed, when it has read, exactly
    the datagrams that have arrived, in the order of their arrival and counted
    from 1, and its loop has not ended; each of them is the greeting, with the
    address, of a sender that came as far as its [sendto] and is on the receiver's
    host or within reach.  If nothing was lost or doubled, and nothing for the
    receiver is under way any more, these are the greetings of all those senders,
    each once. *)
Theorem multicast_receives ra acts n :
  unused n → flight n = [] → zlen acts ≤ 2147483647 → forallb reads_well acts = true →
  ∃ n1 fd w, receiver_start ra all_well n = Ret (n1, inl fd) ∧
    let w0 := World n1 ∅ fd 0 [] false in
    wrun (acts ++ [ARead]) w0 = Ret w ∧ ended w = false ∧ count w = zlen (arrived acts w0) ∧
    printed w = imap (λ i d, Received (Z.of_nat i + 1) (data d) (src_ip d) (src_port d)) (arrived acts w0) ∧
    (∀ d, d ∈ arrived acts w0 → ∃ addr a, AStart addr a ∈ acts ∧ sends a = true ∧ (ra = addr ∨ scope addr ra = true) ∧ d = Dgram greeting addr GROUP_PORT) ∧
    (forallb faithful acts = true → under_way fd (wnet w) = [] → arrived acts w0 ≡ₚ acts ≫= sent_by ra).
Proof.
  intros Hu Hfl Hlen Hr. eexists _, (fresh n). rewrite receiver_starts by done. set (w0 := World _ _ _ _ _ _).
  destruct (world_run_inv ra acts true [] [] w0 (receiver_begins ra n Hu Hfl)) as (w1 & E1 & H1); [constructor|done|done|]. cbn [app andb] in H1.
  pose proof (arrived_length acts w0) as Hle.
  destruct (reading_inv ra _ _ _ w1 H1 (sent_received ra acts) ltac:(lia)) as (w & E & [_ _ (seen & q & _ & Eg & Hps & Hc) He _ Ho Ha] & Hp).
  destruct (wrun_snoc acts ARead w0 w1 w E1 E) as [Er Hrfd].
  assert (∀ d, d ∈ arrived acts w0 → ∃ addr a, AStart addr a ∈ acts ∧ sends a = true ∧ (ra = addr ∨ scope addr ra = true) ∧ d = Dgram greeting addr GROUP_PORT) as Hor.
  { intros d Hd. apply sent_origin, Ho, elem_of_app. by left. }
  exists w. split; [done|]. cbn zeta. split_and!; [exact Er|exact He| | |exact Hor|].
  - rewrite Hps in Hp. apply (f_equal length) in Hp. unfold numbered in Hp. rewrite !length_imap in Hp. lia.
  - rewrite Hp. unfold numbered. apply imap_ext. intros i d Hd. apply list_elem_of_lookup_2, Hor in Hd as (addr & a & _ & _ & _ & ->). done.
  - intros Hf Hun. specialize (Ha Hf). change (fresh n) with (rfd w0) in Hun. by rewrite Hrfd, Hun, app_nil_r in Ha.
Qed.

(** A group that cannot be joined: the socket is closed, which nobody looks at;
    the receiver reads from it and closes it again, and ends with success. *)
Lemma join_failure_closes_twice ra n :
  unused n →
  let a := Answers true true true true true false true true true true in
  receiver_start ra a n = Ret (bumped n, inl (fresh n)) ∧
  receiver_loop (fresh n) 0 (bumped n) = Ret (Net (socks n) (fresh n + 1) (flight n) (bad n ++ [fresh n]), [], 0, true).
Proof.
  intros Hu a. split.
  - unfold receiver_start, socket. cbn [a a_socket a_addr a_port a_bind a_join]. rewrite decide_False by (destruct Hu; lia).
    change (Net (<[fresh n := ?s]> (socks n)) (fresh n + 1) (flight n) (bad n)) with (with_sock s n).
    do 2 own. rewrite change_own. cbn [negb]. unfold sock_join_group. by own.
  - unfold receiver_loop, close, bumped. cbn [socks]. destruct Hu as [_ Hu]. by rewrite !(Hu (fresh n)) by lia.
Qed.

(** A datagram without data, which anybody can send, ends the receiver. *)
Lemma empty_datagram_ends d q c : data d = [] → receive (d :: q) c = Ret ([], c, q, true).
Proof. intros E. cbn [receive]. unfold received. rewrite E. by rewrite decide_True. Qed.

(** A [sendto] that fails leaves the sender's socket open. *)
Lemma failed_send_leaks addr es n :
  unused n →
  sender_main addr (Answers true true true true true true false true true true) es n =
    Ret (with_sock (sending addr) n, ([Sends; SendFailed (-1)], -1)).
Proof.
  intros Hu. unfold sender_main, sender_start, socket. cbn [a_socket a_addr a_port a_loop a_bind a_join a_send].
  change (Net (<[fresh n := ?s]> (socks n)) (fresh n + 1) (flight n) (bad n)) with (with_sock s n).
  do 3 own. rewrite change_own. cbn [negb]. unfold sock_join_group. own. cbn [mbind outcome_bind].
  change (join GROUP_IP _) with (sending addr). unfold sendto. unfold with_sock at 1. cbn [socks]. rewrite lookup_insert_eq. done.
Qed.
End kernel.

(** A sender hears itself when the network brings its datagram back in time. *)
Example sender_hears_itself :
  (λ r, (bad r.1, r.2)) <$> sender_main (λ _ _, false) (λ _, false) 9 all_well [NDeliver 0] (Net ∅ 3 [] []) =
    Ret ([], ([Sends; Loopback greeting 9 GROUP_PORT; Eth0 9], 0)).
Proof. vm_compute. reflexivity. Qed.

(** The receiver is on host 1, within reach of host 2, not of host 7; the second
    datagram overtakes the first. *)
Definition sample_scope (a b : Z) : bool := bool_decide (a < 5) && bool_decide (b < 5).
Definition sample_acts : list waction :=
  [AStart 1 all_well; AStart 7 all_well; AStart 2 all_well; AStart 2 (Answers true true true true true true false true true true);
   ANet (NDeliver 3); ARead; ANet (NDeliver 0); AFinish 4 all_well].

Lemma multicast_receives_witness :
  ∃ n1 fd w, receiver_start 1 all_well (Net ∅ 3 [] []) = Ret (n1, inl fd) ∧
    wrun sample_scope (λ _, false) (sample_acts ++ [ARead]) (World n1 ∅ fd 0 [] false) = Ret w ∧ ended w = false ∧
    printed w = imap (λ i d, Received (Z.of_nat i + 1) (data d) (src_ip d) (src_port d))
      (arrived sample_scope (λ _, false) sample_acts (World n1 ∅ fd 0 [] false)).
Proof.
  destruct (multicast_receives sample_scope (λ _, false) 1 sample_acts (Net ∅ 3 [] [])) as (n1 & fd & w & H1 & H2 & H3 & _ & H4 & _).
  - split; [discriminate|]. intros fd _. apply lookup_empty.
  - reflexivity.
  - vm_compute. discriminate.
  - reflexivity.
  - by exists n1, fd, w.
Defined.

(** What is printed there. *)
Example sample_printed :
  ('(n1, r) ← receiver_start 1 all_well (Net ∅ 3 [] []);
  match r with
  | inl fd => printed <$> wrun sample_scope (λ _, false) (sample_acts ++ [ARead]) (World n1 ∅ fd 0 [] false)
  | inr _ => Undef
  end) = Ret [Received 1 greeting 2 GROUP_PORT; Received 2 greeting 1 GROUP_PORT].
Proof. vm_compute. reflexivity. Qed.

(** ** io/msghdr-client.c, io/msghdr-server.c *)
Definition MAXSIZE : nat := 100.
Definition SERVER_PORT : Z := 5000.

(** "Hello,there!" with its terminator: what the client sends. *)
Definition client_data : list Z := [72; 101; 108; 108; 111; 44; 116; 104; 101; 114; 101; 33; 0].

(** The server after its [bind]: [buf] as it was, and what [recvmsg] gives; the
    address, the port as a [short] and the text. *)
Definition msghdr_server (buf : list Z) (r : option dgram) : outcome (Z * Z * list Z) :=
  let '(len, buf) :=
    match r with
    | Some d => let bs := take MAXSIZE (data d) in (zlen bs, bs ++ drop (length bs) buf)
    | None => (-1, buf)
    end in
  let from := match r with Some d => (src_ip d, src_port d) | None => (0, 0) end in
  buf ← store buf len 0;
  t ← c_string buf;
  Ret (from.1, s16 from.2, t).

(** A text of whatever length is printed, up to 100 characters of it. *)
Lemma msghdr_prints buf d :
  length buf = S MAXSIZE → Forall is_char (data d) →
  msghdr_server buf (Some d) = Ret (src_ip d, s16 (src_port d), take MAXSIZE (data d)).
Proof.
  intros Hb Hd. unfold msghdr_server. set (bs := take MAXSIZE (data d)).
  assert (length bs ≤ MAXSIZE)%nat as Hl by (unfold bs; rewrite length_take; lia).
  destruct (drop (length bs) buf) as [|x r] eqn:E; [apply (f_equal length) in E; rewrite length_drop in E; change (length (@nil Z)) with 0%nat in E; lia|].
  rewrite store_0 by done. unfold store. rewrite decide_True by (cbn [length]; lia). cbind. change (<[Z.to_nat 0 := 0]> (x :: r)) with (0 :: r).
  rewrite string_prefix; [done|]. by apply Forall_take.
Qed.

(** The client's text. *)
Lemma msghdr_greets buf addr p : length buf = S MAXSIZE →
  msghdr_server buf (Some (Dgram client_data addr p)) = Ret (addr, s16 p, removelast client_data).
Proof.
  intros Hb. do 101 (destruct buf as [|? buf]; [done|]). destruct buf; [|done]. reflexivity.
Qed.

(** A [recvmsg] that fails makes the terminator go before the buffer. *)
Lemma msghdr_failure_undefined buf : msghdr_server buf None = Undef.
Proof. unfold msghdr_server, store. by rewrite decide_False by lia. Qed.

(** A port from 32768 on is printed as a negative number. *)
Lemma msghdr_port_negative p : 32768 ≤ p < 65536 → s16 p = p - 65536.
Proof. intros Hp. unfold s16, swrap. change (2 ^ (16 - 1)) with 32768. change (2 ^ 16) with 65536. mlia. Qed.
