(* ===== verification/Database.v ===== *)
(** * db/: the database connector, and what the collector does with it

    The MySQL client is not part of the repository: it is the interface
    [Driver], with what its documentation says of it in [DriverLaws].  A call of
    it may throw.  The connector and its user, socket/collector.h and
    collector.cpp, are proved against the interface; an instance that keeps its
    table in memory shows that the laws can hold. *)
From Stdlib Require Import ZArith Lia String.
From stdpp Require Import base tactics numbers list gmap strings.
From S2P Require Import Prelude.

Open Scope Z_scope.

(** ** The interface *)
Inductive res (A : Type) := Val (a : A) | Throws (what : string).
Arguments Val {A} a.
Arguments Throws {A} what.

Class Driver (W conn stmt : Type) := {
  connect : string → string → string → W → res conn * W;
  setSchema : conn → string → W → res unit * W;
  prepareStatement : conn → string → W → res stmt * W;
  setString : stmt → nat → string → W → res unit * W;
  executeUpdate : stmt → W → res unit * W;
  delete_conn : conn → W → W;
  delete_stmt : stmt → W → W;
}.

(** db/connector.h *)
Definition MYSQL_URI : string := "tcp://127.0.0.1:3306".
Definition MYSQL_USER : string := "test".
Definition MYSQL_PWD : string := "1234567890".
Definition DB_NAME : string := "datacenter".
Definition SQL_STATEMENT : string := "INSERT INTO record(ip, data) VALUES (?,?)".

(** The table, the text of a statement and the parameters it has; only an update
    that does not throw changes the table, by the row of its parameters. *)
Class DriverLaws {W conn stmt : Type} (D : Driver W conn stmt) := {
  rows : W → list (string * string);
  sql : W → stmt → option string;
  param : W → stmt → nat → option string;
  connect_rows u n p w : rows (connect u n p w).2 = rows w;
  schema_rows c d w : rows (setSchema c d w).2 = rows w;
  prepare_rows c t w : rows (prepareStatement c t w).2 = rows w;
  prepare_sql c t w s w' : prepareStatement c t w = (Val s, w') → sql w' s = Some t;
  string_rows s i v w : rows (setString s i v w).2 = rows w;
  string_sql s i v w : sql (setString s i v w).2 s = sql w s;
  string_param s i v w w' : setString s i v w = (Val (), w') → param w' s i = Some v;
  string_others s i j v w w' : setString s i v w = (Val (), w') → i ≠ j → param w' s j = param w s j;
  update_sql s w : sql (executeUpdate s w).2 s = sql w s;
  update_inserts s w w' a b : executeUpdate s w = (Val (), w') → sql w s = Some SQL_STATEMENT →
    param w s 1 = Some a → param w s 2 = Some b → rows w' = rows w ++ [(a, b)];
  update_fails s w w' e : executeUpdate s w = (Throws e, w') → rows w' = rows w;
}.

Section connector.
Context {W conn stmt : Type} {D : Driver W conn stmt}.

(** Calls that may throw, or be undefined. *)
Definition call (A : Type) : Type := W → outcome (res A * W).

Definition ret {A} (a : A) : call A := λ w, Ret (Val a, w).
Definition bind {A B} (m : call A) (k : A → call B) : call B := λ w,
  '(r, w) ← m w; match r with Val a => k a w | Throws e => Ret (Throws e, w) end.
Definition drives {A} (f : W → res A * W) : call A := λ w, Ret (f w).

(** ** db/connector-base.h, mysql-connector.h *)
Inductive State := UNINITIALIZED | READY | PREPARING | EXECUTED.
#[export] Instance State_eq_dec : EqDecision State.
Proof. solve_decision. Defined.

Record Option_ := MkOption { uri : string; user : string; password : string }.

Record MysqlConnector := MkConnector { option_ : Option_; con_ : option conn; pstmt_ : option stmt; state_ : State }.

(** ** db/mysql-connector.cpp *)

(** [Connect]: an exception is caught. *)
Definition Connect (o : Option_) (m : MysqlConnector) : call (bool * MysqlConnector) := λ w,
  match connect (uri o) (user o) (password o) w with
  | (Val c, w) => Ret (Val (true, MkConnector (option_ m) (Some c) (pstmt_ m) READY), w)
  | (Throws _, w) => Ret (Val (false, m), w)
  end.

Definition MysqlConnector_new (u n p : string) : call MysqlConnector :=
  bind (Connect (MkOption u n p) (MkConnector (MkOption u n p) None None UNINITIALIZED)) (λ x, ret x.2).

Definition MysqlConnector_destroy (m : MysqlConnector) : call unit := λ w,
  let w := match con_ m with Some c => delete_conn c w | None => w end in
  let w := match pstmt_ m with Some s => delete_stmt s w | None => w end in
  Ret (Val (), w).

Definition use (db : string) (m : MysqlConnector) : call MysqlConnector :=
  match con_ m with
  | Some c => bind (drives (setSchema c db)) (λ _, ret m)
  | None => λ _, Undef
  end.

Definition registerStatement (t : string) (m : MysqlConnector) : call MysqlConnector :=
  match con_ m with
  | Some c => bind (drives (prepareStatement c t)) (λ s, ret (MkConnector (option_ m) (con_ m) (Some s) (state_ m)))
  | None => λ _, Undef
  end.

(** [execute]: an exception is caught. *)
Definition execute (m : MysqlConnector) : call bool :=
  match pstmt_ m with
  | Some s => λ w, match executeUpdate s w with (Val _, w) => Ret (Val true, w) | (Throws _, w) => Ret (Val false, w) end
  | None => λ _, Undef
  end.

Definition ready (m : MysqlConnector) : bool := bool_decide (state_ m ≠ UNINITIALIZED).

Definition set (i : nat) (v : string) (m : MysqlConnector) : call MysqlConnector :=
  match pstmt_ m with
  | Some s => bind (drives (setString s i v)) (λ _, ret m)
  | None => λ _, Undef
  end.

(** ** db/connector.h *)
Definition MYSQL : Z := 0.

Definition create (type : Z) : call (option MysqlConnector) :=
  if decide (type = MYSQL) then bind (MysqlConnector_new MYSQL_URI MYSQL_USER MYSQL_PWD) (λ m, ret (Some m)) else ret None.

(** ** socket/collector.h, collector.cpp *)

(** The constructor's part: [database_] afterwards. *)
Definition open_database (enable : bool) : call (option MysqlConnector) :=
  bind (if enable then create MYSQL else ret None) (λ d,
  match d with
  | Some m =>
      if ready m then bind (use DB_NAME m) (λ m, bind (registerStatement SQL_STATEMENT m) (λ m, ret (Some m)))
      else bind (MysqlConnector_destroy m) (λ _, ret None)
  | None => ret None
  end).

(** The end of [HandleGroupMsg]; the result is that of [execute], which the code
    ignores, [None] without a database. *)
Definition save (d : option MysqlConnector) (ip buf : string) : call (option bool) :=
  match d with
  | Some m => bind (set 1 ip m) (λ m, bind (set 2 buf m) (λ m, bind (execute m) (λ r, ret (Some r))))
  | None => ret None
  end.

(** Messages in turn. *)
Fixpoint save_all (d : option MysqlConnector) (l : list (string * string)) : call (list (option bool)) :=
  match l with
  | [] => ret []
  | (ip, buf) :: l => bind (save d ip buf) (λ r, bind (save_all d l) (λ rs, ret (r :: rs)))
  end.

(** The rows of the messages that were saved. *)
Fixpoint saved (l : list (string * string)) (rs : list (option bool)) : list (string * string) :=
  match l, rs with
  | x :: l, r :: rs => (if decide (r = Some true) then [x] else []) ++ saved l rs
  | _, _ => []
  end.

(** ** Lemmas *)
Context {L : DriverLaws D}.

(** A database that was opened has its statement. *)
Definition opened (d : option MysqlConnector) (w : W) : Prop :=
  match d with Some m => ∃ s, pstmt_ m = Some s ∧ sql w s = Some SQL_STATEMENT | None => True end.

Lemma open_database_safe enable w :
  ∃ r w', open_database enable w = Ret (r, w') ∧
    match r with Val d => opened d w' ∧ (rows w' = rows w ∨ d = None) ∧ (enable = false → d = None) | Throws _ => enable = true end.
Proof.
  unfold open_database, bind, ret. destruct enable; [|by eexists _, _; split; [reflexivity|]; split_and!; auto].
  unfold create. rewrite decide_True by done. unfold MysqlConnector_new, Connect, bind, ret. cbn [uri user password].
  pose proof (connect_rows MYSQL_URI MYSQL_USER MYSQL_PWD w) as Hr. destruct (connect MYSQL_URI MYSQL_USER MYSQL_PWD w) as [[c|e] w1].
  2: { eexists _, _. split; [reflexivity|]. cbn. split_and!; auto. }
  cbn [mbind outcome_bind snd]. change (ready (MkConnector _ _ _ READY)) with true. cbv iota.
  unfold use, drives, bind, ret. cbn [con_ mbind outcome_bind]. pose proof (schema_rows c DB_NAME w1) as Hs.
  destruct (setSchema c DB_NAME w1) as [[[]|e] w2]; [|by eexists _, _]. cbn [mbind outcome_bind].
  unfold registerStatement, drives, bind, ret. cbn [con_ mbind outcome_bind]. pose proof (prepare_rows c SQL_STATEMENT w2) as Hp.
  destruct (prepareStatement c SQL_STATEMENT w2) as [[s|e] w3] eqn:Ep; [|by eexists _, _]. cbn [mbind outcome_bind].
  eexists _, _. split; [reflexivity|]. cbn in *. split_and!; [|left; congruence|done]. exists s. split; [done|]. by eapply prepare_sql.
Qed.

Lemma save_spec d ip buf w :
  opened d w →
  ∃ r w', save d ip buf w = Ret (r, w') ∧
    match r with Val x => opened d w' ∧ rows w' = rows w ++ saved [(ip, buf)] [x] | Throws _ => rows w' = rows w end.
Proof.
  destruct d as [m|]; cbn [opened save].
  2: { intros _. eexists _, _. split; [reflexivity|]. cbn. by rewrite app_nil_r. }
  intros (s & Es & Hq). unfold bind, set, drives, ret, bind. rewrite !Es.
  pose proof (string_rows s 1 ip w) as R1. pose proof (string_sql s 1 ip w) as Q1.
  destruct (setString s 1 ip w) as [[[]|e] w1] eqn:E1; cbn in R1, Q1; [|by eexists _, _]. cbn [mbind outcome_bind]. rewrite Es.
  pose proof (string_rows s 2 buf w1) as R2. pose proof (string_sql s 2 buf w1) as Q2.
  destruct (setString s 2 buf w1) as [[[]|e] w2] eqn:E2; cbn in R2, Q2; [|by eexists _, _; split; [reflexivity|]; congruence]. cbn [mbind outcome_bind].
  unfold execute. rewrite Es. pose proof (update_sql s w2) as Q3.
  destruct (executeUpdate s w2) as [[[]|e] w3] eqn:E3; cbn in Q3; cbn [mbind outcome_bind];
    (eexists _, _; split; [reflexivity|]; split; [exists s; split; [done|congruence]|]).
  - rewrite <- R1, <- R2. eapply update_inserts; [done|congruence| |by eapply string_param].
    rewrite (string_others _ _ _ _ _ _ E2) by done. by eapply string_param.
  - cbn. rewrite app_nil_r, (update_fails _ _ _ _ E3). congruence.
Qed.

Lemma save_all_spec d l w :
  opened d w →
  ∃ r w', save_all d l w = Ret (r, w') ∧
    match r with
    | Val rs => length rs = length l ∧ rows w' = rows w ++ saved l rs
    | Throws _ => ∃ rs, (length rs < length l)%nat ∧ rows w' = rows w ++ saved l rs
    end.
Proof.
  revert w. induction l as [|[ip buf] l IH]; intros w Ho; cbn [save_all]; [eexists _, _; split; [reflexivity|]; cbn; by rewrite app_nil_r|].
  unfold bind at 1. destruct (save_spec d ip buf w Ho) as (r & w1 & -> & H). cbn [mbind outcome_bind]. destruct r as [x|e].
  2: { eexists _, _. split; [reflexivity|]. exists []. split; [cbn; lia|]. by rewrite app_nil_r. }
  destruct H as [Ho1 Hr]. unfold bind. destruct (IH w1 Ho1) as (r & w2 & -> & H2). cbn [mbind outcome_bind].
  assert (∀ rs, saved ((ip, buf) :: l) (x :: rs) = saved [(ip, buf)] [x] ++ saved l rs) as Hc by (intros rs; cbn; by rewrite app_nil_r).
  destruct r as [rs|e].
  - destruct H2 as [Hl H2]. eexists _, _. split; [reflexivity|]. split; [cbn; lia|]. by rewrite Hc, H2, Hr, <- app_assoc.
  - destruct H2 as (rs & Hl & H2). eexists _, _. split; [reflexivity|]. exists (x :: rs). split; [cbn; lia|]. by rewrite Hc, H2, Hr, <- app_assoc.
Qed.

(** ** Properties *)

(** Whatever the database answers, the collector never follows a null pointer of
    the connector; when it was opened, every message whose [execute] succeeded
    is a row of the table, in the order of the messages, and nothing else is
    added, also when a call throws in between. *)
Theorem collector_saves enable l w :
  ∃ r w1, open_database enable w = Ret (r, w1) ∧
    ∀ d, r = Val d →
      ∃ r' w2, save_all d l w1 = Ret (r', w2) ∧
        ∃ rs, rows w2 = rows w1 ++ saved l rs ∧
          match r' with Val rs' => rs = rs' ∧ length rs = length l | Throws _ => (length rs < length l)%nat end.
Proof.
  destruct (open_database_safe enable w) as (r & w1 & E & H). exists r, w1. split; [done|]. intros d ->. destruct H as (Ho & _ & _).
  destruct (save_all_spec d l w1 Ho) as (r' & w2 & E2 & H2). exists r', w2. split; [done|]. destruct r' as [rs|e].
  - destruct H2 as [Hl H2]. by exists rs.
  - destruct H2 as (rs & Hl & H2). by exists rs.
Qed.

(** A schema that cannot be set, as an unknown database: the exception leaves the
    constructor of the collector, which does not catch it. *)
Lemma unknown_database_throws c w w1 w2 e :
  connect MYSQL_URI MYSQL_USER MYSQL_PWD w = (Val c, w1) → setSchema c DB_NAME w1 = (Throws e, w2) →
  open_database true w = Ret (Throws e, w2).
Proof.
  intros E1 E2. unfold open_database, create, MysqlConnector_new, Connect, bind, ret. rewrite decide_True by done.
  cbn [uri user password]. rewrite E1. cbn [mbind outcome_bind snd]. change (ready (MkConnector _ _ _ READY)) with true. cbv iota.
  unfold use, drives, bind, ret. cbn [con_ mbind outcome_bind]. by rewrite E2.
Qed.

(** A connector that is not ready must not be used: [ready] is what protects the
    collector. *)
Lemma unready_use_undefined m db w : con_ m = None → use db m w = Undef.
Proof. intros E. unfold use. by rewrite E. Qed.
End connector.

(** ** A driver in memory *)
Module Memory.

(** The rows, and the parameters of the one statement; rows with an empty field
    are refused. *)
Record world := MkWorld { table : list (string * string); text : option string; args : nat → option string }.

#[export] Instance memory : Driver world unit unit := {
  connect _ _ _ w := (Val (), w);
  setSchema _ d w := (if decide (d = DB_NAME) then Val () else Throws "unknown database", w);
  prepareStatement _ t w := (Val (), MkWorld (table w) (Some t) (λ _, None));
  setString _ i v w := (Val (), MkWorld (table w) (text w) (λ j, if decide (i = j) then Some v else args w j));
  executeUpdate _ w :=
    match args w 1, args w 2 with
    | Some a, Some b => if decide (b = ""%string) then (Throws "refused", w) else (Val (), MkWorld (table w ++ [(a, b)]) (text w) (args w))
    | _, _ => (Throws "no parameter", w)
    end;
  delete_conn _ w := w;
  delete_stmt _ w := w;
}.

#[export] Instance memory_laws : DriverLaws memory.
Proof.
  apply (Build_DriverLaws _ _ _ memory table (λ w _, text w) (λ w _, args w)); try done.
  - by intros [] t w [] w' [= <-].
  - intros [] i v w w' [= <-]. cbn. by rewrite decide_True.
  - intros [] i j v w w' [= <-] Hij. cbn. by rewrite decide_False.
  - intros [] w. cbn. destruct (args w 1), (args w 2); try done. by case_decide.
  - intros [] w w' a b H _ Ha Hb. cbn in H. rewrite Ha, Hb in H. case_decide; [done|]. by injection H as <-.
  - intros [] w w' e H. cbn in H. destruct (args w 1), (args w 2); try (by injection H as _ <-). case_decide; by simplify_eq.
Defined.

(** Of three messages the second is refused. *)
Example memory_saves :
  ∃ w, (bind (open_database true) (λ d, save_all d [("a", "1"); ("b", ""); ("c", "3")]%string)) (MkWorld [] None (λ _, None)) =
      Ret (Val [Some true; Some false; Some true], w) ∧ table w = [("a", "1"); ("c", "3")]%string.
Proof. eexists. split; [vm_compute; reflexivity|reflexivity]. Qed.

Lemma collector_saves_witness :
  let l := [("a", "1"); ("b", ""); ("c", "3")]%string in
  ∃ r w1, open_database true (MkWorld [] None (λ _, None)) = Ret (r, w1) ∧
    ∀ d, r = Val d →
      ∃ r' w2, save_all d l w1 = Ret (r', w2) ∧
        ∃ rs, table w2 = table w1 ++ saved l rs ∧
          match r' with Val rs' => rs = rs' ∧ length rs = length l | Throws _ => (length rs < length l)%nat end.
Proof. apply (collector_saves (L := memory_laws) true [("a", "1"); ("b", ""); ("c", "3")]%string (MkWorld [] None (λ _, None))). Defined.
End Memory.
