(* ===== verification/RelaySystem.v ===== *)
(** * io/notifier.cpp: the relay's thread and the notifier's thread together

    [Relay] models the loop that reads the sensors, [WsNotifier] the thread that
    publishes.  Here they run as one system: the loop handles the events of a
    batch one by one, asking the notifier's table whether a topic has a
    subscriber; the notifier takes records out of the pipe, decodes and publishes
    them; registrations come at any time.  The pipe joins the two.

    The relay asks without the lock, and its question changes the table.  It has
    a beginning and an end, and whatever touches the table, or the filter, in
    between is a data race, that is undefined.  Proofs are against the invariant
    of [Relay] and the steps of [WsNotifier]. *)
From Stdlib Require Import ZArith Lia.
From stdpp Require Import base tactics numbers list gmap sets.
From S2P Require Import Prelude.
From S2P Require Import WeightCodec.
From S2P Require Import Secure.
From S2P Require Import WsNotifier.
From S2P Require Import Connection.
From S2P Require Import Relay.

Open Scope Z_scope.

(** An event of [epoll_wait], with what its callback will find. *)
Record sevent := SEv { s_fd : Z; s_rdhup : bool; s_in : bool; s_accept : option Z; s_bytes : list Z }.

(** [todo]: the rest of the batch.  [filtered]: [registerFilter] was called.
    [looking]: the relay reads the filter and the table for the first event of
    [todo].  [decoded]: what the notifier has read and not yet published.
    [relayed], [taken] and [acts] are history: the records that were put into the
    pipe and taken out of it, and the steps of the notifier. *)
Record system := Sys {
  relay : Relay;
  todo : list sevent;
  filtered : bool;
  looking : bool;
  notifier : Notifier;
  decoded : option Output;
  relayed : list Data;
  taken : list Data;
  acts : list naction;
}.

(** [if(filter_&&!filter_(topic))] *)
Definition filter_ (s : system) (topic : list Z) : bool := if filtered s then has_subscriber (notifier s) topic else true.

Definition at_event (s : system) (e : sevent) : revent := MkEvent (s_fd e) (s_rdhup e) (s_in e) (s_accept e) (s_bytes e) (filter_ s).

(** The topic an event makes the relay ask for: that of a record that can be
    decrypted. *)
Definition asks (s : system) (e : sevent) : option (list Z) :=
  match handlers (relay s) !! s_fd e with
  | None => None
  | Some c =>
      match (eventTrigger (s_rdhup e) (s_in e) c (net (relay s))).1 with
      | Some (Receive HandleMessage) =>
          match Decrypt (recv_into (s_bytes e) (buffer_ c)) kDataSize with
          | Ret (Some bs, _) => Some (RetrieveTopic (b_ (data_of bs)))
          | _ => None
          end
      | _ => None
      end
  end.

(** Steps: [epoll_wait] of the loop, the beginning of a question, the next event
    with the end of its question, [registerFilter] of the notifier's constructor,
    [Register], and the steps of [Notifier::Run]: a record is read and decoded,
    its subscribers are taken out under the lock, called, and put back under the
    lock.  The buffers of [Decode] hold whatever they hold. *)
Inductive saction :=
| SWait (es : list sevent)
| SLook
| SEvent
| SFilter
| SRegister (key : Z) (topics : list (list Z))
| SRead (buf ibuf : list Z)
| STake
| SCall (calls : nat → bool)
| SPutBack.

Definition with_pipe (p : list Data) (r : Relay) : Relay := MkRelay (net r) (handlers r) (state_ r) p.

(** A step of the notifier; [None]: its thread is somewhere else. *)
Definition notifies (a : naction) (s : system) : option system :=
  n ← nstep a (notifier s);
  Some (Sys (relay s) (todo s) (filtered s) (looking s) n (decoded s) (relayed s) (taken s) (acts s ++ [a])).

(** The steps that touch the table or the filter: a key that is there stops
    [Register] before. *)
Definition touches (a : saction) (s : system) : bool :=
  match a with
  | SFilter => true
  | SRegister key topics => match subscriber (notifier s) !! key, topics with None, _ :: _ => true | _, _ => false end
  | STake => match thread (notifier s), decoded s with Polling, Some _ => true | _, _ => false end
  | SPutBack => match thread (notifier s) with PuttingBack _ _ => true | _ => false end
  | _ => false
  end.

(** [None]: the step cannot be taken now. *)
Definition sstep (a : saction) (s : system) : outcome (option system) :=
  let '(Sys r td f lk n dc rl tk ac) := s in
  if lk && touches a s then Undef
  else
  match a with
  | SWait es =>
      match td with
      | [] => Ret (if decide (state_ r = QUIT) then None else Some (Sys r es f lk n dc rl tk ac))
      | _ => Ret None
      end
  | SLook =>
      match td with
      | e :: _ => Ret (match asks s e with Some _ => if lk then None else Some (Sys r td f true n dc rl tk ac) | None => None end)
      | [] => Ret None
      end
  | SEvent =>
      match td with
      | [] => Ret None
      | e :: es =>
          if bool_decide (is_Some (asks s e)) && negb lk then Ret None
          else
            r' ← on_event (at_event s e) r;
            let n := match asks s e with Some t => if f then (ask t n).2 else n | None => n end in
            Ret (Some (Sys r' es f false n dc (rl ++ drop (length (pipe r)) (pipe r')) tk ac))
      end
  | SFilter => Ret (Some (Sys r td true lk n dc rl tk ac))
  | SRegister key topics => Ret (notifies (ARegister key topics) s)
  | SRead buf ibuf =>
      match thread n, dc, pipe r with
      | Polling, None, x :: p => o ← Decode buf ibuf x; Ret (Some (Sys (with_pipe p r) td f lk n (Some o) rl (tk ++ [x]) ac))
      | _, _, _ => Ret None
      end
  | STake => match dc with Some o => Ret (notifies (AMessage o) (Sys r td f lk n None rl tk ac)) | None => Ret None end
  | SCall calls => Ret (notifies (ACall calls) s)
  | SPutBack => Ret (notifies APutBack s)
  end.

Fixpoint srun (l : list saction) (s : system) : outcome (option system) :=
  match l with
  | [] => Ret (Some s)
  | a :: l => o ← sstep a s; match o with Some s => srun l s | None => Ret None end
  end.

Definition start (listen term : Z) (base : gset Z) : system :=
  Sys (run_start listen term (MkNet ∅ base 0)) [] false false Notifier_new None [] [] [].

(** The outputs among the notifier's steps. *)
Fixpoint messages (l : list naction) : list Output :=
  match l with
  | [] => []
  | AMessage o :: l => o :: messages l
  | _ :: l => messages l
  end.

(** ** What the environment gives

    Events as in [Relay]; buffers of the size they have; sensors whose readings
    fit the buffer of [Decode]; and no race: nothing touches the table while the
    relay looks at it. *)
Definition fits (x : Data) : Prop := ∃ i, x = Encode i ∧ input_ok i ∧ zlen (shown i) ≤ 63.

Definition saction_ok (listen : Z) (a : saction) (s : system) : Prop :=
  (looking s && touches a s = false) ∧
  match a with
  | SWait es => NoDup (s_fd <$> es) ∧ Forall (λ e, s_fd e ∈ epoll (net (relay s))) es
  | SEvent => match todo s with e :: _ => event_ok listen (at_event s e) (relay s) | [] => True end
  | SRead buf ibuf => length buf = 64%nat ∧ length ibuf = 16%nat ∧ match pipe (relay s) with x :: _ => fits x | [] => True end
  | _ => True
  end.

Fixpoint srun_ok (listen : Z) (l : list saction) (s : system) : Prop :=
  match l with
  | [] => True
  | a :: l => saction_ok listen a s ∧ match sstep a s with Ret (Some s') => srun_ok listen l s' | _ => True end
  end.

Lemma srun_ok_cons listen a l s s' :
  saction_ok listen a s → sstep a s = Ret (Some s') → srun_ok listen l s' → srun_ok listen (a :: l) s.
Proof. intros Ha E H. cbn [srun_ok]. split; [done|]. by rewrite E. Qed.

(** ** Lemmas *)

(** Events only add to the pipe. *)
Lemma handle_message_appends f buf p v p' : handle_message f buf p = Ret (v, p') → ∃ l, p' = p ++ l.
Proof.
  unfold handle_message. destruct (Decrypt buf kDataSize) as [[[bs|] ?]| |]; cbn [mbind outcome_bind]; try done.
  - destruct (f _); [|intros [= _ <-]; exists []; by rewrite app_nil_r].
    case_decide; intros [= _ <-]; [by eexists|exists []; by rewrite app_nil_r].
  - intros [= _ <-]. exists []. by rewrite app_nil_r.
Qed.

Lemma erase_pipe fd r : pipe (erase fd r) = pipe r.
Proof. unfold erase. by destruct (handlers r !! fd). Qed.

Lemma on_event_appends e r r' : on_event e r = Ret r' → ∃ l, pipe r' = pipe r ++ l.
Proof.
  unfold on_event. destruct (handlers r !! e_fd e) as [c|]; [|done]. destruct (eventTrigger _ _ _ _) as [f n].
  assert (∀ r0, pipe r0 = pipe r → ∃ l, pipe r0 = pipe r ++ l) as Hsame by (intros r0 E; exists []; by rewrite app_nil_r).
  destruct f as [[[]|k]|]; try (intros [= <-]; apply Hsame; by rewrite ?erase_pipe).
  - intros [= <-]. apply Hsame. unfold handle_connection. destruct (e_accept e) as [sock|]; [|done]. cbn [net handlers state_ pipe].
    destruct (epollRegister _ _) as [rc n']. case_decide; [|done]. by destruct (handlers r !! sock).
  - unfold on_message. cbn [pipe net handlers state_]. destruct (handle_message _ _ _) as [[v p]| |] eqn:E; cbn [mbind outcome_bind]; try done.
    apply handle_message_appends in E as [l ->]. destruct (Decrypt _ _) as [[o b]| |]; cbn [mbind outcome_bind]; try done.
    destruct v; intros [= <-]; rewrite ?erase_pipe; eauto.
Qed.

Section system.
Context (listen term : Z) (base : gset Z) (Hl : listen ∈ base) (Ht : term ∈ base) (Hlt : listen ≠ term).

(** What a record became. *)
Definition decodes (x : Data) (o : Output) : Prop := ∃ i, x = Encode i ∧ o = MkOutput (shown i) (fmt_u (ip i)).

Record sys_inv (s : system) : Prop := {
  si_relay : relay_inv listen term base (relay s);
  si_nodup : NoDup (s_fd <$> todo s);
  si_todo : Forall (λ e, s_fd e ∈ epoll (net (relay s))) (todo s);
  si_sim : nsim (notifier s) (foldl (λ a act, spec_nstep act a) nspec_new (acts s));
  si_pipe : relayed s = taken s ++ pipe (relay s);
  si_decoded : Forall2 decodes (taken s) (messages (acts s) ++ option_list (decoded s));
}.

Lemma messages_app l m : messages (l ++ m) = messages l ++ messages m.
Proof. induction l as [|[] l IH]; cbn; by rewrite ?IH. Qed.

Lemma notifies_inv a s s' :
  sys_inv s → notifies a s = Some s' → messages [a] = [] → sys_inv s'.
Proof.
  intros [H1 H2 H3 H4 H5 H6] E Hm. unfold notifies in E. destruct (nstep a (notifier s)) as [n|] eqn:En; [|done]. injection E as <-.
  constructor; cbn; try done.
  - rewrite foldl_snoc. by eapply nstep_sim.
  - by rewrite messages_app, Hm, app_nil_r.
Qed.

(** What keeps the invariant, whatever the step gives. *)
Definition keeps (a : saction) (s : system) : Prop := ∃ o, sstep a s = Ret o ∧ ∀ s', o = Some s' → sys_inv s'.

Lemma buffer_inv buf ibuf s : sys_inv s → saction_ok listen (SRead buf ibuf) s → keeps (SRead buf ibuf) s.
Proof.
  intros Hs (Hr & Hb & Hib & Hx). destruct s as [r td f lk n dc rl tk ac]. pose proof Hs as [H1 H2 H3 H4 H5 H6]. unfold keeps. cbn [sstep looking] in *.
  rewrite Hr. cbn [relay] in *. destruct (thread n) eqn:Eth; [|by eexists..]. destruct dc; [by eexists|].
  destruct (pipe r) as [|x p] eqn:Ep; [by eexists|]. destruct Hx as (i & -> & Hi & Hsh).
  rewrite Decode_shown, decide_True by done. cbn [mbind outcome_bind]. eexists. split; [reflexivity|]. intros s' [= <-].
  constructor; cbn in *; try done.
  - destruct H1. constructor; try done. cbn [pipe with_pipe]. rewrite Ep in inv_pipe. cbn [length] in inv_pipe. lia.
  - rewrite H5, <- app_assoc. done.
  - rewrite app_nil_r in H6. apply Forall2_app; [done|]. repeat constructor. exists i. done.
Qed.

Lemma take_inv s : sys_inv s → saction_ok listen STake s → keeps STake s.
Proof.
  intros Hs (Hr & _). destruct s as [r td f lk n dc rl tk ac]. pose proof Hs as [H1 H2 H3 H4 H5 H6]. unfold keeps. cbn [sstep looking] in *.
  rewrite Hr. destruct dc as [o|]; [|by eexists]. eexists. split; [reflexivity|]. intros s' E. unfold notifies in E. cbn [notifier] in E.
  destruct (nstep (AMessage o) n) as [n'|] eqn:En; [|done]. injection E as <-. constructor; cbn in *; try done.
  - rewrite foldl_snoc. by eapply nstep_sim.
  - rewrite app_nil_r, messages_app. exact H6.
Qed.

Lemma event_inv s : sys_inv s → saction_ok listen SEvent s → keeps SEvent s.
Proof.
  intros Hs (Hr & Hok). destruct s as [r td f lk n dc rl tk ac]. pose proof Hs as [H1 H2 H3 H4 H5 H6]. unfold keeps. cbn [sstep looking todo relay] in *.
  rewrite Hr. set (s := Sys r td f lk n dc rl tk ac) in *. destruct td as [|e es]; [by eexists|].
  apply Forall_cons in H3 as [He Hes]. cbn [fmap list_fmap] in H2. apply NoDup_cons in H2 as [Hni Hnd].
  destruct (bool_decide (is_Some (asks s e)) && negb lk); [by eexists|].
  destruct (on_event_inv listen term base Hl Ht Hlt r (at_event s e) H1 He Hok) as (r' & E & Hr' & Hsub). rewrite E. cbn [mbind outcome_bind].
  eexists. split; [reflexivity|]. intros s' [= <-]. constructor; cbn [relay todo filtered looking notifier decoded relayed taken acts]; try done.
  - eapply Forall_impl; [apply Forall_and; split; [exact Hes|]|].
    + apply Forall_forall. intros e' He'. exact (list_elem_of_fmap_2 s_fd es e' He').
    + intros e' [Hin Hf]. cbn. apply Hsub, elem_of_difference. split; [done|]. intros Heq%elem_of_singleton. cbn in Heq. congruence.
  - destruct (asks s e) as [t|]; [|done]. destruct f; [by apply ask_sim|done].
  - apply on_event_appends in E as [l ->]. cbn in H5. rewrite drop_app_length, H5. by rewrite <- app_assoc.
Qed.

Lemma system_step_inv a s : sys_inv s → saction_ok listen a s → keeps a s.
Proof.
  intros Hs Hok. destruct a; [| |by apply event_inv| | |by apply buffer_inv|by apply take_inv| |];
    destruct s as [r td f lk n dc rl tk ac]; destruct Hok as [Hr Hok]; unfold keeps; cbn [sstep looking] in *; rewrite Hr.
  - pose proof Hs as [H1 H2 H3 H4 H5 H6]. destruct td; [|by eexists]. eexists. split; [reflexivity|].
    intros s'. case_decide; [done|]. intros [= <-]. destruct Hok as [Hn Hf]. by constructor.
  - destruct td as [|e es]; [by eexists|]. eexists. split; [reflexivity|]. intros s'. destruct (asks _ e); [|done]. destruct lk; [done|].
    intros [= <-]. destruct Hs. by constructor.
  - eexists. split; [reflexivity|]. intros s' [= <-]. destruct Hs. by constructor.
  - eexists. split; [reflexivity|]. intros s' E. by eapply notifies_inv.
  - eexists. split; [reflexivity|]. intros s' E. by eapply notifies_inv.
  - eexists. split; [reflexivity|]. intros s' E. by eapply notifies_inv.
Qed.

Lemma system_run_inv l s : sys_inv s → srun_ok listen l s → ∃ o, srun l s = Ret o ∧ ∀ s', o = Some s' → sys_inv s'.
Proof.
  revert s. induction l as [|a l IH]; intros s Hs Hok; cbn [srun]; [eexists; split; [reflexivity|]; by intros s' [= <-]|].
  destruct Hok as [Ha Hok]. destruct (system_step_inv a s Hs Ha) as (o & E & Ho). rewrite E in *. cbn [mbind outcome_bind].
  destruct o as [s1|]; [|by eexists]. by apply IH; [apply Ho|].
Qed.

Lemma start_sys_inv : sys_inv (start listen term base).
Proof. constructor; cbn; [by apply start_relay_inv|constructor|constructor|apply new_sim|done|constructor]. Qed.

(** ** The notifier alone *)
Definition of_notifier (a : saction) : bool := match a with SRead _ _ | STake | SCall _ | SPutBack => true | _ => false end.

Lemma srun_app l l' s s1 : srun l s = Ret (Some s1) → srun (l ++ l') s = srun l' s1.
Proof.
  revert s. induction l as [|a l IH]; intros s; cbn [srun app]; [by intros [= ->]|].
  destruct (sstep a s) as [[s0|]| |]; cbn [mbind outcome_bind]; try done. apply IH.
Qed.

(** What the notifier's steps leave alone but for the pipe. *)
Definition same_relay (s s' : system) : Prop :=
  looking s' = false ∧ pipe (relay s') = pipe (relay s) ∧ taken s' = taken s ∧ relayed s' = relayed s.

(** The thread comes back to its poll with nothing in hand. *)
Definition settled (s : system) : Prop := thread (notifier s) = Polling ∧ decoded s = None.
Definition settles (s : system) : Prop :=
  ∃ l s', srun l s = Ret (Some s') ∧ Forall (λ a, of_notifier a = true) l ∧ settled s' ∧ same_relay s s'.

Lemma settles_step a s s1 : of_notifier a = true → sstep a s = Ret (Some s1) → same_relay s s1 → settles s1 → settles s.
Proof.
  intros Ha E (_ & P2 & P3 & P4) (l & s' & El & Hall & Hs & Q1 & Q2 & Q3 & Q4). exists (a :: l), s'. unfold same_relay.
  split_and!; [cbn [srun]; rewrite E; exact El|by constructor|done|done|congruence..].
Qed.

(** One step of it, when nothing is looked at. *)
Ltac settle a := eapply (settles_step a); [done|cbn; reflexivity|by unfold same_relay|].

Lemma settles_free s : looking s = false → decoded s = None → settles s.
Proof.
  destruct s as [r td f lk [sub m n th pb] dc rl tk ac]. cbn. intros -> ->.
  assert (∀ sub m pb ac, settles (Sys r td f false (MkNotifier sub m n Polling pb) None rl tk ac)) as Hp
    by (intros; eexists [], _; split; [reflexivity|]; unfold same_relay; by repeat split; constructor).
  assert (∀ t v sub m pb ac, settles (Sys r td f false (MkNotifier sub m n (PuttingBack t v) pb) None rl tk ac)) as Hb by (intros; settle SPutBack; apply Hp).
  destruct th as [|t pl tasks|t valid]; [done| |done]. settle (SCall (λ _, true)). case_decide; [done|done].
Qed.

Lemma to_polling s : looking s = false → settles s.
Proof.
  intros Hlk. destruct (decoded s) as [o|] eqn:Ed; [|by apply settles_free].
  assert (∀ s0, looking s0 = false → thread (notifier s0) = Polling → decoded s0 = Some o → settles s0) as Htake.
  { intros [r td f lk [sub m n th pb] dc rl tk ac]. cbn. intros -> -> ->. settle STake. by apply settles_free. }
  assert (∀ s0 t v, looking s0 = false → thread (notifier s0) = PuttingBack t v → decoded s0 = Some o → settles s0) as Hback.
  { intros [r td f lk [sub m n th pb] dc rl tk ac] t v. cbn. intros -> -> ->. settle SPutBack. by apply Htake. }
  destruct s as [r td f lk [sub m n th pb] dc rl tk ac]. cbn in *. subst lk dc. destruct th as [|t pl tasks|t valid]; [by apply Htake| |by eapply Hback].
  settle (SCall (λ _, true)). case_decide; [by apply Htake|by eapply Hback].
Qed.

Lemma read_one s x p :
  settled s → looking s = false → pipe (relay s) = x :: p → fits x →
  ∃ s', sstep (SRead (replicate 64 0) (replicate 16 0)) s = Ret (Some s') ∧
    looking s' = false ∧ pipe (relay s') = p ∧ taken s' = taken s ++ [x] ∧ relayed s' = relayed s.
Proof.
  destruct s as [r td f lk n dc rl tk ac]. cbn. intros [Hth Hd] -> Hp (i & -> & Hi & Hsh). cbn in *. rewrite Hth, Hd, Hp.
  rewrite Decode_shown, decide_True by done. cbn [mbind outcome_bind]. eexists. split; [reflexivity|]. by cbn.
Qed.

Lemma waiting_published p s :
  looking s = false → pipe (relay s) = p → Forall fits p →
  ∃ l s', srun l s = Ret (Some s') ∧ Forall (λ a, of_notifier a = true) l ∧ settled s' ∧ pipe (relay s') = [] ∧ taken s' = taken s ++ p ∧ relayed s' = relayed s.
Proof.
  intros Hlk Hp Hf. revert s Hlk Hp. induction Hf as [|x p Hx Hf IH]; intros s Hlk Hp;
    destruct (to_polling s Hlk) as (l1 & s1 & E1 & Hl1 & Hst & Hlk1 & Hr & Hk & Hd).
  - exists l1, s1. rewrite app_nil_r. split_and!; try done; congruence.
  - destruct (read_one s1 x p Hst Hlk1) as (s2 & E2 & Hlk2 & Hp2 & Hk2 & Hd2); [congruence|done|].
    destruct (IH s2 Hlk2 Hp2) as (l3 & s3 & E3 & Hl3 & Hst3 & Hp3 & Hk3 & Hd3).
    exists (l1 ++ SRead (replicate 64 0) (replicate 16 0) :: l3), s3.
    split_and!; [|apply Forall_app; split; [done|by constructor]|done|done| |congruence].
    + rewrite (srun_app _ _ _ _ E1). cbn [srun]. by rewrite E2.
    + by rewrite Hk3, Hk2, Hk, <- app_assoc.
Qed.
End system.

Lemma race_undefined a s : looking s = true → touches a s = true → sstep a s = Undef.
Proof. destruct s. cbn. intros -> Ht. by rewrite Ht. Qed.

(** ** Properties *)

(** C13: relay and notifier together.  In every interleaving of the sensors'
    events, registrations and the notifier's steps in which nothing touches the
    table of subscribers while the relay, which has no lock, looks at it (a step
    that does is a data race), nothing is undefined, as long as what the sensors
    send fits; the records the relay let pass are those the notifier took, in
    order, and at most eleven that wait in the pipe; each that was taken is
    decoded as its text and published, to exactly the subscriptions its topic has
    in the specification of [WsNotifier]; and those that wait can be published, by
    steps of the notifier alone, whenever the relay is not looking. *)
Theorem relay_publishes listen term base l :
  listen ∈ base → term ∈ base → listen ≠ term → srun_ok listen l (start listen term base) →
  ∃ o, srun l (start listen term base) = Ret o ∧ ∀ s, o = Some s →
    (∀ a, looking s = true → touches a s = true → sstep a s = Undef) ∧
    relayed s = taken s ++ pipe (relay s) ∧ zlen (pipe (relay s)) ≤ 11 ∧
    Forall2 decodes (taken s) (messages (acts s) ++ option_list (decoded s)) ∧
    Forall2 (λ x y, x.1 ≡ₚ y.1 ∧ x.2 = y.2) (published (notifier s))
      (s_log (foldl (λ a act, spec_nstep act a) nspec_new (acts s))) ∧
    (looking s = false → Forall fits (pipe (relay s)) →
      ∃ l' s', srun l' s = Ret (Some s') ∧ Forall (λ a, of_notifier a = true) l' ∧ settled s' ∧ pipe (relay s') = [] ∧ taken s' = relayed s).
Proof.
  intros Hl Ht Hlt Hok. destruct (system_run_inv listen term base Hl Ht Hlt l _ (start_sys_inv listen term base Hl Ht Hlt) Hok) as (o & E & Ho).
  exists o. split; [done|]. intros s Hs. destruct (Ho s Hs) as [H1 _ _ H4 H5 H6]. split_and!; try done.
  - intros a. apply race_undefined.
  - apply H1.
  - apply H4.
  - intros Hlk Hf. destruct (waiting_published (pipe (relay s)) s Hlk eq_refl Hf) as (l' & s' & E' & Hl' & Hst & Hp & Hk & _).
    exists l', s'. split_and!; try done. by rewrite Hk, H5.
Qed.

(** A sensor connects and sends a reading that one subscriber waits for; another
    registers before the relay looks. *)
Definition sample_system : list saction :=
  [SFilter; SRegister 5 [[49; 56; 50]]; SWait [SEv 3 false true (Some 7) []]; SEvent; SWait [SEv 7 false true None sample_record];
   SRegister 6 [[49]]; SLook; SEvent; SRead (replicate 64 0) (replicate 16 0); STake; SCall (λ _, true); SPutBack].

Lemma relay_publishes_witness :
  ∃ s, srun sample_system (start 3 4 {[3; 4]}) = Ret (Some s) ∧ length (taken s) = 1%nat ∧
    relayed s = taken s ++ pipe (relay s) ∧
    Forall2 (λ x y, x.1 ≡ₚ y.1 ∧ x.2 = y.2) (published (notifier s))
      (s_log (foldl (λ a act, spec_nstep act a) nspec_new (acts s))).
Proof.
  destruct (relay_publishes 3 4 {[3; 4]} sample_system) as (o & E & H); [set_solver|set_solver|discriminate| |].
  - unfold sample_system.
    eapply srun_ok_cons; [by split|vm_compute; reflexivity|].
    eapply srun_ok_cons; [by split|vm_compute; reflexivity|].
    eapply srun_ok_cons; [split; [reflexivity|apply (bool_decide_unpack _); vm_compute; exact I]|vm_compute; reflexivity|].
    eapply srun_ok_cons; [split; [reflexivity|apply (bool_decide_unpack _); vm_compute; exact I]|vm_compute; reflexivity|].
    eapply srun_ok_cons; [split; [reflexivity|apply (bool_decide_unpack _); vm_compute; exact I]|vm_compute; reflexivity|].
    eapply srun_ok_cons; [by split|vm_compute; reflexivity|].
    eapply srun_ok_cons; [by split|vm_compute; reflexivity|].
    eapply srun_ok_cons; [split; [reflexivity|apply (bool_decide_unpack _); vm_compute; exact I]|vm_compute; reflexivity|].
    eapply srun_ok_cons; [|vm_compute; reflexivity|].
    { split; [reflexivity|]. split; [reflexivity|]. split; [reflexivity|]. exists (MkInput 0 182 300 0 9). split; [vm_compute; reflexivity|].
      split; [unfold input_ok, is_byte; cbn; lia|by_eval]. }
    eapply srun_ok_cons; [by split|vm_compute; reflexivity|].
    eapply srun_ok_cons; [by split|vm_compute; reflexivity|].
    eapply srun_ok_cons; [by split|vm_compute; reflexivity|exact I].
  - destruct o as [s|]; [|vm_compute in E; discriminate]. exists s. destruct (H s eq_refl) as (_ & H1 & _ & _ & H2 & _).
    split; [exact E|]. split; [vm_compute in E; injection E as <-; reflexivity|]. split; [exact H1|exact H2].
Defined.

(** A registration while the relay looks at the table is a data race. *)
Lemma registration_races :
  srun (take 5 sample_system ++ [SLook; SRegister 6 [[49]]]) (start 3 4 {[3; 4]}) = Undef.
Proof. vm_compute. reflexivity. Qed.
