(* ===== verification/EchoLoop.v ===== *)
(** * socket/monitor/callback.cpp, tests/test_poll.cpp: an echo server on the
    event loop

    The listening socket's entry accepts, and gives every connection an entry
    that echoes.  The loop and the entries are those of [Poll], and the proofs
    are against its ownership lemmas. *)
From Stdlib Require Import ZArith Lia.
From stdpp Require Import base tactics numbers list gmap sets.
From S2P Require Import Prelude.
From S2P Require Import Poll.

Open Scope Z_scope.

(** The two callbacks that are bound. *)
Inductive callback := OnTcpipAccept | Echo.

(** [heard] and [echoed]: what was read and written, with the descriptor. *)
Record server := MkServer { poll : Poll callback; heard : list (Z * list Z); echoed : list (Z * list Z) }.

(** An event with what [accept4], [read] and [write] will give: a new descriptor,
    the bytes read (none for an error), and how many are written. *)
Record event := Ev { fd : Z; rdhup : bool; readable : bool; accepted : option Z; bytes : list Z; written : nat }.

Definition BUFSIZE : nat := 1024.

(** [Echo] with its buffer as it was. *)
Definition echo (e : event) (s : server) : outcome server :=
  let bs := take BUFSIZE (bytes e) in
  if decide (0 < zlen bs) then
    _ ← store (bs ++ replicate (BUFSIZE - length bs) 0) (zlen bs) 0;
    Ret (MkServer (poll s) (heard s ++ [(fd e, bs)]) (echoed s ++ [(fd e, take (written e) bs)]))
  else Ret s.

Definition on_tcpip_accept (e : event) (s : server) : server :=
  match accepted e with
  | None => s
  | Some sock => MkServer (registerEntry sock Echo None (open_fd sock (poll s))) (heard s) (echoed s)
  end.

(** One event of the loop. *)
Definition on_event (e : event) (s : server) : outcome server :=
  match dispatch (fd e) (rdhup e) (readable e) (poll s) with
  | None => Ret s
  | Some (Reading OnTcpipAccept) => Ret (on_tcpip_accept e s)
  | Some (Reading Echo) => echo e s
  | Some (Closing _) => Ret (MkServer (erase_entry (fd e) (poll s)) (heard s) (echoed s))
  end.

Fixpoint run (es : list event) (s : server) : outcome server :=
  match es with
  | [] => Ret s
  | e :: es => s ← on_event e s; run es s
  end.

(** The program: the server's descriptor is registered for reading only. *)
Definition start (listen : Z) (base : gset Z) : server :=
  MkServer (registerEntry listen OnTcpipAccept None (open_fd listen (MkPoll ∅ ∅ base))) [] [].

(** ** The specification: clients, and what they say *)
Record spec := Spec { clients : gset Z; said : list (Z * list Z) }.

Definition spec_step (listen : Z) (e : event) (a : spec) : spec :=
  if decide (fd e = listen) then
    match readable e, accepted e with
    | true, Some sock => Spec ({[sock]} ∪ clients a) (said a)
    | _, _ => a
    end
  else if rdhup e then Spec (clients a ∖ {[fd e]}) (said a)
  else if readable e then (if decide (bytes e = []) then a else Spec (clients a) (said a ++ [(fd e, bytes e)]))
  else a.

(** What the kernel gives: events of descriptors that are watched, new
    descriptors that were not open; and reads that do not fill the buffer, and
    are written whole. *)
Definition event_ok (listen : Z) (e : event) (s : server) : Prop :=
  fd e ∈ epoll (poll s) ∧ (fd e = listen → rdhup e = false) ∧
  match accepted e with Some sock => 0 ≤ sock ∧ sock ∉ opened (poll s) | None => True end ∧
  (length (bytes e) < BUFSIZE)%nat ∧ (length (bytes e) ≤ written e)%nat.

#[export] Instance echo_event_ok_dec listen e s : Decision (event_ok listen e s).
Proof. unfold event_ok. destruct (accepted e); apply _. Defined.

Fixpoint run_ok (listen : Z) (es : list event) (s : server) : Prop :=
  match es with
  | [] => True
  | e :: es => event_ok listen e s ∧ match on_event e s with Ret s' => run_ok listen es s' | _ => True end
  end.

#[export] Instance echo_run_ok_dec listen es s : Decision (run_ok listen es s).
Proof.
  revert s. induction es as [|e es IH]; intros s; cbn [run_ok]; [apply _|]. apply and_dec; [apply _|]. destruct (on_event e s); [apply IH|apply _..].
Defined.

(** ** The simulation *)
Section server.
Context (listen : Z) (base : gset Z) (Hlisten : 0 ≤ listen) (Hbase : listen ∉ base).

Definition entry_of (fd : Z) : Entry callback :=
  MkEntry fd (Some (if decide (fd = listen) then OnTcpipAccept else Echo)) (Some None) (Some fd).

Record sim (s : server) (a : spec) : Prop := {
  sim_owns : owns (poll s);
  sim_entry : ∀ fd e, entry_map (poll s) !! fd = Some e → e = entry_of fd;
  sim_dom : dom (entry_map (poll s)) = {[listen]} ∪ clients a;
  sim_open : opened (poll s) = {[listen]} ∪ clients a ∪ base;
  sim_apart : clients a ## {[listen]} ∪ base;
  sim_heard : heard s = said a;
  sim_echoed : echoed s = said a;
}.

Lemma lookup_watched s a x : sim s a → x ∈ epoll (poll s) → entry_map (poll s) !! x = Some (entry_of x).
Proof.
  intros Hs Hx. destruct (sim_owns s a Hs) as [_ Hd _]. rewrite Hd in Hx. apply elem_of_dom in Hx as [e He]. rewrite He. f_equal. by apply (sim_entry s a Hs).
Qed.

Lemma accept_sim s a sock :
  sim s a → 0 ≤ sock → sock ∉ opened (poll s) →
  sim (MkServer (registerEntry sock Echo None (open_fd sock (poll s))) (heard s) (echoed s)) (Spec ({[sock]} ∪ clients a) (said a)).
Proof.
  intros Hs Hge Hnew. pose proof (sim_open s a Hs) as Ho. pose proof (sim_dom s a Hs) as Hd. rewrite Ho in Hnew.
  assert (sock ≠ listen) as Hne by set_solver.
  assert (entry_map (poll s) !! sock = None) as Hn by (apply not_elem_of_dom; rewrite Hd; set_solver).
  destruct (register_owns sock Echo None (open_fd sock (poll s))) as [E1 E2]; [apply open_owns, Hs|done|cbn; set_solver|done|].
  destruct Hs. constructor; cbn [poll heard echoed clients said]; try done; rewrite ?E1; cbn [entry_map opened open_fd].
  - intros x e. rewrite lookup_insert_Some. intros [[<- <-]|[_ H]]; [|by apply sim_entry0]. unfold entry_of. by rewrite decide_False.
  - rewrite dom_insert_L, sim_dom0. set_solver.
  - rewrite sim_open0. set_solver.
  - set_solver.
Qed.

Lemma leave_sim s a x :
  sim s a → x ∈ epoll (poll s) → x ≠ listen →
  sim (MkServer (erase_entry x (poll s)) (heard s) (echoed s)) (Spec (clients a ∖ {[x]}) (said a)).
Proof.
  intros Hs Hx Hne. pose proof (lookup_watched s a x Hs Hx) as He. destruct (erase_owns (poll s) x _ (sim_owns s a Hs) He) as [E1 E2].
  assert (x ∈ clients a) as Hc by (assert (x ∈ dom (entry_map (poll s))) by (apply elem_of_dom; eauto); rewrite (sim_dom s a Hs) in *; set_solver).
  destruct Hs. constructor; cbn [poll heard echoed clients said]; try done; rewrite ?E1; cbn [entry_map opened].
  - intros y e. rewrite lookup_delete_Some. intros [_ H]. by apply sim_entry0.
  - rewrite dom_delete_L, sim_dom0. set_solver.
  - rewrite sim_open0. set_solver.
  - set_solver.
Qed.

Lemma echo_sim s a e :
  sim s a → (length (bytes e) < BUFSIZE)%nat → (length (bytes e) ≤ written e)%nat →
  ∃ s', echo e s = Ret s' ∧ sim s' (if decide (bytes e = []) then a else Spec (clients a) (said a ++ [(fd e, bytes e)])).
Proof.
  intros Hs Hb Hw. unfold echo. rewrite take_ge by lia. destruct (decide (bytes e = [])) as [E|Hne].
  - rewrite E. cbn. eauto.
  - assert (0 < zlen (bytes e)) by (destruct (bytes e); [done|cbn [length]; lia]). rewrite decide_True by done.
    unfold store. rewrite decide_True by (rewrite length_app, length_replicate; lia). cbn [mbind outcome_bind]. rewrite take_ge by lia.
    eexists. split; [reflexivity|]. destruct Hs. constructor; cbn [poll heard echoed clients said]; try done; congruence.
Qed.

Lemma on_event_sim s a e :
  sim s a → event_ok listen e s → ∃ s', on_event e s = Ret s' ∧ sim s' (spec_step listen e a).
Proof.
  intros Hs (Hx & Hl & Ha & Hb & Hw). unfold on_event, dispatch. rewrite (lookup_watched s a _ Hs Hx). cbn [mbind option_bind].
  unfold trigger, entry_of, spec_step. cbn [on_close on_read]. destruct (decide (fd e = listen)) as [E|Hne].
  - rewrite Hl by done. cbn [fmap option_fmap option_map]. destruct (readable e); [|by eauto]. eexists. split; [reflexivity|].
    unfold on_tcpip_accept. destruct (accepted e) as [sock|]; [|done]. destruct Ha as [Hge Hnew]. by apply accept_sim.
  - destruct (rdhup e).
    + eexists. split; [reflexivity|]. by apply leave_sim.
    + destruct (readable e); [|by eauto]. cbn [fmap option_fmap option_map]. by apply echo_sim.
Qed.

Lemma start_server_sim : sim (start listen base) (Spec ∅ []).
Proof.
  assert (listen ∈ opened (open_fd listen (MkPoll (K := callback) ∅ ∅ base))) as Hin by (cbn [open_fd opened]; set_solver).
  destruct (register_owns listen OnTcpipAccept None (open_fd listen (MkPoll ∅ ∅ base))) as [E1 E2]; [|done..|].
  - apply open_owns. constructor; cbn; [intros ? ?; by rewrite lookup_empty|by rewrite dom_empty_L|set_solver].
  - constructor; cbn [start poll heard echoed clients said]; try done; rewrite ?E1; cbn [entry_map opened open_fd]; [| |set_solver].
    + intros x e. rewrite lookup_insert_Some, lookup_empty. intros [[<- <-]|[_ H]]; [|done]. unfold entry_of. by rewrite decide_True.
    + rewrite dom_insert_L, dom_empty_L. done.
Qed.
End server.

(** ** Properties *)

(** The echo server implements a set of clients and a log of what they say:
    after any events it watches and owns exactly the listening socket and the
    clients that are there, every other descriptor of the program is untouched,
    and everything that was read was written back to the client it came from,
    once and in order. *)
Theorem echo_loop_refines listen base es :
  0 ≤ listen → listen ∉ base → run_ok listen es (start listen base) →
  ∃ s, run es (start listen base) = Ret s ∧
    let a := foldl (λ a e, spec_step listen e a) (Spec ∅ []) es in
    epoll (poll s) = {[listen]} ∪ clients a ∧ opened (poll s) = {[listen]} ∪ clients a ∪ base ∧
    heard s = said a ∧ echoed s = said a.
Proof.
  intros Hl Hb Hok.
  assert (∀ s0 a0, sim listen base s0 a0 → run_ok listen es s0 →
    ∃ s, run es s0 = Ret s ∧ sim listen base s (foldl (λ a e, spec_step listen e a) a0 es)) as H.
  { clear Hok. induction es as [|e es IH]; intros s0 a0 Hs Hok; cbn [run foldl]; [eauto|]. destruct Hok as [He Hok].
    destruct (on_event_sim listen base Hl Hb s0 a0 e Hs He) as (s1 & E & Hs1). rewrite E in *. cbn [mbind outcome_bind]. by apply IH. }
  destruct (H _ _ (start_server_sim listen base Hl Hb) Hok) as (s & E & Hs). exists s. split; [done|].
  destruct Hs as [[_ Ho _] _ Hd Hop _ Hh He]. split_and!; try done. by rewrite Ho, Hd.
Qed.

Definition sample_events : list event :=
  [Ev 3 false true (Some 5) [] 0; Ev 5 false true None [104; 105] 2; Ev 3 false true (Some 6) [] 0; Ev 6 false true None [1] 9; Ev 5 true true None [] 0].

Lemma echo_loop_refines_witness :
  ∃ s, run sample_events (start 3 {[0; 1]}) = Ret s ∧
    let a := foldl (λ a e, spec_step 3 e a) (Spec ∅ []) sample_events in
    epoll (poll s) = {[3]} ∪ clients a ∧ opened (poll s) = {[3]} ∪ clients a ∪ {[0; 1]} ∧
    heard s = said a ∧ echoed s = said a.
Proof.
  apply (echo_loop_refines 3 {[0; 1]} sample_events); [discriminate|set_solver|].
  apply (bool_decide_unpack _). vm_compute. exact I.
Defined.

(** ** What goes wrong *)

(** A read that fills the buffer: the terminator goes behind it. *)
Lemma full_read_undefined e s : (BUFSIZE ≤ length (bytes e))%nat → echo e s = Undef.
Proof.
  intros Hb. unfold echo. assert (length (take BUFSIZE (bytes e)) = BUFSIZE) as Hl by (rewrite length_take; lia). rewrite Hl.
  rewrite decide_True by (unfold BUFSIZE; lia). unfold store. rewrite decide_False; [done|]. rewrite length_app, length_replicate, Hl. lia.
Qed.

(** A client that says something and closes its side at once gets no answer: the
    hang-up is looked at first, and closes the connection. *)
Lemma hasty_client_unanswered e s x :
  entry_map (poll s) !! fd e = Some (MkEntry x (Some Echo) (Some None) (Some x)) → rdhup e = true →
  on_event e s = Ret (MkServer (erase_entry (fd e) (poll s)) (heard s) (echoed s)).
Proof. intros E Hr. unfold on_event, dispatch. rewrite E, Hr. done. Qed.
