(* ===== verification/Programs.v ===== *)
(** * Short programs: trivial/precedence.c, trivial/strtok.c, tty/tcflush.c,
    system/getpwuid_r.c, trivial/kernel-o1-schedule.c, trivial/putenv.cpp,
    process/thread_specific.cpp

    One module each: an array of pointers that loses an element, the tokens of
    [strtok], a program that cleans up on every path, a look-up whose null result
    is overlooked, the lowest set bit, a string in the environment that dies, and
    values of threads with a destructor. *)
From Stdlib Require Import ZArith Lia String.
From stdpp Require Import base tactics numbers list gmap strings relations.
From S2P Require Import Prelude.
From S2P Require Import Bits.

Open Scope Z_scope.

(** ** trivial/precedence.c *)
Module Precedence.

(** [a]: pointers into [data] and a null at the end. *)
Definition pointers (data : list Z) : list (option Z) := map Some (seqZ 0 (zlen data)) ++ [None].

(** [while(a[i]&&*a[i]!=target){++i;}] *)
Definition find_body (data : list Z) (target : Z) (a : list (option Z)) (i : Z) : outcome (Z + Z) :=
  p ← load a i;
  match p with
  | None => Ret (inr i)
  | Some k => v ← load data k; if decide (v = target) then Ret (inr i) else Ret (inl (i + 1))
  end.

(** [for(;a[i];a[i]=a[i+1],++i);] *)
Definition shift_body (x : list (option Z) * Z) : outcome (list (option Z) * Z + list (option Z)) :=
  let '(a, i) := x in
  p ← load a i;
  match p with
  | None => Ret (inr a)
  | Some _ => q ← load a (i + 1); a ← store a i q; Ret (inl (a, i + 1))
  end.

(** [while(a[i]){LOG("%d,%d",i,*a[i]);++i;}] *)
Definition print_body (data : list Z) (a : list (option Z)) (x : Z * list (Z * Z)) : outcome (Z * list (Z * Z) + list (Z * Z)) :=
  let '(i, out) := x in
  p ← load a i;
  match p with
  | None => Ret (inr out)
  | Some k => v ← load data k; Ret (inl (i + 1, out ++ [(i, v)]))
  end.

Definition main (data : list Z) (target : Z) : outcome (list (Z * Z)) :=
  let fuel := S (length data) in
  i ← while_fuel fuel (find_body data target (pointers data)) 0;
  a ← while_fuel fuel shift_body (pointers data, i);
  while_fuel fuel (print_body data a) (0, []).

(** What it should do. *)
Fixpoint remove_first (t : Z) (l : list Z) : list Z :=
  match l with [] => [] | x :: l => if decide (x = t) then l else x :: remove_first t l end.

Lemma load_1 {A} (x y : A) l : load (x :: y :: l) 1 = Ret y.
Proof. by apply (load_app [x]). Qed.

(** An element and the rest, which moves down by one. *)
Lemma shift_loop fuel pre x l r :
  (length l + 2 ≤ fuel)%nat →
  while_fuel fuel shift_body (pre ++ Some x :: map Some l ++ None :: r, zlen pre) = Ret (pre ++ map Some l ++ None :: None :: r).
Proof.
  revert pre x fuel. induction l as [|y l IH]; intros pre x fuel Hf; (destruct fuel as [|fuel]; [lia|]); cbn [length map app] in *.
  all: rewrite while_fuel_S; unfold shift_body at 2; cbv beta iota; rewrite (load_app pre _ _ (zlen pre)) by done; cbind.
  all: rewrite load_at by lia; rewrite load_1; cbind.
  all: rewrite store_0 by done; unfold store; rewrite decide_True by (cbn [length]; lia); cbind.
  - destruct fuel as [|fuel]; [lia|]. rewrite while_fuel_S. unfold shift_body at 2. cbv beta iota.
    change (<[Z.to_nat 0 := None]> (Some x :: None :: r)) with ([None] ++ None :: r). rewrite app_assoc.
    rewrite (load_app (pre ++ [None]) _ _ (zlen pre + 1)) by (rewrite length_app; cbn [length]; lia). cbind. by rewrite <- app_assoc.
  - change (<[Z.to_nat 0 := Some y]> (Some x :: Some y :: ?l)) with ([Some y] ++ Some y :: l). rewrite app_assoc.
    replace (zlen pre + 1) with (zlen (pre ++ [Some y])) by (rewrite length_app; cbn [length]; lia). rewrite IH by lia. by rewrite <- app_assoc.
Qed.

(** Pointers to the elements of [vs], in order. *)
Definition points (data : list Z) (ks vs : list Z) : Prop := Forall2 (λ k v, load data k = Ret v) ks vs.

Lemma print_rest fuel data pre ks vs r out :
  points data ks vs → (length ks < fuel)%nat →
  while_fuel fuel (print_body data (pre ++ map Some ks ++ None :: r)) (zlen pre, out) =
    Ret (out ++ imap (λ i v, (zlen pre + Z.of_nat i, v)) vs).
Proof.
  intros Hp. revert pre fuel out. induction Hp as [|k v ks vs Hk Hp IH]; intros pre fuel out Hf; (destruct fuel as [|fuel]; [cbn in Hf; lia|]); cbn [length map app] in *.
  all: rewrite while_fuel_S; unfold print_body at 2; cbv beta iota; rewrite load_app by done; cbind.
  { by rewrite app_nil_r. }
  rewrite Hk. cbind. change (pre ++ Some k :: map Some ks ++ None :: r) with (pre ++ [Some k] ++ map Some ks ++ None :: r). rewrite app_assoc.
  replace (zlen pre + 1) with (zlen (pre ++ [Some k])) by (rewrite length_app; cbn [length]; lia). rewrite IH by lia. rewrite <- app_assoc. do 2 f_equal.
  cbn [imap app]. rewrite Z.add_0_r. f_equal. apply imap_ext. intros i x _. cbn. rewrite length_app. cbn [length]. f_equal. lia.
Qed.

(** The scan stops at the first element that is the target, or at the null. *)
Lemma find_loop fuel data target pre ks vs r :
  points data ks vs → (length ks < fuel)%nat →
  ∃ ks1 vs1, points data ks1 vs1 ∧
    (((target ∉ vs) ∧ ks1 = ks ∧ vs1 = vs) ∨ (∃ k ks2 vs2, ks = ks1 ++ k :: ks2 ∧ vs = vs1 ++ target :: vs2 ∧ (target ∉ vs1) ∧ points data ks2 vs2)) ∧
    while_fuel fuel (find_body data target (pre ++ map Some ks ++ None :: r)) (zlen pre) = Ret (zlen pre + zlen ks1).
Proof.
  intros Hp. revert pre fuel. induction Hp as [|k v ks vs Hk Hp IH]; intros pre fuel Hf; (destruct fuel as [|fuel]; [cbn in Hf; lia|]); cbn [length map app] in *.
  - exists [], []. split; [constructor|]. split; [left; split_and!; [apply not_elem_of_nil|done..]|].
    rewrite while_fuel_S; unfold find_body at 2; cbv beta iota; rewrite load_app by done; cbind. by rewrite Z.add_0_r.
  - rewrite while_fuel_S; unfold find_body at 2; cbv beta iota; rewrite load_app by done; cbind. rewrite Hk. cbind. destruct (decide (v = target)) as [->|Hne].
    + exists [], []. split; [constructor|]. split; [|cbind; by rewrite Z.add_0_r]. right. exists k, ks, vs. split_and!; [done..|apply not_elem_of_nil|done].
    + cbind. change (pre ++ Some k :: map Some ks ++ None :: r) with (pre ++ [Some k] ++ map Some ks ++ None :: r). rewrite app_assoc.
      replace (zlen pre + 1) with (zlen (pre ++ [Some k])) by (rewrite length_app; cbn [length]; lia).
      destruct (IH (pre ++ [Some k]) fuel ltac:(lia)) as (ks1 & vs1 & Hp1 & Hor & ->). exists (k :: ks1), (v :: vs1).
      split; [by constructor|]. split; [|rewrite length_app; cbn [length]; f_equal; lia].
      destruct Hor as [(H1 & -> & ->)|(k0 & ks2 & vs2 & -> & -> & H1 & H2)].
      * left. split_and!; [|done..]. rewrite not_elem_of_cons. split; [congruence|done].
      * right. exists k0, ks2, vs2. split_and!; [done..| |done]. rewrite not_elem_of_cons. split; [congruence|done].
Qed.

Lemma remove_first_none t l : t ∉ l → remove_first t l = l.
Proof. induction l as [|x l IH]; [done|]. rewrite not_elem_of_cons. intros [H1 H2]. cbn. rewrite decide_False by congruence. by rewrite IH. Qed.

Lemma remove_first_app t a b : t ∉ a → remove_first t (a ++ t :: b) = a ++ b.
Proof.
  induction a as [|x a IH]; cbn; [by rewrite decide_True|]. rewrite not_elem_of_cons. intros [H1 H2]. rewrite decide_False by congruence. by rewrite IH.
Qed.

Lemma points_all data : points data (seqZ 0 (zlen data)) data.
Proof.
  apply Forall2_same_length_lookup_2; [rewrite length_seqZ; lia|]. intros i k v Hk Hv. apply lookup_seqZ in Hk as [-> Hi].
  apply load_Ret. split; [lia|]. by replace (Z.to_nat (0 + Z.of_nat i)) with i by lia.
Qed.

(** The program prints the elements without the first that is the target, with
    their new places; nothing is read or written outside the array of pointers,
    whether the target is there or not. *)
Theorem precedence_removes data target : main data target = Ret (imap (λ i v, (Z.of_nat i, v)) (remove_first target data)).
Proof.
  unfold main. pose proof (points_all data) as Hp. set (ks := seqZ 0 (zlen data)) in *. assert (length ks = length data) as Hl by (unfold ks; rewrite length_seqZ; lia).
  unfold pointers. fold ks.
  destruct (find_loop (S (length data)) data target [] ks data [] Hp ltac:(lia)) as (ks1 & vs1 & Hp1 & Hor & E).
  cbn [app] in E. change (zlen []) with 0 in E. rewrite E. cbind. rewrite Z.add_0_l.
  destruct Hor as [(Hn & -> & ->)|(k & ks2 & vs2 & Eks & Edata & Hn & Hp2)].
  - rewrite while_fuel_S. unfold shift_body at 2. cbv beta iota. rewrite (load_app (map Some ks) _ _ (zlen ks)) by (by rewrite length_map). cbind.
    rewrite (print_rest _ data [] ks data [] [] Hp) by lia. by rewrite remove_first_none.
  - rewrite Eks, map_app, <- app_assoc. cbn [map app].
    replace (zlen ks1) with (zlen (map Some ks1)) by (by rewrite length_map). rewrite shift_loop by (rewrite Eks, length_app in Hl; cbn [length] in Hl; lia). cbind.
    rewrite app_assoc, <- map_app. rewrite (print_rest _ data [] (ks1 ++ ks2) (vs1 ++ vs2) [None] []).
    + rewrite Edata, remove_first_app by done. done.
    + by apply Forall2_app.
    + rewrite Eks, length_app in Hl. cbn [length] in Hl. rewrite length_app. lia.
Qed.

Example precedence_prints : main [1; 2; 3; 4; 5; 6] 3 = Ret [(0, 1); (1, 2); (2, 4); (3, 5); (4, 6)].
Proof. vm_compute. reflexivity. Qed.
End Precedence.

(** ** trivial/strtok.c *)
Module Strtok.
Definition DELIM : Z := 32.

(** A place in a string: the string and the index. *)
Definition pointer : Type := nat * Z.

(** The number of delimiters at the front, and that of the characters up to the
    next delimiter or the terminator. *)
Fixpoint span (l : list Z) : outcome Z :=
  match l with
  | [] => Undef
  | c :: l => if decide (c = DELIM) then n ← span l; Ret (n + 1) else Ret 0
  end.
Fixpoint cspan (l : list Z) : outcome Z :=
  match l with
  | [] => Undef
  | c :: l => if decide (c = DELIM ∨ c = 0) then Ret 0 else n ← cspan l; Ret (n + 1)
  end.

(** [strtok(p, DELIM)]: [saved] is the function's own pointer, null at first. *)
Definition strtok (p : option pointer) (saved : option pointer) (mem : list (list Z)) :
    outcome (option pointer * option pointer * list (list Z)) :=
  match (match p with Some p => Some p | None => saved end) with
  | None => Undef
  | Some (o, i) =>
      match mem !! o with
      | None => Undef
      | Some m =>
          n ← span (drop (Z.to_nat i) m);
          let i := i + n in
          c ← load m i;
          if decide (c = 0) then Ret (None, Some (o, i), mem)
          else
            n ← cspan (drop (Z.to_nat i) m);
            let j := i + n in
            c ← load m j;
            if decide (c = 0) then Ret (Some (o, i), Some (o, j), mem)
            else m ← store m j 0; Ret (Some (o, i), Some (o, j + 1), <[o := m]> mem)
      end
  end.

(** The string at a pointer. *)
Definition text (p : pointer) (mem : list (list Z)) : outcome (list Z) :=
  match mem !! p.1 with Some m => c_string (drop (Z.to_nat p.2) m) | None => Undef end.

(** The loop over [pairs], from the [i]th of [n]; a null pointer is not printed. *)
Fixpoint main (n i : nat) (saved : option pointer) (mem : list (list Z)) : outcome (list (list Z * list Z)) :=
  match n with
  | O => Ret []
  | S n =>
      '(k, saved, mem) ← strtok (Some (i, 0)) saved mem;
      '(v, saved, mem) ← strtok None saved mem;
      match k, v with
      | Some k, Some v => tk ← text k mem; tv ← text v mem; r ← main n (S i) saved mem; Ret ((tk, tv) :: r)
      | _, _ => Undef
      end
  end.

(** A word, and a pair of them. *)
Definition word (w : list Z) : Prop := w ≠ [] ∧ Forall (λ c, is_char c ∧ c ≠ DELIM) w.
Definition pair_text (x : list Z * list Z) : list Z := x.1 ++ DELIM :: x.2 ++ [0].

Lemma span_word w r : word w → span (w ++ r) = Ret 0.
Proof. intros [Hne Hw]. destruct w as [|c w]; [done|]. apply Forall_cons in Hw as [[_ Hc] _]. cbn. by rewrite decide_False. Qed.

Lemma cspan_word w c r : Forall (λ c, is_char c ∧ c ≠ DELIM) w → c = DELIM ∨ c = 0 → cspan (w ++ c :: r) = Ret (zlen w).
Proof.
  intros Hw Hc. induction Hw as [|x w [Hx1 Hx2] Hw IH]; cbn [app cspan]; [by rewrite decide_True|].
  unfold is_char in Hx1. rewrite decide_False by (intros [?|?]; [done|lia]). rewrite IH. cbind. f_equal. cbn [length]. lia.
Qed.

Lemma load_word a w r i : word w → i = zlen a → ∃ c, load (a ++ w ++ r) i = Ret c ∧ c ≠ 0.
Proof.
  intros [Hne Hw] ->. destruct w as [|c w]; [done|]. apply Forall_cons in Hw as [[Hc _] _]. exists c. split; [by apply load_app|].
  unfold is_char in Hc. lia.
Qed.

Lemma text_word w r : word w → c_string (w ++ 0 :: r) = Ret w.
Proof. intros [_ Hw]. apply string_prefix. eapply Forall_impl; [exact Hw|]. cbn. tauto. Qed.

(** The first call cuts the first word off, the second finds the other one. *)
Lemma strtok_first saved pre k v post : word k →
  strtok (Some (length pre, 0)) saved (pre ++ pair_text (k, v) :: post) =
    Ret (Some (length pre, 0), Some (length pre, zlen k + 1), pre ++ (k ++ 0 :: v ++ [0]) :: post).
Proof.
  intros Hk. unfold strtok, pair_text. cbn [fst snd]. rewrite list_lookup_middle by done. rewrite drop_0.
  rewrite span_word by done. cbind. rewrite Z.add_0_l.
  destruct (load_word [] k (DELIM :: v ++ [0]) 0 Hk eq_refl) as (c & E & Hc). cbn [app] in E. rewrite E. cbind. rewrite decide_False by done.
  rewrite drop_0. rewrite cspan_word by first [apply Hk|by left]. cbind. rewrite Z.add_0_l, load_app by done. cbind.
  rewrite decide_False by done. rewrite store_0 by done. unfold store. rewrite decide_True by (cbn [length]; lia). cbind.
  change (<[Z.to_nat 0 := 0]> (DELIM :: v ++ [0])) with (0 :: v ++ [0]). rewrite insert_app_r_alt by lia. by rewrite Nat.sub_diag.
Qed.

Lemma strtok_second pre k v post : word v →
  strtok None (Some (length pre, zlen k + 1)) (pre ++ (k ++ 0 :: v ++ [0]) :: post) =
    Ret (Some (length pre, zlen k + 1), Some (length pre, zlen k + 1 + zlen v), pre ++ (k ++ 0 :: v ++ [0]) :: post).
Proof.
  intros Hv. unfold strtok. rewrite list_lookup_middle by done. change (k ++ 0 :: v ++ [0]) with (k ++ [0] ++ v ++ [0]). rewrite (app_assoc k [0]).
  assert (zlen (k ++ [0]) = zlen k + 1) as Hl by (rewrite length_app; cbn [length]; lia). rewrite <- Hl. rewrite Nat2Z.id, drop_app_length.
  rewrite span_word by done. cbind. rewrite Z.add_0_r. destruct (load_word (k ++ [0]) v [0] _ Hv eq_refl) as (c & E & Hc). rewrite E. cbind.
  rewrite decide_False by done. rewrite Nat2Z.id, drop_app_length. rewrite cspan_word by first [apply Hv|by right]. cbind.
  rewrite app_assoc, load_app by (rewrite !length_app; cbn [length]; lia). cbind. by rewrite decide_True.
Qed.

Lemma text_at pre k v post : word k → word v →
  text (length pre, 0) (pre ++ (k ++ 0 :: v ++ [0]) :: post) = Ret k ∧
  text (length pre, zlen k + 1) (pre ++ (k ++ 0 :: v ++ [0]) :: post) = Ret v.
Proof.
  intros Hk Hv. unfold text. cbn [fst snd]. rewrite list_lookup_middle by done. split; [by apply text_word|].
  change (k ++ 0 :: v ++ [0]) with (k ++ [0] ++ v ++ [0]). rewrite (app_assoc k [0]).
  replace (zlen k + 1) with (zlen (k ++ [0])) by (rewrite length_app; cbn [length]; lia). rewrite Nat2Z.id, drop_app_length. by apply text_word.
Qed.

(** Every pair is printed as its two words: [strtok] is begun anew with each
    string, whatever it remembers of the one before. *)
Theorem strtok_pairs xs saved :
  Forall (λ x, word x.1 ∧ word x.2) xs → main (length xs) 0 saved (map pair_text xs) = Ret xs.
Proof.
  intros Hx. assert (∀ pre, main (length xs) (length pre) saved (pre ++ map pair_text xs) = Ret xs) as H; [|exact (H [])].
  intros pre. revert pre saved. induction Hx as [|[k v] xs [Hk Hv] Hx IH]; intros pre saved; [done|]. cbn [length map main].
  rewrite strtok_first by done. cbind. rewrite strtok_second by done. cbind.
  destruct (text_at pre k v (map pair_text xs) Hk Hv) as [-> ->]. cbind.
  specialize (IH (pre ++ [k ++ 0 :: v ++ [0]])). rewrite length_app in IH. cbn [length] in IH. rewrite Nat.add_1_r, <- app_assoc in IH. cbn [app] in IH.
  rewrite IH. done.
Qed.

Lemma strtok_pairs_witness :
  main 3 0 None (map pair_text [([97], [98]); ([98], [99]); ([99], [100])]) = Ret [([97], [98]); ([98], [99]); ([99], [100])].
Proof. apply (strtok_pairs [([97], [98]); ([98], [99]); ([99], [100])] None). repeat constructor; discriminate. Defined.
End Strtok.

(** ** trivial/kernel-o1-schedule.c *)
Module LowBit.

(** [m = -n], [~(n - 1)] and [n & m] of an [int]. *)
Definition main (n : Z) : outcome (Z * Z * Z) :=
  m ← int_result (- n); k ← int_result (n - 1); Ret (m, Z.lnot k, Z.land n m).

(** The two ways to negate agree, and the conjunction is the lowest set bit, the
    priority the scheduler of the name would take. *)
Theorem low_bit n k : 0 < n ≤ 2147483647 → trailing n k → main n = Ret (- n, - n, 2 ^ k).
Proof.
  intros Hn Ht. unfold main. rewrite !int_result_small by lia. cbind. rewrite (land_opp n k Ht). unfold Z.lnot. do 3 f_equal. lia.
Qed.

Lemma low_bit_witness : main 0x1001018 = Ret (- 0x1001018, - 0x1001018, 2 ^ 3).
Proof. apply (low_bit 0x1001018 3); [lia|]. split; [lia|]. exists 0x100101. reflexivity. Defined.

(** The least [int] cannot be negated. *)
Lemma low_bit_least : main (-2147483648) = Undef.
Proof. reflexivity. Qed.
End LowBit.

(** ** tty/tcflush.c *)
Module Tcflush.

(** The files and descriptors there are, and what was reported. *)
Record world := World { files : gset string; fds : gset Z; said : list string }.

Definition MASTER : string := "master.tty".
Definition SLAVE : string := "slave.tty".

Definition say (x : string) (w : world) : world := World (files w) (fds w) (said w ++ [x]).

(** What the calls answer; [read_]: the bytes, or an error. *)
Record answers := Answers {
  mk_master : bool; mk_slave : bool; open_master : bool; open_slave : bool; write1 : bool; flush : bool; write2 : bool; read_ : option (list Z) }.

(** The innermost part; [data] is the buffer as it was. *)
Definition exchange (a : answers) (data : list Z) (w : world) : outcome world :=
  if negb (write1 a) then Ret (say "write() error" w)
  else if negb (flush a) then Ret (say "tcflush() error" w)
  else
    let w := say "now writing string that will not be flushed" (say "first string is written and tty flushed" w) in
    if negb (write2 a) then Ret (say "write() error" w)
    else
      match read_ a with
      | None => Ret (say "read() error" w)
      | Some bs => let got := take (length data) bs in _ ← c_string (got ++ drop (length got) data); Ret (say "read '%s' from the tty" w)
      end.

Definition main (a : answers) (master slave : Z) (data : list Z) (w : world) : outcome world :=
  if negb (mk_master a) then Ret (say "mknod() error for master tty" w)
  else
    let w := World ({[MASTER]} ∪ files w) (fds w) (said w) in
    w ← (if negb (mk_slave a) then Ret (say "mknod() error for slave tty" w)
         else
           let w := World ({[SLAVE]} ∪ files w) (fds w) (said w) in
           w ← (if negb (open_master a) then Ret (say "open() error for master tty" w)
                else
                  let w := World (files w) ({[master]} ∪ fds w) (said w) in
                  w ← (if negb (open_slave a) then Ret (say "open() error for slave tty" w)
                       else
                         let w := World (files w) ({[slave]} ∪ fds w) (said w) in
                         w ← exchange a data w;
                         Ret (World (files w) (fds w ∖ {[slave]}) (said w)));
                  Ret (World (files w) (fds w ∖ {[master]}) (said w)));
           Ret (World (files w ∖ {[SLAVE]}) (fds w) (said w)));
    Ret (World (files w ∖ {[MASTER]}) (fds w) (said w)).

Lemma exchange_world a data w :
  (∀ bs, read_ a = Some bs → ∃ t r, bs = t ++ 0 :: r ∧ Forall is_char t ∧ (length t < length data)%nat) →
  ∃ l, exchange a data w = Ret (World (files w) (fds w) (said w ++ l)) ∧ l ≠ [].
Proof.
  intros Hr. unfold exchange. destruct (write1 a), (flush a); cbn [negb]; try (by eexists [_]; split; [reflexivity|]).
  destruct (write2 a); cbn [negb]; [|by eexists [_; _; _]; split; [unfold say; cbn [said files fds]; rewrite <- !app_assoc; reflexivity|]].
  destruct (read_ a) as [bs|]; [|by eexists [_; _; _]; split; [unfold say; cbn [said files fds]; rewrite <- !app_assoc; reflexivity|]].
  destruct (Hr bs eq_refl) as (t & r & -> & Ht & Hlt).
  assert (∃ r', take (length data) (t ++ 0 :: r) = t ++ 0 :: r') as [r' ->].
  { exists (take (pred (length data - length t)) r). rewrite take_app_ge by lia. f_equal.
    destruct (length data - length t)%nat eqn:E; [lia|done]. }
  rewrite <- app_assoc. cbn [app]. rewrite string_prefix by done. cbind.
  eexists [_; _; _]. split; [unfold say; cbn [said files fds]; rewrite <- !app_assoc; reflexivity|done].
Qed.

(** Whatever fails, the program says so once it knows, and leaves no file and no
    descriptor of its own behind. *)
Theorem tcflush_cleans a master slave data w :
  MASTER ∉ files w → SLAVE ∉ files w → master ∉ fds w → slave ∉ fds w → master ≠ slave →
  (∀ bs, read_ a = Some bs → ∃ t r, bs = t ++ 0 :: r ∧ Forall is_char t ∧ (length t < length data)%nat) →
  ∃ l, main a master slave data w = Ret (World (files w) (fds w) (said w ++ l)) ∧ l ≠ [].
Proof.
  intros Hm Hs Hfm Hfs Hne Hr. unfold main. destruct (mk_master a); cbn [negb]; [|by eexists [_]; split; [reflexivity|]].
  destruct (mk_slave a); cbn [negb].
  2: { eexists [_]. cbind. split; [|done]. unfold say. cbn [files fds said]. do 2 f_equal. set_solver. }
  destruct (open_master a); cbn [negb].
  2: { eexists [_]. cbind. split; [|done]. unfold say. cbn [files fds said]. do 2 f_equal. set_solver. }
  destruct (open_slave a); cbn [negb].
  2: { eexists [_]. cbind. split; [|done]. unfold say. cbn [files fds said]. do 2 f_equal; set_solver. }
  destruct (exchange_world a data (World ({[SLAVE]} ∪ ({[MASTER]} ∪ files w)) ({[slave]} ∪ ({[master]} ∪ fds w)) (said w)) Hr) as (l & E & Hl).
  cbn [files fds said] in *. rewrite E. exists l. cbind. split; [|done]. cbn [files fds said]. do 2 f_equal; set_solver.
Qed.

Lemma tcflush_cleans_witness :
  let w := World ∅ {[0]} [] in
  ∃ l, main (Answers true true true true true true true (Some [104; 105; 0])) 3 4 (replicate 80 1) w =
    Ret (World (files w) (fds w) (said w ++ l)) ∧ l ≠ [].
Proof.
  apply (tcflush_cleans (Answers true true true true true true true (Some [104; 105; 0])) 3 4 (replicate 80 1) (World ∅ {[0]} []));
    [apply not_elem_of_empty..|cbn; set_solver|cbn; set_solver|discriminate|].
  intros bs [= <-]. exists [104; 105], []. split; [reflexivity|]. split; [|cbn; lia]. repeat constructor.
Defined.
End Tcflush.

(** ** system/getpwuid_r.c *)
Module Getpwuid.
Record passwd := Passwd { pw_name : string; pw_uid : Z; pw_gid : Z; pw_dir : string; pw_shell : string }.

(** What [getpwuid_r] does: an error number; or success with the entry, or with a
    null result when there is no such user, and [pwd] is as it was. *)
Inductive found := Failed (e : Z) | NotFound | Found (p : passwd).

Definition main (f : found) : outcome (option passwd) :=
  let s := match f with Failed e => e | _ => 0 end in
  let pwd := match f with Found p => Some p | _ => None end in
  if decide (s = 0) then match pwd with Some p => Ret (Some p) | None => Undef end else Ret None.

(** Only the number is looked at: a user that is not in the database is printed
    from an indeterminate entry. *)
Lemma getpwuid_unknown f : main f = Undef ↔ f = NotFound ∨ f = Failed 0.
Proof. unfold main. destruct f as [e| |p]; [destruct (decide (e = 0)) as [->|]|..]; naive_solver. Qed.
End Getpwuid.

(** ** trivial/putenv.cpp *)
Module Putenv.

(** The thread: about to put its buffer into the environment, to notify, to
    return, which is the end of the buffer; [main] waits, looks, and joins. *)
Inductive tpc := Puts | Notifies | Returns | Gone.
Inductive mpc := Waits | Looks | Joins | Finished.

(** [env]: whether the environment refers to the buffer; [printed]: what [main]
    has printed. *)
Record state := St { thread : tpc; main_ : mpc; env : bool; u : Z; printed : option Z }.

Definition alive (s : state) : bool := match thread s with Gone => false | _ => true end.

(** [getenv] and the print of the string it finds. *)
Definition look (v : Z) (s : state) : outcome (option Z) :=
  if env s then if alive s then Ret (Some v) else Undef else Undef.

Inductive action := Thread | Main.

(** [None]: the step cannot be taken. *)
Definition step (v : Z) (a : action) (s : state) : outcome (option state) :=
  match a with
  | Thread =>
      Ret match thread s with
      | Puts => Some (St Notifies (main_ s) true (u s) (printed s))
      | Notifies => Some (St Returns (main_ s) (env s) (u s + 1) (printed s))
      | Returns => Some (St Gone (main_ s) (env s) (u s) (printed s))
      | Gone => None
      end
  | Main =>
      match main_ s with
      | Waits => Ret (if decide (u s = 0) then None else Some (St (thread s) Looks (env s) 0 (printed s)))
      | Looks => p ← look v s; Ret (Some (St (thread s) Joins (env s) (u s) p))
      | Joins => Ret (if alive s then None else Some (St (thread s) Finished (env s) (u s) (printed s)))
      | Finished => Ret None
      end
  end.

Fixpoint run (v : Z) (l : list action) (s : state) : outcome (option state) :=
  match l with
  | [] => Ret (Some s)
  | a :: l => o ← step v a s; match o with Some s => run v l s | None => Ret None end
  end.

Definition start : state := St Puts Waits false 0 None.

(** [main] prints the value when it looks before the thread has returned ... *)
Lemma putenv_prints v : printed <$> (match run v [Thread; Thread; Main; Main; Thread; Main] start with Ret o => o | _ => None end) = Some (Some v).
Proof. reflexivity. Qed.

(** ... and reads a buffer that is gone when it does not: the notification does
    not keep the thread. *)
Lemma putenv_dangles v : run v [Thread; Thread; Main; Thread; Main] start = Undef.
Proof. reflexivity. Qed.

(** Nothing else happens: whatever the order, a run either gives the value or
    looks too late, and looking early is not possible. *)
Theorem putenv_value_or_gone v l s :
  run v l start = Ret (Some s) → (printed s = None ∧ main_ s ≠ Finished ∨ printed s = Some v) ∧ (main_ s = Looks → env s = true).
Proof.
  set (ok s := (main_ s = Waits ∧ printed s = None ∧ (thread s = Puts ∧ u s = 0 ∨ thread s ≠ Puts ∧ env s = true)) ∨
    (main_ s = Looks ∧ printed s = None ∧ thread s ≠ Puts ∧ env s = true) ∨ (main_ s = Joins ∨ main_ s = Finished) ∧ printed s = Some v).
  assert (∀ s0, ok s0 → run v l s0 = Ret (Some s) → ok s) as H.
  { induction l as [|a l IH]; intros s0 H0 E; cbn [run] in E; [by simplify_eq|].
    destruct (step v a s0) as [[s1|]| |] eqn:E1; cbn [mbind outcome_bind] in E; try done. apply (IH s1); [|done]. clear IH E.
    destruct s0 as [t m e n p]. unfold ok in *. cbn [main_ printed thread u env] in H0. destruct a; cbn [step thread main_ env u printed] in E1.
    - destruct t; simplify_eq; cbn; naive_solver.
    - destruct m; simplify_eq.
      + destruct (decide (n = 0)); simplify_eq. cbn. naive_solver.
      + unfold look, alive in E1. cbn [env thread] in E1. destruct e; [|done]. destruct t; cbn [mbind outcome_bind] in E1; simplify_eq; cbn; naive_solver.
      + unfold alive in E1. cbn [thread] in E1. destruct t; simplify_eq; cbn; naive_solver. }
  intros E. assert (ok s) as Hs by (apply (H start); [unfold ok; cbn; by left; auto|done]). clear H. unfold ok in Hs.
  destruct Hs as [(-> & -> & _)|[(-> & -> & _ & ->)|[[-> | ->] ->]]]; (split; [auto|done]); left; done.
Qed.

Lemma putenv_value_or_gone_witness :
  ∃ s, run 12 [Thread; Thread; Main; Main; Thread; Main] start = Ret (Some s) ∧
    (printed s = None ∧ main_ s ≠ Finished ∨ printed s = Some 12) ∧ (main_ s = Looks → env s = true).
Proof. eexists. split; [reflexivity|]. apply (putenv_value_or_gone 12 [Thread; Thread; Main; Main; Thread; Main]). reflexivity. Defined.
End Putenv.

(** ** process/thread_specific.cpp *)
Module ThreadSpecific.

(** A thread: before it sets its value ([arg]: the number its argument points to,
    none for the null pointer), before it says that it quits, and at its end,
    where the destructor of the key is called if a value was set. *)
Inductive thread := Begins (arg : option Z) | Quits (value : option Z) | Exits (value : option Z) | Over.

(** [alive]: [main] has not returned, whose vector the pointers point into. *)
Record state := St { threads : list thread; quit : nat; dtors : list Z; alive : bool }.

Definition is_over (t : thread) : Prop := t = Over.
#[export] Instance is_over_dec t : Decision (is_over t).
Proof. unfold is_over. destruct t; [right|right|right|left]; congruence. Defined.

(** One step of the [i]th thread, or the joins and the return of [main]. *)
Inductive action := Step (i : nat) | Return.

Definition step (a : action) (s : state) : outcome (option state) :=
  match a with
  | Step i =>
      match threads s !! i with
      | Some (Begins v) => Ret (Some (St (<[i := Quits v]> (threads s)) (quit s) (dtors s) (alive s)))
      | Some (Quits v) => Ret (Some (St (<[i := Exits v]> (threads s)) (S (quit s)) (dtors s) (alive s)))
      | Some (Exits None) => Ret (Some (St (<[i := Over]> (threads s)) (quit s) (dtors s) (alive s)))
      | Some (Exits (Some v)) =>
          if alive s then Ret (Some (St (<[i := Over]> (threads s)) (quit s) (dtors s ++ [v]) (alive s))) else Undef
      | Some Over | None => Ret None
      end
  | Return => Ret (if decide (Forall is_over (threads s)) then if alive s then Some (St (threads s) (quit s) (dtors s) false) else None else None)
  end.

Fixpoint run (l : list action) (s : state) : outcome (option state) :=
  match l with
  | [] => Ret (Some s)
  | a :: l => o ← step a s; match o with Some s => run l s | None => Ret None end
  end.

Definition start (args : list (option Z)) : state := St (map Begins args) 0 [] true.

(** The numbers whose destructor is to come. *)
Definition pending (t : thread) : list Z :=
  match t with Begins (Some v) | Quits (Some v) | Exits (Some v) => [v] | _ => [] end.
Definition to_quit (t : thread) : nat := match t with Begins _ | Quits _ => 1 | _ => 0 end.

Record inv (args : list (option Z)) (s : state) : Prop := {
  inv_dtors : dtors s ++ (threads s ≫= pending) ≡ₚ omap id args;
  inv_quit : (quit s + sum_list_with to_quit (threads s))%nat = length args;
  inv_alive : alive s = false → Forall is_over (threads s);
}.

Lemma to_quit_insert ts i t t' : ts !! i = Some t →
  (to_quit t + sum_list_with to_quit (<[i := t']> ts) = to_quit t' + sum_list_with to_quit ts)%nat.
Proof.
  revert i. induction ts as [|x ts IH]; intros [|i]; simpl; try done; [intros [= ->]; lia|]. intros H. specialize (IH i H). simpl in IH. lia.
Qed.

Lemma pending_insert ts i t t' :
  ts !! i = Some t → pending t ++ (<[i := t']> ts ≫= pending) ≡ₚ pending t' ++ (ts ≫= pending).
Proof.
  revert i. induction ts as [|x ts IH]; intros [|i]; cbn; try done.
  - intros [= ->]. rewrite !app_assoc. by rewrite (Permutation_app_comm (pending t)).
  - intros H. rewrite !app_assoc, (Permutation_app_comm (pending t)), (Permutation_app_comm (pending t') (pending x)), <- !app_assoc.
    by rewrite (IH i H).
Qed.

(** A step of a thread: what it sets free and what it says. *)
Lemma thread_step_inv args a s o : inv args s → step a s = o → ∃ o', o = Ret o' ∧ ∀ s', o' = Some s' → inv args s'.
Proof.
  intros [Hd Hq Ha] <-. destruct a as [i|]; cbn [step].
  - destruct (threads s !! i) as [t|] eqn:Ei; [|eauto].
    assert (t ≠ Over → alive s = true) as Hal.
    { intros Hn. destruct (alive s); [done|]. specialize (Ha eq_refl). rewrite Forall_lookup in Ha. by specialize (Ha i t Ei). }
    assert (∀ t' l q, t ≠ Over → pending t ≡ₚ l ++ pending t' → (to_quit t = q + to_quit t')%nat →
      inv args (St (<[i := t']> (threads s)) (q + quit s) (dtors s ++ l) (alive s))) as Hs.
    { intros t' l q Hn Hp Hk. constructor; cbn [threads quit dtors alive].
      - rewrite <- Hd, <- app_assoc. apply Permutation_app_head. apply (Permutation_app_inv_l (pending t')).
        rewrite <- (pending_insert _ _ _ t' Ei), Hp. rewrite !app_assoc. apply Permutation_app_tail. apply Permutation_app_comm.
      - rewrite <- Hq. pose proof (to_quit_insert _ _ _ t' Ei). lia.
      - by rewrite Hal. }
    destruct t as [v|v|[v|]|]; try (eexists; split; [reflexivity|]; intros s' [= <-]).
    + specialize (Hs (Quits v) [] 0%nat). rewrite app_nil_r in Hs. apply Hs; [done|by destruct v|done].
    + specialize (Hs (Exits v) [] 1%nat). rewrite app_nil_r in Hs. apply Hs; [done|by destruct v|done].
    + rewrite Hal by done. eexists; split; [reflexivity|]; intros s' [= <-]. rewrite <- (Hal ltac:(done)). by apply (Hs Over [v] 0%nat).
    + specialize (Hs Over [] 0%nat). rewrite (app_nil_r (dtors s)) in Hs. by apply Hs.
    + by eexists.
  - eexists. split; [reflexivity|]. intros s'. case_decide; [|done]. destruct (alive s); [|done]. intros [= <-]. by constructor.
Qed.

Lemma over_empty ts : Forall is_over ts → ts ≫= pending = [] ∧ sum_list_with to_quit ts = 0%nat.
Proof. induction 1 as [|t ts -> _ [IH1 IH2]]; [done|]. cbn. by rewrite IH1, IH2. Qed.

(** However the threads are interleaved, no destructor reads a number that is
    gone; when [main] has returned, every thread has said that it quits, and the
    destructor was called once for every number that was set, and for no other. *)
Theorem thread_specific_destroys args l :
  ∃ o, run l (start args) = Ret o ∧ ∀ s, o = Some s → alive s = false → quit s = length args ∧ dtors s ≡ₚ omap id args.
Proof.
  assert (∀ s, inv args s → ∃ o, run l s = Ret o ∧ ∀ s', o = Some s' → inv args s') as H.
  { induction l as [|a l IH]; intros s Hs; cbn [run]; [eexists; split; [reflexivity|]; by intros s' [= <-]|].
    destruct (thread_step_inv args a s _ Hs eq_refl) as (o & -> & Ho). cbn [mbind outcome_bind]. destruct o as [s1|]; [by apply IH, Ho|by eexists]. }
  destruct (H (start args)) as (o & E & Ho).
  - constructor; cbn [start threads quit dtors alive app]; [| |done].
    + clear H. induction args as [|[v|] args IH]; [done|exact (Permutation_cons eq_refl IH)|exact IH].
    + clear H. induction args as [|v args IH]; [done|]. cbn in *. lia.
  - exists o. split; [done|]. intros s Hs Hal. destruct (Ho s Hs) as [Hd Hq Hover]. destruct (over_empty _ (Hover Hal)) as [E1 E2].
    rewrite E1, app_nil_r in Hd. split; [lia|done].
Qed.
End ThreadSpecific.
